(* ===== verification/_CoqProject ===== *)
-Q . S2P
Prelude.v
Bytes.v
Protocol.v
Subscription.v
ClientState.v
SubscriptionState.v
Validate.v
IdMap.v
Client.v
SubscriptionClient.v
Read.v
Steps.v
Runtime.v
Fixtures.v
Intent.v
PullProps.v
PushProps.v
OptimisticProps.v
SubscriptionProps.v
ReadProps.v
Canonical.v
CanonicalProps.v
PreflightProps.v
FingerprintProps.v
HttpCodec.v
HttpProps.v
BootstrapCodec.v
BootstrapProps.v
VerifierProps.v
SubscriptionCodec.v
CborReference.v
Vectors.v
Json.v
NativeErrors.v
Wire.v
NativeCodec.v
Engine.v
StateRows.v
StateLoad.v
Stage.v
StateStore.v
StageStore.v
Queue.v
ReadJournal.v
SubscriptionJournal.v
View.v
NativeClient.v
NativeOps.v
NativeBootstrap.v
StateProps.v
StoreProps.v
ClientCoherence.v
ClientSteps.v
ClientOpen.v
ClientInvariant.v
ClientResult.v
QueueProps.v
Memory.v
NativeFixtures.v
JournalProps.v
ViewProps.v
ViewResults.v
NativeProps.v
WireProps.v
StageProps.v
StageVectors.v
Reliable.v
NativeProgress.v
StorageInspection.v
InspectionProps.v
SubscriptionJournalProps.v
Handle.v
HandleProps.v
HandleClose.v
HandleProgress.v
Registry.v
Surface.v
Diagnostics.v
StageFrames.v
StageRuns.v
