(* ===== verification/Prelude.v ===== *)
(** * Verification of the surrealdb-sync replication core

    The repository is a React Native binding of SurrealDB with an offline-first
    replication layer.  Three Rust crates carry its logic: [surrealdb-sync-protocol]
    (messages, canonical encodings, bootstrap verification), [surrealdb-sync-client] (the
    pure state machine of a replica) and [surrealdb-rn-core] (the native adapter: durable
    storage, staged bootstrap, the client around the state machine, journals, views, wire
    values).  This library models the logic of all three and proves it correct.

    ** How the system works

    A client keeps one durable state ([DurableClientState]): records confirmed by the
    authority, an outbox of pending commits, the recorded outcomes of pushed commits, a
    checkpoint into the authority's log, reset coverage, a map from local to canonical
    record ids, and ordered-window subscriptions.  Every event (enqueue, push response,
    conflict resolution, pull batch, reset, bootstrap snapshot, subscription start /
    cancel / response) *prepares* a complete replacement state; the adapter persists it;
    *install* makes it current, provided the installed revision is still the one the
    transition was prepared from.  Reads are pure functions of the installed state.  On
    the wire, commits, pulls, bootstrap pages and windows travel as canonical CBOR under
    strict resource limits; commits carry a SHA-256 fingerprint, bootstrap snapshots an
    ordered digest tree that a streaming verifier checks page by page.

    The native adapter stores a state as one metadata row and one row per component in an
    embedded SurrealDB.  A transition is written as the difference of two states in one
    transaction, guarded by the stored state, together with the optimistic projection on
    the application's own tables.  A commit may fail with an unknown outcome: the client
    then drops its installed state and is poisoned until it is opened again.  A bootstrap
    is staged page by page in its own tables behind a rotating fence and is installed by
    one transaction that verifies the pages and consumes the stage.  Journals of committed
    read batches and window frames let readers follow the client by cursors.  The database
    handle is used by many calls at once: a lifecycle lock and a session generation keep
    sync clients out of a session that changes, a registry gives clients of one journal one
    runtime, and closing ends what the handle has given out.

    ** Files and sources

    Paths are below [src/crates/].  Vocabulary:
    - [Prelude]: [Result] and [?] ([result], [let?]), early-return loops ([try_fold],
      [try_map], [try_for_each]), checked and wrapping [u64] arithmetic, byte-ordered
      strings, [BTreeMap] iteration as sorted entries of a [gmap], the tactic [inv_ok].
    - [Bytes]: big-endian integers and the bytes of a string.
    Client state machine:
    - [Protocol]: the types of [surrealdb-sync-protocol/src/lib.rs].
    - [Subscription]: [subscription.rs], requests, responses and their validation.
    - [ClientState]: the types of [surrealdb-sync-client/src/lib.rs], [subscriptions.rs].
    - [SubscriptionState]: [DurableSubscriptions::validate], cache keys, row order.
    - [Validate]: [DurableClientState::validate] and its declarative form [ValidState].
    - [IdMap]: [apply_id_mapping] and the [remap_*] functions.
    - [Client]: the [ClientRuntime] methods of [lib.rs].
    - [SubscriptionClient]: the [ClientRuntime] methods of [subscriptions.rs].
    - [Read]: [read.rs], metadata, snapshots, committed batches.
    - [Steps]: the events as one type ([event]), [prepare_event] dispatching to the
      [prepare_*] methods, and what each event may change ([client_step]).
    - [Runtime]: the interleaving of preparing, installing and dropping transitions
      ([run_step]), its invariant, and the sequential specification ([atomic_step]).
    - [Fixtures]: a concrete replica for the witnesses, and two corner cases.
    - [Intent], [PullProps], [PushProps], [OptimisticProps], [SubscriptionProps],
      [ReadProps]: the theorems.
    Codecs:
    - [Canonical]: [canonical.rs]; [CanonicalProps], [PreflightProps], [FingerprintProps].
    - [HttpCodec]: [http_codec.rs]; [HttpProps].
    - [BootstrapCodec]: [bootstrap.rs], [bootstrap_codec.rs]; [BootstrapProps] (messages),
      [VerifierProps] (content hasher and verifier).
    - [SubscriptionCodec]: [subscription_codec.rs] with its theorem.
    - [CborReference]: a CBOR codec and SHA-256 that instantiate the library parameters;
      [Vectors]: the models run on the crates' own golden test
      vectors, and the codec theorems on concrete messages.
    Native adapter ([surrealdb-rn-core/src/]):
    - [Json], [NativeErrors]: JSON values, numerals, tagged JSON; the error types and their
      translations.
    - [Wire], [NativeCodec]: [wire.rs], [sync_codec.rs], [sync_http_codec.rs]; [WireProps].
    - [Engine]: the embedded database as a parameter with its laws, the rows, and the
      transaction monad [tx].
    - [StateRows], [StateLoad], [StateStore]: [sync_state.rs], rows and budgets, readers
      and inspection, sessions and transactions; [StateProps] (reading back what was
      written), [StoreProps] (what every write leaves in the database).
    - [Stage], [StageStore]: [sync_bootstrap_store.rs], the stage and its budgets, fences
      and guards, and its six operations; [StageProps], run by [StageVectors];
      [StageFrames] (fences as text, which control rows a transaction touches),
      [StageRuns] (sequences of calls of both stores, and the machine they follow).
    - [Queue]: [sync_queue.rs]; [QueueProps].
    - [ReadJournal], [SubscriptionJournal]: [sync_read.rs], [sync_subscription.rs];
      [JournalProps].
    - [View]: [sync_view.rs]; [ViewProps], [ViewResults].
    - [NativeClient], [NativeOps]: [sync_client.rs], the runtime cell with its guard,
      and its operations; [NativeBootstrap]: [sync_bootstrap.rs].
    - [ClientCoherence], [ClientSteps], [ClientOpen], [ClientInvariant]: the invariant
      [agrees] for every operation; [ClientResult]: what an operation reports,
      and that an unknown outcome poisons the client;
      [NativeProps]: the theorems, and corner cases.
    - [Reliable], [NativeProgress]: operations over a database that answers and a handle
      that stays open succeed.
    - [StorageInspection]: [sync_storage_inspection.rs] and [inspect_sync_state];
      [InspectionProps].
    - [SubscriptionJournalProps]: the bounds of the window journal.
    - [Handle]: the stateful part of [lib.rs], [SurrealDatabase], [SurrealTransaction],
      [LiveQuery] and the runtime guard as concurrent calls ([advance], [happen],
      [reachable]); [HandleProps] (the lifecycle lock and the session), [HandleClose]
      (closing, with three corner cases), [HandleProgress] (no deadlock).
    - [Registry]: [RuntimeRegistry] and the clients that share runtimes.
    - [Surface]: the functions of [lib.rs] on values, [connect], queries, batches, result
      encoding.
    - [Diagnostics]: [sync_diagnostics.rs] and the places that record.
    - [Memory], [NativeFixtures]: an engine and serializers that instantiate the
      parameters, and a small client for the witnesses.

    ** Correspondence

    A method [fn m(&self, x) -> Result<T, E>] is a function of the state and [x] to
    [result T E]; [&mut] parameters are returned.  [u64], [u16] and [usize] are [N] with
    the source's checked, saturating or (in release builds) wrapping operations; [i64] is
    [Z]; a [String] is its bytes; [BTreeMap] and [BTreeSet] are [gmap] and [gset] iterated
    in key order; [CanonicalValue::Object] is its entries in key order; a binary64 is its
    bit pattern; a running SHA-256 is the bytes it was fed.  Error values and the order of
    the checks are the source's.

    Native code has three small monads: [tx] inside a transaction (a database and an
    error), [io] outside it (the committed database and the number of observations made so
    far) and [act] for a client operation (its cell, its poison flag and [io]); views run
    in [charged], which meters work.  An operation holds the lock of the cell for its whole
    body in the source, so it is one function; what other threads may change meanwhile
    (handle closed, session replaced, clocks) is read through [Host] at each look, and the
    theorems hold for all observations.  The handle is modelled separately, as a transition
    system: a call is a program counter, an atomic step runs from one await, lock or atomic
    to the next, and a run is any interleaving of steps, new calls and dropped objects; the
    engine's answers are part of the event.  A call whose future is dropped half way and
    poisoned mutexes are left out there.  The engine is used by one store at a time: between
    the begin and the commit of a transaction no other writer commits.

    Code outside the repository is a parameter with its documented behaviour as named
    hypotheses: [Ciborium] with [CiboriumLaws] (what the serializer writes without an
    error, the reader reads back), [Sha256] with [Sha256Laws] (32 bytes; collisions are
    explicit in the statements, never assumed away), [Serde] (no law); for the native
    adapter [Engine] with [EngineLaws] (a successful call reads or writes the record it
    names and no other; a failing call promises nothing, except that a commit happens
    completely or not at all and a cancellation writes nothing), [JsonText] and
    [StateSerde] with [JsonTextLaws] and [StateSerdeLaws] (what [serde_json] wrote, it
    reads back), [SurrealTypes] with [Base64Laws], and [BridgeSerde] (no law).
    [CommitTrace] speaks of a trace in the committed database that only a commit reporting
    an error can leave.
    [CborReference], [Memory] and [NativeFixtures] instantiate all of them.

    ** What the theorems show

    - Runs (C1-C3): arbitrary interleavings of prepare, install and drop refine one atomic
      event at a time; only valid states are installed; local intent is never lost, and only
      record names in it change, each as an accepted id mapping says.
    - Native client and storage (C4-C15): an installed state is always the stored state,
      whatever operations run and whatever fails; a journal transition is atomic, leaves the
      rows of the new state and of its optimistic projection (records that left the
      projection lose theirs) and reads back exactly; a bootstrap completion installs and
      stores exactly the verified pages, once; over
      any sequence of calls the control rows of a journal follow one small machine, a scope
      barrier stays, an ended stage stays ended and the fence tells every change;
      reports match effects; once a commit has had an unknown outcome the client is poisoned
      and touches nothing any more; over a database that answers every accepted transition
      is installed and stored; the storage inspection writes nothing, reports the journal,
      barrier and tables that are there, and refuses rows of another owner.
    - Handle (C16-C19): a sync client never works in two sessions; closing ends every
      transaction once; calls do not deadlock; one runtime per journal and session.
    - Push (C20-C21): the validator decides the declarative invariant; enqueueing succeeds
      exactly when it should.
    - Pull (C22-C23): batches apply exactly and gap-free; reset responses and bootstrap
      snapshots replace exactly, never move backwards and never discard local intent.
    - Reads (C24-C25): the optimistic view is the last unconfirmed write in the order of
      the outcomes and the queue; read batches replay.
    - Views, journals, queue (C26-C31): view answers are exact and bounded, pages partition
      the selection and their cursors end; the journal answers every cursor and polling
      catches up; admission to the queue is exact.
    - Windows (C32-C34): retired generations stay retired; windows only move forward and
      are isolated from each other in spite of the shared row cache.
    - Bootstrap (C35-C36): the verifier accepts exactly the complete, ordered, untampered
      page sequence; the codec is exact.
    - Canonical values and queries (C37-C40): the fingerprint binds the commit; values
      round trip; the preflight scan accepts exactly the bounded items of the CBOR head
      encoding of RFC 8949; batches and profiled queries do
      what single queries do, with either serializer.

    Further theorems without a number in the same files: id mappings rename completely,
    redelivery changes nothing, replacements are rebased on the authority, acceptance does
    not flicker, conflicts are decided once, the pending window is the longest prefix that
    fits, cancellation withdraws, validation budgets are exact, push and pull messages, HTTP
    values and CBOR values round trip, revision and cursor never go back, stale transitions are
    refused, a read returns exactly the record's rows, a window's view is complete, a
    bootstrap root binds its content, canonical bytes and HTTP bytes are unique, the window
    journal stays within its bounds, [connect] retries only a locked file and at most 21
    times, and the diagnostics saturate and account for every operation.

    ** Bounds and fuel

    No model needs fuel beyond what the source bounds itself: the preflight scan recurses
    on [MAX_DEPTH + 1 - depth], the depth limit of the code (so [0] is its [DepthLimit]
    error), [from_wire_value] on [MAX_WIRE_DEPTH] likewise, [connect_attempts] on the 21
    attempts of the code; the eviction of the window journal ([evict_total]) has the number
    of batches as fuel, which [evict_total_ends] shows to be enough; everything else is
    structural.
    [CiboriumLaws] is asked for nesting up to 128 levels: a valid value of depth 32 has at
    most 66 CBOR levels, a message at most 77, and the library reads 256.  [ref_decode] has
    fuel 257 for that reason.  [JsonTextLaws] is asked for 127 levels, the recursion limit
    of the JSON reader; [storable_state] says that a state stays below it.

    ** Not modelled

    The test-only conformance file [household_owner_metadata_proof.rs] and the crates' unit
    tests; cancellation of a call by dropping its future; the [uniffi] glue, tokio, HTTP,
    the TypeScript packages, the iOS and Android glue, [Display] and [Error]
    implementations, the derived [serde] encodings (a parameter), and build scripts.  The
    client operations of [NativeOps] and the handle of [Handle] are verified separately; the
    operations are not composed with the handle's transition system.  The runs of
    [StageRuns] take it that no record of the application lies in the control tables
    ([op_public]): [native_record_id] refuses only some of the adapter's tables.
    The theorem on unknown outcomes leaves out an opening that has to migrate a journal of
    the first format ([no_migration]): there the source does not poison the client. *)

From stdpp Require Export base tactics gmap strings list sorting numbers fin_maps.

Global Set Default Proof Using "Type".

(** ** Fallible code: [Result<A, E>] and the [?] operator *)

Inductive result (A E : Type) : Type :=
| Ok (a : A)
| Err (e : E).
Arguments Ok {A E} a.
Arguments Err {A E} e.

#[export] Instance result_eq_dec {A E} `{!EqDecision A, !EqDecision E} :
  EqDecision (result A E).
Proof. solve_decision. Defined.

Definition result_bind {A B E} (c : result A E) (k : A → result B E) : result B E :=
  match c with Ok a => k a | Err e => Err e end.

Definition is_ok {A E} (c : result A E) : bool :=
  match c with Ok _ => true | Err _ => false end.

(** [option.ok_or(e)] *)
Definition ok_or {A E} (o : option A) (e : E) : result A E :=
  match o with Some a => Ok a | None => Err e end.

(** [option.is_some_and(p)] *)
Definition is_some_and {A} (P : A → Prop) (o : option A) : Prop :=
  match o with Some a => P a | None => False end.
#[export] Instance is_some_and_dec {A} (P : A → Prop) (o : option A)
  `{!∀ a, Decision (P a)} : Decision (is_some_and P o).
Proof. destruct o; simpl; apply _. Defined.

Declare Scope rust_scope.
Delimit Scope rust_scope with rust.
Notation "'let?' x ':=' c 'in' k" := (result_bind c (λ x, k))
  (at level 10, x pattern, c at level 100, k at level 200,
   format "'[v' 'let?'  x  ':='  c  'in' '/' k ']'") : rust_scope.
Global Open Scope rust_scope.

(** [for x in l { f(x)?; }] *)
Fixpoint try_for_each {A E} (f : A → result unit E) (l : list A) : result unit E :=
  match l with
  | [] => Ok tt
  | x :: l => let? _ := f x in try_for_each f l
  end.

(** A loop that threads mutable state and may return early with an error. *)
Fixpoint try_fold {A S E} (f : S → A → result S E) (s : S) (l : list A) : result S E :=
  match l with
  | [] => Ok s
  | x :: l => let? s := f s x in try_fold f s l
  end.

(** [l.iter().map(f).collect::<Result<Vec<_>, _>>()] *)
Fixpoint try_map {A B E} (f : A → result B E) (l : list A) : result (list B) E :=
  match l with
  | [] => Ok []
  | x :: l => let? y := f x in let? ys := try_map f l in Ok (y :: ys)
  end.

Lemma result_bind_Ok {A B E} (c : result A E) (k : A → result B E) b :
  result_bind c k = Ok b ↔ ∃ a, c = Ok a ∧ k a = Ok b.
Proof. destruct c; naive_solver. Qed.

Lemma ok_or_Ok {A E} (o : option A) (e : E) a : ok_or o e = Ok a ↔ o = Some a.
Proof. destruct o; naive_solver. Qed.

Lemma try_for_each_Ok {A E} (f : A → result unit E) l :
  try_for_each f l = Ok tt ↔ Forall (λ x, f x = Ok tt) l.
Proof.
  induction l as [|x l IH]; simpl; [naive_solver|].
  rewrite result_bind_Ok, Forall_cons, <-IH. split; [|naive_solver].
  by intros ([] & ? & ?).
Qed.

Lemma try_for_each_ok_unit {A E} (f : A → result unit E) l u :
  try_for_each f l = Ok u ↔ Forall (λ x, f x = Ok tt) l.
Proof. destruct u. apply try_for_each_Ok. Qed.

Lemma try_map_Ok {A B E} (f : A → result B E) l l' :
  try_map f l = Ok l' ↔ Forall2 (λ x y, f x = Ok y) l l'.
Proof.
  revert l'; induction l as [|x l IH]; intros l'; simpl.
  - split; [intros; simplify_eq; constructor|by inversion 1].
  - rewrite result_bind_Ok. setoid_rewrite result_bind_Ok. setoid_rewrite IH. split.
    + intros (y & ? & ys & ? & ?); simplify_eq. by constructor.
    + inversion 1; simplify_eq; eauto.
Qed.

(** An invariant of the accumulator carried through [try_fold]. *)
Lemma try_fold_inv {A S E} (P : S → Prop) (f : S → A → result S E) l s s' :
  (∀ s x s', x ∈ l → P s → f s x = Ok s' → P s') →
  P s → try_fold f s l = Ok s' → P s'.
Proof.
  revert s. induction l as [|x l IH]; intros s Hf Hs; simpl.
  - intros; by simplify_eq.
  - rewrite result_bind_Ok. intros (s1 & Hx & Hl).
    eapply IH; [|eapply Hf; [|done|done]|done]; set_solver.
Qed.

(** ** Case analysis on successful runs *)

(** [inv_ok] peels a hypothesis stating that a piece of fallible code returned
    [Ok]: every [?], every early-return guard and every [match] of the code
    becomes the fact that holds on the surviving path. *)
Ltac inv_ok_step :=
  match goal with
  | H : Ok _ = Ok _ |- _ => injection H as H; subst
  | H : Err _ = Ok _ |- _ => discriminate H
  | H : Ok _ = Err _ |- _ => discriminate H
  | H : result_bind _ _ = Ok _ |- _ =>
      apply result_bind_Ok in H; destruct H as (? & ? & H)
  | H : ok_or _ _ = Ok _ |- _ => apply ok_or_Ok in H
  | H : (if decide ?P then _ else _) = Ok _ |- _ => destruct (decide P); [try discriminate H|try discriminate H]
  | H : (if ?b then Err _ else _) = Ok _ |- _ => destruct b eqn:?; [discriminate H|]
  | H : (if ?b then _ else Err _) = Ok _ |- _ => destruct b eqn:?; [|discriminate H]
  | H : match ?x with _ => _ end = Ok _ |- _ => destruct x eqn:?; try discriminate H
  | u : unit |- _ => destruct u
  end.
Ltac inv_ok := repeat (inv_ok_step; simpl in * ).

Lemma refusal_or_3 (P Q R : Prop) : ¬ (P ∨ Q ∨ R) → ¬ P ∧ ¬ Q ∧ ¬ R.
Proof. tauto. Qed.

Lemma refusal_or (P Q : Prop) : ¬ (P ∨ Q) → ¬ P ∧ ¬ Q.
Proof. tauto. Qed.

(** Guards are disjunctions of refusals; on the surviving path every one fails. *)
Ltac destruct_guards :=
  repeat match goal with
  | H : ¬ (_ ∨ _) |- _ => apply refusal_or in H; destruct H
  | H : ¬ (?a ≠ ?b) |- _ => apply dec_stable in H
  | H : ¬ ¬ _ |- _ => apply dec_stable in H
  end.

(** ** Machine integers *)

Definition u64_max : N := 18446744073709551615.
Definition u32_max : N := 4294967295.
Definition u16_max : N := 65535.
Definition is_u64 (n : N) : Prop := (n ≤ u64_max)%N.

Definition checked_add (m a b : N) : option N :=
  if (a + b <=? m)%N then Some (a + b)%N else None.
Definition checked_sub (a b : N) : option N :=
  if (b <=? a)%N then Some (a - b)%N else None.
Definition saturating_add (m a b : N) : N := N.min m (a + b).
Definition saturating_sub (a b : N) : N := (a - b)%N.
(** [+] and [-] on [u64] in a release build: reduction modulo 2^64. *)
Definition wrapping_add_u64 (a b : N) : N := ((a + b) mod (u64_max + 1))%N.
Definition wrapping_sub_u64 (a b : N) : N :=
  ((a + (u64_max + 1 - b mod (u64_max + 1))) mod (u64_max + 1))%N.

Lemma checked_add_Some m a b c :
  checked_add m a b = Some c ↔ c = (a + b)%N ∧ (a + b ≤ m)%N.
Proof. unfold checked_add. destruct (N.leb_spec (a + b) m); naive_solver lia. Qed.

Lemma checked_sub_Some a b c :
  checked_sub a b = Some c ↔ c = (a - b)%N ∧ (b ≤ a)%N.
Proof. unfold checked_sub. destruct (N.leb_spec b a); naive_solver lia. Qed.

Lemma wrapping_add_small a b :
  (a + b ≤ u64_max)%N → wrapping_add_u64 a b = (a + b)%N.
Proof. intros. unfold wrapping_add_u64. apply N.mod_small. unfold u64_max in *. lia. Qed.

Lemma wrapping_add_sub_1 a : is_u64 a → wrapping_sub_u64 (wrapping_add_u64 a 1) 1 = a.
Proof.
  unfold is_u64, wrapping_sub_u64, wrapping_add_u64, u64_max. intros Ha.
  change (1 mod (18446744073709551615 + 1))%N with 1%N.
  destruct (decide (a = 18446744073709551615%N)) as [->|]; [reflexivity|].
  rewrite (N.mod_small (a + 1)) by lia.
  replace (a + 1 + (18446744073709551615 + 1 - 1))%N
    with (a + 1 * (18446744073709551615 + 1))%N by lia.
  rewrite N.Div0.mod_add. apply N.mod_small. lia.
Qed.

(** ** Byte lengths of strings and lengths of vectors, as machine integers *)

Definition str_len (s : string) : N := N.of_nat (String.length s).
Definition vec_len {A} (l : list A) : N := N.of_nat (length l).
Definition map_len {A} (m : gmap string A) : N := N.of_nat (size m).
Definition set_len (s : gset string) : N := N.of_nat (size s).
Definition str_is_empty (s : string) : bool := bool_decide (s = "").

(** ** Orderings *)

(** [Ordering::then] *)
Definition ordering_then (c d : comparison) : comparison :=
  match c with Eq => d | _ => c end.
(** [Ordering::is_ge] *)
Definition is_ge (c : comparison) : bool := match c with Lt => false | _ => true end.

Definition str_cmp (s t : string) : comparison := (s ?= t)%string.
Definition str_lt (s t : string) : Prop := str_cmp s t = Lt.

#[export] Instance str_lt_dec : RelDecision str_lt.
Proof. intros s t. unfold str_lt. apply _. Defined.

Lemma str_cmp_eq s t : str_cmp s t = Eq ↔ s = t.
Proof.
  split; [apply String.compare_eq_iff|intros <-]. unfold str_cmp.
  induction s as [|a s IH]; simpl; [done|]. unfold Ascii.compare.
  by rewrite N.compare_refl.
Qed.

Lemma str_cmp_antisym s t : str_cmp s t = CompOpp (str_cmp t s).
Proof. apply String.compare_antisym. Qed.

Lemma str_le_lteq s t : String.le s t ↔ str_lt s t ∨ s = t.
Proof.
  unfold String.le, String.leb, str_lt. rewrite <-(str_cmp_eq s t). unfold str_cmp.
  destruct (s ?= t)%string; naive_solver.
Qed.

Lemma str_lt_irrefl s : ¬ str_lt s s.
Proof. unfold str_lt. by rewrite (proj2 (str_cmp_eq s s) eq_refl). Qed.

#[export] Instance str_lt_trans : Transitive str_lt.
Proof.
  intros s t u Hst Htu.
  assert (String.le s u) as Hsu.
  { transitivity t; apply str_le_lteq; by left. }
  apply str_le_lteq in Hsu as [?| ->]; [done|].
  exfalso. unfold str_lt in *. rewrite str_cmp_antisym, Hst in Htu. done.
Qed.

(** ** [BTreeMap] iteration: the entries in increasing key order *)

Definition key_le {A} (p q : string * A) : Prop := String.le p.1 q.1.
#[export] Instance key_le_dec {A} : RelDecision (@key_le A).
Proof. intros p q. unfold key_le. apply _. Defined.
#[export] Instance key_le_total {A} : Total (@key_le A).
Proof. intros p q. unfold key_le. apply (total String.le). Qed.
#[export] Instance key_le_trans {A} : Transitive (@key_le A).
Proof. intros p q r. unfold key_le. apply (transitivity (R := String.le)). Qed.

Definition btree_entries {A} (m : gmap string A) : list (string * A) :=
  merge_sort key_le (map_to_list m).
Definition btree_keys {A} (m : gmap string A) : list string := (btree_entries m).*1.
Definition btree_values {A} (m : gmap string A) : list A := (btree_entries m).*2.

Lemma btree_entries_perm {A} (m : gmap string A) : btree_entries m ≡ₚ map_to_list m.
Proof. apply merge_sort_Permutation. Qed.

Lemma elem_of_btree_entries {A} (m : gmap string A) k v :
  (k, v) ∈ btree_entries m ↔ m !! k = Some v.
Proof. rewrite btree_entries_perm. apply elem_of_map_to_list. Qed.

Lemma elem_of_btree_keys {A} (m : gmap string A) k :
  k ∈ btree_keys m ↔ is_Some (m !! k).
Proof.
  unfold btree_keys. rewrite list_elem_of_fmap. split.
  - intros ([k' v] & -> & ?%elem_of_btree_entries). by exists v.
  - intros [v ?]. exists (k, v). by rewrite elem_of_btree_entries.
Qed.

Lemma elem_of_btree_values {A} (m : gmap string A) v :
  v ∈ btree_values m ↔ ∃ k, m !! k = Some v.
Proof.
  unfold btree_values. rewrite list_elem_of_fmap. split.
  - intros ([k v'] & -> & ?%elem_of_btree_entries). by exists k.
  - intros [k ?]. exists (k, v). by rewrite elem_of_btree_entries.
Qed.

Lemma Forall_btree_entries {A} (P : string * A → Prop) (m : gmap string A) :
  Forall P (btree_entries m) ↔ ∀ k v, m !! k = Some v → P (k, v).
Proof.
  rewrite Forall_forall. setoid_rewrite <-elem_of_btree_entries. split; [naive_solver|].
  intros H [k v]. apply H.
Qed.

Lemma btree_keys_NoDup {A} (m : gmap string A) : NoDup (btree_keys m).
Proof. unfold btree_keys. rewrite btree_entries_perm. apply NoDup_fst_map_to_list. Qed.

Lemma btree_keys_sorted {A} (m : gmap string A) : StronglySorted String.le (btree_keys m).
Proof.
  unfold btree_keys, btree_entries.
  eapply StronglySorted_fmap with (R1 := key_le); [done|].
  apply Sorted_StronglySorted; [apply _|]. apply Sorted_merge_sort; apply _.
Qed.

Lemma length_btree_entries {A} (m : gmap string A) : length (btree_entries m) = size m.
Proof. by rewrite btree_entries_perm, length_map_to_list. Qed.

(** ** Duplicate detection with a growing [BTreeSet] *)

(** The loop [for x in l { if !seen.insert(key(x)) { return Err(e(x)) } }]. *)
Fixpoint check_distinct {A E} (key : A → string) (e : A → E)
    (seen : gset string) (l : list A) : result (gset string) E :=
  match l with
  | [] => Ok seen
  | x :: l =>
      if decide (key x ∈ seen) then Err (e x)
      else check_distinct key e ({[key x]} ∪ seen) l
  end.

Lemma check_distinct_Ok {A E} (key : A → string) (e : A → E) l seen seen' :
  check_distinct key e seen l = Ok seen' ↔
  NoDup (key <$> l) ∧ (∀ x, x ∈ key <$> l → x ∉ seen) ∧
  seen' = list_to_set (key <$> l) ∪ seen.
Proof.
  revert seen. induction l as [|x l IH]; intros seen; csimpl.
  - split; [intros; simplify_eq|intros (_ & _ & ->)].
    + repeat split; [constructor|set_solver|set_solver].
    + f_equal. set_solver.
  - case_decide as Hx; [split; [done|intros (_ & Hn & _); set_solver]|].
    rewrite IH, NoDup_cons. split.
    + intros (? & Hn & ->). repeat split; [|done|set_solver|set_solver].
      intros Hin. apply (Hn _ Hin). set_solver.
    + intros ((? & ?) & Hn & ->). repeat split; [done|set_solver|set_solver].
Qed.

(** A vector collected into a [BTreeSet] keeps its length exactly when its
    elements are pairwise distinct. *)
Lemma size_list_to_set_NoDup (l : list string) :
  size (list_to_set l : gset string) = length l ↔ NoDup l.
Proof.
  split; [|intros ?; by apply size_list_to_set].
  induction l as [|x l IH]; [constructor|].
  simpl. intros Hsz.
  assert (size (list_to_set l : gset string) ≤ length l) as Hle.
  { clear. induction l as [|y l IH]; simpl; [done|].
    rewrite size_union_alt, size_singleton.
    assert (size ((list_to_set l : gset string) ∖ {[y]}) ≤ size (list_to_set l : gset string))
      by (apply subseteq_size; set_solver). lia. }
  destruct (decide (x ∈ l)) as [Hx|Hx].
  - exfalso. assert (({[x]} ∪ list_to_set l : gset string) = list_to_set l) as Heq
      by set_solver. rewrite Heq in Hsz. lia.
  - constructor; [done|]. apply IH.
    rewrite size_union, size_singleton in Hsz by set_solver. lia.
Qed.

(** ** Slices *)

(** [l.windows(2)] *)
Fixpoint windows2 {A} (l : list A) : list (A * A) :=
  match l with
  | x :: (y :: _) as t => (x, y) :: windows2 t
  | _ => []
  end.

(** [l.iter().position(p)] with the element found. *)
Fixpoint position {A} (p : A → bool) (l : list A) : option (nat * A) :=
  match l with
  | [] => None
  | x :: l => if p x then Some (0, x) else prod_map S id <$> position p l
  end.

(** [l.iter().find(p)] *)
Definition find_first {A} (p : A → bool) (l : list A) : option A := snd <$> position p l.

(** [Vec::remove] at an index in range. *)
Definition vec_remove {A} (i : nat) (l : list A) : list A := take i l ++ drop (S i) l.

Lemma position_Some {A} (p : A → bool) l i x :
  position p l = Some (i, x) ↔
  l !! i = Some x ∧ p x = true ∧ (∀ j y, j < i → l !! j = Some y → p y = false).
Proof.
  revert i. induction l as [|y l IH]; intros i; simpl.
  { split; [done|]. intros (H & _). by destruct i. }
  destruct (p y) eqn:Hp.
  - split.
    + intros; simplify_eq. repeat split; [done|]. lia.
    + destruct i as [|i]; simpl; [intros (? & _); congruence|]. intros (_ & _ & H).
      assert (p y = false) by (apply (H 0 y); [lia|done]). congruence.
  - rewrite fmap_Some. split.
    + intros ([j z] & Hj & ?); simplify_eq/=. apply IH in Hj as (? & ? & Hj).
      repeat split; [done..|]. intros [|k] w Hk; simpl; [congruence|].
      apply Hj. lia.
    + destruct i as [|i]; simpl; [intros (? & ? & _); congruence|]. intros (? & ? & H).
      exists (i, x). split; [|done]. apply IH. repeat split; [done..|].
      intros j z Hj. apply (H (S j)). lia.
Qed.

Lemma position_None {A} (p : A → bool) l :
  position p l = None ↔ Forall (λ x, p x = false) l.
Proof.
  induction l as [|y l IH]; simpl; [naive_solver|].
  rewrite Forall_cons, <-IH. destruct (p y) eqn:Hp; [naive_solver|].
  rewrite fmap_None. naive_solver.
Qed.

Lemma position_elem_of {A} (p : A → bool) l i x :
  position p l = Some (i, x) → x ∈ l ∧ p x = true.
Proof. intros (Hi & ? & _)%position_Some. split; [|done]. by eapply list_elem_of_lookup_2. Qed.

Lemma find_first_Some {A} (p : A → bool) l x :
  find_first p l = Some x → x ∈ l ∧ p x = true.
Proof.
  unfold find_first. intros ([i y] & H & ->)%fmap_Some. by eapply position_elem_of.
Qed.

Lemma find_first_None {A} (p : A → bool) l :
  find_first p l = None ↔ Forall (λ x, p x = false) l.
Proof. unfold find_first. by rewrite fmap_None, position_None. Qed.

Lemma vec_remove_perm {A} i (l : list A) x :
  l !! i = Some x → x :: vec_remove i l ≡ₚ l.
Proof.
  intros Hi. unfold vec_remove.
  rewrite <-(take_drop_middle l i x Hi) at 3. by rewrite Permutation_middle.
Qed.

Lemma list_to_map_btree_entries {A} (m : gmap string A) :
  list_to_map (btree_entries m) = m.
Proof.
  rewrite <-(list_to_map_to_list m) at 2. apply list_to_map_proper.
  - rewrite btree_entries_perm. apply NoDup_fst_map_to_list.
  - apply btree_entries_perm.
Qed.

(** Consecutive pairs related means sorted. *)
Lemma Forall_windows2 {A} (R : relation A) (l : list A) :
  Forall (λ p, R p.1 p.2) (windows2 l) ↔ Sorted R l.
Proof.
  induction l as [|x [|y l] IH]; [split; constructor|split; repeat constructor|].
  change (windows2 (x :: y :: l)) with ((x, y) :: windows2 (y :: l)).
  rewrite Forall_cons, IH. split.
  - intros [? ?]. constructor; [done|by constructor].
  - intros H. inversion H as [|? ? ? Hh]; subst. by inversion Hh; subst.
Qed.

Lemma existsb_false_Forall {A} (p : A → bool) l :
  existsb p l = false ↔ Forall (λ x, p x = false) l.
Proof.
  induction l as [|x l IH]; simpl; [by rewrite Forall_nil|].
  by rewrite orb_false_iff, Forall_cons, IH.
Qed.

Lemma existsb_true_elem {A} (p : A → bool) l :
  existsb p l = true ↔ ∃ x, x ∈ l ∧ p x = true.
Proof.
  rewrite existsb_exists. by setoid_rewrite list_elem_of_In.
Qed.

Lemma forallb_true_Forall {A} (p : A → bool) l :
  forallb p l = true ↔ Forall (λ x, p x = true) l.
Proof.
  induction l as [|x l IH]; simpl; [by rewrite Forall_nil|].
  by rewrite andb_true_iff, Forall_cons, IH.
Qed.

(** Keeping a refusal out of the way: [if refuse then Err e else k]. *)
Lemma guard_Ok {A E} (P : Prop) `{!Decision P} (e : E) (k : result A E) a :
  (if decide P then Err e else k) = Ok a ↔ ¬ P ∧ k = Ok a.
Proof. destruct (decide P); naive_solver. Qed.

Lemma guard_bool_Ok {A E} (b : bool) (e : E) (k : result A E) a :
  (if b then Err e else k) = Ok a ↔ b = false ∧ k = Ok a.
Proof. destruct b; naive_solver. Qed.
