(* ===== verification/Bytes.v ===== *)
(** * Bytes: big-endian integers and the bytes of a string. *)

From Stdlib Require Import Strings.Byte.
From S2P Require Import Prelude.

Definition byte_of (n : N) : byte := default x00 (Byte.of_N (n mod 256)).

Lemma byte_of_to_N n : Byte.to_N (byte_of n) = (n mod 256)%N.
Proof.
  unfold byte_of. destruct (Byte.of_N (n mod 256)) as [b|] eqn:Hb; simpl.
  - by apply Byte.to_of_N.
  - apply Byte.of_N_None_iff in Hb. pose proof (N.mod_lt n 256). lia.
Qed.

(** The [k] low bytes of [n], most significant first: [n.to_be_bytes()]. *)
Fixpoint be_bytes (k : nat) (n : N) : list byte :=
  match k with
  | O => []
  | S k => be_bytes k (n / 256) ++ [byte_of n]
  end.

Definition be_read (l : list byte) : N := foldl (λ v b, v * 256 + Byte.to_N b)%N 0%N l.

Lemma length_be_bytes k n : length (be_bytes k n) = k.
Proof. revert n. induction k; intros n; simpl; [done|]. rewrite length_app, IHk. simpl. lia. Qed.

Lemma be_read_bytes k n : (n < 256 ^ N.of_nat k)%N → be_read (be_bytes k n) = n.
Proof.
  revert n. induction k as [|k IH]; intros n Hn.
  { simpl in *. change (256 ^ 0)%N with 1%N in Hn. unfold be_read. simpl. lia. }
  simpl. unfold be_read in *. rewrite foldl_app. simpl. rewrite IH, byte_of_to_N.
  - rewrite (N.div_mod' n 256) at 3. lia.
  - apply N.Div0.div_lt_upper_bound. rewrite <-N.pow_succ_r', <-Nat2N.inj_succ. done.
Qed.

Lemma be_bytes_inj k n m :
  (n < 256 ^ N.of_nat k)%N → (m < 256 ^ N.of_nat k)%N → be_bytes k n = be_bytes k m → n = m.
Proof. intros Hn Hm H. by rewrite <-(be_read_bytes k n Hn), H, be_read_bytes. Qed.

Lemma length_list_byte_of_string s :
  length (String.list_byte_of_string s) = String.length s.
Proof. induction s as [|a s IH]; simpl; [done|]. by f_equal. Qed.

(** ** Base-256 digits *)

Lemma be_read_snoc p b : be_read (p ++ [b]) = (be_read p * 256 + Byte.to_N b)%N.
Proof. unfold be_read. by rewrite foldl_app. Qed.

Lemma be_read_lt p : (be_read p < 256 ^ N.of_nat (length p))%N.
Proof.
  induction p as [|b p IH] using rev_ind; [done|].
  rewrite be_read_snoc, length_app, Nat.add_1_r, Nat2N.inj_succ, N.pow_succ_r'.
  pose proof (Byte.to_N_bounded b). lia.
Qed.

(** The bytes [p] are the base-256 digits of [n], most significant first. *)
Definition be_digits (p : list byte) (n : N) : Prop :=
  (n < 256 ^ N.of_nat (length p))%N ∧
  ∀ i b, p !! i = Some b →
    Byte.to_N b = ((n / 256 ^ N.of_nat (length p - 1 - i)) mod 256)%N.

Lemma be_digits_snoc p b n :
  be_digits (p ++ [b]) n ↔ be_digits p (n / 256) ∧ Byte.to_N b = (n mod 256)%N.
Proof.
  unfold be_digits. rewrite length_app, Nat.add_1_r, Nat2N.inj_succ, N.pow_succ_r'. simpl.
  assert (∀ i, (i < length p)%nat →
    (n / 256 / 256 ^ N.of_nat (length p - 1 - i)
      = n / 256 ^ N.of_nat (length p - 0 - i))%N) as Hdiv.
  { intros i Hi. rewrite N.Div0.div_div, <-N.pow_succ_r', <-Nat2N.inj_succ.
    by replace (S (length p - 1 - i)) with (length p - 0 - i)%nat by lia. }
  split.
  - intros [Hn Hd]. split_and!.
    + by apply N.Div0.div_lt_upper_bound.
    + intros i c Hc. pose proof (lookup_lt_Some _ _ _ Hc). rewrite Hdiv by done.
      apply Hd. by rewrite lookup_app_l.
    + rewrite (Hd (length p) b) by apply list_lookup_middle, eq_refl.
      replace (length p - 0 - length p)%nat with 0%nat by lia.
      by rewrite N.pow_0_r, N.div_1_r.
  - intros [[Hn Hd] Hb]. split.
    + pose proof (N.div_mod' n 256). pose proof (N.mod_lt n 256). lia.
    + intros i c [Hc|[Hi Hc]]%lookup_app_Some.
      * pose proof (lookup_lt_Some _ _ _ Hc). rewrite (Hd _ _ Hc), Hdiv by done. done.
      * apply list_lookup_singleton_Some in Hc as [Hi0 <-].
        replace (length p - 0 - i)%nat with 0%nat by lia. by rewrite N.pow_0_r, N.div_1_r.
Qed.

Lemma be_read_digits p n : be_read p = n ↔ be_digits p n.
Proof.
  revert n. induction p as [|b p IH] using rev_ind; intros n.
  { unfold be_digits, be_read. simpl. rewrite N.pow_0_r. split.
    - intros <-. split; [lia|done].
    - intros [? _]. lia. }
  rewrite be_digits_snoc, <-IH, be_read_snoc.
  pose proof (Byte.to_N_bounded b) as Hb. split.
  - intros <-. rewrite N.div_add_l, N.div_small by lia. split; [lia|].
    rewrite (N.add_comm (_ * _)), N.Div0.mod_add, N.mod_small; lia.
  - intros [-> ->]. by rewrite N.mul_comm, <-N.div_mod'.
Qed.
