(* ===== verification/Protocol.v ===== *)
(** * The [surrealdb-sync/1] message types.

    Models [crates/surrealdb-sync-protocol/src/lib.rs]: the data exchanged by
    the client and the authority.  The string newtypes of the source
    ([PartitionId], [ClientId], [RecordId], ...) are their byte strings; [u64]
    fields are [N].  Everything is generic in the payload type [V], as in the
    source. *)

From S2P Require Import Prelude.

Abbreviation PartitionId := string (only parsing).
Abbreviation ClientId := string (only parsing).
Abbreviation ClientCommitId := string (only parsing).
Abbreviation Fingerprint := string (only parsing).
Abbreviation RecordId := string (only parsing).
Abbreviation ScopeIdentity := string (only parsing).
Abbreviation OpaqueCheckpoint := string (only parsing).

Definition V1_NAME : string := "surrealdb-sync/1".

Inductive SchemaVersion := V1.

Record CommitIdentity := mkIdentity {
  client_commit_id : ClientCommitId;
  fingerprint : Fingerprint;
}.

Inductive BaseVersion :=
| BaseAbsent
| Exact (v : N).

Inductive Operation (V : Type) :=
| Upsert (record_id : RecordId) (base_version : BaseVersion) (value : V)
         (reference : option RecordId)
| Delete (record_id : RecordId) (base_version : N).
Arguments Upsert {V} _ _ _ _.
Arguments Delete {V} _ _.

Definition op_record_id {V} (op : Operation V) : RecordId :=
  match op with Upsert record_id _ _ _ | Delete record_id _ => record_id end.

Record ClientCommit (V : Type) := mkCommit {
  commit_identity : CommitIdentity;
  operations : list (Operation V);
}.
Arguments mkCommit {V} _ _.
Arguments commit_identity {V} _.
Arguments operations {V} _.

Record PushRequest (V : Type) := mkPushRequest {
  preq_schema_version : SchemaVersion;
  preq_partition_id : PartitionId;
  preq_client_id : ClientId;
  preq_commit : ClientCommit V;
}.
Arguments mkPushRequest {V} _ _ _ _.
Arguments preq_schema_version {V} _.
Arguments preq_partition_id {V} _.
Arguments preq_client_id {V} _.
Arguments preq_commit {V} _.

Record IdMapping := mkMapping {
  local_id : RecordId;
  canonical_id : RecordId;
}.

Inductive RecordState (V : Type) :=
| Absent
| Present (value : V) (version : N) (reference : option RecordId)
| Tombstone (version : N).
Arguments Absent {V}.
Arguments Present {V} _ _ _.
Arguments Tombstone {V} _.

Definition state_version {V} (s : RecordState V) : option N :=
  match s with
  | Absent => None
  | Present _ version _ | Tombstone version => Some version
  end.

Inductive RejectReason :=
| InvalidOperation
| CommitIdentityMismatch
| Unauthorized
| UnsupportedSchemaVersion.

Inductive DurableOutcome (V : Type) :=
| Accepted (identity : CommitIdentity) (sequence : N) (id_mappings : list IdMapping)
| Conflict (identity : CommitIdentity) (record_id : RecordId)
           (authoritative : RecordState V)
| Rejected (identity : CommitIdentity) (reason : RejectReason).
Arguments Accepted {V} _ _ _.
Arguments Conflict {V} _ _ _.
Arguments Rejected {V} _ _.

Definition outcome_identity {V} (o : DurableOutcome V) : CommitIdentity :=
  match o with
  | Accepted identity _ _ | Conflict identity _ _ | Rejected identity _ => identity
  end.

Record PushResponse (V : Type) := mkPushResponse {
  presp_schema_version : SchemaVersion;
  presp_partition_id : PartitionId;
  presp_client_id : ClientId;
  presp_outcome : DurableOutcome V;
}.
Arguments mkPushResponse {V} _ _ _ _.
Arguments presp_schema_version {V} _.
Arguments presp_partition_id {V} _.
Arguments presp_client_id {V} _.
Arguments presp_outcome {V} _.

Record Cursor := mkCursor {
  epoch : N;
  sequence : N;
}.

Record ScopeSnapshot := mkScope {
  scope_identity : ScopeIdentity;
  authorization_revision : N;
  scope_subscription_revision : N;
}.

Record Checkpoint := mkCheckpoint {
  token : OpaqueCheckpoint;
  cursor : Cursor;
  scope : ScopeSnapshot;
}.

Record PullRequest := mkPullRequest {
  pull_schema_version : SchemaVersion;
  pull_partition_id : PartitionId;
  pull_client_id : ClientId;
  pull_checkpoint : option OpaqueCheckpoint;
  pull_requested_scope : ScopeIdentity;
  pull_subscription_revision : N;
}.

Record AppliedRecord (V : Type) := mkApplied {
  applied_record_id : RecordId;
  applied_state : RecordState V;
}.
Arguments mkApplied {V} _ _.
Arguments applied_record_id {V} _.
Arguments applied_state {V} _.

Record PullCommit (V : Type) := mkPullCommit {
  pc_sequence : N;
  pc_source : option CommitIdentity;
  pc_records : list (AppliedRecord V);
}.
Arguments mkPullCommit {V} _ _ _.
Arguments pc_sequence {V} _.
Arguments pc_source {V} _.
Arguments pc_records {V} _.

Inductive PullFrame (V : Type) :=
| FrameStart (checkpoint : Checkpoint)
| FrameCommit (checkpoint : OpaqueCheckpoint) (commit : PullCommit V)
| FrameEnd (checkpoint : Checkpoint).
Arguments FrameStart {V} _.
Arguments FrameCommit {V} _ _.
Arguments FrameEnd {V} _.

Record PullBatch (V : Type) := mkBatch { frames : list (PullFrame V) }.
Arguments mkBatch {V} _.
Arguments frames {V} _.

Inductive ResetReason :=
| CheckpointExpired
| EpochChanged
| AuthorizationChanged
| SubscriptionChanged
| ScopeChanged
| ExternalWriteQuarantined.

Record SnapshotRecord (V : Type) := mkSnapshotRecord {
  snap_record_id : RecordId;
  snap_state : RecordState V;
}.
Arguments mkSnapshotRecord {V} _ _.
Arguments snap_record_id {V} _.
Arguments snap_state {V} _.

Record ResetSnapshot (V : Type) := mkReset {
  reset_reason : ResetReason;
  reset_checkpoint : Checkpoint;
  reset_records : list (SnapshotRecord V);
}.
Arguments mkReset {V} _ _ _.
Arguments reset_reason {V} _.
Arguments reset_checkpoint {V} _.
Arguments reset_records {V} _.

Inductive PullResponse (V : Type) :=
| Batch (b : PullBatch V)
| Reset (r : ResetSnapshot V).
Arguments Batch {V} _.
Arguments Reset {V} _.

(** ** The derived [Eq] implementations *)

#[export] Instance SchemaVersion_eq_dec : EqDecision SchemaVersion.
Proof. solve_decision. Defined.
#[export] Instance CommitIdentity_eq_dec : EqDecision CommitIdentity.
Proof. solve_decision. Defined.
#[export] Instance BaseVersion_eq_dec : EqDecision BaseVersion.
Proof. solve_decision. Defined.
#[export] Instance IdMapping_eq_dec : EqDecision IdMapping.
Proof. solve_decision. Defined.
#[export] Instance RejectReason_eq_dec : EqDecision RejectReason.
Proof. solve_decision. Defined.
#[export] Instance ResetReason_eq_dec : EqDecision ResetReason.
Proof. solve_decision. Defined.
#[export] Instance Cursor_eq_dec : EqDecision Cursor.
Proof. solve_decision. Defined.
#[export] Instance ScopeSnapshot_eq_dec : EqDecision ScopeSnapshot.
Proof. solve_decision. Defined.
#[export] Instance Checkpoint_eq_dec : EqDecision Checkpoint.
Proof. solve_decision. Defined.
#[export] Instance Operation_eq_dec {V} `{!EqDecision V} : EqDecision (Operation V).
Proof. solve_decision. Defined.
#[export] Instance ClientCommit_eq_dec {V} `{!EqDecision V} : EqDecision (ClientCommit V).
Proof. solve_decision. Defined.
#[export] Instance RecordState_eq_dec {V} `{!EqDecision V} : EqDecision (RecordState V).
Proof. solve_decision. Defined.
#[export] Instance DurableOutcome_eq_dec {V} `{!EqDecision V} : EqDecision (DurableOutcome V).
Proof. solve_decision. Defined.
#[export] Instance PullCommit_eq_dec {V} `{!EqDecision V} : EqDecision (PullCommit V).
Proof.
  assert (EqDecision (AppliedRecord V)) by solve_decision. solve_decision.
Defined.

(** [matches!(outcome, DurableOutcome::Accepted { .. })] and its siblings. *)
Definition is_accepted {V} (o : DurableOutcome V) : bool :=
  match o with Accepted _ _ _ => true | _ => false end.
Definition is_conflict {V} (o : DurableOutcome V) : bool :=
  match o with Conflict _ _ _ => true | _ => false end.

(** The reference a record state carries, if any: the pattern
    [RecordState::Present { reference: Some(reference), .. }]. *)
Definition state_reference {V} (s : RecordState V) : option RecordId :=
  match s with Present _ _ reference => reference | _ => None end.

(** The order of authority cursors: an epoch change dominates the sequence. *)
Definition cursor_le (a b : Cursor) : Prop :=
  (epoch a < epoch b)%N ∨ (epoch a = epoch b ∧ (sequence a ≤ sequence b)%N).

#[export] Instance cursor_le_po : PreOrder cursor_le.
Proof.
  split.
  - intros a. right. split; [done|lia].
  - intros a b c [?|[??]] [?|[??]]; unfold cursor_le; lia.
Qed.
