(* ===== verification/Subscription.v ===== *)
(** * The [surrealdb-subscription/1] ordered-window protocol.

    Models [crates/surrealdb-sync-protocol/src/subscription.rs]: requests,
    responses and their shape validation.  The [u16] row limits and [u64]
    revisions are [N], [i64] sort keys are [Z]; query parameters are a
    [BTreeMap], a finite map iterated in key order. *)

From S2P Require Import Prelude Protocol.

Definition MAX_SUBSCRIPTIONS : N := 32.
Definition MAX_WINDOW_ROWS : N := 32.
Definition MAX_PARAMETERS : N := 8.
Definition MAX_SUBSCRIPTION_TEXT : N := 256.
Definition MAX_SUBSCRIPTION_BYTES : N := 256 * 1024.

Inductive QueryScalar :=
| SBool (b : bool)
| SInt (z : Z)
| SText (s : string).

Inductive ScalarKind := KBool | KInt | KText.

Definition scalar_kind (q : QueryScalar) : ScalarKind :=
  match q with SBool _ => KBool | SInt _ => KInt | SText _ => KText end.

(** The derived [Ord]: constructors in declaration order, then the payload. *)
Definition scalar_cmp (a b : QueryScalar) : comparison :=
  match a, b with
  | SBool x, SBool y => Bool.compare x y
  | SBool _, _ => Lt
  | SInt x, SInt y => Z.compare x y
  | SInt _, SBool _ => Gt
  | SInt _, SText _ => Lt
  | SText x, SText y => str_cmp x y
  | SText _, _ => Gt
  end.

Inductive SortDirection := Ascending | Descending.

Inductive SubscriptionCommand :=
| CmdStart (subscription_id : string) (generation : N) (definition_id : string)
           (parameters : gmap string QueryScalar) (limit : N)
| CmdResume (subscription_id : string) (generation : N) (token : OpaqueCheckpoint)
| CmdCancel (subscription_id : string) (generation : N).

Definition command_identity (c : SubscriptionCommand) : string * N :=
  match c with
  | CmdStart subscription_id generation _ _ _
  | CmdResume subscription_id generation _
  | CmdCancel subscription_id generation => (subscription_id, generation)
  end.

Record SubscriptionRequest := mkSubRequest {
  sreq_partition_id : PartitionId;
  sreq_client_id : ClientId;
  sreq_requested_scope : ScopeIdentity;
  sreq_subscription_revision : N;
  sreq_command : SubscriptionCommand;
}.

Record WindowCoverage := mkWindow {
  win_definition_id : string;
  win_limit : N;
  win_order_field : string;
  win_order_kind : ScalarKind;
  win_direction : SortDirection;
}.

Record SubscriptionRow (V : Type) := mkRow {
  row_record_id : RecordId;
  row_value : V;
  row_version : N;
  row_sort_key : QueryScalar;
}.
Arguments mkRow {V} _ _ _ _.
Arguments row_record_id {V} _.
Arguments row_value {V} _.
Arguments row_version {V} _.
Arguments row_sort_key {V} _.

Inductive MembershipChange (V : Type) :=
| MUpsert (row : SubscriptionRow V)
| MLeave (record_id : RecordId)
| MDelete (record_id : RecordId) (version : N).
Arguments MUpsert {V} _.
Arguments MLeave {V} _.
Arguments MDelete {V} _ _.

Inductive WindowResetReason := Initial | Expired | Stale | WEpochChanged | PlanChanged.

Inductive WindowResponseKind :=
| WSnapshot (reason : WindowResetReason)
| WDelta (before_revision : N)
| WCancelled.

Record SubscriptionResponse (V : Type) := mkSubResponse {
  sr_partition_id : PartitionId;
  sr_client_id : ClientId;
  sr_subscription_id : string;
  sr_generation : N;
  sr_plan_fingerprint : string;
  sr_scope : ScopeSnapshot;
  sr_frontier : Cursor;
  sr_view_revision : N;
  sr_coverage : WindowCoverage;
  sr_response : WindowResponseKind;
  sr_token : option OpaqueCheckpoint;
  sr_ordered_ids : list RecordId;
  sr_changes : list (MembershipChange V);
}.
Arguments mkSubResponse {V} _ _ _ _ _ _ _ _ _ _ _ _ _.
Arguments sr_partition_id {V} _.
Arguments sr_client_id {V} _.
Arguments sr_subscription_id {V} _.
Arguments sr_generation {V} _.
Arguments sr_plan_fingerprint {V} _.
Arguments sr_scope {V} _.
Arguments sr_frontier {V} _.
Arguments sr_view_revision {V} _.
Arguments sr_coverage {V} _.
Arguments sr_response {V} _.
Arguments sr_token {V} _.
Arguments sr_ordered_ids {V} _.
Arguments sr_changes {V} _.

#[export] Instance QueryScalar_eq_dec : EqDecision QueryScalar.
Proof. solve_decision. Defined.
#[export] Instance ScalarKind_eq_dec : EqDecision ScalarKind.
Proof. solve_decision. Defined.
#[export] Instance SortDirection_eq_dec : EqDecision SortDirection.
Proof. solve_decision. Defined.
#[export] Instance SubscriptionCommand_eq_dec : EqDecision SubscriptionCommand.
Proof. solve_decision. Defined.
#[export] Instance SubscriptionRequest_eq_dec : EqDecision SubscriptionRequest.
Proof. solve_decision. Defined.
#[export] Instance WindowCoverage_eq_dec : EqDecision WindowCoverage.
Proof. solve_decision. Defined.
#[export] Instance SubscriptionRow_eq_dec {V} `{!EqDecision V} :
  EqDecision (SubscriptionRow V).
Proof. solve_decision. Defined.

(** ** Validation *)

Definition valid_subscription_text (value : string) : bool :=
  negb (str_is_empty value) && (str_len value <=? MAX_SUBSCRIPTION_TEXT)%N.

(** [match value { QueryScalar::Text(value) => value.len() <= MAX, _ => true }] *)
Definition scalar_text_bounded (q : QueryScalar) : bool :=
  match q with SText value => (str_len value <=? MAX_SUBSCRIPTION_TEXT)%N | _ => true end.

Definition validate_subscription_request (request : SubscriptionRequest) : bool :=
  let '(id, generation) := command_identity (sreq_command request) in
  if negb (valid_subscription_text (sreq_partition_id request))
     || negb (valid_subscription_text (sreq_client_id request))
     || negb (valid_subscription_text (sreq_requested_scope request))
     || negb (valid_subscription_text id)
     || (generation =? 0)%N
  then false
  else
    match sreq_command request with
    | CmdStart _ _ definition_id parameters limit =>
        valid_subscription_text definition_id
        && (0 <? limit)%N
        && (limit <=? MAX_WINDOW_ROWS)%N
        && (map_len parameters <=? MAX_PARAMETERS)%N
        && forallb (λ kv, valid_subscription_text kv.1 && scalar_text_bounded kv.2)
             (btree_entries parameters)
    | CmdResume _ _ token => valid_subscription_text token
    | CmdCancel _ _ => true
    end.

Definition change_record_id {V} (change : MembershipChange V) : RecordId :=
  match change with
  | MUpsert row => row_record_id row
  | MLeave record_id | MDelete record_id _ => record_id
  end.

Definition is_upsert_change {V} (change : MembershipChange V) : bool :=
  match change with MUpsert _ => true | _ => false end.

Definition response_shape {V} (response : SubscriptionResponse V) : bool :=
  match sr_response response with
  | WCancelled =>
      bool_decide (sr_token response = None)
      && bool_decide (sr_ordered_ids response = [])
      && match sr_changes response with [] => true | _ => false end
  | WSnapshot _ =>
      bool_decide (is_Some (sr_token response))
      && forallb is_upsert_change (sr_changes response)
  | WDelta _ => bool_decide (is_Some (sr_token response))
  end.

Definition validate_subscription_response {V} (response : SubscriptionResponse V) : bool :=
  let change_ids : gset string :=
    list_to_set (change_record_id <$> sr_changes response) in
  let coverage := sr_coverage response in
  response_shape response
  && (set_len change_ids =? vec_len (sr_changes response))%N
  && (set_len (list_to_set (sr_ordered_ids response))
        =? vec_len (sr_ordered_ids response))%N
  && valid_subscription_text (sr_partition_id response)
  && valid_subscription_text (sr_client_id response)
  && valid_subscription_text (sr_subscription_id response)
  && (0 <? sr_generation response)%N
  && valid_subscription_text (sr_plan_fingerprint response)
  && (0 <? epoch (sr_frontier response))%N
  && (0 <? sr_view_revision response)%N
  && valid_subscription_text (scope_identity (sr_scope response))
  && valid_subscription_text (win_definition_id coverage)
  && valid_subscription_text (win_order_field coverage)
  && (0 <? win_limit coverage)%N
  && (win_limit coverage <=? MAX_WINDOW_ROWS)%N
  && (vec_len (sr_ordered_ids response) <=? win_limit coverage)%N
  && forallb valid_subscription_text (sr_ordered_ids response)
  && (vec_len (sr_changes response) <=? MAX_WINDOW_ROWS * 2)%N
  && match sr_token response with
     | None => true
     | Some token => valid_subscription_text token
     end
  && forallb (λ change, match change with
       | MUpsert row =>
           valid_subscription_text (row_record_id row)
           && (0 <? row_version row)%N
           && bool_decide (scalar_kind (row_sort_key row) = win_order_kind coverage)
           && scalar_text_bounded (row_sort_key row)
       | MLeave record_id => valid_subscription_text record_id
       | MDelete record_id version =>
           valid_subscription_text record_id && (0 <? version)%N
       end) (sr_changes response).

(** ** The row order of a window *)

(** The comparator of [ordered] and of the slot validation: the sort keys in the
    window's direction, ties broken by increasing record id. *)
Definition row_cmp {V} (direction : SortDirection) (a b : SubscriptionRow V) : comparison :=
  let comparison := scalar_cmp (row_sort_key a) (row_sort_key b) in
  let comparison :=
    match direction with Ascending => comparison | Descending => CompOpp comparison end in
  ordering_then comparison (str_cmp (row_record_id a) (row_record_id b)).

Lemma scalar_cmp_eq a b : scalar_cmp a b = Eq ↔ a = b.
Proof.
  destruct a as [x|x|x], b as [y|y|y]; simpl; try (split; [done|]; by inversion 1).
  - destruct x, y; naive_solver.
  - rewrite Z.compare_eq_iff. naive_solver.
  - rewrite str_cmp_eq. naive_solver.
Qed.

Lemma scalar_cmp_antisym a b : scalar_cmp b a = CompOpp (scalar_cmp a b).
Proof.
  destruct a as [x|x|x], b as [y|y|y]; simpl; try done.
  - by destruct x, y.
  - apply Z.compare_antisym.
  - apply str_cmp_antisym.
Qed.

Lemma scalar_cmp_lt_trans a b c :
  scalar_cmp a b = Lt → scalar_cmp b c = Lt → scalar_cmp a c = Lt.
Proof.
  destruct a as [x|x|x], b as [y|y|y], c as [z|z|z]; simpl; try done.
  - by destruct x, y, z.
  - rewrite !Z.compare_lt_iff. lia.
  - apply str_lt_trans.
Qed.

Lemma row_cmp_antisym {V} d (a b : SubscriptionRow V) : row_cmp d b a = CompOpp (row_cmp d a b).
Proof.
  unfold row_cmp. rewrite (scalar_cmp_antisym (row_sort_key a)), (str_cmp_antisym (row_record_id b)).
  destruct d, (scalar_cmp (row_sort_key a) (row_sort_key b)); simpl; done.
Qed.

Lemma row_cmp_eq {V} d (a b : SubscriptionRow V) :
  row_cmp d a b = Eq ↔ row_sort_key a = row_sort_key b ∧ row_record_id a = row_record_id b.
Proof.
  unfold row_cmp. rewrite <-scalar_cmp_eq, <-str_cmp_eq.
  destruct d, (scalar_cmp (row_sort_key a) (row_sort_key b)); simpl; naive_solver.
Qed.

Lemma row_cmp_lt_trans {V} d (a b c : SubscriptionRow V) :
  row_cmp d a b = Lt → row_cmp d b c = Lt → row_cmp d a c = Lt.
Proof.
  unfold row_cmp. intros Hab Hbc.
  pose proof (scalar_cmp_lt_trans (row_sort_key a) (row_sort_key b) (row_sort_key c)) as T1.
  pose proof (scalar_cmp_lt_trans (row_sort_key c) (row_sort_key b) (row_sort_key a)) as T2.
  pose proof (str_lt_trans (row_record_id a) (row_record_id b) (row_record_id c)) as T3.
  pose proof (scalar_cmp_eq (row_sort_key a) (row_sort_key b)) as E1.
  pose proof (scalar_cmp_eq (row_sort_key b) (row_sort_key c)) as E2.
  rewrite (scalar_cmp_antisym (row_sort_key b)), (scalar_cmp_antisym (row_sort_key a) (row_sort_key b)),
    (scalar_cmp_antisym (row_sort_key a) (row_sort_key c)) in T2.
  unfold str_lt in T3.
  destruct (scalar_cmp (row_sort_key a) (row_sort_key b)) eqn:C1;
  destruct (scalar_cmp (row_sort_key b) (row_sort_key c)) eqn:C2.
  all: try (rewrite (proj1 E1 eq_refl) in *; rewrite C2 in *).
  all: try (rewrite <-(proj1 E2 eq_refl) in *; rewrite C1 in *).
  all: destruct d; simpl in *; try done; auto.
  all: try (rewrite T1 by done; done).
  all: destruct (scalar_cmp (row_sort_key a) (row_sort_key c)); simpl in *;
    try done; exfalso; first [by discriminate (T2 eq_refl eq_refl)|by discriminate (T1 eq_refl eq_refl)].
Qed.
