(* ===== verification/ClientState.v ===== *)
(** * The durable state of one client.

    Models the data of [crates/surrealdb-sync-client/src/lib.rs] (the state, the
    conflict resolutions and the error type), of [subscriptions.rs] (the durable
    subscription membership) and the reset coverage of [read.rs].  [BTreeMap]s
    are finite maps, [Vec]s are lists. *)

From S2P Require Import Prelude Protocol Subscription.

(** ** Conflict resolutions and resolved commits *)

Inductive ConflictResolution :=
| KeepServer
| PreferServerPolicyV1
| KeepLocal (replacement : CommitIdentity)
| Merge (replacement : CommitIdentity).

Inductive AutomaticConflictPolicy := Manual | PreferServerV1.

Inductive ConflictResolutionRequest (V : Type) :=
| ReqKeepServer
| ReqKeepLocal (replacement : ClientCommit V)
| ReqMerge (replacement : ClientCommit V).
Arguments ReqKeepServer {V}.
Arguments ReqKeepLocal {V} _.
Arguments ReqMerge {V} _.

Record ResolvedCommit (V : Type) := mkResolved {
  local_commit : ClientCommit V;
  outcome : DurableOutcome V;
  resolution : option ConflictResolution;
  covered_by_reset : bool;
}.
Arguments mkResolved {V} _ _ _ _.
Arguments local_commit {V} _.
Arguments outcome {V} _.
Arguments resolution {V} _.
Arguments covered_by_reset {V} _.

Record ResetCoverage := mkCoverage {
  cov_cursor : Cursor;
  cov_scope : ScopeSnapshot;
}.

(** ** Durable subscription membership ([subscriptions.rs]) *)

Record SubscriptionSlot := mkSlot {
  slot_generation : N;
  slot_plan_fingerprint : string;
  slot_scope : ScopeSnapshot;
  slot_frontier : Cursor;
  slot_view_revision : N;
  slot_coverage : WindowCoverage;
  slot_ordered_ids : list RecordId;
  slot_token : OpaqueCheckpoint;
  slot_members : gmap string string;
}.

Record DurableSubscriptions (V : Type) := mkSubs {
  requests : gmap string SubscriptionRequest;
  slots : gmap string SubscriptionSlot;
  records : gmap string (SubscriptionRow V);
  cancelled : gmap string N;
  authorization_scope : option ScopeSnapshot;
}.
Arguments mkSubs {V} _ _ _ _ _.
Arguments requests {V} _.
Arguments slots {V} _.
Arguments records {V} _.
Arguments cancelled {V} _.
Arguments authorization_scope {V} _.

(** [impl Default for DurableSubscriptions] *)
Definition subscriptions_default {V} : DurableSubscriptions V := mkSubs ∅ ∅ ∅ ∅ None.

(** ** The client state *)

Record DurableClientState (V : Type) := mkState {
  st_partition_id : PartitionId;
  st_client_id : ClientId;
  st_requested_scope : ScopeIdentity;
  st_subscription_revision : N;
  st_revision : N;
  st_confirmed : gmap string (RecordState V);
  st_outbox : list (ClientCommit V);
  st_outcomes : list (ResolvedCommit V);
  st_checkpoint : option Checkpoint;
  st_reset_coverage : option ResetCoverage;
  st_id_map : gmap string string;
  st_subscriptions : option (DurableSubscriptions V);
}.
Arguments mkState {V} _ _ _ _ _ _ _ _ _ _ _ _.
Arguments st_partition_id {V} _.
Arguments st_client_id {V} _.
Arguments st_requested_scope {V} _.
Arguments st_subscription_revision {V} _.
Arguments st_revision {V} _.
Arguments st_confirmed {V} _.
Arguments st_outbox {V} _.
Arguments st_outcomes {V} _.
Arguments st_checkpoint {V} _.
Arguments st_reset_coverage {V} _.
Arguments st_id_map {V} _.
Arguments st_subscriptions {V} _.

Definition empty_state {V} (partition_id : PartitionId) (client_id : ClientId)
    (requested_scope : ScopeIdentity) (subscription_revision : N) : DurableClientState V :=
  mkState partition_id client_id requested_scope subscription_revision
    0 ∅ [] [] None None ∅ None.

(** The optimistic view of a record. *)
Inductive OptimisticRecord (V : Type) :=
| OptPresent (value : V) (base_version : BaseVersion) (reference : option RecordId)
| OptDeleted (base_version : N).
Arguments OptPresent {V} _ _ _.
Arguments OptDeleted {V} _.

Record PreparedTransition (V : Type) := mkPrepared {
  base_revision : N;
  prepared_state : DurableClientState V;
}.
Arguments mkPrepared {V} _ _.
Arguments base_revision {V} _.
Arguments prepared_state {V} _.

Inductive ClientError :=
| InvalidSubscription
| SubscriptionCancelled
| EmptyCommit
| DuplicateOperation (record_id : RecordId)
| DuplicateCommitId (commit_id : ClientCommitId)
| UnknownCommit (commit_id : ClientCommitId)
| UnknownConflict (commit_id : ClientCommitId)
| ConflictAlreadyResolved (commit_id : ClientCommitId)
| InvalidConflictResolution
| OutcomeIdentityMismatch
| EnvelopeMismatch
| InvalidPullFraming
| CheckpointMismatch
| ScopeMismatch
| InvalidReadCoverage
| NeedsNewScopeJournal
| PendingQuarantineRequired
| CursorEpochMismatch
| CursorWouldMoveBackward
| CommitSequenceGap
| DuplicateSnapshotRecord (record_id : RecordId)
| InvalidSnapshotVersion (record_id : RecordId)
| AbsentConfirmedRecord (record_id : RecordId)
| InvalidIdMapping (mapping : IdMapping)
| IdMappingCollision (record_id : RecordId)
| MappedLocalIdRemains (record_id : RecordId)
| RevisionExhausted
| StaleTransition (expected actual : N).

(** ** The derived [Eq] implementations *)

#[export] Instance ConflictResolution_eq_dec : EqDecision ConflictResolution.
Proof. solve_decision. Defined.
#[export] Instance AutomaticConflictPolicy_eq_dec : EqDecision AutomaticConflictPolicy.
Proof. solve_decision. Defined.
#[export] Instance ResetCoverage_eq_dec : EqDecision ResetCoverage.
Proof. solve_decision. Defined.
#[export] Instance SubscriptionSlot_eq_dec : EqDecision SubscriptionSlot.
Proof. solve_decision. Defined.
#[export] Instance ClientError_eq_dec : EqDecision ClientError.
Proof. solve_decision. Defined.
#[export] Instance ResolvedCommit_eq_dec {V} `{!EqDecision V} : EqDecision (ResolvedCommit V).
Proof. solve_decision. Defined.
#[export] Instance DurableSubscriptions_eq_dec {V} `{!EqDecision V} :
  EqDecision (DurableSubscriptions V).
Proof. solve_decision. Defined.
#[export] Instance OptimisticRecord_eq_dec {V} `{!EqDecision V} :
  EqDecision (OptimisticRecord V).
Proof. solve_decision. Defined.
#[export] Instance DurableClientState_eq_dec {V} `{!EqDecision V} :
  EqDecision (DurableClientState V).
Proof. solve_decision. Defined.

(** ** Field assignments: [next.field = x] *)

Section setters.
Context {V : Type}.
Implicit Types s : DurableClientState V.

Definition set_revision s x : DurableClientState V :=
  mkState (st_partition_id s) (st_client_id s) (st_requested_scope s)
    (st_subscription_revision s) x (st_confirmed s) (st_outbox s) (st_outcomes s)
    (st_checkpoint s) (st_reset_coverage s) (st_id_map s) (st_subscriptions s).
Definition set_confirmed s x : DurableClientState V :=
  mkState (st_partition_id s) (st_client_id s) (st_requested_scope s)
    (st_subscription_revision s) (st_revision s) x (st_outbox s) (st_outcomes s)
    (st_checkpoint s) (st_reset_coverage s) (st_id_map s) (st_subscriptions s).
Definition set_outbox s x : DurableClientState V :=
  mkState (st_partition_id s) (st_client_id s) (st_requested_scope s)
    (st_subscription_revision s) (st_revision s) (st_confirmed s) x (st_outcomes s)
    (st_checkpoint s) (st_reset_coverage s) (st_id_map s) (st_subscriptions s).
Definition set_outcomes s x : DurableClientState V :=
  mkState (st_partition_id s) (st_client_id s) (st_requested_scope s)
    (st_subscription_revision s) (st_revision s) (st_confirmed s) (st_outbox s) x
    (st_checkpoint s) (st_reset_coverage s) (st_id_map s) (st_subscriptions s).
Definition set_checkpoint s x : DurableClientState V :=
  mkState (st_partition_id s) (st_client_id s) (st_requested_scope s)
    (st_subscription_revision s) (st_revision s) (st_confirmed s) (st_outbox s)
    (st_outcomes s) x (st_reset_coverage s) (st_id_map s) (st_subscriptions s).
Definition set_reset_coverage s x : DurableClientState V :=
  mkState (st_partition_id s) (st_client_id s) (st_requested_scope s)
    (st_subscription_revision s) (st_revision s) (st_confirmed s) (st_outbox s)
    (st_outcomes s) (st_checkpoint s) x (st_id_map s) (st_subscriptions s).
Definition set_id_map s x : DurableClientState V :=
  mkState (st_partition_id s) (st_client_id s) (st_requested_scope s)
    (st_subscription_revision s) (st_revision s) (st_confirmed s) (st_outbox s)
    (st_outcomes s) (st_checkpoint s) (st_reset_coverage s) x (st_subscriptions s).
Definition set_subscriptions s x : DurableClientState V :=
  mkState (st_partition_id s) (st_client_id s) (st_requested_scope s)
    (st_subscription_revision s) (st_revision s) (st_confirmed s) (st_outbox s)
    (st_outcomes s) (st_checkpoint s) (st_reset_coverage s) (st_id_map s) x.
End setters.

(** ** Observations shared by the components *)

(** The commit ids a state holds durably: pending ones, then resolved ones. *)
Definition commit_id {V} (c : ClientCommit V) : ClientCommitId :=
  client_commit_id (commit_identity c).
Definition durable_commits {V} (s : DurableClientState V) : list (ClientCommit V) :=
  st_outbox s ++ (local_commit <$> st_outcomes s).
Definition durable_ids {V} (s : DurableClientState V) : list ClientCommitId :=
  commit_id <$> durable_commits s.

(** [!outbox.is_empty() || outcomes.any(conflict without resolution)]: the guard
    the source repeats before refusing a scope change. *)
Definition has_pending_intent {V} (s : DurableClientState V) : bool :=
  negb (match st_outbox s with [] => true | _ => false end)
  || existsb (λ o, is_conflict (outcome o) && bool_decide (resolution o = None))
       (st_outcomes s).

(** The error that guard chooses. *)
Definition scope_refusal {V} (s : DurableClientState V) : ClientError :=
  if has_pending_intent s then PendingQuarantineRequired else NeedsNewScopeJournal.
