(* ===== verification/SubscriptionState.v ===== *)
(** * Durable subscription membership: cache keys, garbage collection, row order
      and validation.

    Models the state-level functions of
    [crates/surrealdb-sync-client/src/subscriptions.rs].  The validator is proved
    equivalent to the declarative invariant [SubscriptionsValid]. *)

From stdpp Require Import pretty.
From S2P Require Import Prelude Protocol Subscription ClientState.

(** ** Cache keys *)

(** [format!("{epoch}:{}:{}:{}", version, record_id.len(), record_id)] *)
Definition cache_key {V} (epoch : N) (row : SubscriptionRow V) : string :=
  pretty epoch +:+ ":" +:+ pretty (row_version row) +:+ ":" +:+
  pretty (str_len (row_record_id row)) +:+ ":" +:+ row_record_id row.

(** ** Row cache garbage collection *)

(** The cache keys some slot refers to. *)
Definition used_keys (slots : gmap string SubscriptionSlot) : gset string :=
  list_to_set (btree_values slots ≫= λ slot, btree_values (slot_members slot)).

Definition collect_records {V} (state : DurableSubscriptions V) : DurableSubscriptions V :=
  let used := used_keys (slots state) in
  mkSubs (requests state) (slots state)
    (filter (λ kv, kv.1 ∈ used) (records state))
    (cancelled state) (authorization_scope state).

(** ** The window order *)

Definition row_le {V} (direction : SortDirection) (a b : SubscriptionRow V) : Prop :=
  row_cmp direction a b ≠ Gt.
#[export] Instance row_le_dec {V} d : RelDecision (@row_le V d).
Proof. intros a b. unfold row_le. apply _. Defined.

Definition ordered {V} (rows : gmap string (SubscriptionRow V)) (coverage : WindowCoverage)
  : list RecordId :=
  row_record_id <$> merge_sort (row_le (win_direction coverage)) (btree_values rows).

(** ** Scope changes *)

Definition guard_subscription_scope {V} (state : DurableClientState V)
    (scope : ScopeSnapshot) : result unit ClientError :=
  let changed :=
    match st_subscriptions state ≫= authorization_scope with
    | Some previous => bool_decide (previous ≠ scope)
    | None => false
    end in
  if changed then Err (scope_refusal state) else Ok tt.

(** ** Validation *)

Definition is_start (c : SubscriptionCommand) : bool :=
  match c with CmdStart _ _ _ _ _ => true | _ => false end.

(** [matches!(&row.sort_key, QueryScalar::Text(text) if !valid(text))] *)
Definition sort_text_invalid {V} (row : SubscriptionRow V) : bool :=
  match row_sort_key row with
  | SText text => negb (valid_subscription_text text)
  | _ => false
  end.

Section validate.
Context {V : Type}.
Implicit Types (self : DurableSubscriptions V) (owner : DurableClientState V).

Definition request_check owner (id : string) (request : SubscriptionRequest) : Prop :=
  ¬ validate_subscription_request request
  ∨ ¬ is_start (sreq_command request)
  ∨ (command_identity (sreq_command request)).1 ≠ id
  ∨ sreq_partition_id request ≠ st_partition_id owner
  ∨ sreq_client_id request ≠ st_client_id owner
  ∨ sreq_requested_scope request ≠ st_requested_scope owner
  ∨ sreq_subscription_revision request ≠ st_subscription_revision owner.

Definition slot_check self owner (id : string) (slot : SubscriptionSlot)
    (request : SubscriptionRequest) : Prop :=
  (command_identity (sreq_command request)).2 ≠ slot_generation slot
  ∨ is_some_and (λ barrier, slot_generation slot ≤ barrier)%N (cancelled self !! id)
  ∨ epoch (slot_frontier slot) = 0%N
  ∨ slot_view_revision slot = 0%N
  ∨ scope_identity (slot_scope slot) ≠ st_requested_scope owner
  ∨ scope_subscription_revision (slot_scope slot) ≠ st_subscription_revision owner
  ∨ ¬ valid_subscription_text (slot_plan_fingerprint slot)
  ∨ ¬ valid_subscription_text (slot_token slot)
  ∨ win_limit (slot_coverage slot) = 0%N
  ∨ (MAX_WINDOW_ROWS < win_limit (slot_coverage slot))%N
  ∨ (win_limit (slot_coverage slot) < map_len (slot_members slot))%N.

Definition start_mismatch (slot : SubscriptionSlot) (c : SubscriptionCommand) : Prop :=
  match c with
  | CmdStart _ _ definition_id _ limit =>
      definition_id ≠ win_definition_id (slot_coverage slot)
      ∨ limit ≠ win_limit (slot_coverage slot)
  | _ => False
  end.

Definition member_check (slot : SubscriptionSlot) (record_id key : string)
    (row : SubscriptionRow V) : Prop :=
  ¬ valid_subscription_text record_id
  ∨ sort_text_invalid row
  ∨ row_record_id row ≠ record_id
  ∨ cache_key (epoch (slot_frontier slot)) row ≠ key
  ∨ scalar_kind (row_sort_key row) ≠ win_order_kind (slot_coverage slot)
  ∨ row_version row = 0%N.

#[export] Instance request_check_dec owner id request :
  Decision (request_check owner id request).
Proof. unfold request_check. apply _. Defined.
#[export] Instance slot_check_dec self owner id slot request :
  Decision (slot_check self owner id slot request).
Proof. unfold slot_check. apply _. Defined.
#[export] Instance start_mismatch_dec slot c : Decision (start_mismatch slot c).
Proof. destruct c; simpl; apply _. Defined.
#[export] Instance member_check_dec slot record_id key row :
  Decision (member_check slot record_id key row).
Proof. unfold member_check. apply _. Defined.

(** The member loop of one slot: [used] grows with the member's cache key and
    [rows] with the member's row. *)
Definition member_step self (slot : SubscriptionSlot)
    (acc : gset string * gmap string (SubscriptionRow V)) (entry : string * string)
  : result (gset string * gmap string (SubscriptionRow V)) ClientError :=
  let '(used, rows) := acc in
  let '(record_id, key) := entry in
  let? row := ok_or (records self !! key) InvalidSubscription in
  if decide (member_check slot record_id key row) then Err InvalidSubscription
  else Ok ({[key]} ∪ used, <[record_id := row]> rows).

Definition window_step (slot : SubscriptionSlot)
    (rows : gmap string (SubscriptionRow V)) (ids : string * string)
  : result unit ClientError :=
  let? a := ok_or (rows !! ids.1) InvalidSubscription in
  let? b := ok_or (rows !! ids.2) InvalidSubscription in
  if is_ge (row_cmp (win_direction (slot_coverage slot)) a b)
  then Err InvalidSubscription else Ok tt.

Definition ordered_check (slot : SubscriptionSlot)
    (rows : gmap string (SubscriptionRow V)) : Prop :=
  map_len rows ≠ vec_len (slot_ordered_ids slot)
  ∨ set_len (list_to_set (slot_ordered_ids slot)) ≠ map_len rows
  ∨ existsb (λ id, bool_decide (rows !! id = None)) (slot_ordered_ids slot).

#[export] Instance ordered_check_dec slot rows : Decision (ordered_check slot rows).
Proof. unfold ordered_check. apply _. Defined.

Definition slot_step self owner (used : gset string) (entry : string * SubscriptionSlot)
  : result (gset string) ClientError :=
  let '(id, slot) := entry in
  let? request := ok_or (requests self !! id) InvalidSubscription in
  if decide (authorization_scope self ≠ Some (slot_scope slot))
  then Err InvalidSubscription else
  if decide (slot_check self owner id slot request) then Err InvalidSubscription else
  if decide (start_mismatch slot (sreq_command request))
  then Err InvalidSubscription else
  if decide (¬ valid_subscription_text (win_order_field (slot_coverage slot)))
  then Err InvalidSubscription else
  let? (used, rows) :=
    try_fold (member_step self slot) (used, ∅) (btree_entries (slot_members slot)) in
  if decide (ordered_check slot rows) then Err InvalidSubscription else
  let? _ := try_for_each (window_step slot rows) (windows2 (slot_ordered_ids slot)) in
  Ok used.

Definition authorization_check self owner : result unit ClientError :=
  match authorization_scope self with
  | Some scope =>
      if decide (scope_identity scope ≠ st_requested_scope owner
                 ∨ scope_subscription_revision scope ≠ st_subscription_revision owner
                 ∨ is_some_and (λ checkpoint, Protocol.scope checkpoint ≠ scope)
                     (st_checkpoint owner))
      then Err InvalidSubscription else Ok tt
  | None =>
      if decide (slots self ≠ ∅) then Err InvalidSubscription else Ok tt
  end.

Definition validate_subscriptions self owner : result unit ClientError :=
  if decide ((MAX_SUBSCRIPTIONS < map_len (requests self))%N
             ∨ (MAX_SUBSCRIPTIONS < map_len (cancelled self))%N
             ∨ (MAX_SUBSCRIPTIONS < map_len (slots self))%N
             ∨ (MAX_SUBSCRIPTIONS * MAX_WINDOW_ROWS < map_len (records self))%N)
  then Err InvalidSubscription else
  let? _ := try_for_each (λ '(id, request),
    if decide (request_check owner id request) then Err InvalidSubscription else Ok tt)
    (btree_entries (requests self)) in
  let? _ := try_for_each (λ '(id, barrier),
    if decide (¬ valid_subscription_text id ∨ barrier = 0%N)
    then Err InvalidSubscription else Ok tt)
    (btree_entries (cancelled self)) in
  let distinct_ids : gset string :=
    list_to_set (btree_keys (requests self) ++ btree_keys (cancelled self)) in
  if decide (MAX_SUBSCRIPTIONS < set_len distinct_ids)%N then Err InvalidSubscription else
  let? _ := authorization_check self owner in
  let? used := try_fold (slot_step self owner) ∅ (btree_entries (slots self)) in
  if existsb (λ key, bool_decide (key ∉ used)) (btree_keys (records self))
  then Err InvalidSubscription else Ok tt.
End validate.

(** ** Cache keys identify (epoch, version, record id) *)

Section cache_key.
(** Decimal rendering uses digits only, so the first colon ends a number. *)
Definition no_colon (s : string) : Prop := ∀ s1 s2, s ≠ s1 +:+ ":" +:+ s2.

Lemma no_colon_nil : no_colon "".
Proof. intros [|? ?] ?; by simpl. Qed.

Lemma no_colon_cons a s : a ≠ Ascii.ascii_of_nat 58 → no_colon s → no_colon (String a s).
Proof.
  intros Ha Hs [|b s1] s2; simpl; intros H; injection H as H0 H1.
  - by apply Ha.
  - by apply Hs in H1.
Qed.

Lemma pretty_N_go_no_colon x s : no_colon s → no_colon (pretty_N_go x s).
Proof.
  revert s. induction (N.lt_wf_0 x) as [x _ IH]; intros s Hs.
  destruct (decide (0 < x)%N).
  - rewrite pretty_N_go_step by done. apply IH; [by apply N.div_lt|].
    apply no_colon_cons; [|done]. unfold pretty_N_char.
    by repeat case_match.
  - assert (x = 0%N) as -> by lia. by rewrite pretty_N_go_0.
Qed.

Lemma pretty_N_no_colon (x : N) : no_colon (pretty x).
Proof.
  unfold pretty, pretty_N. case_decide.
  - apply no_colon_cons; [done|apply no_colon_nil].
  - apply pretty_N_go_no_colon, no_colon_nil.
Qed.

Lemma no_colon_split s1 s2 t1 t2 :
  no_colon s1 → no_colon s2 →
  s1 +:+ ":" +:+ t1 = s2 +:+ ":" +:+ t2 → s1 = s2 ∧ t1 = t2.
Proof.
  revert s2. induction s1 as [|a s1 IH]; intros [|b s2] H1 H2 H; simpl in H.
  - by injection H.
  - injection H as <- H. by destruct (H2 "" s2).
  - injection H as -> H. by destruct (H1 "" s1).
  - injection H as <- H. destruct (IH s2) as [-> ->]; [..|done|done].
    + intros u v ->. by apply (H1 (String a u) v).
    + intros u v ->. by apply (H2 (String a u) v).
Qed.

Lemma cache_key_inj {V} e1 e2 (r1 r2 : SubscriptionRow V) :
  cache_key e1 r1 = cache_key e2 r2 →
  e1 = e2 ∧ row_version r1 = row_version r2 ∧ row_record_id r1 = row_record_id r2.
Proof.
  unfold cache_key. intros H.
  apply no_colon_split in H as [He H]; [|apply pretty_N_no_colon..].
  apply no_colon_split in H as [Hv H]; [|apply pretty_N_no_colon..].
  apply no_colon_split in H as [_ H]; [|apply pretty_N_no_colon..].
  repeat split; [by apply (inj pretty)..|done].
Qed.
End cache_key.

(** ** The declarative invariant and its equivalence with the validator *)

Section valid.
Context {V : Type}.
Implicit Types (self : DurableSubscriptions V) (owner : DurableClientState V).

(** The rows a slot resolves through the shared row cache. *)
Definition slot_rows self (slot : SubscriptionSlot) : gmap string (SubscriptionRow V) :=
  omap (λ key, records self !! key) (slot_members slot).

(** The strict window order on the ids of a slot. *)
Definition id_before self (slot : SubscriptionSlot) (x y : RecordId) : Prop :=
  ∃ a b, slot_rows self slot !! x = Some a ∧ slot_rows self slot !! y = Some b ∧
         row_cmp (win_direction (slot_coverage slot)) a b = Lt.

Definition member_ok self (slot : SubscriptionSlot) (entry : string * string) : Prop :=
  ∃ row, records self !! entry.2 = Some row ∧ ¬ member_check slot entry.1 entry.2 row.

Record SlotValid self owner (id : string) (slot : SubscriptionSlot) : Prop := {
  sv_request : ∃ request, requests self !! id = Some request ∧
    ¬ slot_check self owner id slot request ∧
    ¬ start_mismatch slot (sreq_command request);
  sv_scope : authorization_scope self = Some (slot_scope slot);
  sv_field : valid_subscription_text (win_order_field (slot_coverage slot));
  sv_members : ∀ record_id key, slot_members slot !! record_id = Some key →
    member_ok self slot (record_id, key);
  sv_perm : slot_ordered_ids slot ≡ₚ btree_keys (slot_members slot);
  sv_sorted : StronglySorted (id_before self slot) (slot_ordered_ids slot);
}.

Record SubscriptionsValid self owner : Prop := {
  subs_bounds : (map_len (requests self) ≤ MAX_SUBSCRIPTIONS)%N ∧
    (map_len (cancelled self) ≤ MAX_SUBSCRIPTIONS)%N ∧
    (map_len (slots self) ≤ MAX_SUBSCRIPTIONS)%N ∧
    (map_len (records self) ≤ MAX_SUBSCRIPTIONS * MAX_WINDOW_ROWS)%N;
  subs_requests : ∀ id request, requests self !! id = Some request →
    ¬ request_check owner id request;
  subs_cancelled : ∀ id barrier, cancelled self !! id = Some barrier →
    valid_subscription_text id ∧ barrier ≠ 0%N;
  subs_distinct : (N.of_nat (size (dom (requests self) ∪ dom (cancelled self)))
                   ≤ MAX_SUBSCRIPTIONS)%N;
  subs_authorization : authorization_check self owner = Ok tt;
  subs_slots : ∀ id slot, slots self !! id = Some slot → SlotValid self owner id slot;
  subs_records : ∀ key, is_Some (records self !! key) → key ∈ used_keys (slots self);
}.

#[local] Instance id_before_trans self slot : Transitive (id_before self slot).
Proof.
  intros x y z (a & b & Hx & Hy & Hab) (b' & c & Hy' & Hz & Hbc).
  simplify_eq. exists a, c. eauto using row_cmp_lt_trans.
Qed.

Lemma elem_of_used_keys (m : gmap string SubscriptionSlot) key :
  key ∈ used_keys m ↔
  ∃ id slot record_id, m !! id = Some slot ∧ slot_members slot !! record_id = Some key.
Proof.
  unfold used_keys. rewrite elem_of_list_to_set, list_elem_of_bind.
  setoid_rewrite elem_of_btree_values. naive_solver.
Qed.

Lemma lookup_collect_records self key :
  records (collect_records self) !! key =
  if decide (key ∈ used_keys (slots self)) then records self !! key else None.
Proof.
  unfold collect_records; simpl. rewrite map_lookup_filter.
  destruct (records self !! key) as [row|]; simpl; [|by case_decide].
  by repeat case_decide.
Qed.

Lemma member_fold self slot l used rows acc :
  NoDup l.*1 → (∀ id, id ∈ l.*1 → rows !! id = None) →
  try_fold (member_step self slot) (used, rows) l = Ok acc ↔
  Forall (member_ok self slot) l ∧
  acc = (list_to_set l.*2 ∪ used,
         omap (λ key, records self !! key) (list_to_map l) ∪ rows).
Proof.
  revert used rows. induction l as [|[id key] l IH]; intros used rows Hnd Hrows; csimpl.
  - rewrite omap_empty. split.
    + intros [= <-]. split; [constructor|]. f_equal; [set_solver|]. by rewrite map_empty_union.
    + intros [_ ->]. do 2 f_equal; [set_solver|]. by rewrite map_empty_union.
  - apply NoDup_cons in Hnd as [Hid Hnd]. rewrite Forall_cons, !result_bind_Ok.
    setoid_rewrite result_bind_Ok. setoid_rewrite ok_or_Ok. setoid_rewrite guard_Ok.
    assert (∀ row, records self !! key = Some row →
      omap (λ key, records self !! key) (<[id:=key]> (list_to_map l)) ∪ rows =
      omap (λ key, records self !! key) (list_to_map l) ∪ <[id:=row]> rows) as Hrow.
    { intros row Hk. rewrite omap_insert, Hk. simpl. rewrite <-insert_union_l.
      apply insert_union_r. rewrite lookup_omap.
      by rewrite (not_elem_of_list_to_map_1 l id Hid). }
    assert (∀ row, ∀ id', id' ∈ l.*1 → <[id:=row]> rows !! id' = None) as Hfresh.
    { intros row id' Hin. rewrite lookup_insert_ne by set_solver. apply Hrows. set_solver. }
    split.
    + intros (s & (row & Hk & Hc & [= <-]) & Hfold).
      apply IH in Hfold as [HF ->]; [|done|by apply Hfresh].
      split; [split; [by exists row|done]|].
      rewrite (Hrow row) by done. f_equal. set_solver.
    + intros ([(row & Hk & Hc) HF] & ->).
      exists ({[key]} ∪ used, <[id:=row]> rows). split; [eauto|].
      apply IH; [done|by apply Hfresh|]. split; [done|].
      rewrite (Hrow row) by done. f_equal. set_solver.
Qed.

Lemma member_fold_slot self slot used acc :
  try_fold (member_step self slot) (used, ∅) (btree_entries (slot_members slot)) = Ok acc ↔
  (∀ record_id key, slot_members slot !! record_id = Some key →
     member_ok self slot (record_id, key)) ∧
  acc = (list_to_set (btree_values (slot_members slot)) ∪ used, slot_rows self slot).
Proof.
  rewrite member_fold by (apply btree_keys_NoDup || set_solver).
  rewrite Forall_btree_entries, list_to_map_btree_entries, map_union_empty. done.
Qed.

(** A slot whose members all resolve has a row for exactly its members. *)
Lemma slot_rows_dom self slot :
  (∀ record_id key, slot_members slot !! record_id = Some key →
     member_ok self slot (record_id, key)) →
  dom (slot_rows self slot) = dom (slot_members slot).
Proof.
  intros Hm. apply set_eq. intros id. rewrite !elem_of_dom. unfold slot_rows.
  rewrite lookup_omap. destruct (slot_members slot !! id) as [key|] eqn:Hid; simpl.
  - destruct (Hm _ _ Hid) as (row & Hrow & _). simpl in Hrow. rewrite Hrow. split; eauto.
  - by split; intros [? ?].
Qed.

Lemma ordered_check_spec self slot :
  dom (slot_rows self slot) = dom (slot_members slot) →
  ¬ ordered_check slot (slot_rows self slot) ↔
  slot_ordered_ids slot ≡ₚ btree_keys (slot_members slot).
Proof.
  intros Hdom. unfold ordered_check, map_len, set_len, vec_len.
  assert (size (slot_rows self slot) = length (btree_keys (slot_members slot))) as Hsz.
  { unfold btree_keys. rewrite length_fmap, length_btree_entries.
    by rewrite <-!size_dom, Hdom. }
  rewrite Hsz. split.
  - intros (H1 & H2 & H3)%refusal_or_3. destruct_guards.
    apply Is_true_false in H3. rewrite existsb_false_Forall, Forall_forall in H3.
    assert (NoDup (slot_ordered_ids slot)) by (apply size_list_to_set_NoDup; lia).
    apply submseteq_length_Permutation; [|lia].
    apply NoDup_submseteq; [done|]. intros x Hx. apply elem_of_btree_keys.
    apply elem_of_dom. rewrite <-Hdom. apply elem_of_dom.
    specialize (H3 x Hx). rewrite bool_decide_eq_false in H3. by apply not_eq_None_Some.
  - intros Hp. pose proof (Permutation_length Hp).
    assert (NoDup (slot_ordered_ids slot)) by (rewrite Hp; apply btree_keys_NoDup).
    intros [?|[Hs|He]]; [lia| |].
    + apply Hs. rewrite size_list_to_set by done. lia.
    + apply Is_true_true, existsb_true_elem in He as (x & Hx & Hn).
      apply bool_decide_eq_true in Hn. rewrite Hp, elem_of_btree_keys, <-elem_of_dom in Hx.
      rewrite <-Hdom, elem_of_dom in Hx. destruct Hx. congruence.
Qed.

Lemma window_step_spec self slot x y :
  window_step slot (slot_rows self slot) (x, y) = Ok tt ↔ id_before self slot x y.
Proof.
  unfold window_step, id_before; simpl. rewrite result_bind_Ok.
  setoid_rewrite result_bind_Ok. setoid_rewrite ok_or_Ok. setoid_rewrite guard_bool_Ok.
  split.
  - intros (a & Ha & b & Hb & Hge & _). exists a, b. repeat split; [done..|].
    by destruct (row_cmp _ a b).
  - intros (a & b & Ha & Hb & Hlt). exists a. split; [done|]. exists b.
    by rewrite Hlt.
Qed.

Lemma window_loop_spec self slot u :
  try_for_each (window_step slot (slot_rows self slot)) (windows2 (slot_ordered_ids slot))
    = Ok u ↔ StronglySorted (id_before self slot) (slot_ordered_ids slot).
Proof.
  rewrite try_for_each_ok_unit.
  transitivity (Sorted (id_before self slot) (slot_ordered_ids slot)).
  - rewrite <-Forall_windows2. apply Forall_iff. intros [x y]. apply window_step_spec.
  - split; [apply Sorted_StronglySorted; apply _|apply StronglySorted_Sorted].
Qed.

Lemma slot_step_spec self owner used id slot used' :
  slot_step self owner used (id, slot) = Ok used' ↔
  SlotValid self owner id slot ∧
  used' = list_to_set (btree_values (slot_members slot)) ∪ used.
Proof.
  unfold slot_step. rewrite result_bind_Ok. setoid_rewrite ok_or_Ok.
  repeat setoid_rewrite guard_Ok. setoid_rewrite result_bind_Ok.
  setoid_rewrite member_fold_slot. split.
  - intros (request & Hreq & Hs & Hc & Hm & Hf & [used2 rows] & (Hmem & [= -> ->]) & Hrest).
    apply guard_Ok in Hrest as [Ho Hrest]. apply result_bind_Ok in Hrest as (u & Hw & [= <-]).
    apply window_loop_spec in Hw. pose proof (slot_rows_dom self slot Hmem) as Hdom.
    apply ordered_check_spec in Ho; [|done].
    split; [|done]. split; try done; [eauto|by apply dec_stable in Hs|by apply dec_stable in Hf].
  - intros [[(request & Hreq & Hc & Hm) Hs Hf Hmem Hp Hsort] ->].
    exists request. split; [done|]. rewrite Hs. split; [tauto|]. do 2 (split; [done|]).
    split; [tauto|]. eexists (_, _). split; [split; [done|reflexivity]|]. simpl.
    apply guard_Ok. pose proof (slot_rows_dom self slot Hmem) as Hdom.
    split; [by apply ordered_check_spec|].
    apply result_bind_Ok. exists tt. split; [by apply window_loop_spec|done].
Qed.

Lemma slot_fold_spec self owner l used used' :
  try_fold (slot_step self owner) used l = Ok used' ↔
  Forall (λ p, SlotValid self owner p.1 p.2) l ∧
  used' = list_to_set (l.*2 ≫= λ slot, btree_values (slot_members slot)) ∪ used.
Proof.
  revert used. induction l as [|[id slot] l IH]; intros used; csimpl.
  - split; [intros [= <-]; split; [constructor|set_solver]|intros [_ ->]; f_equal; set_solver].
  - rewrite result_bind_Ok, Forall_cons. setoid_rewrite slot_step_spec. simpl. split.
    + intros (u & [Hs ->] & [HF ->]%IH). split; [done|]. rewrite list_to_set_app_L. set_solver.
    + intros [[Hs HF] ->]. eexists. split; [split; [done|reflexivity]|].
      apply IH. split; [done|]. rewrite list_to_set_app_L. set_solver.
Qed.

Lemma request_loop_spec self owner u :
  try_for_each (λ '(id, request),
    if decide (request_check owner id request) then Err InvalidSubscription else Ok tt)
    (btree_entries (requests self)) = Ok u ↔
  ∀ id request, requests self !! id = Some request → ¬ request_check owner id request.
Proof.
  rewrite try_for_each_ok_unit, Forall_btree_entries. setoid_rewrite guard_Ok. naive_solver.
Qed.

Lemma cancelled_loop_spec self u :
  try_for_each (λ '(id, barrier),
    if decide (¬ valid_subscription_text id ∨ barrier = 0%N)
    then Err InvalidSubscription else Ok tt) (btree_entries (cancelled self)) = Ok u ↔
  ∀ id barrier, cancelled self !! id = Some barrier →
    valid_subscription_text id ∧ barrier ≠ 0%N.
Proof.
  rewrite try_for_each_ok_unit, Forall_btree_entries. setoid_rewrite guard_Ok.
  split; intros H id barrier Hid; specialize (H id barrier Hid).
  - destruct H as [[Ht ?]%refusal_or _]. by apply dec_stable in Ht.
  - split; [tauto|done].
Qed.

Lemma distinct_ids_dom self :
  (list_to_set (btree_keys (requests self) ++ btree_keys (cancelled self)) : gset string)
  = dom (requests self) ∪ dom (cancelled self).
Proof.
  apply set_eq. intros x.
  rewrite elem_of_list_to_set, elem_of_app, elem_of_union, !elem_of_dom, !elem_of_btree_keys.
  done.
Qed.

(** [DurableSubscriptions::validate] accepts exactly the declarative invariant. *)
Lemma validate_subscriptions_spec self owner u :
  validate_subscriptions self owner = Ok u ↔ SubscriptionsValid self owner.
Proof.
  destruct u. unfold validate_subscriptions. rewrite guard_Ok.
  rewrite result_bind_Ok. setoid_rewrite result_bind_Ok. setoid_rewrite guard_Ok.
  setoid_rewrite result_bind_Ok. setoid_rewrite result_bind_Ok.
  setoid_rewrite guard_bool_Ok. setoid_rewrite slot_fold_spec.
  setoid_rewrite request_loop_spec. setoid_rewrite cancelled_loop_spec.
  unfold set_len. rewrite distinct_ids_dom. split.
  - intros (Hb & ? & Hr & ? & Hc & Hd & [] & Ha & used & [Hs ->] & He & _).
    rewrite existsb_false_Forall, Forall_forall in He.
    rewrite Forall_btree_entries in Hs.
    split; [lia|done|done|lia|done|done|]. intros key Hkey.
    rewrite <-elem_of_btree_keys in Hkey. specialize (He key Hkey).
    apply bool_decide_eq_false, dec_stable in He.
    change (key ∈ used_keys (slots self) ∪ ∅) in He. set_solver.
  - intros [Hb Hr Hc Hd Ha Hs Hk]. split; [lia|]. exists tt. split; [done|].
    exists tt. split; [done|]. split; [lia|]. exists tt. split; [done|].
    eexists. split; [split; [by apply Forall_btree_entries|reflexivity]|].
    split; [|done]. rewrite existsb_false_Forall, Forall_forall. intros key Hkey.
    apply bool_decide_eq_false_2. rewrite elem_of_btree_keys in Hkey.
    intros Hn. apply Hn. change (key ∈ used_keys (slots self) ∪ ∅).
    apply elem_of_union_l, Hk, Hkey.
Qed.
End valid.
