(* ===== verification/Validate.v ===== *)
(** * Validation of a client state.

    Models [DurableClientState::validate] and the checks it calls
    ([crates/surrealdb-sync-client/src/lib.rs], [read.rs]).  [ValidState] is the
    declarative invariant of a client state; [validate_spec] proves that the
    validator accepts exactly the states that satisfy it. *)

From S2P Require Import Prelude Protocol Subscription ClientState SubscriptionState.

Definition validate_commit {V} (commit : ClientCommit V) : result unit ClientError :=
  if decide (operations commit = []) then Err EmptyCommit else
  let? _ := check_distinct op_record_id (λ op, DuplicateOperation (op_record_id op))
              ∅ (operations commit) in
  Ok tt.

Definition prefer_server_eligible {V} (commit : ClientCommit V) (o : DurableOutcome V) : bool :=
  match o with
  | Conflict _ record_id (Present _ version _) =>
      match operations commit with
      | [Upsert operation_id (Exact base) _ _] =>
          bool_decide (operation_id = record_id) && (0 <? base)%N && (base <? version)%N
      | _ => false
      end
  | _ => false
  end.

Section validate.
Context {V : Type} `{!EqDecision V}.
Implicit Types state : DurableClientState V.

(** One iteration of the resolution check. *)
Definition validate_resolution state (resolved : ResolvedCommit V)
  : result unit ClientError :=
  match resolution resolved with
  | None => Ok tt
  | Some res =>
      if negb (is_conflict (outcome resolved)) then Err InvalidConflictResolution else
      match res with
      | KeepServer => Ok tt
      | PreferServerPolicyV1 =>
          if negb (prefer_server_eligible (local_commit resolved) (outcome resolved))
          then Err InvalidConflictResolution else Ok tt
      | KeepLocal replacement | Merge replacement =>
          if decide (replacement = commit_identity (local_commit resolved)
               ∨ (¬ existsb (λ commit, bool_decide (commit_identity commit = replacement))
                      (st_outbox state)
                  ∧ ¬ existsb (λ r, bool_decide
                        (commit_identity (local_commit r) = replacement))
                      (st_outcomes state)))
          then Err InvalidConflictResolution else Ok tt
      end
  end.

Definition validate_conflict_resolutions state : result unit ClientError :=
  try_for_each (validate_resolution state) (st_outcomes state).

Definition validate_scope state (checkpoint : Checkpoint) : result unit ClientError :=
  if decide (scope_identity (scope checkpoint) ≠ st_requested_scope state
             ∨ scope_subscription_revision (scope checkpoint)
               ≠ st_subscription_revision state)
  then Err ScopeMismatch else Ok tt.

Definition validate_checkpoint state : result unit ClientError :=
  let? _ := try_for_each (λ '(record_id, record),
    if decide (record = Absent) then Err (AbsentConfirmedRecord record_id) else Ok tt)
    (btree_entries (st_confirmed state)) in
  match st_checkpoint state with
  | Some checkpoint =>
      if decide (token checkpoint = "" ∨ epoch (cursor checkpoint) = 0%N)
      then Err CheckpointMismatch
      else validate_scope state checkpoint
  | None => Ok tt
  end.

(** [read::validate_coverage] *)
Definition validate_coverage state : result unit ClientError :=
  match st_reset_coverage state with
  | Some coverage =>
      let? checkpoint := ok_or (st_checkpoint state) InvalidReadCoverage in
      if decide (epoch (cov_cursor coverage) = 0%N
                 ∨ epoch (cov_cursor coverage) ≠ epoch (cursor checkpoint)
                 ∨ (sequence (cursor checkpoint) < sequence (cov_cursor coverage))%N
                 ∨ cov_scope coverage ≠ scope checkpoint)
      then Err InvalidReadCoverage else Ok tt
  | None => Ok tt
  end.

Definition validate_id_map (id_map : gmap string string) : result unit ClientError :=
  try_for_each (λ '(local, canonical),
    if decide (local = canonical ∨ is_Some (id_map !! canonical))
    then Err (InvalidIdMapping (mkMapping local canonical)) else Ok tt)
    (btree_entries id_map).

Definition op_contains_id (record_id : RecordId) (op : Operation V) : bool :=
  match op with
  | Upsert operation_id _ _ reference =>
      bool_decide (operation_id = record_id) || bool_decide (reference = Some record_id)
  | Delete operation_id _ => bool_decide (operation_id = record_id)
  end.

Definition commit_contains_id (commit : ClientCommit V) (record_id : RecordId) : bool :=
  existsb (op_contains_id record_id) (operations commit).

Definition outcome_contains_id (o : DurableOutcome V) (record_id : RecordId) : bool :=
  match o with
  | Conflict _ conflict_id authoritative =>
      bool_decide (conflict_id = record_id)
      || bool_decide (state_reference authoritative = Some record_id)
  | Accepted _ _ _ | Rejected _ _ => false
  end.

Definition validate_no_mapped_local_ids state : result unit ClientError :=
  try_for_each (λ local_id,
    let confirmed_contains :=
      existsb (λ '(record_id, record),
        bool_decide (record_id = local_id)
        || bool_decide (state_reference record = Some local_id))
        (btree_entries (st_confirmed state)) in
    let outbox_contains :=
      existsb (λ commit, commit_contains_id commit local_id) (st_outbox state) in
    let outcome_contains :=
      existsb (λ resolved,
        commit_contains_id (local_commit resolved) local_id
        || outcome_contains_id (outcome resolved) local_id) (st_outcomes state) in
    if confirmed_contains || outbox_contains || outcome_contains
    then Err (MappedLocalIdRemains local_id) else Ok tt)
    (btree_keys (st_id_map state)).

Definition outbox_step (identities : gset string) (commit : ClientCommit V)
  : result (gset string) ClientError :=
  let? _ := validate_commit commit in
  if decide (commit_id commit ∈ identities)
  then Err (DuplicateCommitId (commit_id commit))
  else Ok ({[commit_id commit]} ∪ identities).

Definition outcome_step (identities : gset string) (resolved : ResolvedCommit V)
  : result (gset string) ClientError :=
  let? _ := validate_commit (local_commit resolved) in
  if covered_by_reset resolved && negb (is_accepted (outcome resolved))
  then Err InvalidReadCoverage else
  if decide (outcome_identity (outcome resolved) ≠ commit_identity (local_commit resolved))
  then Err OutcomeIdentityMismatch else
  if decide (commit_id (local_commit resolved) ∈ identities)
  then Err (DuplicateCommitId (commit_id (local_commit resolved)))
  else Ok ({[commit_id (local_commit resolved)]} ∪ identities).

Definition validate state : result unit ClientError :=
  let? identities := try_fold outbox_step ∅ (st_outbox state) in
  let? identities := try_fold outcome_step identities (st_outcomes state) in
  let? _ := validate_conflict_resolutions state in
  let? _ := validate_checkpoint state in
  let? _ := validate_coverage state in
  let? _ :=
    match st_subscriptions state with
    | Some subscriptions => validate_subscriptions subscriptions state
    | None => Ok tt
    end in
  let? _ := validate_id_map (st_id_map state) in
  validate_no_mapped_local_ids state.

(** ** The declarative invariant *)

(** A commit changes at least one record and no record twice. *)
Definition commit_wf (commit : ClientCommit V) : Prop :=
  operations commit ≠ [] ∧ NoDup (op_record_id <$> operations commit).

Definition outcome_wf (r : ResolvedCommit V) : Prop :=
  (covered_by_reset r = true → is_accepted (outcome r) = true) ∧
  outcome_identity (outcome r) = commit_identity (local_commit r).

Definition resolution_wf state (r : ResolvedCommit V) : Prop :=
  ∀ res, resolution r = Some res →
    is_conflict (outcome r) = true ∧
    match res with
    | KeepServer => True
    | PreferServerPolicyV1 => prefer_server_eligible (local_commit r) (outcome r) = true
    | KeepLocal replacement | Merge replacement =>
        replacement ≠ commit_identity (local_commit r) ∧
        ∃ c, c ∈ durable_commits state ∧ commit_identity c = replacement
    end.

Definition checkpoint_wf state (c : Checkpoint) : Prop :=
  token c ≠ "" ∧ epoch (cursor c) ≠ 0%N ∧
  scope_identity (scope c) = st_requested_scope state ∧
  scope_subscription_revision (scope c) = st_subscription_revision state.

Definition coverage_wf state (cov : ResetCoverage) : Prop :=
  ∃ c, st_checkpoint state = Some c ∧ epoch (cov_cursor cov) ≠ 0%N ∧
    epoch (cov_cursor cov) = epoch (cursor c) ∧
    (sequence (cov_cursor cov) ≤ sequence (cursor c))%N ∧ cov_scope cov = scope c.

(** The id map is flat: no local id maps to itself or to another local id. *)
Definition id_map_flat (id_map : gmap string string) : Prop :=
  ∀ local canonical, id_map !! local = Some canonical →
    local ≠ canonical ∧ id_map !! canonical = None.

(** The places where a record id can occur in the replicated data. *)
Inductive mentions state (id : RecordId) : Prop :=
| mentions_confirmed record : st_confirmed state !! id = Some record → mentions state id
| mentions_reference k record : st_confirmed state !! k = Some record →
    state_reference record = Some id → mentions state id
| mentions_commit c : c ∈ durable_commits state → commit_contains_id c id = true →
    mentions state id
| mentions_outcome r : r ∈ st_outcomes state → outcome_contains_id (outcome r) id = true →
    mentions state id.

Record ValidState state : Prop := {
  vs_commits : Forall commit_wf (durable_commits state);
  vs_distinct : NoDup (durable_ids state);
  vs_outcomes : Forall outcome_wf (st_outcomes state);
  vs_resolutions : Forall (resolution_wf state) (st_outcomes state);
  vs_confirmed : ∀ id, st_confirmed state !! id ≠ Some Absent;
  vs_checkpoint : ∀ c, st_checkpoint state = Some c → checkpoint_wf state c;
  vs_coverage : ∀ cov, st_reset_coverage state = Some cov → coverage_wf state cov;
  vs_subscriptions : ∀ subs, st_subscriptions state = Some subs →
    SubscriptionsValid subs state;
  vs_id_map : id_map_flat (st_id_map state);
  vs_no_local : ∀ local, is_Some (st_id_map state !! local) → ¬ mentions state local;
}.
End validate.

(** ** The validator decides the invariant *)

Section spec.
Context {V : Type} `{!EqDecision V}.
Implicit Types state : DurableClientState V.

Lemma validate_commit_spec (c : ClientCommit V) u :
  validate_commit c = Ok u ↔ commit_wf c.
Proof.
  destruct u. unfold validate_commit, commit_wf. rewrite guard_Ok, result_bind_Ok.
  setoid_rewrite check_distinct_Ok. split.
  - intros (? & seen & (? & _ & _) & _). done.
  - intros [? Hnd]. split; [done|]. eexists. split; [|done].
    split; [done|]. split; [set_solver|reflexivity].
Qed.

(** Both commit loops follow one pattern: check the commit, then register its id. *)
Lemma identity_loop {A} (step : gset string → A → result (gset string) ClientError)
    (key : A → string) (P : A → Prop) l seen seen' :
  (∀ s x s', step s x = Ok s' ↔ P x ∧ (key x ∉ s) ∧ s' = {[key x]} ∪ s) →
  try_fold step seen l = Ok seen' ↔
  Forall P l ∧ NoDup (key <$> l) ∧ (∀ x, x ∈ key <$> l → x ∉ seen) ∧
  seen' = list_to_set (key <$> l) ∪ seen.
Proof.
  intros Hstep. revert seen. induction l as [|x l IH]; intros seen; csimpl.
  - split; [intros [= <-]; repeat split; [constructor|constructor|set_solver|set_solver]|].
    intros (_ & _ & _ & ->). f_equal. set_solver.
  - rewrite result_bind_Ok, Forall_cons, NoDup_cons. setoid_rewrite Hstep. split.
    + intros (s & (HP & Hx & ->) & (HF & Hnd & Hn & ->)%IH).
      repeat split; try done; [|set_solver|set_solver].
      intros Hin. apply (Hn _ Hin). set_solver.
    + intros ((HP & HF) & (Hx & Hnd) & Hn & ->). eexists. split.
      * repeat split; [done|set_solver].
      * apply IH. repeat split; [done|done|set_solver|set_solver].
Qed.

Lemma outbox_step_spec s (c : ClientCommit V) s' :
  outbox_step s c = Ok s' ↔ commit_wf c ∧ (commit_id c ∉ s) ∧ s' = {[commit_id c]} ∪ s.
Proof.
  unfold outbox_step. rewrite result_bind_Ok. setoid_rewrite validate_commit_spec.
  setoid_rewrite guard_Ok. split; [naive_solver|]. intros (? & ? & ->). by exists tt.
Qed.

Lemma outcome_step_spec s (r : ResolvedCommit V) s' :
  outcome_step s r = Ok s' ↔
  (commit_wf (local_commit r) ∧ outcome_wf r) ∧
  (commit_id (local_commit r) ∉ s) ∧ s' = {[commit_id (local_commit r)]} ∪ s.
Proof.
  unfold outcome_step, outcome_wf. rewrite result_bind_Ok.
  setoid_rewrite validate_commit_spec. setoid_rewrite guard_bool_Ok.
  repeat setoid_rewrite guard_Ok. split.
  - intros (u & Hc & Hcov & Hid & Hn & [= <-]). apply dec_stable in Hid.
    split; [|done]. split; [done|]. split; [|done].
    intros Hcr. rewrite Hcr in Hcov. by destruct (is_accepted _).
  - intros ((Hc & Hcov & Hid) & Hn & ->). exists tt. split; [done|].
    rewrite Hid. split; [|by split_and?; auto].
    destruct (covered_by_reset r); [by rewrite Hcov|done].
Qed.

Lemma elem_of_durable_commits state c :
  c ∈ durable_commits state ↔
  c ∈ st_outbox state ∨ ∃ r, r ∈ st_outcomes state ∧ c = local_commit r.
Proof.
  unfold durable_commits. rewrite elem_of_app, list_elem_of_fmap. naive_solver.
Qed.

Lemma validate_resolution_spec state r u :
  validate_resolution state r = Ok u ↔ resolution_wf state r.
Proof.
  destruct u. unfold validate_resolution, resolution_wf.
  destruct (resolution r) as [res|]; [|naive_solver].
  rewrite guard_bool_Ok, negb_false_iff.
  assert (∀ replacement,
    ¬ (replacement = commit_identity (local_commit r)
       ∨ (¬ existsb (λ c, bool_decide (commit_identity c = replacement)) (st_outbox state)
          ∧ ¬ existsb (λ r, bool_decide (commit_identity (local_commit r) = replacement))
              (st_outcomes state))) ↔
    replacement ≠ commit_identity (local_commit r) ∧
    ∃ c, c ∈ durable_commits state ∧ commit_identity c = replacement) as Hrep.
  { intros rep. rewrite !Is_true_true, !existsb_true_elem.
    setoid_rewrite bool_decide_eq_true. setoid_rewrite elem_of_durable_commits. split.
    - intros [Hne Hn]%refusal_or. split; [done|].
      destruct (decide (Exists (λ c, commit_identity c = rep) (st_outbox state))) as [He|He].
      { apply Exists_exists in He as (c & ? & ?). eauto. }
      destruct (decide (Exists (λ r, commit_identity (local_commit r) = rep)
                          (st_outcomes state))) as [He'|He'].
      { apply Exists_exists in He' as (r' & ? & ?).
        exists (local_commit r'). split; [right; by exists r'|done]. }
      exfalso. apply Hn. split; intros (x & ? & ?).
      + apply He, Exists_exists. eauto.
      + apply He', Exists_exists. eauto.
    - intros [Hne (c & [Hc|(r' & Hr' & ->)] & Hid)] [?|[H1 H2]]; try done.
      + apply H1. eauto.
      + apply H2. eauto. }
  destruct res as [| |rep|rep].
  - naive_solver.
  - rewrite guard_bool_Ok, negb_false_iff. naive_solver.
  - rewrite guard_Ok, Hrep. naive_solver.
  - rewrite guard_Ok, Hrep. naive_solver.
Qed.

Lemma validate_scope_spec state c u :
  validate_scope state c = Ok u ↔
  scope_identity (scope c) = st_requested_scope state ∧
  scope_subscription_revision (scope c) = st_subscription_revision state.
Proof.
  destruct u. unfold validate_scope. rewrite guard_Ok. split.
  - intros [H _]. destruct_guards. done.
  - intros [-> ->]. split; [tauto|done].
Qed.

Lemma validate_checkpoint_spec state u :
  validate_checkpoint state = Ok u ↔
  (∀ id, st_confirmed state !! id ≠ Some Absent) ∧
  (∀ c, st_checkpoint state = Some c → checkpoint_wf state c).
Proof.
  destruct u. unfold validate_checkpoint, checkpoint_wf. rewrite result_bind_Ok.
  setoid_rewrite try_for_each_ok_unit. setoid_rewrite Forall_btree_entries.
  setoid_rewrite guard_Ok. split.
  - intros (_ & Hc & Hk). split.
    + intros id Hid. by destruct (Hc _ _ Hid).
    + intros c Hc'. rewrite Hc', guard_Ok, validate_scope_spec in Hk.
      destruct Hk as [Hk ?]. destruct_guards. done.
  - intros [Hc Hk]. exists tt. split.
    + intros id s Hid. split; [|done]. intros ->. by apply (Hc id).
    + destruct (st_checkpoint state) as [c|]; [|done].
      rewrite guard_Ok, validate_scope_spec. specialize (Hk c eq_refl). tauto.
Qed.

Lemma validate_coverage_spec state u :
  validate_coverage state = Ok u ↔
  ∀ cov, st_reset_coverage state = Some cov → coverage_wf state cov.
Proof.
  destruct u. unfold validate_coverage, coverage_wf.
  destruct (st_reset_coverage state) as [cov|]; [|naive_solver].
  rewrite result_bind_Ok. setoid_rewrite ok_or_Ok. setoid_rewrite guard_Ok. split.
  - intros (c & Hc & Hg & _) cov' [= <-]. exists c. destruct_guards.
    repeat split; [done..|lia|done].
  - intros H. destruct (H cov eq_refl) as (c & Hc & ? & ? & ? & ?).
    exists c. split; [done|]. split; [|done]. intros [?|[?|[?|?]]]; [done..|lia|done].
Qed.

Lemma validate_id_map_spec (m : gmap string string) u :
  validate_id_map m = Ok u ↔ id_map_flat m.
Proof.
  destruct u. unfold validate_id_map, id_map_flat.
  rewrite try_for_each_ok_unit, Forall_btree_entries. setoid_rewrite guard_Ok.
  split; intros H l c Hl; specialize (H l c Hl).
  - destruct H as [H _]. destruct_guards. split; [done|]. by apply eq_None_not_Some.
  - destruct H as [? ->]. split; [|done]. intros [?|[? ?]]; done.
Qed.

Lemma mentions_scan state id :
  existsb (λ '(record_id, record),
    bool_decide (record_id = id) || bool_decide (state_reference record = Some id))
    (btree_entries (st_confirmed state))
  || existsb (λ commit, commit_contains_id commit id) (st_outbox state)
  || existsb (λ r, commit_contains_id (local_commit r) id
                   || outcome_contains_id (outcome r) id) (st_outcomes state) = true
  ↔ mentions state id.
Proof.
  rewrite !orb_true_iff, !existsb_true_elem. split.
  - intros [[([k rec] & Hk & Hor)|(c & Hc & Hcc)]|(r & Hr & Hor)].
    + apply elem_of_btree_entries in Hk.
      apply orb_true_iff in Hor as [->%bool_decide_eq_true|?%bool_decide_eq_true].
      * by eapply mentions_confirmed.
      * by eapply mentions_reference.
    + eapply mentions_commit; [|done]. apply elem_of_durable_commits. by left.
    + apply orb_true_iff in Hor as [?|?].
      * eapply mentions_commit; [|done]. apply elem_of_durable_commits. eauto.
      * by eapply mentions_outcome.
  - intros [rec Hk|k rec Hk Hr|c Hc Hcc|r Hr Ho].
    + left; left. exists (id, rec). rewrite elem_of_btree_entries.
      by rewrite bool_decide_eq_true_2.
    + left; left. exists (k, rec). rewrite elem_of_btree_entries, orb_true_iff.
      split; [done|]. right. by apply bool_decide_eq_true_2.
    + apply elem_of_durable_commits in Hc as [Hc|(r & Hr & ->)]; [eauto|].
      right. exists r. by rewrite Hcc.
    + right. exists r. rewrite Ho. by rewrite orb_true_r.
Qed.

Lemma validate_no_mapped_local_ids_spec state u :
  validate_no_mapped_local_ids state = Ok u ↔
  ∀ local, is_Some (st_id_map state !! local) → ¬ mentions state local.
Proof.
  destruct u. unfold validate_no_mapped_local_ids.
  rewrite try_for_each_ok_unit, Forall_forall. setoid_rewrite elem_of_btree_keys.
  setoid_rewrite guard_bool_Ok. setoid_rewrite <-not_true_iff_false.
  setoid_rewrite mentions_scan. naive_solver.
Qed.

Lemma validate_conflict_resolutions_spec state u :
  validate_conflict_resolutions state = Ok u ↔
  Forall (resolution_wf state) (st_outcomes state).
Proof.
  unfold validate_conflict_resolutions. rewrite try_for_each_ok_unit.
  apply Forall_iff. intros r. apply validate_resolution_spec.
Qed.

Lemma validate_subscriptions_opt_spec state u :
  match st_subscriptions state with
  | Some subs => validate_subscriptions subs state
  | None => Ok tt
  end = Ok u ↔
  ∀ subs, st_subscriptions state = Some subs → SubscriptionsValid subs state.
Proof.
  destruct u. destruct (st_subscriptions state) as [subs|]; [|naive_solver].
  rewrite validate_subscriptions_spec. naive_solver.
Qed.

(** The two identity loops of [validate] together. *)
Lemma identity_loops_spec state (identities identities' : gset string) :
  try_fold outbox_step ∅ (st_outbox state) = Ok identities ∧
  try_fold outcome_step identities (st_outcomes state) = Ok identities' ↔
  (identities = list_to_set (commit_id <$> st_outbox state) ∧
   identities' = list_to_set ((λ r, commit_id (local_commit r)) <$> st_outcomes state)
                 ∪ identities) ∧
  Forall commit_wf (durable_commits state) ∧ NoDup (durable_ids state) ∧
  Forall outcome_wf (st_outcomes state).
Proof.
  rewrite (identity_loop _ _ _ _ _ _ outbox_step_spec),
    (identity_loop _ _ _ _ _ _ outcome_step_spec).
  unfold durable_ids, durable_commits.
  rewrite fmap_app, <-list_fmap_compose, Forall_app, Forall_fmap, NoDup_app, Forall_and.
  unfold compose. rewrite union_empty_r_L. split.
  - intros ((HF1 & Hn1 & _ & ->) & (HF2 & HF3) & Hn2 & Hd & ->).
    repeat split; try done. intros x Hx Hx'. apply (Hd x Hx'). by apply elem_of_list_to_set.
  - intros ((-> & ->) & (HF1 & HF2) & (Hn1 & Hd & Hn2) & HF3).
    split; [repeat split; [done|done|set_solver]|]. repeat split; try done.
    intros x Hx. rewrite elem_of_list_to_set. intros Hx'. by apply (Hd x).
Qed.

Lemma validate_ValidState state u : validate state = Ok u ↔ ValidState state.
Proof.
  destruct u. unfold validate. split.
  - intros H.
    apply result_bind_Ok in H as (s1 & H1 & H). apply result_bind_Ok in H as (s2 & H2 & H).
    apply result_bind_Ok in H as (? & Hres%validate_conflict_resolutions_spec & H).
    apply result_bind_Ok in H as (? & Hck%validate_checkpoint_spec & H).
    apply result_bind_Ok in H as (? & Hcov & H).
    pose proof (proj1 (validate_coverage_spec _ _) Hcov) as Hcov'.
    apply result_bind_Ok in H as (? & Hsub & H).
    pose proof (proj1 (validate_subscriptions_opt_spec _ _) Hsub) as Hsub'.
    apply result_bind_Ok in H as (? & Hmap & H).
    pose proof (proj1 (validate_id_map_spec _ _) Hmap) as Hmap'.
    pose proof (proj1 (validate_no_mapped_local_ids_spec _ _) H) as H'.
    destruct (proj1 (identity_loops_spec state s1 s2)) as (_ & Hwf & Hnd & Hout); [done|].
    destruct Hck. split; done.
  - intros [Hwf Hnd Hout Hres Hconf Hck Hcov Hsub Hmap Hloc].
    destruct (proj2 (identity_loops_spec state
      (list_to_set (commit_id <$> st_outbox state))
      (list_to_set ((λ r, commit_id (local_commit r)) <$> st_outcomes state)
       ∪ list_to_set (commit_id <$> st_outbox state)))) as [H1 H2]; [done|].
    rewrite H1; simpl. rewrite H2; simpl.
    rewrite (proj2 (validate_conflict_resolutions_spec state tt)) by done; simpl.
    rewrite (proj2 (validate_checkpoint_spec state tt)) by done; simpl.
    rewrite (proj2 (validate_coverage_spec state tt)) by done; simpl.
    rewrite (proj2 (validate_subscriptions_opt_spec state tt)) by done; simpl.
    rewrite (proj2 (validate_id_map_spec _ tt)) by done; simpl.
    by apply validate_no_mapped_local_ids_spec.
Qed.
End spec.
