(* ===== verification/IdMap.v ===== *)
(** * Local-to-canonical id mappings.

    Models [apply_id_mapping] and the [remap_*] functions of
    [crates/surrealdb-sync-client/src/lib.rs]: when the authority accepts a
    commit it may rename records the client created; the client rewrites every
    durable occurrence of the local id. *)

From S2P Require Import Prelude Protocol Subscription ClientState SubscriptionState Validate.

Definition remap_record_id (mapping : IdMapping) (record_id : RecordId) : RecordId :=
  if decide (record_id = local_id mapping) then canonical_id mapping else record_id.

Section remap.
Context {V : Type}.
Implicit Types state : DurableClientState V.

(** The reference update of one [RecordState]. *)
Definition remap_record_state (mapping : IdMapping) (s : RecordState V) : RecordState V :=
  match s with
  | Present value version (Some reference) =>
      Present value version (Some (remap_record_id mapping reference))
  | s => s
  end.

Definition remap_state_references (mapping : IdMapping) state : DurableClientState V :=
  set_confirmed state (remap_record_state mapping <$> st_confirmed state).

Definition remap_operation (mapping : IdMapping) (op : Operation V) : Operation V :=
  match op with
  | Upsert record_id base_version value reference =>
      Upsert (remap_record_id mapping record_id) base_version value
        (remap_record_id mapping <$> reference)
  | Delete record_id base_version => Delete (remap_record_id mapping record_id) base_version
  end.

Definition remap_commit (mapping : IdMapping) (commit : ClientCommit V) : ClientCommit V :=
  mkCommit (commit_identity commit) (remap_operation mapping <$> operations commit).

Definition remap_outcome (mapping : IdMapping) (o : DurableOutcome V) : DurableOutcome V :=
  match o with
  | Conflict identity record_id authoritative =>
      Conflict identity (remap_record_id mapping record_id)
        (remap_record_state mapping authoritative)
  | o => o
  end.

Definition remap_resolved (mapping : IdMapping) (r : ResolvedCommit V) : ResolvedCommit V :=
  mkResolved (remap_commit mapping (local_commit r)) (remap_outcome mapping (outcome r))
    (resolution r) (covered_by_reset r).

Definition accepted_mappings (o : DurableOutcome V) : list IdMapping :=
  match o with
  | Accepted _ _ id_mappings => id_mappings
  | Conflict _ _ _ | Rejected _ _ => []
  end.

(** Moving the confirmed record from the local to the canonical id. *)
Definition move_confirmed `{!EqDecision V} state (mapping : IdMapping)
  : result (DurableClientState V) ClientError :=
  match st_confirmed state !! local_id mapping with
  | Some local_state =>
      let confirmed := delete (local_id mapping) (st_confirmed state) in
      match confirmed !! canonical_id mapping with
      | Some canonical_state =>
          if decide (canonical_state ≠ local_state)
          then Err (IdMappingCollision (canonical_id mapping))
          else Ok (set_confirmed state confirmed)
      | None => Ok (set_confirmed state (<[canonical_id mapping := local_state]> confirmed))
      end
  | None => Ok state
  end.

Definition apply_id_mapping `{!EqDecision V} state (mapping : IdMapping)
  : result (DurableClientState V) ClientError :=
  if decide (local_id mapping = canonical_id mapping
             ∨ is_Some (st_id_map state !! canonical_id mapping))
  then Err (InvalidIdMapping mapping) else
  match st_id_map state !! local_id mapping with
  | Some existing =>
      if decide (existing = canonical_id mapping) then Ok state
      else Err (InvalidIdMapping mapping)
  | None =>
      let? state := move_confirmed state mapping in
      let state := remap_state_references mapping state in
      let state := set_outbox state (remap_commit mapping <$> st_outbox state) in
      let state := set_outcomes state (remap_resolved mapping <$> st_outcomes state) in
      let id_map := remap_record_id mapping <$> st_id_map state in
      Ok (set_id_map state (<[local_id mapping := canonical_id mapping]> id_map))
  end.
End remap.
