(* ===== verification/Client.v ===== *)
(** * The client transitions.

    Models [ClientRuntime] of [crates/surrealdb-sync-client/src/lib.rs]: every
    [prepare_*] method computes a complete replacement state from the installed
    one, [install] makes it current.  The runtime is its installed state. *)

From S2P Require Import Prelude Protocol Subscription ClientState SubscriptionState Validate IdMap.

Section transitions.
Context {V : Type} `{!EqDecision V}.
Implicit Types self next state : DurableClientState V.

Definition identity_exists state (id : ClientCommitId) : bool :=
  existsb (λ commit, bool_decide (commit_id commit = id)) (st_outbox state)
  || existsb (λ resolved, bool_decide (commit_id (local_commit resolved) = id))
       (st_outcomes state).

(** [ClientRuntime::open] *)
Definition open state : result (DurableClientState V) ClientError :=
  let? _ := validate state in Ok state.

Definition prepare self next : result (PreparedTransition V) ClientError :=
  let? next :=
    if decide (next ≠ self) then
      let? revision := ok_or (checked_add u64_max (st_revision self) 1) RevisionExhausted in
      Ok (set_revision next revision)
    else Ok next in
  let? _ := validate next in
  Ok (mkPrepared (st_revision self) next).

Definition install self (prepared : PreparedTransition V)
  : result (DurableClientState V) ClientError :=
  if decide (base_revision prepared ≠ st_revision self)
  then Err (StaleTransition (base_revision prepared) (st_revision self))
  else Ok (prepared_state prepared).

(** ** Local intent and push outcomes *)

Definition prepare_enqueue self (commit : ClientCommit V)
  : result (PreparedTransition V) ClientError :=
  let? _ := validate_commit commit in
  if identity_exists self (commit_id commit)
  then Err (DuplicateCommitId (commit_id commit))
  else prepare self (set_outbox self (st_outbox self ++ [commit])).

Definition prepare_push_response_with_policy self (response : PushResponse V)
    (policy : AutomaticConflictPolicy) : result (PreparedTransition V) ClientError :=
  if decide (presp_schema_version response ≠ V1
             ∨ presp_partition_id response ≠ st_partition_id self
             ∨ presp_client_id response ≠ st_client_id self)
  then Err EnvelopeMismatch else
  let identity := outcome_identity (presp_outcome response) in
  let id := client_commit_id identity in
  match find_first (λ resolved, bool_decide (commit_id (local_commit resolved) = id))
          (st_outcomes self) with
  | Some resolved =>
      if decide (outcome resolved = presp_outcome response) then prepare self self
      else Err OutcomeIdentityMismatch
  | None =>
      match position (λ commit, bool_decide (commit_identity commit = identity))
              (st_outbox self) with
      | None => Err (UnknownCommit id)
      | Some (index, local_commit) =>
          let next := set_outbox self (vec_remove index (st_outbox self)) in
          let? next := try_fold apply_id_mapping next
                         (accepted_mappings (presp_outcome response)) in
          let local_commit :=
            foldl (λ c mapping, remap_commit mapping c) local_commit
              (accepted_mappings (presp_outcome response)) in
          let resolution :=
            if bool_decide (policy = PreferServerV1)
               && prefer_server_eligible local_commit (presp_outcome response)
            then Some PreferServerPolicyV1 else None in
          let next := set_outcomes next (st_outcomes next ++
            [mkResolved local_commit (presp_outcome response) resolution false]) in
          prepare self next
      end
  end.

Definition prepare_push_response self (response : PushResponse V)
  : result (PreparedTransition V) ClientError :=
  prepare_push_response_with_policy self response Manual.

(** ** Conflict resolution *)

Definition validate_replacement_identity state (replacement : ClientCommit V)
  : result unit ClientError :=
  let? _ := validate_commit replacement in
  if identity_exists state (commit_id replacement)
  then Err (DuplicateCommitId (commit_id replacement)) else Ok tt.

Definition resolution_request_matches state (resolution : ConflictResolution)
    (request : ConflictResolutionRequest V) : bool :=
  match resolution, request with
  | (KeepServer | PreferServerPolicyV1), ReqKeepServer => true
  | KeepLocal identity, ReqKeepLocal replacement
  | Merge identity, ReqMerge replacement =>
      bool_decide (identity = commit_identity replacement)
      && existsb (λ commit, bool_decide (commit = replacement)) (durable_commits state)
  | _, _ => false
  end.

Definition same_operation_intent (original replacement : Operation V) : bool :=
  match original, replacement with
  | Upsert original_id _ original_value original_reference,
    Upsert replacement_id _ replacement_value replacement_reference =>
      bool_decide (original_id = replacement_id)
      && bool_decide (original_value = replacement_value)
      && bool_decide (original_reference = replacement_reference)
  | Delete original_id _, Delete replacement_id _ =>
      bool_decide (original_id = replacement_id)
  | Upsert _ _ _ _, Delete _ _ | Delete _ _, Upsert _ _ _ _ => false
  end.

Definition same_intent (original replacement : ClientCommit V) : bool :=
  bool_decide (length (operations original) = length (operations replacement))
  && forallb (λ '(a, b), same_operation_intent a b)
       (zip (operations original) (operations replacement)).

Definition commit_matches_authoritative_base (commit : ClientCommit V)
    (conflict_record_id : RecordId) (authoritative : RecordState V) : bool :=
  match find_first (λ op, bool_decide (op_record_id op = conflict_record_id))
          (operations commit) with
  | None => false
  | Some op =>
      match op, authoritative with
      | Upsert _ BaseAbsent _ _, Absent => true
      | Upsert _ (Exact base) _ _, (Present _ version _ | Tombstone version) =>
          (base =? version)%N
      | Delete _ base_version, Present _ version _ => (base_version =? version)%N
      | _, _ => false
      end
  end.

Definition set_resolution (res : ConflictResolution) (r : ResolvedCommit V)
  : ResolvedCommit V :=
  mkResolved (local_commit r) (outcome r) (Some res) (covered_by_reset r).

Definition is_conflict_for (id : ClientCommitId) (r : ResolvedCommit V) : bool :=
  bool_decide (commit_id (local_commit r) = id) && is_conflict (outcome r).

(** The [match request] of [prepare_resolve_conflict] on an unresolved conflict. *)
Definition resolve_conflict_next self (index : nat) (resolved : ResolvedCommit V)
    (record_id : RecordId) (authoritative : RecordState V)
    (request : ConflictResolutionRequest V) : result (DurableClientState V) ClientError :=
  let resolve res := alter (set_resolution res) index (st_outcomes self) in
  match request with
  | ReqKeepServer => Ok (set_outcomes self (resolve KeepServer))
  | ReqKeepLocal replacement =>
      let? _ := validate_replacement_identity self replacement in
      if negb (same_intent (local_commit resolved) replacement)
         || negb (commit_matches_authoritative_base replacement record_id authoritative)
      then Err InvalidConflictResolution else
      Ok (set_outbox (set_outcomes self (resolve (KeepLocal (commit_identity replacement))))
            (st_outbox self ++ [replacement]))
  | ReqMerge replacement =>
      let? _ := validate_replacement_identity self replacement in
      if negb (commit_matches_authoritative_base replacement record_id authoritative)
      then Err InvalidConflictResolution else
      Ok (set_outbox (set_outcomes self (resolve (Merge (commit_identity replacement))))
            (st_outbox self ++ [replacement]))
  end.

(** The last case is the source's [unreachable!]: [is_conflict_for] only selects
    conflicts. *)
Definition prepare_resolve_conflict self (conflicted_commit_id : ClientCommitId)
    (request : ConflictResolutionRequest V) : result (PreparedTransition V) ClientError :=
  match position (is_conflict_for conflicted_commit_id) (st_outcomes self) with
  | None => Err (UnknownConflict conflicted_commit_id)
  | Some (index, resolved) =>
      match resolution resolved with
      | Some res =>
          if resolution_request_matches self res request then prepare self self
          else Err (ConflictAlreadyResolved conflicted_commit_id)
      | None =>
          match outcome resolved with
          | Conflict _ record_id authoritative =>
              let? next := resolve_conflict_next self index resolved record_id
                             authoritative request in
              prepare self next
          | _ => Err (UnknownConflict conflicted_commit_id)
          end
      end
  end.

(** ** Pulls *)

(** [for frame in &frames[1..len - 1]]: every inner frame is a commit frame
    carrying the batch token. *)
Definition inner_frame (end_token : OpaqueCheckpoint) (frame : PullFrame V)
  : result (PullCommit V) ClientError :=
  match frame with
  | FrameCommit checkpoint commit =>
      if decide (checkpoint ≠ end_token) then Err CheckpointMismatch else Ok commit
  | _ => Err InvalidPullFraming
  end.

(** [&frames[1..len - 1]] of a batch with at least two frames. *)
Definition inner_frames (fs : list (PullFrame V)) : list (PullFrame V) :=
  take (length fs - 2) (drop 1 fs).

Definition sequence_step (expected : N) (commit : PullCommit V) : result N ClientError :=
  if decide (pc_sequence commit ≠ expected) then Err CommitSequenceGap
  else Ok (wrapping_add_u64 expected 1).

Definition current_sequence state (end_ : Checkpoint) : N :=
  match st_checkpoint state with
  | Some current =>
      if decide (epoch (cursor current) = epoch (cursor end_))
      then sequence (cursor current) else 0%N
  | None => 0%N
  end.

Definition validate_sequences state (end_ : Checkpoint) (commits : list (PullCommit V))
  : result unit ClientError :=
  let? _ := try_for_each (λ '(a, b),
    if decide (pc_sequence b ≠ saturating_add u64_max (pc_sequence a) 1)
    then Err CommitSequenceGap else Ok tt) (windows2 commits) in
  if decide (is_some_and (λ c, pc_sequence c ≠ sequence (cursor end_)) (last commits))
  then Err CommitSequenceGap else
  if decide (current_sequence state end_ < sequence (cursor end_))%N then
    let? expected := try_fold sequence_step
      (wrapping_add_u64 (current_sequence state end_) 1) commits in
    if decide (wrapping_sub_u64 expected 1 ≠ sequence (cursor end_))
    then Err CommitSequenceGap else Ok tt
  else Ok tt.

Definition validate_pull_batch state (batch : PullBatch V)
  : result (Checkpoint * list (PullCommit V)) ClientError :=
  match head (frames batch), last (frames batch) with
  | Some (FrameStart start), Some (FrameEnd end_) =>
      if decide (start ≠ end_) then Err CheckpointMismatch else
      let? _ := validate_scope state end_ in
      let? _ :=
        match st_checkpoint state with
        | Some current =>
            if decide (scope end_ ≠ scope current) then Err ScopeMismatch else
            if decide (epoch (cursor end_) ≠ epoch (cursor current))
            then Err CursorEpochMismatch else
            if decide (sequence (cursor end_) < sequence (cursor current))%N
            then Err CursorWouldMoveBackward else Ok tt
        | None => Ok tt
        end in
      let? commits := try_map (inner_frame (token end_)) (inner_frames (frames batch)) in
      let? _ := validate_sequences state end_ commits in
      Ok (end_, commits)
  | _, _ => Err InvalidPullFraming
  end.

Definition apply_record (confirmed : gmap string (RecordState V))
    (record : AppliedRecord V) : gmap string (RecordState V) :=
  match applied_state record with
  | Absent => delete (applied_record_id record) confirmed
  | s => <[applied_record_id record := s]> confirmed
  end.

Definition apply_commit (confirmed : gmap string (RecordState V))
    (commit : PullCommit V) : gmap string (RecordState V) :=
  foldl apply_record confirmed (pc_records commit).

Definition prepare_pull_batch self (batch : PullBatch V)
  : result (PreparedTransition V) ClientError :=
  let? (checkpoint, commits) := validate_pull_batch self batch in
  let? _ := guard_subscription_scope self (scope checkpoint) in
  let advance :=
    prepare self (set_checkpoint
      (set_confirmed self (foldl apply_commit (st_confirmed self) commits))
      (Some checkpoint)) in
  match st_checkpoint self with
  | Some current =>
      if decide (sequence (cursor checkpoint) = sequence (cursor current)) then
        if decide (checkpoint = current) then prepare self self else
        if decide (commits ≠ []) then Err InvalidPullFraming
        else prepare self (set_checkpoint self (Some checkpoint))
      else advance
  | None => advance
  end.

(** ** Resets and bootstrap snapshots *)

Definition snapshot_step (acc : gmap string (RecordState V) * gset string)
    (record : SnapshotRecord V)
  : result (gmap string (RecordState V) * gset string) ClientError :=
  let '(confirmed, record_ids) := acc in
  if decide (snap_record_id record ∈ record_ids)
  then Err (DuplicateSnapshotRecord (snap_record_id record)) else
  Ok (if decide (snap_state record ≠ Absent)
      then <[snap_record_id record := snap_state record]> confirmed else confirmed,
      {[snap_record_id record]} ∪ record_ids).

Definition same_epoch self (checkpoint : Checkpoint) : bool :=
  match st_checkpoint self with
  | Some current => bool_decide (epoch (cursor current) = epoch (cursor checkpoint))
  | None => false
  end.

Definition cover_outcome (same : bool) (checkpoint : Checkpoint) (r : ResolvedCommit V)
  : ResolvedCommit V :=
  match outcome r with
  | Accepted _ seq _ =>
      if negb same || (seq <=? sequence (cursor checkpoint))%N
      then mkResolved (local_commit r) (outcome r) (resolution r) true else r
  | _ => r
  end.

(** The guard on the installed checkpoint. *)
Definition snapshot_guard self (incoming : Checkpoint) : result unit ClientError :=
  match st_checkpoint self with
  | None => Ok tt
  | Some current =>
      if decide ((epoch (cursor incoming) < epoch (cursor current))%N
                 ∨ (epoch (cursor incoming) = epoch (cursor current)
                    ∧ (sequence (cursor incoming) < sequence (cursor current))%N))
      then Err CursorWouldMoveBackward else
      if decide (authorization_revision (scope incoming)
                 < authorization_revision (scope current))%N
      then Err ScopeMismatch else
      if decide (scope incoming ≠ scope current) then
        if has_pending_intent self then Err PendingQuarantineRequired else
        if decide (st_outcomes self ≠ []) then Err NeedsNewScopeJournal else Ok tt
      else Ok tt
  end.

Definition prepare_snapshot self (checkpoint : Checkpoint)
    (snapshot_records : list (SnapshotRecord V))
  : result (PreparedTransition V) ClientError :=
  let? _ := validate_scope self checkpoint in
  let? _ := guard_subscription_scope self (scope checkpoint) in
  let? _ := snapshot_guard self checkpoint in
  let? (confirmed, _) := try_fold snapshot_step (∅, ∅) snapshot_records in
  let next := set_confirmed self confirmed in
  let next := set_outcomes next
    (cover_outcome (same_epoch self checkpoint) checkpoint <$> st_outcomes next) in
  let next := set_reset_coverage next
    (Some (mkCoverage (cursor checkpoint) (scope checkpoint))) in
  prepare self (set_checkpoint next (Some checkpoint)).

Definition prepare_reset self (snapshot : ResetSnapshot V)
  : result (PreparedTransition V) ClientError :=
  prepare_snapshot self (reset_checkpoint snapshot) (reset_records snapshot).

Definition prepare_pull_response self (response : PullResponse V)
  : result (PreparedTransition V) ClientError :=
  match response with
  | Batch batch => prepare_pull_batch self batch
  | Reset snapshot => prepare_reset self snapshot
  end.

Definition bootstrap_record_check (record : SnapshotRecord V) : result unit ClientError :=
  match snap_state record with
  | Absent => Err (AbsentConfirmedRecord (snap_record_id record))
  | Present _ version _ | Tombstone version =>
      if decide (version = 0%N) then Err (InvalidSnapshotVersion (snap_record_id record))
      else Ok tt
  end.

Definition prepare_bootstrap_snapshot self (checkpoint : Checkpoint)
    (snapshot_records : list (SnapshotRecord V))
  : result (PreparedTransition V) ClientError :=
  if negb (same_epoch self checkpoint)
     && existsb (λ r, is_accepted (outcome r)) (st_outcomes self)
  then Err NeedsNewScopeJournal else
  let? _ := try_for_each bootstrap_record_check snapshot_records in
  prepare_snapshot self checkpoint snapshot_records.

(** ** The optimistic view *)

Definition accepted_not_pulled state : list (ClientCommit V) :=
  let applied_sequence :=
    match st_checkpoint state with
    | Some checkpoint => sequence (cursor checkpoint)
    | None => 0%N
    end in
  omap (λ resolved, match outcome resolved with
    | Accepted _ seq _ =>
        if negb (covered_by_reset resolved) && (applied_sequence <? seq)%N
        then Some (local_commit resolved) else None
    | Conflict _ _ _ | Rejected _ _ => None
    end) (st_outcomes state).

Definition optimistic_operations state : list (Operation V) :=
  (accepted_not_pulled state ++ st_outbox state) ≫= operations.

Definition optimistic_of_state (s : RecordState V) : option (OptimisticRecord V) :=
  match s with
  | Absent => None
  | Present value version reference => Some (OptPresent value (Exact version) reference)
  | Tombstone version => Some (OptDeleted version)
  end.

Definition optimistic_of_operation (op : Operation V) : OptimisticRecord V :=
  match op with
  | Upsert _ base_version value reference => OptPresent value base_version reference
  | Delete _ base_version => OptDeleted base_version
  end.

Definition optimistic_projection state : gmap string (OptimisticRecord V) :=
  foldl (λ projection op, <[op_record_id op := optimistic_of_operation op]> projection)
    (omap optimistic_of_state (st_confirmed state))
    (optimistic_operations state).
End transitions.

(** ** What [prepare] guarantees *)

Section prepare_facts.
Context {V : Type} `{!EqDecision V}.
Implicit Types self next state : DurableClientState V.

(** The two ways a preparation succeeds: nothing changed, or the replacement
    carries the next revision. *)
Inductive prepared_as self next : PreparedTransition V → Prop :=
| prepared_same : next = self → ValidState self →
    prepared_as self next (mkPrepared (st_revision self) self)
| prepared_changed : next ≠ self → (st_revision self + 1 ≤ u64_max)%N →
    ValidState (set_revision next (st_revision self + 1)%N) →
    prepared_as self next
      (mkPrepared (st_revision self) (set_revision next (st_revision self + 1)%N)).

Lemma prepare_Ok self next p : prepare self next = Ok p → prepared_as self next p.
Proof.
  unfold prepare. intros H. apply result_bind_Ok in H as (next' & Hn & H).
  apply result_bind_Ok in H as (u & Hv & [= <-]). apply validate_ValidState in Hv.
  destruct (decide (next ≠ self)) as [Hne|Heq].
  - apply result_bind_Ok in Hn as (r & Hr & [= <-]).
    apply ok_or_Ok, checked_add_Some in Hr as [-> Hle]. by constructor.
  - injection Hn as <-. apply dec_stable in Heq as ->. by constructor.
Qed.

Lemma prepare_same self :
  ValidState self → prepare self self = Ok (mkPrepared (st_revision self) self).
Proof.
  intros Hv. unfold prepare. destruct (decide (self ≠ self)); [done|]. simpl.
  by rewrite (proj2 (validate_ValidState self tt) Hv).
Qed.

(** The revision is bookkeeping: it takes no part in validity. *)
Lemma ValidState_set_revision state r : ValidState (set_revision state r) ↔ ValidState state.
Proof.
  assert (∀ (s : DurableClientState V) r, ValidState s → ValidState (set_revision s r)) as H.
  { intros s r' [Hwf Hnd Hout Hres Hconf Hck Hcov Hsub Hmap Hloc].
    split; try done.
    - intros subs Hs. destruct (Hsub subs Hs) as [? ? ? ? ? Hslots ?]. split; try done.
      intros id slot Hid. destruct (Hslots id slot Hid). by split.
    - intros l Hl Hm. apply (Hloc l Hl). destruct Hm.
      + by eapply mentions_confirmed.
      + by eapply mentions_reference.
      + by eapply mentions_commit.
      + by eapply mentions_outcome. }
  split; [|apply H]. intros Hv. apply (H _ (st_revision state)) in Hv.
  by destruct state.
Qed.

Lemma prepared_state_valid self next p :
  prepared_as self next p → ValidState (prepared_state p).
Proof. by destruct 1. Qed.

Lemma prepared_base self next p : prepared_as self next p → base_revision p = st_revision self.
Proof. by destruct 1. Qed.

(** Every observation of the prepared state other than its revision is the
    observation of the replacement. *)
Lemma prepared_field {B} (f : DurableClientState V → B) self next p :
  (∀ s r, f (set_revision s r) = f s) →
  prepared_as self next p → f (prepared_state p) = f next.
Proof. intros Hf [-> _|_ _ _]; simpl; [done|apply Hf]. Qed.

Lemma prepared_revision self next p :
  prepared_as self next p →
  (prepared_state p = self ∧ next = self) ∨
  st_revision (prepared_state p) = (st_revision self + 1)%N.
Proof. intros [-> _|_ _ _]; simpl; [by left|by right]. Qed.
End prepare_facts.
