(* ===== verification/SubscriptionClient.v ===== *)
(** * Subscription transitions and views.

    Models the [ClientRuntime] methods of
    [crates/surrealdb-sync-client/src/subscriptions.rs]: starting, cancelling
    and advancing an ordered window, the resume request and the installed view. *)

From S2P Require Import Prelude Protocol Subscription ClientState SubscriptionState Validate IdMap Client.

Record SubscriptionViewMetadata := mkViewMetadata {
  vm_revision : N;
  vm_subscription_id : string;
  vm_generation : N;
  vm_plan_fingerprint : string;
  vm_scope : ScopeSnapshot;
  vm_frontier : Cursor;
  vm_view_revision : N;
  vm_coverage : WindowCoverage;
}.

Record InstalledSubscription (V : Type) := mkInstalled {
  is_metadata : SubscriptionViewMetadata;
  is_rows : list (SubscriptionRow V);
  is_pending_outside_window : option (list RecordId);
}.
Arguments mkInstalled {V} _ _ _.
Arguments is_metadata {V} _.
Arguments is_rows {V} _.
Arguments is_pending_outside_window {V} _.

Section subscriptions.
Context {V : Type} `{!EqDecision V}.
Implicit Types self next : DurableClientState V.

(** [next.subscriptions.get_or_insert_with(DurableSubscriptions::default)] *)
Definition subscriptions_or_default self : DurableSubscriptions V :=
  default subscriptions_default (st_subscriptions self).

(** Replacing the window request of [id] and collecting the row cache. *)
Definition replace_request (id : string) (request : SubscriptionRequest)
    (subs : DurableSubscriptions V) : DurableSubscriptions V :=
  collect_records (mkSubs (<[id := request]> (requests subs)) (delete id (slots subs))
    (records subs) (cancelled subs) (authorization_scope subs)).

Definition prepare_start_subscription self (request : SubscriptionRequest)
  : result (PreparedTransition V) ClientError :=
  if decide (¬ validate_subscription_request request
             ∨ ¬ is_start (sreq_command request)
             ∨ sreq_partition_id request ≠ st_partition_id self
             ∨ sreq_client_id request ≠ st_client_id self
             ∨ sreq_requested_scope request ≠ st_requested_scope self
             ∨ sreq_subscription_revision request ≠ st_subscription_revision self)
  then Err InvalidSubscription else
  let '(id, generation) := command_identity (sreq_command request) in
  let subs := subscriptions_or_default self in
  if decide (is_some_and (λ barrier, generation ≤ barrier)%N (cancelled subs !! id))
  then Err SubscriptionCancelled else
  if decide (requests subs !! id = Some request)
  then prepare self (set_subscriptions self (Some subs)) else
  if decide (is_some_and (λ previous,
       generation ≤ (command_identity (sreq_command previous)).2)%N (requests subs !! id))
  then Err InvalidSubscription else
  if decide (requests subs !! id = None ∧ cancelled subs !! id = None
     ∧ (MAX_SUBSCRIPTIONS ≤
          set_len (list_to_set (btree_keys (requests subs) ++ btree_keys (cancelled subs))))%N)
  then Err InvalidSubscription else
  prepare self (set_subscriptions self (Some (replace_request id request subs))).

(** Raising the cancellation barrier of [id] and withdrawing its window. *)
Definition withdraw (id : string) (generation : N) (subs : DurableSubscriptions V)
  : DurableSubscriptions V :=
  let barrier := N.max (default generation (cancelled subs !! id)) generation in
  collect_records (mkSubs (delete id (requests subs)) (delete id (slots subs))
    (records subs) (<[id := barrier]> (cancelled subs)) (authorization_scope subs)).

Definition prepare_cancel_subscription self (id : string) (generation : N)
  : result (PreparedTransition V) ClientError :=
  if decide (¬ valid_subscription_text id ∨ generation = 0%N)
  then Err InvalidSubscription else
  let subs := subscriptions_or_default self in
  if decide (cancelled subs !! id = None
             ∧ (MAX_SUBSCRIPTIONS ≤ map_len (cancelled subs))%N)
  then Err InvalidSubscription else
  if decide (is_some_and (λ request,
       generation < (command_identity (sreq_command request)).2)%N (requests subs !! id))
  then Err InvalidSubscription else
  prepare self (set_subscriptions self (Some (withdraw id generation subs))).

(** ** Window responses *)

(** The response must answer the installed start request of this client. *)
Definition response_mismatch self (request : SubscriptionRequest) (definition_id : string)
    (limit : N) (response : SubscriptionResponse V) : Prop :=
  sr_partition_id response ≠ st_partition_id self
  ∨ sr_client_id response ≠ st_client_id self
  ∨ sr_generation response ≠ (command_identity (sreq_command request)).2
  ∨ scope_identity (sr_scope response) ≠ st_requested_scope self
  ∨ scope_subscription_revision (sr_scope response) ≠ st_subscription_revision self
  ∨ win_definition_id (sr_coverage response) ≠ definition_id
  ∨ win_limit (sr_coverage response) ≠ limit
  ∨ epoch (sr_frontier response) = 0%N
  ∨ sr_view_revision response = 0%N
  ∨ (MAX_WINDOW_ROWS * 2 < vec_len (sr_changes response))%N
  ∨ (limit < vec_len (sr_ordered_ids response))%N
  ∨ ¬ valid_subscription_text (sr_plan_fingerprint response).

#[export] Instance response_mismatch_dec self request definition_id limit response :
  Decision (response_mismatch self request definition_id limit response).
Proof. unfold response_mismatch. apply _. Defined.

(** [if let Some(previous) = previous]: scope, then frontier and view revision. *)
Definition previous_guard self (previous : option SubscriptionSlot)
    (response : SubscriptionResponse V) : result unit ClientError :=
  match previous with
  | None => Ok tt
  | Some previous =>
      if decide (sr_scope response ≠ slot_scope previous) then Err (scope_refusal self) else
      if decide ((epoch (sr_frontier response) < epoch (slot_frontier previous))%N
                 ∨ (epoch (sr_frontier response) = epoch (slot_frontier previous)
                    ∧ (sequence (sr_frontier response)
                       < sequence (slot_frontier previous))%N)
                 ∨ (sr_view_revision response < slot_view_revision previous)%N)
      then Err InvalidSubscription else Ok tt
  end.

(** The redelivery test at an unchanged view revision. *)
Definition same_view (current : DurableSubscriptions V) (previous : SubscriptionSlot)
    (response : SubscriptionResponse V) : bool :=
  bool_decide (sr_scope response = slot_scope previous)
  && bool_decide (sr_frontier response = slot_frontier previous)
  && bool_decide (sr_plan_fingerprint response = slot_plan_fingerprint previous)
  && bool_decide (sr_coverage response = slot_coverage previous)
  && bool_decide (sr_ordered_ids response = slot_ordered_ids previous)
  && bool_decide (sr_token response = Some (slot_token previous))
  && forallb (λ change, match change with
       | MUpsert row => bool_decide
           ((slot_members previous !! row_record_id row ≫= λ key, records current !! key)
            = Some row)
       | MLeave record_id | MDelete record_id _ =>
           bool_decide (slot_members previous !! record_id = None)
       end) (sr_changes response).

(** The rows the changes start from: the installed window for a delta, nothing
    for a snapshot. *)
Definition base_rows (current : DurableSubscriptions V) (previous : option SubscriptionSlot)
    (response : SubscriptionResponse V)
  : result (gmap string (SubscriptionRow V)) ClientError :=
  match sr_response response with
  | WDelta before_revision =>
      let? previous := ok_or previous InvalidSubscription in
      let? after_revision :=
        ok_or (checked_add u64_max before_revision 1) InvalidSubscription in
      if decide (before_revision ≠ slot_view_revision previous
                 ∨ sr_view_revision response ≠ after_revision
                 ∨ sr_plan_fingerprint response ≠ slot_plan_fingerprint previous
                 ∨ epoch (sr_frontier response) ≠ epoch (slot_frontier previous)
                 ∨ sr_coverage response ≠ slot_coverage previous)
      then Err InvalidSubscription else
      try_fold (λ rows '(id, key),
        let? row := ok_or (records current !! key) InvalidSubscription in
        Ok (<[id := row]> rows)) ∅ (btree_entries (slot_members previous))
  | WSnapshot _ => Ok ∅
  | WCancelled => Err InvalidSubscription
  end.

Definition is_delta (k : WindowResponseKind) : bool :=
  match k with WDelta _ => true | _ => false end.

Definition change_step (response : SubscriptionResponse V)
    (acc : gmap string (SubscriptionRow V) * gset string) (change : MembershipChange V)
  : result (gmap string (SubscriptionRow V) * gset string) ClientError :=
  let '(rows, touched) := acc in
  let id := change_record_id change in
  if decide (¬ valid_subscription_text id ∨ id ∈ touched)
  then Err InvalidSubscription else
  let touched := {[id]} ∪ touched in
  match change with
  | MUpsert row =>
      if decide (row_version row = 0%N
                 ∨ scalar_kind (row_sort_key row) ≠ win_order_kind (sr_coverage response))
      then Err InvalidSubscription else
      if decide (is_some_and (λ previous, row_version row < row_version previous)%N
                   (rows !! id))
      then Err InvalidSubscription else
      Ok (<[id := row]> rows, touched)
  | MLeave _ =>
      if decide (¬ is_delta (sr_response response) ∨ rows !! id = None)
      then Err InvalidSubscription else Ok (delete id rows, touched)
  | MDelete _ version =>
      if decide (is_some_and (λ previous, version ≤ row_version previous)%N (rows !! id))
      then Err InvalidSubscription else
      if decide (¬ is_delta (sr_response response) ∨ rows !! id = None)
      then Err InvalidSubscription else Ok (delete id rows, touched)
  end.

(** Storing one row of the new window in the shared cache. *)
Definition store_step (frontier_epoch : N)
    (acc : gmap string (SubscriptionRow V) * gmap string string)
    (entry : string * SubscriptionRow V)
  : result (gmap string (SubscriptionRow V) * gmap string string) ClientError :=
  let '(records, members) := acc in
  let '(id, row) := entry in
  let key := cache_key frontier_epoch row in
  if decide (is_some_and (λ stored, stored ≠ row) (records !! key))
  then Err InvalidSubscription
  else Ok (<[key := row]> records, <[id := key]> members).

Definition install_window (current : DurableSubscriptions V)
    (response : SubscriptionResponse V) (window_token : OpaqueCheckpoint)
    (rows : gmap string (SubscriptionRow V))
  : result (DurableSubscriptions V) ClientError :=
  let? (stored, members) :=
    try_fold (store_step (epoch (sr_frontier response))) (records current, ∅)
      (btree_entries rows) in
  let slot := mkSlot (sr_generation response) (sr_plan_fingerprint response)
    (sr_scope response) (sr_frontier response) (sr_view_revision response)
    (sr_coverage response) (sr_ordered_ids response) window_token members in
  Ok (collect_records (mkSubs (requests current)
    (<[sr_subscription_id response := slot]> (slots current))
    stored (cancelled current) (Some (sr_scope response)))).

(** Everything after the retry test: compute the new rows and install them. *)
Definition advance_window self (current : DurableSubscriptions V)
    (previous : option SubscriptionSlot) (limit : N) (window_token : OpaqueCheckpoint)
    (response : SubscriptionResponse V) : result (PreparedTransition V) ClientError :=
  let? rows := base_rows current previous response in
  let? (rows, _) := try_fold (change_step response) (rows, ∅) (sr_changes response) in
  if decide ((limit < map_len rows)%N
             ∨ ordered rows (sr_coverage response) ≠ sr_ordered_ids response)
  then Err InvalidSubscription else
  let? subs := install_window current response window_token rows in
  prepare self (set_subscriptions self (Some subs)).

Definition is_cancelled_kind (k : WindowResponseKind) : bool :=
  match k with WCancelled => true | _ => false end.

(** The part of [prepare_subscription_response] after the cancellation test:
    token, scope guards, retry detection, advance. *)
Definition respond_window self (current : DurableSubscriptions V) (limit : N)
    (response : SubscriptionResponse V) : result (PreparedTransition V) ClientError :=
  let? window_token :=
    ok_or (sr_token response ≫= λ token,
      if valid_subscription_text token then Some token else None)
      InvalidSubscription in
  let? _ := guard_subscription_scope self (sr_scope response) in
  if decide (is_some_and (λ checkpoint, scope checkpoint ≠ sr_scope response)
               (st_checkpoint self))
  then Err (scope_refusal self) else
  let previous := slots current !! sr_subscription_id response in
  let? _ := previous_guard self previous response in
  match previous with
  | Some slot =>
      if decide (sr_view_revision response = slot_view_revision slot) then
        if same_view current slot response then prepare self self
        else Err InvalidSubscription
      else advance_window self current previous limit window_token response
  | None => advance_window self current previous limit window_token response
  end.

Definition prepare_subscription_response self (response : SubscriptionResponse V)
  : result (PreparedTransition V) ClientError :=
  if negb (validate_subscription_response response) then Err InvalidSubscription else
  let id := sr_subscription_id response in
  let? current := ok_or (st_subscriptions self) InvalidSubscription in
  if decide (is_some_and (λ barrier, sr_generation response ≤ barrier)%N
               (cancelled current !! id))
  then Err SubscriptionCancelled else
  let? request := ok_or (requests current !! id) InvalidSubscription in
  match sreq_command request with
  | CmdStart _ _ definition_id _ limit =>
      if decide (response_mismatch self request definition_id limit response)
      then Err InvalidSubscription else
      if is_cancelled_kind (sr_response response)
      then prepare_cancel_subscription self id (sr_generation response)
      else respond_window self current limit response
  | _ => Err InvalidSubscription
  end.

(** ** Views *)

Definition subscription_request self (id : string) : option SubscriptionRequest :=
  match st_subscriptions self with
  | None => None
  | Some state =>
      match requests state !! id with
      | None =>
          (λ generation, mkSubRequest (st_partition_id self) (st_client_id self)
             (st_requested_scope self) (st_subscription_revision self)
             (CmdCancel id generation)) <$> cancelled state !! id
      | Some request =>
          Some match slots state !! id with
          | Some slot =>
              mkSubRequest (sreq_partition_id request) (sreq_client_id request)
                (sreq_requested_scope request) (sreq_subscription_revision request)
                (CmdResume id (slot_generation slot) (slot_token slot))
          | None => request
          end
      end
  end.

Definition slot_view (subs : DurableSubscriptions V) (slot : SubscriptionSlot)
  : list (SubscriptionRow V) :=
  omap (λ id, slot_members slot !! id ≫= λ key, records subs !! key)
    (slot_ordered_ids slot).

(** The pending record ids outside the window, as a [BTreeSet] in order. *)
Definition pending_outside self (slot : SubscriptionSlot) : list RecordId :=
  merge_sort String.le (elements (list_to_set
    (filter (λ id, slot_members slot !! id = None)
      (op_record_id <$> (st_outbox self ≫= operations))) : gset string)).

Definition subscription_snapshot self (id : string) : option (InstalledSubscription V) :=
  match st_subscriptions self with
  | None => None
  | Some subs =>
      match slots subs !! id with
      | None => None
      | Some slot =>
          let pending :=
            if decide (is_ok (validate_coverage self)
                 ∧ is_some_and (λ cov, cov_scope cov = slot_scope slot)
                     (st_reset_coverage self)
                 ∧ is_some_and (λ c, scope c = slot_scope slot) (st_checkpoint self))
            then Some (pending_outside self slot) else None in
          Some (mkInstalled
            (mkViewMetadata (st_revision self) id (slot_generation slot)
               (slot_plan_fingerprint slot) (slot_scope slot) (slot_frontier slot)
               (slot_view_revision slot) (slot_coverage slot))
            (slot_view subs slot) pending)
      end
  end.
End subscriptions.
