(* ===== verification/Read.v ===== *)
(** * The local read protocol.

    Models [crates/surrealdb-sync-client/src/read.rs]: the read snapshot of an
    installed state, the row-level change batch between two installed states and
    the scope transition decision; and [ClientRuntime::install_with_read_batch]
    of [lib.rs]. *)

From S2P Require Import Prelude Protocol Subscription ClientState SubscriptionState Validate IdMap Client.

Definition READ_PROTOCOL_VERSION : N := 1.

Record ReadScopeV1 := mkReadScope {
  rs_partition_id : PartitionId;
  rs_scope_identity : ScopeIdentity;
  rs_subscription_revision : N;
  rs_authorization_revision : option N;
}.

Inductive ReadReadinessV1 := LocalAvailableAwaitingCoverage | AuthorizedScopeAsOf.

Inductive ReadCoverageV1 :=
| CoverageUnknown
| AuthorizedReset (cursor : Cursor).

Record ReadMetadataV1 := mkReadMetadata {
  rm_revision : N;
  rm_scope : ReadScopeV1;
  rm_as_of : option Cursor;
  rm_readiness : ReadReadinessV1;
  rm_coverage : ReadCoverageV1;
}.

Inductive ReadConfirmedAbsenceV1 := NotAbsent | AbsenceUnknown | AbsentWithinAuthorizedScope.

Record ReadConflictV1 := mkReadConflict {
  rc_identity : CommitIdentity;
  rc_resolution : option ConflictResolution;
}.

Inductive ReadAcceptedStatusV1 := CoveredByAuthorizedReset | AwaitingPullEpochUnknown.

Record ReadAcceptedV1 := mkReadAccepted {
  ra_identity : CommitIdentity;
  ra_sequence : N;
  ra_status : ReadAcceptedStatusV1;
}.

Record ReadRowV1 (V : Type) := mkReadRow {
  rr_record_id : RecordId;
  rr_confirmed : RecordState V;
  rr_confirmed_absence : ReadConfirmedAbsenceV1;
  rr_optimistic : option (OptimisticRecord V);
  rr_pending : list CommitIdentity;
  rr_conflicts : list ReadConflictV1;
  rr_accepted : list ReadAcceptedV1;
}.
Arguments mkReadRow {V} _ _ _ _ _ _ _.
Arguments rr_record_id {V} _.
Arguments rr_confirmed {V} _.
Arguments rr_confirmed_absence {V} _.
Arguments rr_optimistic {V} _.
Arguments rr_pending {V} _.
Arguments rr_conflicts {V} _.
Arguments rr_accepted {V} _.

Record ReadSnapshotV1 (V : Type) := mkReadSnapshot {
  rsnap_protocol_version : N;
  rsnap_metadata : ReadMetadataV1;
  rsnap_rows : gmap string (ReadRowV1 V);
}.
Arguments mkReadSnapshot {V} _ _ _.
Arguments rsnap_protocol_version {V} _.
Arguments rsnap_metadata {V} _.
Arguments rsnap_rows {V} _.

Inductive ReadRowChangeV1 (V : Type) :=
| RowUpsert (row : ReadRowV1 V)
| RowRemove (record_id : RecordId).
Arguments RowUpsert {V} _.
Arguments RowRemove {V} _.

Record CommittedReadBatchV1 (V : Type) := mkReadBatch {
  rb_protocol_version : N;
  rb_before_revision : N;
  rb_revision : N;
  rb_metadata : ReadMetadataV1;
  rb_changes : list (ReadRowChangeV1 V);
}.
Arguments mkReadBatch {V} _ _ _ _ _.
Arguments rb_protocol_version {V} _.
Arguments rb_before_revision {V} _.
Arguments rb_revision {V} _.
Arguments rb_metadata {V} _.
Arguments rb_changes {V} _.

Inductive ScopeTransitionDecisionV1 :=
| Unchanged
| DecideNewScopeJournal
| DecidePendingQuarantine.

#[export] Instance ReadConfirmedAbsenceV1_eq_dec : EqDecision ReadConfirmedAbsenceV1.
Proof. solve_decision. Defined.
#[export] Instance ReadConflictV1_eq_dec : EqDecision ReadConflictV1.
Proof. solve_decision. Defined.
#[export] Instance ReadAcceptedStatusV1_eq_dec : EqDecision ReadAcceptedStatusV1.
Proof. solve_decision. Defined.
#[export] Instance ReadAcceptedV1_eq_dec : EqDecision ReadAcceptedV1.
Proof. solve_decision. Defined.
#[export] Instance ReadRowV1_eq_dec {V} `{!EqDecision V} : EqDecision (ReadRowV1 V).
Proof. solve_decision. Defined.

Section read.
Context {V : Type} `{!EqDecision V}.
Implicit Types state : DurableClientState V.

Definition metadata state : ReadMetadataV1 :=
  mkReadMetadata (st_revision state)
    (mkReadScope (st_partition_id state) (st_requested_scope state)
       (st_subscription_revision state)
       ((λ c, authorization_revision (scope c)) <$> st_checkpoint state))
    (cursor <$> st_checkpoint state)
    (if decide (is_Some (st_reset_coverage state))
     then AuthorizedScopeAsOf else LocalAvailableAwaitingCoverage)
    match st_reset_coverage state with
    | None => CoverageUnknown
    | Some coverage => AuthorizedReset (cov_cursor coverage)
    end.

Definition empty_row (record_id : RecordId) (complete : bool) : ReadRowV1 V :=
  mkReadRow record_id Absent
    (if complete then AbsentWithinAuthorizedScope else AbsenceUnknown) None [] [] [].

Definition set_confirmed_row (confirmed : RecordState V) (row : ReadRowV1 V) : ReadRowV1 V :=
  mkReadRow (rr_record_id row) confirmed NotAbsent (rr_optimistic row) (rr_pending row)
    (rr_conflicts row) (rr_accepted row).
Definition set_optimistic (o : OptimisticRecord V) (row : ReadRowV1 V) : ReadRowV1 V :=
  mkReadRow (rr_record_id row) (rr_confirmed row) (rr_confirmed_absence row) (Some o)
    (rr_pending row) (rr_conflicts row) (rr_accepted row).
Definition push_pending (i : CommitIdentity) (row : ReadRowV1 V) : ReadRowV1 V :=
  mkReadRow (rr_record_id row) (rr_confirmed row) (rr_confirmed_absence row)
    (rr_optimistic row) (rr_pending row ++ [i]) (rr_conflicts row) (rr_accepted row).
Definition push_conflict (c : ReadConflictV1) (row : ReadRowV1 V) : ReadRowV1 V :=
  mkReadRow (rr_record_id row) (rr_confirmed row) (rr_confirmed_absence row)
    (rr_optimistic row) (rr_pending row) (rr_conflicts row ++ [c]) (rr_accepted row).
Definition push_accepted (a : ReadAcceptedV1) (row : ReadRowV1 V) : ReadRowV1 V :=
  mkReadRow (rr_record_id row) (rr_confirmed row) (rr_confirmed_absence row)
    (rr_optimistic row) (rr_pending row) (rr_conflicts row) (rr_accepted row ++ [a]).

(** [rows.entry(id).or_insert_with(|| empty_row(id, complete))] updated in place. *)
Definition entry_update (complete : bool) (id : RecordId)
    (f : ReadRowV1 V → ReadRowV1 V) (rows : gmap string (ReadRowV1 V))
  : gmap string (ReadRowV1 V) :=
  <[id := f (default (empty_row id complete) (rows !! id))]> rows.

Definition read_accepted (resolved : ResolvedCommit V) (seq : N) : ReadAcceptedV1 :=
  mkReadAccepted (commit_identity (local_commit resolved)) seq
    (if covered_by_reset resolved then CoveredByAuthorizedReset
     else AwaitingPullEpochUnknown).

Definition outcome_rows (complete : bool) (resolved : ResolvedCommit V)
    (rows : gmap string (ReadRowV1 V)) (op : Operation V) : gmap string (ReadRowV1 V) :=
  let id := op_record_id op in
  match outcome resolved with
  | Accepted _ seq _ =>
      entry_update complete id (push_accepted (read_accepted resolved seq)) rows
  | Conflict _ _ _ =>
      entry_update complete id
        (push_conflict (mkReadConflict (commit_identity (local_commit resolved))
           (resolution resolved))) rows
  | Rejected _ _ => rows
  end.

Definition snapshot_rows state : gmap string (ReadRowV1 V) :=
  let complete := bool_decide (is_Some (st_reset_coverage state)) in
  let rows :=
    foldl (λ rows '(id, confirmed),
      <[id := set_confirmed_row confirmed (empty_row id complete)]> rows)
      ∅ (btree_entries (st_confirmed state)) in
  let rows :=
    foldl (λ rows '(id, optimistic), entry_update complete id (set_optimistic optimistic) rows)
      rows (btree_entries (optimistic_projection state)) in
  let rows :=
    foldl (λ rows commit,
      foldl (λ rows op,
        entry_update complete (op_record_id op) (push_pending (commit_identity commit)) rows)
        rows (operations commit)) rows (st_outbox state) in
  foldl (λ rows resolved,
    foldl (outcome_rows complete resolved) rows (operations (local_commit resolved)))
    rows (st_outcomes state).

Definition snapshot state : ReadSnapshotV1 V :=
  mkReadSnapshot READ_PROTOCOL_VERSION (metadata state) (snapshot_rows state).

(** [ReadSnapshotV1::row] *)
Definition snapshot_row (s : ReadSnapshotV1 V) (record_id : RecordId) : ReadRowV1 V :=
  default (empty_row record_id
             match rm_coverage (rsnap_metadata s) with
             | AuthorizedReset _ => true
             | CoverageUnknown => false
             end) (rsnap_rows s !! record_id).

Definition scope_transition_decision state (requested_scope : ScopeIdentity)
    (subscription_revision : N) : ScopeTransitionDecisionV1 :=
  if decide (requested_scope = st_requested_scope state
             ∧ subscription_revision = st_subscription_revision state)
  then Unchanged
  else if has_pending_intent state then DecidePendingQuarantine
  else DecideNewScopeJournal.

Definition row_changes (before after : gmap string (ReadRowV1 V))
  : list (ReadRowChangeV1 V) :=
  omap (λ id,
    if decide (before !! id = after !! id) then None else
    Some match after !! id with
    | Some row => RowUpsert row
    | None => RowRemove id
    end) (merge_sort String.le (elements (dom before ∪ dom after))).

Definition committed_batch (before after : DurableClientState V)
  : option (CommittedReadBatchV1 V) :=
  if decide (st_revision before = st_revision after) then None else
  let before := snapshot before in
  let after := snapshot after in
  Some (mkReadBatch READ_PROTOCOL_VERSION
    (rm_revision (rsnap_metadata before)) (rm_revision (rsnap_metadata after))
    (rsnap_metadata after) (row_changes (rsnap_rows before) (rsnap_rows after))).

(** [ClientRuntime::install_with_read_batch]: the new state and the batch. *)
Definition install_with_read_batch (self : DurableClientState V)
    (prepared : PreparedTransition V)
  : result (DurableClientState V * option (CommittedReadBatchV1 V)) ClientError :=
  if decide (base_revision prepared ≠ st_revision self)
  then Err (StaleTransition (base_revision prepared) (st_revision self))
  else Ok (prepared_state prepared, committed_batch self (prepared_state prepared)).
End read.
