(* ===== verification/Steps.v ===== *)
(** * The client as a step relation.

    [prepare_event] dispatches the public [prepare_*] methods of the runtime.
    [client_step] describes, per method and per branch, the replacement state a
    successful call prepares; [prepare_event_step] proves that every successful
    call follows it.  The theorems of the later files reason by cases on
    [client_step]. *)

From S2P Require Import Prelude Protocol Subscription ClientState SubscriptionState Validate IdMap Client SubscriptionClient.

Inductive event (V : Type) :=
| EEnqueue (commit : ClientCommit V)
| EPush (response : PushResponse V) (policy : AutomaticConflictPolicy)
| EResolve (conflicted : ClientCommitId) (request : ConflictResolutionRequest V)
| EPull (response : PullResponse V)
| EBootstrap (checkpoint : Checkpoint) (snapshot_records : list (SnapshotRecord V))
| EStartSubscription (request : SubscriptionRequest)
| ECancelSubscription (id : string) (generation : N)
| ESubscriptionResponse (response : SubscriptionResponse V).
Arguments EEnqueue {V} _.
Arguments EPush {V} _ _.
Arguments EResolve {V} _ _.
Arguments EPull {V} _.
Arguments EBootstrap {V} _ _.
Arguments EStartSubscription {V} _.
Arguments ECancelSubscription {V} _ _.
Arguments ESubscriptionResponse {V} _.

Section steps.
Context {V : Type} `{!EqDecision V}.
Implicit Types self next : DurableClientState V.

Definition prepare_event self (ev : event V) : result (PreparedTransition V) ClientError :=
  match ev with
  | EEnqueue commit => prepare_enqueue self commit
  | EPush response policy => prepare_push_response_with_policy self response policy
  | EResolve id request => prepare_resolve_conflict self id request
  | EPull response => prepare_pull_response self response
  | EBootstrap checkpoint rs => prepare_bootstrap_snapshot self checkpoint rs
  | EStartSubscription request => prepare_start_subscription self request
  | ECancelSubscription id generation => prepare_cancel_subscription self id generation
  | ESubscriptionResponse response => prepare_subscription_response self response
  end.

(** The state a complete snapshot at [checkpoint] installs. *)
Definition snapshot_next self (checkpoint : Checkpoint)
    (confirmed : gmap string (RecordState V)) : DurableClientState V :=
  set_checkpoint
    (set_reset_coverage
       (set_outcomes (set_confirmed self confirmed)
          (cover_outcome (same_epoch self checkpoint) checkpoint <$> st_outcomes self))
       (Some (mkCoverage (cursor checkpoint) (scope checkpoint))))
    (Some checkpoint).

(** Changes of the subscription membership. *)
Inductive subs_step self : event V → DurableSubscriptions V → Prop :=
| subs_start_again request :
    requests (subscriptions_or_default self)
      !! (command_identity (sreq_command request)).1 = Some request →
    subs_step self (EStartSubscription request) (subscriptions_or_default self)
| subs_start request id generation :
    command_identity (sreq_command request) = (id, generation) →
    is_start (sreq_command request) = true →
    (∀ barrier, cancelled (subscriptions_or_default self) !! id = Some barrier →
       (barrier < generation)%N) →
    (∀ previous, requests (subscriptions_or_default self) !! id = Some previous →
       ((command_identity (sreq_command previous)).2 < generation)%N) →
    subs_step self (EStartSubscription request)
      (replace_request id request (subscriptions_or_default self))
| subs_cancel id generation ev :
    ev = ECancelSubscription id generation ∨
    (∃ response, ev = ESubscriptionResponse response ∧
       sr_response response = WCancelled ∧ sr_subscription_id response = id ∧
       sr_generation response = generation) →
    (∀ request, requests (subscriptions_or_default self) !! id = Some request →
       ((command_identity (sreq_command request)).2 ≤ generation)%N) →
    subs_step self ev (withdraw id generation (subscriptions_or_default self))
| subs_window current request response window_token base rows touched subs :
    st_subscriptions self = Some current →
    requests current !! sr_subscription_id response = Some request →
    (command_identity (sreq_command request)).2 = sr_generation response →
    (∀ barrier, cancelled current !! sr_subscription_id response = Some barrier →
       (barrier < sr_generation response)%N) →
    (∀ slot, slots current !! sr_subscription_id response = Some slot →
       cursor_le (slot_frontier slot) (sr_frontier response) ∧
       (slot_view_revision slot < sr_view_revision response)%N ∧
       slot_scope slot = sr_scope response) →
    (∀ c, st_checkpoint self = Some c → scope c = sr_scope response) →
    sr_response response ≠ WCancelled →
    base_rows current (slots current !! sr_subscription_id response) response = Ok base →
    try_fold (change_step response) (base, ∅) (sr_changes response) = Ok (rows, touched) →
    ordered rows (sr_coverage response) = sr_ordered_ids response →
    (map_len rows ≤ win_limit (sr_coverage response))%N →
    install_window current response window_token rows = Ok subs →
    subs_step self (ESubscriptionResponse response) subs.

Inductive client_step self : event V → DurableClientState V → Prop :=
| step_enqueue commit :
    commit_wf commit → commit_id commit ∉ durable_ids self →
    client_step self (EEnqueue commit) (set_outbox self (st_outbox self ++ [commit]))
| step_push_again response policy resolved :
    resolved ∈ st_outcomes self → outcome resolved = presp_outcome response →
    client_step self (EPush response policy) self
| step_push response policy index commit next resolution :
    st_outbox self !! index = Some commit →
    commit_identity commit = outcome_identity (presp_outcome response) →
    try_fold apply_id_mapping (set_outbox self (vec_remove index (st_outbox self)))
      (accepted_mappings (presp_outcome response)) = Ok next →
    (resolution = Some PreferServerPolicyV1 → policy = PreferServerV1 ∧
       is_conflict (presp_outcome response) = true) →
    (resolution = None ∨ resolution = Some PreferServerPolicyV1) →
    client_step self (EPush response policy)
      (set_outcomes next (st_outcomes next ++
         [mkResolved (foldl (λ c mapping, remap_commit mapping c) commit
                        (accepted_mappings (presp_outcome response)))
            (presp_outcome response) resolution false]))
| step_resolve_again id request :
    client_step self (EResolve id request) self
| step_keep_server id index r :
    st_outcomes self !! index = Some r → is_conflict_for id r = true →
    resolution r = None →
    client_step self (EResolve id ReqKeepServer)
      (set_outcomes self (alter (set_resolution KeepServer) index (st_outcomes self)))
| step_replace id request index r identity record_id authoritative res replacement :
    request = ReqKeepLocal replacement ∧ res = KeepLocal (commit_identity replacement) ∧
      same_intent (local_commit r) replacement = true
    ∨ request = ReqMerge replacement ∧ res = Merge (commit_identity replacement) →
    st_outcomes self !! index = Some r → commit_id (local_commit r) = id →
    resolution r = None → outcome r = Conflict identity record_id authoritative →
    commit_wf replacement → commit_id replacement ∉ durable_ids self →
    commit_matches_authoritative_base replacement record_id authoritative = true →
    client_step self (EResolve id request)
      (set_outbox
         (set_outcomes self (alter (set_resolution res) index (st_outcomes self)))
         (st_outbox self ++ [replacement]))
| step_pull_again batch :
    client_step self (EPull (Batch batch)) self
| step_pull_rotate batch checkpoint current :
    validate_pull_batch self batch = Ok (checkpoint, []) →
    st_checkpoint self = Some current →
    sequence (cursor checkpoint) = sequence (cursor current) →
    client_step self (EPull (Batch batch)) (set_checkpoint self (Some checkpoint))
| step_pull_advance batch checkpoint commits :
    validate_pull_batch self batch = Ok (checkpoint, commits) →
    (∀ current, st_checkpoint self = Some current →
       (sequence (cursor current) < sequence (cursor checkpoint))%N) →
    client_step self (EPull (Batch batch))
      (set_checkpoint
         (set_confirmed self (foldl apply_commit (st_confirmed self) commits))
         (Some checkpoint))
| step_snapshot ev checkpoint rs confirmed ids :
    ev = EBootstrap checkpoint rs ∨
    (∃ reason, ev = EPull (Reset (mkReset reason checkpoint rs))) →
    validate_scope self checkpoint = Ok tt →
    snapshot_guard self checkpoint = Ok tt →
    try_fold snapshot_step (∅, ∅) rs = Ok (confirmed, ids) →
    client_step self ev (snapshot_next self checkpoint confirmed)
| step_subs_again response :
    client_step self (ESubscriptionResponse response) self
| step_subs ev subs :
    subs_step self ev subs →
    client_step self ev (set_subscriptions self (Some subs)).

(** ** Every successful preparation follows the step relation *)

Definition follows self (ev : event V) (p : PreparedTransition V) : Prop :=
  ∃ next, client_step self ev next ∧ prepared_as self next p.

Lemma follows_intro self ev next p :
  client_step self ev next → prepare self next = Ok p → follows self ev p.
Proof. intros ? ?%prepare_Ok. by exists next. Qed.

Lemma identity_exists_spec self id : identity_exists self id = true ↔ id ∈ durable_ids self.
Proof.
  unfold identity_exists, durable_ids. rewrite orb_true_iff, !existsb_true_elem.
  setoid_rewrite bool_decide_eq_true. rewrite list_elem_of_fmap.
  setoid_rewrite elem_of_durable_commits. naive_solver.
Qed.

Lemma enqueue_follows self commit p :
  prepare_enqueue self commit = Ok p → follows self (EEnqueue commit) p.
Proof.
  unfold prepare_enqueue. intros H.
  apply result_bind_Ok in H as (u & Hwf%validate_commit_spec & H).
  apply guard_bool_Ok in H as [Hid H]. eapply follows_intro; [|done].
  constructor; [done|]. rewrite <-identity_exists_spec. congruence.
Qed.

Lemma push_follows self response policy p :
  prepare_push_response_with_policy self response policy = Ok p →
  follows self (EPush response policy) p.
Proof.
  unfold prepare_push_response_with_policy. intros H. apply guard_Ok in H as [_ H].
  destruct (find_first _ _) as [resolved|] eqn:Hfind.
  - apply find_first_Some in Hfind as [Hin _].
    destruct (decide (outcome resolved = presp_outcome response)); [|done].
    eapply follows_intro; [|done]. by eapply step_push_again.
  - destruct (position _ _) as [[index commit]|] eqn:Hpos; [|done].
    apply position_Some in Hpos as (Hi & Hid%bool_decide_eq_true & _).
    apply result_bind_Ok in H as (next & Hmap & H).
    eapply follows_intro; [|done]. eapply step_push; [done|done|done| |].
    + destruct (bool_decide_reflect (policy = PreferServerV1)); [|done].
      intros Hres. split; [done|]. unfold prefer_server_eligible in Hres.
      destruct (presp_outcome response); done.
    + destruct (_ && _); [by right|by left].
Qed.

Lemma replacement_identity_spec self (c : ClientCommit V) u :
  validate_replacement_identity self c = Ok u ↔ commit_wf c ∧ commit_id c ∉ durable_ids self.
Proof.
  destruct u. unfold validate_replacement_identity. rewrite result_bind_Ok.
  setoid_rewrite validate_commit_spec. setoid_rewrite guard_bool_Ok.
  pose proof (identity_exists_spec self (commit_id c)) as Hid.
  destruct (identity_exists self (commit_id c)); split; [naive_solver..|].
  intros [? ?]. exists tt. naive_solver.
Qed.

Lemma resolve_follows self id request p :
  prepare_resolve_conflict self id request = Ok p → follows self (EResolve id request) p.
Proof.
  unfold prepare_resolve_conflict. intros H.
  destruct (position _ _) as [[index r]|] eqn:Hpos; [|done].
  apply position_Some in Hpos as (Hi & Hc & _).
  destruct (resolution r) as [res|] eqn:Hres.
  { destruct (resolution_request_matches _ _ _); [|done].
    eapply follows_intro; [|done]. constructor. }
  destruct (outcome r) as [|identity record_id authoritative|] eqn:Ho; [done| |done].
  apply result_bind_Ok in H as (next & Hn & H). eapply follows_intro; [|done].
  unfold is_conflict_for in Hc. apply andb_true_iff in Hc as [Hcid%bool_decide_eq_true Hc].
  destruct request as [|replacement|replacement]; simpl in Hn.
  - injection Hn as <-. econstructor; [done| |done].
    unfold is_conflict_for. by rewrite bool_decide_eq_true_2, Hc.
  - apply result_bind_Ok in Hn as (u & Hrep%replacement_identity_spec & Hn).
    destruct (same_intent _ _) eqn:Hsame; [|done]. simpl in Hn.
    apply guard_bool_Ok in Hn as [Hb%negb_false_iff [= <-]]. destruct Hrep.
    eapply step_replace; eauto.
  - apply result_bind_Ok in Hn as (u & Hrep%replacement_identity_spec & Hn).
    apply guard_bool_Ok in Hn as [Hb%negb_false_iff [= <-]]. destruct Hrep.
    eapply step_replace; eauto.
Qed.

Lemma snapshot_follows self ev checkpoint rs p :
  ev = EBootstrap checkpoint rs ∨
  (∃ reason, ev = EPull (Reset (mkReset reason checkpoint rs))) →
  prepare_snapshot self checkpoint rs = Ok p → follows self ev p.
Proof.
  intros Hev H. unfold prepare_snapshot in H.
  apply result_bind_Ok in H as ([] & Hs & H). apply result_bind_Ok in H as ([] & _ & H).
  apply result_bind_Ok in H as ([] & Hg & H).
  apply result_bind_Ok in H as ([confirmed ids] & Hf & H).
  apply (follows_intro self ev (snapshot_next self checkpoint confirmed)); [|done].
  by eapply step_snapshot.
Qed.

(** A validated batch never moves the cursor backward. *)
Lemma validate_pull_batch_cursor self batch checkpoint commits current :
  validate_pull_batch self batch = Ok (checkpoint, commits) →
  st_checkpoint self = Some current →
  epoch (cursor checkpoint) = epoch (cursor current) ∧
  (sequence (cursor current) ≤ sequence (cursor checkpoint))%N ∧
  scope checkpoint = scope current.
Proof.
  unfold validate_pull_batch. intros H Hc.
  destruct (head _) as [[start| |]|]; try done.
  destruct (last _) as [[| |end_]|]; try done.
  apply guard_Ok in H as [_ H]. apply result_bind_Ok in H as (? & _ & H).
  rewrite Hc in H. apply result_bind_Ok in H as (? & Hg & H).
  apply result_bind_Ok in H as (? & _ & H). apply result_bind_Ok in H as (? & _ & [= -> ->]).
  apply guard_Ok in Hg as [Hs Hg]. apply guard_Ok in Hg as [He Hg].
  apply guard_Ok in Hg as [Hq _]. destruct_guards. repeat split; [done|lia|done].
Qed.

Lemma pull_follows self batch p :
  prepare_pull_batch self batch = Ok p → follows self (EPull (Batch batch)) p.
Proof.
  unfold prepare_pull_batch. intros H.
  apply result_bind_Ok in H as ([checkpoint commits] & Hv & H).
  apply result_bind_Ok in H as (? & _ & H).
  destruct (st_checkpoint self) as [current|] eqn:Hc.
  - destruct (validate_pull_batch_cursor _ _ _ _ _ Hv Hc) as (_ & Hle & _).
    destruct (decide (sequence (cursor checkpoint) = sequence (cursor current))).
    + destruct (decide (checkpoint = current)); [eapply follows_intro; [constructor|done]|].
      apply guard_Ok in H as [He%dec_stable H]. subst commits.
      eapply follows_intro; [|done]. by eapply step_pull_rotate.
    + eapply follows_intro; [|done]. eapply step_pull_advance; [done|].
      intros c' Hc'. simplify_eq. lia.
  - eapply follows_intro; [|done]. eapply step_pull_advance; [done|]. congruence.
Qed.

Lemma start_follows self request p :
  prepare_start_subscription self request = Ok p → follows self (EStartSubscription request) p.
Proof.
  unfold prepare_start_subscription. intros H. apply guard_Ok in H as [Hv H].
  destruct_guards. destruct (command_identity _) as [id generation] eqn:Hci.
  apply guard_Ok in H as [Hb H].
  destruct (decide (requests (subscriptions_or_default self) !! id = Some request)) as [Hr|Hr].
  - eapply follows_intro; [|done]. apply step_subs. constructor. by rewrite Hci.
  - apply guard_Ok in H as [Hp H]. apply guard_Ok in H as [_ H].
    eapply follows_intro; [|done]. apply step_subs. eapply subs_start; [done|by apply Is_true_true| |].
    + intros barrier Hbar. rewrite Hbar in Hb. simpl in Hb. lia.
    + intros previous Hprev. rewrite Hprev in Hp. simpl in Hp. lia.
Qed.

Lemma cancel_follows self ev id generation p :
  ev = ECancelSubscription id generation ∨
  (∃ response, ev = ESubscriptionResponse response ∧
     sr_response response = WCancelled ∧ sr_subscription_id response = id ∧
     sr_generation response = generation) →
  prepare_cancel_subscription self id generation = Ok p → follows self ev p.
Proof.
  intros Hev H. unfold prepare_cancel_subscription in H. apply guard_Ok in H as [_ H].
  apply guard_Ok in H as [_ H]. apply guard_Ok in H as [Hp H].
  eapply follows_intro; [|done]. apply step_subs, subs_cancel; [done|].
  intros request Hr. rewrite Hr in Hp. simpl in Hp. lia.
Qed.

Lemma previous_guard_spec self previous (response : SubscriptionResponse V) slot u :
  previous_guard self previous response = Ok u → previous = Some slot →
  cursor_le (slot_frontier slot) (sr_frontier response) ∧
  (slot_view_revision slot ≤ sr_view_revision response)%N ∧
  slot_scope slot = sr_scope response.
Proof.
  intros H ->. simpl in H. apply guard_Ok in H as [Hs H]. apply guard_Ok in H as [Hf _].
  destruct_guards. unfold cursor_le. repeat split; [|lia|done].
  destruct (decide (epoch (sr_frontier response) = epoch (slot_frontier slot))); lia.
Qed.

(** The common tail of the two ways a window advances. *)
Lemma advance_follows self current request definition_id limit token
    (response : SubscriptionResponse V) p :
  st_subscriptions self = Some current →
  requests current !! sr_subscription_id response = Some request →
  ¬ response_mismatch self request definition_id limit response →
  (∀ barrier, cancelled current !! sr_subscription_id response = Some barrier →
     (barrier < sr_generation response)%N) →
  (∀ slot, slots current !! sr_subscription_id response = Some slot →
     cursor_le (slot_frontier slot) (sr_frontier response) ∧
     (slot_view_revision slot < sr_view_revision response)%N ∧
     slot_scope slot = sr_scope response) →
  (∀ c, st_checkpoint self = Some c → scope c = sr_scope response) →
  sr_response response ≠ WCancelled →
  advance_window self current (slots current !! sr_subscription_id response) limit token
    response = Ok p →
  follows self (ESubscriptionResponse response) p.
Proof.
  intros Hs Hr Hm Hb Hprev Hck Hw H. unfold advance_window in H.
  apply result_bind_Ok in H as (base & Hbase & H).
  apply result_bind_Ok in H as ([rows touched] & Hch & H).
  apply guard_Ok in H as [Hg H]. apply result_bind_Ok in H as (subs & Hi & H).
  unfold response_mismatch in Hm. destruct_guards.
  eapply follows_intro; [|done]. apply step_subs.
  eapply subs_window; eauto.
  replace (win_limit (sr_coverage response)) with limit by congruence. lia.
Qed.

Lemma respond_follows self current request definition_id limit
    (response : SubscriptionResponse V) p :
  st_subscriptions self = Some current →
  requests current !! sr_subscription_id response = Some request →
  ¬ response_mismatch self request definition_id limit response →
  (∀ barrier, cancelled current !! sr_subscription_id response = Some barrier →
     (barrier < sr_generation response)%N) →
  sr_response response ≠ WCancelled →
  respond_window self current limit response = Ok p →
  follows self (ESubscriptionResponse response) p.
Proof.
  intros Hs Hr Hm Hbar Hw H. unfold respond_window in H.
  apply result_bind_Ok in H as (token & _ & H). apply result_bind_Ok in H as (? & _ & H).
  apply guard_Ok in H as [Hck H]. apply result_bind_Ok in H as (? & Hg & H).
  assert (∀ c, st_checkpoint self = Some c → scope c = sr_scope response) as Hscope.
  { intros c Hc. rewrite Hc in Hck. simpl in Hck. by apply dec_stable in Hck. }
  pose proof (λ slot, previous_guard_spec _ _ _ slot _ Hg) as Hprev.
  destruct (slots current !! sr_subscription_id response) as [slot|] eqn:Hslot.
  - destruct (Hprev slot eq_refl) as (? & ? & ?).
    destruct (decide (sr_view_revision response = slot_view_revision slot)).
    + destruct (same_view _ _ _); [|done]. eapply follows_intro; [constructor|done].
    + rewrite <-Hslot in H. eapply advance_follows; eauto.
      intros slot' Hslot'. simplify_eq. repeat split; [done|lia|done].
  - rewrite <-Hslot in H. eapply advance_follows; eauto. congruence.
Qed.

Lemma response_follows self (response : SubscriptionResponse V) p :
  prepare_subscription_response self response = Ok p →
  follows self (ESubscriptionResponse response) p.
Proof.
  unfold prepare_subscription_response. intros H. apply guard_bool_Ok in H as [Hv H].
  apply result_bind_Ok in H as (current & Hs%ok_or_Ok & H).
  apply guard_Ok in H as [Hb H]. apply result_bind_Ok in H as (request & Hr%ok_or_Ok & H).
  destruct (sreq_command request) as [a b definition_id d limit| |] eqn:Hcmd; try done.
  apply guard_Ok in H as [Hm H].
  assert (∀ barrier, cancelled current !! sr_subscription_id response = Some barrier →
    (barrier < sr_generation response)%N) as Hbar.
  { intros barrier Hbar. rewrite Hbar in Hb. simpl in Hb. lia. }
  destruct (sr_response response) as [reason|before|] eqn:Hw; simpl in H.
  3: { eapply cancel_follows; [|done]. right. by exists response. }
  all: eapply respond_follows; eauto; congruence.
Qed.

(** Every successful preparation follows the step relation. *)
Lemma prepare_event_step self ev p :
  prepare_event self ev = Ok p → ∃ next, client_step self ev next ∧ prepared_as self next p.
Proof.
  destruct ev as [commit|response policy|id request|response|cp rs|request|id g|response];
    simpl; intros H.
  - by apply enqueue_follows.
  - by apply push_follows.
  - by apply resolve_follows.
  - destruct response as [batch|[reason cp rs]]; simpl in H; [by apply pull_follows|].
    apply (snapshot_follows self _ cp rs); [|done]. right. by exists reason.
  - apply guard_bool_Ok in H as [_ H]. apply result_bind_Ok in H as (_ & _ & H).
    apply (snapshot_follows self _ cp rs); [|done]. by left.
  - by apply start_follows.
  - eapply cancel_follows; [|done]. by left.
  - by apply response_follows.
Qed.
End steps.
