(* ===== verification/Runtime.v ===== *)
(** * Runs of the client runtime.

    The runtime prepares transitions from the installed state, an adapter
    persists them, and the runtime installs them afterwards; several prepared
    transitions may be outstanding and any of them may be dropped when its
    persistence fails.  [run_step] is that interleaving.  The theorems are the
    promises the runtime makes over whole runs. *)

From S2P Require Import Prelude Protocol Subscription ClientState SubscriptionState Validate IdMap Client SubscriptionClient Steps.

(** The installed state and the prepared, not yet installed transitions. *)
Record runtime (V : Type) := mkRuntime {
  installed : DurableClientState V;
  outstanding : list (PreparedTransition V);
}.
Arguments mkRuntime {V} _ _.
Arguments installed {V} _.
Arguments outstanding {V} _.

Section runtime.
Context {V : Type} `{!EqDecision V}.
Implicit Types self next s : DurableClientState V.
Implicit Types r : runtime V.

Inductive run_step : runtime V → runtime V → Prop :=
| run_prepare s ps ev p :
    prepare_event s ev = Ok p → run_step (mkRuntime s ps) (mkRuntime s (p :: ps))
| run_install s ps p s' :
    p ∈ ps → install s p = Ok s' → run_step (mkRuntime s ps) (mkRuntime s' ps)
| run_discard s ps ps' :
    ps' ⊆ ps → run_step (mkRuntime s ps) (mkRuntime s ps').

Definition run : relation (runtime V) := rtc run_step.

(** A runtime opened on a durable state. *)
Definition opened (s : DurableClientState V) (r : runtime V) : Prop :=
  open s = Ok (installed r) ∧ outstanding r = [].

(** ** Installation *)

Lemma install_Ok self (p : PreparedTransition V) s' :
  install self p = Ok s' ↔ base_revision p = st_revision self ∧ s' = prepared_state p.
Proof.
  unfold install. rewrite guard_Ok. split.
  - intros [?%dec_stable [= <-]]. done.
  - intros [-> ->]. split; [tauto|done].
Qed.

Lemma open_valid (s s' : DurableClientState V) : open s = Ok s' → s' = s ∧ ValidState s.
Proof.
  unfold open. intros H. apply result_bind_Ok in H as (? & Hv%validate_ValidState & [= <-]).
  done.
Qed.

(** Each outstanding transition was prepared from a state that is the installed
    one, or that an installation has since replaced at a later revision. *)
Definition run_inv r : Prop :=
  ValidState (installed r) ∧
  ∀ p, p ∈ outstanding r → ValidState (prepared_state p) ∧
    (base_revision p ≤ st_revision (installed r))%N ∧
    (base_revision p = st_revision (installed r) →
       ∃ ev, prepare_event (installed r) ev = Ok p).

Lemma prepare_event_facts self ev p :
  prepare_event self ev = Ok p →
  ValidState (prepared_state p) ∧ base_revision p = st_revision self ∧
  (prepared_state p = self ∨ st_revision (prepared_state p) = (st_revision self + 1)%N).
Proof.
  intros (next & _ & Has)%prepare_event_step.
  split; [by eapply prepared_state_valid|]. split; [by eapply prepared_base|].
  destruct (prepared_revision _ _ _ Has) as [[? _]|?]; auto.
Qed.

Lemma run_step_inv r r' : run_step r r' → run_inv r → run_inv r'.
Proof.
  intros [s ps ev p Hp|s ps p s' Hin Hi|s ps ps' Hsub] [Hv Hps]; simpl in *.
  - split; [done|]. simpl. intros q [->|Hq]%elem_of_cons; [|by apply Hps].
    destruct (prepare_event_facts _ _ _ Hp) as (? & -> & _). eauto.
  - apply install_Ok in Hi as [Hb ->].
    destruct (Hps p Hin) as (Hvp & _ & Hex). destruct (Hex Hb) as (ev & Hp).
    destruct (prepare_event_facts _ _ _ Hp) as (_ & _ & Hrev). split; [done|]. simpl.
    intros q Hq. destruct (Hps q Hq) as (Hvq & Hqs & Hqe). split; [done|].
    destruct Hrev as [Hsame|Hrev]; [by rewrite Hsame|]. split; [|intros Heq]; lia.
  - split; [done|]. simpl. intros q Hq. apply Hps. by apply Hsub.
Qed.

Lemma opened_inv s r : opened s r → run_inv r.
Proof.
  intros [Ho Hn]. apply open_valid in Ho as [Hs Hv]. split; [by rewrite Hs|].
  rewrite Hn. set_solver.
Qed.

Lemma run_preserves_inv r r' : run r r' → run_inv r → run_inv r'.
Proof. induction 1; eauto using run_step_inv. Qed.

(** ** The sequential specification *)

(** The abstract client: one event at a time, each applied atomically. *)
Definition atomic_step : relation (DurableClientState V) :=
  λ s s', ∃ ev p, prepare_event s ev = Ok p ∧ s' = prepared_state p.

Lemma run_step_atomic r r' :
  run_step r r' → run_inv r → rtc atomic_step (installed r) (installed r').
Proof.
  intros [s ps ev p Hp|s ps p s' Hin Hi|s ps ps' Hsub] [Hv Hps]; simpl in *; [done| |done].
  apply install_Ok in Hi as [Hb ->]. destruct (Hps p Hin) as (_ & _ & Hex).
  destruct (Hex Hb) as (ev & Hp). apply rtc_once. by exists ev, p.
Qed.

Lemma run_atomic r r' :
  run_inv r → run r r' → rtc atomic_step (installed r) (installed r').
Proof.
  intros Hinv Hrun. induction Hrun as [r|r r1 r' Hs Hrun IH]; [done|].
  etransitivity; [by apply run_step_atomic|]. eauto using run_step_inv.
Qed.

(** Lifting a relation between consecutive installed states to runs; it need only
    be reflexive on valid states. *)
Lemma run_lift_valid (R : relation (DurableClientState V)) `{!Transitive R} :
  (∀ s, ValidState s → R s s) →
  (∀ s ev next p, ValidState s → client_step s ev next → prepared_as s next p →
     R s (prepared_state p)) →
  ∀ r r', run_inv r → run r r' → R (installed r) (installed r').
Proof.
  intros Hrefl HR r r' Hinv Hrun. pose proof (run_atomic _ _ Hinv Hrun) as Hat.
  destruct Hinv as [Hv _]. revert Hv.
  induction Hat as [s|s s1 s' (ev & p & Hp & ->) _ IH]; intros Hv; [by apply Hrefl|].
  transitivity (prepared_state p); [|apply IH; by eapply prepare_event_facts].
  apply prepare_event_step in Hp as (next & ? & ?). eauto.
Qed.

Lemma run_lift (R : relation (DurableClientState V)) `{!PreOrder R} :
  (∀ s ev next p, ValidState s → client_step s ev next → prepared_as s next p →
     R s (prepared_state p)) →
  ∀ r r', run_inv r → run r r' → R (installed r) (installed r').
Proof. apply run_lift_valid; [apply _|]. by intros s _. Qed.
End runtime.
