(* ===== verification/Fixtures.v ===== *)
(** * Concrete client states.

    A small replica with string payloads, used by the witnesses of the other
    files: it shows that the hypotheses of the theorems are met by states the
    client really reaches. *)

From S2P Require Import Prelude Protocol Subscription ClientState SubscriptionState Validate IdMap Client SubscriptionClient Steps Runtime.

(** The state after the successful preparation and installation of [ev]. *)
Definition after {V} `{!EqDecision V} (s : DurableClientState V) (ev : event V)
  : DurableClientState V :=
  match prepare_event s ev with Ok p => prepared_state p | Err _ => s end.

Lemma after_run {V} `{!EqDecision V} (s : DurableClientState V) ps ev :
  is_ok (prepare_event s ev) = true →
  ∃ ps', run (mkRuntime s ps) (mkRuntime (after s ev) ps').
Proof.
  unfold after. destruct (prepare_event s ev) as [p|] eqn:Hp; [|done]. intros _.
  exists (p :: ps). eapply rtc_l; [by eapply run_prepare|]. apply rtc_once.
  apply run_install with p; [by left|]. apply install_Ok. split; [|done].
  by destruct (prepare_event_facts _ _ _ Hp) as (_ & ? & _).
Qed.

Abbreviation St := (DurableClientState string).

Definition fx_empty : St := empty_state "home" "phone" "items" 1.
Definition fx_scope : ScopeSnapshot := mkScope "items" 1 1.
Definition fx_cp (n : N) : Checkpoint := mkCheckpoint "t" (mkCursor 1 n) fx_scope.

Definition fx_id1 : CommitIdentity := mkIdentity "c1" "f1".
Definition fx_id2 : CommitIdentity := mkIdentity "c2" "f2".
Definition fx_commit1 : ClientCommit string :=
  mkCommit fx_id1 [Upsert "local1" BaseAbsent "milk" None].
Definition fx_commit2 : ClientCommit string :=
  mkCommit fx_id2 [Upsert "item2" (Exact 3) "bread" (Some "local1")].

Definition fx_resp (o : DurableOutcome string) : PushResponse string :=
  mkPushResponse V1 "home" "phone" o.
Definition fx_map1 : IdMapping := mkMapping "local1" "item1".
Definition fx_accept1 : PushResponse string := fx_resp (Accepted fx_id1 1 [fx_map1]).
Definition fx_conflict2 : PushResponse string :=
  fx_resp (Conflict fx_id2 "item2" (Present "rye" 5 None)).

(** Two pending commits, the second referring to the record of the first. *)
Definition fx_pending : St := after (after fx_empty (EEnqueue fx_commit1)) (EEnqueue fx_commit2).
(** The first accepted and renamed by the authority. *)
Definition fx_accepted : St := after fx_pending (EPush fx_accept1 Manual).
(** The second in conflict. *)
Definition fx_conflicted : St := after fx_accepted (EPush fx_conflict2 Manual).

Definition fx_batch (from : N) (l : list (AppliedRecord string)) : PullBatch string :=
  mkBatch [FrameStart (fx_cp (from + 1)); FrameCommit "t" (mkPullCommit (from + 1) None l);
           FrameEnd (fx_cp (from + 1))].
Definition fx_batch1 : PullBatch string :=
  fx_batch 0 [mkApplied "item1" (Present "milk" 1 None);
              mkApplied "item2" (Present "rye" 5 None)].
(** The first authority commit pulled. *)
Definition fx_pulled : St := after fx_conflicted (EPull (Batch fx_batch1)).

Example fx_states :
  (length (st_outbox fx_pending), length (st_outcomes fx_accepted),
   length (st_outcomes fx_conflicted), size (st_confirmed fx_pulled),
   st_revision fx_pulled) = (2, 1, 2, 2, 5%N).
Proof. vm_compute. reflexivity. Qed.

(** ** A window *)

Definition fx_start : SubscriptionRequest :=
  mkSubRequest "home" "phone" "items" 1 (CmdStart "w" 1 "recent" ∅ 3).
Definition fx_coverage : WindowCoverage := mkWindow "recent" 3 "rank" KInt Ascending.
Definition fx_row (id : string) (version : N) (rank : Z) : SubscriptionRow string :=
  mkRow id "row" version (SInt rank).
Definition fx_window (revision : N) (kind : WindowResponseKind) (ids : list RecordId)
    (changes : list (MembershipChange string)) : SubscriptionResponse string :=
  mkSubResponse "home" "phone" "w" 1 "plan" fx_scope (mkCursor 1 revision) revision
    fx_coverage kind (Some "tok") ids changes.
Definition fx_snapshot_window : SubscriptionResponse string :=
  fx_window 1 (WSnapshot Initial) ["b"; "a"]
    [MUpsert (fx_row "a" 1 20); MUpsert (fx_row "b" 1 10)].
Definition fx_delta_window : SubscriptionResponse string :=
  fx_window 2 (WDelta 1) ["a"; "c"] [MLeave "b"; MUpsert (fx_row "c" 4 30)].

Definition fx_started : St := after fx_pulled (EStartSubscription fx_start).
Definition fx_windowed : St := after fx_started (ESubscriptionResponse fx_snapshot_window).
Definition fx_advanced : St := after fx_windowed (ESubscriptionResponse fx_delta_window).
Definition fx_cancelled : St := after fx_advanced (ECancelSubscription "w" 1).

Example fx_windows :
  (row_record_id <$> default [] (is_rows <$> subscription_snapshot fx_windowed "w"),
   row_record_id <$> default [] (is_rows <$> subscription_snapshot fx_advanced "w"),
   st_revision fx_cancelled) = (["b"; "a"], ["a"; "c"], 9%N).
Proof. vm_compute. reflexivity. Qed.

(** ** Corner cases *)

(** A retried push response is refused when an id mapping accepted in between has
    renamed the recorded outcome. *)
Definition fx_update_local : ClientCommit string :=
  mkCommit fx_id2 [Upsert "local1" (Exact 3) "oat milk" None].
Definition fx_conflict_local : PushResponse string := fx_resp (Conflict fx_id2 "local1" Absent).
Definition fx_two_local : St :=
  after (after fx_empty (EEnqueue fx_commit1)) (EEnqueue fx_update_local).

Example retry_after_mapping_refused :
  is_ok (prepare_push_response fx_two_local fx_conflict_local) = true ∧
  let recorded := after fx_two_local (EPush fx_conflict_local Manual) in
  is_ok (prepare_push_response recorded fx_conflict_local) = true ∧
  is_ok (prepare_push_response recorded fx_accept1) = true ∧
  let mapped := after recorded (EPush fx_accept1 Manual) in
  prepare_push_response mapped fx_conflict_local = Err OutcomeIdentityMismatch.
Proof. vm_compute. split_and!; reflexivity. Qed.

(** A window response whose text sort key is empty passes the response validation but
    can never be installed. *)
Definition fx_text_window (key : string) : SubscriptionResponse string :=
  mkSubResponse "home" "phone" "w" 1 "plan" fx_scope (mkCursor 1 1) 1
    (mkWindow "recent" 3 "rank" KText Ascending) (WSnapshot Initial) (Some "tok") ["a"]
    [MUpsert (mkRow "a" "row" 1 (SText key))].

Example empty_sort_key_not_installed :
  validate_subscription_response (fx_text_window "") = true ∧
  is_ok (prepare_subscription_response fx_started (fx_text_window "k")) = true ∧
  prepare_subscription_response fx_started (fx_text_window "") = Err InvalidSubscription.
Proof. vm_compute. split_and!; reflexivity. Qed.
