(* ===== verification/Intent.v ===== *)
(** * What the client keeps over whole runs.

    Local intent is never lost and outcomes are never forgotten; the identity
    of the state never changes and the authority cursor never moves backward. *)

From S2P Require Import Prelude Protocol Subscription ClientState SubscriptionState Validate IdMap Client SubscriptionClient Steps Runtime Fixtures.

Section frames.
Context {V : Type} `{!EqDecision V}.
Implicit Types s self next : DurableClientState V.

(** [apply_id_mapping] rewrites the replicated data and the id map only. *)
Lemma apply_id_mapping_effect s m s' :
  apply_id_mapping s m = Ok s' →
  (s' = s ∧ st_id_map s !! local_id m = Some (canonical_id m)) ∨
  (∃ confirmed, s' =
     set_id_map
       (set_outcomes
          (set_outbox (set_confirmed s (remap_record_state m <$> confirmed))
             (remap_commit m <$> st_outbox s))
          (remap_resolved m <$> st_outcomes s))
       (<[local_id m := canonical_id m]> (remap_record_id m <$> st_id_map s)) ∧
     st_id_map s !! local_id m = None ∧
     move_confirmed s m = Ok (set_confirmed s confirmed)).
Proof.
  unfold apply_id_mapping. intros [_ H]%guard_Ok.
  destruct (st_id_map s !! local_id m) as [existing|] eqn:Hm.
  - destruct (decide (existing = canonical_id m)) as [->|]; [|done]. injection H as <-.
    by left.
  - apply result_bind_Ok in H as (s1 & Hmove & [= <-]). right.
    assert (s1 = set_confirmed s (st_confirmed s1)) as Heq.
    { unfold move_confirmed in Hmove.
      destruct (st_confirmed s !! local_id m) as [x|];
        [|injection Hmove as <-; by destruct s].
      destruct (delete _ _ !! _);
        [apply guard_Ok in Hmove as [_ [= <-]]|injection Hmove as <-]; by destruct s. }
    exists (st_confirmed s1). rewrite Heq in Hmove |- *. split; [done|]. split; done.
Qed.

(** A property of the parts of the state that mappings do not touch. *)
Definition same_frame s s' : Prop :=
  st_partition_id s' = st_partition_id s ∧ st_client_id s' = st_client_id s ∧
  st_requested_scope s' = st_requested_scope s ∧
  st_subscription_revision s' = st_subscription_revision s ∧
  st_revision s' = st_revision s ∧ st_checkpoint s' = st_checkpoint s ∧
  st_reset_coverage s' = st_reset_coverage s ∧ st_subscriptions s' = st_subscriptions s.

(** Remapping by a list of mappings, in order. *)
Definition remap_all (ms : list IdMapping) (c : ClientCommit V) : ClientCommit V :=
  foldl (λ c m, remap_commit m c) c ms.
Definition remap_outcome_all (ms : list IdMapping) (o : DurableOutcome V)
  : DurableOutcome V := foldl (λ o m, remap_outcome m o) o ms.

Lemma remap_all_app ms ms' c : remap_all (ms ++ ms') c = remap_all ms' (remap_all ms c).
Proof. apply foldl_app. Qed.

Lemma remap_all_identity ms c : commit_identity (remap_all ms c) = commit_identity c.
Proof.
  revert c. induction ms as [|m ms IH]; intros c; [done|].
  change (remap_all (m :: ms) c) with (remap_all ms (remap_commit m c)). by rewrite IH.
Qed.

Lemma remap_outcome_all_identity ms o :
  outcome_identity (remap_outcome_all ms o) = outcome_identity o.
Proof.
  revert o. induction ms as [|m ms IH]; intros o; [done|].
  change (remap_outcome_all (m :: ms) o) with (remap_outcome_all ms (remap_outcome m o)).
  rewrite IH. by destruct o.
Qed.

(** The combined effect of the mappings of one accepted outcome: the applied
    ones are a sublist [ms'] (the others were known already). *)
Lemma mappings_effect ms s s' :
  try_fold apply_id_mapping s ms = Ok s' →
  same_frame s s' ∧ ∃ ms',
    st_outbox s' = remap_all ms' <$> st_outbox s ∧
    st_outcomes s' = (λ r, mkResolved (remap_all ms' (local_commit r))
      (remap_outcome_all ms' (outcome r)) (resolution r) (covered_by_reset r))
      <$> st_outcomes s.
Proof.
  revert s. induction ms as [|m ms IH]; intros s H; simpl in H.
  - injection H as <-. split; [by repeat split|]. exists [].
    split; symmetry; [apply list_fmap_id|].
    rewrite <-(list_fmap_id (st_outcomes s)) at 2. apply list_fmap_ext. by intros ? [].
  - apply result_bind_Ok in H as (s1 & H1 & (Hf & ms' & Ho & Hr)%IH).
    apply apply_id_mapping_effect in H1 as [[-> _]|(conf & -> & _)]; [eauto|]. simpl in *.
    split; [done|]. exists (m :: ms'). rewrite Ho, Hr.
    by rewrite <-!list_fmap_compose.
Qed.
End frames.

(** ** Renaming through an id map *)

(** The id a record goes by under the id map [ρ]. *)
Definition renamed (ρ : gmap string string) (id : RecordId) : RecordId := default id (ρ !! id).

(** Every old entry is still known, under the name its canonical id has now. *)
Definition id_map_grows (ρ ρ' : gmap string string) : Prop :=
  ∀ local canonical, ρ !! local = Some canonical → ρ' !! local = Some (renamed ρ' canonical).

Lemma renamed_None ρ id : ρ !! id = None → renamed ρ id = id.
Proof. unfold renamed. by intros ->. Qed.

Lemma renamed_grows ρ ρ' id : id_map_grows ρ ρ' → renamed ρ' (renamed ρ id) = renamed ρ' id.
Proof.
  intros Hg. unfold renamed at 2 3. destruct (ρ !! id) as [c|] eqn:Hid; [|done].
  by rewrite (Hg _ _ Hid).
Qed.

Lemma id_map_grows_trans ρ1 ρ2 ρ3 :
  id_map_grows ρ1 ρ2 → id_map_grows ρ2 ρ3 → id_map_grows ρ1 ρ3.
Proof. intros H12 H23 l c Hl. by rewrite (H23 _ _ (H12 _ _ Hl)), renamed_grows. Qed.

Lemma id_map_grows_flat ρ : id_map_flat ρ → id_map_grows ρ ρ.
Proof. intros Hf l c Hl. rewrite renamed_None; [done|]. by destruct (Hf _ _ Hl). Qed.

Section renaming.
Context {V : Type} `{!EqDecision V}.
Implicit Types s self next : DurableClientState V.
Implicit Types f g : RecordId → RecordId.

(** A commit under a change of record names: the same identity and the same
    operations in the same order, with the same base versions and values. *)
Definition rename_operation f (op : Operation V) : Operation V :=
  match op with
  | Upsert id base value reference => Upsert (f id) base value (f <$> reference)
  | Delete id base => Delete (f id) base
  end.

Definition rename_commit f (c : ClientCommit V) : ClientCommit V :=
  mkCommit (commit_identity c) (rename_operation f <$> operations c).

(** An outcome under a change of record names: the verdict, the sequence and the
    mappings of an acceptance stay; a conflict names its record anew. *)
Definition rename_outcome f (o : DurableOutcome V) : DurableOutcome V :=
  match o with
  | Conflict identity id authoritative =>
      Conflict identity (f id)
        match authoritative with
        | Present value version reference => Present value version (f <$> reference)
        | state => state
        end
  | o => o
  end.

(** The record names in a commit and in an outcome. *)
Definition operation_ids (op : Operation V) : list RecordId :=
  match op with
  | Upsert id _ _ reference => id :: option_list reference
  | Delete id _ => [id]
  end.
Definition commit_ids (c : ClientCommit V) : list RecordId := operations c ≫= operation_ids.
Definition outcome_ids (o : DurableOutcome V) : list RecordId :=
  match o with
  | Conflict _ id authoritative => id :: option_list (state_reference authoritative)
  | _ => []
  end.

Lemma rename_commit_ext f g c :
  (∀ id, id ∈ commit_ids c → f id = g id) → rename_commit f c = rename_commit g c.
Proof.
  intros H. unfold rename_commit. f_equal. apply list_fmap_ext. intros i op Hop.
  apply list_elem_of_lookup_2 in Hop.
  assert (∀ id, id ∈ operation_ids op → f id = g id) as Hid.
  { intros id Hid. apply H, list_elem_of_bind. by exists op. }
  destruct op as [id base v [ref|]|id base]; simpl in *; rewrite !(Hid id) by left; try done.
  by rewrite (Hid ref) by (right; left).
Qed.

Lemma rename_commit_compose f g c :
  rename_commit f (rename_commit g c) = rename_commit (f ∘ g) c.
Proof.
  unfold rename_commit. simpl. f_equal. rewrite <-list_fmap_compose. apply list_fmap_ext.
  by intros ? [? ? ? []|] _.
Qed.

Lemma rename_commit_id c : rename_commit id c = c.
Proof.
  destruct c as [i ops]. unfold rename_commit. simpl. f_equal.
  rewrite <-(list_fmap_id ops) at 2. apply list_fmap_ext. by intros ? [? ? ? []|] _.
Qed.

Lemma rename_outcome_ext f g o :
  (∀ id, id ∈ outcome_ids o → f id = g id) → rename_outcome f o = rename_outcome g o.
Proof.
  destruct o as [|identity id [|v n [ref|]|]|]; simpl; intros H; try done;
    rewrite (H id) by left; try done.
  by rewrite (H ref) by (right; left).
Qed.

Lemma rename_outcome_compose f g o :
  rename_outcome f (rename_outcome g o) = rename_outcome (f ∘ g) o.
Proof. by destruct o as [|? ? [|? ? []|]|]. Qed.

Lemma rename_outcome_id o : rename_outcome id o = o.
Proof. by destruct o as [|? ? [|? ? []|]|]. Qed.

Lemma commit_ids_rename f c : commit_ids (rename_commit f c) = f <$> commit_ids c.
Proof.
  unfold commit_ids, rename_commit. simpl.
  induction (operations c) as [|op ops IH]; [done|]. csimpl. rewrite fmap_app, IH. f_equal.
  by destruct op as [? ? ? []|].
Qed.

Lemma outcome_ids_rename f o : outcome_ids (rename_outcome f o) = f <$> outcome_ids o.
Proof. by destruct o as [|? ? [|? ? []|]|]. Qed.

(** The code's remapping by one mapping is the renaming of one name. *)
Lemma remap_commit_rename m c : remap_commit m c = rename_commit (remap_record_id m) c.
Proof. unfold remap_commit, rename_commit. f_equal. Qed.

Lemma remap_outcome_rename m o : remap_outcome m o = rename_outcome (remap_record_id m) o.
Proof. by destruct o as [|? ? [|? ? []|]|]. Qed.

(** No name of [ids] is a mapped local id. *)
Definition unmapped (ρ : gmap string string) (ids : list RecordId) : Prop :=
  ∀ id, id ∈ ids → ρ !! id = None.

Lemma commit_contains_ids c id : commit_contains_id c id = true ↔ id ∈ commit_ids c.
Proof.
  unfold commit_contains_id, commit_ids. rewrite existsb_true_elem, list_elem_of_bind.
  split; intros (op & H1 & H2); exists op; split; try done;
    destruct op as [i ? ? [ref|]|i]; simpl in *;
    rewrite ?orb_true_iff, ?bool_decide_eq_true, ?elem_of_cons, ?elem_of_nil in *; naive_solver.
Qed.

Lemma outcome_contains_ids o id : outcome_contains_id o id = true ↔ id ∈ outcome_ids o.
Proof.
  destruct o as [|identity i [|? ? [ref|]|]|]; simpl;
    rewrite ?orb_true_iff, ?bool_decide_eq_true, ?elem_of_cons, ?elem_of_nil; naive_solver.
Qed.

(** Valid states mention no mapped local id. *)
Lemma valid_commit_unmapped s c :
  ValidState s → c ∈ durable_commits s → unmapped (st_id_map s) (commit_ids c).
Proof.
  intros Hv Hc id Hid. apply eq_None_not_Some. intros Hm. apply (vs_no_local _ Hv id Hm).
  eapply mentions_commit; [done|]. by apply commit_contains_ids.
Qed.

Lemma valid_outcome_unmapped s r :
  ValidState s → r ∈ st_outcomes s → unmapped (st_id_map s) (outcome_ids (outcome r)).
Proof.
  intros Hv Hr id Hid. apply eq_None_not_Some. intros Hm. apply (vs_no_local _ Hv id Hm).
  eapply mentions_outcome; [done|]. by apply outcome_contains_ids.
Qed.

Lemma rename_commit_unmapped ρ c :
  unmapped ρ (commit_ids c) → rename_commit (renamed ρ) c = c.
Proof.
  intros H. rewrite <-(rename_commit_id c) at 2. apply rename_commit_ext.
  intros i Hi. by apply renamed_None, H.
Qed.

Lemma rename_outcome_unmapped ρ o :
  unmapped ρ (outcome_ids o) → rename_outcome (renamed ρ) o = o.
Proof.
  intros H. rewrite <-(rename_outcome_id o) at 2. apply rename_outcome_ext.
  intros i Hi. by apply renamed_None, H.
Qed.

Lemma rename_commit_grows ρ ρ' c : id_map_grows ρ ρ' →
  rename_commit (renamed ρ') (rename_commit (renamed ρ) c) = rename_commit (renamed ρ') c.
Proof.
  intros Hg. rewrite rename_commit_compose. apply rename_commit_ext. intros id _.
  by apply renamed_grows.
Qed.

Lemma rename_outcome_grows ρ ρ' o : id_map_grows ρ ρ' →
  rename_outcome (renamed ρ') (rename_outcome (renamed ρ) o) = rename_outcome (renamed ρ') o.
Proof.
  intros Hg. rewrite rename_outcome_compose. apply rename_outcome_ext. intros id _.
  by apply renamed_grows.
Qed.
End renaming.

(** ** What accepted mappings do to the names *)

Section mappings.
Context {V : Type} `{!EqDecision V}.
Implicit Types s self next : DurableClientState V.

Lemma id_map_flat_remap (idm : gmap string string) m :
  id_map_flat idm → local_id m ≠ canonical_id m → idm !! canonical_id m = None →
  id_map_flat (<[local_id m := canonical_id m]> (remap_record_id m <$> idm)).
Proof.
  intros Hf Hne Hc l c Hl.
  assert (∀ x, x ≠ local_id m → idm !! x = None →
    <[local_id m := canonical_id m]> (remap_record_id m <$> idm) !! x = None) as Hnone.
  { intros x Hx Hn. by rewrite lookup_insert_ne, lookup_fmap, Hn by done. }
  apply lookup_insert_Some in Hl as [[<- <-]|[Hll Hl]]; [auto|].
  rewrite lookup_fmap in Hl. apply fmap_Some in Hl as (v & Hv & ->).
  destruct (Hf _ _ Hv) as [Hlv Hvn]. unfold remap_record_id. case_decide as Hd.
  - split; [congruence|auto].
  - auto.
Qed.

(** One mapping: an unmapped name gets the name the new id map gives it, which is
    again unmapped, and the id map grows. *)
Lemma mapping_renames s m s' :
  apply_id_mapping s m = Ok s' → id_map_flat (st_id_map s) →
  id_map_flat (st_id_map s') ∧ id_map_grows (st_id_map s) (st_id_map s') ∧
  (∀ id, st_id_map s !! id = None →
     remap_record_id m id = renamed (st_id_map s') id ∧
     st_id_map s' !! remap_record_id m id = None) ∧
  (∀ l, is_Some (st_id_map s' !! l) → is_Some (st_id_map s !! l) ∨
     l = local_id m ∧ st_id_map s' !! l = Some (canonical_id m)).
Proof.
  intros H Hflat. pose proof H as [Hg _]%guard_Ok.
  assert (local_id m ≠ canonical_id m ∧ st_id_map s !! canonical_id m = None) as [Hne Hc].
  { split; [tauto|]. apply eq_None_not_Some. tauto. }
  apply apply_id_mapping_effect in H as [[-> Hl]|(conf & -> & Hl & _)]; simpl.
  - split_and!; [done|by apply id_map_grows_flat| |by left].
    intros id Hid. rewrite renamed_None by done. unfold remap_record_id.
    rewrite decide_False by congruence. done.
  - set (ρ' := <[_ := _]> _).
    assert (∀ id, st_id_map s !! id = None →
      remap_record_id m id = renamed ρ' id ∧ ρ' !! remap_record_id m id = None) as Hren.
    { intros id Hid. unfold renamed, remap_record_id, ρ'. case_decide as Hd.
      - subst id. rewrite lookup_insert_eq, lookup_insert_ne, lookup_fmap, Hc by done. done.
      - rewrite lookup_insert_ne, lookup_fmap, Hid by done. done. }
    split_and!; [by apply id_map_flat_remap| |done|].
    + intros l c Hlc. destruct (Hflat _ _ Hlc) as [_ Hcn]. destruct (Hren _ Hcn) as [<- _].
      unfold ρ'. rewrite lookup_insert_ne, lookup_fmap, Hlc by congruence. done.
    + intros l Hl'. destruct (decide (l = local_id m)) as [->|Hn].
      * right. split; [done|]. apply lookup_insert_eq.
      * left. unfold ρ' in Hl'. rewrite lookup_insert_ne, lookup_fmap in Hl' by done.
        by apply fmap_is_Some in Hl'.
Qed.

Definition remap_id_all (ms : list IdMapping) (id : RecordId) : RecordId :=
  foldl (λ id m, remap_record_id m id) id ms.

Lemma remap_all_rename ms (c : ClientCommit V) :
  remap_all ms c = rename_commit (remap_id_all ms) c.
Proof.
  unfold remap_all. revert c. induction ms as [|m ms IH]; intros c; simpl.
  - symmetry. apply rename_commit_id.
  - by rewrite IH, remap_commit_rename, rename_commit_compose.
Qed.

(** All mappings of one outcome, in order, the ones already known included. *)
Lemma mappings_rename ms s s' :
  try_fold apply_id_mapping s ms = Ok s' → id_map_flat (st_id_map s) →
  id_map_flat (st_id_map s') ∧ id_map_grows (st_id_map s) (st_id_map s') ∧
  (∀ id, st_id_map s !! id = None → remap_id_all ms id = renamed (st_id_map s') id) ∧
  (∀ l, is_Some (st_id_map s' !! l) → is_Some (st_id_map s !! l) ∨
     ∃ m, m ∈ ms ∧ local_id m = l ∧
       st_id_map s' !! l = Some (renamed (st_id_map s') (canonical_id m))).
Proof.
  revert s. induction ms as [|m ms IH]; intros s; simpl.
  { intros [= <-] Hf. split_and!; [done|by apply id_map_grows_flat| |by left].
    intros id Hid. by rewrite renamed_None. }
  intros H Hf. apply result_bind_Ok in H as (s1 & H1 & H).
  destruct (mapping_renames _ _ _ H1 Hf) as (Hf1 & Hg1 & Hr1 & Ho1).
  destruct (IH _ H Hf1) as (Hf' & Hg' & Hr' & Ho').
  split_and!; [done|by eapply id_map_grows_trans| |].
  - intros id Hid. destruct (Hr1 _ Hid) as [Heq Hn].
    change (remap_id_all (m :: ms) id) with (remap_id_all ms (remap_record_id m id)).
    by rewrite (Hr' _ Hn), Heq, renamed_grows.
  - intros l [Hl|(m' & Hm' & Hl)]%Ho'; [|right; exists m'; set_solver].
    apply Ho1 in Hl as [Hl|[-> Hl]]; [by left|]. right. exists m.
    split; [left|]. split; [done|]. by apply Hg'.
Qed.

(** The pending commits and the outcomes under all mappings of one outcome. *)
Lemma mappings_rename_data ms s s' :
  try_fold apply_id_mapping s ms = Ok s' → id_map_flat (st_id_map s) →
  (∀ c, c ∈ durable_commits s → unmapped (st_id_map s) (commit_ids c)) →
  (∀ r, r ∈ st_outcomes s → unmapped (st_id_map s) (outcome_ids (outcome r))) →
  st_outbox s' = rename_commit (renamed (st_id_map s')) <$> st_outbox s ∧
  st_outcomes s' = (λ r, mkResolved (rename_commit (renamed (st_id_map s')) (local_commit r))
    (rename_outcome (renamed (st_id_map s')) (outcome r)) (resolution r) (covered_by_reset r))
    <$> st_outcomes s.
Proof.
  revert s. induction ms as [|m ms IH]; intros s; simpl.
  { intros [= <-] Hf Hc Hr. split.
    - rewrite <-(list_fmap_id (st_outbox s)) at 1. apply list_fmap_ext. intros i c Hi.
      symmetry. apply rename_commit_unmapped, Hc, elem_of_durable_commits. left.
      by eapply list_elem_of_lookup_2.
    - rewrite <-(list_fmap_id (st_outcomes s)) at 1. apply list_fmap_ext. intros i r Hi.
      apply list_elem_of_lookup_2 in Hi. rewrite rename_commit_unmapped, rename_outcome_unmapped.
      + by destruct r.
      + by apply Hr.
      + apply Hc, elem_of_durable_commits. eauto. }
  intros H Hf Hc Hr. apply result_bind_Ok in H as (s1 & H1 & H).
  destruct (mapping_renames _ _ _ H1 Hf) as (Hf1 & _ & Hr1 & _).
  destruct (mappings_rename _ _ _ H Hf1) as (_ & Hg & _).
  pose proof H1 as [[-> _]|(conf & Hs1 & _)]%apply_id_mapping_effect; [by apply IH|].
  assert (st_outbox s1 = remap_commit m <$> st_outbox s ∧
    st_outcomes s1 = remap_resolved m <$> st_outcomes s) as [Ho1 Hoc1] by by rewrite Hs1.
  assert (∀ ids, unmapped (st_id_map s) ids →
    unmapped (st_id_map s1) (remap_record_id m <$> ids)) as Hun.
  { intros ids Hids ? (id & -> & Hid)%list_elem_of_fmap. by apply Hr1, Hids. }
  assert (∀ id, st_id_map s !! id = None →
    renamed (st_id_map s') (remap_record_id m id) = renamed (st_id_map s') id) as Hcomp.
  { intros id Hid. destruct (Hr1 _ Hid) as [-> _]. by apply renamed_grows. }
  destruct (IH s1 H Hf1) as [Ho' Hoc'].
  - intros c [Hin|(r & Hin & ->)]%elem_of_durable_commits.
    + rewrite Ho1 in Hin. apply list_elem_of_fmap in Hin as (c0 & -> & Hin).
      rewrite remap_commit_rename, commit_ids_rename. apply Hun, Hc, elem_of_durable_commits.
      by left.
    + rewrite Hoc1 in Hin. apply list_elem_of_fmap in Hin as (r0 & -> & Hin). simpl.
      rewrite remap_commit_rename, commit_ids_rename. apply Hun, Hc, elem_of_durable_commits.
      eauto.
  - intros r Hin. rewrite Hoc1 in Hin. apply list_elem_of_fmap in Hin as (r0 & -> & Hin). simpl.
    rewrite remap_outcome_rename, outcome_ids_rename. by apply Hun, Hr.
  - rewrite Ho', Hoc', Ho1, Hoc1, <-!list_fmap_compose. split; apply list_fmap_ext.
    + intros i c Hi%list_elem_of_lookup_2. simpl.
      rewrite remap_commit_rename, rename_commit_compose. apply rename_commit_ext.
      intros id Hid. apply Hcomp. eapply Hc; [|done]. apply elem_of_durable_commits. by left.
    + intros i r Hi%list_elem_of_lookup_2. simpl.
      rewrite remap_commit_rename, remap_outcome_rename, rename_commit_compose,
        rename_outcome_compose. f_equal.
      * apply rename_commit_ext. intros id Hid. apply Hcomp. eapply Hc; [|done].
        apply elem_of_durable_commits. eauto.
      * apply rename_outcome_ext. intros id Hid. apply Hcomp. by eapply Hr.
Qed.
End mappings.

Section relations.
Context {V : Type} `{!EqDecision V}.
Implicit Types s self next : DurableClientState V.
Implicit Types r : ResolvedCommit V.

(** The resolved commit [r] is still recorded, under the names of [s']: with its
    outcome, and with its resolution and reset coverage once it has them. *)
Definition resolved_kept r s' : Prop :=
  ∃ r', r' ∈ st_outcomes s' ∧
    local_commit r' = rename_commit (renamed (st_id_map s')) (local_commit r) ∧
    outcome r' = rename_outcome (renamed (st_id_map s')) (outcome r) ∧
    (∀ res, resolution r = Some res → resolution r' = Some res) ∧
    (covered_by_reset r = true → covered_by_reset r' = true).

(** The name [canonical] of [local] comes from a mapping of an acceptance recorded
    in [s'], followed through the later mappings. *)
Definition mapped_by_authority s' (local canonical : RecordId) : Prop :=
  ∃ r identity seq ms m, r ∈ st_outcomes s' ∧ outcome r = Accepted identity seq ms ∧
    m ∈ ms ∧ local_id m = local ∧ canonical = renamed (st_id_map s') (canonical_id m).

(** Local intent from [s] to [s']: every pending commit is still pending or is
    resolved, every resolved commit is still recorded, all under the names of the
    id map of [s']; that id map keeps every old entry, and its other entries
    are mappings of recorded acceptances. *)
Record intent_kept s s' : Prop := {
  ik_pending : ∀ c, c ∈ st_outbox s →
    rename_commit (renamed (st_id_map s')) c ∈ durable_commits s';
  ik_resolved : ∀ r, r ∈ st_outcomes s → resolved_kept r s';
  ik_grows : id_map_grows (st_id_map s) (st_id_map s');
  ik_origin : ∀ local canonical, st_id_map s' !! local = Some canonical →
    is_Some (st_id_map s !! local) ∨ mapped_by_authority s' local canonical;
}.

(** Steps that leave the id map alone. *)
Lemma intent_kept_same s s' :
  ValidState s → st_id_map s' = st_id_map s → st_outbox s ⊆ st_outbox s' →
  (∀ r, r ∈ st_outcomes s → ∃ r', r' ∈ st_outcomes s' ∧ local_commit r' = local_commit r ∧
     outcome r' = outcome r ∧ (∀ res, resolution r = Some res → resolution r' = Some res) ∧
     (covered_by_reset r = true → covered_by_reset r' = true)) →
  intent_kept s s'.
Proof.
  intros Hv Hm Ho Hr. split; rewrite ?Hm.
  - intros c Hc. rewrite rename_commit_unmapped.
    + apply elem_of_durable_commits. left. by apply Ho.
    + apply valid_commit_unmapped; [done|]. apply elem_of_durable_commits. by left.
  - intros r Hin. destruct (Hr _ Hin) as (r' & Hin' & Hl & Hout & Hres & Hcov).
    exists r'. rewrite Hm, rename_commit_unmapped, rename_outcome_unmapped; [done|..].
    + by apply valid_outcome_unmapped.
    + apply valid_commit_unmapped; [done|]. apply elem_of_durable_commits. eauto.
  - by apply id_map_grows_flat, vs_id_map.
  - intros l c Hl. left. by rewrite Hl.
Qed.

Lemma intent_kept_refl s : ValidState s → intent_kept s s.
Proof. intros Hv. apply intent_kept_same; [done..|]. intros r Hr. by exists r. Qed.

#[export] Instance intent_kept_trans : Transitive intent_kept.
Proof.
  intros s1 s2 s3 [Ho12 Hr12 Hg12 Hm12] [Ho23 Hr23 Hg23 Hm23].
  assert (∀ r, r ∈ st_outcomes s1 → resolved_kept r s3) as Hr13.
  { intros r (r2 & Hin & Hl & Hout & Hres & Hcov)%Hr12.
    destruct (Hr23 r2 Hin) as (r3 & Hin' & Hl' & Hout' & Hres' & Hcov').
    exists r3. rewrite Hl', Hl, Hout', Hout, rename_commit_grows, rename_outcome_grows by done.
    eauto 10. }
  split; [|done|by eapply id_map_grows_trans|].
  - intros c Hin%Ho12. apply elem_of_durable_commits in Hin as [Hin|(r & Hin & Hr)].
    + apply Ho23 in Hin. by rewrite rename_commit_grows in Hin.
    + destruct (Hr23 _ Hin) as (r' & Hin' & Hl & _). apply elem_of_durable_commits. right.
      exists r'. by rewrite Hl, <-Hr, rename_commit_grows.
  - intros l c Hl. destruct (Hm23 _ _ Hl) as [[c2 Hc2]|?]; [|by right].
    destruct (Hm12 _ _ Hc2) as [?|(r & i & n & ms & m & Hin & Hout & Hm & Hlm & Hc)]; [by left|].
    right. destruct (Hr23 _ Hin) as (r' & Hin' & _ & Hout' & _).
    exists r', i, n, ms, m. rewrite Hout', Hout. split_and!; [done..|].
    rewrite (Hg23 _ _ Hc2), Hc, renamed_grows in Hl by done. congruence.
Qed.

(** The fixed identity, the revision and the authority cursor. *)
Definition advances s s' : Prop :=
  st_partition_id s' = st_partition_id s ∧ st_client_id s' = st_client_id s ∧
  st_requested_scope s' = st_requested_scope s ∧
  st_subscription_revision s' = st_subscription_revision s ∧
  (st_revision s ≤ st_revision s')%N ∧
  (∀ c, st_checkpoint s = Some c →
     ∃ c', st_checkpoint s' = Some c' ∧ cursor_le (cursor c) (cursor c')).

#[export] Instance advances_preorder : PreOrder advances.
Proof.
  split.
  { intros s. split_and!; [done..|lia|]. intros c Hc. by exists c. }
  intros s1 s2 s3 (? & ? & ? & ? & ? & H12) (? & ? & ? & ? & ? & H23).
  split_and!; [congruence..|lia|].
  intros c (c2 & Hc2 & ?)%H12. destruct (H23 _ Hc2) as (c3 & ? & ?).
  exists c3. split; [done|]. by transitivity (cursor c2).
Qed.

(** ** Steps *)

Lemma alter_resolution_kept (res : ConflictResolution) index (l : list (ResolvedCommit V)) r :
  l !! index = Some r → resolution r = None →
  ∀ x, x ∈ l → ∃ x', x' ∈ alter (set_resolution res) index l ∧
    local_commit x' = local_commit x ∧ outcome x' = outcome x ∧
    (∀ res, resolution x = Some res → resolution x' = Some res) ∧
    (covered_by_reset x = true → covered_by_reset x' = true).
Proof.
  intros Hr Hn x (i & Hx)%list_elem_of_lookup. destruct (decide (i = index)) as [->|Hne].
  - assert (x = r) as -> by congruence. exists (set_resolution res r).
    split_and!; [|done|done|by rewrite Hn|done].
    apply list_elem_of_lookup. exists index. by rewrite list_lookup_alter_eq, Hr.
  - exists x. split_and!; [|done..]. apply list_elem_of_lookup. exists i.
    by rewrite list_lookup_alter_ne by done.
Qed.

(** Recording an outcome for the pending commit [c]. *)
Lemma push_step_intent self i c o res next :
  ValidState self → st_outbox self !! i = Some c →
  try_fold apply_id_mapping (set_outbox self (vec_remove i (st_outbox self)))
    (accepted_mappings o) = Ok next →
  intent_kept self (set_outcomes next (st_outcomes next ++
    [mkResolved (remap_all (accepted_mappings o) c) o res false])).
Proof.
  intros Hv Hi Hf. set (s0 := set_outbox self _) in Hf.
  assert (∀ c', c' ∈ durable_commits s0 → c' ∈ durable_commits self) as Hsub.
  { intros c'. rewrite !elem_of_durable_commits. simpl. intros [Hin|?]; [left|by right].
    rewrite <-(vec_remove_perm _ _ _ Hi). by right. }
  destruct (mappings_rename _ _ _ Hf (vs_id_map _ Hv)) as (_ & Hg & Hids & Horig).
  destruct (mappings_rename_data _ _ _ Hf (vs_id_map _ Hv)) as [Hob Hoc].
  { intros c' Hc'. by apply (valid_commit_unmapped self), Hsub. }
  { intros r Hr. by apply (valid_outcome_unmapped self). }
  split; simpl; [| |done|].
  - intros c' Hc'. rewrite <-(vec_remove_perm _ _ _ Hi) in Hc'. apply elem_of_durable_commits.
    apply elem_of_cons in Hc' as [->|Hc'].
    + right. eexists. simpl. split; [apply elem_of_app; right; by left|]. simpl.
      rewrite remap_all_rename. apply rename_commit_ext. intros id Hid. symmetry. apply Hids.
      revert Hid. apply (valid_commit_unmapped self); [done|]. apply elem_of_durable_commits.
      left. by eapply list_elem_of_lookup_2.
    + left. simpl. rewrite Hob. by apply list_elem_of_fmap_2.
  - intros r Hr. eexists. simpl. rewrite Hoc.
    split; [apply elem_of_app; left; by apply list_elem_of_fmap_2|]. done.
  - intros l can Hl. destruct (Horig l) as [?|(m & Hm & Hlm & Hcan)]; [by rewrite Hl|by left|].
    right. destruct o as [identity seq ms| |]; simpl in Hm; [|by apply elem_of_nil in Hm..].
    eexists _, identity, seq, ms, m. simpl.
    split; [apply elem_of_app; right; by left|]. simpl. split_and!; [done..|].
    rewrite Hl in Hcan. by injection Hcan.
Qed.

Lemma client_step_intent self ev next :
  ValidState self → client_step self ev next → intent_kept self next.
Proof.
  intros Hv H. destruct H as
    [commit Hwf Hid|response policy r Hr Ho|response policy i c next res Hi Hid Hf Hres Hres'
    |id request|id i r Hi Hc Hn|id request i r identity rid auth res rep Hk Hi Hid Hn Ho
    |batch|batch cp current Hv' Hc Hs|batch cp commits Hv' Hs|ev cp rs conf ids He Hs Hg Hf
    |response|ev subs Hsub]; try by apply intent_kept_refl.
  all: try (apply intent_kept_same; simpl; [done|done|set_solver|]; intros x Hx; by exists x).
  - by eapply push_step_intent.
  - apply intent_kept_same; simpl; [done..|]. by eapply (alter_resolution_kept KeepServer i).
  - apply intent_kept_same; simpl; [done|done|set_solver|].
    by eapply (alter_resolution_kept res i).
  - apply intent_kept_same; simpl; [done..|]. intros r Hr.
    exists (cover_outcome (same_epoch self cp) cp r).
    split; [by apply list_elem_of_fmap_2|]. unfold cover_outcome.
    destruct (outcome r) eqn:Hout; [case_match|..]; by rewrite ?Hout.
Qed.

Lemma snapshot_guard_cursor self cp u c :
  snapshot_guard self cp = Ok u → st_checkpoint self = Some c →
  cursor_le (cursor c) (cursor cp).
Proof.
  unfold snapshot_guard. intros H Hc. rewrite Hc in H. apply guard_Ok in H as [Hg _].
  unfold cursor_le. destruct (decide (epoch (cursor c) = epoch (cursor cp))); lia.
Qed.

Lemma client_step_frame self ev next :
  client_step self ev next →
  st_partition_id next = st_partition_id self ∧ st_client_id next = st_client_id self ∧
  st_requested_scope next = st_requested_scope self ∧
  st_subscription_revision next = st_subscription_revision self ∧
  (∀ c, st_checkpoint self = Some c →
     ∃ c', st_checkpoint next = Some c' ∧ cursor_le (cursor c) (cursor c')).
Proof.
  assert (∀ s' : DurableClientState V, st_checkpoint s' = st_checkpoint self →
    ∀ c, st_checkpoint self = Some c →
    ∃ c', st_checkpoint s' = Some c' ∧ cursor_le (cursor c) (cursor c')) as Hsame.
  { intros s' -> c ->. by exists c. }
  intros H. destruct H as
    [| |response policy i c next res Hi Hid Hf Hres Hres'| | | |
    |batch cp current Hv Hc Hs|batch cp commits Hv Hs|ev cp rs conf ids He Hs Hg Hf
    | |]; try (repeat split; by apply Hsame).
  - apply mappings_effect in Hf as [(?&?&?&?&?&?&?&?) _].
    repeat split; try done. by apply Hsame.
  - repeat split; [done..|]. simpl. intros c Hc'. exists cp. split; [done|].
    simplify_eq. destruct (validate_pull_batch_cursor _ _ _ _ _ Hv Hc) as (? & ? & _).
    right. auto.
  - repeat split; [done..|]. simpl. intros c Hc. exists cp. split; [done|].
    destruct (validate_pull_batch_cursor _ _ _ _ _ Hv Hc) as (? & ? & _). right. auto.
  - repeat split; [done..|]. simpl. intros c Hc. exists cp. split; [done|].
    by eapply snapshot_guard_cursor.
Qed.

Lemma prepared_intent self ev next p :
  ValidState self → client_step self ev next → prepared_as self next p →
  intent_kept self (prepared_state p).
Proof.
  intros Hv Hs [-> _|_ _ _]; simpl; [by apply intent_kept_refl|].
  by destruct (client_step_intent _ _ _ Hv Hs).
Qed.

Lemma prepared_advances self ev next p :
  client_step self ev next → prepared_as self next p → advances self (prepared_state p).
Proof.
  intros Hs [-> _|_ _ _]; simpl; [done|].
  apply client_step_frame in Hs as (? & ? & ? & ? & ?). repeat split; simpl; [done..|lia|done].
Qed.
End relations.

(** ** The promises over runs *)

Section promises.
Context {V : Type} `{!EqDecision V}.
Implicit Types s self next : DurableClientState V.
Implicit Types r : runtime V.

(** C1: however preparations, installations and dropped transitions interleave,
    the installed states of a run are those of a client that applies one event
    at a time atomically: the revision check of [install] refines the
    optimistic protocol to the sequential specification. *)
Theorem run_refines_sequential s r r' :
  opened s r → run r r' → rtc atomic_step (installed r) (installed r').
Proof. intros ?%opened_inv ?. by apply run_atomic. Qed.

(** C2: every state the runtime installs satisfies the declarative invariant of
    a client state, and so does every prepared transition handed to the
    storage adapter. *)
Theorem reachable_valid s r r' :
  opened s r → run r r' →
  ValidState (installed r') ∧
  ∀ p, p ∈ outstanding r' → ValidState (prepared_state p).
Proof.
  intros ?%opened_inv Hrun. destruct (run_preserves_inv _ _ Hrun) as [? Hps]; [done|].
  split; [done|]. intros p Hp. by apply Hps.
Qed.

(** A transition that was prepared from a state which has been replaced
    since is refused as stale, and leaves the installed state alone; one that
    installs was computed from exactly the installed state, so no update is
    lost between preparation and installation. *)
Theorem install_no_lost_update s r r' p :
  opened s r → run r r' → p ∈ outstanding r' →
  (∃ ev, prepare_event (installed r') ev = Ok p ∧
     install (installed r') p = Ok (prepared_state p)) ∨
  ((base_revision p < st_revision (installed r'))%N ∧
   install (installed r') p
     = Err (StaleTransition (base_revision p) (st_revision (installed r')))).
Proof.
  intros ?%opened_inv Hrun Hp. destruct (run_preserves_inv _ _ Hrun) as [? Hps]; [done|].
  destruct (Hps p Hp) as (_ & Hle & Hex). unfold install.
  destruct (decide (base_revision p ≠ st_revision (installed r'))) as [Hne|Heq].
  - right. split; [lia|done].
  - left. apply dec_stable in Heq. destruct (Hex Heq) as [ev ?]. by exists ev.
Qed.

(** C3: local intent is never lost: over a run every pending commit stays pending
    or becomes resolved with the same identity and the same operations in order, and
    every resolved commit stays recorded with its outcome, its resolution and its
    reset coverage.  Only record names change, each to the name the id map of the
    final state gives it, in operations, references and conflicts alike; the id map
    never drops an entry, and each new entry is a mapping of an acceptance recorded
    in the final state, followed through the mappings accepted after it. *)
Theorem run_keeps_intent s r r' :
  opened s r → run r r' → intent_kept (installed r) (installed r').
Proof.
  intros ?%opened_inv ?. eapply run_lift_valid; [apply _|apply intent_kept_refl| |done..].
  intros *. apply prepared_intent.
Qed.

(** Over a run the partition, client and scope identity never change, the
    revision never decreases, and an installed checkpoint is never dropped nor
    does its authority cursor move backward. *)
Theorem run_advances s r r' :
  opened s r → run r r' → advances (installed r) (installed r').
Proof.
  intros ?%opened_inv ?. eapply run_lift; [apply _| |done..].
  intros * _. apply prepared_advances.
Qed.

(** The commit ids an event may introduce. *)
Definition event_ids (ev : event V) : list ClientCommitId :=
  match ev with
  | EEnqueue commit => [commit_id commit]
  | EResolve _ (ReqKeepLocal replacement | ReqMerge replacement) => [commit_id replacement]
  | _ => []
  end.

Lemma durable_ids_alt s :
  durable_ids s = (commit_id <$> st_outbox s) ++
                  ((λ o, commit_id (local_commit o)) <$> st_outcomes s).
Proof. unfold durable_ids, durable_commits. by rewrite fmap_app, <-list_fmap_compose. Qed.

Lemma fmap_alter_invariant {A B} (f : A → A) (g : A → B) i (l : list A) :
  (∀ x, g (f x) = g x) → g <$> alter f i l = g <$> l.
Proof.
  intros Hg. revert i. induction l as [|x l IH]; intros [|i]; csimpl; [done..| |].
  - by rewrite Hg.
  - f_equal. apply IH.
Qed.

Lemma push_step_ids self next i c ms ms' o res :
  st_outbox self !! i = Some c →
  st_outbox next = remap_all ms <$> vec_remove i (st_outbox self) →
  st_outcomes next = (λ x, mkResolved (remap_all ms (local_commit x))
      (remap_outcome_all ms (outcome x)) (resolution x) (covered_by_reset x))
      <$> st_outcomes self →
  durable_ids (set_outcomes next (st_outcomes next ++
    [mkResolved (remap_all ms' c) o res false])) ≡ₚ durable_ids self.
Proof.
  intros Hi Hob Hoc. assert (∀ ms (c : ClientCommit V), commit_id (remap_all ms c) = commit_id c) as Hid.
  { intros. unfold commit_id. by rewrite remap_all_identity. }
  rewrite !durable_ids_alt. simpl. rewrite Hob, Hoc, fmap_app. csimpl.
  rewrite <-(vec_remove_perm _ _ _ Hi) at 2. csimpl.
  rewrite <-!list_fmap_compose, Hid.
  rewrite (list_fmap_ext _ commit_id (vec_remove i (st_outbox self)))
    by (intros; apply Hid).
  rewrite (list_fmap_ext _ (λ o, commit_id (local_commit o)) (st_outcomes self))
    by (intros; apply Hid).
  solve_Permutation.
Qed.

Lemma client_step_ids self ev next :
  client_step self ev next →
  durable_ids next ≡ₚ durable_ids self ++ event_ids ev ∨
  durable_ids next ≡ₚ durable_ids self ∧ ¬ ∃ c, ev = EEnqueue c.
Proof.
  intros H. destruct H as
    [commit Hwf Hid|response policy o Ho|response policy i c next res Hi Hid Hf Hres Hres'
    |id request|id i o Hi Hc Hn|id request i o identity rid auth res rep Hk Hi Hid Hn Ho
    |batch|batch cp current Hv Hc Hs|batch cp commits Hv Hs|ev cp rs conf ids He Hs Hg Hf
    |response|ev subs Hsub];
    try by (right; split; [done|]; intros [? ?]; discriminate).
  - left. rewrite !durable_ids_alt. simpl. rewrite fmap_app. simpl. solve_Permutation.
  - right. split; [|by intros [? ?]].
    apply mappings_effect in Hf as [_ (ms & Hob & Hoc)]. by eapply push_step_ids.
  - right. split; [|by intros [? ?]].
    rewrite !durable_ids_alt. simpl. by rewrite fmap_alter_invariant.
  - left. rewrite !durable_ids_alt. simpl. rewrite fmap_alter_invariant, fmap_app by done.
    destruct Hk as [(-> & _)|(-> & _)]; simpl; solve_Permutation.
  - right. split; [|by destruct He as [->|[? ->]]; intros [? ?]].
    rewrite !durable_ids_alt. simpl. rewrite <-list_fmap_compose.
    erewrite (list_fmap_ext _ _ (st_outcomes self)); [done|].
    intros ? o _. simpl. unfold cover_outcome. destruct (outcome o); [|done..].
    by case_match.
  - right. split; [done|]. intros [c ->]. by inversion Hsub as [| |? ? ? [|[? [? _]]]|].
Qed.

(** The durable commit ids change only by the id of a newly enqueued commit or
    of a conflict replacement: accepting an event neither drops, duplicates nor
    renames a commit, and a successful enqueue always adds its own. *)
Theorem event_durable_ids self ev p :
  prepare_event self ev = Ok p →
  durable_ids (prepared_state p) ≡ₚ durable_ids self ++ event_ids ev ∨
  durable_ids (prepared_state p) ≡ₚ durable_ids self ∧ ¬ ∃ c, ev = EEnqueue c.
Proof.
  intros (next & Hs & Has)%prepare_event_step.
  rewrite (prepared_field durable_ids _ _ _ (λ _ _, eq_refl) Has).
  by apply client_step_ids.
Qed.
End promises.

(** ** Witnesses *)

Lemma run_refines_sequential_witness :
  ∃ r', run (mkRuntime fx_empty []) r' ∧ installed r' = after fx_empty (EEnqueue fx_commit1) ∧
    rtc atomic_step fx_empty (installed r').
Proof.
  destruct (after_run fx_empty [] (EEnqueue fx_commit1)) as [ps Hrun];
    [vm_compute; reflexivity|].
  eexists. split; [exact Hrun|]. split; [done|].
  apply (run_refines_sequential fx_empty (mkRuntime fx_empty []) _); [|exact Hrun].
  split; [vm_compute; reflexivity|done].
Defined.

Lemma reachable_valid_witness :
  ∃ ps, run (mkRuntime fx_accepted []) (mkRuntime fx_conflicted ps) ∧
    ValidState fx_conflicted.
Proof.
  destruct (after_run fx_accepted [] (EPush fx_conflict2 Manual)) as [ps Hrun];
    [vm_compute; reflexivity|].
  exists ps. split; [exact Hrun|].
  destruct (reachable_valid fx_accepted (mkRuntime fx_accepted [])
    (mkRuntime fx_conflicted ps)) as [H _]; [|exact Hrun|exact H].
  split; [vm_compute; reflexivity|done].
Defined.

(** Two commits prepared from the same state: installing one makes the other stale. *)
Lemma install_no_lost_update_witness :
  ∃ p q, prepare_event fx_empty (EEnqueue fx_commit1) = Ok p ∧
    prepare_event fx_empty (EEnqueue fx_commit2) = Ok q ∧
    (base_revision q < st_revision (prepared_state p))%N ∧
    install (prepared_state p) q = Err (StaleTransition 0 1).
Proof.
  destruct (prepare_event fx_empty (EEnqueue fx_commit1)) as [p|] eqn:Hp;
    [|vm_compute in Hp; discriminate].
  destruct (prepare_event fx_empty (EEnqueue fx_commit2)) as [q|] eqn:Hq;
    [|vm_compute in Hq; discriminate].
  exists p, q. split; [done|]. split; [done|].
  destruct (install_no_lost_update fx_empty (mkRuntime fx_empty [])
    (mkRuntime (prepared_state p) [q; p]) q) as [(ev & Hev & Hi)|[Hlt Hst]].
  - split; [vm_compute; reflexivity|done].
  - eapply rtc_l; [exact (run_prepare _ _ _ _ Hp)|].
    eapply rtc_l; [exact (run_prepare _ _ _ _ Hq)|]. apply rtc_once. apply run_install with p; [set_solver|].
    vm_compute in Hp. injection Hp as <-. vm_compute. reflexivity.
  - set_solver.
  - exfalso. vm_compute in Hp, Hq. injection Hp as <-. injection Hq as <-.
    vm_compute in Hi. discriminate.
  - simpl in Hlt, Hst. vm_compute in Hp, Hq. injection Hp as <-. injection Hq as <-.
    split; [exact Hlt|exact Hst].
Defined.

(** The accepted commit is kept under the name the authority gave its record, and the
    commit that refers to it follows. *)
Lemma run_keeps_intent_witness :
  st_outbox fx_pending = [fx_commit1; fx_commit2] ∧
  renamed (st_id_map fx_accepted) "local1" = "item1" ∧
  rename_commit (renamed (st_id_map fx_accepted)) fx_commit1 ∈ durable_commits fx_accepted ∧
  rename_commit (renamed (st_id_map fx_accepted)) fx_commit2 ∈ durable_commits fx_accepted.
Proof.
  assert (st_outbox fx_pending = [fx_commit1; fx_commit2]) as Hin by (vm_compute; reflexivity).
  split; [exact Hin|]. split; [vm_compute; reflexivity|].
  destruct (after_run fx_pending [] (EPush fx_accept1 Manual)) as [ps Hrun];
    [vm_compute; reflexivity|].
  destruct (run_keeps_intent fx_pending (mkRuntime fx_pending []) (mkRuntime fx_accepted ps))
    as [Ho _ _ _]; [split; [vm_compute; reflexivity|done]|exact Hrun|]. simpl in Ho.
  split; apply Ho; rewrite Hin; [left|right; left].
Defined.

Lemma run_advances_witness : advances fx_conflicted fx_pulled ∧ st_revision fx_pulled = 5%N.
Proof.
  split; [|vm_compute; reflexivity].
  destruct (after_run fx_conflicted [] (EPull (Batch fx_batch1))) as [ps Hrun];
    [vm_compute; reflexivity|].
  apply (run_advances fx_conflicted (mkRuntime fx_conflicted [])
    (mkRuntime fx_pulled ps)); [|exact Hrun].
  split; [vm_compute; reflexivity|done].
Defined.

Lemma event_durable_ids_witness :
  ∃ p, prepare_event fx_empty (EEnqueue fx_commit1) = Ok p ∧
    durable_ids (prepared_state p) ≡ₚ ["c1"].
Proof.
  destruct (prepare_event fx_empty (EEnqueue fx_commit1)) as [p|] eqn:Hp;
    [|vm_compute in Hp; discriminate].
  exists p. split; [done|].
  destruct (event_durable_ids fx_empty (EEnqueue fx_commit1) p Hp) as [H|[_ H]]; [exact H|].
  exfalso. apply H. by exists fx_commit1.
Defined.
