(* ===== verification/PullProps.v ===== *)
(** * Properties of pulls, resets and bootstrap snapshots. *)

From S2P Require Import Prelude Protocol Subscription ClientState SubscriptionState Validate IdMap Client SubscriptionClient Steps Runtime Fixtures Intent.

Section pull.
Context {V : Type} `{!EqDecision V}.
Implicit Types self s : DurableClientState V.

(** ** The shape of an accepted batch *)

(** [frames] is [Start], the commit frames carrying the batch token, [End]. *)
Definition batch_shape (batch : PullBatch V) (end_ : Checkpoint)
    (commits : list (PullCommit V)) : Prop :=
  frames batch = FrameStart end_ :: (FrameCommit (token end_) <$> commits) ++ [FrameEnd end_].

Lemma inner_frames_middle (a e : PullFrame V) l : inner_frames (a :: l ++ [e]) = l.
Proof.
  unfold inner_frames. simpl. rewrite drop_0, length_app. simpl.
  replace (length l + 1 - 1) with (length l) by lia. apply take_app_length.
Qed.

Lemma inner_frame_Ok t f (c : PullCommit V) : inner_frame t f = Ok c ↔ f = FrameCommit t c.
Proof.
  destruct f as [|ck c'|]; simpl; [naive_solver| |naive_solver].
  rewrite guard_Ok. split.
  - intros [->%dec_stable [= ->]]. done.
  - intros [= -> ->]. split; [tauto|done].
Qed.

Lemma validate_pull_batch_shape self batch end_ commits :
  validate_pull_batch self batch = Ok (end_, commits) →
  batch_shape batch end_ commits ∧ validate_sequences self end_ commits = Ok tt.
Proof.
  unfold validate_pull_batch, batch_shape. intros H.
  destruct (frames batch) as [|a l]; [done|]. simpl in H.
  destruct a as [start| |]; try done.
  destruct l as [|e l _] using rev_ind; [done|].
  rewrite app_comm_cons, last_snoc in H. destruct e as [| |e]; try done.
  apply guard_Ok in H as [->%dec_stable H]. apply result_bind_Ok in H as (? & _ & H).
  apply result_bind_Ok in H as (? & _ & H). apply result_bind_Ok in H as (cs & Hc & H).
  apply result_bind_Ok in H as ([] & Hs & [= -> ->]).
  rewrite <-app_comm_cons, inner_frames_middle in Hc.
  split; [|done]. do 2 f_equal. apply try_map_Ok in Hc. clear -Hc.
  induction Hc as [|f c fs cs ->%inner_frame_Ok _ IH]; [done|]. csimpl. by f_equal.
Qed.

(** ** Sequence numbers are contiguous *)

Lemma sequence_chain (commits : list (PullCommit V)) (first next : N) :
  is_u64 first →
  Forall (λ '(a, b), pc_sequence b = saturating_add u64_max (pc_sequence a) 1)
    (windows2 commits) →
  try_fold sequence_step first commits = Ok next →
  (∀ i c, commits !! i = Some c → pc_sequence c = (first + N.of_nat i)%N) ∧
  (commits ≠ [] → (first + vec_len commits ≤ u64_max + 1)%N) ∧
  next = wrapping_add_u64 first (vec_len commits).
Proof.
  revert first. induction commits as [|c l IH]; intros first Hu Hw H; simpl in H.
  { injection H as <-. split_and!; [done|done|]. unfold wrapping_add_u64, vec_len. simpl.
    rewrite N.add_0_r, N.mod_small; [done|]. unfold is_u64, u64_max in *. lia. }
  apply result_bind_Ok in H as (n & Hs & H). apply guard_Ok in Hs as [Hc%dec_stable [= <-]].
  destruct l as [|c' l].
  { injection H as <-. split_and!; [|unfold vec_len, is_u64 in *; simpl; lia|done].
    intros [|i] x; simpl; [|done]. intros [= <-]. lia. }
  change (windows2 (c :: c' :: l)) with ((c, c') :: windows2 (c' :: l)) in Hw.
  apply Forall_cons in Hw as [Hcc Hw].
  assert (first + 1 ≤ u64_max)%N as Hlt.
  { simpl in H. apply result_bind_Ok in H as (n & Hs & _).
    apply guard_Ok in Hs as [Hc'%dec_stable _]. rewrite Hc', Hc in Hcc.
    destruct (decide (first + 1 ≤ u64_max)%N); [done|].
    assert (first = u64_max) as -> by (unfold is_u64 in Hu; lia).
    vm_compute in Hcc. discriminate. }
  rewrite wrapping_add_small in H by done. apply IH in H as (Hi & Hle & ->); [|done..].
  split_and!.
  - intros [|i] x; simpl; [intros [= <-]; lia|]. intros Hx%Hi. lia.
  - intros _. specialize (Hle ltac:(done)). unfold vec_len in *. simpl in *. lia.
  - unfold wrapping_add_u64, vec_len. f_equal. simpl. lia.
Qed.

Lemma wrapping_sub_back first n :
  (1 ≤ first + n)%N → (first + n ≤ u64_max + 1)%N →
  wrapping_sub_u64 (wrapping_add_u64 first n) 1 = (first + n - 1)%N.
Proof.
  intros H1 H2. rewrite <-(wrapping_add_sub_1 (first + n - 1)) by (unfold is_u64; lia).
  f_equal. unfold wrapping_add_u64. f_equal. lia.
Qed.

(** The commits of a batch that advances the cursor are numbered from just
    after the installed sequence up to the batch end. *)
Lemma validate_sequences_contiguous self end_ commits u :
  is_u64 (sequence (cursor end_)) →
  (current_sequence self end_ < sequence (cursor end_))%N →
  validate_sequences self end_ commits = Ok u →
  (current_sequence self end_ + vec_len commits = sequence (cursor end_))%N ∧
  ∀ i c, commits !! i = Some c →
    pc_sequence c = (current_sequence self end_ + 1 + N.of_nat i)%N.
Proof.
  unfold validate_sequences, is_u64. set (cur := current_sequence self end_).
  intros Hu Hlt H. apply result_bind_Ok in H as (? & Hw & H). apply guard_Ok in H as [_ H].
  destruct (decide (cur < sequence (cursor end_))%N); [|done].
  apply result_bind_Ok in H as (next & Hf & H). apply guard_Ok in H as [He%dec_stable _].
  rewrite wrapping_add_small in Hf by lia.
  apply sequence_chain in Hf as (Hi & Hle & ->); [|unfold is_u64; lia|].
  - split; [|done]. destruct commits as [|c0 l0].
    + exfalso. rewrite wrapping_sub_back in He by (unfold vec_len; simpl; lia).
      unfold vec_len in He. simpl in He. lia.
    + specialize (Hle ltac:(done)). rewrite wrapping_sub_back in He by lia.
      unfold vec_len in *. lia.
  - apply try_for_each_ok_unit in Hw. eapply Forall_impl; [exact Hw|].
    intros [a b] Hab. apply guard_Ok in Hab as [Hab _]. by apply dec_stable in Hab.
Qed.

(** ** What the confirmed records become *)

(** The last state the commits give to a record, if they touch it. *)
Definition last_write (commits : list (PullCommit V)) (id : RecordId)
  : option (RecordState V) :=
  applied_state <$> last (filter (λ a, applied_record_id a = id) (commits ≫= pc_records)).

Definition written (old : option (RecordState V)) (w : option (RecordState V))
  : option (RecordState V) :=
  match w with None => old | Some Absent => None | Some s => Some s end.

Lemma apply_records_lookup (l : list (AppliedRecord V)) conf id :
  foldl apply_record conf l !! id =
  written (conf !! id)
    (applied_state <$> last (filter (λ a, applied_record_id a = id) l)).
Proof.
  induction l as [|a l IH] using rev_ind; [done|].
  rewrite foldl_app, filter_app. simpl. unfold apply_record at 1.
  destruct (decide (applied_record_id a = id)) as [Ha|Ha].
  - rewrite filter_cons_True, filter_nil, last_snoc by done. simpl.
    destruct (applied_state a); simpl; rewrite Ha;
      by rewrite ?lookup_delete_eq, ?lookup_insert_eq.
  - rewrite filter_cons_False, filter_nil, app_nil_r, <-IH by done.
    destruct (applied_state a); by rewrite ?lookup_delete_ne, ?lookup_insert_ne by done.
Qed.

Lemma apply_commits_lookup (commits : list (PullCommit V)) conf id :
  foldl apply_commit conf commits !! id = written (conf !! id) (last_write commits id).
Proof.
  unfold last_write. rewrite <-apply_records_lookup. f_equal.
  revert conf. induction commits as [|c l IH]; intros conf; [done|].
  csimpl. rewrite foldl_app. apply IH.
Qed.

(** The fields a pull leaves alone. *)
Definition local_untouched self s : Prop :=
  st_outbox s = st_outbox self ∧ st_outcomes s = st_outcomes self ∧
  st_id_map s = st_id_map self ∧ st_subscriptions s = st_subscriptions self ∧
  st_reset_coverage s = st_reset_coverage self.

Lemma prepare_fields self next p :
  prepare self next = Ok p →
  local_untouched next (prepared_state p) ∧
  st_checkpoint (prepared_state p) = st_checkpoint next ∧
  st_confirmed (prepared_state p) = st_confirmed next.
Proof. intros [-> _|_ _ _]%prepare_Ok; by repeat split. Qed.

Lemma prepared_pull self batch p end_ commits :
  validate_pull_batch self batch = Ok (end_, commits) →
  prepare_pull_batch self batch = Ok p →
  local_untouched self (prepared_state p) ∧
  st_checkpoint (prepared_state p) = Some end_ ∧
  ∀ id, st_confirmed (prepared_state p) !! id =
    match st_checkpoint self with
    | Some current =>
        if decide (sequence (cursor end_) = sequence (cursor current))
        then st_confirmed self !! id
        else written (st_confirmed self !! id) (last_write commits id)
    | None => written (st_confirmed self !! id) (last_write commits id)
    end.
Proof.
  intros Hv H. unfold prepare_pull_batch in H. rewrite Hv in H. simpl in H.
  apply result_bind_Ok in H as (_ & _ & H).
  destruct (st_checkpoint self) as [current|] eqn:Hc;
    [destruct (decide (sequence (cursor end_) = sequence (cursor current)));
     [destruct (decide (end_ = current)); [|apply guard_Ok in H as [_ H]]|]|];
    apply prepare_fields in H as (Hl & Hck & Hconf); rewrite Hck, Hconf;
    (split; [done|]); (split; [simpl; congruence|]); intros id; simpl; try done;
    apply apply_commits_lookup.
Qed.

(** C22: an accepted batch is framed by equal start and end checkpoints and every
    inner frame carries the batch token; when it advances the cursor its commits
    are numbered contiguously from just after the installed sequence to the
    batch end, without a gap, a duplicate or an overflow; the confirmed records
    become what the last commit touching each of them says; and the outbox, the
    outcomes, the id map and the subscriptions are untouched. *)
Theorem pull_batch_applies_exactly self batch p :
  prepare_pull_response self (Batch batch) = Ok p →
  (∀ end_, last (frames batch) = Some (FrameEnd end_) → is_u64 (sequence (cursor end_))) →
  ∃ end_ commits, batch_shape batch end_ commits ∧
    st_checkpoint (prepared_state p) = Some end_ ∧
    local_untouched self (prepared_state p) ∧
    ((current_sequence self end_ < sequence (cursor end_))%N →
     (current_sequence self end_ + vec_len commits = sequence (cursor end_))%N ∧
     (∀ i c, commits !! i = Some c →
        pc_sequence c = (current_sequence self end_ + 1 + N.of_nat i)%N) ∧
     ∀ id, st_confirmed (prepared_state p) !! id
           = written (st_confirmed self !! id) (last_write commits id)) ∧
    (∀ current, st_checkpoint self = Some current →
     sequence (cursor current) = sequence (cursor end_) →
     st_confirmed (prepared_state p) = st_confirmed self).
Proof.
  simpl. intros H Hu. assert (∃ x, validate_pull_batch self batch = Ok x) as [[end_ commits] Hv].
  { unfold prepare_pull_batch in H. apply result_bind_Ok in H as (x & ? & _). eauto. }
  destruct (prepared_pull _ _ _ _ _ Hv H) as (Hloc & Hck & Hconf).
  destruct (validate_pull_batch_shape _ _ _ _ Hv) as [Hshape Hseq].
  exists end_, commits. split_and!; [done..| |].
  - intros Hlt.
    destruct (validate_sequences_contiguous self end_ commits tt) as [Hlen Hi]; [|done..|].
    { apply Hu. rewrite Hshape, app_comm_cons. apply last_snoc. }
    split_and!; [done..|]. intros id. rewrite Hconf. unfold current_sequence in Hlt.
    destruct (st_checkpoint self) as [current|] eqn:Hc; [|done].
    destruct (validate_pull_batch_cursor _ _ _ _ _ Hv Hc) as (He & _).
    rewrite decide_True in Hlt by done. by rewrite decide_False by lia.
  - intros current Hc Hs. apply map_eq. intros id. rewrite Hconf, Hc.
    by rewrite decide_True.
Qed.
End pull.

(** ** Redelivery *)

Section redelivery.
Context {V : Type} `{!EqDecision V}.
Implicit Types self s : DurableClientState V.

Lemma validate_pull_batch_again self s batch end_ (commits : list (PullCommit V)) :
  validate_pull_batch self batch = Ok (end_, commits) →
  st_requested_scope s = st_requested_scope self →
  st_subscription_revision s = st_subscription_revision self →
  st_checkpoint s = Some end_ →
  validate_pull_batch s batch = Ok (end_, commits).
Proof.
  unfold validate_pull_batch. intros H Hrs Hsr Hck.
  destruct (head _) as [[start| |]|]; try done. destruct (last _) as [[| |e]|]; try done.
  apply guard_Ok in H as [->%dec_stable H]. apply result_bind_Ok in H as ([] & Hs & H).
  apply result_bind_Ok in H as (_ & _ & H). apply result_bind_Ok in H as (cs & Hc & H).
  apply result_bind_Ok in H as ([] & Hv & [= -> ->]). rewrite decide_False by tauto.
  assert (validate_scope s end_ = Ok tt) as ->.
  { unfold validate_scope in *. by rewrite Hrs, Hsr. }
  simpl. rewrite Hck, !decide_False by (lia || tauto). simpl. rewrite Hc. simpl.
  unfold validate_sequences in *. apply result_bind_Ok in Hv as (? & -> & Hv). simpl.
  apply guard_Ok in Hv as [Hl _]. rewrite decide_False by done.
  assert (current_sequence s end_ = sequence (cursor end_)) as ->.
  { unfold current_sequence. rewrite Hck. by rewrite decide_True. }
  by rewrite decide_False by lia.
Qed.

Lemma guard_scope_again self s sc :
  guard_subscription_scope self sc = Ok tt → st_subscriptions s = st_subscriptions self →
  guard_subscription_scope s sc = Ok tt.
Proof.
  unfold guard_subscription_scope. intros H ->.
  by apply guard_bool_Ok in H as [-> _].
Qed.

Lemma pull_batch_again self batch p :
  prepare_pull_batch self batch = Ok p →
  prepare_pull_batch (prepared_state p) batch
    = Ok (mkPrepared (st_revision (prepared_state p)) (prepared_state p)).
Proof.
  intros H. pose proof H as H'. unfold prepare_pull_batch in H'.
  apply result_bind_Ok in H' as ([end_ commits] & Hv & H').
  apply result_bind_Ok in H' as ([] & Hg & _).
  destruct (prepared_pull _ _ _ _ _ Hv H) as ((_ & _ & _ & Hsub & _) & Hck & _).
  destruct (prepare_event_step self (EPull (Batch batch)) p H) as (next & Hstep & Has).
  destruct (prepared_advances _ _ _ _ Hstep Has) as (_ & _ & Hrs & Hsr & _).
  unfold prepare_pull_batch at 1.
  rewrite (validate_pull_batch_again _ _ _ _ _ Hv Hrs Hsr Hck). simpl.
  rewrite (guard_scope_again _ _ _ Hg Hsub). simpl.
  rewrite Hck, !decide_True by done. apply prepare_same. by eapply prepared_state_valid.
Qed.

Lemma cover_outcome_again same cp (r : ResolvedCommit V) :
  cover_outcome true cp (cover_outcome same cp r) = cover_outcome same cp r.
Proof.
  unfold cover_outcome at 2 3. destruct (outcome r) eqn:Ho;
    [|unfold cover_outcome; by rewrite Ho..].
  destruct (negb same || _) eqn:Hb; unfold cover_outcome; simpl; rewrite ?Ho; simpl.
  - by case_match.
  - apply orb_false_iff in Hb as [_ ->]. done.
Qed.

Lemma same_epoch_self s cp : st_checkpoint s = Some cp → same_epoch s cp = true.
Proof. unfold same_epoch. intros ->. by apply bool_decide_eq_true. Qed.

Lemma snapshot_guard_self s cp : st_checkpoint s = Some cp → snapshot_guard s cp = Ok tt.
Proof.
  unfold snapshot_guard. intros ->. rewrite !decide_False by (lia || tauto). done.
Qed.

Lemma snapshot_next_again self cp conf r :
  snapshot_next (set_revision (snapshot_next self cp conf) r) cp conf
  = set_revision (snapshot_next self cp conf) r.
Proof.
  set (s' := set_revision (snapshot_next self cp conf) r).
  unfold snapshot_next at 1. rewrite same_epoch_self by done.
  assert (cover_outcome true cp <$> st_outcomes s' = st_outcomes s') as ->.
  { change (st_outcomes s') with
      (cover_outcome (same_epoch self cp) cp <$> st_outcomes self).
    rewrite <-list_fmap_compose. apply list_fmap_ext. intros ? o _.
    apply cover_outcome_again. }
  by destruct self.
Qed.

Lemma prepare_snapshot_Ok self cp rs p :
  prepare_snapshot self cp rs = Ok p →
  ∃ conf ids, validate_scope self cp = Ok tt ∧
    guard_subscription_scope self (scope cp) = Ok tt ∧ snapshot_guard self cp = Ok tt ∧
    try_fold snapshot_step (∅, ∅) rs = Ok (conf, ids) ∧
    prepare self (snapshot_next self cp conf) = Ok p.
Proof.
  unfold prepare_snapshot. intros H. apply result_bind_Ok in H as ([] & ? & H).
  apply result_bind_Ok in H as ([] & ? & H). apply result_bind_Ok in H as ([] & ? & H).
  apply result_bind_Ok in H as ([conf ids] & ? & H). by exists conf, ids.
Qed.

Lemma snapshot_again self cp rs p :
  prepare_snapshot self cp rs = Ok p →
  prepare_snapshot (prepared_state p) cp rs
    = Ok (mkPrepared (st_revision (prepared_state p)) (prepared_state p)).
Proof.
  intros H. pose proof H as (conf & ids & Hs & Hg & _ & Hf & Hp)%prepare_snapshot_Ok.
  revert H. apply prepare_Ok in Hp as [Heq Hv|Hne Hle Hv]; intros H; simpl; [done|].
  unfold prepare_snapshot. change (validate_scope _ cp) with (validate_scope self cp).
  rewrite Hs; simpl. rewrite (guard_scope_again self _ _ Hg) by done; simpl.
  rewrite snapshot_guard_self by done; simpl. rewrite Hf; simpl.
  change (set_checkpoint _ _) with
    (snapshot_next (set_revision (snapshot_next self cp conf) (st_revision self + 1)%N) cp conf).
  rewrite snapshot_next_again. by rewrite prepare_same.
Qed.

(** Delivering the same authority data again changes nothing: after a batch, a
    reset or a bootstrap snapshot has been installed, preparing the same message
    again succeeds with the unchanged state at the unchanged revision. *)
Theorem authority_redelivery self ev p :
  prepare_event self ev = Ok p →
  (∃ response, ev = EPull response) ∨ (∃ cp rs, ev = EBootstrap cp rs) →
  prepare_event (prepared_state p) ev
    = Ok (mkPrepared (st_revision (prepared_state p)) (prepared_state p)).
Proof.
  intros H [[[batch|[reason cp rs]] ->]|(cp & rs & ->)]; simpl in *.
  - by apply pull_batch_again in H.
  - by apply snapshot_again in H.
  - unfold prepare_bootstrap_snapshot in *. apply guard_bool_Ok in H as [_ H].
    apply result_bind_Ok in H as ([] & Hc & H). rewrite same_epoch_self; simpl.
    + rewrite Hc. simpl. by apply snapshot_again in H.
    + apply prepare_snapshot_Ok in H as (conf & ids & _ & _ & _ & _ & Hp%prepare_fields).
      by destruct Hp as (_ & -> & _).
Qed.
End redelivery.

(** ** Complete snapshots *)

Section snapshot.
Context {V : Type} `{!EqDecision V}.
Implicit Types self s : DurableClientState V.
Implicit Types rs : list (SnapshotRecord V).

Lemma snapshot_fold rs conf conf' (ids ids' : gset string) :
  try_fold snapshot_step (conf, ids) rs = Ok (conf', ids') →
  (∀ id, is_Some (conf !! id) → id ∈ ids) →
  NoDup (snap_record_id <$> rs) ∧ (∀ x, x ∈ snap_record_id <$> rs → x ∉ ids) ∧
  ∀ id st, conf' !! id = Some st ↔
    conf !! id = Some st ∨ (mkSnapshotRecord id st ∈ rs ∧ st ≠ Absent).
Proof.
  revert conf ids. induction rs as [|[k v] rs IH]; intros conf ids; simpl; intros H Hdom.
  { injection H as -> ->. split_and!; [constructor|set_solver|set_solver]. }
  apply result_bind_Ok in H as ([c1 i1] & Hstep & H).
  unfold snapshot_step in Hstep. simpl in Hstep. apply guard_Ok in Hstep as [Hk [= <- <-]].
  apply IH in H as (Hnd & Hfresh & Hconf).
  - split_and!.
    + constructor; [|done]. intros Hin. apply (Hfresh _ Hin). set_solver.
    + set_solver.
    + intros id st. rewrite Hconf, elem_of_cons.
      assert (conf !! k = None) as Hnone.
      { apply eq_None_not_Some. intros ?%Hdom. done. }
      destruct (decide (id = k)) as [->|Hne].
      * assert (mkSnapshotRecord k st ∉ rs).
        { intros Hin. apply (Hfresh k); [|set_solver].
          by apply (list_elem_of_fmap_2 snap_record_id) in Hin. }
        destruct (decide (v ≠ Absent)) as [Hv|Hv%dec_stable].
        -- rewrite lookup_insert_eq, Hnone. naive_solver.
        -- rewrite Hnone. naive_solver.
      * assert (mkSnapshotRecord id st ≠ mkSnapshotRecord k v) by congruence.
        destruct (decide (v ≠ Absent)); rewrite ?lookup_insert_ne by done; naive_solver.
  - intros id Hid. apply elem_of_union.
    destruct (decide (id = k)) as [->|Hne]; [set_solver|]. right. apply Hdom.
    destruct (decide (v ≠ Absent)); [by rewrite lookup_insert_ne in Hid|done].
Qed.

(** The snapshot continues the installed authority epoch. *)
Definition continues_epoch self (cp : Checkpoint) : Prop :=
  ∃ current, st_checkpoint self = Some current ∧ epoch (cursor current) = epoch (cursor cp).

Lemma same_epoch_true self cp : same_epoch self cp = true ↔ continues_epoch self cp.
Proof.
  unfold same_epoch, continues_epoch. destruct (st_checkpoint self) as [current|].
  - rewrite bool_decide_eq_true. naive_solver.
  - naive_solver.
Qed.

Lemma same_epoch_false self cp : same_epoch self cp = false ↔ ¬ continues_epoch self cp.
Proof. rewrite <-same_epoch_true. by destruct (same_epoch self cp). Qed.

(** Whether a snapshot at [cp] already contains an accepted commit: every one when
    the authority started a new epoch, and within an epoch those it sequenced
    up to the snapshot. *)
Definition covered_at self (cp : Checkpoint) (r : ResolvedCommit V) : Prop :=
  covered_by_reset r = true ∨
  ∃ identity seq ms, outcome r = Accepted identity seq ms ∧
    (continues_epoch self cp → (seq ≤ sequence (cursor cp))%N).

Lemma cover_outcome_spec self cp r :
  let r' := cover_outcome (same_epoch self cp) cp r in
  local_commit r' = local_commit r ∧ outcome r' = outcome r ∧
  resolution r' = resolution r ∧ (covered_by_reset r' = true ↔ covered_at self cp r).
Proof.
  unfold cover_outcome, covered_at. setoid_rewrite <-same_epoch_true.
  destruct (outcome r) as [i seq ms| |] eqn:Ho; [|split_and!; [done..|]; naive_solver..].
  destruct (negb (same_epoch self cp) || _) eqn:Hb; simpl; split_and!; try done.
  - split; [intros _; right; exists i, seq, ms; split; [done|]|done].
    apply orb_true_iff in Hb as [Hf%negb_true_iff|?%N.leb_le]; [by rewrite Hf|done].
  - apply orb_false_iff in Hb as [Ht%negb_false_iff ?%N.leb_gt].
    split; [by left|]. intros [?|(? & ? & ? & [= -> -> ->] & Hle)]; [done|].
    apply Hle in Ht. lia.
Qed.

(** A snapshot never moves the authority cursor or the authorization backward,
    and a snapshot whose scope differs from the installed one is accepted only by
    a client without any pending commit or recorded outcome: a scope change never
    discards local intent. *)
Theorem snapshot_scope_change self cp rs p current :
  prepare_snapshot self cp rs = Ok p → st_checkpoint self = Some current →
  cursor_le (cursor current) (cursor cp) ∧
  (authorization_revision (scope current) ≤ authorization_revision (scope cp))%N ∧
  (scope cp ≠ scope current → st_outbox self = [] ∧ st_outcomes self = []).
Proof.
  intros (conf & ids & _ & _ & Hg & _)%prepare_snapshot_Ok Hc.
  split; [by eapply snapshot_guard_cursor|]. unfold snapshot_guard in Hg.
  rewrite Hc in Hg. apply guard_Ok in Hg as [_ Hg]. apply guard_Ok in Hg as [Ha Hg].
  split; [lia|]. intros Hne. rewrite decide_True in Hg by done.
  apply guard_bool_Ok in Hg as [Hp Hg]. apply guard_Ok in Hg as [Ho%dec_stable _].
  split; [|done]. unfold has_pending_intent in Hp.
  by destruct (st_outbox self).
Qed.

(** The state [s'] is [self] with the complete snapshot [rs] at [cp] installed. *)
Record snapshot_installed self (cp : Checkpoint) rs s' : Prop := {
  sn_distinct : NoDup (snap_record_id <$> rs);
  sn_confirmed : ∀ id st, st_confirmed s' !! id = Some st ↔
    mkSnapshotRecord id st ∈ rs ∧ st ≠ Absent;
  sn_outbox : st_outbox s' = st_outbox self;
  sn_id_map : st_id_map s' = st_id_map self;
  sn_subscriptions : st_subscriptions s' = st_subscriptions self;
  sn_outcomes : Forall2 (λ r r', local_commit r' = local_commit r ∧
      outcome r' = outcome r ∧ resolution r' = resolution r ∧
      (covered_by_reset r' = true ↔ covered_at self cp r))
    (st_outcomes self) (st_outcomes s');
  sn_checkpoint : st_checkpoint s' = Some cp;
  sn_coverage : st_reset_coverage s' = Some (mkCoverage (cursor cp) (scope cp));
  sn_forward : ∀ current, st_checkpoint self = Some current →
    cursor_le (cursor current) (cursor cp) ∧
    (authorization_revision (scope current) ≤ authorization_revision (scope cp))%N ∧
    (scope cp ≠ scope current → st_outbox self = [] ∧ st_outcomes self = []);
}.

Lemma snapshot_contents self cp rs p :
  prepare_snapshot self cp rs = Ok p → snapshot_installed self cp rs (prepared_state p).
Proof.
  intros Hprep. pose proof Hprep as (conf & ids & _ & _ & _ & Hf & Hp%prepare_fields)
    %prepare_snapshot_Ok.
  apply snapshot_fold in Hf as (Hnd & _ & Hconf); [|intros ? [? ?]; set_solver].
  destruct Hp as ((Hc & Ho & Hr & Hm & Hs) & Hck & Hcov).
  split; rewrite ?Hc, ?Ho, ?Hr, ?Hm, ?Hs, ?Hck, ?Hcov; try done.
  - intros id st. simpl. rewrite Hconf. set_solver.
  - simpl. apply Forall2_fmap_r, Forall_Forall2_diag, Forall_true. intros r.
    apply cover_outcome_spec.
  - intros current. by eapply snapshot_scope_change.
Qed.

(** A record an assembled bootstrap may hold: present or deleted, at a version the
    authority assigned. *)
Definition bootstrap_record (record : SnapshotRecord V) : Prop :=
  match snap_state record with
  | Absent => False
  | Present _ version _ | Tombstone version => (0 < version)%N
  end.

Lemma bootstrap_snapshot_Ok self cp rs p :
  prepare_bootstrap_snapshot self cp rs = Ok p →
  prepare_snapshot self cp rs = Ok p ∧ Forall bootstrap_record rs ∧
  (¬ continues_epoch self cp → Forall (λ r, is_accepted (outcome r) = false) (st_outcomes self)).
Proof.
  unfold prepare_bootstrap_snapshot. intros [Hb H]%guard_bool_Ok.
  apply result_bind_Ok in H as ([] & Hrs & H). split_and!; [done| |].
  - apply try_for_each_Ok in Hrs. eapply Forall_impl; [exact Hrs|]. intros r.
    unfold bootstrap_record_check, bootstrap_record.
    destruct (snap_state r); [done|..]; intros [? _]%guard_Ok; lia.
  - intros Hne%same_epoch_false. rewrite Hne in Hb. simpl in Hb. by apply existsb_false_Forall.
Qed.

(** C23: a complete snapshot, delivered as a reset or assembled by a bootstrap,
    replaces the confirmed records by exactly its own non-absent records, which are
    distinct; it keeps the outbox, the id map and the subscriptions; it keeps every
    outcome and marks as covered exactly the accepted ones the snapshot already
    contains; and it records its checkpoint and its reset coverage.  It never moves
    the cursor or the authorization backward, and one of another scope than the
    installed one needs a client without pending commits or outcomes.  An assembled
    bootstrap moreover holds only present or deleted records with positive versions,
    and is refused at a new epoch while accepted outcomes are recorded. *)
Theorem snapshot_installs_exactly self p :
  (∀ snapshot, prepare_pull_response self (Reset snapshot) = Ok p →
     snapshot_installed self (reset_checkpoint snapshot) (reset_records snapshot)
       (prepared_state p)) ∧
  (∀ cp rs, prepare_bootstrap_snapshot self cp rs = Ok p →
     snapshot_installed self cp rs (prepared_state p) ∧ Forall bootstrap_record rs ∧
     (¬ continues_epoch self cp →
        Forall (λ r, is_accepted (outcome r) = false) (st_outcomes self))).
Proof.
  split.
  - intros snapshot Hp. by apply snapshot_contents.
  - intros cp rs (Hp & Hrs & Hacc)%bootstrap_snapshot_Ok.
    split; [by apply snapshot_contents|done].
Qed.
End snapshot.

Definition fx_snapshot : list (SnapshotRecord string) :=
  [mkSnapshotRecord "item1" (Present "milk" 2 None); mkSnapshotRecord "item9" Absent].

Lemma snapshot_installs_exactly_witness :
  (∃ p, prepare_pull_response fx_pulled
      (Reset (mkReset ScopeChanged (fx_cp 4) fx_snapshot)) = Ok p ∧
    st_confirmed (prepared_state p) !! "item1" = Some (Present "milk" 2%N None)) ∧
  (∃ p, prepare_bootstrap_snapshot fx_pulled (fx_cp 4) (take 1 fx_snapshot) = Ok p ∧
    st_confirmed (prepared_state p) !! "item1" = Some (Present "milk" 2%N None)).
Proof.
  split.
  - destruct (prepare_pull_response fx_pulled
      (Reset (mkReset ScopeChanged (fx_cp 4) fx_snapshot))) as [p|] eqn:Hp;
      [|vm_compute in Hp; discriminate].
    exists p. split; [done|].
    apply (sn_confirmed _ _ _ _ (proj1 (snapshot_installs_exactly fx_pulled p) _ Hp)).
    split; [left|discriminate].
  - destruct (prepare_bootstrap_snapshot fx_pulled (fx_cp 4) (take 1 fx_snapshot))
      as [p|] eqn:Hp; [|vm_compute in Hp; discriminate].
    exists p. split; [done|].
    apply (sn_confirmed _ _ _ _ (proj1 (proj2 (snapshot_installs_exactly fx_pulled p) _ _ Hp))).
    split; [left|discriminate].
Defined.

(** A client without local data moves to a new authorization. *)
Lemma snapshot_scope_change_witness :
  let cp' := mkCheckpoint "u" (mkCursor 2 0) (mkScope "items" 2 1) in
  let s := after fx_empty (EPull (Batch fx_batch1)) in
  ∃ p, prepare_snapshot s cp' fx_snapshot = Ok p ∧
    cursor_le (mkCursor 1 1) (cursor cp').
Proof.
  intros cp' s. destruct (prepare_snapshot s cp' fx_snapshot) as [p|] eqn:Hp;
    [|vm_compute in Hp; discriminate].
  exists p. split; [done|].
  destruct (snapshot_scope_change s cp' fx_snapshot p (fx_cp 1) Hp) as [H _]; [|exact H].
  vm_compute. reflexivity.
Defined.

Lemma authority_redelivery_witness :
  ∃ p, prepare_event fx_conflicted (EPull (Batch fx_batch1)) = Ok p ∧
    prepare_event (prepared_state p) (EPull (Batch fx_batch1)) = Ok (mkPrepared 5 fx_pulled).
Proof.
  destruct (prepare_event fx_conflicted (EPull (Batch fx_batch1))) as [p|] eqn:Hp;
    [|vm_compute in Hp; discriminate].
  exists p. split; [done|].
  rewrite (authority_redelivery fx_conflicted (EPull (Batch fx_batch1)) p Hp) by eauto.
  vm_compute in Hp. injection Hp as <-. vm_compute. reflexivity.
Defined.

Lemma pull_batch_applies_exactly_witness :
  ∃ p, prepare_pull_response fx_conflicted (Batch fx_batch1) = Ok p ∧
    st_checkpoint (prepared_state p) = Some (fx_cp 1).
Proof.
  destruct (prepare_pull_response fx_conflicted (Batch fx_batch1)) as [p|] eqn:Hp;
    [|vm_compute in Hp; discriminate].
  exists p. split; [done|].
  destruct (pull_batch_applies_exactly fx_conflicted fx_batch1 p Hp)
    as (end_ & commits & Hshape & Hck & _).
  - intros end_ [= <-]. vm_compute. discriminate.
  - unfold batch_shape in Hshape. simpl in Hshape. injection Hshape as <- _. exact Hck.
Defined.
