(* ===== verification/PushProps.v ===== *)
(** * Properties of enqueueing, push outcomes, id mappings and conflict resolution. *)

From S2P Require Import Prelude Protocol Subscription ClientState SubscriptionState Validate IdMap Client SubscriptionClient Steps Runtime Fixtures Intent.

Section enqueue.
Context {V : Type} `{!EqDecision V}.
Implicit Types self s : DurableClientState V.

(** C20: the validator accepts exactly the states of the declarative invariant:
    well-formed distinct commits, outcomes and resolutions that fit their
    commits, no absent confirmed record, a checkpoint and reset coverage that
    fit the scope, valid subscriptions, and a flat id map none of whose local
    ids is mentioned any more. *)
Theorem validate_decides_invariant s : validate s = Ok tt ↔ ValidState s.
Proof. apply validate_ValidState. Qed.

(** No operation of the commit refers to a renamed local id. *)
Definition no_mapped_ids self (c : ClientCommit V) : Prop :=
  ∀ local, is_Some (st_id_map self !! local) → commit_contains_id c local = false.

Lemma durable_commits_snoc self c :
  durable_commits (set_outbox self (st_outbox self ++ [c])) ≡ₚ c :: durable_commits self.
Proof. unfold durable_commits. simpl. solve_Permutation. Qed.

Lemma mentions_snoc self c id :
  mentions (set_outbox self (st_outbox self ++ [c])) id ↔
  mentions self id ∨ commit_contains_id c id = true.
Proof.
  split.
  - intros [x H|k x H Hr|c' Hc Hi|r Hr Ho].
    + left. by eapply mentions_confirmed.
    + left. by eapply mentions_reference.
    + rewrite durable_commits_snoc in Hc. apply elem_of_cons in Hc as [->|Hc]; [by right|].
      left. by eapply mentions_commit.
    + left. by eapply mentions_outcome.
  - intros [[x H|k x H Hr|c' Hc Hi|r Hr Ho]|Hc].
    + by eapply mentions_confirmed.
    + by eapply mentions_reference.
    + eapply mentions_commit; [|done]. rewrite durable_commits_snoc. by right.
    + by eapply mentions_outcome.
    + eapply mentions_commit; [|done]. rewrite durable_commits_snoc. by left.
Qed.

Lemma resolution_wf_mono self s r :
  durable_commits self ⊆ durable_commits s → resolution_wf self r → resolution_wf s r.
Proof.
  intros Hsub H res Hres. destruct (H res Hres) as [? Hm]. split; [done|].
  destruct res; try done; destruct Hm as [? (c & ? & ?)]; split; eauto.
Qed.

Lemma SubscriptionsValid_owner (subs : DurableSubscriptions V) self s :
  st_partition_id s = st_partition_id self → st_client_id s = st_client_id self →
  st_requested_scope s = st_requested_scope self →
  st_subscription_revision s = st_subscription_revision self →
  st_checkpoint s = st_checkpoint self →
  SubscriptionsValid subs self → SubscriptionsValid subs s.
Proof.
  intros H1 H2 H3 H4 H5 [? Hreq ? ? Hauth Hslots ?]. split; try done.
  - intros id request Hid. specialize (Hreq id request Hid).
    unfold request_check in *. by rewrite H1, H2, H3, H4.
  - unfold authorization_check in *. by rewrite ?H1, ?H2, ?H3, ?H4, ?H5.
  - intros id slot Hid. destruct (Hslots id slot Hid) as [Hr ? ? ? ? ?]. split; try done.
    unfold slot_check in *. by rewrite ?H1, ?H2, ?H3, ?H4, ?H5.
Qed.

Lemma ValidState_enqueue self c :
  ValidState self →
  ValidState (set_outbox self (st_outbox self ++ [c])) ↔
  commit_wf c ∧ (commit_id c ∉ durable_ids self) ∧ no_mapped_ids self c.
Proof.
  intros [Hwf Hnd Hout Hres Hconf Hck Hcov Hsub Hmap Hloc].
  assert (durable_ids (set_outbox self (st_outbox self ++ [c]))
          ≡ₚ commit_id c :: durable_ids self) as Hids.
  { unfold durable_ids. by rewrite durable_commits_snoc. }
  split.
  - intros [Hwf' Hnd' _ _ _ _ _ _ _ Hloc']. rewrite durable_commits_snoc in Hwf'.
    rewrite Hids in Hnd'. apply Forall_cons in Hwf' as [? _].
    apply NoDup_cons in Hnd' as [? _]. split_and!; [done..|].
    intros l Hl. apply not_true_is_false. intros Hc. apply (Hloc' l Hl).
    apply mentions_snoc. by right.
  - intros (Hc & Hid & Hno). split; try done.
    + rewrite durable_commits_snoc. by constructor.
    + rewrite Hids. by constructor.
    + simpl. eapply Forall_impl; [exact Hres|]. intros r. apply resolution_wf_mono.
      intros x Hx. rewrite durable_commits_snoc. by right.
    + intros subs Hs. eapply SubscriptionsValid_owner, Hsub; done.
    + simpl. intros l Hl [Hm|Hc']%mentions_snoc; [by apply (Hloc l)|].
      by rewrite (Hno l Hl) in Hc'.
Qed.

(** C21: on a valid state, enqueueing a commit succeeds exactly when the commit is
    well formed, its id is new, it mentions no renamed local id and the revision
    is not exhausted; the prepared state is then the installed one with the
    commit last in the outbox at the next revision. *)
Theorem enqueue_succeeds_iff self c p :
  ValidState self →
  prepare_enqueue self c = Ok p ↔
  commit_wf c ∧ (commit_id c ∉ durable_ids self) ∧ no_mapped_ids self c ∧
  (st_revision self < u64_max)%N ∧
  p = mkPrepared (st_revision self)
        (set_revision (set_outbox self (st_outbox self ++ [c])) (st_revision self + 1)%N).
Proof.
  intros Hv. unfold prepare_enqueue. rewrite result_bind_Ok.
  assert (set_outbox self (st_outbox self ++ [c]) ≠ self) as Hne.
  { intros Heq%(f_equal (λ s, length (st_outbox s))). simpl in Heq.
    rewrite length_app in Heq. simpl in Heq. lia. }
  split.
  - intros (u & Hwf%validate_commit_spec & H). apply guard_bool_Ok in H as [_ H].
    apply prepare_Ok in H as [? _|_ Hle Hv']; [done|].
    apply ValidState_set_revision, ValidState_enqueue in Hv' as (? & ? & ?); [|done].
    split_and!; [done..|lia|done].
  - intros (Hwf & Hid & Hno & Hrev & ->). exists tt.
    split; [by apply validate_commit_spec|]. apply guard_bool_Ok. split.
    { apply not_true_is_false. by rewrite identity_exists_spec. }
    unfold prepare. rewrite decide_True by done.
    rewrite (proj2 (checked_add_Some u64_max (st_revision self) 1 _)) by (split; [done|lia]).
    simpl. rewrite (proj2 (validate_ValidState _ tt)); [done|].
    apply ValidState_set_revision, ValidState_enqueue; done.
Qed.
End enqueue.

Lemma enqueue_succeeds_iff_witness :
  ValidState fx_empty ∧ ∃ p, prepare_enqueue fx_empty fx_commit1 = Ok p.
Proof.
  assert (ValidState fx_empty) as Hv by (apply (validate_ValidState _ tt); vm_compute; reflexivity).
  split; [exact Hv|]. eexists. apply (enqueue_succeeds_iff fx_empty fx_commit1 _ Hv).
  split_and!; [split|..].
  - discriminate.
  - apply NoDup_singleton.
  - apply not_elem_of_nil.
  - intros l [? H]. simpl in H. by rewrite lookup_empty in H.
  - vm_compute. reflexivity.
  - reflexivity.
Defined.

(** ** Id mappings *)

Section mapping.
Context {V : Type} `{!EqDecision V}.
Implicit Types s : DurableClientState V.
Implicit Types m : IdMapping.

Lemma remap_id_not_local m x :
  local_id m ≠ canonical_id m → remap_record_id m x ≠ local_id m.
Proof. unfold remap_record_id. case_decide; congruence. Qed.

Lemma remap_id_cases m x y :
  remap_record_id m x = y → y = x ∨ y = canonical_id m.
Proof. unfold remap_record_id. case_decide; auto. Qed.

(** What a renamed id may be: never the local id; an id that occurred before, or
    the canonical id. *)
Definition renamed m (P : RecordId → Prop) (y : RecordId) : Prop :=
  y ≠ local_id m ∧ (P y ∨ y = canonical_id m).

Lemma renamed_intro m (P : RecordId → Prop) x y :
  local_id m ≠ canonical_id m → P x → remap_record_id m x = y → renamed m P y.
Proof.
  intros Hne HP Hy. split; [subst; by apply remap_id_not_local|].
  destruct (remap_id_cases _ _ _ Hy) as [->| ->]; auto.
Qed.

Lemma op_contains_remap m (op : Operation V) y :
  local_id m ≠ canonical_id m → op_contains_id y (remap_operation m op) = true →
  renamed m (λ x, op_contains_id x op = true) y.
Proof.
  intros Hne H. destruct op as [k b v ref|k b]; simpl in *.
  - apply orb_true_iff in H as [H%bool_decide_eq_true|H%bool_decide_eq_true].
    + eapply renamed_intro; [done| |exact H]. simpl. by rewrite bool_decide_eq_true_2.
    + destruct ref as [ref|]; [|done]. injection H as H.
      eapply renamed_intro; [done| |exact H]. simpl.
      by rewrite (bool_decide_eq_true_2 (Some ref = Some ref)), orb_true_r.
  - apply bool_decide_eq_true in H. eapply renamed_intro; [done| |exact H].
    simpl. by apply bool_decide_eq_true_2.
Qed.

Lemma commit_contains_remap m (c : ClientCommit V) y :
  local_id m ≠ canonical_id m → commit_contains_id (remap_commit m c) y = true →
  renamed m (λ x, commit_contains_id c x = true) y.
Proof.
  unfold commit_contains_id. intros Hne H. simpl in H.
  apply existsb_true_elem in H as (op & (op' & -> & Hin)%list_elem_of_fmap & H).
  apply (op_contains_remap _ _ _ Hne) in H as [? [?|?]]; [|by split; auto].
  split; [done|]. left. apply existsb_true_elem. eauto.
Qed.

Lemma reference_remap m (st : RecordState V) y :
  local_id m ≠ canonical_id m → state_reference (remap_record_state m st) = Some y →
  renamed m (λ x, state_reference st = Some x) y.
Proof.
  intros Hne H. destruct st as [|v n [ref|]|n]; simpl in *; try done.
  injection H as H. by eapply renamed_intro.
Qed.

Lemma outcome_contains_remap m (o : DurableOutcome V) y :
  local_id m ≠ canonical_id m → outcome_contains_id (remap_outcome m o) y = true →
  renamed m (λ x, outcome_contains_id o x = true) y.
Proof.
  intros Hne H. destruct o as [|i k st|]; simpl in *; try done.
  apply orb_true_iff in H as [H%bool_decide_eq_true|H%bool_decide_eq_true].
  - eapply renamed_intro; [done| |exact H]. simpl. by rewrite bool_decide_eq_true_2.
  - apply (reference_remap _ _ _ Hne) in H as [? [->|?]]; [|by split; auto].
    split; [done|]. left. apply orb_true_iff. right. by apply bool_decide_eq_true_2.
Qed.

Lemma move_confirmed_lookup s m conf k st :
  local_id m ≠ canonical_id m →
  move_confirmed s m = Ok (set_confirmed s conf) → conf !! k = Some st →
  k ≠ local_id m ∧
  (st_confirmed s !! k = Some st
   ∨ (k = canonical_id m ∧ st_confirmed s !! local_id m = Some st)).
Proof.
  unfold move_confirmed. intros Hne H Hk.
  destruct (st_confirmed s !! local_id m) as [ls|] eqn:Hl.
  - destruct (delete (local_id m) (st_confirmed s) !! canonical_id m) as [cs|].
    + apply guard_Ok in H as [_ H]. injection H as <-.
      apply lookup_delete_Some in Hk as [? ?]. auto.
    + injection H as <-.
      apply lookup_insert_Some in Hk as [[<- <-]|[? [? ?]%lookup_delete_Some]]; auto.
  - injection H as H%(f_equal st_confirmed). simpl in H. subst conf.
    split; [congruence|]. auto.
Qed.

(** Every id mentioned after a mapping was mentioned before or is canonical, and
    the local id is gone. *)
Lemma mentions_remap s m s' y :
  local_id m ≠ canonical_id m → st_id_map s !! local_id m = None →
  apply_id_mapping s m = Ok s' → mentions s' y → renamed m (mentions s) y.
Proof.
  intros Hne Hnew H Hy.
  apply apply_id_mapping_effect in H as [[_ ?]|(conf & -> & _ & Hmove)]; [congruence|].
  destruct Hy as [st Hk|k st Hk Hr|c Hc Hi|r Hr Ho]; simpl in *.
  - rewrite lookup_fmap in Hk. apply fmap_Some in Hk as (st0 & Hk & _).
    destruct (move_confirmed_lookup _ _ _ _ _ Hne Hmove Hk) as [? [?|[-> _]]].
    + split; [done|]. left. by eapply mentions_confirmed.
    + split; auto.
  - rewrite lookup_fmap in Hk. apply fmap_Some in Hk as (st0 & Hk & ->).
    apply (reference_remap _ _ _ Hne) in Hr as [? [Href|?]]; [|by split; auto].
    split; [done|]. left.
    destruct (move_confirmed_lookup _ _ _ _ _ Hne Hmove Hk) as [_ [?|[_ ?]]];
      by eapply mentions_reference.
  - assert (∃ c0, c0 ∈ durable_commits s ∧ c = remap_commit m c0) as (c0 & Hc0 & ->).
    { apply elem_of_durable_commits in Hc as [Hc|(r & Hr & ->)]; simpl in *.
      - apply list_elem_of_fmap in Hc as (c0 & -> & ?). exists c0. split; [|done].
        apply elem_of_durable_commits. by left.
      - apply list_elem_of_fmap in Hr as (r0 & -> & ?). exists (local_commit r0).
        split; [|done]. apply elem_of_durable_commits. eauto. }
    apply (commit_contains_remap _ _ _ Hne) in Hi as [? [?|?]]; [|by split; auto].
    split; [done|]. left. by eapply mentions_commit.
  - apply list_elem_of_fmap in Hr as (r0 & -> & Hr0).
    apply (outcome_contains_remap _ _ _ Hne) in Ho as [? [?|?]]; [|by split; auto].
    split; [done|]. left. by eapply mentions_outcome.
Qed.

(** An accepted id mapping is a complete rename: afterwards the id map is flat
    and sends the local id to the canonical one, no renamed local id is mentioned
    anywhere in the replicated data, every mentioned id was mentioned before or is
    the canonical id, and applying the same mapping again changes nothing. *)
Theorem id_mapping_renames s m s' :
  id_map_flat (st_id_map s) →
  (∀ l, is_Some (st_id_map s !! l) → ¬ mentions s l) →
  apply_id_mapping s m = Ok s' →
  id_map_flat (st_id_map s') ∧
  st_id_map s' !! local_id m = Some (canonical_id m) ∧
  (∀ l, is_Some (st_id_map s' !! l) → ¬ mentions s' l) ∧
  (∀ y, mentions s' y → mentions s y ∨ y = canonical_id m) ∧
  apply_id_mapping s' m = Ok s'.
Proof.
  intros Hflat Hno H. pose proof H as [Hg _]%guard_Ok. apply refusal_or in Hg as [Hne Hc].
  apply eq_None_not_Some in Hc.
  pose proof H as [[-> Hl]|(conf & Hs' & Hl & Hmove)]%apply_id_mapping_effect.
  { split_and!; auto. }
  assert (st_id_map s' = <[local_id m := canonical_id m]> (remap_record_id m <$> st_id_map s))
    as Hmap by by rewrite Hs'.
  assert (id_map_flat (st_id_map s')) as Hflat'
    by (rewrite Hmap; by apply id_map_flat_remap).
  assert (st_id_map s' !! local_id m = Some (canonical_id m)) as Hl'
    by (rewrite Hmap; by apply lookup_insert_eq).
  pose proof (λ y, mentions_remap s m s' y Hne Hl H) as Hren.
  split_and!; [done|done| | |].
  - intros l Hin Hm. apply Hren in Hm as [Hnl [Hm| ->]].
    + apply (Hno l); [|done]. rewrite Hmap, lookup_insert_ne, lookup_fmap in Hin by done.
      by apply fmap_is_Some in Hin.
    + destruct (Hflat' _ _ Hl') as [_ ?]. by destruct Hin; congruence.
  - intros y [_ ?]%Hren. done.
  - unfold apply_id_mapping. destruct (Hflat' _ _ Hl') as [_ Hcn].
    rewrite decide_False by (intros [?|[? ?]]; congruence).
    by rewrite Hl', decide_True.
Qed.
End mapping.

Lemma id_mapping_renames_witness :
  ∃ s', apply_id_mapping fx_pending fx_map1 = Ok s' ∧
    st_id_map s' !! "local1" = Some "item1" ∧ ¬ mentions s' "local1".
Proof.
  destruct (apply_id_mapping fx_pending fx_map1) as [s'|] eqn:Hs;
    [|vm_compute in Hs; discriminate].
  assert (st_id_map fx_pending = ∅) as Hempty by (vm_compute; reflexivity).
  destruct (id_mapping_renames fx_pending fx_map1 s') as (_ & Hl & Hno & _).
  - rewrite Hempty. intros ? ? H. by rewrite lookup_empty in H.
  - rewrite Hempty. intros ? [? H]. by rewrite lookup_empty in H.
  - exact Hs.
  - exists s'. split; [done|]. split; [exact Hl|]. apply Hno. by exists "item1".
Defined.

(** ** Redelivered push responses *)

Section push.
Context {V : Type} `{!EqDecision V}.
Implicit Types self s : DurableClientState V.

Lemma find_first_app {A} (P : A → bool) l x :
  find_first P l = None → P x = true → find_first P (l ++ [x]) = Some x.
Proof.
  unfold find_first. induction l as [|y l IH]; simpl; [by intros _ ->|].
  destruct (P y); [done|]. intros H Hx. rewrite fmap_None in H. apply fmap_None in H.
  rewrite <-(IH ltac:(by rewrite H) Hx). by destruct (position P (l ++ [x])).
Qed.

Lemma find_first_fmap_None {A} (P : A → bool) (f : A → A) l :
  (∀ x, P (f x) = P x) → find_first P l = None → find_first P (f <$> l) = None.
Proof.
  intros Hf. rewrite !find_first_None, Forall_fmap. intros H.
  eapply Forall_impl; [exact H|]. intros x Hx. simpl. by rewrite Hf.
Qed.

Lemma find_by_id_None self id :
  find_first (λ resolved, bool_decide (commit_id (local_commit resolved) = id))
    (st_outcomes self) = None →
  ∀ ms s, st_outcomes s = (λ r : ResolvedCommit V, mkResolved (remap_all ms (local_commit r))
      (remap_outcome_all ms (outcome r)) (resolution r) (covered_by_reset r))
      <$> st_outcomes self →
  find_first (λ resolved, bool_decide (commit_id (local_commit resolved) = id))
    (st_outcomes s) = None.
Proof.
  intros H ms s ->. apply find_first_fmap_None; [|done]. intros r. simpl.
  unfold commit_id. by rewrite remap_all_identity.
Qed.

(** The outcome recorded for the response is the one a retry finds. *)
Lemma push_recorded self response policy p :
  prepare_push_response_with_policy self response policy = Ok p →
  presp_schema_version response = V1 ∧
  presp_partition_id response = st_partition_id self ∧
  presp_client_id response = st_client_id self ∧
  ∃ r, find_first (λ resolved, bool_decide (commit_id (local_commit resolved)
         = client_commit_id (outcome_identity (presp_outcome response))))
         (st_outcomes (prepared_state p)) = Some r ∧ outcome r = presp_outcome response.
Proof.
  unfold prepare_push_response_with_policy. intros [Hg H]%guard_Ok. destruct_guards.
  split_and!; [done..|].
  destruct (find_first _ (st_outcomes self)) as [r|] eqn:Hf.
  - destruct (decide (outcome r = _)) as [Ho|]; [|done].
    exists r. split; [|done]. rewrite <-Hf.
    apply prepare_Ok in H as [_ _|? _ _]; [done|done].
  - destruct (position _ _) as [[index c]|] eqn:Hpos; [|done].
    apply position_Some in Hpos as (_ & Hid%bool_decide_eq_true & _).
    apply result_bind_Ok in H as (next & Hmap & H).
    apply mappings_effect in Hmap as [_ (ms & _ & Hoc)]. simpl in Hoc.
    apply prepare_Ok, (prepared_field st_outcomes) in H; [|done]. rewrite H. simpl.
    eexists. split; [apply find_first_app|done].
    + eapply find_by_id_None; [exact Hf|exact Hoc].
    + simpl. apply bool_decide_eq_true_2. unfold commit_id.
      change (foldl _ c _) with (remap_all (accepted_mappings (presp_outcome response)) c).
      by rewrite remap_all_identity, Hid.
Qed.

(** A push response delivered again, under any conflict policy, succeeds and
    changes nothing; a response that reports a different outcome for a commit whose
    outcome is recorded is refused. *)
Theorem push_redelivery self response policy p :
  prepare_push_response_with_policy self response policy = Ok p →
  (∀ policy', prepare_push_response_with_policy (prepared_state p) response policy'
     = Ok (mkPrepared (st_revision (prepared_state p)) (prepared_state p))) ∧
  (∀ other policy', presp_schema_version other = V1 →
     presp_partition_id other = st_partition_id self →
     presp_client_id other = st_client_id self →
     outcome_identity (presp_outcome other) = outcome_identity (presp_outcome response) →
     presp_outcome other ≠ presp_outcome response →
     prepare_push_response_with_policy (prepared_state p) other policy'
       = Err OutcomeIdentityMismatch).
Proof.
  intros H. destruct (push_recorded _ _ _ _ H) as (Hv & Hpart & Hclient & r & Hf & Ho).
  destruct (prepare_event_step self (EPush response policy) p H) as (next & Hs & Has).
  destruct (prepared_advances _ _ _ _ Hs Has) as (Hp' & Hc' & _).
  split.
  - intros policy'. unfold prepare_push_response_with_policy.
    rewrite Hpart, Hclient, Hp', Hc', Hv, decide_False by tauto. simpl.
    rewrite Hf, decide_True by done.
    apply prepare_same. by eapply prepared_state_valid.
  - intros other policy' Hv' Hpo Hco Hid Hne. unfold prepare_push_response_with_policy.
    rewrite Hpo, Hco, Hp', Hc', Hv', decide_False by tauto. simpl.
    rewrite Hid, Hf, Ho, decide_False by congruence. done.
Qed.
End push.

Lemma push_redelivery_witness :
  ∃ p, prepare_push_response_with_policy fx_pending fx_accept1 Manual = Ok p ∧
    prepare_push_response_with_policy (prepared_state p) fx_accept1 PreferServerV1
      = Ok (mkPrepared 3 fx_accepted) ∧
    prepare_push_response_with_policy (prepared_state p)
      (fx_resp (Rejected fx_id1 Unauthorized)) Manual = Err OutcomeIdentityMismatch.
Proof.
  destruct (prepare_push_response_with_policy fx_pending fx_accept1 Manual) as [p|] eqn:Hp;
    [|vm_compute in Hp; discriminate].
  exists p. split; [done|].
  destruct (push_redelivery fx_pending fx_accept1 Manual p Hp) as [Ha Hb]. split.
  - rewrite Ha. vm_compute in Hp. injection Hp as <-. vm_compute. reflexivity.
  - apply Hb; [reflexivity..|discriminate].
Defined.

(** ** Conflict resolution *)

Section resolve.
Context {V : Type} `{!EqDecision V}.
Implicit Types self s : DurableClientState V.
Implicit Types q : ConflictResolutionRequest V.

Lemma position_alter {A} (P : A → bool) (f : A → A) l i x :
  position P l = Some (i, x) → P (f x) = true →
  position P (alter f i l) = Some (i, f x).
Proof.
  rewrite !position_Some. intros (Hi & _ & Hlt) Hf. split_and!; [|done|].
  - by rewrite list_lookup_alter_eq, Hi.
  - intros j y Hj. rewrite list_lookup_alter_ne by lia. by apply Hlt.
Qed.

(** A durable commit is determined by its id. *)
Lemma durable_commit_unique s c c' :
  ValidState s → c ∈ durable_commits s → c' ∈ durable_commits s →
  commit_id c = commit_id c' → c = c'.
Proof.
  intros Hv (i & Hi)%list_elem_of_lookup (j & Hj)%list_elem_of_lookup Hid.
  assert (i = j) as ->; [|congruence].
  eapply (NoDup_lookup (durable_ids s)); [apply (vs_distinct _ Hv)|..];
    unfold durable_ids; rewrite list_lookup_fmap; [by rewrite Hi|by rewrite Hj, Hid].
Qed.

(** At most one request repeats a recorded decision. *)
Lemma resolution_matches_unique s res q q' :
  ValidState s → resolution_request_matches s res q = true →
  resolution_request_matches s res q' = true → q = q'.
Proof.
  intros Hv. assert (∀ identity (c c' : ClientCommit V),
    bool_decide (identity = commit_identity c)
      && existsb (λ commit, bool_decide (commit = c)) (durable_commits s) = true →
    bool_decide (identity = commit_identity c')
      && existsb (λ commit, bool_decide (commit = c')) (durable_commits s) = true →
    c = c') as Huniq.
  { intros identity c c' [H1%bool_decide_eq_true H2]%andb_true_iff
      [H1'%bool_decide_eq_true H2']%andb_true_iff.
    apply existsb_true_elem in H2 as (? & H2 & ->%bool_decide_eq_true).
    apply existsb_true_elem in H2' as (? & H2' & ->%bool_decide_eq_true).
    eapply durable_commit_unique; [done..|]. unfold commit_id. congruence. }
  destruct res, q, q'; simpl; try done; intros; f_equal; by eapply Huniq.
Qed.

Lemma resolved_answer s id i r res q q' :
  ValidState s → position (is_conflict_for id) (st_outcomes s) = Some (i, r) →
  resolution r = Some res → resolution_request_matches s res q = true →
  (q' = q → prepare_resolve_conflict s id q' = Ok (mkPrepared (st_revision s) s)) ∧
  (q' ≠ q → prepare_resolve_conflict s id q' = Err (ConflictAlreadyResolved id)).
Proof.
  intros Hv Hpos Hres Hm. unfold prepare_resolve_conflict. rewrite Hpos, Hres. split.
  - intros ->. rewrite Hm. by apply prepare_same.
  - intros Hne. destruct (resolution_request_matches s res q') eqn:Hm'; [|done].
    by destruct Hne; eapply resolution_matches_unique.
Qed.

(** A successful resolution records the decision of its request. *)
Lemma resolve_records self id q p :
  prepare_resolve_conflict self id q = Ok p →
  ∃ i r res, position (is_conflict_for id) (st_outcomes (prepared_state p)) = Some (i, r) ∧
    resolution r = Some res ∧
    resolution_request_matches (prepared_state p) res q = true.
Proof.
  unfold prepare_resolve_conflict. intros H.
  destruct (position _ _) as [[i r]|] eqn:Hpos; [|done].
  destruct (resolution r) as [res|] eqn:Hres.
  { destruct (resolution_request_matches self res q) eqn:Hm; [|done].
    apply prepare_Ok in H as [_ _|? _ _]; [|done]. simpl. eauto 10. }
  destruct (outcome r) as [|identity rid auth|] eqn:Ho; [done| |done].
  apply result_bind_Ok in H as (next & Hn & Has%prepare_Ok).
  pose proof (prepared_field st_outcomes _ _ _ (λ _ _, eq_refl) Has) as Hout.
  pose proof (prepared_field durable_commits _ _ _ (λ _ _, eq_refl) Has) as Hdur.
  assert (∀ res, position (is_conflict_for id)
    (alter (set_resolution res) i (st_outcomes self)) = Some (i, set_resolution res r)) as Ha.
  { intros res. apply position_alter; [done|]. by apply position_elem_of in Hpos as [_ ?]. }
  assert (∀ res replacement, next = set_outbox (set_outcomes self
      (alter (set_resolution res) i (st_outcomes self))) (st_outbox self ++ [replacement]) →
    existsb (λ c, bool_decide (c = replacement)) (durable_commits (prepared_state p)) = true)
    as Hrep.
  { intros res rep ->. rewrite Hdur. apply existsb_true_elem. exists rep.
    rewrite bool_decide_eq_true. split; [|done]. apply elem_of_durable_commits. left.
    simpl. set_solver. }
  destruct q as [|rep|rep]; simpl in Hn.
  - injection Hn as <-. exists i, (set_resolution KeepServer r), KeepServer.
    rewrite Hout. split_and!; [apply Ha|done|done].
  - apply result_bind_Ok in Hn as (_ & _ & Hn). apply guard_bool_Ok in Hn as [_ [= Hn]].
    exists i, (set_resolution (KeepLocal (commit_identity rep)) r),
      (KeepLocal (commit_identity rep)).
    rewrite Hout, <-Hn. split_and!; [apply Ha|done|]. simpl.
    by rewrite (bool_decide_eq_true_2 (_ = _)), (Hrep _ rep (eq_sym Hn)).
  - apply result_bind_Ok in Hn as (_ & _ & Hn). apply guard_bool_Ok in Hn as [_ [= Hn]].
    exists i, (set_resolution (Merge (commit_identity rep)) r), (Merge (commit_identity rep)).
    rewrite Hout, <-Hn. split_and!; [apply Ha|done|]. simpl.
    by rewrite (bool_decide_eq_true_2 (_ = _)), (Hrep _ rep (eq_sym Hn)).
Qed.

(** A conflict is decided exactly once: after a resolution request has
    succeeded, repeating it succeeds and changes nothing, and every other request
    for the same conflict is refused as already resolved. *)
Theorem resolve_decides_once self id q p :
  prepare_resolve_conflict self id q = Ok p →
  prepare_resolve_conflict (prepared_state p) id q
    = Ok (mkPrepared (st_revision (prepared_state p)) (prepared_state p)) ∧
  ∀ q', q' ≠ q →
    prepare_resolve_conflict (prepared_state p) id q' = Err (ConflictAlreadyResolved id).
Proof.
  intros H. destruct (resolve_records _ _ _ _ H) as (i & r & res & Hpos & Hres & Hm).
  destruct (prepare_event_facts self (EResolve id q) p H) as (Hv & _).
  split; [|intros q' Hne]; by eapply resolved_answer.
Qed.

(** The record state a replacement is based on. *)
Definition based_on (op : Operation V) (authoritative : RecordState V) : Prop :=
  match op with
  | Upsert _ BaseAbsent _ _ => authoritative = Absent
  | Upsert _ (Exact base) _ _ => state_version authoritative = Some base
  | Delete _ base => ∃ value reference, authoritative = Present value base reference
  end.

(** The same change, whatever the base version. *)
Definition same_change (a b : Operation V) : Prop :=
  match a, b with
  | Upsert id _ v ref, Upsert id' _ v' ref' => id = id' ∧ v = v' ∧ ref = ref'
  | Delete id _, Delete id' _ => id = id'
  | _, _ => False
  end.

Lemma base_spec (c : ClientCommit V) rid auth :
  commit_matches_authoritative_base c rid auth = true →
  ∃ op, op ∈ operations c ∧ op_record_id op = rid ∧ based_on op auth.
Proof.
  unfold commit_matches_authoritative_base. intros H.
  destruct (find_first _ _) as [op|] eqn:Hf; [|done].
  apply find_first_Some in Hf as [Hin Hid%bool_decide_eq_true].
  exists op. split_and!; [done..|].
  destruct op as [? [|b] ? ?|? b], auth as [|v n ref|n]; simpl in *; try done;
    apply N.eqb_eq in H; subst; eauto.
Qed.

Lemma same_intent_spec (c c' : ClientCommit V) :
  same_intent c c' = true → Forall2 same_change (operations c) (operations c').
Proof.
  unfold same_intent. intros [Hlen%bool_decide_eq_true Hz]%andb_true_iff.
  apply forallb_true_Forall in Hz. revert Hlen Hz.
  generalize (operations c) (operations c'). intros l. induction l as [|a l IH];
    intros [|b l']; simpl; intros Hlen Hz; try done; constructor.
  - apply Forall_cons in Hz as [Hab _]. destruct a, b; simpl in *; try done.
    + apply andb_true_iff in Hab as [[?%bool_decide_eq_true ?%bool_decide_eq_true]%andb_true_iff
        ?%bool_decide_eq_true]. done.
    + by apply bool_decide_eq_true in Hab.
  - apply Forall_cons in Hz as [_ Hz]. apply IH; [lia|done].
Qed.

(** Keeping the local side (or merging) replaces the conflicted commit by a
    new well-formed commit under a fresh id that is based on exactly the
    authoritative state reported for the conflicting record; keeping the local
    side repeats the same changes in the same order.  The replacement becomes the
    last pending commit, the conflict stays recorded with the decision, and
    nothing else changes. *)
Theorem resolve_rebases_on_authority self id q p rep :
  prepare_resolve_conflict self id q = Ok p →
  q = ReqKeepLocal rep ∨ q = ReqMerge rep →
  prepared_state p = self ∨
  ∃ i r identity rid auth res,
    st_outcomes self !! i = Some r ∧ commit_id (local_commit r) = id ∧
    outcome r = Conflict identity rid auth ∧ resolution r = None ∧
    commit_wf rep ∧ (commit_id rep ∉ durable_ids self) ∧
    (∃ op, op ∈ operations rep ∧ op_record_id op = rid ∧ based_on op auth) ∧
    (q = ReqKeepLocal rep →
       Forall2 same_change (operations (local_commit r)) (operations rep)) ∧
    prepared_state p = set_revision
      (set_outbox (set_outcomes self (alter (set_resolution res) i (st_outcomes self)))
         (st_outbox self ++ [rep])) (st_revision self + 1)%N ∧
    res = match q with ReqKeepLocal _ => KeepLocal (commit_identity rep)
          | _ => Merge (commit_identity rep) end.
Proof.
  intros H Hq. destruct (prepare_event_step self (EResolve id q) p H) as (next & Hs & Has).
  inversion Hs as [| | | | |? ? i r identity rid auth res rep' Hk Hi Hid Hn Ho Hwf Hfr Hb
    | | | |? ? ? ? ? [|[? ?]]| |? ? Hsub]; subst; try done.
  - left. by destruct Has.
  - by destruct Hq.
  - right. assert (rep' = rep) as ->.
    { destruct Hk as [(-> & _)|(-> & _)]; destruct Hq; congruence. }
    exists i, r, identity, rid, auth, res. apply base_spec in Hb.
    split_and!; try done.
    + intros ->. destruct Hk as [(_ & _ & ?)|[? _]]; [|done]. by apply same_intent_spec.
    + destruct Has as [Heq _|_ _ _]; [|done]. exfalso.
      apply (f_equal (λ s, length (st_outbox s))) in Heq. simpl in Heq.
      rewrite length_app in Heq. simpl in Heq. lia.
    + destruct Hk as [(-> & -> & _)|(-> & ->)]; done.
  - exfalso. by inversion Hsub as [| |? ? ? [|[? [? _]]]|].
Qed.
End resolve.

Definition fx_rebased2 : ClientCommit string :=
  mkCommit (mkIdentity "c3" "f3") [Upsert "item2" (Exact 5) "bread" (Some "item1")].

Lemma resolve_decides_once_witness :
  ∃ p, prepare_resolve_conflict fx_conflicted "c2" (ReqKeepLocal fx_rebased2) = Ok p ∧
    prepare_resolve_conflict (prepared_state p) "c2" ReqKeepServer
      = Err (ConflictAlreadyResolved "c2").
Proof.
  destruct (prepare_resolve_conflict fx_conflicted "c2" (ReqKeepLocal fx_rebased2))
    as [p|] eqn:Hp; [|vm_compute in Hp; discriminate].
  exists p. split; [done|].
  destruct (resolve_decides_once fx_conflicted "c2" _ p Hp) as [_ H]. by apply H.
Defined.

Lemma resolve_rebases_on_authority_witness :
  ∃ p, prepare_resolve_conflict fx_conflicted "c2" (ReqKeepLocal fx_rebased2) = Ok p ∧
    ∃ r, r ∈ st_outcomes fx_conflicted ∧ commit_id (local_commit r) = "c2" ∧
      Forall2 same_change (operations (local_commit r)) (operations fx_rebased2).
Proof.
  destruct (prepare_resolve_conflict fx_conflicted "c2" (ReqKeepLocal fx_rebased2))
    as [p|] eqn:Hp; [|vm_compute in Hp; discriminate].
  exists p. split; [done|].
  destruct (resolve_rebases_on_authority fx_conflicted "c2" (ReqKeepLocal fx_rebased2) p
    fx_rebased2 Hp (or_introl eq_refl))
    as [Heq|(i & r & identity & rid & auth & res & Hi & Hid & _ & _ & _ & _ & _ & Hch & _)].
  - exfalso. vm_compute in Hp. injection Hp as <-. vm_compute in Heq. discriminate.
  - exists r. split; [|split; [exact Hid|by apply Hch]].
    apply list_elem_of_lookup. by exists i.
Defined.
