(* ===== verification/OptimisticProps.v ===== *)
(** * Properties of the optimistic view. *)

From S2P Require Import Prelude Protocol Subscription ClientState SubscriptionState Validate IdMap Client SubscriptionClient Steps Runtime Fixtures Intent PushProps.

Section optimistic.
Context {V : Type} `{!EqDecision V}.
Implicit Types self s : DurableClientState V.

(** The last operation on a record. *)
Definition last_operation (ops : list (Operation V)) (id : RecordId)
  : option (Operation V) := last (filter (λ op, op_record_id op = id) ops).

Lemma projection_fold (ops : list (Operation V))
    (projection : gmap string (OptimisticRecord V)) id :
  foldl (λ m op, <[op_record_id op := optimistic_of_operation op]> m) projection ops !! id =
  match last_operation ops id with
  | Some op => Some (optimistic_of_operation op)
  | None => projection !! id
  end.
Proof.
  unfold last_operation. induction ops as [|op ops IH] using rev_ind; [done|].
  rewrite foldl_app, filter_app. simpl.
  destruct (decide (op_record_id op = id)) as [Hop|Hop].
  - rewrite filter_cons_True, filter_nil, last_snoc by done. rewrite Hop.
    by rewrite lookup_insert_eq.
  - rewrite filter_cons_False, filter_nil, app_nil_r, <-IH by done.
    by rewrite lookup_insert_ne.
Qed.

Lemma projection_lookup s id :
  optimistic_projection s !! id =
  match last_operation (optimistic_operations s) id with
  | Some op => Some (optimistic_of_operation op)
  | None => st_confirmed s !! id ≫= optimistic_of_state
  end.
Proof. unfold optimistic_projection. by rewrite projection_fold, lookup_omap. Qed.

(** A resolved commit whose acceptance the authority's log has not yet brought back:
    no snapshot contains it and it lies beyond the pulled sequence. *)
Definition awaiting s (r : ResolvedCommit V) : Prop :=
  covered_by_reset r = false ∧
  match outcome r with
  | Accepted _ seq _ => (default 0 (sequence ∘ cursor <$> st_checkpoint s) < seq)%N
  | _ => False
  end.

#[global] Instance awaiting_decision s r : Decision (awaiting s r).
Proof. unfold awaiting. destruct (outcome r); apply _. Defined.

(** The operation [op] writes the record [id]. *)
Definition writes_record (id : RecordId) (op : Operation V) : Prop :=
  match op with Upsert id' _ _ _ | Delete id' _ => id' = id end.

#[global] Instance writes_record_decision id op : Decision (writes_record id op).
Proof. destruct op; simpl; apply _. Defined.

(** The writes the confirmed records do not show yet, oldest first. *)
Definition unconfirmed_writes s : list (Operation V) :=
  ((local_commit <$> filter (awaiting s) (st_outcomes s)) ++ st_outbox s) ≫= operations.

Lemma accepted_not_pulled_awaiting s :
  accepted_not_pulled s = local_commit <$> filter (awaiting s) (st_outcomes s).
Proof.
  unfold accepted_not_pulled. set (applied := match st_checkpoint s with Some _ => _ | _ => _ end).
  assert (applied = default 0%N (sequence ∘ cursor <$> st_checkpoint s)) as Happ
    by by unfold applied; destruct (st_checkpoint s).
  induction (st_outcomes s) as [|r rs IH]; [done|]. csimpl. rewrite filter_cons.
  destruct (decide (awaiting s r)) as [Hw|Hw]; unfold awaiting in Hw; rewrite <-Happ in Hw.
  - destruct Hw as [-> Hw]. destruct (outcome r); try done. apply N.ltb_lt in Hw.
    rewrite Hw. simpl. by f_equal.
  - destruct (outcome r) as [identity seq ms| |]; try done. destruct (_ && _) eqn:Hb; [|done].
    apply andb_true_iff in Hb as [?%negb_true_iff ?%N.ltb_lt]. tauto.
Qed.

Lemma last_operation_writes ops id : last_operation ops id = last (filter (writes_record id) ops).
Proof.
  unfold last_operation. f_equal. apply list_filter_iff. by intros [].
Qed.

(** C24: the optimistic view of a record is the change of the last operation that
    writes it among the accepted commits that are not yet pulled nor covered by a
    snapshot, in outcome order, followed by the pending commits, in queue order: an
    upsert shows its value, base version and reference, a delete a deletion.  When
    no such operation writes the record, the view is the confirmed record. *)
Theorem optimistic_view_last_write s id :
  optimistic_projection s !! id =
  match last (filter (writes_record id) (unconfirmed_writes s)) with
  | Some (Upsert _ base value reference) => Some (OptPresent value base reference)
  | Some (Delete _ base) => Some (OptDeleted base)
  | None =>
      match st_confirmed s !! id with
      | Some (Present value version reference) =>
          Some (OptPresent value (Exact version) reference)
      | Some (Tombstone version) => Some (OptDeleted version)
      | Some Absent | None => None
      end
  end.
Proof.
  rewrite projection_lookup. unfold optimistic_operations, unconfirmed_writes.
  rewrite accepted_not_pulled_awaiting, last_operation_writes.
  destruct (last _) as [[]|]; [done..|]. by destruct (st_confirmed s !! id) as [[]|].
Qed.

Lemma last_operation_app ops ops' id :
  last_operation (ops ++ ops') id =
  match last_operation ops' id with Some op => Some op | None => last_operation ops id end.
Proof.
  unfold last_operation. rewrite filter_app, last_app. done.
Qed.

Lemma last_operation_NoDup ops op :
  NoDup (op_record_id <$> ops) → op ∈ ops →
  last_operation ops (op_record_id op) = Some op.
Proof.
  unfold last_operation. induction ops as [|o ops IH]; [by intros _ ?%not_elem_of_nil|].
  csimpl. intros [Hn Hnd]%NoDup_cons [->|Hin]%elem_of_cons.
  - rewrite filter_cons_True by done.
    assert (filter (λ x, op_record_id x = op_record_id o) ops = []) as ->; [|done].
    apply elem_of_nil_inv. intros x [Hx Hin]%list_elem_of_filter. apply Hn. rewrite <-Hx.
    by apply list_elem_of_fmap_2.
  - rewrite filter_cons. case_decide as Hd; [|by apply IH].
    exfalso. apply Hn. rewrite Hd. by apply list_elem_of_fmap_2.
Qed.

(** A client reads its own writes: right after a commit is enqueued the view
    of every record it touches is the commit's change, and the view of every other
    record is unchanged. *)
Theorem enqueue_read_your_writes self c p :
  prepare_enqueue self c = Ok p →
  (∀ op, op ∈ operations c →
     optimistic_projection (prepared_state p) !! op_record_id op
       = Some (optimistic_of_operation op)) ∧
  (∀ id, id ∉ op_record_id <$> operations c →
     optimistic_projection (prepared_state p) !! id = optimistic_projection self !! id).
Proof.
  intros H. destruct (prepare_event_step self (EEnqueue c) p H) as (next & Hs & Has).
  pose proof (prepared_field optimistic_projection _ _ _ (λ _ _, eq_refl) Has) as ->.
  assert (commit_wf c ∧ next = set_outbox self (st_outbox self ++ [c])) as [Hwf ->].
  { inversion Hs as [| | | | | | | | |? ? ? ? ? [|[? ?]]| |? ? Hsub]; subst; try done.
    exfalso. by inversion Hsub as [| |? ? ? [|[? [? _]]]|]. }
  assert (optimistic_operations (set_outbox self (st_outbox self ++ [c]))
          = optimistic_operations self ++ operations c) as Hops.
  { unfold optimistic_operations.
    change (accepted_not_pulled (set_outbox _ _)) with (accepted_not_pulled self).
    simpl. rewrite app_assoc, bind_app. simpl. by rewrite app_nil_r. }
  split.
  - intros op Hin. rewrite projection_lookup, Hops, last_operation_app.
    destruct Hwf as [_ Hnd]. by rewrite (last_operation_NoDup _ _ Hnd Hin).
  - intros id Hid. rewrite !projection_lookup, Hops, last_operation_app.
    replace (last_operation (operations c) id) with (@None (Operation V)); [done|].
    symmetry. apply last_None, elem_of_nil_inv. intros op [Hop Hin]%list_elem_of_filter.
    apply Hid. rewrite <-Hop. by apply list_elem_of_fmap_2.
Qed.

(** A valid state has no outcome for a pending commit. *)
Lemma pending_no_outcome self c :
  ValidState self → c ∈ st_outbox self →
  find_first (λ r, bool_decide (commit_id (local_commit r) = commit_id c))
    (st_outcomes self) = None.
Proof.
  intros Hv Hc. apply find_first_None, Forall_forall. intros r Hr.
  apply bool_decide_eq_false_2. intros Heq.
  pose proof (vs_distinct _ Hv) as Hnd. rewrite durable_ids_alt in Hnd.
  apply NoDup_app in Hnd as (_ & Hdisj & _).
  apply (Hdisj (commit_id c)); [by apply list_elem_of_fmap_2|].
  rewrite <-Heq. by apply (list_elem_of_fmap_2 (λ o, commit_id (local_commit o))).
Qed.

Lemma push_accept_head self c rest seq :
  ValidState self → st_outbox self = c :: rest →
  prepare_push_response self (mkPushResponse V1 (st_partition_id self) (st_client_id self)
    (Accepted (commit_identity c) seq [])) =
  prepare self (set_outcomes (set_outbox self rest) (st_outcomes self ++
    [mkResolved c (Accepted (commit_identity c) seq []) None false])).
Proof.
  intros Hv Hout. unfold prepare_push_response, prepare_push_response_with_policy.
  rewrite decide_False by (simpl; tauto). simpl.
  fold (commit_id c). rewrite pending_no_outcome; [|done|rewrite Hout; by left].
  rewrite Hout. simpl. by rewrite bool_decide_eq_true_2.
Qed.

(** The view does not flicker while an accepted commit travels through the
    authority's log: when the oldest pending commit is accepted at a sequence the
    client has not pulled yet, the whole optimistic view stays the same. *)
Theorem accepted_stays_visible self c rest seq p :
  ValidState self → st_outbox self = c :: rest →
  (default 0 (sequence ∘ cursor <$> st_checkpoint self) < seq)%N →
  prepare_push_response self (mkPushResponse V1 (st_partition_id self) (st_client_id self)
    (Accepted (commit_identity c) seq [])) = Ok p →
  optimistic_projection (prepared_state p) = optimistic_projection self.
Proof.
  intros Hv Hout Hseq H. rewrite (push_accept_head _ _ _ _ Hv Hout) in H.
  apply prepare_Ok, (prepared_field optimistic_projection) in H; [|done]. rewrite H.
  unfold optimistic_projection. simpl. f_equal. unfold optimistic_operations. f_equal.
  unfold accepted_not_pulled. simpl. rewrite omap_app, Hout. simpl.
  assert ((match st_checkpoint self with Some c => sequence (cursor c) | None => 0%N end
          <? seq)%N = true) as ->.
  { apply N.ltb_lt. by destruct (st_checkpoint self). }
  simpl. by rewrite <-app_assoc.
Qed.
End optimistic.

Lemma enqueue_read_your_writes_witness :
  ∃ p, prepare_enqueue fx_empty fx_commit1 = Ok p ∧
    optimistic_projection (prepared_state p) !! "local1" = Some (OptPresent "milk" BaseAbsent None).
Proof.
  destruct (prepare_enqueue fx_empty fx_commit1) as [p|] eqn:Hp;
    [|vm_compute in Hp; discriminate].
  exists p. split; [done|].
  destruct (enqueue_read_your_writes fx_empty fx_commit1 p Hp) as [H _].
  apply (H (Upsert "local1" BaseAbsent "milk" None)). by left.
Defined.

Lemma accepted_stays_visible_witness :
  ∃ p, prepare_push_response fx_pending (fx_resp (Accepted fx_id1 7 [])) = Ok p ∧
    optimistic_projection (prepared_state p) = optimistic_projection fx_pending.
Proof.
  destruct (prepare_push_response fx_pending (fx_resp (Accepted fx_id1 7 []))) as [p|] eqn:Hp;
    [|vm_compute in Hp; discriminate].
  exists p. split; [done|].
  apply (accepted_stays_visible fx_pending fx_commit1 [fx_commit2] 7 p).
  - apply (validate_ValidState _ tt). vm_compute. reflexivity.
  - vm_compute. reflexivity.
  - vm_compute. reflexivity.
  - exact Hp.
Defined.
