(* ===== verification/SubscriptionProps.v ===== *)
(** * Properties of subscriptions.

    Generations are retired for good, installed windows only move forward, the
    shared row cache serves every window its own rows, and the installed view is
    complete and in window order. *)

From S2P Require Import Prelude Protocol Subscription ClientState SubscriptionState Validate IdMap Client SubscriptionClient Steps Runtime Fixtures Intent.

Definition request_generation (request : SubscriptionRequest) : N :=
  (command_identity (sreq_command request)).2.

Section generations.
Context {V : Type} `{!EqDecision V}.
Implicit Types self s next : DurableClientState V.
Implicit Types subs : DurableSubscriptions V.

(** A generation is retired by a cancellation barrier at or above it, or by a
    request of a later generation. *)
Definition retired subs (id : string) (generation : N) : Prop :=
  (∃ barrier, cancelled subs !! id = Some barrier ∧ (generation ≤ barrier)%N) ∨
  (∃ request, requests subs !! id = Some request ∧
     (generation < request_generation request)%N).

(** What a later state may show of an installed window. *)
Definition slot_moves_on subs subs' : Prop :=
  (∀ id generation, retired subs id generation → retired subs' id generation) ∧
  (∀ id slot, slots subs !! id = Some slot →
     retired subs' id (slot_generation slot) ∨
     ∃ slot', slots subs' !! id = Some slot' ∧ slot_generation slot' = slot_generation slot ∧
       slot_scope slot' = slot_scope slot ∧
       cursor_le (slot_frontier slot) (slot_frontier slot') ∧
       (slot_view_revision slot ≤ slot_view_revision slot')%N).

Definition windows_move_on self s : Prop :=
  slot_moves_on (subscriptions_or_default self) (subscriptions_or_default s).

#[export] Instance slot_moves_on_preorder : PreOrder slot_moves_on.
Proof.
  split.
  - intros subs. split; [done|]. intros id slot Hs. right. exists slot. by split_and!.
  - intros s1 s2 s3 [Hr12 Hs12] [Hr23 Hs23]. split; [by auto|]. intros id slot Hslot.
    destruct (Hs12 _ _ Hslot) as [?|(slot2 & H2 & Hg & Hsc & Hc & Hv)]; [by auto|].
    destruct (Hs23 _ _ H2) as [?|(slot3 & H3 & Hg' & Hsc' & Hc' & Hv')];
      [left; congruence|].
    right. exists slot3. split_and!; [done|congruence|congruence|by etransitivity|lia].
Qed.

#[export] Instance windows_move_on_preorder : PreOrder windows_move_on.
Proof.
  unfold windows_move_on. split.
  - intros s. done.
  - intros s1 s2 s3. apply (transitivity (R := slot_moves_on)).
Qed.

Lemma slot_moves_on_same subs subs' :
  requests subs' = requests subs → cancelled subs' = cancelled subs →
  slots subs' = slots subs → slot_moves_on subs subs'.
Proof.
  intros Hr Hc Hs. split; [by unfold retired; rewrite Hr, Hc|].
  intros id slot Hslot. right. exists slot. rewrite Hs. by split_and!.
Qed.

(** ** Every membership change moves on *)

Lemma install_window_fields subs (response : SubscriptionResponse V) tok rows subs' :
  install_window subs response tok rows = Ok subs' →
  requests subs' = requests subs ∧ cancelled subs' = cancelled subs ∧
  ∃ members, slots subs' = <[sr_subscription_id response :=
    mkSlot (sr_generation response) (sr_plan_fingerprint response) (sr_scope response)
      (sr_frontier response) (sr_view_revision response) (sr_coverage response)
      (sr_ordered_ids response) tok members]> (slots subs).
Proof.
  unfold install_window. intros H. apply result_bind_Ok in H as ([st m] & _ & [= <-]).
  simpl. eauto.
Qed.

Lemma replace_moves_on subs id request :
  (∀ barrier, cancelled subs !! id = Some barrier → (barrier < request_generation request)%N) →
  (∀ previous, requests subs !! id = Some previous →
     (request_generation previous < request_generation request)%N) →
  (∀ slot, slots subs !! id = Some slot → ∃ previous,
     requests subs !! id = Some previous ∧ request_generation previous = slot_generation slot) →
  slot_moves_on subs (replace_request id request subs).
Proof.
  intros Hb Hp Hslot. split.
  - intros id' g [(b & Hc & Hle)|(req & Hr & Hlt)]; [left; by exists b|]. right.
    destruct (decide (id' = id)) as [->|Hne].
    + exists request. simpl. rewrite lookup_insert_eq. split; [done|].
      specialize (Hp _ Hr). lia.
    + exists req. simpl. by rewrite lookup_insert_ne.
  - intros id' slot Hs. destruct (decide (id' = id)) as [->|Hne].
    + left. right. exists request. simpl. rewrite lookup_insert_eq. split; [done|].
      destruct (Hslot _ Hs) as (previous & Hprev & <-). by apply Hp.
    + right. exists slot. simpl. rewrite lookup_delete_ne by done. by split_and!.
Qed.

Lemma withdraw_moves_on subs id generation :
  (∀ request, requests subs !! id = Some request →
     (request_generation request ≤ generation)%N) →
  (∀ slot, slots subs !! id = Some slot → ∃ previous,
     requests subs !! id = Some previous ∧ request_generation previous = slot_generation slot) →
  slot_moves_on subs (withdraw id generation subs).
Proof.
  intros Hp Hslot. set (barrier := N.max (default generation (cancelled subs !! id)) generation).
  assert (∀ g, (g ≤ generation)%N → retired (withdraw id generation subs) id g) as Hret.
  { intros g Hg. left. exists barrier. simpl. rewrite lookup_insert_eq.
    split; [done|]. lia. }
  split.
  - intros id' g [(b & Hc & Hle)|(req & Hr & Hlt)]; destruct (decide (id' = id)) as [->|Hne].
    + left. exists barrier. simpl. rewrite lookup_insert_eq. split; [done|].
      unfold barrier. rewrite Hc. simpl. lia.
    + left. exists b. simpl. by rewrite lookup_insert_ne.
    + apply Hret. specialize (Hp _ Hr). lia.
    + right. exists req. simpl. by rewrite lookup_delete_ne.
  - intros id' slot Hs. destruct (decide (id' = id)) as [->|Hne].
    + left. apply Hret. destruct (Hslot _ Hs) as (previous & Hprev & <-). by apply Hp.
    + right. exists slot. simpl. rewrite lookup_delete_ne by done. by split_and!.
Qed.

(** The slot of a valid state belongs to the installed request. *)
Lemma valid_slot_request self id slot :
  ValidState self → slots (subscriptions_or_default self) !! id = Some slot →
  ∃ request, requests (subscriptions_or_default self) !! id = Some request ∧
    request_generation request = slot_generation slot.
Proof.
  intros Hv Hs. unfold subscriptions_or_default in *.
  destruct (st_subscriptions self) as [subs|] eqn:Hsub; 
    [|simpl in Hs; by rewrite lookup_empty in Hs].
  simpl in *. destruct (sv_request _ _ _ _ (subs_slots _ _ (vs_subscriptions _ Hv _ Hsub) _ _ Hs))
    as (request & Hreq & Hc & _).
  exists request. split; [done|]. unfold slot_check in Hc. by destruct_guards.
Qed.

Lemma subs_step_moves_on self ev subs :
  ValidState self → subs_step self ev subs →
  slot_moves_on (subscriptions_or_default self) subs.
Proof.
  intros Hv [request Hreq|request id generation Hci Hst Hb Hp|id generation ev' Hev Hp
    |current request response tok base rows touched subs' Hcur Hreq Hgen Hbar Hprev Hck Hw Hbase
     Hch Hord Hlim Hinst].
  - done.
  - apply replace_moves_on; unfold request_generation at 1; rewrite ?Hci; [done| |].
    + intros previous Hprev. unfold request_generation. rewrite Hci. by apply Hp.
    + intros slot Hs. by apply valid_slot_request.
  - apply withdraw_moves_on; [done|]. intros slot Hs. by apply valid_slot_request.
  - unfold subscriptions_or_default. rewrite Hcur. simpl.
    apply install_window_fields in Hinst as (Hr & Hc & members & Hs). split.
    + unfold retired. by rewrite Hr, Hc.
    + intros id slot Hslot. right. rewrite Hs.
      destruct (decide (id = sr_subscription_id response)) as [->|Hne].
      * rewrite lookup_insert_eq. eexists. split; [done|]. simpl.
        destruct (Hprev _ Hslot) as (? & ? & ?). split_and!; [|done|done|lia].
        destruct (valid_slot_request self (sr_subscription_id response) slot) as (req & Hr' & Hg).
        { done. } { unfold subscriptions_or_default. by rewrite Hcur. }
        unfold subscriptions_or_default in Hr'. rewrite Hcur in Hr'. simpl in Hr'.
        unfold request_generation in Hg. congruence.
      * rewrite lookup_insert_ne by done. exists slot. by split_and!.
Qed.

Lemma client_step_subscriptions self ev next :
  client_step self ev next →
  st_subscriptions next = st_subscriptions self ∨
  ∃ subs, next = set_subscriptions self (Some subs) ∧ subs_step self ev subs.
Proof.
  intros H. destruct H as
    [| |response policy i c next res Hi Hid Hf Hres Hres'| | | | | | |ev cp rs conf ids He Hs Hg Hf
    | |ev subs Hsub]; try by left.
  - left. by apply mappings_effect in Hf as [(?&?&?&?&?&?&?&?) _].
  - right. eauto.
Qed.

Lemma step_windows_move_on self ev next p :
  ValidState self → client_step self ev next → prepared_as self next p →
  windows_move_on self (prepared_state p).
Proof.
  intros Hv Hs Has. unfold windows_move_on, subscriptions_or_default at 2.
  rewrite (prepared_field st_subscriptions _ _ _ (λ _ _, eq_refl) Has).
  destruct (client_step_subscriptions _ _ _ Hs) as [->|(subs & -> & Hsub)]; [done|].
  by apply subs_step_moves_on in Hsub.
Qed.
End generations.

Section generation_claims.
Context {V : Type} `{!EqDecision V}.
Implicit Types self s next : DurableClientState V.
Implicit Types r : runtime V.

Lemma retired_le (subs : DurableSubscriptions V) id g g' :
  retired subs id g → (g' ≤ g)%N → retired subs id g'.
Proof.
  intros [(b & ? & ?)|(q & ? & ?)] Hle; [left; exists b|right; exists q];
    (split; [done|lia]).
Qed.

Lemma retired_start_refused self id g request p :
  retired (subscriptions_or_default self) id g →
  command_identity (sreq_command request) = (id, g) →
  prepare_start_subscription self request ≠ Ok p.
Proof.
  intros Hret Hci H. unfold prepare_start_subscription in H. apply guard_Ok in H as [_ H].
  rewrite Hci in H. apply guard_Ok in H as [Hb H].
  destruct Hret as [(b & Hc & Hle)|(q & Hr & Hlt)].
  { apply Hb. by rewrite Hc. }
  destruct (decide (_ = Some request)) as [Heq|_].
  - rewrite Heq in Hr. injection Hr as <-. unfold request_generation in Hlt.
    rewrite Hci in Hlt. simpl in Hlt. lia.
  - apply guard_Ok in H as [Hp _]. apply Hp. rewrite Hr. simpl.
    unfold request_generation in Hlt. lia.
Qed.

Lemma retired_response_refused self (response : SubscriptionResponse V) p :
  retired (subscriptions_or_default self) (sr_subscription_id response)
    (sr_generation response) →
  prepare_subscription_response self response ≠ Ok p.
Proof.
  intros Hret H. unfold prepare_subscription_response in H.
  apply guard_bool_Ok in H as [_ H]. apply result_bind_Ok in H as (current & Hcur & H).
  apply ok_or_Ok in Hcur. unfold subscriptions_or_default in Hret. rewrite Hcur in Hret.
  simpl in Hret. apply guard_Ok in H as [Hb H].
  destruct Hret as [(b & Hc & Hle)|(q & Hr & Hlt)].
  { apply Hb. by rewrite Hc. }
  rewrite Hr in H. simpl in H.
  destruct (sreq_command q) as [? ? d ? limit| |] eqn:Hcmd; try done.
  apply guard_Ok in H as [Hm _]. unfold response_mismatch in Hm. destruct_guards.
  unfold request_generation in Hlt. lia.
Qed.

(** C32: a retired generation of a subscription stays retired for the rest of the
    run: no start request and no window response of that generation, or of an
    earlier one, is ever accepted again, so late or reordered responses cannot
    resurrect a cancelled or replaced window. *)
Theorem retired_generation_refused s r r' id g g' :
  opened s r → run r r' → retired (subscriptions_or_default (installed r)) id g →
  (g' ≤ g)%N →
  (∀ request p, command_identity (sreq_command request) = (id, g') →
     prepare_start_subscription (installed r') request ≠ Ok p) ∧
  (∀ (response : SubscriptionResponse V) p,
     sr_subscription_id response = id → sr_generation response = g' →
     prepare_subscription_response (installed r') response ≠ Ok p).
Proof.
  intros ?%opened_inv Hrun Hret Hle.
  assert (retired (subscriptions_or_default (installed r')) id g') as Hret'.
  { assert (windows_move_on (installed r) (installed r')) as [Hr _].
    { eapply run_lift; [apply _|apply step_windows_move_on|done..]. }
    apply Hr. by eapply retired_le. }
  split.
  - intros request p Hci. by eapply retired_start_refused.
  - intros response p <- <-. by apply retired_response_refused.
Qed.

Lemma collect_records_again (subs : DurableSubscriptions V) :
  collect_records (collect_records subs) = collect_records subs.
Proof.
  unfold collect_records at 1 3. simpl. f_equal. apply map_eq. intros key.
  change (filter _ (filter _ (records subs)))
    with (records (collect_records (collect_records subs))).
  change (filter _ (records subs)) with (records (collect_records subs)).
  rewrite !lookup_collect_records. simpl. by repeat case_decide.
Qed.

Lemma withdraw_again id g g' (subs : DurableSubscriptions V) :
  (g' ≤ g)%N → withdraw id g' (withdraw id g subs) = withdraw id g subs.
Proof.
  intros Hle. unfold withdraw at 1. simpl. rewrite lookup_insert_eq. simpl.
  rewrite insert_insert_eq, !delete_delete_eq.
  replace (N.max (N.max (default g (cancelled subs !! id)) g) g')
    with (N.max (default g (cancelled subs !! id)) g) by lia.
  apply (collect_records_again (mkSubs _ _ _ _ _)).
Qed.

(** Cancelling retires the generation and withdraws the window: afterwards
    the subscription has neither request nor slot nor view, and its resume request
    is the cancellation itself.  Cancelling again at the same or an earlier
    generation changes nothing. *)
Theorem cancel_withdraws self id g p :
  prepare_cancel_subscription self id g = Ok p →
  retired (subscriptions_or_default (prepared_state p)) id g ∧
  subscription_snapshot (prepared_state p) id = None ∧
  (∃ barrier, (g ≤ barrier)%N ∧
     subscription_request (prepared_state p) id
       = Some (mkSubRequest (st_partition_id self) (st_client_id self)
                 (st_requested_scope self) (st_subscription_revision self)
                 (CmdCancel id barrier))) ∧
  (∀ g', g' ≠ 0%N → (g' ≤ g)%N →
     prepare_cancel_subscription (prepared_state p) id g'
       = Ok (mkPrepared (st_revision (prepared_state p)) (prepared_state p))).
Proof.
  intros H. unfold prepare_cancel_subscription in H. apply guard_Ok in H as [Ht H].
  apply guard_Ok in H as [_ H]. apply guard_Ok in H as [_ H].
  set (subs := subscriptions_or_default self) in *.
  set (barrier := N.max (default g (cancelled subs !! id)) g).
  assert (∀ B (f : DurableClientState V → B), (∀ s n, f (set_revision s n) = f s) →
    f (prepared_state p) = f (set_subscriptions self (Some (withdraw id g subs)))) as Hf.
  { intros B f Hf. apply prepare_Ok in H. by eapply prepared_field. }
  split_and!.
  - left. exists barrier. unfold subscriptions_or_default.
    rewrite (Hf _ st_subscriptions) by done. simpl. rewrite lookup_insert_eq.
    split; [done|lia].
  - unfold subscription_snapshot. rewrite (Hf _ st_subscriptions) by done. simpl.
    by rewrite lookup_delete_eq.
  - exists barrier. split; [lia|]. unfold subscription_request.
    rewrite (Hf _ st_subscriptions), (Hf _ st_partition_id), (Hf _ st_client_id),
      (Hf _ st_requested_scope), (Hf _ st_subscription_revision) by done. simpl.
    by rewrite lookup_delete_eq, lookup_insert_eq.
  - intros g' Hg' Hle. unfold prepare_cancel_subscription. destruct_guards.
    rewrite decide_False by tauto.
    assert (subscriptions_or_default (prepared_state p) = withdraw id g subs) as ->.
    { unfold subscriptions_or_default. by rewrite (Hf _ st_subscriptions). }
    rewrite decide_False; [|simpl; rewrite lookup_insert_eq; naive_solver].
    rewrite decide_False; [|simpl; rewrite lookup_delete_eq; by intros []].
    rewrite withdraw_again by done.
    assert (set_subscriptions (prepared_state p) (Some (withdraw id g subs))
            = prepared_state p) as ->.
    { specialize (Hf _ st_subscriptions (λ _ _, eq_refl)). destruct (prepared_state p).
      simpl in *. by subst. }
    apply prepare_same. apply prepare_Ok in H. by eapply prepared_state_valid.
Qed.

(** C33: over a run an installed window only moves forward: at any later state
    either its generation is retired, or the window is still installed with the
    same generation and scope, a frontier that has not moved backward and a view
    revision that has not decreased. *)
Theorem run_windows_progress s r r' id slot :
  opened s r → run r r' →
  slots (subscriptions_or_default (installed r)) !! id = Some slot →
  retired (subscriptions_or_default (installed r')) id (slot_generation slot) ∨
  ∃ slot', slots (subscriptions_or_default (installed r')) !! id = Some slot' ∧
    slot_generation slot' = slot_generation slot ∧ slot_scope slot' = slot_scope slot ∧
    cursor_le (slot_frontier slot) (slot_frontier slot') ∧
    (slot_view_revision slot ≤ slot_view_revision slot')%N.
Proof.
  intros ?%opened_inv Hrun Hs.
  assert (windows_move_on (installed r) (installed r')) as [_ Hm]; [|by apply Hm].
  eapply run_lift; [apply _|apply step_windows_move_on|done..].
Qed.

(** An event of the subscription protocol. *)
Definition is_subscription_event (ev : event V) : bool :=
  match ev with
  | EStartSubscription _ | ECancelSubscription _ _ | ESubscriptionResponse _ => true
  | _ => false
  end.

(** The two protocols do not interfere: a subscription event leaves the
    confirmed records, the outbox, the outcomes, the checkpoint, the reset
    coverage, the id map and the optimistic view alone, and every other event
    leaves the subscriptions alone. *)
Theorem subscriptions_isolated self ev p :
  prepare_event self ev = Ok p →
  if is_subscription_event ev then
    st_confirmed (prepared_state p) = st_confirmed self ∧
    st_outbox (prepared_state p) = st_outbox self ∧
    st_outcomes (prepared_state p) = st_outcomes self ∧
    st_checkpoint (prepared_state p) = st_checkpoint self ∧
    st_reset_coverage (prepared_state p) = st_reset_coverage self ∧
    st_id_map (prepared_state p) = st_id_map self ∧
    optimistic_projection (prepared_state p) = optimistic_projection self
  else st_subscriptions (prepared_state p) = st_subscriptions self.
Proof.
  intros (next & Hs & Has)%prepare_event_step.
  assert (∀ B (f : DurableClientState V → B), (∀ s n, f (set_revision s n) = f s) →
    f (prepared_state p) = f next) as Hf.
  { intros B f Hf. by eapply prepared_field. }
  destruct (is_subscription_event ev) eqn:Hev.
  - rewrite (Hf _ st_confirmed), (Hf _ st_outbox), (Hf _ st_outcomes), (Hf _ st_checkpoint),
      (Hf _ st_reset_coverage), (Hf _ st_id_map), (Hf _ optimistic_projection) by done.
    destruct Hs as [| | | | | | | | |? ? ? ? ? [->|[? ->]]| |]; done.
  - rewrite (Hf _ st_subscriptions) by done.
    destruct (client_step_subscriptions _ _ _ Hs) as [?|(subs & -> & Hsub)]; [done|].
    by destruct Hsub as [| |? ? ? [->|(? & -> & _)]|].
Qed.
End generation_claims.

(** ** The installed view *)

Section views.
Context {V : Type} `{!EqDecision V}.
Implicit Types self s : DurableClientState V.
Implicit Types subs : DurableSubscriptions V.

Lemma slot_rows_lookup subs slot id :
  slot_rows subs slot !! id = slot_members slot !! id ≫= λ key, records subs !! key.
Proof. unfold slot_rows. by rewrite lookup_omap. Qed.

Lemma slot_view_rows subs slot :
  slot_view subs slot = omap (λ id, slot_rows subs slot !! id) (slot_ordered_ids slot).
Proof.
  unfold slot_view. induction (slot_ordered_ids slot) as [|x l IH]; [done|].
  csimpl. by rewrite slot_rows_lookup, IH.
Qed.

(** Reading the ids of a sorted slot gives one row per id, in order. *)
Lemma view_sorted subs slot (ids : list RecordId) :
  (∀ id, id ∈ ids → ∃ row, slot_rows subs slot !! id = Some row ∧ row_record_id row = id) →
  StronglySorted (id_before subs slot) ids →
  row_record_id <$> omap (λ id, slot_rows subs slot !! id) ids = ids ∧
  StronglySorted (λ a b, row_cmp (win_direction (slot_coverage slot)) a b = Lt)
    (omap (λ id, slot_rows subs slot !! id) ids).
Proof.
  induction ids as [|x ids IH]; intros Hrow Hs; [split; constructor|].
  apply StronglySorted_inv in Hs as [Hs Hx].
  destruct IH as [Hids Hsort]; [intros; apply Hrow; by right|done|].
  destruct (Hrow x ltac:(by left)) as (row & Hr & Hrx). csimpl. rewrite Hr. csimpl.
  split; [by rewrite Hrx, Hids|]. constructor; [done|].
  rewrite Forall_forall. intros b (y & Hy & Hb)%list_elem_of_omap.
  rewrite Forall_forall in Hx. destruct (Hx y Hy) as (a & b' & Ha & Hb' & Hlt).
  congruence.
Qed.

Lemma valid_slot_row self subs id slot rid :
  ValidState self → st_subscriptions self = Some subs → slots subs !! id = Some slot →
  rid ∈ slot_ordered_ids slot →
  ∃ row, slot_rows subs slot !! rid = Some row ∧ row_record_id row = rid ∧
    row_version row ≠ 0%N ∧ scalar_kind (row_sort_key row) = win_order_kind (slot_coverage slot).
Proof.
  intros Hv Hs Hslot Hin.
  destruct (subs_slots _ _ (vs_subscriptions _ Hv _ Hs) _ _ Hslot) as [_ _ _ Hmem Hperm _].
  rewrite Hperm in Hin. apply elem_of_btree_keys in Hin as [key Hkey].
  destruct (Hmem _ _ Hkey) as (row & Hrow & Hc). simpl in Hrow, Hc.
  exists row. rewrite slot_rows_lookup, Hkey. simpl. unfold member_check in Hc.
  destruct_guards. done.
Qed.

(** The installed view of a window is complete and in order: on every valid
    state it shows exactly the ids the authority listed, one row each, strictly
    increasing in the window order, at most as many as the window limit, each with
    a positive version and a sort key of the declared kind. *)
Theorem installed_view_complete self subs id slot :
  ValidState self → st_subscriptions self = Some subs → slots subs !! id = Some slot →
  ∃ view, subscription_snapshot self id = Some view ∧
    row_record_id <$> is_rows view = slot_ordered_ids slot ∧
    StronglySorted (λ a b, row_cmp (win_direction (slot_coverage slot)) a b = Lt)
      (is_rows view) ∧
    (vec_len (is_rows view) ≤ win_limit (slot_coverage slot) ≤ MAX_WINDOW_ROWS)%N ∧
    Forall (λ row, row_version row ≠ 0%N ∧
      scalar_kind (row_sort_key row) = win_order_kind (slot_coverage slot)) (is_rows view).
Proof.
  intros Hv Hs Hslot. unfold subscription_snapshot. rewrite Hs, Hslot.
  eexists. split; [done|]. simpl. rewrite slot_view_rows.
  destruct (subs_slots _ _ (vs_subscriptions _ Hv _ Hs) _ _ Hslot)
    as [(request & _ & Hc & _) _ _ _ Hperm Hsorted].
  destruct (view_sorted subs slot (slot_ordered_ids slot)) as [Hids Hsort]; [|done|].
  { intros rid Hin. destruct (valid_slot_row _ _ _ _ _ Hv Hs Hslot Hin) as (row & ? & ? & _).
    eauto. }
  split_and!; [done|done| | |].
  - unfold slot_check in Hc. destruct_guards.
    assert (vec_len (omap (λ rid, slot_rows subs slot !! rid) (slot_ordered_ids slot))
            = map_len (slot_members slot)) as ->; [|lia].
    unfold vec_len, map_len. f_equal.
    rewrite <-(length_fmap row_record_id), Hids, Hperm. unfold btree_keys.
    by rewrite length_fmap, length_btree_entries.
  - unfold slot_check in Hc. destruct_guards. lia.
  - rewrite Forall_forall. intros row (rid & Hin & Hr)%list_elem_of_omap.
    destruct (valid_slot_row _ _ _ _ _ Hv Hs Hslot Hin) as (row' & ? & _ & ? & ?).
    simplify_eq. done.
Qed.
End views.

(** ** What a window response installs *)

Section windows.
Context {V : Type} `{!EqDecision V}.
Implicit Types self s : DurableClientState V.
Implicit Types subs current : DurableSubscriptions V.
Implicit Types response : SubscriptionResponse V.

(** The change of a response for a record, if any. *)
Definition change_for (changes : list (MembershipChange V)) (rid : RecordId)
  : option (MembershipChange V) :=
  find_first (λ c, bool_decide (change_record_id c = rid)) changes.

(** The row of a record after the changes. *)
Definition changed (base : gmap string (SubscriptionRow V))
    (changes : list (MembershipChange V)) (rid : RecordId) : option (SubscriptionRow V) :=
  match change_for changes rid with
  | Some (MUpsert row) => Some row
  | Some (MLeave _ | MDelete _ _) => None
  | None => base !! rid
  end.

(** No row goes back to an older version and only present rows are removed. *)
Definition change_forward (base : gmap string (SubscriptionRow V)) (c : MembershipChange V)
  : Prop :=
  match c with
  | MUpsert row => ∀ old, base !! row_record_id row = Some old →
      (row_version old ≤ row_version row)%N
  | MLeave rid => is_Some (base !! rid)
  | MDelete rid version => ∃ old, base !! rid = Some old ∧ (row_version old < version)%N
  end.

Lemma change_step_spec response rows (touched : gset string) c rows' touched' :
  change_step response (rows, touched) c = Ok (rows', touched') →
  (change_record_id c ∉ touched) ∧ touched' = {[change_record_id c]} ∪ touched ∧
  change_forward rows c ∧
  rows' = match c with
          | MUpsert row => <[change_record_id c := row]> rows
          | _ => delete (change_record_id c) rows
          end.
Proof.
  unfold change_step. intros H. apply guard_Ok in H as [Ht H]. apply refusal_or in Ht as [_ Ht].
  destruct c as [row|rid|rid version]; simpl in *.
  - apply guard_Ok in H as [_ H]. apply guard_Ok in H as [Hv [= <- <-]].
    split_and!; [done..| |done]. intros old Hold. rewrite Hold in Hv. simpl in Hv. lia.
  - apply guard_Ok in H as [[_ Hn]%refusal_or [= <- <-]]. split_and!; [done..| |done].
    by apply not_eq_None_Some.
  - apply guard_Ok in H as [Hv H]. apply guard_Ok in H as [[_ Hn]%refusal_or [= <- <-]].
    split_and!; [done..| |done]. apply not_eq_None_Some in Hn as [old Hold].
    exists old. split; [done|]. rewrite Hold in Hv. simpl in Hv. lia.
Qed.

Lemma change_forward_frame (base base' : gmap string (SubscriptionRow V)) c :
  base' !! change_record_id c = base !! change_record_id c →
  change_forward base' c → change_forward base c.
Proof. destruct c; simpl; intros Heq; by rewrite Heq. Qed.

Lemma changes_fold response changes rows (touched : gset string) rows' touched' :
  try_fold (change_step response) (rows, touched) changes = Ok (rows', touched') →
  (∀ rid, rows' !! rid = changed rows changes rid) ∧ Forall (change_forward rows) changes ∧
  (∀ rid, rid ∈ touched → change_for changes rid = None).
Proof.
  revert rows touched. induction changes as [|c l IH]; intros rows touched H; simpl in H.
  { injection H as <- <-. split_and!; [done|constructor|done]. }
  apply result_bind_Ok in H as ([rows1 t1] & Hc & H).
  apply change_step_spec in Hc as (Hn & -> & Hf & Hrows).
  apply IH in H as (Hl & HF & Ht).
  assert (∀ rid, rid ≠ change_record_id c → rows1 !! rid = rows !! rid) as Hframe.
  { intros rid Hne. rewrite Hrows.
    destruct c; by rewrite ?lookup_insert_ne, ?lookup_delete_ne by done. }
  assert (∀ rid, rid ≠ change_record_id c → change_for (c :: l) rid = change_for l rid) as Hcf.
  { intros rid Hne. unfold change_for, find_first. simpl.
    rewrite bool_decide_eq_false_2 by done. by destruct (position _ l) as [[]|]. }
  assert (change_for (c :: l) (change_record_id c) = Some c) as Hcc.
  { unfold change_for, find_first. simpl. by rewrite bool_decide_eq_true_2. }
  split_and!.
  - intros rid. rewrite Hl. unfold changed.
    destruct (decide (rid = change_record_id c)) as [->|Hne].
    + rewrite Hcc, (Ht (change_record_id c)) by set_solver. rewrite Hrows.
      destruct c; by rewrite ?lookup_insert_eq, ?lookup_delete_eq.
    + rewrite Hcf by done. by rewrite Hframe.
  - constructor; [done|]. rewrite Forall_forall in HF |- *. intros x Hx.
    eapply change_forward_frame, HF, Hx. apply Hframe. intros Heq.
    specialize (Ht (change_record_id c) ltac:(set_solver)). unfold change_for in Ht.
    rewrite find_first_None, Forall_forall in Ht. specialize (Ht _ Hx). simpl in Ht.
    by apply bool_decide_eq_false in Ht.
  - intros rid Hrid. rewrite Hcf by set_solver. apply Ht. set_solver.
Qed.

Lemma base_fold current (l : list (string * string))
    (acc base : gmap string (SubscriptionRow V)) :
  NoDup l.*1 → (∀ id, id ∈ l.*1 → acc !! id = None) →
  try_fold (λ rows '(id, key),
    let? row := ok_or (records current !! key) InvalidSubscription in
    Ok (<[id := row]> rows)) acc l = Ok base →
  base = omap (λ key, records current !! key) (list_to_map l) ∪ acc.
Proof.
  revert acc. induction l as [|[id key] l IH]; intros acc Hnd Hacc H; csimpl in *.
  { injection H as <-. by rewrite omap_empty, map_empty_union. }
  apply NoDup_cons in Hnd as [Hid Hnd]. apply result_bind_Ok in H as (acc1 & Hrow & H).
  apply result_bind_Ok in Hrow as (row & Hrow%ok_or_Ok & [= <-]).
  apply IH in H as ->; [|done|intros id' ?; rewrite lookup_insert_ne by set_solver;
    apply Hacc; set_solver].
  rewrite omap_insert, Hrow. simpl. rewrite <-insert_union_l. symmetry.
  apply insert_union_r. rewrite lookup_omap.
  by rewrite (not_elem_of_list_to_map_1 l id Hid).
Qed.

(** A delta starts from the rows of the installed window, a snapshot from none. *)
Lemma base_rows_spec current previous response base :
  base_rows current previous response = Ok base →
  (∃ before slot, sr_response response = WDelta before ∧ previous = Some slot ∧
     before = slot_view_revision slot ∧ sr_view_revision response = (before + 1)%N ∧
     base = slot_rows current slot) ∨
  (∃ reason, sr_response response = WSnapshot reason ∧ base = ∅).
Proof.
  unfold base_rows. intros H. destruct (sr_response response) as [reason|before|] eqn:Hk;
    [right; injection H as <-; eauto| |done].
  left. apply result_bind_Ok in H as (slot & Hslot%ok_or_Ok & H).
  apply result_bind_Ok in H as (after & Ha%ok_or_Ok & H). apply checked_add_Some in Ha as [-> _].
  apply guard_Ok in H as [Hg H]. destruct_guards.
  apply base_fold in H as ->; [|apply btree_keys_NoDup|done].
  exists before, slot. rewrite list_to_map_btree_entries, map_union_empty. done.
Qed.

(** Storing the rows keeps every cached row and makes every new row available. *)
Lemma store_fold e (l : list (string * SubscriptionRow V)) stored members stored' members' :
  NoDup l.*1 →
  try_fold (store_step e) (stored, members) l = Ok (stored', members') →
  (∀ key row, stored !! key = Some row → stored' !! key = Some row) ∧
  (∀ id row, (id, row) ∈ l →
     members' !! id = Some (cache_key e row) ∧ stored' !! cache_key e row = Some row) ∧
  (∀ id, id ∉ l.*1 → members' !! id = members !! id).
Proof.
  revert stored members. induction l as [|[id row] l IH]; intros stored members Hnd H;
    csimpl in *.
  { injection H as <- <-. split_and!; set_solver. }
  apply NoDup_cons in Hnd as [Hid Hnd]. apply result_bind_Ok in H as ([st1 m1] & Hs & H).
  unfold store_step in Hs. apply guard_Ok in Hs as [Hg [= <- <-]].
  apply IH in H as (Hk & Hin & Hout); [|done]. split_and!.
  - intros key r Hr. apply Hk. destruct (decide (key = cache_key e row)) as [->|Hne].
    + rewrite lookup_insert_eq. rewrite Hr in Hg. simpl in Hg. by apply dec_stable in Hg as ->.
    + by rewrite lookup_insert_ne.
  - intros id' r [[= -> ->]|Hin']%elem_of_cons; [|by apply Hin]. split.
    + rewrite Hout by done. apply lookup_insert_eq.
    + apply Hk, lookup_insert_eq.
  - intros id' Hn. apply not_elem_of_cons in Hn as [? ?]. rewrite Hout by done.
    by rewrite lookup_insert_ne.
Qed.

(** The new window resolves to exactly the computed rows, and every other window
    still resolves to its own. *)
Lemma install_window_rows current response tok rows subs :
  install_window current response tok rows = Ok subs →
  (∀ id slot, slots current !! id = Some slot → ∀ rid key,
     slot_members slot !! rid = Some key → is_Some (records current !! key)) →
  (∃ slot, slots subs !! sr_subscription_id response = Some slot ∧
     slot_ordered_ids slot = sr_ordered_ids response ∧
     slot_view_revision slot = sr_view_revision response ∧
     slot_frontier slot = sr_frontier response ∧ slot_rows subs slot = rows) ∧
  (∀ id slot, id ≠ sr_subscription_id response → slots current !! id = Some slot →
     slots subs !! id = Some slot ∧ slot_rows subs slot = slot_rows current slot).
Proof.
  unfold install_window. intros H Hval. apply result_bind_Ok in H as ([st m] & Hf & [= <-]).
  apply store_fold in Hf as (Hk & Hin & Hout); [|apply btree_keys_NoDup].
  set (sid := sr_subscription_id response) in *.
  match goal with |- context [collect_records ?x] => set (pre := x) end.
  assert (∀ id slot rid key, slots pre !! id = Some slot →
    slot_members slot !! rid = Some key →
    records (collect_records pre) !! key = st !! key) as Hcol.
  { intros id slot rid key Hs Hm. rewrite lookup_collect_records, decide_True; [done|].
    apply elem_of_used_keys. eauto. }
  split.
  - eexists. split; [simpl; apply lookup_insert_eq|]. simpl. split_and!; [done..|].
    apply map_eq. intros rid. rewrite slot_rows_lookup. simpl.
    destruct (rows !! rid) as [row|] eqn:Hrow.
    + apply elem_of_btree_entries in Hrow. destruct (Hin _ _ Hrow) as [Hm Hst].
      rewrite Hm. simpl. erewrite Hcol; [exact Hst|simpl; apply lookup_insert_eq|exact Hm].
    + rewrite Hout, lookup_empty; [done|]. change (rid ∉ btree_keys rows).
      rewrite elem_of_btree_keys, Hrow. by intros [? ?].
  - intros id slot Hne Hs. simpl. rewrite lookup_insert_ne by done. split; [done|].
    apply map_eq. intros rid. rewrite !slot_rows_lookup.
    destruct (slot_members slot !! rid) as [key|] eqn:Hm; [|done]. simpl.
    erewrite Hcol; [|simpl; rewrite lookup_insert_ne by done; exact Hs|exact Hm].
    destruct (Hval _ _ Hs _ _ Hm) as [row Hr]. rewrite Hr. by apply Hk.
Qed.
End windows.

Section window_claims.
Context {V : Type} `{!EqDecision V}.
Implicit Types self : DurableClientState V.
Implicit Types subs current : DurableSubscriptions V.
Implicit Types response : SubscriptionResponse V.

(** C34: a window response that changes the state installs exactly the window it
    describes: each record has the row of the response's change for it, and
    otherwise the row of the installed window (for a delta, which must continue it
    at the next view revision) or none (for a snapshot); rows never go back to an
    older version; and although windows share one row cache, every other window
    keeps its slot and its rows. *)
Theorem window_response_applies self response p :
  ValidState self → prepare_subscription_response self response = Ok p →
  sr_response response ≠ WCancelled → prepared_state p ≠ self →
  ∃ current subs slot base,
    st_subscriptions self = Some current ∧
    st_subscriptions (prepared_state p) = Some subs ∧
    slots subs !! sr_subscription_id response = Some slot ∧
    slot_ordered_ids slot = sr_ordered_ids response ∧
    slot_view_revision slot = sr_view_revision response ∧
    ((∃ before previous, sr_response response = WDelta before ∧
        slots current !! sr_subscription_id response = Some previous ∧
        before = slot_view_revision previous ∧
        sr_view_revision response = (before + 1)%N ∧ base = slot_rows current previous) ∨
     (∃ reason, sr_response response = WSnapshot reason ∧ base = ∅)) ∧
    (∀ rid, slot_rows subs slot !! rid = changed base (sr_changes response) rid) ∧
    Forall (change_forward base) (sr_changes response) ∧
    (∀ id other, id ≠ sr_subscription_id response → slots current !! id = Some other →
       slots subs !! id = Some other ∧ slot_rows subs other = slot_rows current other).
Proof.
  intros Hv H Hk Hne.
  destruct (prepare_event_step self (ESubscriptionResponse response) p H) as (next & Hs & Has).
  inversion Hs as [| | | | | | | | |? ? ? ? ? [|[? ?]]| |? subs Hsub]; subst; try done.
  { by destruct Has. }
  inversion Hsub as [| |? ? ? [|(response' & Heq & ? & _)]
    |current request ? tok base rows touched ? Hcur Hreq _ _ _ _ _ Hbase Hch _ _ Hi];
    subst; [done|by simplify_eq|].
  apply base_rows_spec in Hbase. apply changes_fold in Hch as (Hrows & HF & _).
  apply install_window_rows in Hi as [(slot & Hslot & Hids & Hrev & _ & Hsr) Hother].
  - exists current, subs, slot, base. split_and!; try done.
    + by rewrite (prepared_field st_subscriptions _ _ _ (λ _ _, eq_refl) Has).
    + intros rid. by rewrite Hsr.
  - intros id slot Hslot rid key Hm.
    destruct (subs_slots _ _ (vs_subscriptions _ Hv _ Hcur) _ _ Hslot) as [_ _ _ Hmem _ _].
    destruct (Hmem _ _ Hm) as (row & Hrow & _). by exists row.
Qed.
End window_claims.

(** ** Witnesses *)

Ltac fx_valid := apply (validate_ValidState _ tt); vm_compute; reflexivity.
Ltac fx_opened := split; [vm_compute; reflexivity|reflexivity].

Lemma retired_generation_refused_witness :
  retired (subscriptions_or_default fx_cancelled) "w" 1 ∧
  ∀ p, prepare_subscription_response fx_cancelled fx_delta_window ≠ Ok p.
Proof.
  assert (retired (subscriptions_or_default fx_cancelled) "w" 1) as Hret.
  { left. exists 1%N. split; [vm_compute; reflexivity|done]. }
  split; [exact Hret|]. intros p.
  destruct (retired_generation_refused fx_cancelled (mkRuntime fx_cancelled [])
    (mkRuntime fx_cancelled []) "w" 1 1) as [_ H]; [fx_opened|constructor|exact Hret|done|].
  by apply H.
Defined.

Lemma cancel_withdraws_witness :
  ∃ p, prepare_cancel_subscription fx_advanced "w" 1 = Ok p ∧
    subscription_snapshot (prepared_state p) "w" = None.
Proof.
  destruct (prepare_cancel_subscription fx_advanced "w" 1) as [p|] eqn:Hp;
    [|vm_compute in Hp; discriminate].
  exists p. split; [done|]. by destruct (cancel_withdraws fx_advanced "w" 1 p Hp) as (_ & ? & _).
Defined.

Lemma run_windows_progress_witness :
  ∃ slot, slots (subscriptions_or_default fx_windowed) !! "w" = Some slot ∧
  ∃ slot', slots (subscriptions_or_default fx_advanced) !! "w" = Some slot' ∧
    (slot_view_revision slot ≤ slot_view_revision slot')%N.
Proof.
  destruct (slots (subscriptions_or_default fx_windowed) !! "w") as [slot|] eqn:Hs;
    [|vm_compute in Hs; discriminate].
  exists slot. split; [done|].
  destruct (after_run fx_windowed [] (ESubscriptionResponse fx_delta_window)) as [ps Hrun];
    [vm_compute; reflexivity|].
  destruct (run_windows_progress fx_windowed (mkRuntime fx_windowed [])
    (mkRuntime fx_advanced ps) "w" slot) as [Hret|(slot' & ? & _ & _ & _ & ?)];
    [fx_opened|exact Hrun|exact Hs| |eauto].
  exfalso. vm_compute in Hs. injection Hs as <-.
  destruct Hret as [(b & Hb & _)|(q & Hq & Hlt)].
  - vm_compute in Hb. discriminate.
  - vm_compute in Hq. injection Hq as <-. vm_compute in Hlt. discriminate.
Defined.

Lemma subscriptions_isolated_witness :
  ∃ p, prepare_event fx_pulled (EStartSubscription fx_start) = Ok p ∧
    st_outbox (prepared_state p) = st_outbox fx_pulled.
Proof.
  destruct (prepare_event fx_pulled (EStartSubscription fx_start)) as [p|] eqn:Hp;
    [|vm_compute in Hp; discriminate].
  exists p. split; [done|].
  by destruct (subscriptions_isolated fx_pulled (EStartSubscription fx_start) p Hp)
    as (_ & ? & _).
Defined.

Lemma installed_view_complete_witness :
  ∃ view, subscription_snapshot fx_windowed "w" = Some view ∧
    row_record_id <$> is_rows view = ["b"; "a"].
Proof.
  destruct (st_subscriptions fx_windowed) as [subs|] eqn:Hsubs;
    [|vm_compute in Hsubs; discriminate].
  destruct (slots subs !! "w") as [slot|] eqn:Hs;
    [|vm_compute in Hsubs; injection Hsubs as <-; vm_compute in Hs; discriminate].
  destruct (installed_view_complete fx_windowed subs "w" slot) as (view & Hview & Hids & _);
    [fx_valid|exact Hsubs|exact Hs|].
  exists view. split; [exact Hview|]. rewrite Hids.
  vm_compute in Hsubs. injection Hsubs as <-. vm_compute in Hs. by injection Hs as <-.
Defined.

Lemma window_response_applies_witness :
  ∃ p, prepare_subscription_response fx_windowed fx_delta_window = Ok p ∧
    ∃ current subs slot base, st_subscriptions fx_windowed = Some current ∧
      slots subs !! "w" = Some slot ∧
      ∀ rid, slot_rows subs slot !! rid = changed base (sr_changes fx_delta_window) rid.
Proof.
  destruct (prepare_subscription_response fx_windowed fx_delta_window) as [p|] eqn:Hp;
    [|vm_compute in Hp; discriminate].
  exists p. split; [done|].
  destruct (window_response_applies fx_windowed fx_delta_window p)
    as (current & subs & slot & base & Hc & _ & Hs & _ & _ & _ & Hr & _).
  - fx_valid.
  - exact Hp.
  - discriminate.
  - intros Heq%(f_equal st_revision). vm_compute in Hp. injection Hp as <-.
    vm_compute in Heq. discriminate.
  - exists current, subs, slot, base. split; [exact Hc|]. split; [exact Hs|exact Hr].
Defined.
