(* ===== verification/ReadProps.v ===== *)
(** * Properties of the local read protocol. *)

From S2P Require Import Prelude Protocol Subscription ClientState SubscriptionState Validate IdMap Client SubscriptionClient Read Steps Runtime Fixtures.

Section rows.
Context {V : Type} `{!EqDecision V}.
Implicit Types state : DurableClientState V.
Implicit Types rows : gmap string (ReadRowV1 V).
Implicit Types row : ReadRowV1 V.

(** The row of a record in a snapshot under construction. *)
Definition row_at (complete : bool) rows (id : RecordId) : ReadRowV1 V :=
  default (empty_row id complete) (rows !! id).

Lemma row_at_entry_update complete k f rows id :
  row_at complete (entry_update complete k f rows) id =
  if decide (k = id) then f (row_at complete rows id) else row_at complete rows id.
Proof.
  unfold row_at, entry_update. case_decide as Hk.
  - subst. by rewrite lookup_insert_eq.
  - by rewrite lookup_insert_ne.
Qed.

(** A loop over the rows acts on each row separately. *)
Lemma row_at_fold {A} complete (step : gmap string (ReadRowV1 V) → A → gmap string (ReadRowV1 V))
    (upd : A → ReadRowV1 V → ReadRowV1 V) id (l : list A) rows :
  (∀ rows x, row_at complete (step rows x) id = upd x (row_at complete rows id)) →
  row_at complete (foldl step rows l) id =
  foldl (λ row x, upd x row) (row_at complete rows id) l.
Proof.
  intros Hs. revert rows. induction l as [|x l IH]; intros rows; simpl; [done|].
  by rewrite IH, Hs.
Qed.

(** A loop over map entries that acts on one key. *)
Lemma fold_entries {A} (g : A → ReadRowV1 V → ReadRowV1 V) (m : gmap string A) id row :
  foldl (λ row (x : string * A), if decide (x.1 = id) then g x.2 row else row)
    row (btree_entries m) =
  match m !! id with Some v => g v row | None => row end.
Proof.
  rewrite <-(list_to_map_btree_entries m) at 2.
  assert (NoDup (btree_entries m).*1) as Hnd by apply btree_keys_NoDup. revert row Hnd.
  generalize (btree_entries m). intros l. induction l as [|[k v] l IH]; intros row; simpl;
    [by rewrite lookup_empty|].
  intros [Hk Hnd]%NoDup_cons. rewrite IH by done. case_decide as Hid.
  - subst. rewrite lookup_insert_eq. by rewrite (not_elem_of_list_to_map_1 l id).
  - by rewrite lookup_insert_ne.
Qed.

(** The operations of a commit on a record. *)
Definition touching (id : RecordId) (c : ClientCommit V) : list (Operation V) :=
  filter (λ op, op_record_id op = id) (operations c).

Definition pending_of state (id : RecordId) : list CommitIdentity :=
  st_outbox state ≫= λ c, (λ _, commit_identity c) <$> touching id c.
Definition conflicts_of state (id : RecordId) : list ReadConflictV1 :=
  st_outcomes state ≫= λ r,
    if is_conflict (outcome r)
    then (λ _, mkReadConflict (commit_identity (local_commit r)) (resolution r))
           <$> touching id (local_commit r) else [].
Definition accepted_of state (id : RecordId) : list ReadAcceptedV1 :=
  st_outcomes state ≫= λ r,
    match outcome r with
    | Accepted _ seq _ => (λ _, read_accepted r seq) <$> touching id (local_commit r)
    | _ => []
    end.

Definition add_lists row pending conflicts accepted : ReadRowV1 V :=
  mkReadRow (rr_record_id row) (rr_confirmed row) (rr_confirmed_absence row)
    (rr_optimistic row) (rr_pending row ++ pending) (rr_conflicts row ++ conflicts)
    (rr_accepted row ++ accepted).

Lemma add_lists_nil row : add_lists row [] [] [] = row.
Proof. unfold add_lists. rewrite !app_nil_r. by destruct row. Qed.
Lemma add_lists_app row p c a p' c' a' :
  add_lists (add_lists row p c a) p' c' a' = add_lists row (p ++ p') (c ++ c') (a ++ a').
Proof. unfold add_lists. simpl. by rewrite <-!app_assoc. Qed.

(** A loop that only appends to the lists of a row. *)
Lemma fold_add_lists {A} (f : ReadRowV1 V → A → ReadRowV1 V)
    (P : A → list CommitIdentity) (C : A → list ReadConflictV1) (B : A → list ReadAcceptedV1) l row :
  (∀ row x, f row x = add_lists row (P x) (C x) (B x)) →
  foldl f row l = add_lists row (l ≫= P) (l ≫= C) (l ≫= B).
Proof.
  intros Hf. revert row. induction l as [|x l IH]; intros row; csimpl; [by rewrite add_lists_nil|].
  rewrite IH, Hf. apply add_lists_app.
Qed.

Lemma bind_touching {B} (y : B) id (ops : list (Operation V)) :
  (ops ≫= λ op, if decide (op_record_id op = id) then [y] else [])
  = (λ _, y) <$> filter (λ op, op_record_id op = id) ops.
Proof.
  induction ops as [|op ops IH]; csimpl; [done|]. rewrite filter_cons.
  case_decide; csimpl; by rewrite IH.
Qed.

Lemma bind_nil {A B} (l : list A) : (l ≫= λ _, []) = @nil B.
Proof. induction l; csimpl; auto. Qed.

Lemma outcome_rows_at complete (r : ResolvedCommit V) rows id :
  row_at complete (foldl (outcome_rows complete r) rows (operations (local_commit r))) id =
  add_lists (row_at complete rows id) []
    (if is_conflict (outcome r)
     then (λ _, mkReadConflict (commit_identity (local_commit r)) (resolution r))
            <$> touching id (local_commit r) else [])
    match outcome r with
    | Accepted _ seq _ => (λ _, read_accepted r seq) <$> touching id (local_commit r)
    | _ => []
    end.
Proof.
  unfold touching. rewrite (row_at_fold complete _ (λ op row,
    add_lists row [] (if is_conflict (outcome r) then
      if decide (op_record_id op = id)
      then [mkReadConflict (commit_identity (local_commit r)) (resolution r)] else [] else [])
      match outcome r with
      | Accepted _ seq _ =>
          if decide (op_record_id op = id) then [read_accepted r seq] else []
      | _ => []
      end)).
  - rewrite (fold_add_lists _ _ _ _ _ _ (λ _ _, eq_refl)). rewrite bind_nil.
    destruct (outcome r); simpl; by rewrite ?bind_nil, ?bind_touching.
  - intros rows' op. unfold outcome_rows. destruct (outcome r); simpl;
      rewrite ?row_at_entry_update; try case_decide; rewrite ?add_lists_nil; try done;
      unfold push_accepted, push_conflict, add_lists; by rewrite !app_nil_r.
Qed.

Lemma pending_rows_at complete (c : ClientCommit V) rows id :
  row_at complete
    (foldl (λ rows op,
       entry_update complete (op_record_id op) (push_pending (commit_identity c)) rows)
       rows (operations c)) id =
  add_lists (row_at complete rows id) ((λ _, commit_identity c) <$> touching id c) [] [].
Proof.
  unfold touching. rewrite (row_at_fold complete _ (λ op row,
    add_lists row (if decide (op_record_id op = id) then [commit_identity c] else []) [] [])).
  - rewrite (fold_add_lists _ _ _ _ _ _ (λ _ _, eq_refl)). by rewrite !bind_nil, bind_touching.
  - intros rows' op. rewrite row_at_entry_update. case_decide; rewrite ?add_lists_nil; [|done].
    unfold push_pending, add_lists. by rewrite !app_nil_r.
Qed.
End rows.

Section snapshot_spec.
Context {V : Type} `{!EqDecision V}.
Implicit Types state s self : DurableClientState V.

(** What a read of a record must say. *)
Definition read_row_spec state (id : RecordId) : ReadRowV1 V :=
  mkReadRow id (default Absent (st_confirmed state !! id))
    (if decide (is_Some (st_confirmed state !! id)) then NotAbsent
     else if decide (is_Some (st_reset_coverage state)) then AbsentWithinAuthorizedScope
     else AbsenceUnknown)
    (optimistic_projection state !! id)
    (pending_of state id) (conflicts_of state id) (accepted_of state id).

Lemma confirmed_rows_at complete (m : gmap string (RecordState V)) id :
  row_at complete
    (foldl (λ rows '(k, confirmed),
       <[k := set_confirmed_row confirmed (empty_row k complete)]> rows)
       ∅ (btree_entries m)) id =
  match m !! id with
  | Some confirmed => set_confirmed_row confirmed (empty_row id complete)
  | None => empty_row id complete
  end.
Proof.
  rewrite (row_at_fold complete _ (λ x row, if decide (x.1 = id)
    then set_confirmed_row x.2 (empty_row id complete) else row)).
  - by rewrite (fold_entries (λ v _, set_confirmed_row v (empty_row id complete))).
  - intros rows [k v]. unfold row_at. simpl. case_decide.
    + subst. by rewrite lookup_insert_eq.
    + by rewrite lookup_insert_ne.
Qed.

Lemma optimistic_rows_at complete rows (m : gmap string (OptimisticRecord V)) id :
  row_at complete
    (foldl (λ rows '(k, o), entry_update complete k (set_optimistic o) rows)
       rows (btree_entries m)) id =
  match m !! id with
  | Some o => set_optimistic o (row_at complete rows id)
  | None => row_at complete rows id
  end.
Proof.
  rewrite (row_at_fold complete _ (λ x row, if decide (x.1 = id)
    then set_optimistic x.2 row else row)).
  - by rewrite (fold_entries set_optimistic).
  - intros rows' [k v]. apply row_at_entry_update.
Qed.

Lemma snapshot_row_at state id :
  row_at (bool_decide (is_Some (st_reset_coverage state))) (snapshot_rows state) id
  = read_row_spec state id.
Proof.
  unfold snapshot_rows. set (complete := bool_decide _).
  rewrite (row_at_fold complete _ (λ r row, add_lists row []
    (if is_conflict (outcome r)
     then (λ _, mkReadConflict (commit_identity (local_commit r)) (resolution r))
            <$> touching id (local_commit r) else [])
    match outcome r with
    | Accepted _ seq _ => (λ _, read_accepted r seq) <$> touching id (local_commit r)
    | _ => []
    end)) by (intros; apply outcome_rows_at).
  rewrite (fold_add_lists _ _ _ _ _ _ (λ _ _, eq_refl)), bind_nil.
  rewrite (row_at_fold complete _ (λ c row, add_lists row
    ((λ _, commit_identity c) <$> touching id c) [] [])) by (intros; apply pending_rows_at).
  rewrite (fold_add_lists _ _ _ _ _ _ (λ _ _, eq_refl)), !bind_nil.
  rewrite add_lists_app, !app_nil_r. rewrite optimistic_rows_at, confirmed_rows_at.
  unfold read_row_spec, add_lists, complete.
  destruct (optimistic_projection state !! id), (st_confirmed state !! id);
    simpl; try done; repeat case_bool_decide; by repeat case_decide.
Qed.

Lemma snapshot_row_spec state id : snapshot_row (snapshot state) id = read_row_spec state id.
Proof.
  rewrite <-snapshot_row_at. unfold snapshot_row, row_at. simpl. f_equal. f_equal.
  by destruct (st_reset_coverage state).
Qed.

(** A local read of any record returns its confirmed state, its optimistic
    state, and in order exactly the pending commits, conflicts and accepted commits
    that touch it; a record without a confirmed state is reported absent only when
    a complete snapshot of the authorized scope covers it, and unknown otherwise. *)
Theorem read_row_exact state id :
  snapshot_row (snapshot state) id =
  mkReadRow id (default Absent (st_confirmed state !! id))
    (if decide (is_Some (st_confirmed state !! id)) then NotAbsent
     else if decide (is_Some (st_reset_coverage state)) then AbsentWithinAuthorizedScope
     else AbsenceUnknown)
    (optimistic_projection state !! id)
    (pending_of state id) (conflicts_of state id) (accepted_of state id).
Proof. apply snapshot_row_spec. Qed.

(** ** Change batches *)

Lemma snapshot_rows_id state id row :
  snapshot_rows state !! id = Some row → rr_record_id row = id.
Proof.
  intros H. pose proof (snapshot_row_at state id) as Hat. unfold row_at in Hat.
  rewrite H in Hat. simpl in Hat. by rewrite Hat.
Qed.

(** Applying one row change to a client's copy of the rows. *)
Definition apply_row_change (rows : gmap string (ReadRowV1 V)) (c : ReadRowChangeV1 V)
  : gmap string (ReadRowV1 V) :=
  match c with
  | RowUpsert row => <[rr_record_id row := row]> rows
  | RowRemove id => delete id rows
  end.

Definition row_change_id (c : ReadRowChangeV1 V) : RecordId :=
  match c with RowUpsert row => rr_record_id row | RowRemove id => id end.

(** The change the source emits for an id. *)
Definition change_at (before after : gmap string (ReadRowV1 V)) (id : RecordId)
  : option (ReadRowChangeV1 V) :=
  if decide (before !! id = after !! id) then None else
  Some match after !! id with Some row => RowUpsert row | None => RowRemove id end.

Lemma change_fold (before after rows : gmap string (ReadRowV1 V)) ids k :
  (∀ id row, after !! id = Some row → rr_record_id row = id) →
  foldl apply_row_change rows (omap (change_at before after) ids) !! k =
  if decide (k ∈ ids ∧ before !! k ≠ after !! k) then after !! k else rows !! k.
Proof.
  intros Hid. revert rows. induction ids as [|x ids IH]; intros rows.
  { rewrite decide_False by set_solver. done. }
  change (omap (change_at before after) (x :: ids)) with
    (match change_at before after x with
     | Some y => y :: omap (change_at before after) ids
     | None => omap (change_at before after) ids
     end).
  unfold change_at at 1. destruct (decide (before !! x = after !! x)) as [Hx|Hx];
    cbn [foldl]; rewrite IH.
  - clear IH. destruct (decide (k = x)) as [->|Hne]; [rewrite !decide_False by tauto; done|].
    repeat case_decide; set_solver.
  - assert (∀ rows', rows' = apply_row_change rows
      match after !! x with Some row => RowUpsert row | None => RowRemove x end →
      rows' !! k = if decide (k = x) then after !! x else rows !! k) as Hstep.
    { intros rows' ->. destruct (after !! x) as [row|] eqn:Ha; simpl.
      - rewrite (Hid _ _ Ha). destruct (decide (k = x)) as [->|]; [apply lookup_insert_eq|].
        by rewrite lookup_insert_ne.
      - destruct (decide (k = x)) as [->|]; [apply lookup_delete_eq|].
        by rewrite lookup_delete_ne. }
    rewrite (Hstep _ eq_refl). clear IH Hstep. destruct (decide (k = x)) as [->|Hne].
    + rewrite (decide_True (P := x ∈ x :: ids ∧ before !! x ≠ after !! x)) by set_solver.
      by destruct (decide (x ∈ ids ∧ before !! x ≠ after !! x)).
    + repeat case_decide; set_solver.
Qed.

Lemma row_changes_replay (before after : gmap string (ReadRowV1 V)) :
  (∀ id row, after !! id = Some row → rr_record_id row = id) →
  foldl apply_row_change before (row_changes before after) = after.
Proof.
  intros Hid. apply map_eq. intros k. unfold row_changes.
  change (λ id, if decide (before !! id = after !! id) then None else _)
    with (change_at before after).
  rewrite change_fold by done. case_decide as Hk; [done|].
  apply dec_stable. intros Hne. apply Hk. split; [|done].
  rewrite merge_sort_Permutation, elem_of_elements, elem_of_union, !elem_of_dom.
  destruct (before !! k), (after !! k); eauto; done.
Qed.

Lemma row_changes_NoDup (before after : gmap string (ReadRowV1 V)) :
  (∀ id row, after !! id = Some row → rr_record_id row = id) →
  NoDup (row_change_id <$> row_changes before after).
Proof.
  intros Hid. unfold row_changes.
  assert (NoDup (merge_sort String.le (elements (dom before ∪ dom after)))) as Hnd
    by (rewrite merge_sort_Permutation; apply NoDup_elements).
  induction (merge_sort _ _) as [|x l IH]; csimpl; [constructor|].
  apply NoDup_cons in Hnd as [Hx Hnd]. case_decide as Hd; csimpl; [by apply IH|].
  constructor; [|by apply IH].
  assert (∀ y c, (if decide (before !! y = after !! y) then None else
    Some match after !! y with Some row => RowUpsert row | None => RowRemove y end) = Some c →
    row_change_id c = y) as Hc.
  { intros y c Hy. case_decide; [done|]. injection Hy as <-.
    destruct (after !! y) eqn:Ha; simpl; eauto. }
  rewrite (Hc x) by (by rewrite decide_False).
  intros (c & Heq & (y & Hy & Hcy)%list_elem_of_omap)%list_elem_of_fmap.
  apply Hc in Hcy. congruence.
Qed.

(** C25: the change stream reproduces the view: installing a prepared transition
    yields no batch exactly when the state did not change, and otherwise a batch
    from the installed revision to the next one whose row changes, at most one per
    record, turn the rows of the old snapshot into the rows of the new one. *)
Theorem read_batch_replays self ev p :
  prepare_event self ev = Ok p →
  ∃ batch, install_with_read_batch self p = Ok (prepared_state p, batch) ∧
    match batch with
    | None => prepared_state p = self
    | Some b =>
        rb_before_revision b = st_revision self ∧
        rb_revision b = (st_revision self + 1)%N ∧
        rb_revision b = st_revision (prepared_state p) ∧
        rb_metadata b = metadata (prepared_state p) ∧
        NoDup (row_change_id <$> rb_changes b) ∧
        foldl apply_row_change (rsnap_rows (snapshot self)) (rb_changes b)
          = rsnap_rows (snapshot (prepared_state p))
    end.
Proof.
  intros Hp. destruct (prepare_event_facts _ _ _ Hp) as (_ & Hb & Hrev).
  unfold install_with_read_batch. rewrite decide_False by tauto.
  eexists. split; [done|]. unfold committed_batch. case_decide as Heq.
  - destruct Hrev as [?|Hrev]; [done|lia].
  - destruct Hrev as [Hsame|Hrev]; [by rewrite Hsame in Heq|]. simpl.
    split_and!; [done|done|done|done|apply row_changes_NoDup, snapshot_rows_id|].
    apply row_changes_replay, snapshot_rows_id.
Qed.
End snapshot_spec.

Lemma read_batch_replays_witness :
  ∃ p, prepare_event fx_conflicted (EPull (Batch fx_batch1)) = Ok p ∧
    ∃ b, install_with_read_batch fx_conflicted p = Ok (prepared_state p, Some b) ∧
      rb_revision b = 5%N.
Proof.
  destruct (prepare_event fx_conflicted (EPull (Batch fx_batch1))) as [p|] eqn:Hp;
    [|vm_compute in Hp; discriminate].
  exists p. split; [done|].
  destruct (read_batch_replays fx_conflicted (EPull (Batch fx_batch1)) p Hp)
    as ([b|] & Hi & Hb).
  - destruct Hb as (_ & Hrev & _). exists b. split; [exact Hi|]. rewrite Hrev.
    vm_compute. reflexivity.
  - exfalso. apply (f_equal st_revision) in Hb. vm_compute in Hp. injection Hp as <-.
    vm_compute in Hb. discriminate Hb.
Defined.
