(* ===== verification/Canonical.v ===== *)
(** * Canonical values and their CBOR profile.

    Models [crates/surrealdb-sync-protocol/src/canonical.rs]: the bounded value
    type, its validation budgets, the translation to and from CBOR values, the
    limited writer, the structural preflight scan and the commit fingerprint.

    The CBOR serializer ([ciborium]) and SHA-256 ([sha2]) are not part of the
    repository: they are the parameters [Ciborium] and [Sha256].  Strings and byte
    strings are their bytes; a binary64 is its bit pattern. *)

From Stdlib Require Import Strings.Byte.
From S2P Require Import Prelude Protocol.

#[export] Instance byte_eq_dec : EqDecision byte := Byte.byte_eq_dec.

Definition NONE_TAG : N := 6.
Definition RECORD_ID_TAG : N := 8.
Definition FINGERPRINT_DOMAIN : string := "surrealdb-sync/1/commit-fingerprint/sha256".
Definition MAX_DEPTH : nat := 32.
Definition MAX_CONTAINER_ITEMS : N := 1024.
Definition MAX_TOTAL_ITEMS : N := 4096.
Definition MAX_STRING_BYTES : N := 1048576.
Definition MAX_ENCODED_BYTES : N := 4194304.

(** ** Data *)

Inductive CodecError :=
| Decode
| Encode
| TrailingBytes
| NonCanonical
| Unsupported (kind : string)
| InvalidRecordId
| DuplicateObjectKey
| InvalidIdentifier
| InvalidFingerprint
| InvalidEnvelope
| DepthLimit
| ContainerLimit
| StringLimit
| EncodedLimit.

(** [CanonicalFloat(u64)]: the bits of a finite binary64, with one zero. *)
Record CanonicalFloat := mkFloat { float_bits : N }.

(** The value of the exponent field and the test [value == 0.0], on bits. *)
Definition f64_is_finite (bits : N) : bool :=
  negb (N.land (N.shiftr bits 52) 2047 =? 2047)%N.
Definition f64_is_zero (bits : N) : bool := (N.land bits 9223372036854775807 =? 0)%N.

Definition float_new (value : N) : result CanonicalFloat CodecError :=
  if negb (f64_is_finite value) then Err (Unsupported "non-finite float")
  else Ok (mkFloat (if f64_is_zero value then 0%N else value)).

Local Unset Elimination Schemes.

(** An object is a [BTreeMap], given by its entries in key order. *)
Inductive CanonicalValue :=
| VNone
| VNull
| VBool (b : bool)
| VInt (z : Z)
| VFloat (f : CanonicalFloat)
| VString (s : string)
| VBytes (bytes : list byte)
| VArray (values : list CanonicalValue)
| VObject (entries : list (string * CanonicalValue))
| VRecordId (table : string) (key : CanonicalValue).

(** [ciborium::value::Value] *)
Inductive CborValue :=
| CInteger (z : Z)
| CBytes (bytes : list byte)
| CFloat (bits : N)
| CText (s : string)
| CBool (b : bool)
| CNull
| CTag (tag : N) (value : CborValue)
| CArray (values : list CborValue)
| CMap (entries : list (CborValue * CborValue)).

Local Set Elimination Schemes.

(** Induction through the nested lists. *)
Section CanonicalValue_ind.
Variable P : CanonicalValue → Prop.
Hypothesis HNone : P VNone.
Hypothesis HNull : P VNull.
Hypothesis HBool : ∀ b, P (VBool b).
Hypothesis HInt : ∀ z, P (VInt z).
Hypothesis HFloat : ∀ f, P (VFloat f).
Hypothesis HString : ∀ s, P (VString s).
Hypothesis HBytes : ∀ b, P (VBytes b).
Hypothesis HArray : ∀ l, Forall P l → P (VArray l).
Hypothesis HObject : ∀ l, Forall (λ kv, P kv.2) l → P (VObject l).
Hypothesis HRecordId : ∀ t k, P k → P (VRecordId t k).

Fixpoint CanonicalValue_ind (v : CanonicalValue) : P v :=
  match v with
  | VNone => HNone
  | VNull => HNull
  | VBool b => HBool b
  | VInt z => HInt z
  | VFloat f => HFloat f
  | VString s => HString s
  | VBytes b => HBytes b
  | VArray l => HArray l
      ((fix go l : Forall P l :=
          match l with
          | [] => Forall_nil_2 P
          | x :: l => Forall_cons_2 P x l (CanonicalValue_ind x) (go l)
          end) l)
  | VObject l => HObject l
      ((fix go l : Forall (λ kv, P kv.2) l :=
          match l with
          | [] => Forall_nil_2 _
          | x :: l => Forall_cons_2 _ x l (CanonicalValue_ind x.2) (go l)
          end) l)
  | VRecordId t k => HRecordId t k (CanonicalValue_ind k)
  end.
End CanonicalValue_ind.

(** ** Budgets *)

(** [take_bytes(&mut remaining, length)] *)
Definition take_bytes (remaining length : N) : result N CodecError :=
  ok_or (checked_sub remaining length) EncodedLimit.
(** [remaining_items.checked_sub(count).ok_or(ContainerLimit)] *)
Definition take_items (remaining count : N) : result N CodecError :=
  ok_or (checked_sub remaining count) ContainerLimit.

Definition is_record_key (v : CanonicalValue) : bool :=
  match v with VInt _ | VString _ | VArray _ | VObject _ => true | _ => false end.

(** The state is the pair of remaining items and remaining bytes. *)
Fixpoint validate_with_budget (value : CanonicalValue) (depth : nat) (st : N * N)
  {struct value} : result (N * N) CodecError :=
  if (MAX_DEPTH <? depth)%nat then Err DepthLimit else
  let? items := take_items st.1 1 in
  let bytes := st.2 in
  match value with
  | VString s =>
      if (MAX_STRING_BYTES <? str_len s)%N then Err StringLimit else
      let? bytes := take_bytes bytes (str_len s) in Ok (items, bytes)
  | VBytes b =>
      if (MAX_STRING_BYTES <? vec_len b)%N then Err StringLimit else
      let? bytes := take_bytes bytes (vec_len b) in Ok (items, bytes)
  | VArray values =>
      if (MAX_CONTAINER_ITEMS <? vec_len values)%N then Err ContainerLimit else
      try_fold (λ st v, validate_with_budget v (S depth) st) (items, bytes) values
  | VObject entries =>
      if (MAX_CONTAINER_ITEMS <? vec_len entries)%N then Err ContainerLimit else
      let? items := take_items items (vec_len entries) in
      try_fold (λ st kv,
        if (MAX_STRING_BYTES <? str_len kv.1)%N then Err StringLimit else
        let? bytes := take_bytes st.2 (str_len kv.1) in
        validate_with_budget kv.2 (S depth) (st.1, bytes)) (items, bytes) entries
  | VRecordId table key =>
      if str_is_empty table then Err InvalidRecordId else
      if (MAX_STRING_BYTES <? str_len table)%N then Err StringLimit else
      let? bytes := take_bytes bytes (str_len table) in
      if negb (is_record_key key) then Err InvalidRecordId else
      let? items := take_items items 2 in
      validate_with_budget key (S depth) (items, bytes)
  | VNone => let? items := take_items items 1 in Ok (items, bytes)
  | _ => Ok (items, bytes)
  end.

Definition validate_value (value : CanonicalValue) : result unit CodecError :=
  let? _ := validate_with_budget value 0 (MAX_TOTAL_ITEMS, MAX_ENCODED_BYTES) in Ok tt.

Definition validate_identifier (value : string) : result unit CodecError :=
  if str_is_empty value || (MAX_STRING_BYTES <? str_len value)%N
  then Err InvalidIdentifier else Ok tt.

(** ** Translation to and from CBOR values *)

(** The order of encoded object keys: shorter first, then bytewise. *)
Definition key_shortlex (a b : string) : Prop :=
  (str_len a < str_len b)%N ∨ (str_len a = str_len b ∧ String.le a b).
#[export] Instance key_shortlex_dec : RelDecision key_shortlex.
Proof. intros a b. unfold key_shortlex. apply _. Defined.
Definition entry_shortlex {A} (a b : string * A) : Prop := key_shortlex a.1 b.1.
#[export] Instance entry_shortlex_dec {A} : RelDecision (@entry_shortlex A).
Proof. intros a b. unfold entry_shortlex. apply _. Defined.

(** The source returns a [Result] all of whose branches are [Ok]. *)
Fixpoint to_cbor (value : CanonicalValue) : CborValue :=
  match value with
  | VNone => CTag NONE_TAG CNull
  | VNull => CNull
  | VBool b => CBool b
  | VInt z => CInteger z
  | VFloat f => CFloat (float_bits f)
  | VString s => CText s
  | VBytes b => CBytes b
  | VArray values => CArray (map to_cbor values)
  | VObject entries =>
      CMap (map (λ kv, (CText kv.1, kv.2))
        (merge_sort entry_shortlex (map (λ kv, (kv.1, to_cbor kv.2)) entries)))
  | VRecordId table key => CTag RECORD_ID_TAG (CArray [CText table; to_cbor key])
  end.

(** [BTreeMap::insert], refusing a key that is present. *)
Fixpoint object_insert (k : string) (v : CanonicalValue)
    (l : list (string * CanonicalValue)) : option (list (string * CanonicalValue)) :=
  match l with
  | [] => Some [(k, v)]
  | (k', v') :: l' =>
      match str_cmp k k' with
      | Lt => Some ((k, v) :: l)
      | Eq => None
      | Gt => cons (k', v') <$> object_insert k v l'
      end
  end.

Definition is_i64 (z : Z) : bool := (-9223372036854775808 <=? z)%Z && (z <=? 9223372036854775807)%Z.

Fixpoint from_cbor (value : CborValue) : result CanonicalValue CodecError :=
  match value with
  | CInteger z =>
      if is_i64 z then Ok (VInt z) else Err (Unsupported "integer outside i64")
  | CBytes b => Ok (VBytes b)
  | CFloat bits => let? f := float_new bits in Ok (VFloat f)
  | CText s => Ok (VString s)
  | CBool b => Ok (VBool b)
  | CNull => Ok VNull
  | CTag tag inner =>
      if (tag =? NONE_TAG)%N && match inner with CNull => true | _ => false end
      then Ok VNone else
      if (tag =? RECORD_ID_TAG)%N then
        match inner with
        | CArray [table; key] =>
            let? key := from_cbor key in
            match table with
            | CText table =>
                let? _ := validate_value (VRecordId table key) in
                Ok (VRecordId table key)
            | _ => Err InvalidRecordId
            end
        | _ => Err InvalidRecordId
        end
      else Err (Unsupported "CBOR tag")
  | CArray values => let? values := try_map from_cbor values in Ok (VArray values)
  | CMap entries =>
      let? values := try_fold (λ acc kv,
        match kv.1 with
        | CText key =>
            let? v := from_cbor kv.2 in
            ok_or (object_insert key v acc) DuplicateObjectKey
        | _ => Err (Unsupported "non-text object key")
        end) [] entries in
      Ok (VObject values)
  end.

(** ** Serialization *)

(** [ciborium]: the chunks its serializer hands to the writer, with whether it
    ends without an error of its own, and the value its reader decodes from a
    buffer with the position it stops at. *)
Class Ciborium := {
  into_writer : CborValue → list (list byte) * bool;
  from_reader : list byte → option (CborValue * N);
}.

(** [sha2]: the digest of a byte string. *)
Class Sha256 := { sha256 : list byte → list byte }.

Record LimitedWriter := mkWriter {
  lw_bytes : list byte;
  lw_limit : N;
  lw_exceeded : bool;
}.

Definition lw_new (limit : N) : LimitedWriter := mkWriter [] limit false.

(** [impl Write for LimitedWriter]: the writer after the call and whether it
    accepted the input; [usize] is 64 bits wide. *)
Definition lw_write (self : LimitedWriter) (input : list byte) : LimitedWriter * bool :=
  match checked_add u64_max (vec_len (lw_bytes self)) (vec_len input) with
  | None => (mkWriter (lw_bytes self) (lw_limit self) true, false)
  | Some next_len =>
      if (lw_limit self <? next_len)%N
      then (mkWriter (lw_bytes self) (lw_limit self) true, false)
      else (mkWriter (lw_bytes self ++ input) (lw_limit self) (lw_exceeded self), true)
  end.

(** The serializer's writes: it stops at the first one that fails. *)
Fixpoint lw_write_all (self : LimitedWriter) (chunks : list (list byte))
  : LimitedWriter * bool :=
  match chunks with
  | [] => (self, true)
  | c :: chunks =>
      let '(self, ok) := lw_write self c in
      if ok then lw_write_all self chunks else (self, false)
  end.

Definition encode_cbor_value `{!Ciborium} (value : CborValue)
  : result (list byte) CodecError :=
  let '(chunks, finished) := into_writer value in
  let '(writer, ok) := lw_write_all (lw_new MAX_ENCODED_BYTES) chunks in
  if lw_exceeded writer then Err EncodedLimit else
  if ok && finished then Ok (lw_bytes writer) else Err Encode.

(** ** The preflight scan *)

(** [payload.iter().fold(0, |value, byte| (value << 8) | byte)] on [u64] *)
Definition be_value (payload : list byte) : N :=
  foldl (λ value b,
    N.lor (N.land (N.shiftl value 8) u64_max) (Byte.to_N b)) 0%N payload.

(** The slice [bytes[from..to]] when in range. *)
Definition slice (bytes : list byte) (from to : N) : option (list byte) :=
  if (from <=? to)%N && (to <=? vec_len bytes)%N
  then Some (take (N.to_nat (to - from)) (drop (N.to_nat from) bytes)) else None.

(** The argument and the cursor behind it. *)
Definition read_cbor_argument (bytes : list byte) (cursor additional : N)
  : result (N * N) CodecError :=
  let read (width : N) :=
    let? stop := ok_or (checked_add u64_max cursor width) Decode in
    let? payload := ok_or (slice bytes cursor stop) Decode in
    Ok (be_value payload, stop) in
  if (additional <=? 23)%N then Ok (additional, cursor)
  else if (additional =? 24)%N then read 1%N
  else if (additional =? 25)%N then read 2%N
  else if (additional =? 26)%N then read 4%N
  else if (additional =? 27)%N then read 8%N
  else Err Decode.

(** [n] repetitions of a fallible step. *)
Fixpoint try_repeat {S E} (f : S → result S E) (n : nat) (s : S) : result S E :=
  match n with
  | O => Ok s
  | Datatypes.S n => let? s := f s in try_repeat f n s
  end.

(** One item and everything nested in it.  [room] is [MAX_DEPTH + 1 - depth], so
    [room = 0] is the source's [depth > MAX_DEPTH]: the depth limit itself bounds
    the recursion.  The state is the cursor and the remaining items. *)
Fixpoint scan_cbor_item (bytes : list byte) (room : nat) (st : N * N)
  : result (N * N) CodecError :=
  match room with
  | O => Err DepthLimit
  | Datatypes.S room =>
      let '(cursor, remaining) := st in
      let? remaining := take_items remaining 1 in
      let? initial := ok_or (bytes !! N.to_nat cursor) Decode in
      let cursor := (cursor + 1)%N in
      let major := N.shiftr (Byte.to_N initial) 5 in
      let additional := N.land (Byte.to_N initial) 31 in
      let? (argument, cursor) := read_cbor_argument bytes cursor additional in
      if (major <=? 1)%N then Ok (cursor, remaining) else
      if (major <=? 3)%N then
        if (MAX_STRING_BYTES <? argument)%N then Err StringLimit else
        let? cursor := ok_or (checked_add u64_max cursor argument) Decode in
        if (vec_len bytes <? cursor)%N then Err Decode else Ok (cursor, remaining)
      else if (major <=? 5)%N then
        if (MAX_CONTAINER_ITEMS <? argument)%N then Err ContainerLimit else
        let entries := if (major =? 5)%N then (argument * 2)%N else argument in
        try_repeat (scan_cbor_item bytes room) (N.to_nat entries) (cursor, remaining)
      else if (major =? 6)%N then scan_cbor_item bytes room (cursor, remaining)
      else Ok (cursor, remaining)
  end.

Definition preflight_canonical_cbor (bytes : list byte) : result unit CodecError :=
  let? (cursor, _) := scan_cbor_item bytes (Datatypes.S MAX_DEPTH) (0, MAX_TOTAL_ITEMS)%N in
  if decide (cursor ≠ vec_len bytes) then Err TrailingBytes else Ok tt.

Definition canonical_cbor `{!Ciborium} (value : CanonicalValue)
  : result (list byte) CodecError :=
  let? _ := validate_value value in
  let? bytes := encode_cbor_value (to_cbor value) in
  let? _ := preflight_canonical_cbor bytes in
  Ok bytes.

(** [ciborium::de::from_reader] followed by the position check. *)
Definition read_cbor_value `{!Ciborium} (bytes : list byte) : result CborValue CodecError :=
  let? (decoded, position) := ok_or (from_reader bytes) Decode in
  if decide (position ≠ vec_len bytes) then Err TrailingBytes else Ok decoded.

Definition decode_canonical_cbor `{!Ciborium} (bytes : list byte)
  : result CanonicalValue CodecError :=
  if (MAX_ENCODED_BYTES <? vec_len bytes)%N then Err EncodedLimit else
  let? _ := preflight_canonical_cbor bytes in
  let? decoded := read_cbor_value bytes in
  let? value := from_cbor decoded in
  let? _ := validate_value value in
  let? encoded := canonical_cbor value in
  if decide (encoded ≠ bytes) then Err NonCanonical else Ok value.

(** ** Commit fingerprints *)

Definition base_version_to_cbor (version : BaseVersion) : CborValue :=
  match version with
  | BaseAbsent => CArray [CInteger 0]
  | Exact value => CArray [CInteger 1; CInteger (Z.of_N value)]
  end.

Definition optional_record_id_to_cbor (record_id : option RecordId) : CborValue :=
  match record_id with None => CNull | Some id => CText id end.

Definition operation_to_cbor (st : N * N) (operation : Operation CanonicalValue)
  : result (CborValue * (N * N)) CodecError :=
  let '(items, bytes) := st in
  match operation with
  | Upsert record_id base_version value reference =>
      let? _ := validate_identifier record_id in
      let? bytes := take_bytes bytes (str_len record_id) in
      let? bytes :=
        match reference with
        | Some reference =>
            let? _ := validate_identifier reference in
            take_bytes bytes (str_len reference)
        | None => Ok bytes
        end in
      let? st := validate_with_budget value 0 (items, bytes) in
      Ok (CArray [CInteger 0; CText record_id; base_version_to_cbor base_version;
                  to_cbor value; optional_record_id_to_cbor reference], st)
  | Delete record_id base_version =>
      let? _ := validate_identifier record_id in
      let? bytes := take_bytes bytes (str_len record_id) in
      Ok (CArray [CInteger 1; CText record_id; CInteger (Z.of_N base_version)],
          (items, bytes))
  end.

(** [iter().map(|x| f(x, &mut st)).collect::<Result<Vec<_>, _>>()] *)
Fixpoint try_map_st {A B S E} (f : S → A → result (B * S) E) (s : S) (l : list A)
  : result (list B * S) E :=
  match l with
  | [] => Ok ([], s)
  | x :: l =>
      let? (y, s) := f s x in
      let? (ys, s) := try_map_st f s l in
      Ok (y :: ys, s)
  end.

(** Two lowercase hexadecimal digits per byte: [write!("{byte:02x}")]. *)
Definition hex_digit (n : N) : Ascii.ascii :=
  Ascii.ascii_of_N (if (n <? 10)%N then 48 + n else 87 + n)%N.
Fixpoint hex_encode (bytes : list byte) : string :=
  match bytes with
  | [] => ""
  | b :: bytes =>
      String (hex_digit (N.shiftr (Byte.to_N b) 4))
        (String (hex_digit (N.land (Byte.to_N b) 15)) (hex_encode bytes))
  end.

(** The budgets of the fixed envelope fields. *)
Definition fingerprint_budget (partition_id client_id client_commit_id : string)
  : result N CodecError :=
  let? bytes := take_bytes MAX_ENCODED_BYTES (str_len FINGERPRINT_DOMAIN) in
  let? bytes := take_bytes bytes (str_len V1_NAME) in
  let? bytes := take_bytes bytes (str_len partition_id) in
  let? bytes := take_bytes bytes (str_len client_id) in
  take_bytes bytes (str_len client_commit_id).

Definition fingerprint_envelope (partition_id client_id client_commit_id : string)
    (ops : list CborValue) : CborValue :=
  CArray [CText FINGERPRINT_DOMAIN; CText V1_NAME; CText partition_id; CText client_id;
          CText client_commit_id; CArray ops].

Definition fingerprint_commit `{!Ciborium, !Sha256} (partition_id : PartitionId)
    (client_id : ClientId) (client_commit_id : ClientCommitId)
    (ops : list (Operation CanonicalValue)) : result Fingerprint CodecError :=
  if (MAX_CONTAINER_ITEMS <? vec_len ops)%N then Err ContainerLimit else
  let? _ := validate_identifier partition_id in
  let? _ := validate_identifier client_id in
  let? _ := validate_identifier client_commit_id in
  let? bytes := fingerprint_budget partition_id client_id client_commit_id in
  let? (ops, _) := try_map_st operation_to_cbor (MAX_TOTAL_ITEMS, bytes) ops in
  let? encoded :=
    encode_cbor_value (fingerprint_envelope partition_id client_id client_commit_id ops) in
  Ok ("sha256:" +:+ hex_encode (sha256 encoded)).
