(* ===== verification/CanonicalProps.v ===== *)
(** * Properties of the canonical value codec. *)

From Stdlib Require Import Strings.Byte.
From S2P Require Import Prelude Protocol Canonical.

(** ** Budget accounting *)

(** A step that succeeds exactly under [P] and then charges [i] items and [b]
    bytes to the budgets. *)
Definition charges (f : N * N → result (N * N) CodecError) (P : Prop) (i b : N) : Prop :=
  ∀ st st', f st = Ok st' ↔ P ∧ st.1 = (st'.1 + i)%N ∧ st.2 = (st'.2 + b)%N.

Lemma charges_ext f P Q i b i' b' :
  charges f P i b → (P ↔ Q) → i = i' → b = b' → charges f Q i' b'.
Proof. intros H HPQ -> -> st st'. rewrite (H st st'). tauto. Qed.

Lemma charges_pure (P : Prop) (f : N * N → result (N * N) CodecError) :
  (∀ st, P → f st = Ok st) → (∀ st st', f st = Ok st' → P ∧ st' = st) → charges f P 0 0.
Proof.
  intros H1 H2 st st'. split.
  - intros [? ->]%H2. rewrite !N.add_0_r. done.
  - destruct st, st'; simpl. rewrite !N.add_0_r. intros (HP & -> & ->). by apply H1.
Qed.

Lemma charges_bind f g P Q i b j c :
  charges f P i b → charges g Q j c →
  charges (λ st, result_bind (f st) g) (P ∧ Q) (i + j) (b + c).
Proof.
  intros Hf Hg st st'. rewrite result_bind_Ok. split.
  - intros (s & (? & ? & ?)%Hf & (? & ? & ?)%Hg). split; [done|]. lia.
  - intros ((HP & HQ) & Hi & Hb). exists (st'.1 + j, st'.2 + c)%N. split.
    + apply Hf. simpl. split; [done|]. lia.
    + apply Hg. simpl. done.
Qed.

Lemma charges_guard (b : bool) (e : CodecError) f P i c :
  charges f P i c → charges (λ st, if b then Err e else f st) (b = false ∧ P) i c.
Proof. intros Hf st st'. rewrite guard_bool_Ok, (Hf st st'). tauto. Qed.

Lemma charges_items n : charges (λ st, let? r := take_items st.1 n in Ok (r, st.2)) True n 0.
Proof.
  intros [i b] [i' b']; simpl. unfold take_items. rewrite result_bind_Ok.
  setoid_rewrite ok_or_Ok. setoid_rewrite checked_sub_Some. rewrite N.add_0_r. split.
  - intros (r & [-> ?] & [= <- <-]). split; [done|]. lia.
  - intros (_ & -> & ->). exists i'. split; [lia|done].
Qed.

Lemma charges_bytes n : charges (λ st, let? r := take_bytes st.2 n in Ok (st.1, r)) True 0 n.
Proof.
  intros [i b] [i' b']; simpl. unfold take_bytes. rewrite result_bind_Ok.
  setoid_rewrite ok_or_Ok. setoid_rewrite checked_sub_Some. rewrite N.add_0_r. split.
  - intros (r & [-> ?] & [= <- <-]). split; [done|]. lia.
  - intros (_ & -> & ->). exists b'. split; [lia|done].
Qed.

Definition sum_N {A} (f : A → N) (l : list A) : N := foldr (λ x n, f x + n)%N 0%N l.

Lemma charges_fold {A} (f : N * N → A → result (N * N) CodecError) (P : A → Prop) i b l :
  Forall (λ x, charges (λ st, f st x) (P x) (i x) (b x)) l →
  charges (λ st, try_fold f st l) (Forall P l) (sum_N i l) (sum_N b l).
Proof.
  induction 1 as [|x l Hx Hl IH]; simpl.
  - apply charges_pure; [done|]. intros st st' [= ->]. split; [constructor|done].
  - eapply charges_ext; [apply (charges_bind _ _ _ _ _ _ _ _ Hx IH)|by rewrite Forall_cons|done..].
Qed.

(** Nesting depth, items and bytes of a value, and its local size limits. *)
Fixpoint value_depth (v : CanonicalValue) : nat :=
  match v with
  | VArray l => foldr (λ x n, S (value_depth x) `max` n) 0 l
  | VObject l => foldr (λ kv n, S (value_depth kv.2) `max` n) 0 l
  | VRecordId _ key => S (value_depth key)
  | _ => 0
  end.
Fixpoint value_items (v : CanonicalValue) : N :=
  match v with
  | VNone => 2
  | VArray l => 1 + foldr (λ x n, value_items x + n) 0 l
  | VObject l => 1 + (N.of_nat (length l) + foldr (λ kv n, value_items kv.2 + n) 0 l)
  | VRecordId _ key => 3 + value_items key
  | _ => 1
  end%N.
Fixpoint value_bytes (v : CanonicalValue) : N :=
  match v with
  | VString s => str_len s
  | VBytes b => N.of_nat (length b)
  | VArray l => foldr (λ x n, value_bytes x + n) 0 l
  | VObject l => foldr (λ kv n, (str_len kv.1 + value_bytes kv.2) + n) 0 l
  | VRecordId table key => str_len table + value_bytes key
  | _ => 0
  end%N.
Fixpoint value_sized (v : CanonicalValue) : Prop :=
  match v with
  | VString s => (str_len s ≤ MAX_STRING_BYTES)%N
  | VBytes b => (vec_len b ≤ MAX_STRING_BYTES)%N
  | VArray l => (vec_len l ≤ MAX_CONTAINER_ITEMS)%N ∧ foldr (λ x P, value_sized x ∧ P) True l
  | VObject l => (vec_len l ≤ MAX_CONTAINER_ITEMS)%N ∧
      foldr (λ kv P, ((str_len kv.1 ≤ MAX_STRING_BYTES)%N ∧ value_sized kv.2) ∧ P) True l
  | VRecordId table key => table ≠ "" ∧ (str_len table ≤ MAX_STRING_BYTES)%N ∧
      is_record_key key = true ∧ value_sized key
  | _ => True
  end.

Lemma foldr_and_Forall {A} (P : A → Prop) l : foldr (λ x Q, P x ∧ Q) True l ↔ Forall P l.
Proof.
  induction l as [|x l IH]; simpl; [by rewrite Forall_nil|]. by rewrite IH, Forall_cons.
Qed.

Lemma max_depth_Forall {A} (d : A → nat) (l : list A) m :
  foldr (λ x n, S (d x) `max` n) 0 l ≤ m ↔ Forall (λ x, S (d x) ≤ m) l.
Proof.
  induction l as [|x l IH]; simpl.
  - rewrite Forall_nil. split; [done|lia].
  - rewrite Forall_cons, <-IH. lia.
Qed.

(** Entering a value: the depth test and its own item. *)
Lemma charges_enter depth (f : N * N → result (N * N) CodecError) P i b :
  charges f P i b →
  charges (λ st, if (MAX_DEPTH <? depth)%nat then Err DepthLimit else
                 let? r := take_items st.1 1 in f (r, st.2))
    (depth ≤ MAX_DEPTH ∧ P) (1 + i) b.
Proof.
  intros Hf. eapply charges_ext.
  - apply charges_guard. intros st st'.
    transitivity (result_bind (let? r := take_items st.1 1 in Ok (r, st.2)) f = Ok st').
    + destruct (take_items st.1 1); done.
    + apply (charges_bind _ _ _ _ _ _ _ _ (charges_items 1) Hf).
  - simpl. rewrite Nat.ltb_ge. tauto.
  - done.
  - done.
Qed.

Lemma charges_take_bytes n f P i b :
  charges f P i b →
  charges (λ st, let? r := take_bytes st.2 n in f (st.1, r)) P i (n + b).
Proof.
  intros Hf st st'.
  transitivity (result_bind (let? r := take_bytes st.2 n in Ok (st.1, r)) f = Ok st').
  - destruct (take_bytes st.2 n); done.
  - pose proof (charges_bind _ _ _ _ _ _ _ _ (charges_bytes n) Hf st st') as H.
    simpl in H. rewrite H. rewrite N.add_0_l. tauto.
Qed.

Lemma charges_take_items n f P i b :
  charges f P i b →
  charges (λ st, let? r := take_items st.1 n in f (r, st.2)) P (n + i) b.
Proof.
  intros Hf st st'.
  transitivity (result_bind (let? r := take_items st.1 n in Ok (r, st.2)) f = Ok st').
  - destruct (take_items st.1 n); done.
  - pose proof (charges_bind _ _ _ _ _ _ _ _ (charges_items n) Hf st st') as H.
    simpl in H. rewrite H. rewrite N.add_0_l. tauto.
Qed.

Lemma charges_nothing : charges Ok True 0 0.
Proof. by apply charges_pure; [done|intros st st' [= ->]]. Qed.

(** The body of a value behind the depth test. *)
Definition fits (v : CanonicalValue) (depth : nat) : Prop :=
  value_sized v ∧ depth + value_depth v ≤ MAX_DEPTH.

(** The depth of a container is bounded by the room left for its elements. *)
Lemma container_depth {A} (d : A → nat) (l : list A) depth :
  depth + foldr (λ x n, S (d x) `max` n) 0 l ≤ MAX_DEPTH ↔
  depth ≤ MAX_DEPTH ∧ Forall (λ x, S depth + d x ≤ MAX_DEPTH) l.
Proof.
  transitivity (depth ≤ MAX_DEPTH ∧
    foldr (λ x n, S (d x) `max` n) 0 l ≤ MAX_DEPTH - depth); [lia|].
  rewrite max_depth_Forall.
  split; intros [Hd H]; (split; [done|]); (eapply Forall_impl; [exact H|]);
    simpl; intros; lia.
Qed.

Lemma validate_charges v : ∀ depth,
  charges (validate_with_budget v depth) (fits v depth) (value_items v) (value_bytes v).
Proof.
  induction v as [| |b|z|f|s|b|l IH|l IH|t k IH] using CanonicalValue_ind;
    intros depth; unfold fits.
  1: refine (charges_ext _ _ _ _ _ _ _
       (charges_enter depth (λ st, let? r := take_items st.1 1 in Ok (r, st.2)) _ _ _
          (charges_items 1)) _ _ _); simpl; lia.
  1-4: refine (charges_ext _ _ _ _ _ _ _
       (charges_enter depth Ok _ _ _ charges_nothing) _ _ _); simpl; lia.
  - refine (charges_ext _ _ _ _ _ _ _ (charges_enter depth
      (λ st, if (MAX_STRING_BYTES <? str_len s)%N then Err StringLimit else
             let? r := take_bytes st.2 (str_len s) in Ok (st.1, r)) _ _ _
      (charges_guard _ _ _ _ _ _ (charges_bytes _))) _ _ _); simpl; rewrite ?N.ltb_ge; lia.
  - refine (charges_ext _ _ _ _ _ _ _ (charges_enter depth
      (λ st, if (MAX_STRING_BYTES <? vec_len b)%N then Err StringLimit else
             let? r := take_bytes st.2 (vec_len b) in Ok (st.1, r)) _ _ _
      (charges_guard _ _ _ _ _ _ (charges_bytes _))) _ _ _); simpl; rewrite ?N.ltb_ge;
      unfold vec_len; lia.
  - refine (charges_ext _ _ _ _ _ _ _ (charges_enter depth
      (λ st, if (MAX_CONTAINER_ITEMS <? vec_len l)%N then Err ContainerLimit else
             try_fold (λ st x, validate_with_budget x (S depth) st) st l) _ _ _
      (charges_guard _ _ _ _ _ _ (charges_fold _ _ _ _ _
         (Forall_impl _ _ _ IH (λ x Hx, Hx (S depth)))))) _ _ _); [|done..].
    simpl. rewrite N.ltb_ge, foldr_and_Forall, (container_depth value_depth). unfold fits.
    rewrite Forall_and. tauto.
  - refine (charges_ext _ _ _ _ _ _ _ (charges_enter depth
      (λ st, if (MAX_CONTAINER_ITEMS <? vec_len l)%N then Err ContainerLimit else
         let? r := take_items st.1 (vec_len l) in
         try_fold (λ st kv, if (MAX_STRING_BYTES <? str_len kv.1)%N then Err StringLimit else
           let? r := take_bytes st.2 (str_len kv.1) in
           validate_with_budget kv.2 (S depth) (st.1, r)) (r, st.2) l) _ _ _
      (charges_guard _ _ _ _ _ _ (charges_take_items _ (λ st, try_fold _ st l) _ _ _
         (charges_fold _ _ _ _ _ (Forall_impl _ _ _ IH (λ kv Hx,
            charges_guard _ _ _ _ _ _ (charges_take_bytes _ _ _ _ _ (Hx (S depth))))))))) _ _ _).
    + simpl. setoid_rewrite N.ltb_ge.
      rewrite foldr_and_Forall, (container_depth (λ kv, value_depth kv.2)). unfold fits.
      rewrite !Forall_and. tauto.
    + simpl. unfold vec_len, sum_N. lia.
    + done.
  - refine (charges_ext _ _ _ _ _ _ _ (charges_enter depth
      (λ st, if str_is_empty t then Err InvalidRecordId else
         if (MAX_STRING_BYTES <? str_len t)%N then Err StringLimit else
         let? r := take_bytes st.2 (str_len t) in
         if negb (is_record_key k) then Err InvalidRecordId else
         let? i := take_items st.1 2 in validate_with_budget k (S depth) (i, r)) _ _ _
      (charges_guard _ _ _ _ _ _ (charges_guard _ _ _ _ _ _ (charges_take_bytes _
         (λ st, if negb (is_record_key k) then Err InvalidRecordId else
            let? i := take_items st.1 2 in validate_with_budget k (S depth) (i, st.2)) _ _ _
         (charges_guard _ _ _ _ _ _ (charges_take_items _ _ _ _ _ (IH (S depth)))))))) _ _ _).
    + simpl. unfold str_is_empty, fits. rewrite bool_decide_eq_false, N.ltb_ge, negb_false_iff.
      split; [intros (? & ? & ? & ? & ? & ?)|intros ((? & ? & ? & ?) & ?)];
        split_and!; (done || lia).
    + simpl. lia.
    + simpl. lia.
Qed.

(** The value budget is exact: validation of a value at a nesting depth with
    given remaining items and bytes succeeds if and only if every string and
    container is within its limit, the nesting stays within 32 levels, and the
    budgets cover the items and bytes of the whole value; it then leaves exactly
    what the value does not use. *)
Theorem validation_budget_exact v depth items bytes items' bytes' :
  validate_with_budget v depth (items, bytes) = Ok (items', bytes') ↔
  value_sized v ∧ depth + value_depth v ≤ MAX_DEPTH ∧
  items = (items' + value_items v)%N ∧ bytes = (bytes' + value_bytes v)%N.
Proof.
  rewrite (validate_charges v depth (items, bytes) (items', bytes')). unfold fits. simpl. tauto.
Qed.

(** ** The CBOR translation *)

(** What the Rust types guarantee: [i64] integers, normalized floats, and objects
    whose keys are distinct and in order. *)
Definition float_canonical (f : CanonicalFloat) : Prop :=
  float_new (float_bits f) = Ok f ∧ (float_bits f ≤ u64_max)%N.

Definition entry_lt {A} (a b : string * A) : Prop := str_lt a.1 b.1.

Fixpoint value_wf (v : CanonicalValue) : Prop :=
  match v with
  | VInt z => is_i64 z = true
  | VFloat f => float_canonical f
  | VArray l => foldr (λ x P, value_wf x ∧ P) True l
  | VObject l => StronglySorted entry_lt l ∧ foldr (λ kv P, value_wf kv.2 ∧ P) True l
  | VRecordId _ key => value_wf key
  | _ => True
  end.

Lemma validate_value_spec v :
  validate_value v = Ok tt ↔
  value_sized v ∧ value_depth v ≤ MAX_DEPTH ∧ (value_items v ≤ MAX_TOTAL_ITEMS)%N ∧
  (value_bytes v ≤ MAX_ENCODED_BYTES)%N.
Proof.
  unfold validate_value. rewrite result_bind_Ok. split.
  - intros ([i b] & (Hf & Hi & Hb)%validate_charges & _). destruct Hf. simpl in *.
    split_and!; [done..|lia|lia].
  - intros (Hs & Hd & Hi & Hb).
    exists (MAX_TOTAL_ITEMS - value_items v, MAX_ENCODED_BYTES - value_bytes v)%N.
    split; [|done]. apply validate_charges. simpl. split; [split; [done|lia]|]. lia.
Qed.

(** *** Objects as sorted entry lists *)

#[export] Instance entry_lt_trans {A} : Transitive (@entry_lt A).
Proof. intros a b c. unfold entry_lt. apply (transitivity (R := str_lt)). Qed.
#[export] Instance entry_lt_antisymm {A} : AntiSymm (=) (@entry_lt A).
Proof.
  intros a b H1 H2. exfalso. unfold entry_lt in *. apply (str_lt_irrefl a.1).
  by transitivity b.1.
Qed.

Lemma object_insert_perm k v l l' :
  object_insert k v l = Some l' → l' ≡ₚ (k, v) :: l.
Proof.
  revert l'. induction l as [|[k' v'] l IH]; intros l'; simpl; [by intros [= <-]|].
  destruct (str_cmp k k'); [done|by intros [= <-]|].
  intros (l1 & H1 & ->)%fmap_Some. rewrite (IH l1 H1). apply Permutation_swap.
Qed.

Lemma object_insert_sorted k v l l' :
  StronglySorted entry_lt l → object_insert k v l = Some l' → StronglySorted entry_lt l'.
Proof.
  revert l'. induction l as [|[k' v'] l IH]; intros l' Hs; simpl.
  { intros [= <-]. repeat constructor. }
  apply StronglySorted_inv in Hs as [Hs Hall]. destruct (str_cmp k k') eqn:Hc; [done| |].
  - intros [= <-]. constructor; [by constructor|]. constructor; [done|].
    eapply Forall_impl; [exact Hall|]. intros x Hx. unfold entry_lt in *. simpl in *.
    by transitivity k'.
  - intros (l1 & H1 & ->)%fmap_Some. constructor; [by eapply IH|].
    rewrite (object_insert_perm _ _ _ _ H1). constructor; [|done].
    unfold entry_lt, str_lt. simpl. by rewrite str_cmp_antisym, Hc.
Qed.

Lemma object_insert_fresh k v l : k ∉ l.*1 → is_Some (object_insert k v l).
Proof.
  induction l as [|[k' v'] l IH]; csimpl; [eauto|]. intros [Hne Hn]%not_elem_of_cons.
  destruct (str_cmp k k') eqn:Hc; [|eauto|].
  - by apply str_cmp_eq in Hc.
  - destruct (IH Hn) as [l1 ->]. eauto.
Qed.

(** Inserting distinct entries in any order gives the sorted entry list. *)
Lemma object_inserts (entries : list (string * CanonicalValue)) acc :
  StronglySorted entry_lt acc → NoDup (entries.*1 ++ acc.*1) →
  ∃ l, try_fold (λ acc (kv : string * CanonicalValue),
         ok_or (object_insert kv.1 kv.2 acc) DuplicateObjectKey) acc entries = Ok l ∧
    StronglySorted entry_lt l ∧ l ≡ₚ entries ++ acc.
Proof.
  revert acc. induction entries as [|[k v] l IH]; intros acc Hs Hnd; csimpl in *.
  { exists acc. by split_and!. }
  apply NoDup_cons in Hnd as [Hk Hnd]. apply not_elem_of_app in Hk as [Hk1 Hk2].
  destruct (object_insert_fresh k v acc Hk2) as [acc1 Hacc]. rewrite Hacc. simpl.
  pose proof (object_insert_perm _ _ _ _ Hacc) as Hp.
  destruct (IH acc1) as (l' & -> & Hs' & Hp').
  - by eapply object_insert_sorted.
  - rewrite Hp. csimpl. rewrite <-Permutation_middle. constructor; [|done].
    by rewrite elem_of_app; intros [?|?].
  - exists l'. split_and!; [done..|]. rewrite Hp', Hp. symmetry. apply Permutation_middle.
Qed.

Lemma sorted_keys_NoDup {A} (l : list (string * A)) : StronglySorted entry_lt l → NoDup l.*1.
Proof.
  induction 1 as [|[k v] l Hs IH Hall]; csimpl; constructor; [|done].
  intros (x & -> & Hx)%list_elem_of_fmap. rewrite Forall_forall in Hall.
  apply Hall in Hx. by apply (str_lt_irrefl x.1).
Qed.

(** *** Round trip *)

(** The decoding loop of a map whose keys are texts. *)
Lemma map_decode_loop (l : list (string * CborValue)) (vs : list (string * CanonicalValue)) acc :
  Forall2 (λ kc kv, kv.1 = kc.1 ∧ from_cbor kc.2 = Ok kv.2) l vs →
  try_fold (λ acc kv,
    match kv.1 with
    | CText key =>
        let? v := from_cbor kv.2 in
        ok_or (object_insert key v acc) DuplicateObjectKey
    | _ => Err (Unsupported "non-text object key")
    end) acc (map (λ kv, (CText kv.1, kv.2)) l) =
  try_fold (λ acc (kv : string * CanonicalValue),
    ok_or (object_insert kv.1 kv.2 acc) DuplicateObjectKey) acc vs.
Proof.
  intros H. revert acc. induction H as [|[k c] [k' v] l vs [Hk Hc] _ IH]; intros acc; [done|].
  simpl in *. subst. rewrite Hc. simpl. destruct (object_insert k v acc); simpl; [apply IH|done].
Qed.

Lemma value_sized_sub_array l x :
  value_sized (VArray l) → x ∈ l → value_sized x.
Proof.
  simpl. intros [_ H]. apply (foldr_and_Forall value_sized) in H.
  rewrite Forall_forall in H. apply H.
Qed.

#[local] Opaque validate_value float_new is_i64.

(** The nested record ids of a value pass the check their decoding repeats. *)
Fixpoint record_ids_valid (v : CanonicalValue) : Prop :=
  match v with
  | VArray l => foldr (λ x P, record_ids_valid x ∧ P) True l
  | VObject l => foldr (λ kv P, record_ids_valid kv.2 ∧ P) True l
  | VRecordId _ key => record_ids_valid key ∧ validate_value v = Ok tt
  | _ => True
  end.

Lemma from_to_cbor v : value_wf v → record_ids_valid v → from_cbor (to_cbor v) = Ok v.
Proof.
  induction v as [| |b|z|f|s|b|l IH|l IH|t k IH] using CanonicalValue_ind; intros Hwf Hrid;
    simpl in Hwf, Hrid |- *; try reflexivity.
  - by rewrite Hwf.
  - destruct Hwf as [Hwf _]. by rewrite Hwf.
  - apply (foldr_and_Forall value_wf) in Hwf. apply (foldr_and_Forall record_ids_valid) in Hrid.
    rewrite (proj2 (try_map_Ok _ _ l)); [done|].
    rewrite Forall_forall in IH, Hwf, Hrid. apply Forall2_fmap_l, Forall_Forall2_diag, Forall_forall.
    intros x Hx. simpl. auto.
  - destruct Hwf as [Hs Hwf]. apply (foldr_and_Forall (λ kv, value_wf kv.2)) in Hwf.
    apply (foldr_and_Forall (λ kv, record_ids_valid kv.2)) in Hrid.
    set (enc := map (λ kv : string * CanonicalValue, (kv.1, to_cbor kv.2)) l).
    assert (∃ vs, vs ≡ₚ l ∧ merge_sort entry_shortlex enc
                  = map (λ kv : string * CanonicalValue, (kv.1, to_cbor kv.2)) vs)
      as (vs & Hvs & Henc).
    { destruct (Permutation_map_inv _ _ (merge_sort_Permutation entry_shortlex enc))
        as (vs & Heq & Hp). exists vs. split; [by symmetry|done]. }
    rewrite Henc, (map_decode_loop _ vs).
    + destruct (object_inserts vs []) as (l' & -> & Hs' & Hp'); [constructor| |].
      { rewrite app_nil_r, Hvs. by apply sorted_keys_NoDup. }
      simpl. do 2 f_equal. rewrite app_nil_r in Hp'.
      apply (StronglySorted_unique entry_lt); [done..|]. by rewrite Hp'.
    + rewrite Forall_forall in IH, Hwf, Hrid. apply Forall2_fmap_l, Forall_Forall2_diag, Forall_forall.
      intros kv Hkv. simpl. split; [done|]. rewrite Hvs in Hkv. auto.
  - destruct Hrid as [Hrid Hval]. rewrite IH by done. simpl. by rewrite Hval.
Qed.

Lemma sum_ge {A} (f : A → N) (l : list A) x :
  x ∈ l → (f x ≤ foldr (λ y n, f y + n) 0 l)%N.
Proof.
  induction l as [|y l IH]; [by intros ?%not_elem_of_nil|].
  intros [->|?%IH]%elem_of_cons; simpl; lia.
Qed.

Lemma max_ge {A} (d : A → nat) (l : list A) x :
  x ∈ l → S (d x) ≤ foldr (λ y n, S (d y) `max` n) 0 l.
Proof.
  induction l as [|y l IH]; [by intros ?%not_elem_of_nil|].
  intros [->|?%IH]%elem_of_cons; simpl; lia.
Qed.

Lemma validate_record_ids v : validate_value v = Ok tt → record_ids_valid v.
Proof.
  induction v as [| |b|z|f|s|b|l IH|l IH|t k IH] using CanonicalValue_ind; try done; intros H.
  - apply validate_value_spec in H as (Hs & Hd & Hi & Hb).
    apply (foldr_and_Forall record_ids_valid). rewrite Forall_forall in IH |- *.
    intros x Hx. apply IH; [done|]. apply validate_value_spec. simpl in Hs, Hd, Hi, Hb.
    destruct Hs as [_ Hs%(foldr_and_Forall value_sized)]. rewrite Forall_forall in Hs.
    pose proof (max_ge value_depth l x Hx). pose proof (sum_ge value_items l x Hx).
    pose proof (sum_ge value_bytes l x Hx). split_and!; [by apply Hs|lia..].
  - apply validate_value_spec in H as (Hs & Hd & Hi & Hb).
    apply (foldr_and_Forall (λ kv, record_ids_valid kv.2)). rewrite Forall_forall in IH |- *.
    intros x Hx. apply IH; [done|]. apply validate_value_spec. simpl in Hs, Hd, Hi, Hb.
    destruct Hs as [_ Hs%(foldr_and_Forall (λ kv, (str_len kv.1 ≤ MAX_STRING_BYTES)%N ∧
      value_sized kv.2))]. rewrite Forall_forall in Hs. destruct (Hs x Hx) as [_ ?].
    pose proof (max_ge (λ kv, value_depth kv.2) l x Hx).
    pose proof (sum_ge (λ kv, value_items kv.2) l x Hx).
    pose proof (sum_ge (λ kv, str_len kv.1 + value_bytes kv.2)%N l x Hx).
    simpl in *. split_and!; [done|lia..].
  - split; [|done]. apply IH. apply validate_value_spec in H as (Hs & Hd & Hi & Hb).
    apply validate_value_spec. simpl in Hs, Hd, Hi, Hb. destruct Hs as (_ & _ & _ & Hs).
    split_and!; [done|lia..].
Qed.

(** Translating a valid value to CBOR and back gives the same value, for every
    constructor, including objects, whose entries travel in length-first key order
    and come back as the ordered map, and nested record ids. *)
Theorem cbor_value_roundtrip v :
  value_wf v → validate_value v = Ok tt → from_cbor (to_cbor v) = Ok v.
Proof. intros Hwf Hv. by apply from_to_cbor, validate_record_ids. Qed.

Definition fx_value : CanonicalValue :=
  VObject [("b", VArray [VInt (-3); VNone; VFloat (mkFloat 4611686018427387904)]);
           ("c", VRecordId "item" (VString "k")); ("title", VNull)].

Lemma cbor_value_roundtrip_witness :
  value_wf fx_value ∧ validate_value fx_value = Ok tt ∧
  from_cbor (to_cbor fx_value) = Ok fx_value.
Proof.
  assert (value_wf fx_value) as Hwf.
  { split; [repeat constructor|]. simpl. repeat split; vm_compute; (reflexivity || discriminate). }
  assert (validate_value fx_value = Ok tt) as Hv by (vm_compute; reflexivity).
  split; [exact Hwf|]. split; [exact Hv|]. exact (cbor_value_roundtrip fx_value Hwf Hv).
Defined.

(** ** Bytes *)

(** What the CBOR library promises: a value within its recursion limit and the
    range of its integers and tags, whose floats are finite and which has no bignum
    tag, is read back whole from the bytes its serializer writes when it reports no
    error.  (A text that is not UTF-8 is no value of the library, so nothing is
    promised of it: its serialization may be taken to fail.) *)
Fixpoint cbor_depth (v : CborValue) : nat :=
  match v with
  | CTag _ x => S (cbor_depth x)
  | CArray l => S (foldr (λ x n, cbor_depth x `max` n) 0 l)
  | CMap l => S (foldr (λ kv n, (cbor_depth kv.1 `max` cbor_depth kv.2) `max` n) 0 l)
  | _ => 0
  end.

Definition is_cbor_integer (z : Z) : Prop := (-18446744073709551616 ≤ z < 18446744073709551616)%Z.

Fixpoint cbor_plain (v : CborValue) : Prop :=
  match v with
  | CInteger z => is_cbor_integer z
  | CFloat bits => f64_is_finite bits = true ∧ (bits ≤ u64_max)%N
  | CTag tag x => (tag ≤ u64_max ∧ tag ≠ 2 ∧ tag ≠ 3)%N ∧ cbor_plain x
  | CArray l => foldr (λ x P, cbor_plain x ∧ P) True l
  | CMap l => foldr (λ kv P, (cbor_plain kv.1 ∧ cbor_plain kv.2) ∧ P) True l
  | _ => True
  end.

Class CiboriumLaws `{!Ciborium} : Prop := {
  ciborium_roundtrip v : cbor_plain v → cbor_depth v ≤ 128 → (into_writer v).2 = true →
    from_reader (concat (into_writer v).1) = Some (v, vec_len (concat (into_writer v).1));
}.

Section bytes.
Context {ciborium : Ciborium}.

(** The limited writer either collects every chunk or reports that the limit
    was exceeded; it never keeps more than its limit. *)
Lemma lw_write_all_spec chunks bytes limit w ok :
  lw_write_all (mkWriter bytes limit false) chunks = (w, ok) →
  (vec_len bytes ≤ limit)%N → (limit ≤ u64_max)%N →
  (ok = true ∧ lw_exceeded w = false ∧ lw_bytes w = bytes ++ concat chunks ∧
   (vec_len (lw_bytes w) ≤ limit)%N) ∨ (ok = false ∧ lw_exceeded w = true).
Proof.
  revert bytes. induction chunks as [|c chunks IH]; intros bytes H Hb Hl; simpl in H.
  { injection H as <- <-. left. simpl. rewrite app_nil_r. done. }
  unfold lw_write in H; simpl in H.
  destruct (checked_add u64_max (vec_len bytes) (vec_len c)) as [n|] eqn:Hn.
  - apply checked_add_Some in Hn as [-> _].
    destruct (limit <? vec_len bytes + vec_len c)%N eqn:Hlt.
    + injection H as <- <-. by right.
    + apply N.ltb_ge in Hlt. apply IH in H as [(? & ? & Hw & ?)|?]; [|by right| |done].
      * left. split_and!; [done..| |done]. by rewrite Hw, <-app_assoc.
      * unfold vec_len in *. rewrite length_app. lia.
  - injection H as <- <-. by right.
Qed.

Lemma encode_cbor_value_Ok v bytes :
  encode_cbor_value v = Ok bytes →
  (into_writer v).2 = true ∧ bytes = concat (into_writer v).1 ∧
  (vec_len bytes ≤ MAX_ENCODED_BYTES)%N.
Proof.
  unfold encode_cbor_value. destruct (into_writer v) as [chunks finished]. simpl.
  destruct (lw_write_all _ _) as [w ok] eqn:Hw.
  apply lw_write_all_spec in Hw; [|unfold vec_len; simpl; lia|vm_compute; discriminate].
  intros H. apply guard_bool_Ok in H as [He H].
  destruct Hw as [(-> & _ & Hb & Hl)|[_ ?]]; [|congruence].
  destruct finished; [|done]. injection H as <-. split_and!; [done|by rewrite Hb|done].
Qed.

Lemma canonical_cbor_Ok v bytes :
  canonical_cbor v = Ok bytes →
  validate_value v = Ok tt ∧ encode_cbor_value (to_cbor v) = Ok bytes ∧
  preflight_canonical_cbor bytes = Ok tt.
Proof.
  unfold canonical_cbor. intros H. apply result_bind_Ok in H as ([] & ? & H).
  apply result_bind_Ok in H as (b & ? & H). apply result_bind_Ok in H as ([] & ? & [= ->]).
  done.
Qed.

Lemma decode_canonical_Ok bytes v :
  decode_canonical_cbor bytes = Ok v → canonical_cbor v = Ok bytes.
Proof.
  unfold decode_canonical_cbor. intros H. apply guard_bool_Ok in H as [_ H].
  apply result_bind_Ok in H as ([] & _ & H). apply result_bind_Ok in H as (d & _ & H).
  apply result_bind_Ok in H as (v' & _ & H). apply result_bind_Ok in H as ([] & _ & H).
  apply result_bind_Ok in H as (e & He & H). apply guard_Ok in H as [Heq [= ->]].
  by apply dec_stable in Heq as ->.
Qed.

(** Every value has at most one accepted encoding: bytes that decode to a value
    are exactly the bytes the encoder produces for it, so two accepted byte
    strings with the same value are equal, and every decoded value is within all
    limits, whatever the CBOR library does. *)
Theorem decode_canonical_unique bytes v :
  decode_canonical_cbor bytes = Ok v →
  canonical_cbor v = Ok bytes ∧ validate_value v = Ok tt ∧
  (vec_len bytes ≤ MAX_ENCODED_BYTES)%N ∧
  ∀ bytes', decode_canonical_cbor bytes' = Ok v → bytes' = bytes.
Proof.
  intros H%decode_canonical_Ok. split; [done|].
  destruct (canonical_cbor_Ok _ _ H) as (Hv & He & _).
  apply encode_cbor_value_Ok in He as (_ & _ & Hlen). split_and!; [done..|].
  intros bytes' H'%decode_canonical_Ok. congruence.
Qed.

(** ** Encoding then decoding *)

Lemma depth_le_Forall {A} (d : A → nat) (l : list A) m :
  foldr (λ x n, d x `max` n) 0 l ≤ m ↔ Forall (λ x, d x ≤ m) l.
Proof.
  induction l as [|x l IH]; simpl; [rewrite Forall_nil; split; [done|lia]|].
  rewrite Forall_cons, <-IH. lia.
Qed.

#[local] Transparent float_new is_i64.

Lemma float_new_finite bits f : float_new bits = Ok f → f64_is_finite bits = true.
Proof. unfold float_new. intros [H _]%guard_bool_Ok. by apply negb_false_iff in H. Qed.

Lemma to_cbor_entries (l : list (string * CanonicalValue)) (P : string * CborValue → Prop) :
  Forall (λ kv, P (kv.1, to_cbor kv.2)) l →
  Forall P (merge_sort entry_shortlex (map (λ kv, (kv.1, to_cbor kv.2)) l)).
Proof. intros H. rewrite merge_sort_Permutation. by apply Forall_fmap. Qed.

Lemma to_cbor_plain v : value_wf v → cbor_plain (to_cbor v).
Proof.
  induction v as [| |b|z|f|s|b|l IH|l IH|t k IH] using CanonicalValue_ind; intros Hwf;
    cbn [value_wf] in Hwf; try done.
  - unfold is_i64 in Hwf. apply andb_true_iff in Hwf as [?%Z.leb_le ?%Z.leb_le].
    simpl. unfold is_cbor_integer. lia.
  - destruct Hwf as [?%float_new_finite ?]. done.
  - apply (foldr_and_Forall value_wf) in Hwf. simpl.
    apply (foldr_and_Forall cbor_plain), Forall_fmap. rewrite Forall_forall in IH, Hwf |- *.
    intros x Hx. apply IH; auto.
  - destruct Hwf as [_ Hwf%(foldr_and_Forall (λ kv, value_wf kv.2))]. simpl.
    apply (foldr_and_Forall (λ kv, cbor_plain kv.1 ∧ cbor_plain kv.2)), Forall_fmap.
    apply to_cbor_entries. rewrite Forall_forall in IH, Hwf |- *.
    intros x Hx. split; [done|]. apply IH; auto.
  - simpl. split; [done|]. split; [done|]. split; [by apply IH|done].
Qed.

Lemma to_cbor_depth v : cbor_depth (to_cbor v) ≤ 2 * value_depth v + 2.
Proof.
  assert (∀ n m, n ≤ m + 1 → S n ≤ m + 2) as Hs by lia.
  induction v as [| |b|z|f|s|b|l IH|l IH|t k IH] using CanonicalValue_ind;
    cbn [to_cbor cbor_depth value_depth]; try lia.
  - apply Hs, depth_le_Forall, Forall_fmap. rewrite Forall_forall in IH |- *.
    intros x Hx. simpl. specialize (IH x Hx). pose proof (max_ge value_depth l x Hx). lia.
  - apply Hs, (depth_le_Forall (λ kv, cbor_depth kv.1 `max` cbor_depth kv.2)), Forall_fmap.
    apply to_cbor_entries. rewrite Forall_forall in IH |- *. intros x Hx. simpl.
    specialize (IH x Hx). pose proof (max_ge (λ kv, value_depth kv.2) l x Hx).
    simpl in *. lia.
  - simpl. lia.
Qed.

Context {ciborium_laws : CiboriumLaws}.

(** Reading back what was encoded. *)
Lemma read_encoded v bytes :
  cbor_plain v → cbor_depth v ≤ 128 → encode_cbor_value v = Ok bytes →
  read_cbor_value bytes = Ok v.
Proof using ciborium_laws.
  intros Hp Hd (Hok & -> & _)%encode_cbor_value_Ok. unfold read_cbor_value.
  rewrite (ciborium_roundtrip v Hp Hd Hok). simpl.
  by rewrite decide_False by tauto.
Qed.

(** C38: whatever the encoder accepts, the decoder returns unchanged. *)
Theorem canonical_encode_decode v bytes :
  value_wf v → canonical_cbor v = Ok bytes → decode_canonical_cbor bytes = Ok v.
Proof using ciborium_laws.
  intros Hwf H. destruct (canonical_cbor_Ok _ _ H) as (Hv & He & Hp).
  pose proof (encode_cbor_value_Ok _ _ He) as (_ & _ & Hlen).
  unfold decode_canonical_cbor. rewrite (proj2 (N.ltb_ge _ _) Hlen), Hp. simpl.
  apply validate_value_spec in Hv as Hv'. destruct Hv' as (_ & Hd & _).
  pose proof (to_cbor_depth v). unfold MAX_DEPTH in Hd.
  rewrite (read_encoded (to_cbor v)); [|by apply to_cbor_plain|lia|done]. simpl.
  rewrite from_to_cbor by (done || by apply validate_record_ids). simpl.
  rewrite Hv. simpl. rewrite H. simpl. by rewrite decide_False by tauto.
Qed.
End bytes.
