(* ===== verification/PreflightProps.v ===== *)
(** * The structural preflight scan accepts exactly the bounded CBOR items.

    Items are specified by the head encoding of RFC 8949 ([item_head], [cbor_item]),
    without the reader of the scan. *)

From Stdlib Require Import Strings.Byte.
From S2P Require Import Prelude Bytes Protocol Canonical.

Section scan.
Implicit Types bytes : list byte.

(** The head of the item at [from], as RFC 8949 writes it: the initial byte holds the
    major type in its top three bits and the additional information in the other
    five; additional information below 24 is the argument itself, and 24 to 27 say
    that the next 1, 2, 4 or 8 bytes are its base-256 digits, most significant first.
    The content of the item starts behind the head. *)
Definition item_head bytes (from major argument start : N) : Prop :=
  ∃ before initial payload after additional,
    bytes = before ++ initial :: payload ++ after ∧
    from = vec_len before ∧
    Byte.to_N initial = (32 * major + additional)%N ∧ (additional < 32)%N ∧
    start = (from + 1 + vec_len payload)%N ∧
    ((additional < 24)%N ∧ payload = [] ∧ argument = additional ∨
     ∃ k, (k < 4)%N ∧ additional = (24 + k)%N ∧ vec_len payload = (2 ^ k)%N ∧
       be_digits payload argument ∧ (start ≤ u64_max)%N).

(** Well-formed items: [cbor_item bytes room from to n] says that one data item
    with [n] items in all, itself included, occupies the bytes from [from] to [to],
    that its nesting fits in [room] levels and that its strings and containers are
    within their limits; [cbor_items] is a sequence of [k] of them. *)
Inductive cbor_item bytes : nat → N → N → N → Prop :=
| item_atom room from major argument start :
    item_head bytes from major argument start → (major ≤ 1 ∨ major = 7)%N →
    cbor_item bytes (S room) from start 1
| item_string room from major argument start :
    item_head bytes from major argument start → (major = 2 ∨ major = 3)%N →
    (argument ≤ MAX_STRING_BYTES)%N → (start + argument ≤ u64_max)%N →
    (start + argument ≤ vec_len bytes)%N →
    cbor_item bytes (S room) from (start + argument) 1
| item_container room from major argument start to n :
    item_head bytes from major argument start → (major = 4 ∨ major = 5)%N →
    (argument ≤ MAX_CONTAINER_ITEMS)%N →
    cbor_items bytes room (N.to_nat (if (major =? 5)%N then argument * 2 else argument))
      start to n →
    cbor_item bytes (S room) from to (1 + n)
| item_tag room from argument start to n :
    item_head bytes from 6 argument start → cbor_item bytes room start to n →
    cbor_item bytes (S room) from to (1 + n)
with cbor_items bytes : nat → nat → N → N → N → Prop :=
| items_nil room from : cbor_items bytes room 0 from from 0
| items_cons room k from mid to n m :
    cbor_item bytes room from mid n → cbor_items bytes room k mid to m →
    cbor_items bytes room (S k) from to (n + m).

Lemma take_items_Ok r n r' : take_items r n = Ok r' ↔ r = (r' + n)%N.
Proof. unfold take_items. rewrite ok_or_Ok, checked_sub_Some. lia. Qed.

(** ** The code's reader of heads *)

(** Shifting and masking take the two fields of the initial byte. *)
Lemma initial_fields (b : byte) major additional :
  Byte.to_N b = (32 * major + additional)%N ∧ (additional < 32)%N ↔
  major = N.shiftr (Byte.to_N b) 5 ∧ additional = N.land (Byte.to_N b) 31.
Proof.
  rewrite N.shiftr_div_pow2. change 31%N with (N.ones 5). rewrite N.land_ones.
  change (2 ^ 5)%N with 32%N. pose proof (N.div_mod' (Byte.to_N b) 32) as Hdm.
  pose proof (N.mod_lt (Byte.to_N b) 32) as Hlt. split.
  - intros [-> Ha]. rewrite N.mul_comm, N.div_add_l, (N.add_comm (_ * _)), N.Div0.mod_add by lia.
    rewrite N.div_small, N.mod_small by done. split; lia.
  - intros [-> ->]. split; lia.
Qed.

(** The fold of shifts and ors over at most eight bytes is their value. *)
Lemma be_value_read p : (length p ≤ 8)%nat → be_value p = be_read p.
Proof.
  induction p as [|b p IH] using rev_ind; [done|]. rewrite length_app. intros Hlen. simpl in Hlen.
  unfold be_value in *. rewrite foldl_app, be_read_snoc, IH by lia. simpl.
  pose proof (be_read_lt p) as Hlt.
  assert (be_read p < 2 ^ 56)%N as H56.
  { eapply N.lt_le_trans; [done|]. change (2 ^ 56)%N with (256 ^ 7)%N.
    apply N.pow_le_mono_r; lia. }
  change u64_max with (N.ones 64). rewrite N.land_ones, N.shiftl_mul_pow2.
  change (2 ^ 8)%N with 256%N. rewrite N.mod_small by (change (2 ^ 64)%N with (2 ^ 56 * 256)%N; lia).
  pose proof (Byte.to_N_bounded b). rewrite <-N.lxor_lor, <-N.add_nocarry_lxor; [done|..].
  all: apply N.bits_inj_0; intros n; rewrite N.land_spec.
  all: change 256%N with (2 ^ 8)%N; destruct (N.lt_ge_cases n 8) as [Hn|Hn];
    [by rewrite N.mul_pow2_bits_low|].
  all: rewrite (N.bits_above_log2 (Byte.to_N b)); [by rewrite andb_false_r|].
  all: eapply N.le_lt_trans; [apply N.log2_le_mono; done|]; simpl; lia.
Qed.

Lemma slice_Some bytes from to p :
  slice bytes from to = Some p ↔
  ∃ before after, bytes = before ++ p ++ after ∧ from = vec_len before ∧
    to = (from + vec_len p)%N.
Proof.
  unfold slice, vec_len. destruct (_ && _) eqn:Hr.
  - apply andb_true_iff in Hr as [Hle%N.leb_le Hto%N.leb_le]. split.
    + intros [= <-]. exists (take (N.to_nat from) bytes), (drop (N.to_nat to) bytes).
      split_and!.
      * replace (N.to_nat to) with (N.to_nat from + N.to_nat (to - from))%nat by lia.
        by rewrite <-drop_drop, take_drop, take_drop.
      * rewrite length_take. lia.
      * rewrite length_take, length_drop. lia.
    + intros (before & after & -> & -> & ->). f_equal.
      rewrite Nat2N.id, drop_app_length.
      by replace (N.to_nat _) with (length p) by lia; rewrite take_app_length.
  - split; [done|]. intros (before & after & -> & -> & ->).
    apply andb_false_iff in Hr as [Hr%N.leb_gt|Hr%N.leb_gt]; [lia|].
    rewrite !length_app in Hr. lia.
Qed.

Lemma read_cbor_argument_Ok bytes cursor additional argument start :
  read_cbor_argument bytes cursor additional = Ok (argument, start) ↔
  (additional < 24)%N ∧ argument = additional ∧ start = cursor ∨
  ∃ k p, (k < 4)%N ∧ additional = (24 + k)%N ∧ start = (cursor + 2 ^ k)%N ∧
    (start ≤ u64_max)%N ∧ slice bytes cursor start = Some p ∧ be_value p = argument.
Proof.
  assert (∀ w, (let? stop := ok_or (checked_add u64_max cursor w) Decode in
      let? payload := ok_or (slice bytes cursor stop) Decode in
      Ok (be_value payload, stop)) = Ok (argument, start) ↔
      ∃ p, start = (cursor + w)%N ∧ (start ≤ u64_max)%N ∧
        slice bytes cursor start = Some p ∧ be_value p = argument) as Hread.
  { intros w. rewrite result_bind_Ok. setoid_rewrite result_bind_Ok.
    setoid_rewrite ok_or_Ok. setoid_rewrite checked_add_Some. split.
    - intros (stop & [-> ?] & p & Hp & [= <- <-]). by exists p.
    - intros (p & -> & ? & Hp & <-). eauto 10. }
  unfold read_cbor_argument. destruct (N.leb_spec additional 23) as [Ha|Ha].
  { split; [intros [= -> ->]; left; lia|].
    intros [(_ & -> & ->)|(k & p & ? & ? & _)]; [done|lia]. }
  assert (∀ k, (k < 4)%N → additional = (24 + k)%N →
    (∃ p, start = (cursor + 2 ^ k)%N ∧ (start ≤ u64_max)%N ∧
      slice bytes cursor start = Some p ∧ be_value p = argument) ↔
    (additional < 24)%N ∧ argument = additional ∧ start = cursor ∨
    ∃ k p, (k < 4)%N ∧ additional = (24 + k)%N ∧ start = (cursor + 2 ^ k)%N ∧
      (start ≤ u64_max)%N ∧ slice bytes cursor start = Some p ∧ be_value p = argument) as Hk.
  { intros k Hk Hadd. split; [intros (p & H); right; by exists k, p|].
    intros [|(k' & p & _ & ? & H)]; [lia|]. assert (k' = k) as -> by lia. by exists p. }
  repeat case_match; repeat match goal with H : (_ =? _)%N = true |- _ =>
    apply N.eqb_eq in H end;
    [rewrite Hread; by apply (Hk 0%N)|rewrite Hread; by apply (Hk 1%N)|
     rewrite Hread; by apply (Hk 2%N)|rewrite Hread; by apply (Hk 3%N)|].
  split; [done|]. repeat match goal with H : (_ =? _)%N = false |- _ =>
    apply N.eqb_neq in H end. intros [|(k & p & ? & ? & _)]; lia.
Qed.

(** The code reads exactly the heads. *)
Lemma item_head_read bytes from major argument start :
  item_head bytes from major argument start ↔
  ∃ initial, bytes !! N.to_nat from = Some initial ∧
    major = N.shiftr (Byte.to_N initial) 5 ∧
    read_cbor_argument bytes (from + 1) (N.land (Byte.to_N initial) 31)
      = Ok (argument, start).
Proof.
  setoid_rewrite read_cbor_argument_Ok. split.
  - intros (before & b & p & after & a & -> & -> & Hb & Ha & -> & H). exists b.
    destruct (proj1 (initial_fields _ _ _) (conj Hb Ha)) as [-> <-]. unfold vec_len.
    rewrite Nat2N.id, list_lookup_middle by done. split_and!; [done..|].
    destruct H as [(? & -> & ->)|(k & Hk & -> & Hp & Hd & Hmax)].
    + left. simpl. split_and!; [done..|lia].
    + right. exists k, p. unfold vec_len in Hp. split_and!; [done|done|lia|done| |].
      * apply slice_Some. exists (before ++ [b]), after.
        rewrite <-app_assoc. unfold vec_len. rewrite length_app. simpl. split_and!; [done|lia..].
      * rewrite be_value_read; [by apply be_read_digits|].
        assert (2 ^ k ≤ 2 ^ 3)%N by (apply N.pow_le_mono_r; lia). simpl in *. lia.
  - intros (b & Hb & -> & H). apply list_elem_of_split_length in Hb as (before & rest & -> & Hfrom).
    destruct (proj2 (initial_fields b _ _) (conj eq_refl eq_refl)) as [Hbits Hlt].
    destruct H as [(? & -> & ->)|(k & p & Hk & Ha & -> & Hmax & Hp & Hv)].
    + exists before, b, [], rest, (N.land (Byte.to_N b) 31). unfold vec_len. simpl.
      split_and!; [done|lia|done|done|lia|by left].
    + apply slice_Some in Hp as (before' & after & Hbytes & Hb' & Hto).
      assert (vec_len p = (2 ^ k)%N) as Hlen by lia.
      assert (before' = before ++ [b]) as ->.
      { pose proof (f_equal (take (length before')) Hbytes) as Ht.
        rewrite take_app_length in Ht. rewrite <-Ht.
        replace (length before') with (S (length before)) by (unfold vec_len in *; lia).
        rewrite (cons_middle b), app_assoc. rewrite take_app_length'; [done|].
        rewrite length_app. simpl. lia. }
      exists before, b, p, after, (N.land (Byte.to_N b) 31).
      rewrite Hbytes, <-app_assoc. simpl. split_and!; [done|unfold vec_len; lia|done|done|lia|].
      right. exists k. split_and!; [done..| |done].
      rewrite <-be_read_digits, <-be_value_read; [done|].
      assert (2 ^ k ≤ 2 ^ 3)%N by (apply N.pow_le_mono_r; lia).
      unfold vec_len in Hlen. simpl in *. lia.
Qed.

(** The major type is the top three bits. *)
Lemma major_le (b : byte) : (N.shiftr (Byte.to_N b) 5 ≤ 7)%N.
Proof.
  rewrite N.shiftr_div_pow2. pose proof (Byte.to_N_bounded b).
  apply N.lt_succ_r, N.Div0.div_lt_upper_bound. change (2 ^ 5)%N with 32%N. lia.
Qed.

(** The repetition of a step that consumes what the grammar says. *)
Lemma repeat_spec bytes room
    (IH : ∀ from to r r', scan_cbor_item bytes room (from, r) = Ok (to, r') ↔
          ∃ n, cbor_item bytes room from to n ∧ r = (r' + n)%N) k :
  ∀ from to r r', try_repeat (scan_cbor_item bytes room) k (from, r) = Ok (to, r') ↔
    ∃ n, cbor_items bytes room k from to n ∧ r = (r' + n)%N.
Proof.
  induction k as [|k IHk]; intros from to r r'; simpl.
  - split.
    + intros [= -> ->]. exists 0%N. split; [constructor|lia].
    + intros (n & H & ->). inversion H; subst. by rewrite N.add_0_r.
  - rewrite result_bind_Ok. split.
    + intros ([mid r1] & (n & Hn & ->)%IH & (m & Hm & ->)%IHk).
      exists (n + m)%N. split; [by econstructor|lia].
    + intros (nm & H & ->). inversion H as [|? ? ? mid ? n m Hn Hm]; subst.
      exists (mid, r' + m)%N. split.
      * apply IH. exists n. split; [done|lia].
      * apply IHk. eauto.
Qed.

Lemma scan_spec bytes room : ∀ from to r r',
  scan_cbor_item bytes room (from, r) = Ok (to, r') ↔
  ∃ n, cbor_item bytes room from to n ∧ r = (r' + n)%N.
Proof.
  induction room as [|room IH]; intros from to r r'.
  { split; [done|]. intros (n & H & _). inversion H. }
  simpl. rewrite result_bind_Ok. setoid_rewrite result_bind_Ok.
  setoid_rewrite result_bind_Ok. setoid_rewrite take_items_Ok. setoid_rewrite ok_or_Ok. split.
  - intros (r1 & -> & b & Hb & [argument start] & Harg & H).
    set (major := N.shiftr (Byte.to_N b) 5) in *.
    assert (item_head bytes from major argument start) as Hh by (apply item_head_read; by exists b).
    pose proof (major_le b) as Hm. fold major in Hm.
    destruct (major <=? 1)%N eqn:H1.
    { apply N.leb_le in H1. injection H as <- <-. exists 1%N. split; [|lia].
      eapply item_atom; [done|by left]. }
    apply N.leb_gt in H1. destruct (major <=? 3)%N eqn:H3.
    { apply N.leb_le in H3. apply guard_bool_Ok in H as [Hs%N.ltb_ge H].
      apply result_bind_Ok in H as (c & Hc%ok_or_Ok & H). apply checked_add_Some in Hc as [-> ?].
      apply guard_bool_Ok in H as [Hl%N.ltb_ge [= <- <-]]. exists 1%N. split; [|lia].
      eapply item_string; [done|lia|done..]. }
    apply N.leb_gt in H3. destruct (major <=? 5)%N eqn:H5.
    { apply N.leb_le in H5. apply guard_bool_Ok in H as [Hs%N.ltb_ge H].
      apply (repeat_spec _ _ IH) in H as (n & Hn & ->). exists (1 + n)%N. split; [|lia].
      eapply item_container; [done|lia|done..]. }
    apply N.leb_gt in H5. destruct (N.eqb_spec major 6) as [H6|H6].
    + apply IH in H as (n & Hn & ->). exists (1 + n)%N. split; [|lia].
      rewrite H6 in Hh. by eapply item_tag.
    + injection H as <- <-. exists 1%N. split; [|lia]. eapply item_atom; [done|lia].
  - intros (n & Hn & ->).
    inversion Hn as [? ? major arg start Hh Hm|? ? major arg start Hh Hm Hs Hov Hlen
      |? ? major arg start ? m Hh Hm Hs Hitems|? ? arg start ? m Hh Hitem]; subst; clear Hn;
      apply item_head_read in Hh as (b & Hb & Hmaj & Harg); subst.
    + exists r'. split; [done|]. exists b. split; [done|]. exists (arg, to). split; [done|].
      destruct Hm as [Hm|Hm]; [by rewrite (proj2 (N.leb_le _ _) Hm)|]. by rewrite Hm.
    + exists r'. split; [done|]. exists b. split; [done|]. exists (arg, start). split; [done|].
      rewrite (proj2 (N.leb_gt _ _)) by lia. rewrite (proj2 (N.leb_le _ _)) by lia.
      rewrite (proj2 (N.ltb_ge _ _) Hs).
      rewrite (proj2 (checked_add_Some _ start arg _)) by done. simpl.
      by rewrite (proj2 (N.ltb_ge _ _) Hlen).
    + exists (r' + m)%N. split; [lia|]. exists b. split; [done|]. exists (arg, start).
      split; [done|]. rewrite (proj2 (N.leb_gt _ 1)) by lia. rewrite (proj2 (N.leb_gt _ 3)) by lia.
      rewrite (proj2 (N.leb_le _ 5)) by lia. rewrite (proj2 (N.ltb_ge _ _) Hs).
      apply (repeat_spec _ _ IH). eauto.
    + exists (r' + m)%N. split; [lia|]. exists b. split; [done|]. exists (arg, start).
      split; [done|]. rewrite <-Hmaj. simpl. apply IH. eauto.
Qed.

(** C39: the preflight scan accepts a byte string exactly when it is one well-formed
    CBOR data item that fills it completely, nested at most 33 levels deep, with at
    most 4096 items in all and every string and container within its limit; it
    never reads outside the bytes and always terminates. *)
Theorem preflight_exact bytes :
  preflight_canonical_cbor bytes = Ok tt ↔
  ∃ n, cbor_item bytes (S MAX_DEPTH) 0 (vec_len bytes) n ∧ (n ≤ MAX_TOTAL_ITEMS)%N.
Proof.
  unfold preflight_canonical_cbor. rewrite result_bind_Ok. split.
  - intros ([c r] & (n & Hn & Hr)%scan_spec & H). apply guard_Ok in H as [->%dec_stable _].
    exists n. split; [done|lia].
  - intros (n & Hn & Hle). exists (vec_len bytes, MAX_TOTAL_ITEMS - n)%N. split.
    + apply scan_spec. exists n. split; [done|lia].
    + simpl. by rewrite decide_False by tauto.
Qed.
End scan.
