(* ===== verification/FingerprintProps.v ===== *)
(** * The commit fingerprint binds the commit.

    Two different commits have the same fingerprint only if their own encoded
    envelopes are a collision of the digest function. *)

From Stdlib Require Import Strings.Byte.
From S2P Require Import Prelude Protocol Canonical CanonicalProps.

(** ** Hexadecimal digits *)

Lemma hex_digit_inj n m : (n < 16)%N → (m < 16)%N → hex_digit n = hex_digit m → n = m.
Proof.
  intros Hn Hm H. unfold hex_digit in H.
  apply (f_equal Ascii.N_of_ascii) in H.
  rewrite !Ascii.N_ascii_embedding in H; repeat case_match; try lia;
    rewrite ?N.ltb_lt, ?N.ltb_ge in *; lia.
Qed.

Lemma byte_nibbles_inj (a b : byte) :
  N.shiftr (Byte.to_N a) 4 = N.shiftr (Byte.to_N b) 4 →
  N.land (Byte.to_N a) 15 = N.land (Byte.to_N b) 15 → a = b.
Proof.
  intros H1 H2. assert (Byte.to_N a = Byte.to_N b) as Hab.
  { change 15%N with (N.ones 4) in H2. rewrite !N.land_ones in H2.
    rewrite !N.shiftr_div_pow2 in H1.
    rewrite (N.div_mod' (Byte.to_N a) (2 ^ 4)), (N.div_mod' (Byte.to_N b) (2 ^ 4)). congruence. }
  apply (f_equal Byte.of_N) in Hab. rewrite !Byte.of_to_N in Hab. congruence.
Qed.

Lemma hex_encode_inj l l' : hex_encode l = hex_encode l' → l = l'.
Proof.
  assert (∀ b : byte, N.shiftr (Byte.to_N b) 4 < 16 ∧ N.land (Byte.to_N b) 15 < 16)%N as Hlt.
  { intros b. pose proof (Byte.to_N_bounded b). split.
    - rewrite N.shiftr_div_pow2. apply N.Div0.div_lt_upper_bound. change (2 ^ 4)%N with 16%N. lia.
    - change 15%N with (N.ones 4). rewrite N.land_ones. by apply N.mod_lt. }
  revert l'. induction l as [|a l IH]; intros [|b l']; simpl; try done.
  intros H. injection H as H1 H2 H3.
  apply hex_digit_inj in H1; [|apply Hlt..]. apply hex_digit_inj in H2; [|apply Hlt..].
  by rewrite (byte_nibbles_inj a b H1 H2), (IH l' H3).
Qed.

(** ** Mapping with a threaded state *)

Lemma try_map_st_spec {A B S E} (f : S → A → result (B * S) E) (I : S → Prop) l s ys s' :
  (∀ s x y s', I s → f s x = Ok (y, s') → I s') → I s →
  try_map_st f s l = Ok (ys, s') →
  I s' ∧ Forall2 (λ x y, ∃ s1 s2, I s1 ∧ f s1 x = Ok (y, s2)) l ys.
Proof.
  intros Hf. revert s ys. induction l as [|x l IH]; intros s ys Hs H; simpl in H.
  { injection H as <- <-. by split. }
  apply result_bind_Ok in H as ([y s1] & Hx & H). apply result_bind_Ok in H as ([ys' s2] & Hl & H).
  injection H as <- <-. destruct (IH s1 ys') as [? ?]; [by eapply Hf|done|].
  split; [done|]. constructor; [|done]. eauto.
Qed.

(** ** Budgets only shrink *)

Definition within (st : N * N) : Prop :=
  (st.1 ≤ MAX_TOTAL_ITEMS)%N ∧ (st.2 ≤ MAX_ENCODED_BYTES)%N.

Lemma take_bytes_Ok r n r' : take_bytes r n = Ok r' → r = (r' + n)%N.
Proof. unfold take_bytes. rewrite ok_or_Ok, checked_sub_Some. lia. Qed.

Lemma validated_within v depth st st' :
  within st → validate_with_budget v depth st = Ok st' →
  within st' ∧ validate_value v = Ok tt.
Proof.
  unfold within. intros [Hi Hb] (Hf & Hi' & Hb')%validate_charges. destruct Hf as [Hs Hd].
  split; [lia|]. apply validate_value_spec. split_and!; [done|lia..].
Qed.

(** ** Operations *)

(** What the Rust types guarantee of an operation. *)
Definition operation_wf (op : Operation CanonicalValue) : Prop :=
  match op with
  | Upsert _ base value _ => value_wf value ∧
      match base with BaseAbsent => True | Exact n => is_u64 n end
  | Delete _ base => is_u64 base
  end.

Lemma operation_to_cbor_within st op c st' :
  within st → operation_to_cbor st op = Ok (c, st') →
  within st' ∧
  match op with Upsert _ _ value _ => validate_value value = Ok tt | _ => True end.
Proof.
  destruct st as [items bytes]. unfold operation_to_cbor. intros [Hi Hb] H. simpl in Hi, Hb.
  destruct op as [rid base value ref|rid base].
  - apply result_bind_Ok in H as ([] & _ & H). apply result_bind_Ok in H as (b1 & H1 & H).
    apply take_bytes_Ok in H1. apply result_bind_Ok in H as (b2 & H2 & H).
    apply result_bind_Ok in H as (st2 & Hv & [= _ <-]).
    eapply validated_within; [|exact Hv]. split; simpl; [done|]. destruct ref as [ref|].
    + apply result_bind_Ok in H2 as ([] & _ & H2%take_bytes_Ok). lia.
    + injection H2 as <-. lia.
  - apply result_bind_Ok in H as ([] & _ & H). apply result_bind_Ok in H as (b1 & H1 & [= _ <-]).
    apply take_bytes_Ok in H1. split; [|done]. split; simpl; lia.
Qed.

(** The CBOR value of an operation, without the budgets. *)
Definition operation_cbor (op : Operation CanonicalValue) : CborValue :=
  match op with
  | Upsert rid base value ref =>
      CArray [CInteger 0; CText rid; base_version_to_cbor base; to_cbor value;
              optional_record_id_to_cbor ref]
  | Delete rid base => CArray [CInteger 1; CText rid; CInteger (Z.of_N base)]
  end.

Lemma operation_to_cbor_value st op c st' :
  operation_to_cbor st op = Ok (c, st') → c = operation_cbor op.
Proof.
  destruct st as [items bytes]. unfold operation_to_cbor. intros H.
  destruct op as [rid base value ref|rid base].
  - apply result_bind_Ok in H as ([] & _ & H). apply result_bind_Ok in H as (b1 & _ & H).
    apply result_bind_Ok in H as (b2 & _ & H). by apply result_bind_Ok in H as (st2 & _ & [= <- _]).
  - apply result_bind_Ok in H as ([] & _ & H). by apply result_bind_Ok in H as (b1 & _ & [= <- _]).
Qed.

Definition operation_valid (op : Operation CanonicalValue) : Prop :=
  operation_wf op ∧
  match op with Upsert _ _ value _ => validate_value value = Ok tt | _ => True end.

Lemma operation_cbor_inj op op' :
  operation_valid op → operation_valid op' → operation_cbor op = operation_cbor op' → op = op'.
Proof.
  intros [Hwf Hv] [Hwf' Hv'] H.
  destruct op as [rid base value ref|rid base], op' as [rid' base' value' ref'|rid' base'];
    cbn [operation_cbor] in H; [|done|done|].
  - injection H as -> Hb Hval Href. destruct Hwf as [Hwf _], Hwf' as [Hwf' _].
    assert (value = value') as ->.
    { apply (f_equal from_cbor) in Hval.
      rewrite !from_to_cbor in Hval by (done || by apply validate_record_ids). congruence. }
    assert (base = base') as ->.
    { destruct base as [|n], base' as [|n']; simpl in Hb; try done. injection Hb as Hb.
      f_equal. lia. }
    assert (ref = ref') as ->; [|done].
    destruct ref, ref'; simpl in Href; congruence.
  - injection H as -> Hb. f_equal. lia.
Qed.

Lemma operations_cbor_inj ops ops' :
  Forall operation_valid ops → Forall operation_valid ops' →
  operation_cbor <$> ops' = operation_cbor <$> ops → ops = ops'.
Proof.
  intros Hops. revert ops'. induction Hops as [|op ops Hop _ IH];
    intros [|op' ops'] Hops'; csimpl; intros Heq; try done.
  injection Heq as Hop_eq Heq. apply Forall_cons in Hops' as [Hop' Hops'].
  rewrite (operation_cbor_inj op op') by done. f_equal. by apply IH.
Qed.

Lemma operation_cbor_plain op :
  operation_valid op → cbor_plain (operation_cbor op) ∧ cbor_depth (operation_cbor op) ≤ 70.
Proof.
  intros [Hwf Hv]. destruct op as [rid base value ref|rid base].
  - destruct Hwf as [Hwf Hbase]. pose proof (to_cbor_plain value Hwf) as Hp.
    pose proof (to_cbor_depth value) as Hd. apply validate_value_spec in Hv as (_ & Hvd & _).
    unfold MAX_DEPTH in Hvd.
    assert (cbor_plain (base_version_to_cbor base) ∧ cbor_depth (base_version_to_cbor base) ≤ 1)
      as [Hbp Hbd].
    { destruct base as [|n]; simpl in *; unfold is_cbor_integer, is_u64, u64_max in *; lia. }
    assert (cbor_plain (optional_record_id_to_cbor ref) ∧
            cbor_depth (optional_record_id_to_cbor ref) = 0) as [Hrp Hrd] by by destruct ref.
    cbn [operation_cbor cbor_plain cbor_depth foldr]. split.
    + unfold is_cbor_integer. split_and!; try done; lia.
    + lia.
  - cbn [operation_cbor cbor_plain cbor_depth foldr operation_wf] in *.
    unfold is_cbor_integer, is_u64, u64_max in *. split_and!; try done; lia.
Qed.

Section fingerprint.
Context {ciborium : Ciborium} {ciborium_laws : CiboriumLaws} {sha : Sha256}.

(** A fingerprint is the digest of the envelope of valid operations. *)
Lemma fingerprint_commit_Ok p c i ops f :
  Forall operation_wf ops → fingerprint_commit p c i ops = Ok f →
  Forall operation_valid ops ∧ ∃ bytes,
    encode_cbor_value (fingerprint_envelope p c i (operation_cbor <$> ops)) = Ok bytes ∧
    f = "sha256:" +:+ hex_encode (sha256 bytes).
Proof.
  intros Hwf H. unfold fingerprint_commit in H. apply guard_bool_Ok in H as [_ H].
  apply result_bind_Ok in H as ([] & _ & H). apply result_bind_Ok in H as ([] & _ & H).
  apply result_bind_Ok in H as ([] & _ & H). apply result_bind_Ok in H as (b & Hb & H).
  apply result_bind_Ok in H as ([cs st] & Hcs & H).
  apply result_bind_Ok in H as (bytes & He & [= <-]).
  assert (within (MAX_TOTAL_ITEMS, b)) as Hin.
  { unfold fingerprint_budget in Hb. split; simpl; [done|].
    apply result_bind_Ok in Hb as (b1 & H1%take_bytes_Ok & Hb).
    apply result_bind_Ok in Hb as (b2 & H2%take_bytes_Ok & Hb).
    apply result_bind_Ok in Hb as (b3 & H3%take_bytes_Ok & Hb).
    apply result_bind_Ok in Hb as (b4 & H4%take_bytes_Ok & Hb%take_bytes_Ok). lia. }
  apply (try_map_st_spec _ within) in Hcs as [_ Hcs];
    [|intros s x y s' Hs Hx; by eapply operation_to_cbor_within|done].
  assert (cs = operation_cbor <$> ops ∧ Forall operation_valid ops) as [-> Hval];
    [|eauto].
  clear He. induction Hcs as [|op y ops cs (s1 & s2 & Hs & Hop) _ IH]; [done|].
  apply Forall_cons in Hwf as [Hwf1 Hwf]. destruct (IH Hwf) as [-> ?].
  split; [csimpl; f_equal; by eapply operation_to_cbor_value|]. constructor; [|done].
  split; [done|]. by destruct (operation_to_cbor_within _ _ _ _ Hs Hop) as [_ ?].
Qed.

Lemma envelope_plain p c i ops :
  Forall operation_valid ops →
  cbor_plain (fingerprint_envelope p c i (operation_cbor <$> ops)) ∧
  cbor_depth (fingerprint_envelope p c i (operation_cbor <$> ops)) ≤ 128.
Proof.
  intros Hops. unfold fingerprint_envelope. cbn [cbor_plain cbor_depth foldr]. split.
  - split_and!; try done. apply (foldr_and_Forall cbor_plain), Forall_fmap.
    eapply Forall_impl; [exact Hops|]. intros op Hop. by apply operation_cbor_plain.
  - assert (foldr (λ x n, cbor_depth x `max` n) 0 (operation_cbor <$> ops) ≤ 70); [|lia].
    apply depth_le_Forall, Forall_fmap. eapply Forall_impl; [exact Hops|]. intros op Hop.
    by apply operation_cbor_plain.
Qed.

(** C37: the fingerprint identifies the commit: if two commits have the same
    fingerprint, then either they have the same partition, client, commit id and
    operations in the same order, or the encoded envelopes of these two commits are
    different byte strings with the same SHA-256 digest. *)
Theorem fingerprint_binds_commit p c i ops p' c' i' ops' f :
  Forall operation_wf ops → Forall operation_wf ops' →
  fingerprint_commit p c i ops = Ok f → fingerprint_commit p' c' i' ops' = Ok f →
  (p = p' ∧ c = c' ∧ i = i' ∧ ops = ops') ∨
  ∃ bytes bytes',
    encode_cbor_value (fingerprint_envelope p c i (operation_cbor <$> ops)) = Ok bytes ∧
    encode_cbor_value (fingerprint_envelope p' c' i' (operation_cbor <$> ops')) = Ok bytes' ∧
    bytes ≠ bytes' ∧ sha256 bytes = sha256 bytes'.
Proof using ciborium_laws.
  intros Hwf Hwf' H H'.
  apply fingerprint_commit_Ok in H as (Hops & bytes & He & ->); [|done].
  apply fingerprint_commit_Ok in H' as (Hops' & bytes' & He' & Hf); [|done].
  assert (sha256 bytes = sha256 bytes') as Hsha.
  { apply hex_encode_inj. simpl in Hf. by injection Hf. }
  destruct (decide (bytes = bytes')) as [<-|Hne];
    [left|right; exists bytes, bytes'; split_and!; done].
  destruct (envelope_plain p c i ops Hops) as [Hp Hd].
  destruct (envelope_plain p' c' i' ops' Hops') as [Hp' Hd'].
  pose proof (read_encoded _ _ Hp Hd He) as Hr. rewrite (read_encoded _ _ Hp' Hd' He') in Hr.
  injection Hr as -> -> -> Hops_eq. split_and!; try done. by apply operations_cbor_inj.
Qed.
End fingerprint.
