(* ===== verification/HttpCodec.v ===== *)
(** * The HTTP message codec.

    Models [crates/surrealdb-sync-protocol/src/http_codec.rs]: the budgeted
    [Encoder], the [Decoder] and the four messages of [surrealdb-sync/1].  An
    encoder method is a function of the remaining item and byte budgets ([enc]),
    composed with [let!] the way the source threads [&mut self]. *)

From Stdlib Require Import Strings.Byte.
From S2P Require Import Prelude Protocol Canonical.

Definition MAX_IDENTITY_BYTES : N := 1024.
Definition MAX_CHECKPOINT_BYTES : N := 4096.

Definition SCHEMA_V1 : N := 0.
Definition PUSH_REQUEST : N := 0.
Definition PUSH_RESPONSE : N := 1.
Definition PULL_REQUEST : N := 2.
Definition PULL_RESPONSE : N := 3.

(** ** The encoder monad *)

(** [struct Encoder]: the remaining items and the remaining bytes. *)
Definition Encoder : Type := N * N.
Definition enc (A : Type) : Type := Encoder → result (A * Encoder) CodecError.

Definition enc_ret {A} (a : A) : enc A := λ st, Ok (a, st).
Definition enc_err {A} (e : CodecError) : enc A := λ _, Err e.
Definition enc_bind {A B} (c : enc A) (k : A → enc B) : enc B :=
  λ st, match c st with Ok (a, st) => k a st | Err e => Err e end.
Notation "'let!' x ':=' c 'in' k" := (enc_bind c (λ x, k))
  (at level 10, x pattern, c at level 100, k at level 200,
   format "'[v' 'let!'  x  ':='  c  'in' '/' k ']'") : rust_scope.

(** A fallible pure computation inside an encoder method. *)
Definition enc_lift {A} (c : result A CodecError) : enc A :=
  λ st, match c with Ok a => Ok (a, st) | Err e => Err e end.
(** [iter().map(|x| self.f(x)).collect::<Result<Vec<_>, _>>()?] *)
Definition enc_map {A B} (f : A → enc B) (l : list A) : enc (list B) :=
  λ st, try_map_st (λ st x, f x st) st l.

Definition encoder_new : Encoder := (MAX_TOTAL_ITEMS, MAX_ENCODED_BYTES).

Definition enc_item (count : N) : enc unit :=
  λ st, let? items := take_items st.1 count in Ok (tt, (items, st.2)).
Definition enc_take_bytes (length : N) : enc unit :=
  λ st, let? bytes := take_bytes st.2 length in Ok (tt, (st.1, bytes)).

(** [Encoder::family] *)
Definition encoder_family (family : string) : result Encoder CodecError :=
  let? (_, st) := enc_item 4 encoder_new in
  let? (_, st) := enc_take_bytes (str_len family) st in
  Ok st.

Definition enc_vec (length : N) : enc unit :=
  if (MAX_CONTAINER_ITEMS <? length)%N then enc_err ContainerLimit else enc_item (length + 1).

Definition integer (value : N) : CborValue := CInteger (Z.of_N value).

(** [value.is_empty() || value.len() > max] *)
Definition bad_text (max : N) (value : string) : bool :=
  str_is_empty value || (max <? str_len value)%N.

Definition is_hex_byte (c : Ascii.ascii) : bool :=
  let n := Ascii.N_of_ascii c in
  ((48 <=? n)%N && (n <=? 57)%N) || ((97 <=? n)%N && (n <=? 102)%N).

Fixpoint all_chars (p : Ascii.ascii → bool) (s : string) : bool :=
  match s with "" => true | String c s => p c && all_chars p s end.

(** [value.strip_prefix(prefix)] *)
Fixpoint strip_prefix (prefix value : string) : option string :=
  match prefix, value with
  | "", _ => Some value
  | String a prefix, String b value =>
      if decide (a = b) then strip_prefix prefix value else None
  | String _ _, "" => None
  end.

Definition validate_fingerprint (value : string) : result unit CodecError :=
  match strip_prefix "sha256:" value with
  | None => Err InvalidFingerprint
  | Some hex =>
      if negb (str_len hex =? 64)%N || negb (all_chars is_hex_byte hex)
      then Err InvalidFingerprint else Ok tt
  end.

Definition enc_identity_text (value : string) : enc CborValue :=
  if bad_text MAX_IDENTITY_BYTES value then enc_err InvalidIdentifier else
  let! _ := enc_take_bytes (str_len value) in
  let! _ := enc_item 1 in
  enc_ret (CText value).

Definition enc_checkpoint_text (value : string) : enc CborValue :=
  if bad_text MAX_CHECKPOINT_BYTES value then enc_err InvalidIdentifier else
  let! _ := enc_take_bytes (str_len value) in
  let! _ := enc_item 1 in
  enc_ret (CText value).

Definition enc_fingerprint (value : Fingerprint) : enc CborValue :=
  let! _ := enc_lift (validate_fingerprint value) in
  let! _ := enc_take_bytes (str_len value) in
  let! _ := enc_item 1 in
  enc_ret (CText value).

Definition enc_validate (value : CanonicalValue) (depth : nat) : enc unit :=
  λ st, let? st := validate_with_budget value depth st in Ok (tt, st).

Definition enc_canonical_value (value : CanonicalValue) : enc CborValue :=
  let! _ := enc_validate value 0 in
  enc_ret (to_cbor value).

Definition preflight_identity (value : string) : enc unit :=
  if bad_text MAX_IDENTITY_BYTES value then enc_err InvalidIdentifier else
  let! _ := enc_take_bytes (str_len value) in
  enc_item 1.

Definition preflight_digest : enc unit :=
  let! _ := enc_take_bytes 32 in
  enc_item 1.

Definition enc_digest (value : list byte) : enc CborValue :=
  let! _ := preflight_digest in
  enc_ret (CBytes value).

(** One record of [preflight_snapshot_records]. *)
Definition preflight_snapshot_record (value_depth : nat)
    (record : SnapshotRecord CanonicalValue) : enc unit :=
  let! _ := enc_item 3 in
  let! _ := preflight_identity (snap_record_id record) in
  match snap_state record with
  | Absent => enc_item 2
  | Tombstone _ => enc_item 3
  | Present value _ reference =>
      let! _ := enc_item 5 in
      let! _ := enc_validate value value_depth in
      match reference with
      | Some id => preflight_identity id
      | None => enc_item 1
      end
  end.

Definition preflight_snapshot_records (rs : list (SnapshotRecord CanonicalValue))
    (value_depth : nat) : enc unit :=
  let! _ := enc_vec (vec_len rs) in
  let! _ := enc_map (preflight_snapshot_record value_depth) rs in
  enc_ret tt.

Definition encode_base_version (version : BaseVersion) : CborValue :=
  match version with
  | BaseAbsent => CArray [integer 0]
  | Exact version => CArray [integer 1; integer version]
  end.

Definition enc_optional_record_id (value : option RecordId) : enc CborValue :=
  match value with
  | Some value => enc_identity_text value
  | None => let! _ := enc_item 1 in enc_ret CNull
  end.

Definition enc_operation (operation : Operation CanonicalValue) : enc CborValue :=
  match operation with
  | Upsert record_id base_version value reference =>
      let! _ := enc_item 6 in
      let! record_id := enc_identity_text record_id in
      let! value := enc_canonical_value value in
      let! reference := enc_optional_record_id reference in
      enc_ret (CArray [integer 0; record_id; encode_base_version base_version; value; reference])
  | Delete record_id base_version =>
      let! _ := enc_item 4 in
      let! record_id := enc_identity_text record_id in
      enc_ret (CArray [integer 1; record_id; integer base_version])
  end.

Definition enc_commit (commit : ClientCommit CanonicalValue) : enc CborValue :=
  let! _ := enc_item 4 in
  let! _ := enc_vec (vec_len (operations commit)) in
  let! ops := enc_map enc_operation (operations commit) in
  let! id := enc_identity_text (client_commit_id (commit_identity commit)) in
  let! fp := enc_fingerprint (fingerprint (commit_identity commit)) in
  enc_ret (CArray [id; fp; CArray ops]).

Definition ensure_v1 (version : SchemaVersion) : result unit CodecError :=
  match version with V1 => Ok tt end.

Definition enc_push_request (request : PushRequest CanonicalValue) : enc CborValue :=
  let! _ := enc_lift (ensure_v1 (preq_schema_version request)) in
  let! _ := enc_item 5 in
  let! partition := enc_identity_text (preq_partition_id request) in
  let! client := enc_identity_text (preq_client_id request) in
  let! commit := enc_commit (preq_commit request) in
  enc_ret (CArray [partition; client; commit]).

Definition enc_identity (identity : CommitIdentity) : enc CborValue :=
  let! _ := enc_item 3 in
  let! id := enc_identity_text (client_commit_id identity) in
  let! fp := enc_fingerprint (fingerprint identity) in
  enc_ret (CArray [id; fp]).

Definition enc_record_state (state : RecordState CanonicalValue) : enc CborValue :=
  match state with
  | Absent => let! _ := enc_item 2 in enc_ret (CArray [integer 0])
  | Present value version reference =>
      let! _ := enc_item 5 in
      let! value := enc_canonical_value value in
      let! reference := enc_optional_record_id reference in
      enc_ret (CArray [integer 1; value; integer version; reference])
  | Tombstone version =>
      let! _ := enc_item 3 in enc_ret (CArray [integer 2; integer version])
  end.

Definition reject_reason (reason : RejectReason) : N :=
  match reason with
  | InvalidOperation => 0
  | CommitIdentityMismatch => 1
  | Unauthorized => 2
  | UnsupportedSchemaVersion => 3
  end.

Definition reset_reason_code (reason : ResetReason) : N :=
  match reason with
  | CheckpointExpired => 0
  | EpochChanged => 1
  | AuthorizationChanged => 2
  | SubscriptionChanged => 3
  | ScopeChanged => 4
  | ExternalWriteQuarantined => 5
  end.

Definition enc_id_mapping (mapping : IdMapping) : enc CborValue :=
  let! _ := enc_item 3 in
  let! local := enc_identity_text (local_id mapping) in
  let! canonical := enc_identity_text (canonical_id mapping) in
  enc_ret (CArray [local; canonical]).

Definition enc_outcome (o : DurableOutcome CanonicalValue) : enc CborValue :=
  match o with
  | Accepted identity sequence id_mappings =>
      let! _ := enc_item 5 in
      let! _ := enc_vec (vec_len id_mappings) in
      let! mappings := enc_map enc_id_mapping id_mappings in
      let! identity := enc_identity identity in
      enc_ret (CArray [integer 0; identity; integer sequence; CArray mappings])
  | Conflict identity record_id authoritative =>
      let! _ := enc_item 5 in
      let! identity := enc_identity identity in
      let! record_id := enc_identity_text record_id in
      let! authoritative := enc_record_state authoritative in
      enc_ret (CArray [integer 1; identity; record_id; authoritative])
  | Rejected identity reason =>
      let! _ := enc_item 4 in
      let! identity := enc_identity identity in
      enc_ret (CArray [integer 2; identity; integer (reject_reason reason)])
  end.

Definition enc_push_response (response : PushResponse CanonicalValue) : enc CborValue :=
  let! _ := enc_lift (ensure_v1 (presp_schema_version response)) in
  let! _ := enc_item 5 in
  let! partition := enc_identity_text (presp_partition_id response) in
  let! client := enc_identity_text (presp_client_id response) in
  let! o := enc_outcome (presp_outcome response) in
  enc_ret (CArray [partition; client; o]).

Definition enc_pull_request (request : PullRequest) : enc CborValue :=
  let! _ := enc_lift (ensure_v1 (pull_schema_version request)) in
  let! _ := enc_item 8 in
  let! checkpoint :=
    match pull_checkpoint request with
    | Some checkpoint => enc_checkpoint_text checkpoint
    | None => enc_ret CNull
    end in
  let! partition := enc_identity_text (pull_partition_id request) in
  let! client := enc_identity_text (pull_client_id request) in
  let! scope := enc_identity_text (pull_requested_scope request) in
  enc_ret (CArray [partition; client; checkpoint; scope;
                   integer (pull_subscription_revision request)]).

Definition enc_checkpoint (checkpoint : Checkpoint) : enc CborValue :=
  let! _ := enc_item 4 in
  let! token := enc_checkpoint_text (token checkpoint) in
  let! identity := enc_identity_text (scope_identity (scope checkpoint)) in
  enc_ret (CArray [token;
    CArray [integer (epoch (cursor checkpoint)); integer (sequence (cursor checkpoint))];
    CArray [identity; integer (authorization_revision (scope checkpoint));
            integer (scope_subscription_revision (scope checkpoint))]]).

Definition enc_snapshot_record (record : SnapshotRecord CanonicalValue) : enc CborValue :=
  let! _ := enc_item 3 in
  let! record_id := enc_identity_text (snap_record_id record) in
  let! state := enc_record_state (snap_state record) in
  enc_ret (CArray [record_id; state]).

Definition enc_applied_record (record : AppliedRecord CanonicalValue) : enc CborValue :=
  let! _ := enc_item 3 in
  let! record_id := enc_identity_text (applied_record_id record) in
  let! state := enc_record_state (applied_state record) in
  enc_ret (CArray [record_id; state]).

(** The source identity is not encoded. *)
Definition enc_pull_commit (commit : PullCommit CanonicalValue) : enc CborValue :=
  let! _ := enc_item 3 in
  let! _ := enc_vec (vec_len (pc_records commit)) in
  let! rs := enc_map enc_applied_record (pc_records commit) in
  enc_ret (CArray [integer (pc_sequence commit); CArray rs]).

Definition enc_pull_frame (frame : PullFrame CanonicalValue) : enc CborValue :=
  match frame with
  | FrameStart checkpoint =>
      let! _ := enc_item 3 in
      let! checkpoint := enc_checkpoint checkpoint in
      enc_ret (CArray [integer 0; checkpoint])
  | FrameCommit checkpoint commit =>
      let! _ := enc_item 4 in
      let! checkpoint := enc_checkpoint_text checkpoint in
      let! commit := enc_pull_commit commit in
      enc_ret (CArray [integer 1; checkpoint; commit])
  | FrameEnd checkpoint =>
      let! _ := enc_item 3 in
      let! checkpoint := enc_checkpoint checkpoint in
      enc_ret (CArray [integer 2; checkpoint])
  end.

Definition enc_pull_response (response : PullResponse CanonicalValue) : enc CborValue :=
  match response with
  | Batch batch =>
      let! _ := enc_item 3 in
      let! _ := enc_vec (vec_len (frames batch)) in
      let! fs := enc_map enc_pull_frame (frames batch) in
      enc_ret (CArray [integer 0; CArray fs])
  | Reset reset =>
      let! _ := enc_item 5 in
      let! _ := enc_vec (vec_len (reset_records reset)) in
      let! rs := enc_map enc_snapshot_record (reset_records reset) in
      let! checkpoint := enc_checkpoint (reset_checkpoint reset) in
      enc_ret (CArray [integer 1; integer (reset_reason_code (reset_reason reset)); checkpoint;
                       CArray rs])
  end.

(** ** The decoder *)

(** [array::<N>]: an array of exactly the expected length is matched in place. *)
Definition array_vec (value : CborValue) : result (list CborValue) CodecError :=
  match value with
  | CArray values =>
      if (MAX_CONTAINER_ITEMS <? vec_len values)%N then Err ContainerLimit else Ok values
  | _ => Err InvalidEnvelope
  end.

Definition vec_decode {T} (value : CborValue) (decode : CborValue → result T CodecError)
  : result (list T) CodecError :=
  let? values := array_vec value in try_map decode values.

Definition unsigned (value : CborValue) : result N CodecError :=
  match value with
  | CInteger z =>
      if (0 <=? z)%Z && (z <=? Z.of_N u64_max)%Z then Ok (Z.to_N z) else Err InvalidEnvelope
  | _ => Err InvalidEnvelope
  end.

Definition text (value : CborValue) : result string CodecError :=
  match value with CText value => Ok value | _ => Err InvalidEnvelope end.

Definition identity (value : CborValue) : result string CodecError :=
  let? value := text value in
  if bad_text MAX_IDENTITY_BYTES value then Err InvalidIdentifier else Ok value.

Definition checkpoint_text (value : CborValue) : result string CodecError :=
  let? value := text value in
  if bad_text MAX_CHECKPOINT_BYTES value then Err InvalidIdentifier else Ok value.

Definition fingerprint_text (value : CborValue) : result string CodecError :=
  let? value := text value in
  let? _ := validate_fingerprint value in
  Ok value.

Definition decode_base_version (value : CborValue) : result BaseVersion CodecError :=
  let? values := array_vec value in
  match values with
  | [kind] =>
      let? k := unsigned kind in
      if (k =? 0)%N then Ok BaseAbsent else Err InvalidEnvelope
  | [kind; version] =>
      let? k := unsigned kind in
      if (k =? 1)%N then let? v := unsigned version in Ok (Exact v) else Err InvalidEnvelope
  | _ => Err InvalidEnvelope
  end.

Definition optional_record_id (value : CborValue) : result (option RecordId) CodecError :=
  match value with
  | CNull => Ok None
  | value => let? id := identity value in Ok (Some id)
  end.

Definition optional_checkpoint (value : CborValue)
  : result (option OpaqueCheckpoint) CodecError :=
  match value with
  | CNull => Ok None
  | value => let? c := checkpoint_text value in Ok (Some c)
  end.

Definition decode_identity (value : CborValue) : result CommitIdentity CodecError :=
  match value with
  | CArray [commit_id; fp] =>
      let? commit_id := identity commit_id in
      let? fp := fingerprint_text fp in
      Ok (mkIdentity commit_id fp)
  | _ => Err InvalidEnvelope
  end.

Definition decode_checkpoint (value : CborValue) : result Checkpoint CodecError :=
  match value with
  | CArray [token; cursor; scope] =>
      match cursor with
      | CArray [epoch; sequence] =>
          match scope with
          | CArray [scope_id; authorization; subscription] =>
              let? token := checkpoint_text token in
              let? epoch := unsigned epoch in
              let? sequence := unsigned sequence in
              let? scope_id := identity scope_id in
              let? authorization := unsigned authorization in
              let? subscription := unsigned subscription in
              Ok (mkCheckpoint token (mkCursor epoch sequence)
                    (mkScope scope_id authorization subscription))
          | _ => Err InvalidEnvelope
          end
      | _ => Err InvalidEnvelope
      end
  | _ => Err InvalidEnvelope
  end.

Definition decode_reject_reason (value : N) : result RejectReason CodecError :=
  match value with
  | 0 => Ok InvalidOperation
  | 1 => Ok CommitIdentityMismatch
  | 2 => Ok Unauthorized
  | 3 => Ok UnsupportedSchemaVersion
  | _ => Err InvalidEnvelope
  end%N.

Definition decode_reset_reason (value : N) : result ResetReason CodecError :=
  match value with
  | 0 => Ok CheckpointExpired
  | 1 => Ok EpochChanged
  | 2 => Ok AuthorizationChanged
  | 3 => Ok SubscriptionChanged
  | 4 => Ok ScopeChanged
  | 5 => Ok ExternalWriteQuarantined
  | _ => Err InvalidEnvelope
  end%N.

(** [values.first()] of a tagged array, as an unsigned integer. *)
Definition tagged (value : CborValue) : result (N * list CborValue) CodecError :=
  let? values := array_vec value in
  let? kind := ok_or (head values) InvalidEnvelope in
  let? k := unsigned kind in
  Ok (k, values).

Definition dec_operation (value : CborValue) : result (Operation CanonicalValue) CodecError :=
  let? (kind, values) := tagged value in
  match kind, values with
  | 0%N, [_; record_id; base_version; value; reference] =>
      let? record_id := identity record_id in
      let? base_version := decode_base_version base_version in
      let? value := from_cbor value in
      let? reference := optional_record_id reference in
      Ok (Upsert record_id base_version value reference)
  | 1%N, [_; record_id; base_version] =>
      let? record_id := identity record_id in
      let? base_version := unsigned base_version in
      Ok (Delete record_id base_version)
  | _, _ => Err InvalidEnvelope
  end.

Definition dec_commit (value : CborValue) : result (ClientCommit CanonicalValue) CodecError :=
  match value with
  | CArray [commit_id; fp; ops] =>
      let? commit_id := identity commit_id in
      let? fp := fingerprint_text fp in
      let? ops := vec_decode ops dec_operation in
      Ok (mkCommit (mkIdentity commit_id fp) ops)
  | _ => Err InvalidEnvelope
  end.

Definition dec_push_request (value : CborValue)
  : result (PushRequest CanonicalValue) CodecError :=
  match value with
  | CArray [partition; client; commit] =>
      let? partition := identity partition in
      let? client := identity client in
      let? commit := dec_commit commit in
      Ok (mkPushRequest V1 partition client commit)
  | _ => Err InvalidEnvelope
  end.

Definition dec_record_state (value : CborValue)
  : result (RecordState CanonicalValue) CodecError :=
  let? (kind, values) := tagged value in
  match kind, values with
  | 0%N, [_] => Ok Absent
  | 1%N, [_; value; version; reference] =>
      let? value := from_cbor value in
      let? version := unsigned version in
      let? reference := optional_record_id reference in
      Ok (Present value version reference)
  | 2%N, [_; version] => let? version := unsigned version in Ok (Tombstone version)
  | _, _ => Err InvalidEnvelope
  end.

Definition dec_id_mapping (value : CborValue) : result IdMapping CodecError :=
  match value with
  | CArray [local; canonical] =>
      let? local := identity local in
      let? canonical := identity canonical in
      Ok (mkMapping local canonical)
  | _ => Err InvalidEnvelope
  end.

Definition dec_outcome (value : CborValue)
  : result (DurableOutcome CanonicalValue) CodecError :=
  let? (kind, values) := tagged value in
  match kind, values with
  | 0%N, [_; id; sequence; mappings] =>
      let? id := decode_identity id in
      let? sequence := unsigned sequence in
      let? mappings := vec_decode mappings dec_id_mapping in
      Ok (Accepted id sequence mappings)
  | 1%N, [_; id; record_id; authoritative] =>
      let? id := decode_identity id in
      let? record_id := identity record_id in
      let? authoritative := dec_record_state authoritative in
      Ok (Conflict id record_id authoritative)
  | 2%N, [_; id; reason] =>
      let? id := decode_identity id in
      let? reason := unsigned reason in
      let? reason := decode_reject_reason reason in
      Ok (Rejected id reason)
  | _, _ => Err InvalidEnvelope
  end.

Definition dec_push_response (value : CborValue)
  : result (PushResponse CanonicalValue) CodecError :=
  match value with
  | CArray [partition; client; o] =>
      let? partition := identity partition in
      let? client := identity client in
      let? o := dec_outcome o in
      Ok (mkPushResponse V1 partition client o)
  | _ => Err InvalidEnvelope
  end.

Definition dec_snapshot_record (value : CborValue)
  : result (SnapshotRecord CanonicalValue) CodecError :=
  match value with
  | CArray [record_id; state] =>
      let? record_id := identity record_id in
      let? state := dec_record_state state in
      Ok (mkSnapshotRecord record_id state)
  | _ => Err InvalidEnvelope
  end.

Definition dec_pull_request (value : CborValue) : result PullRequest CodecError :=
  match value with
  | CArray [partition; client; checkpoint; scope; subscription] =>
      let? partition := identity partition in
      let? client := identity client in
      let? checkpoint := optional_checkpoint checkpoint in
      let? scope := identity scope in
      let? subscription := unsigned subscription in
      Ok (mkPullRequest V1 partition client checkpoint scope subscription)
  | _ => Err InvalidEnvelope
  end.

Definition dec_applied_record (value : CborValue)
  : result (AppliedRecord CanonicalValue) CodecError :=
  match value with
  | CArray [record_id; state] =>
      let? record_id := identity record_id in
      let? state := dec_record_state state in
      Ok (mkApplied record_id state)
  | _ => Err InvalidEnvelope
  end.

Definition dec_pull_commit (value : CborValue)
  : result (PullCommit CanonicalValue) CodecError :=
  match value with
  | CArray [sequence; rs] =>
      let? sequence := unsigned sequence in
      let? rs := vec_decode rs dec_applied_record in
      Ok (mkPullCommit sequence None rs)
  | _ => Err InvalidEnvelope
  end.

Definition dec_pull_frame (value : CborValue) : result (PullFrame CanonicalValue) CodecError :=
  let? (kind, values) := tagged value in
  match kind, values with
  | 0%N, [_; checkpoint] =>
      let? checkpoint := decode_checkpoint checkpoint in Ok (FrameStart checkpoint)
  | 1%N, [_; checkpoint; commit] =>
      let? checkpoint := checkpoint_text checkpoint in
      let? commit := dec_pull_commit commit in
      Ok (FrameCommit checkpoint commit)
  | 2%N, [_; checkpoint] =>
      let? checkpoint := decode_checkpoint checkpoint in Ok (FrameEnd checkpoint)
  | _, _ => Err InvalidEnvelope
  end.

Definition dec_pull_response (value : CborValue)
  : result (PullResponse CanonicalValue) CodecError :=
  let? (kind, values) := tagged value in
  match kind, values with
  | 0%N, [_; fs] => let? fs := vec_decode fs dec_pull_frame in Ok (Batch (mkBatch fs))
  | 1%N, [_; reason; checkpoint; rs] =>
      let? reason := unsigned reason in
      let? reason := decode_reset_reason reason in
      let? checkpoint := decode_checkpoint checkpoint in
      let? rs := vec_decode rs dec_snapshot_record in
      Ok (Reset (mkReset reason checkpoint rs))
  | _, _ => Err InvalidEnvelope
  end.

(** ** Messages *)

Section messages.
Context {ciborium : Ciborium}.

Definition encode_family_message (family : string) (kind : N) (payload : enc CborValue)
  : result (list byte) CodecError :=
  let? encoder := encoder_family family in
  let? (payload, _) := payload encoder in
  encode_cbor_value (CArray [CText family; integer SCHEMA_V1; integer kind; payload]).

Definition decode_family_message (bytes : list byte) (family : string) (expected_kind : N)
  : result CborValue CodecError :=
  if (MAX_ENCODED_BYTES <? vec_len bytes)%N then Err EncodedLimit else
  let? _ := preflight_canonical_cbor bytes in
  let? decoded := read_cbor_value bytes in
  match decoded with
  | CArray [name; schema; kind; payload] =>
      let? name := text name in
      if decide (name ≠ family) then Err InvalidEnvelope else
      let? schema := unsigned schema in
      if decide (schema ≠ SCHEMA_V1) then Err InvalidEnvelope else
      let? kind := unsigned kind in
      if decide (kind ≠ expected_kind) then Err InvalidEnvelope else Ok payload
  | _ => Err InvalidEnvelope
  end.

Definition encode_message (kind : N) (payload : enc CborValue)
  : result (list byte) CodecError := encode_family_message V1_NAME kind payload.
Definition decode_message (bytes : list byte) (expected_kind : N)
  : result CborValue CodecError := decode_family_message bytes V1_NAME expected_kind.

Definition require_typed_canonical (input encoded : list byte) : result unit CodecError :=
  if decide (input = encoded) then Ok tt else Err NonCanonical.

Definition encode_push_request (request : PushRequest CanonicalValue)
  : result (list byte) CodecError := encode_message PUSH_REQUEST (enc_push_request request).
Definition decode_push_request (bytes : list byte)
  : result (PushRequest CanonicalValue) CodecError :=
  let? payload := decode_message bytes PUSH_REQUEST in
  let? message := dec_push_request payload in
  let? encoded := encode_push_request message in
  let? _ := require_typed_canonical bytes encoded in
  Ok message.

Definition encode_push_response (response : PushResponse CanonicalValue)
  : result (list byte) CodecError := encode_message PUSH_RESPONSE (enc_push_response response).
Definition decode_push_response (bytes : list byte)
  : result (PushResponse CanonicalValue) CodecError :=
  let? payload := decode_message bytes PUSH_RESPONSE in
  let? message := dec_push_response payload in
  let? encoded := encode_push_response message in
  let? _ := require_typed_canonical bytes encoded in
  Ok message.

Definition encode_pull_request (request : PullRequest) : result (list byte) CodecError :=
  encode_message PULL_REQUEST (enc_pull_request request).
Definition decode_pull_request (bytes : list byte) : result PullRequest CodecError :=
  let? payload := decode_message bytes PULL_REQUEST in
  let? message := dec_pull_request payload in
  let? encoded := encode_pull_request message in
  let? _ := require_typed_canonical bytes encoded in
  Ok message.

Definition encode_pull_response (response : PullResponse CanonicalValue)
  : result (list byte) CodecError := encode_message PULL_RESPONSE (enc_pull_response response).
Definition decode_pull_response (bytes : list byte)
  : result (PullResponse CanonicalValue) CodecError :=
  let? payload := decode_message bytes PULL_RESPONSE in
  let? message := dec_pull_response payload in
  let? encoded := encode_pull_response message in
  let? _ := require_typed_canonical bytes encoded in
  Ok message.
End messages.
