(* ===== verification/HttpProps.v ===== *)
(** * Properties of the HTTP message codec.

    Every encoder method is paired with its decoder: what the encoder emits, the
    decoder reads back. *)

From Stdlib Require Import Strings.Byte.
From S2P Require Import Prelude Protocol Canonical CanonicalProps FingerprintProps HttpCodec.

(** ** A calculus of encoders *)

(** Within the budgets [f] emits a CBOR value that [D] decodes to [x], nested at
    most [d] levels. *)
Definition encodes {A} (f : enc CborValue) (D : CborValue → result A CodecError) (x : A)
    (d : nat) : Prop :=
  ∀ st c st', within st → f st = Ok (c, st') →
    within st' ∧ D c = Ok x ∧ cbor_plain c ∧ cbor_depth c ≤ d.

(** A step that only charges the budgets. *)
Definition keeps {A} (f : enc A) : Prop :=
  ∀ st a st', within st → f st = Ok (a, st') → within st'.

Lemma enc_bind_Ok {A B} (c : enc A) (k : A → enc B) st b st' :
  enc_bind c k st = Ok (b, st') ↔ ∃ a st1, c st = Ok (a, st1) ∧ k a st1 = Ok (b, st').
Proof.
  unfold enc_bind. destruct (c st) as [[a st1]|e]; split; [naive_solver..|naive_solver|naive_solver].
Qed.

Section calculus.
Context {A B : Type}.
Implicit Types (D : CborValue → result A CodecError) (x : A) (d : nat).

Lemma encodes_unit {U} (c : enc U) (k : U → enc CborValue) D x d :
  keeps c → (∀ u, encodes (k u) D x d) → encodes (enc_bind c k) D x d.
Proof.
  intros Hc Hk st v st' Hst (u & st1 & H1 & H2)%enc_bind_Ok. eapply Hk; [|done]. by eapply Hc.
Qed.

Lemma encodes_bind (c : enc CborValue) (k : CborValue → enc CborValue)
    (D1 : CborValue → result B CodecError) y d1 D x d :
  encodes c D1 y d1 →
  (∀ v, D1 v = Ok y → cbor_plain v → cbor_depth v ≤ d1 → encodes (k v) D x d) →
  encodes (enc_bind c k) D x d.
Proof.
  intros Hc Hk st v st' Hst (u & st1 & H1 & H2)%enc_bind_Ok.
  destruct (Hc _ _ _ Hst H1) as (? & ? & ? & ?). by eapply Hk.
Qed.

Lemma encodes_ret c D x d :
  D c = Ok x → cbor_plain c → cbor_depth c ≤ d → encodes (enc_ret c) D x d.
Proof. intros ? ? ? st v st' Hst [= <- <-]. done. Qed.

Lemma encodes_guard (b : bool) e (k : enc CborValue) D x d :
  (b = false → encodes k D x d) → encodes (if b then enc_err e else k) D x d.
Proof. destruct b; [|auto]. intros _ st v st' _ [=]. Qed.

Lemma encodes_lift {U} (r : result U CodecError) (k : U → enc CborValue) D x d :
  (∀ u, r = Ok u → encodes (k u) D x d) → encodes (enc_bind (enc_lift r) k) D x d.
Proof.
  intros Hk st v st' Hst (u & st1 & H1 & H2)%enc_bind_Ok. unfold enc_lift in H1.
  destruct r as [a|]; [|done]. injection H1 as <- <-. by eapply Hk.
Qed.

Lemma encodes_vec n (k : unit → enc CborValue) D x d :
  ((n ≤ MAX_CONTAINER_ITEMS)%N → ∀ u, encodes (k u) D x d) →
  encodes (enc_bind (enc_vec n) k) D x d.
Proof.
  intros Hk st v st' Hst (u & st1 & H1 & H2)%enc_bind_Ok. unfold enc_vec in H1.
  destruct (MAX_CONTAINER_ITEMS <? n)%N eqn:Hn; [done|]. apply N.ltb_ge in Hn.
  eapply Hk; [done| |exact H2]. unfold enc_item in H1.
  apply result_bind_Ok in H1 as (r & Hr & [= _ <-]). unfold take_items in Hr.
  apply ok_or_Ok, checked_sub_Some in Hr as [-> _]. destruct Hst. split; simpl in *; lia.
Qed.

Lemma encodes_map2 {T T'} (f : T → enc CborValue) (D1 : CborValue → result T' CodecError)
    l l' d1 (k : list CborValue → enc CborValue) D x d :
  Forall2 (λ y y', encodes (f y) D1 y' d1) l l' → (vec_len l ≤ MAX_CONTAINER_ITEMS)%N →
  (∀ cs, vec_decode (CArray cs) D1 = Ok l' → cbor_plain (CArray cs) →
     cbor_depth (CArray cs) ≤ S d1 → encodes (k cs) D x d) →
  encodes (enc_bind (enc_map f l) k) D x d.
Proof.
  intros Hl Hlen Hk st v st' Hst (cs & st1 & H1 & H2)%enc_bind_Ok. unfold enc_map in H1.
  assert (within st1 ∧ Forall2 (λ y c, D1 c = Ok y ∧ cbor_plain c ∧ cbor_depth c ≤ d1) l' cs)
    as [Hst1 HF].
  { clear Hlen Hk H2. revert st cs Hst H1.
    induction Hl as [|y y' l l' Hy _ IH]; intros st cs Hst H; simpl in H.
    { injection H as <- <-. by split. }
    apply result_bind_Ok in H as ([c s1] & Hc & H).
    apply result_bind_Ok in H as ([cs' s2] & Hcs & [= <- <-]).
    destruct (Hy _ _ _ Hst Hc) as (Hs1 & ? & ? & ?).
    destruct (IH s1 cs' Hs1 Hcs) as [? ?]. split; [done|]. by constructor. }
  eapply Hk; [| | |exact Hst1|exact H2].
  - unfold vec_decode. simpl. rewrite (proj2 (N.ltb_ge _ _)).
    + simpl. apply try_map_Ok, Forall2_flip. eapply Forall2_impl; [exact HF|].
      by intros ? ? (? & _).
    + apply Forall2_length in HF, Hl. unfold vec_len in *. lia.
  - apply (foldr_and_Forall cbor_plain). clear -HF.
    induction HF as [|? ? ? ? (_ & ? & _)]; by constructor.
  - simpl. apply le_n_S, depth_le_Forall. clear -HF.
    induction HF as [|? ? ? ? (_ & _ & ?)]; by constructor.
Qed.

Lemma encodes_map {T} (f : T → enc CborValue) (D1 : CborValue → result T CodecError) l d1
    (k : list CborValue → enc CborValue) D x d :
  Forall (λ y, encodes (f y) D1 y d1) l → (vec_len l ≤ MAX_CONTAINER_ITEMS)%N →
  (∀ cs, vec_decode (CArray cs) D1 = Ok l → cbor_plain (CArray cs) →
     cbor_depth (CArray cs) ≤ S d1 → encodes (k cs) D x d) →
  encodes (enc_bind (enc_map f l) k) D x d.
Proof. intros Hl. apply encodes_map2. by apply Forall_Forall2_diag. Qed.
End calculus.

Lemma keeps_item n : keeps (enc_item n).
Proof.
  intros st a st' [Hi Hb] H. unfold enc_item in H.
  apply result_bind_Ok in H as (r & Hr & [= _ <-]). unfold take_items in Hr.
  apply ok_or_Ok, checked_sub_Some in Hr as [-> _]. split; simpl in *; lia.
Qed.

Lemma keeps_take_bytes n : keeps (enc_take_bytes n).
Proof.
  intros st a st' [Hi Hb] H. unfold enc_take_bytes in H.
  apply result_bind_Ok in H as (r & Hr & [= _ <-]). apply take_bytes_Ok in Hr.
  split; simpl in *; lia.
Qed.

Create HintDb codec.
#[export] Hint Resolve keeps_item keeps_take_bytes : codec.

(** Skipping the budget charges in front of an encoder. *)
Ltac skip_charges := repeat (apply encodes_unit; [solve [auto with codec]|intros _]).

(** ** Atoms *)

Lemma unsigned_integer n : is_u64 n → unsigned (integer n) = Ok n.
Proof.
  unfold is_u64. intros Hn. unfold unsigned, integer.
  rewrite (proj2 (Z.leb_le 0 (Z.of_N n))) by lia.
  rewrite (proj2 (Z.leb_le (Z.of_N n) (Z.of_N u64_max))) by lia. cbn [andb].
  by rewrite N2Z.id.
Qed.

Lemma integer_plain n : is_u64 n → cbor_plain (integer n).
Proof. unfold is_u64, u64_max. simpl. unfold is_cbor_integer. lia. Qed.

Lemma identity_encodes s : encodes (enc_identity_text s) identity s 0.
Proof.
  unfold enc_identity_text. apply encodes_guard. intros Hs. skip_charges.
  apply encodes_ret; [|done|done]. unfold identity. simpl. by rewrite Hs.
Qed.

Lemma checkpoint_text_encodes s : encodes (enc_checkpoint_text s) checkpoint_text s 0.
Proof.
  unfold enc_checkpoint_text. apply encodes_guard. intros Hs. skip_charges.
  apply encodes_ret; [|done|done]. unfold checkpoint_text. simpl. by rewrite Hs.
Qed.

Lemma fingerprint_encodes s : encodes (enc_fingerprint s) fingerprint_text s 0.
Proof.
  unfold enc_fingerprint. apply encodes_lift. intros [] Hs. skip_charges.
  apply encodes_ret; [|done|done]. unfold fingerprint_text. cbn [text result_bind].
  by rewrite Hs.
Qed.

Lemma value_encodes v : value_wf v → encodes (enc_canonical_value v) from_cbor v 66.
Proof.
  intros Hwf st c st' Hst (u & st1 & H1 & [= <- <-])%enc_bind_Ok. unfold enc_validate in H1.
  apply result_bind_Ok in H1 as (st2 & Hv & [= _ <-]).
  destruct (validated_within _ _ _ _ Hst Hv) as [? Hval]. split; [done|].
  split; [by apply from_to_cbor, validate_record_ids|]. split; [by apply to_cbor_plain|].
  pose proof (to_cbor_depth v). apply validate_value_spec in Hval as (_ & ? & _).
  unfold MAX_DEPTH in *. lia.
Qed.

Lemma optional_record_id_encodes o :
  encodes (enc_optional_record_id o) optional_record_id o 0.
Proof.
  destruct o as [id|]; simpl.
  - intros st c st' Hst H. destruct (identity_encodes id st c st' Hst H) as (? & Hid & ? & ?).
    split_and!; try done. unfold optional_record_id. destruct c; try done. by rewrite Hid.
  - skip_charges. by apply encodes_ret.
Qed.

Lemma base_version_decodes b :
  match b with BaseAbsent => True | Exact n => is_u64 n end →
  decode_base_version (encode_base_version b) = Ok b ∧
  cbor_plain (encode_base_version b) ∧ cbor_depth (encode_base_version b) ≤ 1.
Proof.
  pose proof (integer_plain 0 ltac:(done)). destruct b as [|n]; intros Hn.
  { split_and!; [vm_compute; reflexivity|done|done]. }
  unfold decode_base_version, encode_base_version, array_vec.
  change (MAX_CONTAINER_ITEMS <? vec_len [integer 1; integer n])%N with false.
  change (unsigned (integer 1)) with (@Ok N CodecError 1%N).
  cbv beta iota delta [result_bind N.eqb Pos.eqb].
  rewrite (unsigned_integer n) by done. split_and!; [reflexivity| |simpl; lia].
  pose proof (integer_plain n Hn). pose proof (integer_plain 1 ltac:(done)). done.
Qed.

(** A tagged array read back. *)
Lemma tagged_array k l :
  is_u64 k → (vec_len (integer k :: l) ≤ MAX_CONTAINER_ITEMS)%N →
  tagged (CArray (integer k :: l)) = Ok (k, integer k :: l).
Proof.
  intros Hk Hl. unfold tagged, array_vec. rewrite (proj2 (N.ltb_ge _ _) Hl).
  cbn [result_bind head ok_or]. rewrite unsigned_integer by done. done.
Qed.

(** Replaying the decoder on what was emitted. *)
Ltac read_back :=
  cbv beta iota delta [result_bind];
  repeat first
    [ rewrite tagged_array by (done || (unfold vec_len; cbn [length]; vm_compute; discriminate))
    | match goal with H : ?D ?c = Ok _ |- context [?D ?c] => rewrite H end
    | rewrite unsigned_integer by done
    | progress cbv beta iota delta [result_bind] ];
  try reflexivity.
Ltac is_plain :=
  cbn [cbor_plain foldr] in *; split_and!;
  first [done | by apply integer_plain | idtac].
Ltac is_shallow := unfold integer in *; cbn [cbor_depth foldr] in *; lia.
Ltac emit := apply encodes_ret; [read_back|is_plain|is_shallow].

(** ** What the Rust types guarantee of the messages *)

Definition state_wf (s : RecordState CanonicalValue) : Prop :=
  match s with
  | Absent => True
  | Present value version _ => value_wf value ∧ is_u64 version
  | Tombstone version => is_u64 version
  end.
Definition msg_outcome_wf (o : DurableOutcome CanonicalValue) : Prop :=
  match o with
  | Accepted _ sequence _ => is_u64 sequence
  | Conflict _ _ authoritative => state_wf authoritative
  | Rejected _ _ => True
  end.
Definition checkpoint_u64 (c : Checkpoint) : Prop :=
  is_u64 (epoch (cursor c)) ∧ is_u64 (sequence (cursor c)) ∧
  is_u64 (authorization_revision (scope c)) ∧ is_u64 (scope_subscription_revision (scope c)).
Definition frame_wf (f : PullFrame CanonicalValue) : Prop :=
  match f with
  | FrameStart c | FrameEnd c => checkpoint_u64 c
  | FrameCommit _ commit => is_u64 (pc_sequence commit) ∧
      Forall (λ r, state_wf (applied_state r)) (pc_records commit)
  end.
Definition pull_response_wf (r : PullResponse CanonicalValue) : Prop :=
  match r with
  | Batch b => Forall frame_wf (frames b)
  | Reset s => checkpoint_u64 (reset_checkpoint s) ∧
      Forall (λ r, state_wf (snap_state r)) (reset_records s)
  end.

(** ** Push messages *)

Lemma operation_encodes op : operation_wf op → encodes (enc_operation op) dec_operation op 67.
Proof.
  destruct op as [rid base value ref|rid base]; intros Hwf; unfold enc_operation; skip_charges.
  - destruct Hwf as [Hv Hb]. destruct (base_version_decodes base Hb) as (Hbd & Hbp & Hbdep).
    eapply encodes_bind; [apply identity_encodes|intros c1 H1 P1 D1].
    eapply encodes_bind; [by apply value_encodes|intros c2 H2 P2 D2].
    eapply encodes_bind; [apply optional_record_id_encodes|intros c3 H3 P3 D3].
    unfold dec_operation. emit.
  - simpl in Hwf. eapply encodes_bind; [apply identity_encodes|intros c1 H1 P1 D1].
    unfold dec_operation. emit.
Qed.

Lemma commit_encodes c :
  Forall operation_wf (operations c) → encodes (enc_commit c) dec_commit c 69.
Proof.
  intros Hwf. unfold enc_commit. skip_charges. apply encodes_vec. intros Hlen _.
  eapply (encodes_map _ dec_operation _ 67); [|done|intros cs H1 P1 D1].
  { eapply Forall_impl; [exact Hwf|]. apply operation_encodes. }
  eapply encodes_bind; [apply identity_encodes|intros c2 H2 P2 D2].
  eapply encodes_bind; [apply fingerprint_encodes|intros c3 H3 P3 D3].
  unfold dec_commit. apply encodes_ret; [read_back; by destruct c as [[? ?] ?]|is_plain|is_shallow].
Qed.

Lemma push_request_encodes r :
  Forall operation_wf (operations (preq_commit r)) →
  encodes (enc_push_request r) dec_push_request r 70.
Proof.
  intros Hwf. unfold enc_push_request. apply encodes_lift. intros [] _. skip_charges.
  eapply encodes_bind; [apply identity_encodes|intros c1 H1 P1 D1].
  eapply encodes_bind; [apply identity_encodes|intros c2 H2 P2 D2].
  eapply encodes_bind; [by apply commit_encodes|intros c3 H3 P3 D3].
  unfold dec_push_request. apply encodes_ret; [read_back|is_plain|is_shallow].
  by destruct r as [[] ? ? ?].
Qed.

Lemma commit_identity_encodes i : encodes (enc_identity i) decode_identity i 1.
Proof.
  unfold enc_identity. skip_charges.
  eapply encodes_bind; [apply identity_encodes|intros c1 H1 P1 D1].
  eapply encodes_bind; [apply fingerprint_encodes|intros c2 H2 P2 D2].
  unfold decode_identity. apply encodes_ret; [read_back; by destruct i|is_plain|is_shallow].
Qed.

Lemma record_state_encodes s : state_wf s → encodes (enc_record_state s) dec_record_state s 67.
Proof.
  destruct s as [|v n ref|n]; intros Hwf; unfold enc_record_state; skip_charges.
  - unfold dec_record_state. emit.
  - destruct Hwf as [Hv Hn].
    eapply encodes_bind; [by apply value_encodes|intros c2 H2 P2 D2].
    eapply encodes_bind; [apply optional_record_id_encodes|intros c3 H3 P3 D3].
    unfold dec_record_state. emit.
  - simpl in Hwf. unfold dec_record_state. emit.
Qed.

Lemma id_mapping_encodes m : encodes (enc_id_mapping m) dec_id_mapping m 1.
Proof.
  unfold enc_id_mapping. skip_charges.
  eapply encodes_bind; [apply identity_encodes|intros c1 H1 P1 D1].
  eapply encodes_bind; [apply identity_encodes|intros c2 H2 P2 D2].
  unfold dec_id_mapping. apply encodes_ret; [read_back; by destruct m|is_plain|is_shallow].
Qed.

Lemma reject_reason_decodes r :
  is_u64 (reject_reason r) ∧ decode_reject_reason (reject_reason r) = Ok r.
Proof. by destruct r. Qed.

Lemma outcome_encodes o : msg_outcome_wf o → encodes (enc_outcome o) dec_outcome o 68.
Proof.
  destruct o as [i n ms|i rid s|i reason]; intros Hwf; unfold enc_outcome; skip_charges.
  - simpl in Hwf. apply encodes_vec. intros Hlen _.
    eapply (encodes_map _ dec_id_mapping _ 1); [|done|intros cs H1 P1 D1].
    { apply Forall_true, id_mapping_encodes. }
    eapply encodes_bind; [apply commit_identity_encodes|intros c2 H2 P2 D2].
    unfold dec_outcome. emit.
  - eapply encodes_bind; [apply commit_identity_encodes|intros c2 H2 P2 D2].
    eapply encodes_bind; [apply identity_encodes|intros c3 H3 P3 D3].
    eapply encodes_bind; [by apply record_state_encodes|intros c4 H4 P4 D4].
    unfold dec_outcome. emit.
  - eapply encodes_bind; [apply commit_identity_encodes|intros c2 H2 P2 D2].
    destruct (reject_reason_decodes reason) as [Hu Hd]. unfold dec_outcome. emit.
Qed.

Lemma push_response_encodes r :
  msg_outcome_wf (presp_outcome r) → encodes (enc_push_response r) dec_push_response r 69.
Proof.
  intros Hwf. unfold enc_push_response. apply encodes_lift. intros [] _. skip_charges.
  eapply encodes_bind; [apply identity_encodes|intros c1 H1 P1 D1].
  eapply encodes_bind; [apply identity_encodes|intros c2 H2 P2 D2].
  eapply encodes_bind; [by apply outcome_encodes|intros c3 H3 P3 D3].
  unfold dec_push_response. apply encodes_ret; [read_back|is_plain|is_shallow].
  by destruct r as [[] ? ? ?].
Qed.

(** ** Pull messages *)

(** The authority's source identity does not travel. *)
Definition erase_commit (c : PullCommit CanonicalValue) : PullCommit CanonicalValue :=
  mkPullCommit (pc_sequence c) None (pc_records c).
Definition erase_frame (f : PullFrame CanonicalValue) : PullFrame CanonicalValue :=
  match f with FrameCommit t c => FrameCommit t (erase_commit c) | f => f end.
Definition erase_sources (r : PullResponse CanonicalValue) : PullResponse CanonicalValue :=
  match r with Batch b => Batch (mkBatch (erase_frame <$> frames b)) | r => r end.

Lemma pull_request_encodes r :
  is_u64 (pull_subscription_revision r) → encodes (enc_pull_request r) dec_pull_request r 1.
Proof.
  intros Hwf. unfold enc_pull_request. apply encodes_lift. intros [] _. skip_charges.
  eapply (encodes_bind _ _ optional_checkpoint (pull_checkpoint r) 0).
  { destruct (pull_checkpoint r) as [t|]; [|by apply encodes_ret].
    intros st c st' Hst H. destruct (checkpoint_text_encodes t st c st' Hst H) as (? & Ht & ? & ?).
    split_and!; try done. unfold optional_checkpoint. destruct c; try done. by rewrite Ht. }
  intros c1 H1 P1 D1.
  eapply encodes_bind; [apply identity_encodes|intros c2 H2 P2 D2].
  eapply encodes_bind; [apply identity_encodes|intros c3 H3 P3 D3].
  eapply encodes_bind; [apply identity_encodes|intros c4 H4 P4 D4].
  unfold dec_pull_request. apply encodes_ret; [read_back|is_plain|is_shallow].
  by destruct r as [[] ? ? ? ? ?].
Qed.

Lemma checkpoint_encodes c :
  checkpoint_u64 c → encodes (enc_checkpoint c) decode_checkpoint c 2.
Proof.
  intros (H1 & H2 & H3 & H4). unfold enc_checkpoint. skip_charges.
  eapply encodes_bind; [apply checkpoint_text_encodes|intros c1 E1 P1 D1].
  eapply encodes_bind; [apply identity_encodes|intros c2 E2 P2 D2].
  unfold decode_checkpoint.
  apply encodes_ret; [read_back; by destruct c as [? [? ?] [? ? ?]]|is_plain|is_shallow].
Qed.

Lemma snapshot_record_encodes r :
  state_wf (snap_state r) → encodes (enc_snapshot_record r) dec_snapshot_record r 68.
Proof.
  intros Hwf. unfold enc_snapshot_record. skip_charges.
  eapply encodes_bind; [apply identity_encodes|intros c1 E1 P1 D1].
  eapply encodes_bind; [by apply record_state_encodes|intros c2 E2 P2 D2].
  unfold dec_snapshot_record. apply encodes_ret; [read_back; by destruct r|is_plain|is_shallow].
Qed.

Lemma applied_record_encodes r :
  state_wf (applied_state r) → encodes (enc_applied_record r) dec_applied_record r 68.
Proof.
  intros Hwf. unfold enc_applied_record. skip_charges.
  eapply encodes_bind; [apply identity_encodes|intros c1 E1 P1 D1].
  eapply encodes_bind; [by apply record_state_encodes|intros c2 E2 P2 D2].
  unfold dec_applied_record. apply encodes_ret; [read_back; by destruct r|is_plain|is_shallow].
Qed.

Lemma pull_commit_encodes c :
  is_u64 (pc_sequence c) → Forall (λ r, state_wf (applied_state r)) (pc_records c) →
  encodes (enc_pull_commit c) dec_pull_commit (erase_commit c) 70.
Proof.
  intros Hn Hwf. unfold enc_pull_commit. skip_charges. apply encodes_vec. intros Hlen _.
  eapply (encodes_map _ dec_applied_record _ 68); [|done|intros cs H1 P1 D1].
  { eapply Forall_impl; [exact Hwf|]. intros r. apply applied_record_encodes. }
  unfold dec_pull_commit. emit.
Qed.

Lemma pull_frame_encodes f :
  frame_wf f → encodes (enc_pull_frame f) dec_pull_frame (erase_frame f) 71.
Proof.
  destruct f as [c|t c|c]; intros Hwf; unfold enc_pull_frame; skip_charges.
  - eapply encodes_bind; [by apply checkpoint_encodes|intros c1 E1 P1 D1].
    unfold dec_pull_frame. emit.
  - destruct Hwf as [Hn Hr].
    eapply encodes_bind; [apply checkpoint_text_encodes|intros c1 E1 P1 D1].
    eapply encodes_bind; [by apply pull_commit_encodes|intros c2 E2 P2 D2].
    unfold dec_pull_frame. emit.
  - eapply encodes_bind; [by apply checkpoint_encodes|intros c1 E1 P1 D1].
    unfold dec_pull_frame. emit.
Qed.

Lemma reset_reason_decodes r :
  is_u64 (reset_reason_code r) ∧ decode_reset_reason (reset_reason_code r) = Ok r.
Proof. by destruct r. Qed.

Lemma pull_response_encodes r :
  pull_response_wf r → encodes (enc_pull_response r) dec_pull_response (erase_sources r) 73.
Proof.
  destruct r as [[fs]|[reason cp rs]]; intros Hwf; unfold enc_pull_response; skip_charges;
    apply encodes_vec; intros Hlen _; simpl in Hwf.
  - eapply (encodes_map2 _ dec_pull_frame fs (erase_frame <$> fs) 71); [|done|intros cs H1 P1 D1].
    { apply Forall2_fmap_r, Forall_Forall2_diag. eapply Forall_impl; [exact Hwf|].
      apply pull_frame_encodes. }
    unfold dec_pull_response. emit.
  - destruct Hwf as [Hcp Hrs].
    eapply (encodes_map _ dec_snapshot_record _ 68); [|done|intros cs H1 P1 D1].
    { eapply Forall_impl; [exact Hrs|]. intros r. apply snapshot_record_encodes. }
    eapply encodes_bind; [by apply checkpoint_encodes|intros c2 E2 P2 D2].
    destruct (reset_reason_decodes reason) as [Hu Hd]. unfold dec_pull_response. simpl in *. emit.
Qed.

(** ** Messages *)

Lemma encoder_family_within family st : encoder_family family = Ok st → within st.
Proof.
  unfold encoder_family. intros H. apply result_bind_Ok in H as ([u st1] & H1 & H).
  apply result_bind_Ok in H as ([u' st2] & H2 & [= <-]).
  eapply keeps_take_bytes; [|exact H2]. eapply keeps_item; [|exact H1]. done.
Qed.

Lemma enc_pull_frame_erased f : enc_pull_frame (erase_frame f) = enc_pull_frame f.
Proof. by destruct f. Qed.

Lemma enc_pull_response_erased r st :
  enc_pull_response (erase_sources r) st = enc_pull_response r st.
Proof.
  destruct r as [[fs]|]; [|done]. unfold enc_pull_response, enc_bind, enc_map. simpl.
  unfold vec_len. rewrite length_fmap.
  destruct (enc_item 3 st) as [[? st1]|]; [|done].
  destruct (enc_vec _ st1) as [[? st2]|]; [|done].
  assert (try_map_st (λ st x, enc_pull_frame x st) st2 (erase_frame <$> fs)
    = try_map_st (λ st x, enc_pull_frame x st) st2 fs) as ->; [|done].
  revert st2. induction fs as [|x l IH]; intros s; csimpl; [done|].
  rewrite enc_pull_frame_erased. destruct (enc_pull_frame x s) as [[y s']|]; simpl; [|done].
  by rewrite IH.
Qed.

Lemma require_typed_canonical_same b : require_typed_canonical b b = Ok tt.
Proof. unfold require_typed_canonical. by rewrite decide_True. Qed.

Section messages.
Context {ciborium : Ciborium}.

Lemma require_typed_canonical_Ok a b u : require_typed_canonical a b = Ok u → a = b.
Proof. unfold require_typed_canonical. by case_decide. Qed.

Lemma decode_family_Ok bytes family kind c :
  decode_family_message bytes family kind = Ok c →
  (vec_len bytes ≤ MAX_ENCODED_BYTES)%N ∧ preflight_canonical_cbor bytes = Ok tt.
Proof.
  unfold decode_family_message. intros H. apply guard_bool_Ok in H as [?%N.ltb_ge H].
  by apply result_bind_Ok in H as ([] & ? & _).
Qed.

(** Every accepted message has one representation: the bytes the decoder accepts
    for a push request, push response, pull request or pull response are exactly the
    bytes the encoder produces for the decoded message, within the size limit and
    structurally checked, whatever the CBOR library does. *)
Theorem http_decode_canonical bytes :
  (∀ m, decode_push_request bytes = Ok m → encode_push_request m = Ok bytes) ∧
  (∀ m, decode_push_response bytes = Ok m → encode_push_response m = Ok bytes) ∧
  (∀ m, decode_pull_request bytes = Ok m → encode_pull_request m = Ok bytes) ∧
  (∀ m, decode_pull_response bytes = Ok m → encode_pull_response m = Ok bytes) ∧
  ((∃ m, decode_push_request bytes = Ok m) ∨ (∃ m, decode_push_response bytes = Ok m) ∨
   (∃ m, decode_pull_request bytes = Ok m) ∨ (∃ m, decode_pull_response bytes = Ok m) →
   (vec_len bytes ≤ MAX_ENCODED_BYTES)%N ∧ preflight_canonical_cbor bytes = Ok tt).
Proof.
  assert (∀ {A} (D : CborValue → result A CodecError) (E : A → result (list byte) CodecError)
    kind m,
    (let? payload := decode_message bytes kind in
     let? message := D payload in
     let? encoded := E message in
     let? _ := require_typed_canonical bytes encoded in
     Ok message) = Ok m →
    E m = Ok bytes ∧ (vec_len bytes ≤ MAX_ENCODED_BYTES)%N ∧
    preflight_canonical_cbor bytes = Ok tt) as H.
  { intros A D E kind m H. apply result_bind_Ok in H as (c & Hc & H).
    apply result_bind_Ok in H as (m' & _ & H). apply result_bind_Ok in H as (e & He & H).
    apply result_bind_Ok in H as (u & <-%require_typed_canonical_Ok & [= ->]).
    split; [done|]. by eapply decode_family_Ok. }
  split_and!; try (intros m Hm; by apply H in Hm as (? & _)).
  intros [[m Hm]|[[m Hm]|[[m Hm]|[m Hm]]]]; by apply H in Hm as (_ & ? & ?).
Qed.

Context {ciborium_laws : CiboriumLaws}.

Lemma family_roundtrip {A} family kind payload (D : CborValue → result A CodecError) x d bytes :
  encodes payload D x d → d ≤ 100 → is_u64 kind →
  encode_family_message family kind payload = Ok bytes →
  ∃ c, D c = Ok x ∧ decode_family_message bytes family kind
    = (let? _ := preflight_canonical_cbor bytes in Ok c).
Proof using ciborium_laws.
  intros Henc Hd Hk H. unfold encode_family_message in H.
  apply result_bind_Ok in H as (st & Hst%encoder_family_within & H).
  apply result_bind_Ok in H as ([c st'] & Hc & He).
  destruct (Henc _ _ _ Hst Hc) as (_ & HD & Hp & Hdep). exists c. split; [done|].
  pose proof (encode_cbor_value_Ok _ _ He) as (_ & _ & Hlen). unfold decode_family_message.
  rewrite (proj2 (N.ltb_ge _ _) Hlen).
  destruct (preflight_canonical_cbor bytes) as [[]|]; [|done]. cbn [result_bind].
  assert (read_cbor_value bytes
    = Ok (CArray [CText family; integer SCHEMA_V1; integer kind; c])) as ->.
  { eapply read_encoded; [| |exact He].
    - cbn [cbor_plain foldr].
      split_and!; [done|by apply integer_plain|by apply integer_plain|done..].
    - unfold integer. cbn [cbor_depth foldr]. lia. }
  cbv beta iota delta [result_bind text]. rewrite decide_False by tauto.
  rewrite unsigned_integer by done. cbv beta iota. rewrite decide_False by tauto.
  rewrite unsigned_integer by done. cbv beta iota. by rewrite decide_False by tauto.
Qed.

Lemma message_roundtrip {A} kind (E : A → enc CborValue) (D : CborValue → result A CodecError)
    (x y : A) d bytes :
  encodes (E x) D y d → d ≤ 100 → is_u64 kind → (∀ st, E y st = E x st) →
  encode_message kind (E x) = Ok bytes →
  (let? payload := decode_message bytes kind in
   let? message := D payload in
   let? encoded := encode_message kind (E message) in
   let? _ := require_typed_canonical bytes encoded in
   Ok message) = (let? _ := preflight_canonical_cbor bytes in Ok y).
Proof using ciborium_laws.
  intros Henc Hd Hk Heq H. unfold encode_message, decode_message in *.
  destruct (family_roundtrip V1_NAME kind _ D y d bytes Henc Hd Hk H) as (c & HD & ->).
  destruct (preflight_canonical_cbor bytes); [|done]. cbn [result_bind]. rewrite HD.
  cbn [result_bind].
  assert (encode_family_message V1_NAME kind (E y) = Ok bytes) as ->.
  { unfold encode_family_message in *. destruct (encoder_family V1_NAME); [|done].
    cbn [result_bind] in *. by rewrite Heq. }
  cbn [result_bind]. by rewrite require_typed_canonical_same.
Qed.

(** A push request or response that the encoder accepts is decoded to the same
    message; the only further check is the structural preflight scan of the bytes. *)
Theorem push_messages_roundtrip :
  (∀ r bytes, Forall operation_wf (operations (preq_commit r)) →
     encode_push_request r = Ok bytes →
     decode_push_request bytes = (let? _ := preflight_canonical_cbor bytes in Ok r)) ∧
  (∀ r bytes, msg_outcome_wf (presp_outcome r) → encode_push_response r = Ok bytes →
     decode_push_response bytes = (let? _ := preflight_canonical_cbor bytes in Ok r)).
Proof using ciborium_laws.
  split; intros r bytes Hwf H.
  - eapply (message_roundtrip PUSH_REQUEST enc_push_request dec_push_request r r 70);
      [by apply push_request_encodes|lia|done|done|exact H].
  - eapply (message_roundtrip PUSH_RESPONSE enc_push_response dec_push_response r r 69);
      [by apply push_response_encodes|lia|done|done|exact H].
Qed.

(** A pull request is decoded to the same message, and a pull response to the
    same message without the authority's private source identities; the only further
    check is the structural preflight scan of the bytes. *)
Theorem pull_messages_roundtrip :
  (∀ r bytes, is_u64 (pull_subscription_revision r) → encode_pull_request r = Ok bytes →
     decode_pull_request bytes = (let? _ := preflight_canonical_cbor bytes in Ok r)) ∧
  (∀ r bytes, pull_response_wf r → encode_pull_response r = Ok bytes →
     decode_pull_response bytes
       = (let? _ := preflight_canonical_cbor bytes in Ok (erase_sources r))).
Proof using ciborium_laws.
  split; intros r bytes Hwf H.
  - eapply (message_roundtrip PULL_REQUEST enc_pull_request dec_pull_request r r 1);
      [by apply pull_request_encodes|lia|done|done|exact H].
  - eapply (message_roundtrip PULL_RESPONSE enc_pull_response dec_pull_response
      r (erase_sources r) 73);
      [by apply pull_response_encodes|lia|done|apply enc_pull_response_erased|exact H].
Qed.
End messages.
