(* ===== verification/BootstrapCodec.v ===== *)
(** * The bootstrap messages and the streaming verification of a snapshot.

    Models [crates/surrealdb-sync-protocol/src/bootstrap.rs] (the message types) and
    [bootstrap_codec.rs] (their canonical encodings, the content hasher and the
    verifier).  A SHA-256 hasher is the sequence of bytes it has been fed. *)

From Stdlib Require Import Strings.Byte.
From S2P Require Import Prelude Bytes Protocol Canonical HttpCodec.

Definition BOOTSTRAP_NAME : string := "surrealdb-sync-bootstrap/1".
Definition MAX_BOOTSTRAP_RECORDS : N := 16384.
Definition MAX_BOOTSTRAP_PAGES : N := 16384.
Definition MAX_BOOTSTRAP_CONTENT_BYTES : N := 67108864.

(** ** Data *)

(** [BootstrapDigest([u8; 32])] *)
Abbreviation BootstrapDigest := (list byte) (only parsing).

Record BootstrapStartRequest := mkStart {
  bs_partition_id : PartitionId;
  bs_client_id : ClientId;
  bs_request_id : string;
  bs_requested_scope : ScopeIdentity;
  bs_subscription_revision : N;
  bs_journal_generation : string;
}.

Record BootstrapContext := mkContext {
  bc_authority_id : string;
  bc_principal_id : string;
  bc_partition_id : PartitionId;
  bc_client_id : ClientId;
  bc_journal_generation : string;
  bc_scope : ScopeSnapshot;
}.
#[export] Instance BootstrapContext_eq_dec : EqDecision BootstrapContext.
Proof. solve_decision. Defined.

Record BootstrapLimits := mkLimits {
  max_records : N;
  max_pages : N;
  max_content_bytes : N;
}.

Definition default_limits : BootstrapLimits :=
  mkLimits MAX_BOOTSTRAP_RECORDS MAX_BOOTSTRAP_PAGES MAX_BOOTSTRAP_CONTENT_BYTES.

Record BootstrapManifest := mkManifest {
  bm_session_id : string;
  bm_start_request_id : string;
  bm_start_fingerprint : BootstrapDigest;
  bm_context : BootstrapContext;
  bm_cursor : Cursor;
  bm_limits : BootstrapLimits;
  bm_page_count : N;
  bm_record_count : N;
  bm_content_bytes : N;
  bm_root : BootstrapDigest;
  bm_expires_at : N;
}.

Record BootstrapPageRequest := mkPageRequest {
  bpr_partition_id : PartitionId;
  bpr_client_id : ClientId;
  bpr_session_id : string;
  bpr_index : N;
}.

Record BootstrapPage := mkPage {
  bp_session_id : string;
  bp_manifest_digest : BootstrapDigest;
  bp_index : N;
  bp_records : list (SnapshotRecord CanonicalValue);
}.

Record BootstrapCompleteRequest := mkComplete {
  bcr_partition_id : PartitionId;
  bcr_client_id : ClientId;
  bcr_session_id : string;
  bcr_manifest_digest : BootstrapDigest;
}.

Record BootstrapReceipt := mkReceipt {
  br_session_id : string;
  br_manifest_digest : BootstrapDigest;
  br_checkpoint : Checkpoint;
  br_expires_at : N;
}.

Record BootstrapContentSummary := mkSummary {
  sum_page_count : N;
  sum_record_count : N;
  sum_content_bytes : N;
  sum_root : BootstrapDigest;
}.

(** ** Hashing *)

Definition START_DOMAIN : list byte :=
  String.list_byte_of_string "surrealdb-sync-bootstrap/1/start/sha256".
Definition PAGE_DOMAIN : list byte :=
  String.list_byte_of_string "surrealdb-sync-bootstrap/1/page-content/sha256".
Definition ROOT_DOMAIN : list byte :=
  String.list_byte_of_string "surrealdb-sync-bootstrap/1/ordered-root/sha256".
Definition MANIFEST_DOMAIN : list byte :=
  String.list_byte_of_string "surrealdb-sync-bootstrap/1/manifest/sha256".

(** The hasher after [frame(hasher, bytes)]. *)
Definition frame (hasher bytes : list byte) : list byte :=
  hasher ++ be_bytes 8 (vec_len bytes) ++ bytes.

Definition digest `{!Sha256} (domain bytes : list byte) : BootstrapDigest :=
  sha256 (frame (frame [] domain) bytes).

(** ** Checks and fields *)

Definition decoded_digest (value : CborValue) : result BootstrapDigest CodecError :=
  match value with
  | CBytes bytes => if decide (length bytes = 32) then Ok bytes else Err InvalidEnvelope
  | _ => Err InvalidEnvelope
  end.

Definition canonical (input encoded : list byte) : result unit CodecError :=
  if decide (input = encoded) then Ok tt else Err NonCanonical.

Definition bounded_index (index : N) : result unit CodecError :=
  if (index <? MAX_BOOTSTRAP_PAGES)%N then Ok tt else Err ContainerLimit.

Definition valid_limits (l : BootstrapLimits) : bool :=
  (0 <? max_records l)%N && (max_records l <=? MAX_BOOTSTRAP_RECORDS)%N &&
  (0 <? max_pages l)%N && (max_pages l <=? MAX_BOOTSTRAP_PAGES)%N &&
  (0 <? max_content_bytes l)%N && (max_content_bytes l <=? MAX_BOOTSTRAP_CONTENT_BYTES)%N.

Definition valid_manifest (m : BootstrapManifest) : result unit CodecError :=
  if negb (valid_limits (bm_limits m))
     || (max_pages (bm_limits m) <? bm_page_count m)%N
     || (max_records (bm_limits m) <? bm_record_count m)%N
     || (max_content_bytes (bm_limits m) <? bm_content_bytes m)%N
  then Err ContainerLimit else
  if ((bm_page_count m =? 0)%N
      && (negb (bm_record_count m =? 0)%N || negb (bm_content_bytes m =? 0)%N))
     || ((0 <? bm_page_count m)%N
      && ((bm_record_count m <? bm_page_count m)%N || (bm_content_bytes m =? 0)%N))
  then Err InvalidEnvelope else Ok tt.

Definition enc_scope (s : ScopeSnapshot) : enc CborValue :=
  let! _ := enc_item 3 in
  let! id := enc_identity_text (scope_identity s) in
  enc_ret (CArray [id; integer (authorization_revision s);
                   integer (scope_subscription_revision s)]).

Definition decode_scope (v : CborValue) : result ScopeSnapshot CodecError :=
  match v with
  | CArray [id; auth; sub] =>
      let? id := identity id in
      let? auth := unsigned auth in
      let? sub := unsigned sub in
      Ok (mkScope id auth sub)
  | _ => Err InvalidEnvelope
  end.

Definition enc_context (c : BootstrapContext) : enc CborValue :=
  let! _ := enc_item 7 in
  let! a := enc_identity_text (bc_authority_id c) in
  let! p := enc_identity_text (bc_principal_id c) in
  let! partition := enc_identity_text (bc_partition_id c) in
  let! client := enc_identity_text (bc_client_id c) in
  let! g := enc_identity_text (bc_journal_generation c) in
  let! s := enc_scope (bc_scope c) in
  enc_ret (CArray [a; p; partition; client; g; s]).

Definition decode_context (v : CborValue) : result BootstrapContext CodecError :=
  match v with
  | CArray [a; p; partition; client; g; s] =>
      let? a := identity a in
      let? p := identity p in
      let? partition := identity partition in
      let? client := identity client in
      let? g := identity g in
      let? s := decode_scope s in
      Ok (mkContext a p partition client g s)
  | _ => Err InvalidEnvelope
  end.

(** [validate_records]: ids strictly increase, no absent state, versions positive. *)
Definition bad_snapshot_state (state : RecordState CanonicalValue) : bool :=
  match state with
  | Absent => true
  | Present _ version _ | Tombstone version => (version =? 0)%N
  end.

Fixpoint validate_records_after (previous : option RecordId)
    (records : list (SnapshotRecord CanonicalValue)) : result unit CodecError :=
  match records with
  | [] => Ok tt
  | record :: records =>
      if match previous with
         | Some id => is_ge (str_cmp id (snap_record_id record))
         | None => false
         end
      then Err InvalidEnvelope else
      if bad_snapshot_state (snap_state record) then Err InvalidEnvelope else
      validate_records_after (Some (snap_record_id record)) records
  end.

Definition validate_records (records : list (SnapshotRecord CanonicalValue))
  : result unit CodecError :=
  if (vec_len records =? 0)%N || (MAX_CONTAINER_ITEMS <? vec_len records)%N
  then Err ContainerLimit else validate_records_after None records.

Definition preflight_page (p : BootstrapPage) : result unit CodecError :=
  let? _ := bounded_index (bp_index p) in
  let? _ := validate_records (bp_records p) in
  let? e := encoder_family BOOTSTRAP_NAME in
  let? (_, e) := enc_item 5 e in
  let? (_, e) := preflight_identity (bp_session_id p) e in
  let? (_, e) := preflight_digest e in
  let? (_, _) := preflight_snapshot_records (bp_records p) 5 e in
  Ok tt.

(** ** Payloads *)

Definition enc_start (r : BootstrapStartRequest) : enc CborValue :=
  let! _ := enc_item 7 in
  let! p := enc_identity_text (bs_partition_id r) in
  let! c := enc_identity_text (bs_client_id r) in
  let! id := enc_identity_text (bs_request_id r) in
  let! s := enc_identity_text (bs_requested_scope r) in
  let! g := enc_identity_text (bs_journal_generation r) in
  enc_ret (CArray [p; c; id; s; integer (bs_subscription_revision r); g]).

Definition dec_start (v : CborValue) : result BootstrapStartRequest CodecError :=
  match v with
  | CArray [p; c; id; s; rev; g] =>
      let? p := identity p in
      let? c := identity c in
      let? id := identity id in
      let? s := identity s in
      let? rev := unsigned rev in
      let? g := identity g in
      Ok (mkStart p c id s rev g)
  | _ => Err InvalidEnvelope
  end.

Definition enc_manifest (m : BootstrapManifest) : enc CborValue :=
  let! _ := enc_item 12 in
  let! c := enc_context (bm_context m) in
  let! id := enc_identity_text (bm_session_id m) in
  let! start := enc_identity_text (bm_start_request_id m) in
  let! fp := enc_digest (bm_start_fingerprint m) in
  let! root := enc_digest (bm_root m) in
  enc_ret (CArray [id; start; fp; c;
    CArray [integer (epoch (bm_cursor m)); integer (sequence (bm_cursor m))];
    CArray [integer (max_records (bm_limits m)); integer (max_pages (bm_limits m));
            integer (max_content_bytes (bm_limits m))];
    integer (bm_page_count m); integer (bm_record_count m); integer (bm_content_bytes m);
    root; integer (bm_expires_at m)]).

Definition dec_manifest (v : CborValue) : result BootstrapManifest CodecError :=
  match v with
  | CArray [id; start; fp; ctx; cursor; limits; pages; records; size; root; expiry] =>
      match cursor with
      | CArray [epoch; sequence] =>
          match limits with
          | CArray [max_records; max_pages; max_content_bytes] =>
              let? id := identity id in
              let? start := identity start in
              let? fp := decoded_digest fp in
              let? ctx := decode_context ctx in
              let? epoch := unsigned epoch in
              let? sequence := unsigned sequence in
              let? max_records := unsigned max_records in
              let? max_pages := unsigned max_pages in
              let? max_content_bytes := unsigned max_content_bytes in
              let? pages := unsigned pages in
              let? records := unsigned records in
              let? size := unsigned size in
              let? root := decoded_digest root in
              let? expiry := unsigned expiry in
              Ok (mkManifest id start fp ctx (mkCursor epoch sequence)
                    (mkLimits max_records max_pages max_content_bytes)
                    pages records size root expiry)
          | _ => Err InvalidEnvelope
          end
      | _ => Err InvalidEnvelope
      end
  | _ => Err InvalidEnvelope
  end.

Definition enc_page_request (r : BootstrapPageRequest) : enc CborValue :=
  let! _ := enc_item 5 in
  let! p := enc_identity_text (bpr_partition_id r) in
  let! c := enc_identity_text (bpr_client_id r) in
  let! s := enc_identity_text (bpr_session_id r) in
  enc_ret (CArray [p; c; s; integer (bpr_index r)]).

Definition dec_page_request (v : CborValue) : result BootstrapPageRequest CodecError :=
  match v with
  | CArray [p; c; s; i] =>
      let? p := identity p in
      let? c := identity c in
      let? s := identity s in
      let? i := unsigned i in
      Ok (mkPageRequest p c s i)
  | _ => Err InvalidEnvelope
  end.

Definition enc_page (p : BootstrapPage) : enc CborValue :=
  let! _ := enc_item 5 in
  let! id := enc_identity_text (bp_session_id p) in
  let! hash := enc_digest (bp_manifest_digest p) in
  let! _ := enc_vec (vec_len (bp_records p)) in
  let! records := enc_map enc_snapshot_record (bp_records p) in
  enc_ret (CArray [id; hash; integer (bp_index p); CArray records]).

Definition dec_page (v : CborValue) : result BootstrapPage CodecError :=
  match v with
  | CArray [id; hash; index; records] =>
      let? records := vec_decode records dec_snapshot_record in
      let? id := identity id in
      let? hash := decoded_digest hash in
      let? index := unsigned index in
      Ok (mkPage id hash index records)
  | _ => Err InvalidEnvelope
  end.

Definition enc_complete (r : BootstrapCompleteRequest) : enc CborValue :=
  let! _ := enc_item 5 in
  let! p := enc_identity_text (bcr_partition_id r) in
  let! c := enc_identity_text (bcr_client_id r) in
  let! s := enc_identity_text (bcr_session_id r) in
  let! h := enc_digest (bcr_manifest_digest r) in
  enc_ret (CArray [p; c; s; h]).

Definition dec_complete (v : CborValue) : result BootstrapCompleteRequest CodecError :=
  match v with
  | CArray [p; c; s; h] =>
      let? p := identity p in
      let? c := identity c in
      let? s := identity s in
      let? h := decoded_digest h in
      Ok (mkComplete p c s h)
  | _ => Err InvalidEnvelope
  end.

Definition enc_receipt (r : BootstrapReceipt) : enc CborValue :=
  let! _ := enc_item 5 in
  let! s := enc_identity_text (br_session_id r) in
  let! h := enc_digest (br_manifest_digest r) in
  let! c := enc_checkpoint (br_checkpoint r) in
  enc_ret (CArray [s; h; c; integer (br_expires_at r)]).

Definition dec_receipt (v : CborValue) : result BootstrapReceipt CodecError :=
  match v with
  | CArray [s; h; c; t] =>
      let? s := identity s in
      let? h := decoded_digest h in
      let? c := decode_checkpoint c in
      let? t := unsigned t in
      Ok (mkReceipt s h c t)
  | _ => Err InvalidEnvelope
  end.

(** ** Messages *)

Section messages.
Context {ciborium : Ciborium} {sha : Sha256}.

Definition encode_bootstrap_message (kind : N) (payload : enc CborValue)
  : result (list byte) CodecError :=
  let? bytes := encode_family_message BOOTSTRAP_NAME kind payload in
  let? _ := preflight_canonical_cbor bytes in
  Ok bytes.

Definition encode_bootstrap_start (r : BootstrapStartRequest)
  : result (list byte) CodecError := encode_bootstrap_message 0 (enc_start r).
Definition decode_bootstrap_start (bytes : list byte)
  : result BootstrapStartRequest CodecError :=
  let? payload := decode_family_message bytes BOOTSTRAP_NAME 0 in
  let? r := dec_start payload in
  let? encoded := encode_bootstrap_start r in
  let? _ := canonical bytes encoded in
  Ok r.
Definition bootstrap_start_fingerprint (r : BootstrapStartRequest)
  : result BootstrapDigest CodecError :=
  let? bytes := encode_bootstrap_start r in Ok (digest START_DOMAIN bytes).

Definition encode_bootstrap_manifest (m : BootstrapManifest)
  : result (list byte) CodecError :=
  let? _ := valid_manifest m in encode_bootstrap_message 1 (enc_manifest m).
Definition decode_bootstrap_manifest (bytes : list byte)
  : result BootstrapManifest CodecError :=
  let? payload := decode_family_message bytes BOOTSTRAP_NAME 1 in
  let? m := dec_manifest payload in
  let? encoded := encode_bootstrap_manifest m in
  let? _ := canonical bytes encoded in
  Ok m.
Definition bootstrap_manifest_digest (m : BootstrapManifest)
  : result BootstrapDigest CodecError :=
  let? bytes := encode_bootstrap_manifest m in Ok (digest MANIFEST_DOMAIN bytes).

Definition validate_bootstrap_manifest_context (m : BootstrapManifest)
    (r : BootstrapStartRequest) (expected : BootstrapContext) : result unit CodecError :=
  let? _ := encode_bootstrap_manifest m in
  let? _ := encode_bootstrap_start r in
  if decide (bm_context m ≠ expected) then Err InvalidEnvelope else
  if decide (bm_start_request_id m ≠ bs_request_id r) then Err InvalidEnvelope else
  let? fp := bootstrap_start_fingerprint r in
  if decide (bm_start_fingerprint m ≠ fp
     ∨ bs_partition_id r ≠ bc_partition_id expected
     ∨ bs_client_id r ≠ bc_client_id expected
     ∨ bs_journal_generation r ≠ bc_journal_generation expected
     ∨ bs_requested_scope r ≠ scope_identity (bc_scope expected)
     ∨ bs_subscription_revision r ≠ scope_subscription_revision (bc_scope expected))
  then Err InvalidEnvelope else Ok tt.

Definition encode_bootstrap_page_request (r : BootstrapPageRequest)
  : result (list byte) CodecError :=
  let? _ := bounded_index (bpr_index r) in encode_bootstrap_message 2 (enc_page_request r).
Definition decode_bootstrap_page_request (bytes : list byte)
  : result BootstrapPageRequest CodecError :=
  let? payload := decode_family_message bytes BOOTSTRAP_NAME 2 in
  let? r := dec_page_request payload in
  let? encoded := encode_bootstrap_page_request r in
  let? _ := canonical bytes encoded in
  Ok r.

Definition encode_bootstrap_page (p : BootstrapPage) : result (list byte) CodecError :=
  let? _ := preflight_page p in encode_bootstrap_message 3 (enc_page p).
Definition decode_bootstrap_page (bytes : list byte) : result BootstrapPage CodecError :=
  let? payload := decode_family_message bytes BOOTSTRAP_NAME 3 in
  let? p := dec_page payload in
  let? encoded := encode_bootstrap_page p in
  let? _ := canonical bytes encoded in
  Ok p.

Definition encode_content (index : N) (records : list (SnapshotRecord CanonicalValue))
  : result (list byte) CodecError :=
  let? (_, e) := enc_item 3 encoder_new in
  let? (_, e) := enc_vec (vec_len records) e in
  let? (rows, _) := enc_map enc_snapshot_record records e in
  encode_cbor_value (CArray [integer index; CArray rows]).

Definition bootstrap_page_content_digest (p : BootstrapPage)
  : result BootstrapDigest CodecError :=
  let? _ := encode_bootstrap_page p in
  let? content := encode_content (bp_index p) (bp_records p) in
  Ok (digest PAGE_DOMAIN content).

Definition encode_bootstrap_complete (r : BootstrapCompleteRequest)
  : result (list byte) CodecError := encode_bootstrap_message 4 (enc_complete r).
Definition decode_bootstrap_complete (bytes : list byte)
  : result BootstrapCompleteRequest CodecError :=
  let? payload := decode_family_message bytes BOOTSTRAP_NAME 4 in
  let? r := dec_complete payload in
  let? encoded := encode_bootstrap_complete r in
  let? _ := canonical bytes encoded in
  Ok r.

Definition encode_bootstrap_receipt (r : BootstrapReceipt)
  : result (list byte) CodecError := encode_bootstrap_message 5 (enc_receipt r).
Definition decode_bootstrap_receipt (bytes : list byte)
  : result BootstrapReceipt CodecError :=
  let? payload := decode_family_message bytes BOOTSTRAP_NAME 5 in
  let? r := dec_receipt payload in
  let? encoded := encode_bootstrap_receipt r in
  let? _ := canonical bytes encoded in
  Ok r.

Definition validate_bootstrap_receipt (m : BootstrapManifest) (r : BootstrapReceipt)
  : result unit CodecError :=
  let? _ := encode_bootstrap_receipt r in
  if decide (br_session_id r ≠ bm_session_id m) then Err InvalidEnvelope else
  let? hash := bootstrap_manifest_digest m in
  if decide (br_manifest_digest r ≠ hash
     ∨ cursor (br_checkpoint r) ≠ bm_cursor m
     ∨ scope (br_checkpoint r) ≠ bc_scope (bm_context m)
     ∨ br_expires_at r ≠ bm_expires_at m)
  then Err InvalidEnvelope else Ok tt.

(** ** The content hasher and the verifier *)

Record BootstrapContentHasher := mkHasher {
  ch_session_id : string;
  ch_next_index : N;
  ch_records : N;
  ch_bytes : N;
  ch_last_id : option RecordId;
  ch_root : list byte;
}.

Definition hasher_new (session_id : string) : result BootstrapContentHasher CodecError :=
  if bad_text MAX_IDENTITY_BYTES session_id then Err InvalidIdentifier else
  Ok (mkHasher session_id 0 0 0 None (frame [] ROOT_DOMAIN)).

(** The encoder refuses an empty page, so [p.records[0]] is in range. *)
Definition hasher_push (self : BootstrapContentHasher) (p : BootstrapPage)
  : result BootstrapContentHasher CodecError :=
  if decide (bp_session_id p ≠ ch_session_id self ∨ bp_index p ≠ ch_next_index self)
  then Err InvalidEnvelope else
  let? _ := encode_bootstrap_page p in
  if match ch_last_id self, head (bp_records p) with
     | Some id, Some first => is_ge (str_cmp id (snap_record_id first))
     | _, _ => false
     end
  then Err InvalidEnvelope else
  let? content := encode_content (bp_index p) (bp_records p) in
  let? records := ok_or (checked_add u64_max (ch_records self) (vec_len (bp_records p)))
                        ContainerLimit in
  let? bytes := ok_or (checked_add u64_max (ch_bytes self) (vec_len content)) EncodedLimit in
  let? next := ok_or (checked_add u64_max (ch_next_index self) 1) ContainerLimit in
  if (MAX_BOOTSTRAP_RECORDS <? records)%N || (MAX_BOOTSTRAP_PAGES <? next)%N
     || (MAX_BOOTSTRAP_CONTENT_BYTES <? bytes)%N
  then Err ContainerLimit else
  let hash := digest PAGE_DOMAIN content in
  let root := frame (frame (ch_root self) (be_bytes 8 (bp_index p))) hash in
  Ok (mkHasher (ch_session_id self) next records bytes
        (snap_record_id <$> last (bp_records p)) root).

Definition hasher_summary (self : BootstrapContentHasher) : BootstrapContentSummary :=
  mkSummary (ch_next_index self) (ch_records self) (ch_bytes self) (sha256 (ch_root self)).

Record BootstrapVerifier := mkVerifier {
  bv_manifest : BootstrapManifest;
  bv_manifest_digest : BootstrapDigest;
  bv_content : BootstrapContentHasher;
}.

Definition verifier_new (manifest : BootstrapManifest) : result BootstrapVerifier CodecError :=
  let? manifest_digest := bootstrap_manifest_digest manifest in
  let? content := hasher_new (bm_session_id manifest) in
  Ok (mkVerifier manifest manifest_digest content).

Definition verifier_push (self : BootstrapVerifier) (page : BootstrapPage)
  : result BootstrapVerifier CodecError :=
  if decide (bp_manifest_digest page ≠ bv_manifest_digest self) then Err InvalidEnvelope else
  let? candidate := hasher_push (bv_content self) page in
  let s := hasher_summary candidate in
  if (bm_page_count (bv_manifest self) <? sum_page_count s)%N
     || (bm_record_count (bv_manifest self) <? sum_record_count s)%N
     || (bm_content_bytes (bv_manifest self) <? sum_content_bytes s)%N
  then Err InvalidEnvelope else
  Ok (mkVerifier (bv_manifest self) (bv_manifest_digest self) candidate).

Definition verifier_summary (self : BootstrapVerifier) : BootstrapContentSummary :=
  hasher_summary (bv_content self).

Definition verifier_finish (self : BootstrapVerifier)
  : result BootstrapContentSummary CodecError :=
  let s := hasher_summary (bv_content self) in
  if decide (sum_page_count s ≠ bm_page_count (bv_manifest self)
     ∨ sum_record_count s ≠ bm_record_count (bv_manifest self)
     ∨ sum_content_bytes s ≠ bm_content_bytes (bv_manifest self)
     ∨ sum_root s ≠ bm_root (bv_manifest self))
  then Err InvalidEnvelope else Ok s.

(** A whole verification: the pages in the order they are pushed. *)
Definition verify (manifest : BootstrapManifest) (pages : list BootstrapPage)
  : result BootstrapContentSummary CodecError :=
  let? verifier := verifier_new manifest in
  let? verifier := try_fold verifier_push verifier pages in
  verifier_finish verifier.
End messages.
