(* ===== verification/BootstrapProps.v ===== *)
(** * Properties of the bootstrap codec and of the streaming verification. *)

From Stdlib Require Import Strings.Byte.
From S2P Require Import Prelude Bytes Protocol Canonical CanonicalProps FingerprintProps.
From S2P Require Import HttpCodec HttpProps BootstrapCodec.

(** ** Fields *)

Lemma keeps_preflight_digest : keeps preflight_digest.
Proof.
  intros st a st' Hst H. unfold preflight_digest in H.
  apply enc_bind_Ok in H as (u & st1 & H1 & H2).
  eapply keeps_item; [|exact H2]. by eapply keeps_take_bytes.
Qed.
#[export] Hint Resolve keeps_preflight_digest : codec.

(** What the Rust types guarantee: digests have 32 bytes, counters 64 bits. *)
Definition is_digest (d : list byte) : Prop := length d = 32.
Definition scope_u64 (s : ScopeSnapshot) : Prop :=
  is_u64 (authorization_revision s) ∧ is_u64 (scope_subscription_revision s).
Definition start_wf (r : BootstrapStartRequest) : Prop := is_u64 (bs_subscription_revision r).
Definition manifest_wf (m : BootstrapManifest) : Prop :=
  is_digest (bm_start_fingerprint m) ∧ is_digest (bm_root m) ∧
  scope_u64 (bc_scope (bm_context m)) ∧
  (is_u64 (epoch (bm_cursor m)) ∧ is_u64 (sequence (bm_cursor m))) ∧
  (is_u64 (max_records (bm_limits m)) ∧ is_u64 (max_pages (bm_limits m)) ∧
   is_u64 (max_content_bytes (bm_limits m))) ∧
  is_u64 (bm_page_count m) ∧ is_u64 (bm_record_count m) ∧ is_u64 (bm_content_bytes m) ∧
  is_u64 (bm_expires_at m).
Definition page_wf (p : BootstrapPage) : Prop :=
  is_digest (bp_manifest_digest p) ∧ is_u64 (bp_index p) ∧
  Forall (λ r, state_wf (snap_state r)) (bp_records p).
Definition receipt_wf (r : BootstrapReceipt) : Prop :=
  is_digest (br_manifest_digest r) ∧ checkpoint_u64 (br_checkpoint r) ∧
  is_u64 (br_expires_at r).

Lemma digest_encodes d : is_digest d → encodes (enc_digest d) decoded_digest d 0.
Proof.
  intros Hd. unfold enc_digest. skip_charges. apply encodes_ret; [|done|done].
  simpl. by rewrite decide_True.
Qed.

(** The next field of a message, by the lemma that pairs its two directions. *)
Ltac next_field L :=
  eapply encodes_bind; [solve [apply L; done]|let c := fresh "c" in intros c ? ? ?].

Lemma scope_encodes s : scope_u64 s → encodes (enc_scope s) decode_scope s 1.
Proof.
  intros [? ?]. unfold enc_scope. skip_charges. next_field identity_encodes.
  unfold decode_scope. apply encodes_ret; [read_back; by destruct s|is_plain|is_shallow].
Qed.

Lemma context_encodes c :
  scope_u64 (bc_scope c) → encodes (enc_context c) decode_context c 2.
Proof.
  intros ?. unfold enc_context. skip_charges. do 5 next_field identity_encodes.
  next_field scope_encodes. unfold decode_context.
  apply encodes_ret; [read_back; by destruct c|is_plain|is_shallow].
Qed.

Lemma start_encodes r : start_wf r → encodes (enc_start r) dec_start r 1.
Proof.
  intros ?. unfold enc_start. skip_charges. do 5 next_field identity_encodes.
  unfold dec_start. apply encodes_ret; [read_back; by destruct r|is_plain|is_shallow].
Qed.

Lemma manifest_encodes m : manifest_wf m → encodes (enc_manifest m) dec_manifest m 3.
Proof.
  intros (? & ? & ? & [? ?] & (? & ? & ?) & ? & ? & ? & ?). unfold enc_manifest. skip_charges.
  next_field context_encodes. do 2 next_field identity_encodes. do 2 next_field digest_encodes.
  unfold dec_manifest. apply encodes_ret; [read_back|is_plain|is_shallow].
  by destruct m as [? ? ? ? [? ?] [? ? ?] ? ? ? ? ?].
Qed.

Lemma page_request_encodes r :
  is_u64 (bpr_index r) → encodes (enc_page_request r) dec_page_request r 1.
Proof.
  intros ?. unfold enc_page_request. skip_charges. do 3 next_field identity_encodes.
  unfold dec_page_request. apply encodes_ret; [read_back; by destruct r|is_plain|is_shallow].
Qed.

Lemma page_encodes p : page_wf p → encodes (enc_page p) dec_page p 70.
Proof.
  intros (? & ? & Hr). unfold enc_page. skip_charges. next_field identity_encodes.
  next_field digest_encodes. apply encodes_vec. intros Hlen _.
  eapply (encodes_map _ dec_snapshot_record _ 68); [|done|intros cs HC PC DC].
  { eapply Forall_impl; [exact Hr|]. intros r. apply snapshot_record_encodes. }
  unfold dec_page. apply encodes_ret; [read_back; by destruct p|is_plain|is_shallow].
Qed.

Lemma complete_encodes r :
  is_digest (bcr_manifest_digest r) → encodes (enc_complete r) dec_complete r 1.
Proof.
  intros ?. unfold enc_complete. skip_charges. do 3 next_field identity_encodes.
  next_field digest_encodes. unfold dec_complete.
  apply encodes_ret; [read_back; by destruct r|is_plain|is_shallow].
Qed.

Lemma receipt_encodes r : receipt_wf r → encodes (enc_receipt r) dec_receipt r 3.
Proof.
  intros (? & ? & ?). unfold enc_receipt. skip_charges. next_field identity_encodes.
  next_field digest_encodes. next_field checkpoint_encodes. unfold dec_receipt.
  apply encodes_ret; [read_back; by destruct r|is_plain|is_shallow].
Qed.

(** ** Messages *)

Lemma canonical_Ok a b u : canonical a b = Ok u → a = b.
Proof. unfold canonical. by case_decide. Qed.

Section messages.
Context {ciborium : Ciborium} {ciborium_laws : CiboriumLaws}.

(** Decoding accepts exactly the encoder's bytes, for a message whose payload
    encoder and decoder agree. *)
Lemma bootstrap_message_exact {A} kind (E : A → enc CborValue)
    (D : CborValue → result A CodecError) (encode : A → result (list byte) CodecError)
    x d bytes :
  encodes (E x) D x d → d ≤ 100 → is_u64 kind →
  (encode x = Ok bytes → encode_bootstrap_message kind (E x) = Ok bytes) →
  (let? payload := decode_family_message bytes BOOTSTRAP_NAME kind in
   let? message := D payload in
   let? encoded := encode message in
   let? _ := canonical bytes encoded in
   Ok message) = Ok x ↔ encode x = Ok bytes.
Proof using ciborium_laws.
  intros Henc Hd Hk Hmsg. split.
  - intros H. apply result_bind_Ok in H as (c & _ & H).
    apply result_bind_Ok in H as (m & _ & H). apply result_bind_Ok in H as (e & He & H).
    by apply result_bind_Ok in H as (u & <-%canonical_Ok & [= ->]).
  - intros H. specialize (Hmsg H). unfold encode_bootstrap_message in Hmsg.
    apply result_bind_Ok in Hmsg as (b & Hb & Hmsg).
    apply result_bind_Ok in Hmsg as ([] & Hp & [= ->]).
    destruct (family_roundtrip _ _ _ _ _ _ _ Henc Hd Hk Hb) as (c & HD & ->).
    rewrite Hp. cbn [result_bind]. rewrite HD. cbn [result_bind]. rewrite H.
    cbn [result_bind]. unfold canonical. by rewrite decide_True.
Qed.

(** C36: the bootstrap codec is exact: for each of the six messages the decoder
    accepts a byte string and returns a message exactly when that byte string is the
    one the encoder produces for it, so whatever can be sent can be received and no
    message has two representations. *)
Theorem bootstrap_codec_exact bytes :
  (∀ r, start_wf r →
     decode_bootstrap_start bytes = Ok r ↔ encode_bootstrap_start r = Ok bytes) ∧
  (∀ m, manifest_wf m →
     decode_bootstrap_manifest bytes = Ok m ↔ encode_bootstrap_manifest m = Ok bytes) ∧
  (∀ r, is_u64 (bpr_index r) →
     decode_bootstrap_page_request bytes = Ok r ↔ encode_bootstrap_page_request r = Ok bytes) ∧
  (∀ p, page_wf p →
     decode_bootstrap_page bytes = Ok p ↔ encode_bootstrap_page p = Ok bytes) ∧
  (∀ r, is_digest (bcr_manifest_digest r) →
     decode_bootstrap_complete bytes = Ok r ↔ encode_bootstrap_complete r = Ok bytes) ∧
  (∀ r, receipt_wf r →
     decode_bootstrap_receipt bytes = Ok r ↔ encode_bootstrap_receipt r = Ok bytes).
Proof using ciborium_laws.
  assert (∀ (c : result unit CodecError) (k : result (list byte) CodecError),
    (let? _ := c in k) = Ok bytes → k = Ok bytes) as Hguard.
  { intros c k H. by apply result_bind_Ok in H as (u & _ & H). }
  split_and!; intros x Hx.
  - by apply (bootstrap_message_exact 0 enc_start _ _ _ 1); [apply start_encodes|lia|..].
  - apply (bootstrap_message_exact 1 enc_manifest _ _ _ 3);
      [by apply manifest_encodes|lia|done|apply Hguard].
  - apply (bootstrap_message_exact 2 enc_page_request _ _ _ 1);
      [by apply page_request_encodes|lia|done|apply Hguard].
  - apply (bootstrap_message_exact 3 enc_page _ _ _ 70);
      [by apply page_encodes|lia|done|apply Hguard].
  - by apply (bootstrap_message_exact 4 enc_complete _ _ _ 1); [apply complete_encodes|lia|..].
  - by apply (bootstrap_message_exact 5 enc_receipt _ _ _ 3); [apply receipt_encodes|lia|..].
Qed.
End messages.
