(* ===== verification/VerifierProps.v ===== *)
(** * What the streaming bootstrap verifier accepts. *)

From Stdlib Require Import Strings.Byte.
From S2P Require Import Prelude Bytes Protocol Canonical CanonicalProps FingerprintProps.
From S2P Require Import HttpCodec HttpProps BootstrapCodec BootstrapProps.

(** ** The records of a page *)

Definition page_ids (p : BootstrapPage) : list RecordId := snap_record_id <$> bp_records p.

(** Consecutive ids increase. *)
Abbreviation ascending := (Sorted str_lt) (only parsing).

Lemma is_ge_not_lt s t : is_ge (str_cmp s t) = false ↔ str_lt s t.
Proof. unfold str_lt. by destruct (str_cmp s t). Qed.

Lemma ascending_cons s t l : ascending (s :: t :: l) ↔ str_lt s t ∧ ascending (t :: l).
Proof.
  split; [intros H; inversion H as [|? ? ? Hh]; subst; by inversion Hh|].
  intros [? ?]. constructor; [done|by constructor].
Qed.

(** Two runs that share an element. *)
Lemma ascending_app l x k :
  ascending (l ++ x :: k) ↔ ascending (l ++ [x]) ∧ ascending (x :: k).
Proof.
  induction l as [|y [|z l] IH]; simpl.
  - split; [intros H; by split; [repeat constructor|]|by intros [_ ?]].
  - rewrite !ascending_cons. split; [intros [? ?]; by split_and!; [|repeat constructor|]|tauto].
  - simpl in IH. rewrite !ascending_cons, IH. tauto.
Qed.

Lemma validate_records_after_spec prev rs :
  validate_records_after prev rs = Ok tt ↔
  ascending (option_list prev ++ (snap_record_id <$> rs)) ∧
  Forall (λ r, bad_snapshot_state (snap_state r) = false) rs.
Proof.
  revert prev. induction rs as [|r rs IH]; intros prev; csimpl.
  { split; [intros _; split; [|done]|done]. rewrite app_nil_r. by destruct prev; repeat constructor. }
  rewrite !guard_bool_Ok, IH, Forall_cons. cbn [option_list app]. destruct prev as [id|]; simpl.
  - rewrite ascending_cons, is_ge_not_lt. tauto.
  - tauto.
Qed.

(** ** The root *)

Section verifier.
Context {ciborium : Ciborium} {sha : Sha256}.

(** What one page contributes to the root: its framed index and the framed digest of
    its content. *)
Definition root_entry (index : N) (content : list byte) : list byte :=
  frame (frame [] (be_bytes 8 index)) (digest PAGE_DOMAIN content).
Fixpoint root_entries (index : N) (contents : list (list byte)) : list byte :=
  match contents with
  | [] => []
  | content :: contents => root_entry index content ++ root_entries (index + 1) contents
  end.
(** The digest that a manifest commits to. *)
Definition ordered_root (contents : list (list byte)) : list byte :=
  sha256 (frame [] ROOT_DOMAIN ++ root_entries 0 contents).

Fixpoint indexes (index : N) (k : nat) : list N :=
  match k with O => [] | S k => index :: indexes (index + 1) k end.

Definition total_bytes (contents : list (list byte)) : N := vec_len (concat contents).
Definition total_records (pages : list BootstrapPage) : N :=
  vec_len (concat (bp_records <$> pages)).

Lemma frame_app h b : frame h b = h ++ frame [] b.
Proof. done. Qed.

(** A page the encoder accepts has records, in ascending order and valid. *)
Lemma encoded_page p b :
  encode_bootstrap_page p = Ok b →
  bp_records p ≠ [] ∧ ascending (page_ids p) ∧
  Forall (λ r, bad_snapshot_state (snap_state r) = false) (bp_records p).
Proof.
  unfold encode_bootstrap_page. intros H. apply result_bind_Ok in H as ([] & H & _).
  unfold preflight_page in H. apply result_bind_Ok in H as ([] & _ & H).
  apply result_bind_Ok in H as ([] & H & _). unfold validate_records in H.
  apply guard_bool_Ok in H as [[H0%N.eqb_neq _]%orb_false_iff H].
  apply validate_records_after_spec in H. split; [|done]. intros Hnil. by rewrite Hnil in H0.
Qed.

(** One push, with the content it hashes. *)
Definition pushed (h : BootstrapContentHasher) (p : BootstrapPage) (content : list byte)
  : BootstrapContentHasher :=
  mkHasher (ch_session_id h) (ch_next_index h + 1) (ch_records h + vec_len (bp_records p))
    (ch_bytes h + vec_len content) (last (page_ids p))
    (ch_root h ++ root_entry (bp_index p) content).

Lemma pushed_eq h p content :
  mkHasher (ch_session_id h) (ch_next_index h + 1) (ch_records h + vec_len (bp_records p))
    (ch_bytes h + vec_len content) (snap_record_id <$> last (bp_records p))
    (frame (frame (ch_root h) (be_bytes 8 (bp_index p))) (digest PAGE_DOMAIN content))
  = pushed h p content.
Proof.
  unfold pushed, page_ids, root_entry. rewrite fmap_last. f_equal.
  by rewrite (frame_app (frame (ch_root h) _)), (frame_app (ch_root h)),
    (frame_app (frame [] _)), app_assoc.
Qed.

Definition order_ok (h : BootstrapContentHasher) (p : BootstrapPage) : Prop :=
  ascending (option_list (ch_last_id h) ++ page_ids p).

Lemma order_ok_spec h p b :
  encode_bootstrap_page p = Ok b →
  match ch_last_id h, head (bp_records p) with
  | Some id, Some first => is_ge (str_cmp id (snap_record_id first))
  | _, _ => false
  end = false ↔ order_ok h p.
Proof.
  intros (Hne & Hs & _)%encoded_page. unfold order_ok, page_ids in *.
  destruct (bp_records p) as [|r rs]; [done|]. csimpl in *.
  destruct (ch_last_id h) as [id|]; csimpl; [|done].
  rewrite ascending_cons, is_ge_not_lt. tauto.
Qed.

Lemma hasher_push_spec h p h' :
  hasher_push h p = Ok h' ↔
  ∃ b content,
    bp_session_id p = ch_session_id h ∧ bp_index p = ch_next_index h ∧
    encode_bootstrap_page p = Ok b ∧ order_ok h p ∧
    encode_content (bp_index p) (bp_records p) = Ok content ∧
    h' = pushed h p content ∧
    (ch_records h' ≤ MAX_BOOTSTRAP_RECORDS)%N ∧ (ch_next_index h' ≤ MAX_BOOTSTRAP_PAGES)%N ∧
    (ch_bytes h' ≤ MAX_BOOTSTRAP_CONTENT_BYTES)%N.
Proof.
  unfold hasher_push. split.
  - intros [Hg H]%guard_Ok. apply refusal_or in Hg as [?%dec_stable ?%dec_stable].
    apply result_bind_Ok in H as (b & Hb & [Ho H]%guard_bool_Ok).
    apply (order_ok_spec h p b Hb) in Ho. apply result_bind_Ok in H as (c & Hc & H).
    apply result_bind_Ok in H as (r & [-> _]%ok_or_Ok%checked_add_Some & H).
    apply result_bind_Ok in H as (bs & [-> _]%ok_or_Ok%checked_add_Some & H).
    apply result_bind_Ok in H as (n & [-> _]%ok_or_Ok%checked_add_Some & [Hl [= <-]]%guard_bool_Ok).
    apply orb_false_iff in Hl as [[Hr%N.ltb_ge Hn%N.ltb_ge]%orb_false_iff Hbs%N.ltb_ge].
    exists b, c. split_and!; try done. apply pushed_eq.
  - intros (b & c & Hs & Hi & Hb & Ho & Hc & -> & Hr & Hn & Hbs).
    cbn [ch_records ch_next_index ch_bytes pushed] in *.
    rewrite decide_False by tauto. rewrite Hb. cbn [result_bind].
    rewrite (proj2 (order_ok_spec h p b Hb) Ho), Hc. cbn [result_bind].
    assert (∀ a d m, (a + d ≤ m)%N → (m ≤ u64_max)%N → checked_add u64_max a d = Some (a + d)%N)
      as Hadd by (intros; apply checked_add_Some; split; [done|lia]).
    rewrite (Hadd _ _ _ Hr), (Hadd _ _ _ Hbs), (Hadd _ _ _ Hn) by done.
    cbn [ok_or result_bind]. rewrite !(proj2 (N.ltb_ge _ _)) by done. cbn [orb].
    f_equal. apply pushed_eq.
Qed.

(** ** Runs *)

Definition page_for (session : string) (hash : list byte) (p : BootstrapPage) : Prop :=
  bp_session_id p = session ∧ bp_manifest_digest p = hash ∧
  ∃ b, encode_bootstrap_page p = Ok b.

Definition manifest_summary (m : BootstrapManifest) : BootstrapContentSummary :=
  mkSummary (bm_page_count m) (bm_record_count m) (bm_content_bytes m) (bm_root m).

Definition counts_bounded (m : BootstrapManifest) : Prop :=
  (bm_page_count m ≤ MAX_BOOTSTRAP_PAGES)%N ∧ (bm_record_count m ≤ MAX_BOOTSTRAP_RECORDS)%N ∧
  (bm_content_bytes m ≤ MAX_BOOTSTRAP_CONTENT_BYTES)%N.

Lemma verifier_finish_spec v s :
  verifier_finish v = Ok s ↔
  s = hasher_summary (bv_content v) ∧ s = manifest_summary (bv_manifest v).
Proof.
  unfold verifier_finish, manifest_summary. rewrite guard_Ok.
  destruct (hasher_summary (bv_content v)) as [n r b root]. simpl. split.
  - intros [Hg [= <-]]. repeat apply refusal_or in Hg as [?%dec_stable Hg].
    apply dec_stable in Hg. split; congruence.
  - intros [-> [= -> -> -> ->]]. split; [tauto|done].
Qed.

Lemma verifier_push_spec v p v' :
  verifier_push v p = Ok v' ↔
  ∃ h', bp_manifest_digest p = bv_manifest_digest v ∧ hasher_push (bv_content v) p = Ok h' ∧
    v' = mkVerifier (bv_manifest v) (bv_manifest_digest v) h' ∧
    (ch_next_index h' ≤ bm_page_count (bv_manifest v))%N ∧
    (ch_records h' ≤ bm_record_count (bv_manifest v))%N ∧
    (ch_bytes h' ≤ bm_content_bytes (bv_manifest v))%N.
Proof.
  unfold verifier_push. split.
  - intros [?%dec_stable H]%guard_Ok. apply result_bind_Ok in H as (h' & Hh & H).
    apply guard_bool_Ok in H as [Hl [= <-]].
    apply orb_false_iff in Hl as [[?%N.ltb_ge ?%N.ltb_ge]%orb_false_iff ?%N.ltb_ge].
    by exists h'.
  - intros (h' & Hd & Hh & -> & H1 & H2 & H3). rewrite decide_False by tauto.
    rewrite Hh. cbn [result_bind hasher_summary sum_page_count sum_record_count sum_content_bytes].
    by rewrite !(proj2 (N.ltb_ge _ _)) by done.
Qed.

Lemma ascending_pages prev l rest :
  l ≠ [] →
  ascending (option_list prev ++ l ++ rest) ↔
  ascending (option_list prev ++ l) ∧ ascending (option_list (last l) ++ rest).
Proof.
  intros Hne. destruct (last l) as [x|] eqn:Hx; [|by apply last_None in Hx].
  apply last_Some in Hx as [l' ->]. simpl.
  rewrite <-(app_assoc l'), !(app_assoc (option_list prev)). apply ascending_app.
Qed.

Lemma summary_step h p c pages cs :
  bp_index p = ch_next_index h →
  mkSummary (ch_next_index h + 1 + vec_len pages)
    (ch_records h + vec_len (bp_records p) + total_records pages)
    (ch_bytes h + vec_len c + total_bytes cs)
    (sha256 ((ch_root h ++ root_entry (bp_index p) c) ++ root_entries (ch_next_index h + 1) cs))
  = mkSummary (ch_next_index h + vec_len (p :: pages)) (ch_records h + total_records (p :: pages))
      (ch_bytes h + total_bytes (c :: cs))
      (sha256 (ch_root h ++ root_entries (ch_next_index h) (c :: cs))).
Proof.
  intros ->. unfold total_records, total_bytes, vec_len. csimpl. rewrite !length_app. simpl.
  rewrite <-app_assoc. f_equal; lia.
Qed.

(** What is left to verify from the state of [v]: the pages and the contents they
    hash to account exactly for the rest of the manifest. *)
Definition run_accepts (v : BootstrapVerifier) (pages : list BootstrapPage)
    (contents : list (list byte)) (s : BootstrapContentSummary) : Prop :=
  let h := bv_content v in
  Forall2 (λ p c, encode_content (bp_index p) (bp_records p) = Ok c) pages contents ∧
  Forall (page_for (ch_session_id h) (bv_manifest_digest v)) pages ∧
  bp_index <$> pages = indexes (ch_next_index h) (length pages) ∧
  ascending (option_list (ch_last_id h) ++ (pages ≫= page_ids)) ∧
  s = mkSummary (ch_next_index h + vec_len pages) (ch_records h + total_records pages)
        (ch_bytes h + total_bytes contents)
        (sha256 (ch_root h ++ root_entries (ch_next_index h) contents)) ∧
  s = manifest_summary (bv_manifest v).

Lemma run_nil v s :
  verifier_finish v = Ok s ↔ ∃ contents, run_accepts v [] contents s.
Proof.
  rewrite verifier_finish_spec. destruct v as [m hash [ses n r b l root]].
  unfold run_accepts, hasher_summary, total_bytes, total_records. simpl. split.
  - intros [-> ?]. exists []. simpl. rewrite !N.add_0_r, !app_nil_r. split_and!; try done.
    by destruct l; repeat constructor.
  - intros (cs & ->%Forall2_nil_inv_l & _ & _ & _ & Hs & ?). simpl in Hs.
    by rewrite !N.add_0_r, app_nil_r in Hs.
Qed.

Lemma run_push v p v' pages cs s :
  verifier_push v p = Ok v' → run_accepts v' pages cs s →
  ∃ c, run_accepts v (p :: pages) (c :: cs) s.
Proof.
  destruct v as [m hash h]. intros (h' & Hd & Hh & -> & _)%verifier_push_spec H.
  cbn [bv_content bv_manifest bv_manifest_digest] in *.
  apply hasher_push_spec in Hh as (b & c & Hses & Hi & Hb & Ho & Hc & -> & _).
  destruct H as (Hcs & Hps & Hidx & Hasc & Hs & Hm).
  cbn [bv_content bv_manifest bv_manifest_digest ch_session_id ch_next_index ch_records
    ch_bytes ch_last_id ch_root pushed] in *.
  pose proof (encoded_page p b Hb) as (Hne & _ & _).
  exists c. unfold run_accepts. split_and!.
  - by constructor.
  - constructor; [|done]. split_and!; [done..|by exists b].
  - csimpl. by rewrite Hidx, Hi.
  - csimpl. apply ascending_pages; [|done]. unfold page_ids. by destruct (bp_records p).
  - rewrite Hs. by apply summary_step.
  - done.
Qed.

Lemma run_pop v p pages cs s :
  counts_bounded (bv_manifest v) → run_accepts v (p :: pages) cs s →
  ∃ v' cs', verifier_push v p = Ok v' ∧ bv_manifest v' = bv_manifest v ∧
    run_accepts v' pages cs' s.
Proof.
  destruct v as [m hash h]. intros (Hb1 & Hb2 & Hb3) (Hcs & Hps & Hidx & Hasc & Hs & Hm).
  cbn [bv_content bv_manifest bv_manifest_digest] in *.
  apply Forall2_cons_inv_l in Hcs as (c & cs' & Hc & Hcs & ->).
  apply Forall_cons in Hps as [(Hses & Hd & b & Hb) Hps]. csimpl in *.
  injection Hidx as Hi Hidx. pose proof (encoded_page p b Hb) as (Hne & _ & _).
  apply ascending_pages in Hasc as [Ho Hasc]; [|unfold page_ids; by destruct (bp_records p)].
  rewrite <-summary_step in Hs by done.
  pose proof Hm as Hm'. rewrite Hs in Hm'. injection Hm' as H1 H2 H3 _.
  exists (mkVerifier m hash (pushed h p c)), cs'. split_and!; [|done|].
  - apply verifier_push_spec. exists (pushed h p c).
    cbn [bv_content bv_manifest bv_manifest_digest]. split; [done|]. split.
    { apply hasher_push_spec. exists b, c.
      cbn [ch_records ch_next_index ch_bytes pushed]. split_and!; done || lia. }
    cbn [ch_records ch_next_index ch_bytes pushed]. split_and!; done || lia.
  - by unfold run_accepts.
Qed.

Lemma verifier_run pages : ∀ v s, counts_bounded (bv_manifest v) →
  (let? v' := try_fold verifier_push v pages in verifier_finish v') = Ok s ↔
  ∃ contents, run_accepts v pages contents s.
Proof.
  induction pages as [|p pages IH]; intros v s Hb; [apply run_nil|].
  cbn [try_fold]. split.
  - destruct (verifier_push v p) as [v'|e] eqn:Hv; [|done]. cbn [result_bind].
    intros H. pose proof Hv as (h' & _ & _ & -> & _)%verifier_push_spec.
    apply IH in H as [cs Hcs]; [|done].
    destruct (run_push _ _ _ _ _ _ Hv Hcs) as [c Hc]. by exists (c :: cs).
  - intros [cs Hcs]. destruct (run_pop _ _ _ _ _ Hb Hcs) as (v' & cs' & -> & Hm & Hr).
    cbn [result_bind]. apply IH; [by rewrite Hm|]. by exists cs'.
Qed.

(** ** Whole verifications *)

Lemma manifest_digest_Ok m hash :
  bootstrap_manifest_digest m = Ok hash →
  counts_bounded m ∧ bad_text MAX_IDENTITY_BYTES (bm_session_id m) = false.
Proof.
  unfold bootstrap_manifest_digest, encode_bootstrap_manifest. intros H.
  apply result_bind_Ok in H as (bytes & H & _). apply result_bind_Ok in H as ([] & Hv & H).
  split.
  - unfold valid_manifest in Hv. apply guard_bool_Ok in Hv as [Hv _].
    apply orb_false_iff in Hv as [Hv Hc%N.ltb_ge]. apply orb_false_iff in Hv as [Hv Hr%N.ltb_ge].
    apply orb_false_iff in Hv as [Hl%negb_false_iff Hp%N.ltb_ge]. unfold valid_limits in Hl.
    rewrite !andb_true_iff, !N.leb_le in Hl. destruct Hl as (((((_ & ?) & _) & ?) & _) & ?).
    unfold counts_bounded. lia.
  - unfold encode_bootstrap_message, encode_family_message in H.
    apply result_bind_Ok in H as (b & H & _). apply result_bind_Ok in H as (st & _ & H).
    apply result_bind_Ok in H as ([c st'] & H & _). unfold enc_manifest in H.
    apply enc_bind_Ok in H as (? & st1 & _ & H). apply enc_bind_Ok in H as (? & st2 & _ & H).
    apply enc_bind_Ok in H as (? & st3 & H & _). unfold enc_identity_text in H.
    by destruct (bad_text _ _).
Qed.

Definition fresh_verifier (m : BootstrapManifest) (hash : list byte) : BootstrapVerifier :=
  mkVerifier m hash (mkHasher (bm_session_id m) 0 0 0 None (frame [] ROOT_DOMAIN)).

Lemma verify_run m pages s :
  verify m pages = Ok s ↔
  ∃ hash contents, bootstrap_manifest_digest m = Ok hash ∧
    run_accepts (fresh_verifier m hash) pages contents s.
Proof.
  unfold verify, verifier_new. split.
  - intros H. apply result_bind_Ok in H as (v & Hv & H).
    apply result_bind_Ok in Hv as (hash & Hh & Hv). unfold hasher_new in Hv.
    apply result_bind_Ok in Hv as (h & [_ [= <-]]%guard_bool_Ok & [= <-]).
    apply verifier_run in H as [cs Hcs]; [|by apply manifest_digest_Ok in Hh as [? _]].
    by exists hash, cs.
  - intros (hash & cs & Hh & Hcs). destruct (manifest_digest_Ok _ _ Hh) as [Hb Ht].
    rewrite Hh. cbn [result_bind]. unfold hasher_new. rewrite Ht. cbn [result_bind].
    apply verifier_run; [done|]. by exists cs.
Qed.

(** C35: the streaming verifier accepts a sequence of pages exactly when the manifest
    is valid, every page is a valid page of the manifest's session that names its
    digest, the pages are numbered 0, 1, 2, ... without gap or repetition, the record
    ids increase strictly across the whole snapshot, and the numbers of pages, records
    and content bytes and the digest over all page contents are the manifest's; the
    summary it returns is the manifest's. *)
Theorem bootstrap_verifier_exact m pages s :
  verify m pages = Ok s ↔
  ∃ hash contents,
    bootstrap_manifest_digest m = Ok hash ∧
    Forall2 (λ p c, encode_content (bp_index p) (bp_records p) = Ok c) pages contents ∧
    Forall (page_for (bm_session_id m) hash) pages ∧
    bp_index <$> pages = indexes 0 (length pages) ∧
    StronglySorted str_lt (pages ≫= page_ids) ∧
    s = mkSummary (vec_len pages) (total_records pages) (total_bytes contents)
          (ordered_root contents) ∧
    s = manifest_summary m.
Proof.
  rewrite verify_run. split; intros (hash & cs & Hh & Hrun); exists hash, cs.
  - destruct Hrun as (H1 & H2 & H3 & H4 & H5 & H6). split_and!; try done.
    apply Sorted_StronglySorted; [apply _|exact H4].
  - destruct Hrun as (H1 & H2 & H3 & H4 & H5 & H6). split; [done|]. split_and!; try done.
    apply StronglySorted_Sorted, H4.
Qed.
End verifier.

(** ** The root binds the contents *)

(** SHA-256 yields 32 bytes. *)
Class Sha256Laws `{!Sha256} : Prop := { sha256_length bytes : length (sha256 bytes) = 32 }.

Section binding.
Context {ciborium : Ciborium} {ciborium_laws : CiboriumLaws}.
Context {sha : Sha256} {sha_laws : Sha256Laws}.

(** Two different inputs with the same digest. *)
Definition collides (a b : list byte) : Prop := a ≠ b ∧ sha256 a = sha256 b.

Lemma sha256_inj_or a b : sha256 a = sha256 b → a = b ∨ collides a b.
Proof. destruct (decide (a = b)); [by left|by right]. Qed.

Lemma frame_inj h a b : frame h a = frame h b → a = b.
Proof.
  unfold frame. intros H%(inj (h ++.)). by apply app_inj_1 in H as [_ ?];
    [|by rewrite !length_be_bytes].
Qed.

(** What is hashed for the content of a page and for the root. *)
Definition page_preimage (content : list byte) : list byte :=
  frame (frame [] PAGE_DOMAIN) content.
Definition root_preimage (contents : list (list byte)) : list byte :=
  frame [] ROOT_DOMAIN ++ root_entries 0 contents.
Definition page_collision (contents contents' : list (list byte)) : Prop :=
  ∃ i c c', contents !! i = Some c ∧ contents' !! i = Some c' ∧
    collides (page_preimage c) (page_preimage c').

Lemma length_root_entry i c : length (root_entry i c) = 56.
Proof using sha_laws.
  unfold root_entry, frame, digest. rewrite !length_app, !length_be_bytes, sha256_length.
  done.
Qed.

Lemma root_entries_inj i cs cs' :
  root_entries i cs = root_entries i cs' → cs = cs' ∨ page_collision cs cs'.
Proof using sha_laws.
  revert i cs'. induction cs as [|c cs IH]; intros i [|c' cs'] H; [by left|exfalso|exfalso|].
  - apply (f_equal length) in H. cbn [root_entries] in H.
    rewrite length_app, length_root_entry in H. done.
  - apply (f_equal length) in H. cbn [root_entries] in H.
    rewrite length_app, length_root_entry in H. done.
  - cbn [root_entries] in H. apply app_inj_1 in H as [Hc Hcs]; [|by rewrite !length_root_entry].
    apply frame_inj, sha256_inj_or in Hc as [->%frame_inj|?].
    + apply IH in Hcs as [->|(k & x & x' & ? & ? & ?)]; [by left|right].
      by exists (S k), x, x'.
    + right. by exists 0, c, c'.
Qed.

(** Reading page content back. *)
Definition dec_content (v : CborValue)
  : result (list (SnapshotRecord CanonicalValue)) CodecError :=
  match v with
  | CArray [_; records] => vec_decode records dec_snapshot_record
  | _ => Err InvalidEnvelope
  end.

Lemma content_decodes index records content :
  is_u64 index → Forall (λ r, state_wf (snap_state r)) records →
  encode_content index records = Ok content →
  (let? v := read_cbor_value content in dec_content v) = Ok records.
Proof using ciborium_laws.
  intros Hi Hr H. unfold encode_content in H.
  apply result_bind_Ok in H as ([u e1] & H1 & H). apply result_bind_Ok in H as ([u' e2] & H2 & H).
  apply result_bind_Ok in H as ([rows e3] & H3 & H).
  set (E := let! _ := enc_item 3 in
            let! _ := enc_vec (vec_len records) in
            let! rows := enc_map enc_snapshot_record records in
            enc_ret (CArray [integer index; CArray rows])).
  assert (encodes E dec_content records 70) as HE.
  { unfold E. skip_charges. apply encodes_vec. intros Hlen _.
    eapply (encodes_map _ dec_snapshot_record _ 68); [|done|intros cs HC PC DC].
    { eapply Forall_impl; [exact Hr|]. intros r. apply snapshot_record_encodes. }
    unfold dec_content. emit. }
  destruct (HE encoder_new (CArray [integer index; CArray rows]) e3) as (_ & HD & Hp & Hdep).
  { split; done. }
  { unfold E, enc_bind. rewrite H1, H2, H3. done. }
  rewrite (read_encoded _ content Hp); [done|lia|done].
Qed.

Lemma contents_bind_records pages pages' contents :
  Forall2 (λ p c, encode_content (bp_index p) (bp_records p) = Ok c) pages contents →
  Forall2 (λ p c, encode_content (bp_index p) (bp_records p) = Ok c) pages' contents →
  Forall page_wf pages → Forall page_wf pages' →
  bp_records <$> pages = bp_records <$> pages'.
Proof using ciborium_laws.
  intros H H' Hwf Hwf'. revert pages' H' Hwf'.
  induction H as [|p c pages cs Hc _ IH]; intros pages' H' Hwf'.
  { by apply Forall2_nil_inv_r in H' as ->. }
  apply Forall2_cons_inv_r in H' as (p' & ps' & Hc' & H' & ->).
  apply Forall_cons in Hwf as [(_ & Hi & Hr) Hwf].
  apply Forall_cons in Hwf' as [(_ & Hi' & Hr') Hwf']. csimpl. f_equal; [|by apply IH].
  pose proof (content_decodes _ _ _ Hi Hr Hc) as H1.
  rewrite (content_decodes _ _ _ Hi' Hr' Hc') in H1. congruence.
Qed.

(** The root of a manifest fixes the snapshot: two page sequences that the
    verifier accepts for manifests with the same root consist of the same pages of
    records, in the same order, unless the root inputs of the two sequences, or the
    contents of two pages at the same index, are a SHA-256 collision. *)
Theorem bootstrap_root_binds_content m m' pages pages' s s' :
  Forall page_wf pages → Forall page_wf pages' → bm_root m = bm_root m' →
  verify m pages = Ok s → verify m' pages' = Ok s' →
  ∃ contents contents',
    Forall2 (λ p c, encode_content (bp_index p) (bp_records p) = Ok c) pages contents ∧
    Forall2 (λ p c, encode_content (bp_index p) (bp_records p) = Ok c) pages' contents' ∧
    (bp_records <$> pages = bp_records <$> pages' ∨
     collides (root_preimage contents) (root_preimage contents') ∨
     page_collision contents contents').
Proof using ciborium_laws sha_laws.
  intros Hwf Hwf' Hroot (hash & cs & _ & H1 & _ & _ & _ & Hs & Hm)%verify_run
    (hash' & cs' & _ & H1' & _ & _ & _ & Hs' & Hm')%verify_run.
  exists cs, cs'. split; [done|]. split; [done|].
  rewrite Hm in Hs. rewrite Hm' in Hs'. injection Hs as _ _ _ Hr. injection Hs' as _ _ _ Hr'.
  rewrite Hr, Hr' in Hroot. cbn [fresh_verifier bv_content ch_root ch_next_index] in Hroot.
  apply (sha256_inj_or (root_preimage cs) (root_preimage cs')) in Hroot
    as [Hroot|?]; [|by right; left].
  apply (inj (frame [] ROOT_DOMAIN ++.)), root_entries_inj in Hroot as [<-|?];
    [left|by right; right].
  by eapply contents_bind_records.
Qed.
End binding.
