(* ===== verification/SubscriptionCodec.v ===== *)
(** * The subscription message codec.

    Models [crates/surrealdb-sync-protocol/src/subscription_codec.rs] and the
    [TrustedQueryDefinition] of [subscription.rs].  The translation between the message
    structs and CBOR values is derived by [serde], which is not part of the repository:
    it is the parameter [Serde]. *)

From Stdlib Require Import Strings.Byte.
From S2P Require Import Prelude Bytes Protocol Subscription Canonical.

Definition SUBSCRIPTION_PROTOCOL : string := "surrealdb-subscription/1".

(** [Value::serialized] and [Value::deserialized] of a derived type. *)
Class Serde (T : Type) := {
  serialized : T → option CborValue;
  deserialized : CborValue → option T;
}.

Record EqualityPredicate := mkPredicate {
  eq_field : string;
  eq_parameter : string;
  eq_kind : ScalarKind;
}.

Record TrustedQueryDefinition := mkDefinition {
  qd_definition_id : string;
  qd_predicates : list EqualityPredicate;
  qd_order_field : string;
  qd_order_kind : ScalarKind;
  qd_direction : SortDirection;
  qd_max_limit : N;
}.

(** ** The order of map keys: shorter encodings first, then bytewise. *)

Fixpoint bytes_le (a b : list byte) : bool :=
  match a, b with
  | [], _ => true
  | _ :: _, [] => false
  | x :: a, y :: b =>
      match (Byte.to_N x ?= Byte.to_N y)%N with
      | Lt => true
      | Eq => bytes_le a b
      | Gt => false
      end
  end.

Definition encoded_key_le {A} (x y : list byte * A) : Prop :=
  (vec_len x.1 < vec_len y.1)%N ∨ (vec_len x.1 = vec_len y.1 ∧ bytes_le x.1 y.1 = true).
#[export] Instance encoded_key_le_dec {A} : RelDecision (@encoded_key_le A).
Proof. intros x y. unfold encoded_key_le. apply _. Defined.

(** [map_response] *)
Definition map_change {A B} (map : A → result B CodecError) (change : MembershipChange A)
  : result (MembershipChange B) CodecError :=
  match change with
  | MUpsert row =>
      let? value := map (row_value row) in
      Ok (MUpsert (mkRow (row_record_id row) value (row_version row) (row_sort_key row)))
  | MLeave record_id => Ok (MLeave record_id)
  | MDelete record_id version => Ok (MDelete record_id version)
  end.

Definition map_response {A B} (response : SubscriptionResponse A)
    (map : A → result B CodecError) : result (SubscriptionResponse B) CodecError :=
  let? changes := try_map (map_change map) (sr_changes response) in
  Ok (mkSubResponse (sr_partition_id response) (sr_client_id response)
        (sr_subscription_id response) (sr_generation response) (sr_plan_fingerprint response)
        (sr_scope response) (sr_frontier response) (sr_view_revision response)
        (sr_coverage response) (sr_response response) (sr_token response)
        (sr_ordered_ids response) changes).

Section codec.
Context {ciborium : Ciborium}.

Fixpoint sorted (value : CborValue) : result CborValue CodecError :=
  match value with
  | CArray values => let? values := try_map sorted values in Ok (CArray values)
  | CMap entries =>
      let? entries := try_map (λ kv,
        let? bytes := encode_cbor_value kv.1 in
        let? v := sorted kv.2 in
        Ok (bytes, (kv.1, v))) entries in
      Ok (CMap (merge_sort encoded_key_le entries).*2)
  | value => Ok value
  end.

(** [encode] *)
Definition sub_encode {T} `{!Serde T} (kind : string) (value : T)
  : result (list byte) CodecError :=
  let? value := ok_or (serialized value) Encode in
  let? envelope := sorted (CArray [CText SUBSCRIPTION_PROTOCOL; CText kind; value]) in
  let? bytes := encode_cbor_value envelope in
  if (MAX_SUBSCRIPTION_BYTES <? vec_len bytes)%N then Err EncodedLimit else
  let? _ := preflight_canonical_cbor bytes in
  Ok bytes.

(** [decode] *)
Definition sub_decode {T} `{!Serde T} (kind : string) (bytes : list byte)
  : result T CodecError :=
  if (MAX_SUBSCRIPTION_BYTES <? vec_len bytes)%N then Err EncodedLimit else
  let? _ := preflight_canonical_cbor bytes in
  let? value := read_cbor_value bytes in
  match value with
  | CArray [CText protocol; CText k; value] =>
      if decide (protocol ≠ SUBSCRIPTION_PROTOCOL ∨ k ≠ kind) then Err InvalidEnvelope else
      ok_or (deserialized value) InvalidEnvelope
  | _ => Err InvalidEnvelope
  end.

Context `{!Serde SubscriptionRequest, !Serde (SubscriptionResponse CborValue)}.

Definition encode_subscription_request (request : SubscriptionRequest)
  : result (list byte) CodecError :=
  if negb (validate_subscription_request request) then Err InvalidEnvelope else
  sub_encode "request" request.

Definition decode_subscription_request (bytes : list byte)
  : result SubscriptionRequest CodecError :=
  let? request := sub_decode "request" bytes in
  let? encoded := encode_subscription_request request in
  if decide (encoded ≠ bytes) then Err NonCanonical else Ok request.

Definition encode_subscription_response (response : SubscriptionResponse CanonicalValue)
  : result (list byte) CodecError :=
  if negb (validate_subscription_response response) then Err ContainerLimit else
  let? response := map_response response (λ value, Ok (to_cbor value)) in
  sub_encode "response" response.

Definition decode_subscription_response (bytes : list byte)
  : result (SubscriptionResponse CanonicalValue) CodecError :=
  let? response := sub_decode (T := SubscriptionResponse CborValue) "response" bytes in
  let? response := map_response response from_cbor in
  let? encoded := encode_subscription_response response in
  if decide (encoded ≠ bytes) then Err NonCanonical else Ok response.

(** The domain ends with a zero byte. *)
Definition PLAN_DOMAIN : list byte :=
  String.list_byte_of_string "surrealdb-subscription-plan/1" ++ [x00].

Definition subscription_plan_fingerprint `{!Sha256}
    `{!Serde (SubscriptionRequest * TrustedQueryDefinition)}
    (request : SubscriptionRequest) (definition : TrustedQueryDefinition)
  : result string CodecError :=
  let? bytes := sub_encode "plan" (request, definition) in
  Ok ("sha256:" +:+ hex_encode (sha256 (PLAN_DOMAIN ++ bytes))).

(** ** Properties *)

Lemma sub_decode_bounded {T} `{!Serde T} kind bytes (x : T) :
  sub_decode kind bytes = Ok x →
  (vec_len bytes ≤ MAX_SUBSCRIPTION_BYTES)%N ∧ preflight_canonical_cbor bytes = Ok tt.
Proof.
  unfold sub_decode. intros [?%N.ltb_ge H]%guard_bool_Ok.
  by apply result_bind_Ok in H as ([] & ? & _).
Qed.

(** A subscription request or response that the decoder accepts is valid, its bytes
    are exactly the ones the encoder produces for it, and they are within the size
    limit and structurally checked, whatever the CBOR and serde libraries do; so no two
    accepted byte strings stand for the same message. *)
Theorem subscription_decode_canonical bytes :
  (∀ r, decode_subscription_request bytes = Ok r →
     validate_subscription_request r = true ∧ encode_subscription_request r = Ok bytes ∧
     (vec_len bytes ≤ MAX_SUBSCRIPTION_BYTES)%N ∧ preflight_canonical_cbor bytes = Ok tt) ∧
  (∀ r, decode_subscription_response bytes = Ok r →
     validate_subscription_response r = true ∧ encode_subscription_response r = Ok bytes ∧
     (vec_len bytes ≤ MAX_SUBSCRIPTION_BYTES)%N ∧ preflight_canonical_cbor bytes = Ok tt) ∧
  (∀ bytes' r, decode_subscription_request bytes = Ok r →
     decode_subscription_request bytes' = Ok r → bytes' = bytes) ∧
  (∀ bytes' r, decode_subscription_response bytes = Ok r →
     decode_subscription_response bytes' = Ok r → bytes' = bytes).
Proof.
  assert (∀ bytes r, decode_subscription_request bytes = Ok r →
    encode_subscription_request r = Ok bytes ∧ ∃ x : SubscriptionRequest,
    sub_decode "request" bytes = Ok x) as Hreq.
  { intros b r H. apply result_bind_Ok in H as (x & Hx & H).
    apply result_bind_Ok in H as (e & He & [->%dec_stable [= ->]]%guard_Ok). eauto. }
  assert (∀ bytes r, decode_subscription_response bytes = Ok r →
    encode_subscription_response r = Ok bytes ∧ ∃ x : SubscriptionResponse CborValue,
    sub_decode "response" bytes = Ok x) as Hresp.
  { intros b r H. apply result_bind_Ok in H as (x & Hx & H).
    apply result_bind_Ok in H as (y & _ & H).
    apply result_bind_Ok in H as (e & He & [->%dec_stable [= ->]]%guard_Ok). eauto. }
  split_and!.
  - intros r (He & x & [? ?]%sub_decode_bounded)%Hreq. split; [|done].
    by apply guard_bool_Ok in He as [?%negb_false_iff _].
  - intros r (He & x & [? ?]%sub_decode_bounded)%Hresp. split; [|done].
    by apply guard_bool_Ok in He as [?%negb_false_iff _].
  - intros bytes' r [? _]%Hreq [? _]%Hreq. congruence.
  - intros bytes' r [? _]%Hresp [? _]%Hresp. congruence.
Qed.
End codec.
