(* ===== verification/CborReference.v ===== *)
(** * A reference CBOR codec and SHA-256.

    Concrete functions for the two library parameters of the codecs: a definite-length
    CBOR serializer and reader that satisfy [CiboriumLaws] (floats are always written
    with eight bytes; the serializer reports an error when a length does not fit in
    64 bits), and SHA-256 as FIPS 180-4 describes it.  They show that the hypotheses
    of the codec theorems can hold, and they let the models run on the test vectors
    of the sources. *)

From Stdlib Require Import Strings.Byte.
From S2P Require Import Prelude Bytes Protocol Canonical CanonicalProps.

(** ** Heads *)

(** The additional information and the bytes that follow the initial byte. *)
Definition head_bytes (n : N) : N * list byte :=
  if (n <? 24)%N then (n, []) else
  if (n <? 256)%N then (24%N, be_bytes 1 n) else
  if (n <? 65536)%N then (25%N, be_bytes 2 n) else
  if (n <? 4294967296)%N then (26%N, be_bytes 4 n) else (27%N, be_bytes 8 n).

Definition write_head (major n : N) : list byte :=
  let '(additional, tail) := head_bytes n in byte_of (major * 32 + additional) :: tail.

Definition head_width (additional : N) : option nat :=
  if (additional <? 24)%N then Some 0 else
  if (additional =? 24)%N then Some 1 else
  if (additional =? 25)%N then Some 2 else
  if (additional =? 26)%N then Some 4 else
  if (additional =? 27)%N then Some 8 else None.

(** Major type, additional information, argument and the rest of the input. *)
Definition read_head (l : list byte) : option (N * N * N * list byte) :=
  match l with
  | [] => None
  | b :: l =>
      let major := (Byte.to_N b / 32)%N in
      let additional := (Byte.to_N b mod 32)%N in
      match head_width additional with
      | None => None
      | Some O => Some (major, additional, additional, l)
      | Some w =>
          if length l <? w then None
          else Some (major, additional, be_read (take w l), drop w l)
      end
  end.

Lemma read_initial major additional l :
  (major < 8)%N → (additional < 32)%N →
  read_head (byte_of (major * 32 + additional) :: l) =
    match head_width additional with
    | None => None
    | Some O => Some (major, additional, additional, l)
    | Some w => if length l <? w then None
                else Some (major, additional, be_read (take w l), drop w l)
    end.
Proof.
  intros Hm Ha. unfold read_head. rewrite byte_of_to_N.
  rewrite (N.mod_small (major * 32 + additional) 256) by lia.
  replace ((major * 32 + additional) / 32)%N with major
    by (apply (N.div_unique _ _ _ additional); lia).
  by replace ((major * 32 + additional) mod 32)%N with additional
    by (apply (N.mod_unique _ _ major); lia).
Qed.

Lemma read_tail w n l : (n < 256 ^ N.of_nat w)%N →
  (length (be_bytes w n ++ l) <? w) = false ∧
  be_read (take w (be_bytes w n ++ l)) = n ∧ drop w (be_bytes w n ++ l) = l.
Proof.
  intros Hn. rewrite length_app, length_be_bytes. split; [apply Nat.ltb_ge; lia|].
  rewrite take_app_length', drop_app_length' by (by rewrite length_be_bytes). split; [|done].
  by apply be_read_bytes.
Qed.

Lemma read_wide major additional w n l :
  (major < 8)%N → (additional < 32)%N → head_width additional = Some (S w) →
  (n < 256 ^ N.of_nat (S w))%N →
  read_head (byte_of (major * 32 + additional) :: be_bytes (S w) n ++ l)
    = Some (major, additional, n, l).
Proof.
  intros Hm Ha Hw Hn. rewrite read_initial by done. rewrite Hw.
  destruct (read_tail (S w) n l Hn) as (-> & -> & ->). done.
Qed.

Lemma read_write_head major n l :
  (major < 8)%N → (n ≤ u64_max)%N →
  ∃ a, read_head (write_head major n ++ l) = Some (major, a, n, l).
Proof.
  intros Hm Hn. unfold write_head, head_bytes, u64_max in *.
  destruct (N.ltb_spec n 24).
  { exists n. cbn [app]. rewrite read_initial by lia. unfold head_width.
    by rewrite (proj2 (N.ltb_lt n 24)). }
  destruct (N.ltb_spec n 256); [|destruct (N.ltb_spec n 65536);
    [|destruct (N.ltb_spec n 4294967296)]]; eexists; apply read_wide; done || lia.
Qed.

(** ** Items *)

Fixpoint ref_encode (v : CborValue) : list byte :=
  match v with
  | CInteger z =>
      if (0 <=? z)%Z then write_head 0 (Z.to_N z) else write_head 1 (Z.to_N (-1 - z))
  | CBytes b => write_head 2 (vec_len b) ++ b
  | CText s => write_head 3 (str_len s) ++ String.list_byte_of_string s
  | CArray l => write_head 4 (vec_len l) ++ concat (map ref_encode l)
  | CMap l =>
      write_head 5 (vec_len l) ++ concat (map (λ kv, ref_encode kv.1 ++ ref_encode kv.2) l)
  | CTag tag x => write_head 6 tag ++ ref_encode x
  | CBool false => [xf4]
  | CBool true => [xf5]
  | CNull => [xf6]
  | CFloat bits => xfb :: be_bytes 8 bits
  end.

(** Every length fits in the argument of a head. *)
Fixpoint ref_sized (v : CborValue) : bool :=
  match v with
  | CBytes b => (vec_len b <=? u64_max)%N
  | CText s => (str_len s <=? u64_max)%N
  | CArray l => (vec_len l <=? u64_max)%N && forallb ref_sized l
  | CMap l =>
      (vec_len l <=? u64_max)%N && forallb (λ kv, ref_sized kv.1 && ref_sized kv.2) l
  | CTag _ x => ref_sized x
  | _ => true
  end.

Fixpoint read_n {A} (f : list byte → option (A * list byte)) (n : nat) (l : list byte)
  : option (list A * list byte) :=
  match n with
  | O => Some ([], l)
  | S n =>
      match f l with
      | None => None
      | Some (x, l) =>
          match read_n f n l with Some (xs, l) => Some (x :: xs, l) | None => None end
      end
  end.

Definition read_pair (f : list byte → option (CborValue * list byte)) (l : list byte)
  : option (CborValue * CborValue * list byte) :=
  match f l with
  | None => None
  | Some (k, l) => match f l with Some (v, l) => Some ((k, v), l) | None => None end
  end.

Fixpoint ref_decode (fuel : nat) (l : list byte) : option (CborValue * list byte) :=
  match fuel with
  | O => None
  | S fuel =>
      match read_head l with
      | None => None
      | Some (major, additional, n, l) =>
          let w := N.to_nat n in
          if (major =? 0)%N then Some (CInteger (Z.of_N n), l) else
          if (major =? 1)%N then Some (CInteger (-1 - Z.of_N n), l) else
          if (major =? 2)%N then
            if (vec_len l <? n)%N then None else Some (CBytes (take w l), drop w l) else
          if (major =? 3)%N then
            if (vec_len l <? n)%N then None
            else Some (CText (String.string_of_list_byte (take w l)), drop w l) else
          if (major =? 4)%N then prod_map CArray id <$> read_n (ref_decode fuel) w l else
          if (major =? 5)%N then
            prod_map CMap id <$> read_n (read_pair (ref_decode fuel)) w l else
          if (major =? 6)%N then prod_map (CTag n) id <$> ref_decode fuel l else
          if (additional =? 20)%N then Some (CBool false, l) else
          if (additional =? 21)%N then Some (CBool true, l) else
          if (additional =? 22)%N then Some (CNull, l) else
          if (additional =? 27)%N then Some (CFloat n, l) else None
      end
  end.

Lemma read_n_concat {A} (f : list byte → option (A * list byte)) (e : A → list byte) l rest :
  Forall (λ x, ∀ rest, f (e x ++ rest) = Some (x, rest)) l →
  read_n f (length l) (concat (map e l) ++ rest) = Some (l, rest).
Proof.
  induction 1 as [|x l Hx _ IH]; simpl; [done|]. by rewrite <-app_assoc, Hx, IH.
Qed.

Lemma depth_lt_Forall {A} (d : A → nat) (l : list A) m :
  S (foldr (λ x n, d x `max` n) 0 l) < S m → Forall (λ x, d x < m) l.
Proof.
  intros H. assert (0 < m) by lia. apply Forall_impl with (λ x, d x ≤ m - 1); [|lia].
  apply depth_le_Forall. lia.
Qed.

Lemma decode_integer fuel z rest :
  is_cbor_integer z →
  ref_decode (S fuel) (ref_encode (CInteger z) ++ rest) = Some (CInteger z, rest).
Proof.
  intros H. cbn [ref_encode].
  unfold is_cbor_integer in H. destruct (Z.leb_spec 0 z).
  + destruct (read_write_head 0 (Z.to_N z) rest) as [a Ha]; [lia|unfold u64_max; lia|].
    cbn [ref_decode]. rewrite Ha. simpl. by rewrite Z2N.id by lia.
  + destruct (read_write_head 1 (Z.to_N (-1 - z)) rest) as [a Ha];
      [lia|unfold u64_max; lia|].
    cbn [ref_decode]. rewrite Ha. simpl. do 3 f_equal. lia.
Qed.

Lemma decode_bytes fuel b rest :
  ref_sized (CBytes b) = true →
  ref_decode (S fuel) (ref_encode (CBytes b) ++ rest) = Some (CBytes b, rest).
Proof.
  intros H. cbn [ref_encode].
  apply N.leb_le in H. destruct (read_write_head 2 (vec_len b) (b ++ rest)) as [a Ha];
    [lia|done|].
  cbn [ref_decode]. rewrite <-app_assoc, Ha. simpl. unfold vec_len in *.
  rewrite (proj2 (N.ltb_ge _ _)) by (rewrite length_app; lia).
  by rewrite Nat2N.id, take_app_length, drop_app_length.
Qed.

Lemma decode_text fuel s rest :
  ref_sized (CText s) = true →
  ref_decode (S fuel) (ref_encode (CText s) ++ rest) = Some (CText s, rest).
Proof.
  intros H. cbn [ref_encode].
  apply N.leb_le in H.
  destruct (read_write_head 3 (str_len s) (String.list_byte_of_string s ++ rest)) as [a Ha];
    [lia|done|].
  cbn [ref_decode]. rewrite <-app_assoc, Ha. simpl. unfold vec_len, str_len in *.
  rewrite (proj2 (N.ltb_ge _ _)) by (rewrite length_app, length_list_byte_of_string; lia).
  rewrite Nat2N.id, <-length_list_byte_of_string, take_app_length, drop_app_length.
  by rewrite String.string_of_list_byte_of_string.
Qed.

Lemma ref_decode_encode fuel v rest :
  cbor_depth v < fuel → cbor_plain v → ref_sized v = true →
  ref_decode fuel (ref_encode v ++ rest) = Some (v, rest).
Proof.
  revert v rest. induction fuel as [|fuel IH]; intros v rest Hd Hp Hs; [lia|].
  destruct v as [z|b|bits|s|[]| |tag x|l|l];
    cbn [ref_sized cbor_depth cbor_plain] in *; cbn [ref_encode].
  - by apply decode_integer.
  - by apply decode_bytes.
  - destruct Hp as [_ Hb]. change (xfb :: be_bytes 8 bits)
      with (byte_of (7 * 32 + 27) :: be_bytes 8 bits). cbn [app ref_decode].
    rewrite (read_wide 7 27 7 bits rest); [done|lia|lia|done|].
    change (256 ^ N.of_nat 8)%N with (u64_max + 1)%N. lia.
  - by apply decode_text.
  - done.
  - done.
  - done.
  - destruct Hp as [(Ht & _) Hp].
    destruct (read_write_head 6 tag (ref_encode x ++ rest)) as [a Ha]; [lia|done|].
    cbn [ref_decode]. rewrite <-app_assoc, Ha. simpl. by rewrite IH by (done || lia).
  - apply andb_true_iff in Hs as [Hl%N.leb_le Hs%forallb_true_Forall].
    apply (foldr_and_Forall cbor_plain) in Hp.
    apply depth_lt_Forall in Hd.
    destruct (read_write_head 4 (vec_len l) (concat (map ref_encode l) ++ rest)) as [a Ha];
      [lia|done|].
    cbn [ref_decode]. rewrite <-app_assoc, Ha. simpl. unfold vec_len. rewrite Nat2N.id.
    rewrite (read_n_concat _ ref_encode); [done|].
    rewrite Forall_forall in *. intros x Hx r. apply IH; auto.
  - apply andb_true_iff in Hs as [Hl%N.leb_le Hs%forallb_true_Forall].
    apply (foldr_and_Forall (λ kv, cbor_plain kv.1 ∧ cbor_plain kv.2)) in Hp.
    apply (depth_lt_Forall (λ kv, cbor_depth kv.1 `max` cbor_depth kv.2)) in Hd.
    destruct (read_write_head 5 (vec_len l)
      (concat (map (λ kv, ref_encode kv.1 ++ ref_encode kv.2) l) ++ rest)) as [a Ha];
      [lia|done|].
    cbn [ref_decode]. rewrite <-app_assoc, Ha. simpl. unfold vec_len. rewrite Nat2N.id.
    rewrite (read_n_concat _ (λ kv, ref_encode kv.1 ++ ref_encode kv.2)); [done|].
    rewrite Forall_forall in *. intros [k x] Hx r. specialize (Hd _ Hx). specialize (Hs _ Hx). specialize (Hp _ Hx).
    apply andb_true_iff in Hs as [? ?]. destruct Hp. simpl in *.
    unfold read_pair. rewrite <-app_assoc, IH by (done || lia). by rewrite IH by (done || lia).
Qed.

(** The reader's recursion limit is 256 levels. *)
#[export] Instance reference_ciborium : Ciborium := {|
  into_writer v := ([ref_encode v], ref_sized v);
  from_reader l :=
    match ref_decode 257 l with
    | Some (v, rest) => Some (v, vec_len l - vec_len rest)%N
    | None => None
    end;
|}.

#[export] Instance reference_ciborium_laws : CiboriumLaws.
Proof.
  constructor. intros v Hp Hd Hs. cbn [into_writer from_reader reference_ciborium fst snd] in *.
  cbn [concat app]. rewrite !app_nil_r.
  pose proof (ref_decode_encode 257 v [] ltac:(lia) Hp Hs) as H. rewrite app_nil_r in H.
  rewrite H. do 2 f_equal. unfold vec_len. cbn [length]. lia.
Qed.

(** ** SHA-256 *)

Module sha.
Definition mask (n : N) : N := N.land n 4294967295.
Definition add32 (a b : N) : N := mask (a + b).
Definition rotr (k x : N) : N := N.lor (N.shiftr x k) (mask (N.shiftl x (32 - k))).
Definition ch (x y z : N) : N := N.lxor (N.land x y) (N.land (N.lxor x 4294967295) z).
Definition maj (x y z : N) : N :=
  N.lxor (N.land x y) (N.lxor (N.land x z) (N.land y z)).
Definition bsig0 (x : N) : N := N.lxor (rotr 2 x) (N.lxor (rotr 13 x) (rotr 22 x)).
Definition bsig1 (x : N) : N := N.lxor (rotr 6 x) (N.lxor (rotr 11 x) (rotr 25 x)).
Definition ssig0 (x : N) : N := N.lxor (rotr 7 x) (N.lxor (rotr 18 x) (N.shiftr x 3)).
Definition ssig1 (x : N) : N := N.lxor (rotr 17 x) (N.lxor (rotr 19 x) (N.shiftr x 10)).

(** The primes below 312: the first 64. *)
Definition primes : list N :=
  filter (λ n, forallb (λ d, negb (n mod d =? 0)%N)
    (N.of_nat <$> seq 2 (N.to_nat (N.sqrt n) - 1)) = true) (N.of_nat <$> seq 2 310).

(** The integer cube root, bit by bit from the top. *)
Fixpoint cube_root (bits : nat) (n root : N) : N :=
  match bits with
  | O => root
  | S bits =>
      let next := (root + 2 ^ N.of_nat bits)%N in
      cube_root bits n (if (next ^ 3 <=? n)%N then next else root)
  end.

(** The first 32 bits of the fractional parts of the cube roots of the primes, and of
    the square roots of the first eight. *)
Definition K : list N :=
  Eval vm_compute in (λ p, mask (cube_root 36 (p * 2 ^ 96) 0)) <$> primes.
Definition H0 : list N :=
  Eval vm_compute in (λ p, mask (N.sqrt (p * 2 ^ 64))) <$> take 8 primes.

Fixpoint chunks {A} (k : nat) (fuel : nat) (l : list A) : list (list A) :=
  match fuel, l with
  | S fuel, _ :: _ => take k l :: chunks k fuel (drop k l)
  | _, _ => []
  end.

(** The message schedule: 16 words and 48 derived ones, newest first. *)
Fixpoint extend (n : nat) (w : list N) : list N :=
  match n with
  | O => w
  | S n =>
      let at' i := default 0%N (w !! i) in
      extend n (add32 (add32 (ssig1 (at' 1)) (at' 6)) (add32 (ssig0 (at' 14)) (at' 15)) :: w)
  end.
Definition schedule (block : list byte) : list N :=
  reverse (extend 48 (reverse (be_read <$> chunks 4 16 block))).

Definition round (h : list N) (kw : N * N) : list N :=
  match h with
  | [a; b; c; d; e; f; g; i] =>
      let t1 := add32 (add32 i (bsig1 e)) (add32 (ch e f g) (add32 kw.1 kw.2)) in
      let t2 := add32 (bsig0 a) (maj a b c) in
      [add32 t1 t2; a; b; c; add32 d t1; e; f; g]
  | _ => h
  end.

Definition compress (h : list N) (block : list byte) : list N :=
  zip_with add32 h (foldl round h (zip K (schedule block))).

Definition pad (l : list byte) : list byte :=
  let n := vec_len l in
  l ++ [x80] ++ replicate (N.to_nat ((119 - n mod 64) mod 64)) x00 ++ be_bytes 8 (n * 8).

Definition hash (l : list byte) : list byte :=
  let p := pad l in
  concat (be_bytes 4 <$> foldl compress H0 (chunks 64 (length p) p)).
End sha.

#[export] Instance reference_sha256 : Sha256 := {| sha256 := sha.hash |}.

(** The examples of FIPS 180-4 for the empty message and for "abc". *)
Example sha256_empty : hex_encode (sha256 [])
  = "e3b0c44298fc1c149afbf4c8996fb92427ae41e4649b934ca495991b7852b855".
Proof. vm_compute. reflexivity. Qed.
Example sha256_abc : hex_encode (sha256 [x61; x62; x63])
  = "ba7816bf8f01cfea414140de5dae2223b00361a396177a9cb410ff61f20015ad".
Proof. vm_compute. reflexivity. Qed.
