(* ===== verification/Vectors.v ===== *)
(** * The test vectors of the protocol crate, and instances of the codec theorems.

    Runs the models with the reference CBOR codec and SHA-256 on the vectors of the
    unit tests of [canonical.rs], [http_codec.rs] and [tests/bootstrap_codec.rs], and applies the theorems about
    the codecs to concrete messages. *)

From Stdlib Require Import Strings.Byte.
From S2P Require Import Prelude Bytes Protocol Canonical CanonicalProps FingerprintProps.
From S2P Require Import Subscription HttpCodec HttpProps BootstrapCodec BootstrapProps VerifierProps.
From S2P Require Import SubscriptionCodec CborReference.

(** The result as hexadecimal text. *)
Definition hex_result (r : result (list byte) CodecError) : result string CodecError :=
  let? bytes := r in Ok (hex_encode bytes).

Definition ok_value {A E} (d : A) (r : result A E) : A :=
  match r with Ok a => a | Err _ => d end.

(** ** [canonical.rs] *)

Example canonical_none_vector : hex_result (canonical_cbor VNone) = Ok "c6f6".
Proof. vm_compute. reflexivity. Qed.

Example canonical_record_vector :
  hex_result (canonical_cbor (VRecordId "person" (VString "alice")))
  = Ok "c88266706572736f6e65616c696365".
Proof. vm_compute. reflexivity. Qed.

Example canonical_object_vector :
  hex_result (canonical_cbor (VObject [("aa", VInt 1); ("b", VInt 2)])) = Ok "a261620262616101".
Proof. vm_compute. reflexivity. Qed.

Example canonical_refusals :
  decode_canonical_cbor [xa2; x62; x61; x61; x01; x61; x62; x02] = Err NonCanonical ∧
  decode_canonical_cbor [xa2; x61; x61; x01; x61; x61; x02] = Err DuplicateObjectKey ∧
  decode_canonical_cbor [xf6; xf6] = Err TrailingBytes ∧
  decode_canonical_cbor (replicate (MAX_DEPTH + 2) x81 ++ [xf6]) = Err DepthLimit ∧
  decode_canonical_cbor [x9a; x00; x00; x04; x01] = Err ContainerLimit ∧
  decode_canonical_cbor [x7a; x00; x10; x00; x01] = Err StringLimit ∧
  decode_canonical_cbor [x18; x00] = Err NonCanonical ∧
  decode_canonical_cbor [xc8; x82; x66; x70; x65; x72; x73; x6f; x6e] = Err Decode.
Proof. vm_compute. split_and!; reflexivity. Qed.

Definition sample_operations : list (Operation CanonicalValue) :=
  [Upsert "edge:one" BaseAbsent
     (VObject [("in", VRecordId "person" (VString "alice"));
               ("out", VRecordId "person" (VString "bob"));
               ("tags", VArray [VString "friend"])])
     (Some "person:alice");
   Delete "note:old" 7].

Definition sample_fingerprint : string :=
  "sha256:0167e7a657c1697643410c575a0ad1ffa6015f94e4ba70ed17f08320339bd769".

Example fingerprint_vector :
  fingerprint_commit "primary" "client-a" "commit-7" sample_operations = Ok sample_fingerprint.
Proof. vm_compute. reflexivity. Qed.

(** ** [http_codec.rs] *)

Definition vector_identity : CommitIdentity :=
  mkIdentity "i" "sha256:0123456789abcdef0123456789abcdef0123456789abcdef0123456789abcdef".
Definition vector_push_request : PushRequest CanonicalValue :=
  mkPushRequest V1 "p" "c" (mkCommit vector_identity []).
Definition vector_push_response : PushResponse CanonicalValue :=
  mkPushResponse V1 "p" "c" (Rejected vector_identity Unauthorized).
Definition vector_pull_request : PullRequest := mkPullRequest V1 "p" "c" None "s" 0.

Example http_vectors :
  hex_result (encode_push_request vector_push_request) = Ok
    "84707375727265616c64622d73796e632f310000836170616383616978477368613235363a3031323334353637383961626364656630313233343536373839616263646566303132333435363738396162636465663031323334353637383961626364656680"
  ∧ hex_result (encode_push_response vector_push_response) = Ok
    "84707375727265616c64622d73796e632f3100018361706163830282616978477368613235363a3031323334353637383961626364656630313233343536373839616263646566303132333435363738396162636465663031323334353637383961626364656602"
  ∧ hex_result (encode_pull_request vector_pull_request)
    = Ok "84707375727265616c64622d73796e632f3100028561706163f6617300"
  ∧ hex_result (encode_pull_response (Batch (mkBatch [])))
    = Ok "84707375727265616c64622d73796e632f310003820080".
Proof. vm_compute. split_and!; reflexivity. Qed.

(** ** [subscription_codec.rs] *)

(** The derived encoding of cancel requests: structs are maps from the camel-case field
    names, the command carries its kind. *)
Definition serialize_cancel (r : SubscriptionRequest) : option CborValue :=
  match sreq_command r with
  | CmdCancel id generation => Some (CMap
      [(CText "partitionId", CText (sreq_partition_id r));
       (CText "clientId", CText (sreq_client_id r));
       (CText "requestedScope", CText (sreq_requested_scope r));
       (CText "subscriptionRevision", integer (sreq_subscription_revision r));
       (CText "command", CMap [(CText "kind", CText "cancel");
          (CText "subscriptionId", CText id); (CText "generation", integer generation)])])
  | _ => None
  end.

Fixpoint field (name : string) (entries : list (CborValue * CborValue)) : option CborValue :=
  match entries with
  | (CText k, v) :: entries => if decide (k = name) then Some v else field name entries
  | _ => None
  end.
Definition text_field (name : string) (entries : list (CborValue * CborValue))
  : option string := match field name entries with Some (CText s) => Some s | _ => None end.
Definition int_field (name : string) (entries : list (CborValue * CborValue))
  : option N := match field name entries with Some (CInteger z) => Some (Z.to_N z) | _ => None end.

Definition deserialize_cancel (v : CborValue) : option SubscriptionRequest :=
  match v with
  | CMap entries =>
      match field "command" entries with
      | Some (CMap command) =>
          partition ← text_field "partitionId" entries;
          client ← text_field "clientId" entries;
          scope ← text_field "requestedScope" entries;
          revision ← int_field "subscriptionRevision" entries;
          id ← text_field "subscriptionId" command;
          generation ← int_field "generation" command;
          Some (mkSubRequest partition client scope revision (CmdCancel id generation))
      | _ => None
      end
  | _ => None
  end.

#[local] Instance cancel_serde : Serde SubscriptionRequest :=
  {| serialized := serialize_cancel; deserialized := deserialize_cancel |}.

(** A request survives the codec, and its map keys are written shortest first whatever
    the order in which they are serialized. *)
Example cancel_request_roundtrip :
  let request := mkSubRequest "h" "c" "s" 1 (CmdCancel "q" 2) in
  let bytes := ok_value [] (encode_subscription_request request) in
  decode_subscription_request bytes = Ok request ∧
  is_ok (encode_subscription_request request) = true.
Proof. vm_compute. split; reflexivity. Qed.

(** ** The theorems on concrete messages *)

Lemma decode_canonical_unique_witness :
  decode_canonical_cbor [xc6; xf6] = Ok VNone ∧ canonical_cbor VNone = Ok [xc6; xf6] ∧
  ∀ bytes', decode_canonical_cbor bytes' = Ok VNone → bytes' = [xc6; xf6].
Proof.
  assert (decode_canonical_cbor [xc6; xf6] = Ok VNone) as H by (vm_compute; reflexivity).
  destruct (decode_canonical_unique [xc6; xf6] VNone H) as (? & _ & _ & ?). auto.
Defined.

Definition fx_value_bytes : list byte := ok_value [] (canonical_cbor fx_value).

Lemma canonical_encode_decode_witness :
  canonical_cbor fx_value = Ok fx_value_bytes ∧ length fx_value_bytes = 34 ∧
  decode_canonical_cbor fx_value_bytes = Ok fx_value.
Proof.
  assert (value_wf fx_value) as Hwf.
  { split; [repeat constructor|]. simpl. repeat split; vm_compute; (reflexivity || discriminate). }
  assert (canonical_cbor fx_value = Ok fx_value_bytes) as H by (vm_compute; reflexivity).
  split; [exact H|]. split; [vm_compute; reflexivity|].
  exact (canonical_encode_decode fx_value fx_value_bytes Hwf H).
Defined.

Lemma sample_operations_wf : Forall operation_wf sample_operations.
Proof.
  repeat constructor; simpl; repeat split; try (repeat constructor; fail);
    vm_compute; (reflexivity || discriminate).
Qed.

Definition sample_envelope : CborValue :=
  fingerprint_envelope "primary" "client-a" "commit-7" (operation_cbor <$> sample_operations).

Lemma fingerprint_binds_commit_witness :
  fingerprint_commit "primary" "client-a" "commit-7" sample_operations = Ok sample_fingerprint ∧
  (("primary" = "primary" ∧ "client-a" = "client-a" ∧ "commit-7" = "commit-7" ∧
    sample_operations = sample_operations) ∨
   ∃ bytes bytes', encode_cbor_value sample_envelope = Ok bytes ∧
     encode_cbor_value sample_envelope = Ok bytes' ∧
     bytes ≠ bytes' ∧ sha256 bytes = sha256 bytes').
Proof.
  assert (fingerprint_commit "primary" "client-a" "commit-7" sample_operations
    = Ok sample_fingerprint) as H by (vm_compute; reflexivity).
  split; [exact H|].
  exact (fingerprint_binds_commit _ _ _ _ _ _ _ _ _ sample_operations_wf sample_operations_wf H H).
Defined.

Definition sample_push_request : PushRequest CanonicalValue :=
  mkPushRequest V1 "primary" "client-a" (mkCommit vector_identity sample_operations).
Definition sample_push_bytes : list byte := ok_value [] (encode_push_request sample_push_request).

Lemma push_messages_roundtrip_witness :
  encode_push_request sample_push_request = Ok sample_push_bytes ∧
  decode_push_request sample_push_bytes = Ok sample_push_request.
Proof.
  assert (encode_push_request sample_push_request = Ok sample_push_bytes) as H
    by (vm_compute; reflexivity).
  split; [exact H|]. destruct push_messages_roundtrip as [Hreq _].
  rewrite (Hreq sample_push_request _ sample_operations_wf H).
  assert (preflight_canonical_cbor sample_push_bytes = Ok tt) as -> by (vm_compute; reflexivity).
  reflexivity.
Defined.

Definition sample_checkpoint : Checkpoint :=
  mkCheckpoint "opaque-token" (mkCursor 3 9) (mkScope "scope-a" 4 5).
Definition sample_pull_response (source : option CommitIdentity) : PullResponse CanonicalValue :=
  Batch (mkBatch [FrameStart sample_checkpoint;
    FrameCommit "opaque-token"
      (mkPullCommit 10 source [mkApplied "person:1" (Tombstone 10)]);
    FrameEnd sample_checkpoint]).
Definition sample_pull_bytes : list byte :=
  ok_value [] (encode_pull_response (sample_pull_response (Some vector_identity))).

Lemma pull_messages_roundtrip_witness :
  encode_pull_response (sample_pull_response (Some vector_identity)) = Ok sample_pull_bytes ∧
  decode_pull_response sample_pull_bytes = Ok (sample_pull_response None).
Proof.
  assert (encode_pull_response (sample_pull_response (Some vector_identity))
    = Ok sample_pull_bytes) as H by (vm_compute; reflexivity).
  split; [exact H|]. destruct pull_messages_roundtrip as [_ Hresp].
  rewrite (Hresp (sample_pull_response (Some vector_identity)) sample_pull_bytes);
    [|repeat constructor; vm_compute; discriminate|exact H].
  assert (preflight_canonical_cbor sample_pull_bytes = Ok tt) as -> by (vm_compute; reflexivity).
  reflexivity.
Defined.

(** ** Where encoder and decoder differ *)

(** An array nested [n] levels deep. *)
Fixpoint nested (n : nat) : CanonicalValue :=
  match n with O => VNull | S n => VArray [nested n] end.

Definition nested_push (n : nat) : PushRequest CanonicalValue :=
  mkPushRequest V1 "p" "c"
    (mkCommit vector_identity [Upsert "record:1" BaseAbsent (nested n) None]).

(** The value's own encoder accepts 32 levels; the push encoder accepts them too, but
    the envelope around the value is five levels, and the decoder refuses the bytes. *)
Example push_encoder_ignores_envelope_depth :
  is_ok (canonical_cbor (nested 32)) = true ∧
  is_ok (encode_push_request (nested_push 27)) = true ∧
  is_ok (decode_push_request (ok_value [] (encode_push_request (nested_push 27)))) = true ∧
  is_ok (encode_push_request (nested_push 28)) = true ∧
  decode_push_request (ok_value [] (encode_push_request (nested_push 28))) = Err DepthLimit.
Proof. vm_compute. split_and!; reflexivity. Qed.

(** ** SHA-256 digests have 32 bytes *)

Lemma round_length h kw : length (sha.round h kw) = length h.
Proof. by destruct h as [|? [|? [|? [|? [|? [|? [|? [|? [|? ?]]]]]]]]]. Qed.

Lemma compress_length h block : length (sha.compress h block) = length h.
Proof.
  unfold sha.compress. rewrite length_zip_with.
  assert (∀ l h', length (foldl sha.round h' l) = length h') as ->; [|lia].
  intros l. induction l as [|x l IH]; intros h'; simpl; [done|]. by rewrite IH, round_length.
Qed.

#[export] Instance reference_sha256_laws : Sha256Laws.
Proof.
  constructor. intros bytes. simpl. unfold sha.hash.
  assert (∀ blocks h, length (foldl sha.compress h blocks) = length h) as Hlen.
  { intros l. induction l as [|x l IH]; intros h; simpl; [done|]. by rewrite IH, compress_length. }
  specialize (Hlen (sha.chunks 64 (length (sha.pad bytes)) (sha.pad bytes)) sha.H0).
  assert (∀ ws, length (concat (be_bytes 4 <$> ws)) = 4 * length ws) as ->; [|by rewrite Hlen].
  intros ws. induction ws as [|w ws IH]; [done|].
  change (concat (be_bytes 4 <$> w :: ws)) with (be_bytes 4 w ++ concat (be_bytes 4 <$> ws)).
  rewrite length_app, length_be_bytes, IH. cbn [length]. lia.
Qed.

(** ** The bootstrap fixture of [tests/bootstrap_codec.rs] *)

Definition bx_start : BootstrapStartRequest := mkStart "h" "c" "r" "s" 1 "g".
Definition bx_record (id : string) : SnapshotRecord CanonicalValue :=
  mkSnapshotRecord id (Present (VInt 7) 1 None).
Definition bx_page_for (hash : list byte) : BootstrapPage := mkPage "z" hash 0 [bx_record "a"].

Definition bx_content : BootstrapContentSummary :=
  hasher_summary (ok_value (mkHasher "" 0 0 0 None [])
    (let? h := hasher_new "z" in hasher_push h (bx_page_for (replicate 32 x00)))).

Definition bx_manifest : BootstrapManifest :=
  mkManifest "z" "r" (ok_value [] (bootstrap_start_fingerprint bx_start))
    (mkContext "A" "P" "h" "c" "g" (mkScope "s" 1 1)) (mkCursor 1 2) default_limits
    (sum_page_count bx_content) (sum_record_count bx_content) (sum_content_bytes bx_content)
    (sum_root bx_content) 99.
Definition bx_hash : list byte := ok_value [] (bootstrap_manifest_digest bx_manifest).
Definition bx_page : BootstrapPage := bx_page_for bx_hash.
Definition bx_page_request : BootstrapPageRequest := mkPageRequest "h" "c" "z" 0.
Definition bx_complete : BootstrapCompleteRequest := mkComplete "h" "c" "z" bx_hash.
Definition bx_receipt : BootstrapReceipt :=
  mkReceipt "z" bx_hash (mkCheckpoint "k" (mkCursor 1 2) (mkScope "s" 1 1)) 99.

Example bootstrap_digest_vectors :
  hex_result (bootstrap_start_fingerprint bx_start)
    = Ok "9930c35bbb387db1cad0eceb2969a01053869bb21f67671d9b1827cda664a7bc" ∧
  hex_result (bootstrap_page_content_digest bx_page)
    = Ok "77fa55a0a2a6b8bece022e09c4089dfc2947dbdd2f5fbaaab9b0f04973a8e85d" ∧
  hex_encode (bm_root bx_manifest)
    = "ba7101cc689f328eaa9b25984c70e78685c69d8097a42552096c2e38f2b8f0ad" ∧
  hex_encode bx_hash = "960e7d1d2496949fd0510056508552a7b71935311e97d0a0db9bbd6f2e116fe1".
Proof. vm_compute. split_and!; reflexivity. Qed.

Example bootstrap_message_vectors :
  hex_result (encode_bootstrap_start bx_start)
    = Ok "84781a7375727265616c64622d73796e632d626f6f7473747261702f310000866168616361726173016167" ∧
  hex_result (encode_bootstrap_manifest bx_manifest)
    = Ok "84781a7375727265616c64622d73796e632d626f6f7473747261702f3100018b617a617258209930c35bbb387db1cad0eceb2969a01053869bb21f67671d9b1827cda664a7bc86614161506168616361678361730101820102831940001940001a0400000001010b5820ba7101cc689f328eaa9b25984c70e78685c69d8097a42552096c2e38f2b8f0ad1863" ∧
  hex_result (encode_bootstrap_page_request bx_page_request)
    = Ok "84781a7375727265616c64622d73796e632d626f6f7473747261702f3100028461686163617a00" ∧
  hex_result (encode_bootstrap_page bx_page)
    = Ok "84781a7375727265616c64622d73796e632d626f6f7473747261702f31000384617a5820960e7d1d2496949fd0510056508552a7b71935311e97d0a0db9bbd6f2e116fe1008182616184010701f6" ∧
  hex_result (encode_bootstrap_complete bx_complete)
    = Ok "84781a7375727265616c64622d73796e632d626f6f7473747261702f3100048461686163617a5820960e7d1d2496949fd0510056508552a7b71935311e97d0a0db9bbd6f2e116fe1" ∧
  hex_result (encode_bootstrap_receipt bx_receipt)
    = Ok "84781a7375727265616c64622d73796e632d626f6f7473747261702f31000584617a5820960e7d1d2496949fd0510056508552a7b71935311e97d0a0db9bbd6f2e116fe183616b82010283617301011863".
Proof. vm_compute. split_and!; reflexivity. Qed.

Example bootstrap_checks :
  validate_bootstrap_manifest_context bx_manifest bx_start (bm_context bx_manifest) = Ok tt ∧
  validate_bootstrap_receipt bx_manifest bx_receipt = Ok tt ∧
  verify bx_manifest [bx_page] = Ok (manifest_summary bx_manifest) ∧
  verify bx_manifest [] = Err InvalidEnvelope ∧
  verify bx_manifest [bx_page; bx_page] = Err InvalidEnvelope.
Proof. vm_compute. split_and!; reflexivity. Qed.

(** ** The theorems on the fixture *)

Lemma bx_page_wf : page_wf bx_page.
Proof. split_and!; [vm_compute; reflexivity|vm_compute; discriminate|].
  constructor; [|constructor]. split; vm_compute; (reflexivity || discriminate).
Qed.

Definition bx_page_bytes : list byte := ok_value [] (encode_bootstrap_page bx_page).

Lemma bootstrap_codec_exact_witness :
  encode_bootstrap_page bx_page = Ok bx_page_bytes ∧
  decode_bootstrap_page bx_page_bytes = Ok bx_page.
Proof.
  assert (encode_bootstrap_page bx_page = Ok bx_page_bytes) as H by (vm_compute; reflexivity).
  split; [exact H|].
  destruct (bootstrap_codec_exact bx_page_bytes) as (_ & _ & _ & Hp & _).
  exact (proj2 (Hp bx_page bx_page_wf) H).
Defined.

Lemma bootstrap_root_binds_content_witness :
  verify bx_manifest [bx_page] = Ok (manifest_summary bx_manifest) ∧
  ∃ contents contents',
    Forall2 (λ p c, encode_content (bp_index p) (bp_records p) = Ok c) [bx_page] contents ∧
    Forall2 (λ p c, encode_content (bp_index p) (bp_records p) = Ok c) [bx_page] contents' ∧
    (bp_records <$> [bx_page] = bp_records <$> [bx_page] ∨
     collides (root_preimage contents) (root_preimage contents') ∨
     page_collision contents contents').
Proof.
  assert (verify bx_manifest [bx_page] = Ok (manifest_summary bx_manifest)) as H
    by (vm_compute; reflexivity).
  assert (Forall page_wf [bx_page]) as Hwf by (constructor; [exact bx_page_wf|constructor]).
  split; [exact H|].
  exact (bootstrap_root_binds_content _ _ _ _ _ _ Hwf Hwf eq_refl H H).
Defined.
