(* ===== verification/Json.v ===== *)
(** * JSON values, decimal numerals and the tagged JSON of the native journal.

    The parts of Rust's standard library and of [serde_json] the native adapter
    ([crates/surrealdb-rn-core]) computes with: [u64] and [i64] numerals
    ([to_string], [str::parse]), [serde_json::Value] and [Number]; and, from
    [sync_state.rs], [TaggedJson] with [tag_json] and [untag_json].  A [Map] is a
    [BTreeMap], given by its entries in key order. *)

From Stdlib Require Import Ascii DecimalString DecimalN.
From S2P Require Import Prelude.

(** ** Decimal numerals *)

(** [u64::to_string] *)
Definition u64_to_string (n : N) : string := NilZero.string_of_uint (N.to_uint n).

(** [str::parse] on an unsigned type accepts one leading [+] and leading zeros. *)
Definition strip_plus (s : string) : string :=
  match s with String "+"%char s => s | _ => s end.
Definition parse_unsigned (max : N) (s : string) : option N :=
  match NilZero.uint_of_string (strip_plus s) with
  | Some d => if (N.of_uint d <=? max)%N then Some (N.of_uint d) else None
  | None => None
  end.
Definition parse_u64 : string → option N := parse_unsigned u64_max.

Definition i64_min : Z := -9223372036854775808.
Definition i64_max : Z := 9223372036854775807.
Definition is_i64 (z : Z) : Prop := (i64_min ≤ z ≤ i64_max)%Z.
#[export] Instance is_i64_dec z : Decision (is_i64 z).
Proof. unfold is_i64. apply _. Defined.

(** [i64::to_string] *)
Definition i64_to_string (z : Z) : string :=
  match z with
  | Zneg p => String "-"%char (u64_to_string (Npos p))
  | _ => u64_to_string (Z.to_N z)
  end.

(** [str::parse::<i64>]: one leading sign. *)
Definition parse_i64 (s : string) : option Z :=
  match s with
  | String "-"%char s =>
      match NilZero.uint_of_string s with
      | Some d => if (N.of_uint d <=? 9223372036854775808)%N
                  then Some (- Z.of_N (N.of_uint d))%Z else None
      | None => None
      end
  | _ => Z.of_N <$> parse_unsigned 9223372036854775807 s
  end.

(** Parse and compare with the canonical numeral: the check
    [s.parse()?.to_string() == s] the adapter repeats on every stored number. *)
Definition canonical_u64 (s : string) : option N :=
  match parse_u64 s with
  | Some n => if decide (u64_to_string n = s) then Some n else None
  | None => None
  end.

Lemma uint_of_u64 n : NilZero.uint_of_string (u64_to_string n) = Some (N.to_uint n).
Proof.
  unfold u64_to_string. apply NilZero.usu. intros H.
  pose proof (DecimalN.Unsigned.of_to n) as Hn. rewrite H in Hn. simpl in Hn. subst n. done.
Qed.

Lemma uint_of_string_char a s d :
  NilZero.uint_of_string (String a s) = Some d → is_Some (uint_of_char a (Some Decimal.Nil)).
Proof.
  simpl. destruct (NilEmpty.uint_of_string s) as [e|]; simpl.
  - destruct a as [[] [] [] [] [] [] [] []]; simpl; eauto; discriminate.
  - destruct a as [[] [] [] [] [] [] [] []]; simpl; eauto; discriminate.
Qed.

Lemma strip_plus_numeral n : strip_plus (u64_to_string n) = u64_to_string n.
Proof.
  pose proof (uint_of_u64 n) as H. destruct (u64_to_string n) as [|a s]; [done|].
  apply uint_of_string_char in H as [d Hd]. simpl.
  destruct a as [[] [] [] [] [] [] [] []]; try done; discriminate.
Qed.

Lemma u64_to_string_no_minus n s : u64_to_string n ≠ String "-"%char s.
Proof.
  intros H. pose proof (uint_of_u64 n) as Hn. rewrite H in Hn.
  apply uint_of_string_char in Hn as [d Hd]. discriminate.
Qed.

Lemma u64_to_string_nonempty n : u64_to_string n ≠ "".
Proof. intros H. pose proof (uint_of_u64 n) as Hn. rewrite H in Hn. discriminate. Qed.

Lemma parse_unsigned_numeral max n :
  (n ≤ max)%N → parse_unsigned max (u64_to_string n) = Some n.
Proof.
  intros Hn. unfold parse_unsigned. rewrite strip_plus_numeral, uint_of_u64.
  rewrite DecimalN.Unsigned.of_to. by rewrite (proj2 (N.leb_le _ _) Hn).
Qed.

Lemma parse_unsigned_bound max s n : parse_unsigned max s = Some n → (n ≤ max)%N.
Proof.
  unfold parse_unsigned. destruct (NilZero.uint_of_string _) as [d|]; [|done].
  destruct (N.leb_spec (N.of_uint d) max); naive_solver.
Qed.

#[export] Instance u64_to_string_inj : Inj (=) (=) u64_to_string.
Proof.
  intros n m H. pose proof (uint_of_u64 n) as Hn. rewrite H, uint_of_u64 in Hn.
  injection Hn as Hn. by apply DecimalN.Unsigned.to_uint_inj.
Qed.

(** The accepted numerals are exactly the printed ones. *)
Lemma canonical_u64_Some s n : canonical_u64 s = Some n ↔ s = u64_to_string n ∧ is_u64 n.
Proof.
  unfold canonical_u64, parse_u64. split.
  - destruct (parse_unsigned u64_max s) as [m|] eqn:Hm; [|done].
    case_decide as Hs; [|done]. intros [= <-]. split; [done|]. by eapply parse_unsigned_bound.
  - intros [-> Hn]. rewrite (parse_unsigned_numeral _ _ Hn). by rewrite decide_True.
Qed.

Lemma parse_i64_numeral z : is_i64 z → parse_i64 (i64_to_string z) = Some z.
Proof.
  unfold is_i64, i64_min, i64_max. intros Hz. destruct z as [|p|p]; simpl.
  - reflexivity.
  - assert (parse_i64 (u64_to_string (N.pos p)) =
      Z.of_N <$> parse_unsigned 9223372036854775807 (u64_to_string (N.pos p))) as ->.
    { destruct (u64_to_string (N.pos p)) as [|a s] eqn:Hs; [done|].
      simpl. destruct a as [[] [] [] [] [] [] [] []]; try done.
      by apply u64_to_string_no_minus in Hs. }
    rewrite parse_unsigned_numeral by lia. simpl. done.
  - rewrite uint_of_u64, DecimalN.Unsigned.of_to.
    rewrite (proj2 (N.leb_le _ _)) by lia. done.
Qed.

(** ** [serde_json::Value] *)

(** [Number]: a non-negative integer, a negative one, or a finite binary64 (its bits). *)
Inductive JsonNumber :=
| PosInt (n : N)
| NegInt (z : Z)
| JFloat (bits : N).
#[export] Instance JsonNumber_eq_dec : EqDecision JsonNumber.
Proof. solve_decision. Defined.

Definition number_as_i64 (n : JsonNumber) : option Z :=
  match n with
  | PosInt n => if (Z.of_N n <=? i64_max)%Z then Some (Z.of_N n) else None
  | NegInt z => Some z
  | JFloat _ => None
  end.
Definition number_as_u64 (n : JsonNumber) : option N :=
  match n with PosInt n => Some n | _ => None end.
Definition number_is_i64 (n : JsonNumber) : bool := match number_as_i64 n with Some _ => true | None => false end.
Definition number_is_u64 (n : JsonNumber) : bool := match number_as_u64 n with Some _ => true | None => false end.
(** [Number::from(i64)] and [Number::from(u64)] *)
Definition number_of_i64 (z : Z) : JsonNumber :=
  if (z <? 0)%Z then NegInt z else PosInt (Z.to_N z).
Definition number_of_u64 (n : N) : JsonNumber := PosInt n.

Local Unset Elimination Schemes.

Inductive JsonValue :=
| JNull
| JBool (b : bool)
| JNumber (n : JsonNumber)
| JString (s : string)
| JArray (values : list JsonValue)
| JObject (entries : list (string * JsonValue)).

(** [TaggedJson] of [sync_state.rs] *)
Inductive TaggedJson :=
| TNull
| TBool (b : bool)
| TString (s : string)
| TI64 (s : string)
| TU64 (s : string)
| TFloat (s : string)
| TArray (values : list TaggedJson)
| TObject (entries : list (string * TaggedJson)).

Local Set Elimination Schemes.

#[export] Instance JsonValue_eq_dec : EqDecision JsonValue.
Proof.
  refine (fix go (a b : JsonValue) {struct a} : Decision (a = b) :=
    let _ : EqDecision JsonValue := @go in
    match a, b return Decision (a = b) with
    | JNull, JNull => left eq_refl
    | JBool x, JBool y => cast_if (decide (x = y))
    | JNumber x, JNumber y => cast_if (decide (x = y))
    | JString x, JString y => cast_if (decide (x = y))
    | JArray x, JArray y => cast_if (decide (x = y))
    | JObject x, JObject y => cast_if (decide (x = y))
    | _, _ => right _
    end); congruence.
Defined.

(** Induction through the nested lists. *)
Section JsonValue_ind.
Variable P : JsonValue → Prop.
Hypothesis HNull : P JNull.
Hypothesis HBool : ∀ b, P (JBool b).
Hypothesis HNumber : ∀ n, P (JNumber n).
Hypothesis HString : ∀ s, P (JString s).
Hypothesis HArray : ∀ l, Forall P l → P (JArray l).
Hypothesis HObject : ∀ l, Forall (λ kv, P kv.2) l → P (JObject l).

Fixpoint JsonValue_ind (v : JsonValue) : P v :=
  match v with
  | JNull => HNull
  | JBool b => HBool b
  | JNumber n => HNumber n
  | JString s => HString s
  | JArray l => HArray l
      ((fix go l : Forall P l :=
          match l with
          | [] => Forall_nil_2 P
          | x :: l => Forall_cons_2 P x l (JsonValue_ind x) (go l)
          end) l)
  | JObject l => HObject l
      ((fix go l : Forall (λ kv, P kv.2) l :=
          match l with
          | [] => Forall_nil_2 _
          | x :: l => Forall_cons_2 _ x l (JsonValue_ind x.2) (go l)
          end) l)
  end.
End JsonValue_ind.

(** [Map::get] and [Map::remove] on entries in key order. *)
Definition json_get (k : string) (entries : list (string * JsonValue)) : option JsonValue :=
  snd <$> find_first (λ kv, bool_decide (kv.1 = k)) entries.
Definition json_remove (k : string) (entries : list (string * JsonValue))
  : list (string * JsonValue) :=
  filter (λ kv, kv.1 ≠ k) entries.

(** ** Tagged JSON: numbers travel as text *)

(** The text of a binary64 and [str::parse::<Number>], both of [serde_json]. *)
Class JsonFloatText := {
  float_text : N → string;
  number_from_str : string → option JsonNumber;
}.

(** [Number::to_string] *)
Definition number_to_string `{!JsonFloatText} (n : JsonNumber) : string :=
  match n with
  | PosInt n => u64_to_string n
  | NegInt z => i64_to_string z
  | JFloat bits => float_text bits
  end.

Section tagged.
Context `{!JsonFloatText}.

Fixpoint tag_json (value : JsonValue) : TaggedJson :=
  match value with
  | JNull => TNull
  | JBool value => TBool value
  | JString value => TString value
  | JNumber value =>
      if number_is_i64 value then TI64 (number_to_string value)
      else if number_is_u64 value then TU64 (number_to_string value)
      else TFloat (number_to_string value)
  | JArray value => TArray (map tag_json value)
  | JObject value => TObject (map (λ kv, (kv.1, tag_json kv.2)) value)
  end.

(** [None] is the source's [Err(SyncStateError::CorruptState)], its only error. *)
Fixpoint untag_json (value : TaggedJson) : option JsonValue :=
  match value with
  | TNull => Some JNull
  | TBool value => Some (JBool value)
  | TString value => Some (JString value)
  | TI64 value => (λ z, JNumber (number_of_i64 z)) <$> parse_i64 value
  | TU64 value => (λ n, JNumber (number_of_u64 n)) <$> parse_u64 value
  | TFloat value => JNumber <$> number_from_str value
  | TArray value => JArray <$> mapM untag_json value
  | TObject value =>
      JObject <$> mapM (λ kv, v ← untag_json kv.2; Some (kv.1, v)) value
  end.

(** A number as [serde_json] builds it, whose text reads back as itself.  For integers
    the text always does; for a float it is what [serde_json] promises of its printer
    and reader (with its [float_roundtrip] feature for every float). *)
Definition number_wf (n : JsonNumber) : Prop :=
  match n with
  | PosInt n => is_u64 n
  | NegInt z => (i64_min ≤ z < 0)%Z
  | JFloat bits => number_from_str (float_text bits) = Some (JFloat bits)
  end.

Fixpoint json_wf (value : JsonValue) : Prop :=
  match value with
  | JNumber n => number_wf n
  | JArray l => fold_right (λ v P, json_wf v ∧ P) True l
  | JObject l => fold_right (λ kv P, json_wf kv.2 ∧ P) True l
  | _ => True
  end.

Lemma fold_right_and_Forall {A} (P : A → Prop) l :
  fold_right (λ x Q, P x ∧ Q) True l ↔ Forall P l.
Proof. induction l; simpl; [by rewrite Forall_nil|]. by rewrite IHl, Forall_cons. Qed.

Lemma json_wf_array l : json_wf (JArray l) ↔ Forall json_wf l.
Proof. apply fold_right_and_Forall. Qed.
Lemma json_wf_object l : json_wf (JObject l) ↔ Forall (λ kv, json_wf kv.2) l.
Proof. apply (fold_right_and_Forall (λ kv : string * JsonValue, json_wf kv.2)). Qed.

Lemma untag_tag_number n :
  number_wf n → untag_json (tag_json (JNumber n)) = Some (JNumber n).
Proof.
  destruct n as [n|z|bits]; simpl; unfold number_is_i64, number_is_u64; simpl.
  - unfold is_u64. intros Hn. destruct (Z.leb_spec (Z.of_N n) i64_max) as [Hi|Hi]; simpl.
    + assert (u64_to_string n = i64_to_string (Z.of_N n)) as ->.
      { destruct n; [done|]. reflexivity. }
      rewrite parse_i64_numeral by (unfold is_i64, i64_min, i64_max in *; lia). simpl.
      unfold number_of_i64. destruct (Z.ltb_spec (Z.of_N n) 0); [lia|]. by rewrite N2Z.id.
    + unfold parse_u64. by rewrite parse_unsigned_numeral.
  - intros Hz. rewrite parse_i64_numeral by (unfold is_i64, i64_min, i64_max in *; lia).
    simpl. unfold number_of_i64. destruct (Z.ltb_spec z 0); [done|lia].
  - intros Hb. by rewrite Hb.
Qed.

Lemma untag_tag value : json_wf value → untag_json (tag_json value) = Some value.
Proof.
  induction value as [|b|n|s|l IH|l IH] using JsonValue_ind; try done.
  - apply untag_tag_number.
  - rewrite json_wf_array. intros Hl. simpl.
    assert (mapM untag_json (map tag_json l) = Some l) as ->; [|done].
    apply mapM_Some, Forall2_fmap_l, Forall_Forall2_diag.
    eapply Forall_impl; [apply Forall_and; exact (conj IH Hl)|].
    intros v [Hv ?]. by apply Hv.
  - rewrite json_wf_object. intros Hl. simpl.
    assert (mapM (λ kv, v ← untag_json kv.2; Some (kv.1, v))
      (map (λ kv, (kv.1, tag_json kv.2)) l) = Some l) as ->; [|done].
    apply mapM_Some, Forall2_fmap_l, Forall_Forall2_diag.
    eapply Forall_impl; [apply Forall_and; exact (conj IH Hl)|].
    intros [k v] [Hv ?]. simpl in *. by rewrite Hv.
Qed.

(** JSON levels of the tagged form: a scalar is an object, a container an object that
    holds an array or an object. *)
Fixpoint tagged_levels (t : TaggedJson) : nat :=
  match t with
  | TArray l => S (S (fold_right (λ v n, Nat.max (tagged_levels v) n) 0 l))
  | TObject l => S (S (fold_right (λ kv n, Nat.max (tagged_levels kv.2) n) 0 l))
  | _ => 1
  end.
End tagged.
