(* ===== verification/NativeErrors.v ===== *)
(** * The error types of the native adapter.

    [SurrealRnError] ([lib.rs]), [SyncStateError] ([sync_state.rs]),
    [NativeSyncError] ([sync_client.rs]) and [NativeBootstrapError]
    ([sync_bootstrap.rs]) of [crates/surrealdb-rn-core], with the functions that
    translate one into another.  Messages and the opaque errors of other crates that
    some variants carry are left out. *)

From S2P Require Import Prelude Protocol Subscription ClientState.

Inductive SurrealRnError :=
| RnInvalidEndpoint
| RnInvalidVariables
| RnClosed
| RnDatabase
| RnCodec
| RnInternal.
#[export] Instance SurrealRnError_eq_dec : EqDecision SurrealRnError.
Proof. solve_decision. Defined.

Inductive SyncStateError :=
| IdentityTooLarge
| StateTooLarge
| RevisionMismatch
| RevisionConflict
| CorruptState
| UnsupportedRecordId
| RecordValueMustBeObject
| ValueCodec (source : SurrealRnError)
| InvalidState (source : ClientError)
| EncodeError
| DecodeError
| DatabaseError
| CoreError (source : SurrealRnError)
| CommitUnknown
| RollbackFailed (operation : SyncStateError).
#[export] Instance SyncStateError_eq_dec : EqDecision SyncStateError.
Proof. solve_decision. Defined.

Inductive NativeSyncError :=
| Closed
| InvalidInput
| ProtocolError
| Persistence
| RecoveryRequired
| RequiresEmbeddedDatabase
| ReadOutputTooLarge
| NNeedsNewScopeJournal
| NPendingQuarantineRequired
| NSubscriptionCancelled
| NInvalidSubscription
| Internal
| QueueCapacity.
#[export] Instance NativeSyncError_eq_dec : EqDecision NativeSyncError.
Proof. solve_decision. Defined.

Inductive NativeBootstrapError :=
| BInvalidInput
| InvalidFrame
| ContextMismatch
| StageMismatch
| CapacityExceeded
| CorruptStage
| Expired
| ClockUnavailable
| BClosed
| BNeedsNewScopeJournal
| BPendingQuarantineRequired
| BRecoveryRequired
| BStorage.
#[export] Instance NativeBootstrapError_eq_dec : EqDecision NativeBootstrapError.
Proof. solve_decision. Defined.

Definition map_protocol_error (error : ClientError) : NativeSyncError :=
  match error with
  | SubscriptionCancelled => NSubscriptionCancelled
  | InvalidSubscription => NInvalidSubscription
  | NeedsNewScopeJournal => NNeedsNewScopeJournal
  | PendingQuarantineRequired => NPendingQuarantineRequired
  | _ => ProtocolError
  end.

Definition map_persistence_error (error : SyncStateError) : NativeSyncError :=
  match error with
  | IdentityTooLarge | StateTooLarge | UnsupportedRecordId | RecordValueMustBeObject
  | ValueCodec _ => InvalidInput
  | InvalidState _ => ProtocolError
  | RevisionMismatch | RevisionConflict | CorruptState | EncodeError | DecodeError
  | DatabaseError | CoreError _ | RollbackFailed _ => Persistence
  | CommitUnknown => RecoveryRequired
  end.

(** [NativeBootstrapError::from_native] *)
Definition from_native (error : NativeSyncError) : NativeBootstrapError :=
  match error with
  | Closed => BClosed
  | RecoveryRequired => BRecoveryRequired
  | NNeedsNewScopeJournal => BNeedsNewScopeJournal
  | NPendingQuarantineRequired => BPendingQuarantineRequired
  | InvalidInput | ReadOutputTooLarge => BInvalidInput
  | ProtocolError | NInvalidSubscription => InvalidFrame
  | _ => BStorage
  end.

(** [NativeBootstrapError::from_store] *)
Definition from_store (error : SyncStateError) : NativeBootstrapError :=
  match error with
  | IdentityTooLarge => BInvalidInput
  | StateTooLarge => CapacityExceeded
  | RevisionConflict | RevisionMismatch => StageMismatch
  | CommitUnknown | RollbackFailed _ => BRecoveryRequired
  | CorruptState | DecodeError => CorruptStage
  | InvalidState NeedsNewScopeJournal => BNeedsNewScopeJournal
  | InvalidState PendingQuarantineRequired => BPendingQuarantineRequired
  | UnsupportedRecordId | RecordValueMustBeObject | ValueCodec _ | InvalidState _ =>
      InvalidFrame
  | _ => BStorage
  end.

(** [matches!(r, Err(CommitUnknown(_) | RollbackFailed { .. }))]: the outcome of the
    storage operation is not known. *)
Definition outcome_unknown {A} (r : result A SyncStateError) : bool :=
  match r with Err CommitUnknown | Err (RollbackFailed _) => true | _ => false end.

(** [result.map_err(f)] *)
Definition map_err {A E F} (f : E → F) (r : result A E) : result A F :=
  match r with Ok a => Ok a | Err e => Err (f e) end.

Lemma map_err_Ok {A E F} (f : E → F) (r : result A E) a : map_err f r = Ok a ↔ r = Ok a.
Proof. destruct r; naive_solver. Qed.
