(* ===== verification/Wire.v ===== *)
(** * Values at the native boundary.

    Models [crates/surrealdb-rn-core/src/wire.rs] (SurrealDB values to and from tagged
    JSON), the value conversions of [sync_codec.rs] and [sync_http_codec.rs] (tagged
    JSON to and from the protocol's canonical values).

    [surrealdb::types] and [base64] are not part of the repository: [SurrealTypes] holds
    what the code calls of them.  A [leaf] is a scalar the adapter only prints or parses
    (decimal, duration, datetime, uuid, geometry, file, range, regex); a binary64 is its
    bit pattern. *)

From Stdlib Require Import Strings.Byte ZArith SpecFloat.
From S2P Require Import Prelude Bytes Protocol Subscription ClientState Canonical NativeErrors Json.

(** ** [surrealdb::types::Value] *)

Local Unset Elimination Schemes.

(** Objects and sets are their elements in order. *)
Inductive SurrealValue (leaf : Type) :=
| SvNone
| SvNull
| SvBool (b : bool)
| SvInt (z : Z)
| SvFloat (bits : N)
| SvDecimal (d : leaf)
| SvString (s : string)
| SvBytes (bytes : list byte)
| SvDuration (d : leaf)
| SvDatetime (d : leaf)
| SvUuid (u : leaf)
| SvGeometry (g : leaf)
| SvTable (t : string)
| SvRecordId (table : string) (key : RecordIdKey leaf)
| SvFile (f : leaf)
| SvRange (r : leaf)
| SvRegex (r : leaf)
| SvArray (values : list (SurrealValue leaf))
| SvObject (entries : list (string * SurrealValue leaf))
| SvSet (values : list (SurrealValue leaf))
with RecordIdKey (leaf : Type) :=
| KeyNumber (z : Z)
| KeyString (s : string)
| KeyUuid (u : leaf)
| KeyArray (values : list (SurrealValue leaf))
| KeyObject (entries : list (string * SurrealValue leaf))
| KeyRange (r : leaf).

Local Set Elimination Schemes.

Arguments SvNone {leaf}.
Arguments SvNull {leaf}.
Arguments SvBool {leaf} _.
Arguments SvInt {leaf} _.
Arguments SvFloat {leaf} _.
Arguments SvDecimal {leaf} _.
Arguments SvString {leaf} _.
Arguments SvBytes {leaf} _.
Arguments SvDuration {leaf} _.
Arguments SvDatetime {leaf} _.
Arguments SvUuid {leaf} _.
Arguments SvGeometry {leaf} _.
Arguments SvTable {leaf} _.
Arguments SvRecordId {leaf} _ _.
Arguments SvFile {leaf} _.
Arguments SvRange {leaf} _.
Arguments SvRegex {leaf} _.
Arguments SvArray {leaf} _.
Arguments SvObject {leaf} _.
Arguments SvSet {leaf} _.
Arguments KeyNumber {leaf} _.
Arguments KeyString {leaf} _.
Arguments KeyUuid {leaf} _.
Arguments KeyArray {leaf} _.
Arguments KeyObject {leaf} _.
Arguments KeyRange {leaf} _.

(** What the adapter calls of [surrealdb::types], [base64] and the decimal reader of
    binary64 ([str::parse::<f64>] on digits). *)
Class SurrealTypes := {
  leaf : Type;
  decimal_to_string : leaf → string;
  decimal_from_str : string → option leaf;
  uuid_to_string : leaf → string;
  uuid_from_str : string → option leaf;
  (** [Value::Duration(x).to_sql()] and its siblings *)
  leaf_to_sql : leaf → string;
  record_to_sql : string → RecordIdKey leaf → string;
  (** [RecordId::parse_simple] *)
  parse_simple : string → option (string * RecordIdKey leaf);
  (** [Set::from(Vec)]: sorted, without duplicates *)
  set_from : list (SurrealValue leaf) → list (SurrealValue leaf);
  base64_encode : list byte → string;
  base64_decode : string → option (list byte);
  f64_from_decimal : string → option N;
}.

(** [Value] of the parameter's leaves. *)
Abbreviation SValue := (SurrealValue leaf).
Abbreviation RKey := (RecordIdKey leaf).

Section SurrealValue_ind.
Context {leaf : Type}.
Variable P : SurrealValue leaf → Prop.
Variable Q : RecordIdKey leaf → Prop.
Hypothesis HScalar : ∀ v,
  match v with SvArray _ | SvObject _ | SvSet _ | SvRecordId _ _ => True | _ => P v end.
Hypothesis HRecordId : ∀ t k, Q k → P (SvRecordId t k).
Hypothesis HArray : ∀ l, Forall P l → P (SvArray l).
Hypothesis HObject : ∀ l, Forall (λ kv, P kv.2) l → P (SvObject l).
Hypothesis HSet : ∀ l, Forall P l → P (SvSet l).
Hypothesis HKeyArray : ∀ l, Forall P l → Q (KeyArray l).
Hypothesis HKeyObject : ∀ l, Forall (λ kv, P kv.2) l → Q (KeyObject l).
Hypothesis HKeyScalar : ∀ k, match k with KeyArray _ | KeyObject _ => True | _ => Q k end.

Fixpoint SurrealValue_ind (v : SurrealValue leaf) : P v :=
  let fix go l : Forall P l :=
    match l with
    | [] => Forall_nil_2 P
    | x :: l => Forall_cons_2 P x l (SurrealValue_ind x) (go l)
    end in
  let fix goo l : Forall (λ kv, P kv.2) l :=
    match l with
    | [] => Forall_nil_2 _
    | x :: l => Forall_cons_2 (λ kv, P kv.2) x l (SurrealValue_ind x.2) (goo l)
    end in
  match v with
  | SvRecordId t k => HRecordId t k (RecordIdKey_ind k)
  | SvArray l => HArray l (go l)
  | SvObject l => HObject l (goo l)
  | SvSet l => HSet l (go l)
  | v => HScalar v
  end
with RecordIdKey_ind (k : RecordIdKey leaf) : Q k :=
  let fix go l : Forall P l :=
    match l with
    | [] => Forall_nil_2 P
    | x :: l => Forall_cons_2 P x l (SurrealValue_ind x) (go l)
    end in
  let fix goo l : Forall (λ kv, P kv.2) l :=
    match l with
    | [] => Forall_nil_2 _
    | x :: l => Forall_cons_2 (λ kv, P kv.2) x l (SurrealValue_ind x.2) (goo l)
    end in
  match k with
  | KeyArray l => HKeyArray l (go l)
  | KeyObject l => HKeyObject l (goo l)
  | k => HKeyScalar k
  end.
End SurrealValue_ind.

(** ** Binary64 *)

Definition f64_infinity : N := 9218868437227405312.
Definition f64_nan : N := 9221120237041090560.
Definition f64_sign : N := 9223372036854775808.

(** [n as f64]: round to nearest, ties to even. *)
Definition f64_of_Z (z : Z) : N :=
  match binary_normalize 53 1024 z 0 false with
  | S754_finite s m e =>
      ((if s then f64_sign else 0)
       + N.shiftl (Z.to_N (e + 1075)) 52 + (N.pos m - 4503599627370496))%N
  | S754_infinity s => ((if s then f64_sign else 0) + f64_infinity)%N
  | S754_zero _ | S754_nan => 0%N
  end.

(** [f64::to_string] on a value that is not finite. *)
Definition f64_special_to_string (bits : N) : string :=
  if negb (N.land bits 4503599627370495 =? 0)%N then "NaN"
  else if (bits <? f64_sign)%N then "inf" else "-inf".

Definition to_lower (a : Ascii.ascii) : Ascii.ascii :=
  let n := Ascii.N_of_ascii a in
  if ((65 <=? n) && (n <=? 90))%N then Ascii.ascii_of_N (n + 32) else a.
Fixpoint str_lower (s : string) : string :=
  match s with "" => "" | String a s => String (to_lower a) (str_lower s) end.

(** [str::parse::<f64>]: the special names, with a sign and in any case; else a decimal. *)
Definition parse_f64 `{!SurrealTypes} (s : string) : option N :=
  let '(sign, rest) :=
    match str_lower s with
    | String a rest =>
        if decide (a = Ascii.ascii_of_N 45) then (f64_sign, rest)
        else if decide (a = Ascii.ascii_of_N 43) then (0%N, rest)
        else (0%N, String a rest)
    | rest => (0%N, rest)
    end in
  if decide (rest = "inf" ∨ rest = "infinity") then Some (sign + f64_infinity)%N
  else if decide (rest = "nan") then Some (sign + f64_nan)%N
  else f64_from_decimal s.

(** [Number::as_f64] *)
Definition number_as_f64 (n : JsonNumber) : option N :=
  Some match n with
  | PosInt n => f64_of_Z (Z.of_N n)
  | NegInt z => f64_of_Z z
  | JFloat bits => bits
  end.

(** ** [wire.rs]: encoding *)

Definition TAG : string := "$surreal".
Definition MAX_WIRE_DEPTH : nat := 128.

Section wire.
Context `{!SurrealTypes}.

(** The entries of [json!({ TAG: kind, "value": value })]. *)
Definition tagged_entries (kind : string) (value : option string)
  : list (string * JsonValue) :=
  (TAG, JString kind) ::
  match value with Some value => [("value", JString value)] | None => [] end.

Fixpoint to_wire_value (value : SValue) : JsonValue :=
  match value with
  | SvNone => JObject (tagged_entries "none" None)
  | SvNull => JNull
  | SvBool value => JBool value
  | SvInt value => JObject (tagged_entries "int" (Some (i64_to_string value)))
  | SvFloat value =>
      if f64_is_finite value then JNumber (JFloat value)
      else JObject (tagged_entries "float" (Some (f64_special_to_string value)))
  | SvDecimal value => JObject (tagged_entries "decimal" (Some (decimal_to_string value)))
  | SvString value => JString value
  | SvBytes value =>
      JObject [(TAG, JString "bytes"); ("base64", JString (base64_encode value))]
  | SvDuration value => JObject (tagged_entries "duration" (Some (leaf_to_sql value)))
  | SvDatetime value => JObject (tagged_entries "datetime" (Some (leaf_to_sql value)))
  | SvUuid value => JObject (tagged_entries "uuid" (Some (uuid_to_string value)))
  | SvGeometry value => JObject (tagged_entries "geometry" (Some (leaf_to_sql value)))
  | SvTable value => JObject (tagged_entries "table" (Some value))
  | SvRecordId table key =>
      JObject (tagged_entries "record" (Some (record_to_sql table key)))
  | SvFile value => JObject (tagged_entries "file" (Some (leaf_to_sql value)))
  | SvRange value => JObject (tagged_entries "range" (Some (leaf_to_sql value)))
  | SvRegex value => JObject (tagged_entries "regex" (Some (leaf_to_sql value)))
  | SvArray value => JArray (map to_wire_value value)
  | SvObject value => JObject (map (λ kv, (kv.1, to_wire_value kv.2)) value)
  | SvSet value =>
      JObject [(TAG, JString "set"); ("values", JArray (map to_wire_value value))]
  end.

(** The calls a [Serialize] implementation makes on its serializer, in order.  The text
    [serde_json] writes is a function of them. *)
Inductive json_event :=
| EvNull
| EvBool (b : bool)
| EvNumber (n : JsonNumber)
| EvStr (s : string)
| EvSeq
| EvSeqEnd
| EvMap
| EvKey (k : string)
| EvMapEnd.

(** [Serialize for serde_json::Value] *)
Fixpoint json_events (value : JsonValue) : list json_event :=
  match value with
  | JNull => [EvNull]
  | JBool b => [EvBool b]
  | JNumber n => [EvNumber n]
  | JString s => [EvStr s]
  | JArray l => EvSeq :: concat (map json_events l) ++ [EvSeqEnd]
  | JObject l => EvMap :: concat (map (λ kv, EvKey kv.1 :: json_events kv.2) l) ++ [EvMapEnd]
  end.

(** [tagged(serializer, kind, value)] *)
Definition tagged (kind : string) (value : option string) : list json_event :=
  EvMap :: EvKey TAG :: EvStr kind ::
  match value with Some value => [EvKey "value"; EvStr value] | None => [] end ++ [EvMapEnd].

(** [Serialize for WireValue], with [WireValues] for the elements of a set. *)
Fixpoint wire_events (value : SValue) : list json_event :=
  match value with
  | SvNone => tagged "none" None
  | SvNull => [EvNull]
  | SvBool value => [EvBool value]
  | SvInt value => tagged "int" (Some (i64_to_string value))
  | SvFloat value =>
      if f64_is_finite value then [EvNumber (JFloat value)]
      else tagged "float" (Some (f64_special_to_string value))
  | SvDecimal value => tagged "decimal" (Some (decimal_to_string value))
  | SvString value => [EvStr value]
  | SvBytes value =>
      [EvMap; EvKey TAG; EvStr "bytes"; EvKey "base64"; EvStr (base64_encode value); EvMapEnd]
  | SvDuration value => tagged "duration" (Some (leaf_to_sql value))
  | SvDatetime value => tagged "datetime" (Some (leaf_to_sql value))
  | SvUuid value => tagged "uuid" (Some (uuid_to_string value))
  | SvGeometry value => tagged "geometry" (Some (leaf_to_sql value))
  | SvTable value => tagged "table" (Some value)
  | SvRecordId table key => tagged "record" (Some (record_to_sql table key))
  | SvFile value => tagged "file" (Some (leaf_to_sql value))
  | SvRange value => tagged "range" (Some (leaf_to_sql value))
  | SvRegex value => tagged "regex" (Some (leaf_to_sql value))
  | SvArray values => EvSeq :: concat (map wire_events values) ++ [EvSeqEnd]
  | SvObject values =>
      EvMap :: concat (map (λ kv, EvKey kv.1 :: wire_events kv.2) values) ++ [EvMapEnd]
  | SvSet values =>
      EvMap :: EvKey TAG :: EvStr "set" :: EvKey "values" ::
      (EvSeq :: concat (map wire_events values) ++ [EvSeqEnd]) ++ [EvMapEnd]
  end.

(** [serde_json::to_string]: the writer's text of the events, unless it refuses. *)
Definition encode_value (render : list json_event → result string unit) (value : SValue)
  : result string SurrealRnError :=
  map_err (λ _, RnCodec) (render (wire_events value)).
Definition encode_value_tree (render : list json_event → result string unit) (value : SValue)
  : result string SurrealRnError :=
  map_err (λ _, RnCodec) (render (json_events (to_wire_value value))).

(** ** [wire.rs]: decoding *)

Definition required_string (object : list (string * JsonValue)) (key : string)
  : result string SurrealRnError :=
  match json_get key object with
  | Some (JString value) => Ok value
  | _ => Err RnInvalidVariables
  end.

(** [child] decodes one level deeper. *)
Definition decode_tagged_value (child : JsonValue → result SValue SurrealRnError)
    (tag : JsonValue) (object : list (string * JsonValue)) : result SValue SurrealRnError :=
  match tag with
  | JString tag =>
      if decide (tag = "none") then Ok SvNone
      else if decide (tag = "int") then
        let? value := required_string object "value" in
        let? z := ok_or (parse_i64 value) RnInvalidVariables in Ok (SvInt z)
      else if decide (tag = "float") then
        let? value := required_string object "value" in
        let? bits := ok_or (parse_f64 value) RnInvalidVariables in Ok (SvFloat bits)
      else if decide (tag = "decimal") then
        let? value := required_string object "value" in
        let? d := ok_or (decimal_from_str value) RnInvalidVariables in Ok (SvDecimal d)
      else if decide (tag = "bytes") then
        let? value := required_string object "base64" in
        let? bytes := ok_or (base64_decode value) RnInvalidVariables in Ok (SvBytes bytes)
      else if decide (tag = "uuid") then
        let? value := required_string object "value" in
        let? u := ok_or (uuid_from_str value) RnInvalidVariables in Ok (SvUuid u)
      else if decide (tag = "record") then
        let? value := required_string object "value" in
        let? r := ok_or (parse_simple value) RnInvalidVariables in Ok (SvRecordId r.1 r.2)
      else if decide (tag = "set") then
        match json_get "values" object with
        | Some (JArray values) =>
            let? values := try_map child values in Ok (SvSet (set_from values))
        | _ => Err RnInvalidVariables
        end
      else Err RnInvalidVariables
  | _ => Err RnInvalidVariables
  end.

(** [from_wire_value_at_depth(value, depth)] with [fuel = MAX_WIRE_DEPTH + 1 - depth]:
    no fuel is the refusal of nesting beyond [MAX_WIRE_DEPTH]. *)
Fixpoint from_wire_value_at_depth (fuel : nat) (value : JsonValue)
  : result SValue SurrealRnError :=
  match fuel with
  | O => Err RnInvalidVariables
  | S fuel =>
      match value with
      | JNull => Ok SvNull
      | JBool value => Ok (SvBool value)
      | JNumber value =>
          match number_as_i64 value with
          | Some integer => Ok (SvInt integer)
          | None =>
              match number_as_f64 value with
              | Some float => Ok (SvFloat float)
              | None => Err RnInvalidVariables
              end
          end
      | JString value => Ok (SvString value)
      | JArray values =>
          let? values := try_map (from_wire_value_at_depth fuel) values in
          Ok (SvArray values)
      | JObject object =>
          match json_get TAG object with
          | Some tag => decode_tagged_value (from_wire_value_at_depth fuel) tag
                          (json_remove TAG object)
          | None =>
              let? entries :=
                try_map (λ kv, let? v := from_wire_value_at_depth fuel kv.2 in Ok (kv.1, v))
                  object in
              Ok (SvObject entries)
          end
      end
  end.

Definition from_wire_value (value : JsonValue) : result SValue SurrealRnError :=
  from_wire_value_at_depth (S MAX_WIRE_DEPTH) value.

(** [from_str] is [serde_json::from_str::<Value>]. *)
Definition decode_variables (from_str : string → result JsonValue unit)
    (input : option string) : result (list (string * SValue)) SurrealRnError :=
  match input with
  | None => Ok []
  | Some input =>
      let? json := map_err (λ _, RnInvalidVariables) (from_str input) in
      let? value := from_wire_value json in
      match value with SvObject object => Ok object | _ => Err RnInvalidVariables end
  end.

(** ** [sync_codec.rs]: tagged JSON to canonical values *)

(** The error type of the source is [()]. *)
Fixpoint from_surreal (value : SValue) : result CanonicalValue unit :=
  match value with
  | SvNone => Ok VNone
  | SvNull => Ok VNull
  | SvBool value => Ok (VBool value)
  | SvInt value => Ok (VInt value)
  | SvFloat value => map_err (λ _, tt) (let? f := float_new value in Ok (VFloat f))
  | SvDecimal _ => Err tt
  | SvString value => Ok (VString value)
  | SvBytes value => Ok (VBytes value)
  | SvArray value => let? l := try_map from_surreal value in Ok (VArray l)
  | SvObject value =>
      let? l := try_map (λ kv, let? v := from_surreal kv.2 in Ok (kv.1, v)) value in
      Ok (VObject l)
  | SvRecordId table key => let? key := record_key key in Ok (VRecordId table key)
  | SvDuration _ | SvDatetime _ | SvUuid _ | SvGeometry _ | SvTable _ | SvFile _
  | SvRange _ | SvRegex _ | SvSet _ => Err tt
  end
with record_key (key : RKey) : result CanonicalValue unit :=
  match key with
  | KeyNumber value => Ok (VInt value)
  | KeyString value => Ok (VString value)
  | KeyArray value => let? l := try_map from_surreal value in Ok (VArray l)
  | KeyObject value =>
      let? l := try_map (λ kv, let? v := from_surreal kv.2 in Ok (kv.1, v)) value in
      Ok (VObject l)
  | KeyUuid _ | KeyRange _ => Err tt
  end.

Definition canonical_json (value : JsonValue) : result CanonicalValue NativeSyncError :=
  let? value := map_err (λ _, InvalidInput) (from_wire_value value) in
  map_err (λ _, InvalidInput) (from_surreal value).

Definition canonical_operation (operation : Operation JsonValue)
  : result (Operation CanonicalValue) NativeSyncError :=
  match operation with
  | Upsert record_id base_version value reference =>
      let? value := canonical_json value in
      Ok (Upsert record_id base_version value reference)
  | Delete record_id base_version => Ok (Delete record_id base_version)
  end.
End wire.

(** ** [sync_http_codec.rs]: canonical values to tagged JSON *)

#[export] Instance CanonicalFloat_eq_dec : EqDecision CanonicalFloat.
Proof. solve_decision. Defined.
#[export] Instance CanonicalValue_eq_dec : EqDecision CanonicalValue.
Proof.
  refine (fix go (a b : CanonicalValue) {struct a} : Decision (a = b) :=
    let _ : EqDecision CanonicalValue := @go in
    match a, b return Decision (a = b) with
    | VNone, VNone => left eq_refl
    | VNull, VNull => left eq_refl
    | VBool x, VBool y => cast_if (decide (x = y))
    | VInt x, VInt y => cast_if (decide (x = y))
    | VFloat x, VFloat y => cast_if (decide (x = y))
    | VString x, VString y => cast_if (decide (x = y))
    | VBytes x, VBytes y => cast_if (decide (x = y))
    | VArray x, VArray y => cast_if (decide (x = y))
    | VObject x, VObject y => cast_if (decide (x = y))
    | VRecordId t x, VRecordId u y => cast_if_and (decide (t = u)) (decide (x = y))
    | _, _ => right _
    end); congruence.
Defined.

Section http.
Context `{!SurrealTypes}.

Fixpoint canonical_to_surreal (value : CanonicalValue) : result SValue NativeSyncError :=
  match value with
  | VNone => Ok SvNone
  | VNull => Ok SvNull
  | VBool value => Ok (SvBool value)
  | VInt value => Ok (SvInt value)
  | VFloat value => Ok (SvFloat (float_bits value))
  | VString value => Ok (SvString value)
  | VBytes value => Ok (SvBytes value)
  | VArray values => let? l := try_map canonical_to_surreal values in Ok (SvArray l)
  | VObject values =>
      let? l := try_map (λ kv, let? v := canonical_to_surreal kv.2 in Ok (kv.1, v)) values in
      Ok (SvObject l)
  | VRecordId table key =>
      let? key := canonical_record_key key in Ok (SvRecordId table key)
  end
with canonical_record_key (value : CanonicalValue) : result RKey NativeSyncError :=
  match value with
  | VInt value => Ok (KeyNumber value)
  | VString value => Ok (KeyString value)
  | VArray values => let? l := try_map canonical_to_surreal values in Ok (KeyArray l)
  | VObject values =>
      let? l := try_map (λ kv, let? v := canonical_to_surreal kv.2 in Ok (kv.1, v)) values in
      Ok (KeyObject l)
  | _ => Err ProtocolError
  end.

Fixpoint canonical_to_json (value : CanonicalValue) : result JsonValue NativeSyncError :=
  match value with
  | VNone => Ok (JObject (tagged_entries "none" None))
  | VNull => Ok JNull
  | VBool value => Ok (JBool value)
  | VInt value => Ok (JObject (tagged_entries "int" (Some (i64_to_string value))))
  | VFloat value =>
      if f64_is_finite (float_bits value) then Ok (JNumber (JFloat (float_bits value)))
      else Err ProtocolError
  | VString value => Ok (JString value)
  | VBytes value =>
      Ok (JObject [(TAG, JString "bytes"); ("base64", JString (base64_encode value))])
  | VArray values => let? l := try_map canonical_to_json values in Ok (JArray l)
  | VObject values =>
      if existsb (λ kv, bool_decide (kv.1 = TAG)) values then Err ProtocolError else
      let? l := try_map (λ kv, let? v := canonical_to_json kv.2 in Ok (kv.1, v)) values in
      Ok (JObject l)
  | VRecordId table key =>
      let? k := canonical_record_key key in
      let tagged := JObject (tagged_entries "record" (Some (record_to_sql table k))) in
      let? back := map_err (λ _, ProtocolError) (canonical_json tagged) in
      if decide (back = VRecordId table key) then Ok tagged else Err ProtocolError
  end.

Definition record_state_to_json (state : RecordState CanonicalValue)
  : result (RecordState JsonValue) NativeSyncError :=
  match state with
  | Absent => Ok Absent
  | Present value version reference =>
      let? value := canonical_to_json value in Ok (Present value version reference)
  | Tombstone version => Ok (Tombstone version)
  end.

Definition push_response_to_json (response : PushResponse CanonicalValue)
  : result (PushResponse JsonValue) NativeSyncError :=
  let? outcome :=
    match presp_outcome response with
    | Accepted identity sequence id_mappings => Ok (Accepted identity sequence id_mappings)
    | Conflict identity record_id authoritative =>
        let? authoritative := record_state_to_json authoritative in
        Ok (Conflict identity record_id authoritative)
    | Rejected identity reason => Ok (Rejected identity reason)
    end in
  Ok (mkPushResponse (presp_schema_version response) (presp_partition_id response)
        (presp_client_id response) outcome).

Definition pull_frame_to_json (frame : PullFrame CanonicalValue)
  : result (PullFrame JsonValue) NativeSyncError :=
  match frame with
  | FrameStart checkpoint => Ok (FrameStart checkpoint)
  | FrameCommit checkpoint commit =>
      let? records :=
        try_map (λ record,
          let? state := record_state_to_json (applied_state record) in
          Ok (mkApplied (applied_record_id record) state)) (pc_records commit) in
      Ok (FrameCommit checkpoint (mkPullCommit (pc_sequence commit) (pc_source commit) records))
  | FrameEnd checkpoint => Ok (FrameEnd checkpoint)
  end.

Definition pull_response_to_json (response : PullResponse CanonicalValue)
  : result (PullResponse JsonValue) NativeSyncError :=
  match response with
  | Batch batch =>
      let? frames := try_map pull_frame_to_json (frames batch) in
      Ok (Batch (mkBatch frames))
  | Reset reset =>
      let? records :=
        try_map (λ record,
          let? state := record_state_to_json (snap_state record) in
          Ok (mkSnapshotRecord (snap_record_id record) state)) (reset_records reset) in
      Ok (Reset (mkReset (reset_reason reset) (reset_checkpoint reset) records))
  end.
End http.
