(* ===== verification/NativeCodec.v ===== *)
(** * Canonical validation of JSON payloads and the native HTTP bridge.

    Models the rest of [crates/surrealdb-rn-core/src/sync_codec.rs] (fingerprints and
    canonical validation of JSON states and responses) and of [sync_http_codec.rs] (the
    exported request encoders and response decoders).  The derived [serde]
    implementations are the parameter [SerdeJson]. *)

From Stdlib Require Import Strings.Byte.
From S2P Require Import Prelude Protocol Subscription ClientState Canonical HttpCodec NativeErrors Json Wire.

(** [serde_json] on a type with derived [Serialize] and [Deserialize]: to and from
    values, to and from text, from the bytes of a text. *)
Class SerdeJson (T : Type) := {
  to_value : T → result JsonValue unit;
  from_value : JsonValue → result T unit;
  to_text : T → result string unit;
  from_text : string → result T unit;
  from_slice : list byte → result T unit;
}.

Section codec.
Context `{!SurrealTypes, !Ciborium, !Sha256}.

Definition canonical_fingerprint (state : DurableClientState JsonValue)
    (commit : ClientCommit JsonValue) : result Fingerprint NativeSyncError :=
  let? operations := try_map canonical_operation (operations commit) in
  map_err (λ _, InvalidInput)
    (fingerprint_commit (st_partition_id state) (st_client_id state) (commit_id commit)
       operations).

Definition validate_record_state (state : RecordState JsonValue)
  : result unit NativeSyncError :=
  match state with
  | Present value _ _ =>
      let? canonical := canonical_json value in
      let? _ := map_err (λ _, InvalidInput) (canonical_cbor canonical) in
      Ok tt
  | _ => Ok tt
  end.

Definition validate_commit_identity (state : DurableClientState JsonValue)
    (commit : ClientCommit JsonValue) : result unit NativeSyncError :=
  let? computed := canonical_fingerprint state commit in
  if decide (computed ≠ fingerprint (commit_identity commit)) then Err ProtocolError
  else Ok tt.

Definition validate_push_response_values (outcome : DurableOutcome JsonValue)
  : result unit NativeSyncError :=
  match outcome with
  | Conflict _ _ authoritative => validate_record_state authoritative
  | _ => Ok tt
  end.

Definition validate_state_codec (state : DurableClientState JsonValue)
  : result unit NativeSyncError :=
  let? _ :=
    match st_subscriptions state with
    | Some subscriptions =>
        try_for_each (λ row, let? _ := canonical_json (row_value row) in Ok tt)
          (btree_values (records subscriptions))
    | None => Ok tt
    end in
  let? _ := try_for_each validate_record_state (btree_values (st_confirmed state)) in
  let? _ := try_for_each (validate_commit_identity state) (st_outbox state) in
  try_for_each (λ resolved,
    let? _ := canonical_fingerprint state (local_commit resolved) in
    validate_push_response_values (outcome resolved)) (st_outcomes state).

Definition validate_pull_response_values (response : PullResponse JsonValue)
  : result unit NativeSyncError :=
  match response with
  | Batch batch =>
      try_for_each (λ frame,
        match frame with
        | FrameCommit _ commit =>
            try_for_each (λ record, validate_record_state (applied_state record))
              (pc_records commit)
        | _ => Ok tt
        end) (frames batch)
  | Reset reset =>
      try_for_each (λ record, validate_record_state (snap_state record)) (reset_records reset)
  end.

(** ** The exported HTTP bridge *)

(** [decode_json] and [encode_json] *)
Definition decode_json {T} `{!SerdeJson T} (input : string) : result T NativeSyncError :=
  map_err (λ _, InvalidInput) (from_text input).
Definition encode_json {T} `{!SerdeJson T} (value : T) : result string NativeSyncError :=
  map_err (λ _, Internal) (to_text value).

Definition encode_sync_push_request `{!SerdeJson (ClientCommit JsonValue)}
    (partition_id client_id commit_json : string) : result (list byte) NativeSyncError :=
  let? commit := decode_json commit_json in
  let? operations := try_map canonical_operation (operations commit) in
  map_err (λ _, InvalidInput)
    (encode_push_request
       (mkPushRequest V1 partition_id client_id
          (mkCommit (commit_identity commit) operations))).

Definition decode_sync_push_response `{!SerdeJson (PushResponse JsonValue)}
    (bytes : list byte) : result string NativeSyncError :=
  let? response := map_err (λ _, ProtocolError) (decode_push_response bytes) in
  let? response := push_response_to_json response in
  encode_json response.

Definition encode_sync_pull_request (partition_id client_id : string)
    (checkpoint : option string) (requested_scope : string) (subscription_revision : N)
  : result (list byte) NativeSyncError :=
  map_err (λ _, InvalidInput)
    (encode_pull_request
       (mkPullRequest V1 partition_id client_id checkpoint requested_scope
          subscription_revision)).

Definition decode_sync_pull_response `{!SerdeJson (PullResponse JsonValue)}
    (bytes : list byte) : result string NativeSyncError :=
  let? response := map_err (λ _, ProtocolError) (decode_pull_response bytes) in
  let? response := pull_response_to_json response in
  encode_json response.
End codec.
