(* ===== verification/Engine.v ===== *)
(** * The storage engine the native adapter runs on.

    The adapter keeps its journal in an embedded SurrealDB, which is not part of the
    repository: [Engine] is what the code calls of it (record reads and writes, filtered
    selects, schema definitions, transactions), [EngineLaws] what it relies on.  Every
    call may fail; a commit that reports an error may or may not have taken effect.

    The file also has the rows the adapter stores ([sync_state.rs],
    [sync_bootstrap_store.rs]), their record ids, and the transaction monad [tx] in which
    the storage code is written: the whole effect of a failing operation is discarded by
    the cancellation of its transaction. *)

From Stdlib Require Import Strings.Byte.
From S2P Require Import Prelude Protocol Subscription ClientState NativeErrors Json Wire.

(** ** Rows *)

Record StoredRecord := mkStoredRecord {
  sr_format_version : Z;
  sr_partition_id : string;
  sr_client_id : string;
  sr_revision : string;
  sr_payload : list byte;
}.

Record StoredMetaRow := mkMetaRow {
  mr_format_version : Z;
  mr_partition_id : string;
  mr_client_id : string;
  mr_payload : list byte;
}.

Record StoredComponentRow := mkComponentRow {
  cr_format_version : Z;
  cr_partition_id : string;
  cr_client_id : string;
  cr_component_key : string;
  cr_payload : list byte;
}.

Record ScopeBarrier := mkBarrier {
  sb_reason : string;
  sb_required_scope : string;
  sb_required_subscription_revision : string;
  sb_required_authorization_revision : string;
}.

Record Header := mkHeader {
  hd_format_version : Z;
  hd_cancelled : bool;
  hd_incarnation : string;
  hd_start : list byte;
  hd_manifest : list byte;
  hd_consumed_receipt : option (list byte);
  hd_consumed_revision : option string;
}.

Record PageRow := mkPageRow {
  pr_format_version : Z;
  pr_partition_id : string;
  pr_client_id : string;
  pr_index : string;
  pr_payload : list byte;
}.

#[export] Instance ScopeBarrier_eq_dec : EqDecision ScopeBarrier.
Proof. solve_decision. Defined.

Section engine.
Context `{!SurrealTypes}.

(** A stored record: one of the adapter's rows, or an application's object.  The metadata
    row has the optional field [bootstrap_fence] beside the adapter's own fields. *)
Inductive row :=
| RowState (r : StoredRecord)
| RowMeta (r : StoredMetaRow) (bootstrap_fence : option string)
| RowComponent (r : StoredComponentRow)
| RowBarrier (b : ScopeBarrier)
| RowHeader (h : Header)
| RowPage (p : PageRow)
| RowObject (content : list (string * SValue)).

(** [NativeRecordId] *)
Record rid := mkRid { r_table : string; r_key : RKey }.

(** [NativeRecordId::new(table, Array::from(vec![..]))] *)
Definition array_rid (table : string) (key : list string) : rid :=
  mkRid table (KeyArray (SvString <$> key)).

Lemma array_rid_inj t t' k k' : array_rid t k = array_rid t' k' → t = t' ∧ k = k'.
Proof.
  unfold array_rid. intros [= -> Hk]. split; [done|].
  eapply (list_fmap_eq_inj SvString); [|exact Hk]. by intros ?? [= ->].
Qed.

(** [record::id(id) = [k1, k2, ..]] *)
Fixpoint values_are (values : list SValue) (key : list string) : bool :=
  match values, key with
  | [], [] => true
  | SvString s :: values, k :: key => bool_decide (s = k) && values_are values key
  | _, _ => false
  end.
Definition record_key_is (r : rid) (key : list string) : bool :=
  match r_key r with KeyArray values => values_are values key | _ => false end.

Lemma record_key_is_spec r key :
  record_key_is r key = true ↔ r = array_rid (r_table r) key.
Proof.
  assert (∀ values, values_are values key = true ↔ values = SvString <$> key) as Hv.
  { induction key as [|k key IH]; intros [|v values]; simpl; try naive_solver.
    - split; [by destruct v|done].
    - destruct v; try (split; [done|naive_solver]).
      rewrite andb_true_iff, bool_decide_eq_true, IH. naive_solver. }
  destruct r as [t k]. unfold record_key_is, array_rid. simpl.
  destruct k as [| | |values| |]; try (split; [done|naive_solver]).
  rewrite Hv. naive_solver.
Qed.

(** The fields a query compares or converts. *)
Definition object_string (k : string) (content : list (string * SValue)) : option string :=
  match snd <$> find_first (λ kv, bool_decide (kv.1 = k)) content with
  | Some (SvString s) => Some s
  | _ => None
  end.
Definition row_owner (x : row) : option string * option string :=
  match x with
  | RowState r => (Some (sr_partition_id r), Some (sr_client_id r))
  | RowMeta r _ => (Some (mr_partition_id r), Some (mr_client_id r))
  | RowComponent r => (Some (cr_partition_id r), Some (cr_client_id r))
  | RowPage r => (Some (pr_partition_id r), Some (pr_client_id r))
  | RowObject c => (object_string "partition_id" c, object_string "client_id" c)
  | RowBarrier _ | RowHeader _ => (None, None)
  end.
(** [WHERE partition_id = $partition AND client_id = $client] *)
Definition owned_by (partition client : string) (x : row) : bool :=
  bool_decide (row_owner x = (Some partition, Some client)).
Definition row_component_key (x : row) : option string :=
  match x with
  | RowComponent r => Some (cr_component_key r)
  | RowObject c => object_string "component_key" c
  | _ => None
  end.
Definition row_index (x : row) : option string :=
  match x with
  | RowPage r => Some (pr_index r)
  | RowObject c => object_string "index" c
  | _ => None
  end.

(** The conversions of a record into the type a [select] asks for; an application object
    has the type when it has its fields. *)
Definition object_value (k : string) (content : list (string * SValue)) : option SValue :=
  snd <$> find_first (λ kv, bool_decide (kv.1 = k)) content.
Definition row_to_component (x : row) : option StoredComponentRow :=
  match x with
  | RowComponent r => Some r
  | RowObject c =>
      match object_value "format_version" c, object_string "partition_id" c,
            object_string "client_id" c, object_string "component_key" c,
            object_value "payload" c with
      | Some (SvInt v), Some p, Some cl, Some k, Some (SvBytes b) =>
          Some (mkComponentRow v p cl k b)
      | _, _, _, _, _ => None
      end
  | _ => None
  end.
Definition row_to_page (x : row) : option PageRow :=
  match x with
  | RowPage r => Some r
  | RowObject c =>
      match object_value "format_version" c, object_string "partition_id" c,
            object_string "client_id" c, object_string "index" c,
            object_value "payload" c with
      | Some (SvInt v), Some p, Some cl, Some k, Some (SvBytes b) =>
          Some (mkPageRow v p cl k b)
      | _, _, _, _, _ => None
      end
  | _ => None
  end.
Definition row_to_meta (x : row) : option (StoredMetaRow * option string) :=
  match x with RowMeta r fence => Some (r, fence) | _ => None end.
Definition row_to_state (x : row) : option StoredRecord :=
  match x with RowState r => Some r | _ => None end.
Definition row_to_barrier (x : row) : option ScopeBarrier :=
  match x with RowBarrier b => Some b | _ => None end.
Definition row_to_header (x : row) : option Header :=
  match x with RowHeader h => Some h | _ => None end.

Class Engine := {
  db : Type;
  (** [select(id)] *)
  db_select : db → rid → result (option row) unit;
  (** [SELECT ... FROM table WHERE p LIMIT n], with the ids of the rows *)
  db_select_where : db → string → (rid → row → bool) → nat → result (list (rid * row)) unit;
  (** [upsert(id).content(row)], [create(id).content(row)] and [delete(id)] with the
      record they return *)
  db_upsert : db → rid → row → result (option row * db) unit;
  db_create : db → rid → row → result (option row * db) unit;
  db_delete : db → rid → result (option row * db) unit;
  (** [UPDATE id SET bootstrap_fence = fence] *)
  db_set_fence : db → rid → string → result db unit;
  (** The tables of [INFO FOR DB]; [None] when no namespace or database is selected *)
  db_info : db → result (option (gset string)) unit;
  (** [DEFINE TABLE IF NOT EXISTS ...; DEFINE FIELD ...] *)
  db_define : db → list string → result db unit;
  (** [bytes::len(<bytes>encoding::json::encode(s))] of a query *)
  sql_json_len : string → N;
  sql_json_array_len : list string → N;
  (** [begin], [commit] and [cancel]; the first argument is the committed database *)
  db_begin : db → result db unit;
  db_commit : db → db → result unit unit * db;
  db_cancel : db → db → result unit unit * db;
}.

(** What a reader sees of a database, and how each call that reports success relates to
    it.  Nothing is promised of a failing call, except that a commit has happened
    completely or not at all and that a cancellation never writes. *)
Class EngineLaws `{!Engine} := {
  #[global] rid_eq_dec :: EqDecision rid;
  contents : db → rid → option row;
  db_select_Ok d r x : db_select d r = Ok x → x = contents d r;
  db_select_where_Ok d t p n l :
    db_select_where d t p n = Ok l →
    ∃ full, NoDup full.*1 ∧
      (∀ r x, (r, x) ∈ full ↔ r_table r = t ∧ contents d r = Some x ∧ p r x = true) ∧
      l = take n full;
  db_upsert_Ok d r x o d' :
    db_upsert d r x = Ok (o, d') →
    o = Some x ∧ contents d' r = Some x ∧ ∀ r', r' ≠ r → contents d' r' = contents d r';
  db_create_Ok d r x o d' :
    db_create d r x = Ok (o, d') →
    contents d r = None ∧ o = Some x ∧ contents d' r = Some x ∧
    ∀ r', r' ≠ r → contents d' r' = contents d r';
  db_delete_Ok d r o d' :
    db_delete d r = Ok (o, d') →
    o = contents d r ∧ contents d' r = None ∧ ∀ r', r' ≠ r → contents d' r' = contents d r';
  db_set_fence_Ok d r f d' :
    db_set_fence d r f = Ok d' →
    contents d' r = match contents d r with
                    | Some (RowMeta m _) => Some (RowMeta m (Some f))
                    | x => x
                    end ∧
    ∀ r', r' ≠ r → contents d' r' = contents d r';
  db_define_Ok d ts d' : db_define d ts = Ok d' → ∀ r, contents d' r = contents d r;
  db_info_Ok d o r x :
    db_info d = Ok o → contents d r = Some x → ∃ tables, o = Some tables ∧ r_table r ∈ tables;
  sql_json_len_bound s : (sql_json_len s ≤ 6 * str_len s + 2)%N;
  db_begin_Ok d t : db_begin d = Ok t → ∀ r, contents t r = contents d r;
  db_commit_Ok d t u d' : db_commit d t = (Ok u, d') → ∀ r, contents d' r = contents t r;
  db_commit_Err d t e d' :
    db_commit d t = (Err e, d') →
    (∀ r, contents d' r = contents d r) ∨ (∀ r, contents d' r = contents t r);
  db_cancel_any d t o d' : db_cancel d t = (o, d') → ∀ r, contents d' r = contents d r;
}.

(** ** Transactions *)

Context `{!Engine}.

(** Code that runs inside one transaction. *)
Definition tx (A : Type) : Type := db → result (A * db) SyncStateError.

Definition tx_ret {A} (a : A) : tx A := λ d, Ok (a, d).
Definition tx_bind {A B} (m : tx A) (k : A → tx B) : tx B :=
  λ d, match m d with Ok (a, d) => k a d | Err e => Err e end.
(** A value computed without the database. *)
Definition tx_lift {A} (c : result A SyncStateError) : tx A :=
  λ d, let? a := c in Ok (a, d).
(** A read of the database the transaction sees. *)
Definition tx_read {A} (f : db → result A SyncStateError) : tx A :=
  λ d, let? a := f d in Ok (a, d).
Definition tx_err {A} (e : SyncStateError) : tx A := λ _, Err e.

(** [.await.map_err(SyncStateError::Database)] *)
Definition database {A} (r : result A unit) : result A SyncStateError :=
  map_err (λ _, DatabaseError) r.

(** A select into a type. *)
Definition select_as {A} (convert : row → option A) (r : rid) (d : db)
  : result (option A) SyncStateError :=
  let? x := database (db_select d r) in
  match x with
  | None => Ok None
  | Some x => let? a := ok_or (convert x) DatabaseError in Ok (Some a)
  end.
Definition select_where_as {A} (convert : row → option A) (table : string)
    (p : rid → row → bool) (limit : nat) (d : db) : result (list A) SyncStateError :=
  let? l := database (db_select_where d table p limit) in
  try_map (λ x, ok_or (convert x.2) DatabaseError) l.

Definition tx_upsert (r : rid) (x : row) : tx (option row) := λ d, database (db_upsert d r x).
Definition tx_create (r : rid) (x : row) : tx (option row) := λ d, database (db_create d r x).
Definition tx_delete (r : rid) : tx (option row) := λ d, database (db_delete d r).
Definition tx_select (r : rid) : tx (option row) := tx_read (λ d, database (db_select d r)).

(** [for x in l { f(x)?; }] inside a transaction. *)
Fixpoint tx_for_each {A} (f : A → tx unit) (l : list A) : tx unit :=
  match l with
  | [] => tx_ret tt
  | x :: l => tx_bind (f x) (λ _, tx_for_each f l)
  end.

Lemma tx_bind_Ok {A B} (m : tx A) (k : A → tx B) d r :
  tx_bind m k d = Ok r ↔ ∃ a d', m d = Ok (a, d') ∧ k a d' = Ok r.
Proof. unfold tx_bind. destruct (m d) as [[a d']|]; naive_solver. Qed.
Lemma tx_ret_Ok {A} (a : A) d r : tx_ret a d = Ok r ↔ r = (a, d).
Proof. unfold tx_ret. naive_solver. Qed.
Lemma tx_lift_Ok {A} (c : result A SyncStateError) d r :
  tx_lift c d = Ok r ↔ ∃ a, c = Ok a ∧ r = (a, d).
Proof. unfold tx_lift. rewrite result_bind_Ok. naive_solver. Qed.
Lemma tx_read_Ok {A} (f : db → result A SyncStateError) d r :
  tx_read f d = Ok r ↔ ∃ a, f d = Ok a ∧ r = (a, d).
Proof. unfold tx_read. rewrite result_bind_Ok. naive_solver. Qed.
Lemma tx_err_Ok {A} e d (r : A * db) : tx_err e d = Ok r ↔ False.
Proof. unfold tx_err. naive_solver. Qed.

(** An invariant of the database carried through a loop. *)
Lemma tx_for_each_inv {A} (P : db → Prop) (f : A → tx unit) l d u d' :
  (∀ x d u d', x ∈ l → P d → f x d = Ok (u, d') → P d') →
  P d → tx_for_each f l d = Ok (u, d') → P d'.
Proof.
  revert d. induction l as [|x l IH]; intros d Hf Hd; simpl.
  - rewrite tx_ret_Ok. naive_solver.
  - rewrite tx_bind_Ok. intros (v & d1 & Hx & Hl).
    eapply IH; [|eapply Hf; [|exact Hd|exact Hx]|exact Hl]; set_solver.
Qed.
End engine.

Notation "'let@' x ':=' c 'in' k" := (tx_bind c (λ x, k))
  (at level 10, x pattern, c at level 100, k at level 200,
   format "'[v' 'let@'  x  ':='  c  'in' '/' k ']'") : rust_scope.

(** [inv_tx] peels a successful transaction the way [inv_ok] peels a [Result]. *)
Ltac inv_tx_step :=
  match goal with
  | H : (_, _) = (_, _) |- _ => injection H as ?; subst
  | H : tx_bind _ _ _ = Ok _ |- _ => apply tx_bind_Ok in H; destruct H as (? & ? & ? & H)
  | H : tx_ret _ _ = Ok _ |- _ => apply tx_ret_Ok in H; simplify_eq/=
  | H : tx_err _ _ = Ok _ |- _ => apply tx_err_Ok in H; destruct H
  | H : tx_lift _ _ = Ok _ |- _ => apply tx_lift_Ok in H; destruct H as (? & H & ?); simplify_eq/=
  | H : tx_read _ _ = Ok _ |- _ => apply tx_read_Ok in H; destruct H as (? & H & ?); simplify_eq/=
  | H : map_err _ _ = Ok _ |- _ => apply map_err_Ok in H
  | H : database _ = Ok _ |- _ => apply map_err_Ok in H
  | H : (if decide ?P then tx_err _ else _) _ = Ok _ |- _ => destruct (decide P); [exfalso; by apply tx_err_Ok in H|]
  | H : (if decide ?P then _ else tx_err _) _ = Ok _ |- _ => destruct (decide P); [|exfalso; by apply tx_err_Ok in H]
  | H : (if ?b then tx_err _ else _) _ = Ok _ |- _ => destruct b eqn:?; [exfalso; by apply tx_err_Ok in H|]
  | H : (if ?b then _ else tx_err _) _ = Ok _ |- _ => destruct b eqn:?; [|exfalso; by apply tx_err_Ok in H]
  | H : match ?x with _ => _ end _ = Ok _ |- _ => destruct x eqn:?; try (exfalso; by apply tx_err_Ok in H)
  | u : unit |- _ => destruct u
  end.
Ltac inv_tx := repeat (first [inv_tx_step | inv_ok_step]; simpl in * ).
