(* ===== verification/StateRows.v ===== *)
(** * The rows of a durable client state.

    Models the pure part of [crates/surrealdb-rn-core/src/sync_state.rs]: the metadata and
    component rows a client state is normalized into, their canonical tagged encoding, the
    size budgets, the identity, revision and barrier checks and the record ids. *)

From Stdlib Require Import Strings.Byte.
From S2P Require Import Prelude Protocol Subscription ClientState Validate Canonical NativeErrors Json Wire NativeCodec Engine.

Definition LEGACY_FORMAT_VERSION : Z := 1.
Definition FORMAT_VERSION : Z := 2.
Definition SUBSCRIPTION_FORMAT_VERSION : Z := 3.
Definition STATE_TABLE : string := "_sync_client_state".
Definition META_TABLE : string := "_sync_client_meta".
Definition CONFIRMED_TABLE : string := "_sync_client_confirmed".
Definition OUTBOX_TABLE : string := "_sync_client_outbox".
Definition OUTCOME_TABLE : string := "_sync_client_outcome".
Definition SUBSCRIPTION_RECORD_TABLE : string := "_sync_client_subscription_record".
Definition ID_MAP_TABLE : string := "_sync_client_id_map".
Definition BARRIER_TABLE : string := "_sync_client_scope_barrier".
Definition MIGRATED_SENTINEL : list byte := String.list_byte_of_string "migrated-to-v2".
Definition NATIVE_MAX_IDENTITY_BYTES : N := 512.
Definition MAX_RECORD_ID_BYTES : N := 1024.
Definition MAX_COMPONENT_KEY_BYTES : N := 1024.
Definition MAX_SYNC_STATE_BYTES : N := 4194304.
Definition MAX_COMPONENT_ITEMS : N := 16384.
Definition MAX_AGGREGATE_STATE_BYTES : N := 67108864.

(** [usize] on the 64-bit targets the library is built for. *)
Definition usize_max : N := u64_max.
Definition usize_add (a b : N) : result N SyncStateError :=
  ok_or (checked_add usize_max a b) StateTooLarge.
Definition usize_mul2 (a : N) : result N SyncStateError :=
  if (2 * a <=? usize_max)%N then Ok (2 * a)%N else Err StateTooLarge.

Abbreviation StoredSyncState := (DurableClientState JsonValue).

Record SyncStateKey := mkKey { k_partition_id : PartitionId; k_client_id : ClientId }.
#[export] Instance SyncStateKey_eq_dec : EqDecision SyncStateKey.
Proof. solve_decision. Defined.

Definition state_key (s : StoredSyncState) : SyncStateKey :=
  mkKey (st_partition_id s) (st_client_id s).

Inductive SyncStateWrite := Applied | AlreadyCurrent.
#[export] Instance SyncStateWrite_eq_dec : EqDecision SyncStateWrite.
Proof. solve_decision. Defined.

Record StateMeta := mkMeta {
  sm_partition_id : string;
  sm_client_id : string;
  sm_requested_scope : string;
  sm_subscription_revision : string;
  sm_revision : string;
  sm_checkpoint : option Checkpoint;
  sm_reset_coverage : option ResetCoverage;
  sm_subscriptions : option (DurableSubscriptions JsonValue);
  sm_subscription_record_keys : list string;
  sm_confirmed_keys : list RecordId;
  sm_outbox_keys : list string;
  sm_outcome_keys : list string;
  sm_id_map_keys : list RecordId;
}.

(** [ComponentAddress]: table and key, ordered lexicographically. *)
Abbreviation ComponentAddress := (string * string)%type.
Definition address (table key : string) : ComponentAddress := (table, key).

Definition addr_le {A} (p q : ComponentAddress * A) : Prop :=
  str_lt p.1.1 q.1.1 ∨ (p.1.1 = q.1.1 ∧ String.le p.1.2 q.1.2).
#[export] Instance addr_le_dec {A} : RelDecision (@addr_le A).
Proof. intros p q. unfold addr_le. apply _. Defined.

(** Iteration over a [BTreeMap<ComponentAddress, _>]. *)
Definition addr_entries {A} (m : gmap ComponentAddress A) : list (ComponentAddress * A) :=
  merge_sort addr_le (map_to_list m).

Record NormalizedRows := mkRows {
  nr_format_version : Z;
  nr_meta : list byte;
  nr_components : gmap ComponentAddress (list byte);
}.

(** ** Checks *)

Definition validate_key (key : SyncStateKey) : result unit SyncStateError :=
  if decide ((NATIVE_MAX_IDENTITY_BYTES < str_len (k_partition_id key))%N
             ∨ (NATIVE_MAX_IDENTITY_BYTES < str_len (k_client_id key))%N)
  then Err IdentityTooLarge else Ok tt.

Definition validate_component_key (value : string) : result unit SyncStateError :=
  if decide (value = "" ∨ (MAX_COMPONENT_KEY_BYTES < str_len value)%N)
  then Err IdentityTooLarge else Ok tt.

Definition validate_next_revision (expected_revision : option N) (revision : N)
  : result unit SyncStateError :=
  let? expected_next :=
    match expected_revision with
    | Some expected => ok_or (checked_add u64_max expected 1) RevisionMismatch
    | None => Ok 0%N
    end in
  if decide (revision ≠ expected_next) then Err RevisionMismatch else Ok tt.

Definition validate_stored_envelope (key : SyncStateKey) (stored : StoredRecord)
  : result unit SyncStateError :=
  if decide (sr_format_version stored ≠ LEGACY_FORMAT_VERSION
             ∨ sr_partition_id stored ≠ k_partition_id key
             ∨ sr_client_id stored ≠ k_client_id key)
  then Err CorruptState else Ok tt.

Definition validate_meta_row_version (key : SyncStateKey) (row : StoredMetaRow)
    (max_version : Z) : result unit SyncStateError :=
  if (MAX_SYNC_STATE_BYTES <? vec_len (mr_payload row))%N then Err StateTooLarge else
  if decide (¬ (FORMAT_VERSION ≤ mr_format_version row ≤ max_version)%Z
             ∨ mr_partition_id row ≠ k_partition_id key
             ∨ mr_client_id row ≠ k_client_id key)
  then Err CorruptState else Ok tt.

Definition validate_meta_row (key : SyncStateKey) (row : StoredMetaRow)
  : result unit SyncStateError :=
  validate_meta_row_version key row SUBSCRIPTION_FORMAT_VERSION.

Definition parse_revision (revision : string) : result N SyncStateError :=
  match parse_u64 revision with
  | None => Err CorruptState
  | Some parsed =>
      if decide (u64_to_string parsed ≠ revision) then Err CorruptState else Ok parsed
  end.

(** [values.windows(2).all(|pair| pair[0] < pair[1])] *)
Definition strictly_sorted (values : list string) : bool :=
  forallb (λ p, bool_decide (str_lt p.1 p.2)) (windows2 values).

Definition validate_scope_barrier (barrier : option ScopeBarrier)
  : result unit SyncStateError :=
  match barrier with
  | None => Ok tt
  | Some value =>
      if decide ((sb_reason value ≠ "pending_quarantine_required"
                  ∧ sb_reason value ≠ "needs_new_scope_journal")
                 ∨ (NATIVE_MAX_IDENTITY_BYTES < str_len (sb_required_scope value))%N
                 ∨ canonical_u64 (sb_required_subscription_revision value) = None
                 ∨ canonical_u64 (sb_required_authorization_revision value) = None)
      then Err CorruptState else Ok tt
  end.

Lemma parse_revision_Ok s n : parse_revision s = Ok n ↔ s = u64_to_string n ∧ is_u64 n.
Proof.
  rewrite <-canonical_u64_Some. unfold parse_revision, canonical_u64.
  destruct (parse_u64 s) as [m|]; [|naive_solver].
  destruct (decide (u64_to_string m = s)); destruct (decide (u64_to_string m ≠ s)); naive_solver.
Qed.

Lemma strictly_sorted_spec l : strictly_sorted l = true ↔ Sorted str_lt l.
Proof.
  unfold strictly_sorted. rewrite forallb_true_Forall, <-Forall_windows2.
  apply Forall_proper; [|done]. intros p. apply bool_decide_eq_true.
Qed.

Section rows.
Context `{!SurrealTypes}.

(** ** Record ids *)

Definition record_id (key : SyncStateKey) : rid :=
  array_rid STATE_TABLE [k_partition_id key; k_client_id key].
Definition meta_record_id (key : SyncStateKey) : rid :=
  array_rid META_TABLE [k_partition_id key; k_client_id key].
Definition component_record_id (key : SyncStateKey) (item : ComponentAddress) : rid :=
  array_rid item.1 [k_partition_id key; k_client_id key; item.2].
Definition scope_barrier_record_id (key : SyncStateKey) : rid :=
  array_rid BARRIER_TABLE [k_partition_id key; k_client_id key].

Definition native_record_id (record_id : RecordId) : result rid SyncStateError :=
  if (MAX_RECORD_ID_BYTES <? str_len record_id)%N then Err UnsupportedRecordId else
  match parse_simple record_id with
  | None => Err UnsupportedRecordId
  | Some (table, key) =>
      if decide (table ∈ [STATE_TABLE; META_TABLE; CONFIRMED_TABLE; OUTBOX_TABLE;
                          OUTCOME_TABLE; ID_MAP_TABLE])
      then Err UnsupportedRecordId else Ok (mkRid table key)
  end.

(** ** Tagged payloads *)

(** [serde_json] on [TaggedJson]: its bytes and what its reader makes of bytes. *)
Class JsonText := {
  tagged_to_vec : TaggedJson → result (list byte) unit;
  tagged_from_slice : list byte → result TaggedJson unit;
}.

Context `{!JsonFloatText, !JsonText}.

Definition encode_tagged {T} `{!SerdeJson T} (value : T)
  : result (list byte) SyncStateError :=
  let? value := map_err (λ _, EncodeError) (to_value value) in
  let? bytes := map_err (λ _, EncodeError) (tagged_to_vec (tag_json value)) in
  if (MAX_SYNC_STATE_BYTES <? vec_len bytes)%N then Err StateTooLarge else Ok bytes.

Definition decode_tagged {T} `{!SerdeJson T} (bytes : list byte)
  : result T SyncStateError :=
  if (MAX_SYNC_STATE_BYTES <? vec_len bytes)%N then Err StateTooLarge else
  let? tagged := map_err (λ _, DecodeError) (tagged_from_slice bytes) in
  let? canonical := map_err (λ _, EncodeError) (tagged_to_vec tagged) in
  if decide (canonical ≠ bytes) then Err CorruptState else
  let? value := ok_or (untag_json tagged) CorruptState in
  map_err (λ _, DecodeError) (from_value value).

(** The types the journal stores. *)
Class StateSerde := {
  #[global] serde_meta :: SerdeJson StateMeta;
  #[global] serde_state :: SerdeJson StoredSyncState;
  #[global] serde_record_state :: SerdeJson (RecordState JsonValue);
  #[global] serde_commit :: SerdeJson (ClientCommit JsonValue);
  #[global] serde_resolved :: SerdeJson (ResolvedCommit JsonValue);
  #[global] serde_record_id :: SerdeJson string;
  #[global] serde_row :: SerdeJson (SubscriptionRow JsonValue);
  #[global] serde_key_triple :: SerdeJson (string * string * string);
}.
Context `{!StateSerde}.

(** ** Normalization *)

Definition take_records (subs : DurableSubscriptions JsonValue)
  : DurableSubscriptions JsonValue :=
  mkSubs (requests subs) (slots subs) ∅ (cancelled subs) (authorization_scope subs).

Definition state_meta (state : StoredSyncState) : StateMeta :=
  mkMeta (st_partition_id state) (st_client_id state) (st_requested_scope state)
    (u64_to_string (st_subscription_revision state)) (u64_to_string (st_revision state))
    (st_checkpoint state) (st_reset_coverage state)
    (take_records <$> st_subscriptions state)
    (btree_keys (default ∅ (records <$> st_subscriptions state)))
    (btree_keys (st_confirmed state))
    (commit_id <$> st_outbox state)
    ((λ o, commit_id (local_commit o)) <$> st_outcomes state)
    (btree_keys (st_id_map state)).

(** [components.insert(address(table, key), encode_tagged(value)?)] *)
Definition insert_component {T} `{!SerdeJson T} (table : string)
    (components : gmap ComponentAddress (list byte)) (kv : string * T)
  : result (gmap ComponentAddress (list byte)) SyncStateError :=
  let? bytes := encode_tagged kv.2 in Ok (<[address table kv.1 := bytes]> components).

(** The sum of the payloads, [try_fold] with [checked_add]. *)
Definition total_bytes (meta : list byte) (components : gmap ComponentAddress (list byte))
  : result N SyncStateError :=
  try_fold (λ total kv, usize_add total (vec_len kv.2)) (vec_len meta)
    (addr_entries components).

Definition state_count (state : StoredSyncState) : result N SyncStateError :=
  let? n := usize_add (map_len (st_confirmed state))
              (match st_subscriptions state with
               | Some subs => map_len (records subs) | None => 0%N end) in
  let? n := usize_add n (vec_len (st_outbox state)) in
  let? n := usize_add n (vec_len (st_outcomes state)) in
  usize_add n (map_len (st_id_map state)).

Definition normalize_state (state : StoredSyncState) : result NormalizedRows SyncStateError :=
  let? count := state_count state in
  if (MAX_COMPONENT_ITEMS <? count)%N then Err StateTooLarge else
  let? _ := try_for_each validate_component_key (btree_keys (st_confirmed state)) in
  let? _ := try_for_each (λ c, validate_component_key (commit_id c)) (st_outbox state) in
  let? _ := try_for_each (λ o, validate_component_key (commit_id (local_commit o)))
              (st_outcomes state) in
  let? _ := try_for_each (λ kv,
              let? _ := validate_component_key kv.1 in validate_component_key kv.2)
              (btree_entries (st_id_map state)) in
  let subscription_records := default ∅ (records <$> st_subscriptions state) in
  let? _ := try_for_each validate_component_key (btree_keys subscription_records) in
  let? meta := encode_tagged (state_meta state) in
  let? components := try_fold (insert_component SUBSCRIPTION_RECORD_TABLE) ∅
                       (btree_entries subscription_records) in
  let? components := try_fold (insert_component CONFIRMED_TABLE) components
                       (btree_entries (st_confirmed state)) in
  let? components := try_fold (insert_component OUTBOX_TABLE) components
                       ((λ c, (commit_id c, c)) <$> st_outbox state) in
  let? components := try_fold (insert_component OUTCOME_TABLE) components
                       ((λ o, (commit_id (local_commit o), o)) <$> st_outcomes state) in
  let? components := try_fold (insert_component ID_MAP_TABLE) components
                       (btree_entries (st_id_map state)) in
  let? total := total_bytes meta components in
  if (MAX_AGGREGATE_STATE_BYTES <? total)%N then Err StateTooLarge else
  Ok (mkRows (match st_subscriptions state with
              | Some _ => SUBSCRIPTION_FORMAT_VERSION | None => FORMAT_VERSION end)
        meta components).

(** The budget of a state: payload bytes and components, the metadata included. *)
Definition normalized_budget (rows : NormalizedRows) : result (N * N) SyncStateError :=
  let? bytes := total_bytes (nr_meta rows) (nr_components rows) in
  Ok (bytes, (N.of_nat (size (nr_components rows)) + 1)%N).

Definition state_budget (state : StoredSyncState) : result (N * N) SyncStateError :=
  let? rows := normalize_state state in normalized_budget rows.

Definition prepare_state_write (expected_revision : option N) (state : StoredSyncState)
  : result (SyncStateKey * NormalizedRows) SyncStateError :=
  let key := state_key state in
  let? _ := validate_key key in
  let? _ := validate_next_revision expected_revision (st_revision state) in
  let? _ := map_err InvalidState (validate state) in
  let? rows := normalize_state state in
  Ok (key, rows).

Definition decode_record (key : SyncStateKey) (stored : StoredRecord)
  : result StoredSyncState SyncStateError :=
  let? _ := validate_stored_envelope key stored in
  if (MAX_SYNC_STATE_BYTES <? vec_len (sr_payload stored))%N then Err StateTooLarge else
  let? revision := parse_revision (sr_revision stored) in
  let? state := map_err (λ _, DecodeError) (from_slice (sr_payload stored)) in
  if decide (st_partition_id state ≠ k_partition_id key
             ∨ st_client_id state ≠ k_client_id key
             ∨ st_revision state ≠ revision)
  then Err CorruptState else
  let? _ := map_err InvalidState (validate state) in
  Ok state.
End rows.
