(* ===== verification/StateLoad.v ===== *)
(** * Reading a client state back.

    Models the readers of [crates/surrealdb-rn-core/src/sync_state.rs]: [load_v2] with its
    inventory, the scalar preflight, the coherent inspection and the whole-store ownership
    check.  A reader is a function of the database it sees. *)

From Stdlib Require Import Strings.Byte.
From S2P Require Import Prelude Protocol Subscription ClientState Validate Canonical NativeErrors Json Wire NativeCodec Engine StateRows.

Section load.
Context `{!SurrealTypes, !Engine, !JsonFloatText, !JsonText, !StateSerde}.

(** [Connection]: [Client] and [Transaction] read the same way; [Inspection] skips the
    tables that do not exist. *)
Inductive Connection := Direct | Inspection (tables : gset string).

Definition skips (connection : Connection) (table : string) : bool :=
  match connection with
  | Direct => false
  | Inspection tables => bool_decide (table ∉ tables)
  end.

Definition connection_meta (connection : Connection) (id : rid) (d : db)
  : result (option StoredMetaRow) SyncStateError :=
  if skips connection META_TABLE then Ok None
  else let? m := select_as row_to_meta id d in Ok (fst <$> m).

Definition COMPONENT_TABLES : list string :=
  [CONFIRMED_TABLE; OUTBOX_TABLE; OUTCOME_TABLE; ID_MAP_TABLE; SUBSCRIPTION_RECORD_TABLE].

Definition SELECT_LIMIT : nat := N.to_nat 16385.

Definition connection_components (connection : Connection) (table : string)
    (key : SyncStateKey) (d : db) : result (list StoredComponentRow) SyncStateError :=
  if skips connection table then Ok [] else
  if decide (table ∈ COMPONENT_TABLES) then
    select_where_as row_to_component table
      (λ _ x, owned_by (k_partition_id key) (k_client_id key) x) SELECT_LIMIT d
  else Err CorruptState.

Abbreviation Inventory := (gmap ComponentAddress (list byte)).

Definition inventory_row (key : SyncStateKey) (table : string) (inventory : Inventory)
    (row : StoredComponentRow) : result Inventory SyncStateError :=
  if decide ((cr_format_version row ≠ FORMAT_VERSION
              ∧ cr_format_version row ≠ SUBSCRIPTION_FORMAT_VERSION)
             ∨ cr_partition_id row ≠ k_partition_id key
             ∨ cr_client_id row ≠ k_client_id key
             ∨ (MAX_SYNC_STATE_BYTES < vec_len (cr_payload row))%N)
  then Err CorruptState else
  let? _ := validate_component_key (cr_component_key row) in
  let item := address table (cr_component_key row) in
  if decide (is_Some (inventory !! item)) then Err CorruptState else
  let inventory := <[item := cr_payload row]> inventory in
  if (MAX_COMPONENT_ITEMS <? N.of_nat (size inventory))%N then Err StateTooLarge
  else Ok inventory.

Definition load_inventory (connection : Connection) (key : SyncStateKey) (d : db)
  : result Inventory SyncStateError :=
  try_fold (λ inventory table,
    let? rows := connection_components connection table key d in
    if (MAX_COMPONENT_ITEMS <? vec_len rows)%N then Err StateTooLarge else
    try_fold (inventory_row key table) inventory rows) ∅ COMPONENT_TABLES.

Definition take_component (inventory : Inventory) (item : ComponentAddress)
  : result (list byte * Inventory) SyncStateError :=
  let? bytes := ok_or (inventory !! item) CorruptState in
  Ok (bytes, delete item inventory).

(** [for key in keys { take; decode; check; push }]: the decoded values in key order.
    [wanted] is the precondition some loops check between the two first steps. *)
Definition take_values {T} `{!SerdeJson T} (table : string) (wanted : bool)
    (check : string → T → bool) (inventory : Inventory) (keys : list string)
  : result (list (string * T) * Inventory) SyncStateError :=
  try_fold (λ acc key,
    let? (bytes, inventory) := take_component acc.2 (address table key) in
    if negb wanted then Err CorruptState else
    let? value := decode_tagged bytes in
    if check key value then Ok (acc.1 ++ [(key, value)], inventory) else Err CorruptState)
    ([], inventory) keys.

Definition load_v2 (connection : Connection) (key : SyncStateKey) (d : db)
  : result (option StoredSyncState) SyncStateError :=
  let? inventory := load_inventory connection key d in
  let? row := connection_meta connection (meta_record_id key) d in
  match row with
  | None => if decide (inventory = ∅) then Ok None else Err CorruptState
  | Some row =>
      let? _ := validate_meta_row key row in
      let? meta := decode_tagged (T := StateMeta) (mr_payload row) in
      if decide (bool_decide (mr_format_version row = SUBSCRIPTION_FORMAT_VERSION)
                 ≠ bool_decide (is_Some (sm_subscriptions meta)))
      then Err CorruptState else
      if decide (sm_partition_id meta ≠ k_partition_id key
                 ∨ sm_client_id meta ≠ k_client_id key
                 ∨ strictly_sorted (sm_confirmed_keys meta) = false
                 ∨ strictly_sorted (sm_subscription_record_keys meta) = false
                 ∨ strictly_sorted (sm_id_map_keys meta) = false)
      then Err CorruptState else
      let? count := usize_add (vec_len (sm_confirmed_keys meta))
                      (vec_len (sm_subscription_record_keys meta)) in
      let? count := usize_add count (vec_len (sm_outbox_keys meta)) in
      let? count := usize_add count (vec_len (sm_outcome_keys meta)) in
      let? count := usize_add count (vec_len (sm_id_map_keys meta)) in
      if (MAX_COMPONENT_ITEMS <? count)%N then Err StateTooLarge else
      let? aggregate := total_bytes (mr_payload row) inventory in
      if (MAX_AGGREGATE_STATE_BYTES <? aggregate)%N then Err StateTooLarge else
      let? (confirmed, inventory) :=
        take_values CONFIRMED_TABLE true (λ _ (_ : RecordState JsonValue), true) inventory
          (sm_confirmed_keys meta) in
      let? (outbox, inventory) :=
        take_values OUTBOX_TABLE true (λ k c, bool_decide (commit_id c = k)) inventory
          (sm_outbox_keys meta) in
      let? (outcomes, inventory) :=
        take_values OUTCOME_TABLE true (λ k o, bool_decide (commit_id (local_commit o) = k))
          inventory (sm_outcome_keys meta) in
      let? (id_map, inventory) :=
        take_values ID_MAP_TABLE true (λ _ (_ : string), true) inventory (sm_id_map_keys meta) in
      if decide (is_some_and (λ subs, records subs ≠ ∅) (sm_subscriptions meta))
      then Err CorruptState else
      let? (rows, inventory) :=
        take_values SUBSCRIPTION_RECORD_TABLE (bool_decide (is_Some (sm_subscriptions meta)))
          (λ _ (_ : SubscriptionRow JsonValue), true) inventory (sm_subscription_record_keys meta) in
      if decide (inventory ≠ ∅) then Err CorruptState else
      let? subscription_revision := parse_revision (sm_subscription_revision meta) in
      let? revision := parse_revision (sm_revision meta) in
      let subscriptions :=
        (λ subs, mkSubs (requests subs) (slots subs) (list_to_map rows) (cancelled subs)
                   (authorization_scope subs)) <$> sm_subscriptions meta in
      let state :=
        mkState (sm_partition_id meta) (sm_client_id meta) (sm_requested_scope meta)
          subscription_revision revision (list_to_map confirmed) outbox.*2 outcomes.*2
          (sm_checkpoint meta) (sm_reset_coverage meta) (list_to_map id_map)
          subscriptions in
      let? _ := map_err InvalidState (validate state) in
      Ok (Some state)
  end.

Definition transaction_state_after_preflight (key : SyncStateKey) (d : db)
  : result StoredSyncState SyncStateError :=
  let? state := load_v2 Direct key d in ok_or state CorruptState.

Definition load_barrier_row (key : SyncStateKey) (d : db)
  : result (option ScopeBarrier) SyncStateError :=
  select_as row_to_barrier (scope_barrier_record_id key) d.

(** ** The scalar preflight *)

Record InspectionLengths := mkLengths {
  il_payload_bytes : N;
  il_partition_bytes : N;
  il_client_bytes : N;
  il_key_bytes : N;
}.

Definition inspection_length_budget (row : InspectionLengths) (component : bool)
    (acc : N * N) : result (N * N) SyncStateError :=
  if decide ((MAX_SYNC_STATE_BYTES < il_payload_bytes row)%N
             ∨ (6 * NATIVE_MAX_IDENTITY_BYTES + 2 < il_partition_bytes row)%N
             ∨ (6 * NATIVE_MAX_IDENTITY_BYTES + 2 < il_client_bytes row)%N
             ∨ (6 * MAX_COMPONENT_KEY_BYTES + 2 < il_key_bytes row)%N)
  then Err StateTooLarge else
  let? aggregate := usize_add acc.1 (il_payload_bytes row) in
  let? count := usize_add acc.2 (if component then 1 else 0)%N in
  if decide ((MAX_AGGREGATE_STATE_BYTES < aggregate)%N ∨ (MAX_COMPONENT_ITEMS < count)%N)
  then Err StateTooLarge else Ok (aggregate, count).

(** The projection of the query: lengths of the payload and of the encoded identities. *)
Definition lengths_of (payload : list byte) (partition client : string) (key : N)
  : InspectionLengths :=
  mkLengths (vec_len payload) (sql_json_len partition) (sql_json_len client) key.

Definition PREFLIGHT_TABLES : list string :=
  [META_TABLE; STATE_TABLE; CONFIRMED_TABLE; OUTBOX_TABLE; OUTCOME_TABLE; ID_MAP_TABLE;
   SUBSCRIPTION_RECORD_TABLE].
Definition is_component_table (table : string) : bool :=
  bool_decide (table ≠ META_TABLE ∧ table ≠ STATE_TABLE).

Definition preflight_rows (key : SyncStateKey) (table : string) (d : db)
  : result (list InspectionLengths) SyncStateError :=
  if is_component_table table then
    let? rows := select_where_as row_to_component table
      (λ _ x, owned_by (k_partition_id key) (k_client_id key) x) SELECT_LIMIT d in
    Ok ((λ r, lengths_of (cr_payload r) (cr_partition_id r) (cr_client_id r)
                (sql_json_len (cr_component_key r))) <$> rows)
  else if decide (table = STATE_TABLE) then
    let? row := select_as row_to_state (record_id key) d in
    Ok ((λ r, lengths_of (sr_payload r) (sr_partition_id r) (sr_client_id r)
                (sql_json_len (sr_revision r))) <$> option_list row)
  else
    let? row := select_as row_to_meta (meta_record_id key) d in
    Ok ((λ r, lengths_of (mr_payload r.1) (mr_partition_id r.1) (mr_client_id r.1) 0)
          <$> option_list row).

Definition preflight_row (table : string) (acc : N * N) (row : InspectionLengths)
  : result (N * N) SyncStateError :=
  if decide (table = STATE_TABLE) then
    if (6 * 20 + 2 <? il_key_bytes row)%N then Err StateTooLarge else
    let? _ := inspection_length_budget row false (0%N, 0%N) in Ok acc
  else inspection_length_budget row (is_component_table table) acc.

Definition barrier_too_long (b : ScopeBarrier) : Prop :=
  (6 * 32 + 2 < sql_json_len (sb_reason b))%N
  ∨ (6 * NATIVE_MAX_IDENTITY_BYTES + 2 < sql_json_len (sb_required_scope b))%N
  ∨ (6 * 20 + 2 < sql_json_len (sb_required_subscription_revision b))%N
  ∨ (6 * 20 + 2 < sql_json_len (sb_required_authorization_revision b))%N.
#[export] Instance barrier_too_long_dec b : Decision (barrier_too_long b).
Proof. unfold barrier_too_long. apply _. Defined.

(** Encoded bytes and components, the metadata included. *)
Definition preflight_inspection (tables : gset string) (key : SyncStateKey) (d : db)
  : result (N * N) SyncStateError :=
  let selected := filter (λ table, table ∈ tables) PREFLIGHT_TABLES in
  let has_barrier := bool_decide (BARRIER_TABLE ∈ tables) in
  if decide (selected = [] ∧ has_barrier = false) then Ok (0, 1)%N else
  let? rows := try_map (λ table, let? l := preflight_rows key table d in Ok (table, l))
                 selected in
  let? barrier := if has_barrier then load_barrier_row key d else Ok None in
  let? acc := try_fold (λ acc tl, try_fold (preflight_row tl.1) acc tl.2)
                (0, 0)%N rows in
  if decide (is_some_and barrier_too_long barrier) then Err StateTooLarge
  else Ok (acc.1, (acc.2 + 1)%N).

(** ** Coherent inspection *)

(** The migration sentinel of a state that has been normalized. *)
Definition sentinel_check (key : SyncStateKey) (state : StoredSyncState)
    (sentinel : StoredRecord) : result unit SyncStateError :=
  if decide (sr_format_version sentinel ≠ FORMAT_VERSION
             ∨ sr_partition_id sentinel ≠ k_partition_id key
             ∨ sr_client_id sentinel ≠ k_client_id key
             ∨ sr_payload sentinel ≠ MIGRATED_SENTINEL)
  then Err CorruptState else
  let? revision := parse_revision (sr_revision sentinel) in
  if (st_revision state <? revision)%N then Err CorruptState else Ok tt.

Definition inspect_known_tables (tables : gset string) (key : SyncStateKey) (d : db)
  : result (option StoredSyncState * option ScopeBarrier) SyncStateError :=
  let? _ := validate_key key in
  let? _ := preflight_inspection tables key d in
  let? state := load_v2 (Inspection tables) key d in
  let? legacy := if decide (STATE_TABLE ∈ tables)
                 then select_as row_to_state (record_id key) d else Ok None in
  let? state :=
    match state, legacy with
    | Some state, Some sentinel =>
        let? _ := sentinel_check key state sentinel in Ok (Some state)
    | Some state, None => Ok (Some state)
    | None, Some legacy => let? state := decode_record key legacy in Ok (Some state)
    | None, None => Ok None
    end in
  let? barrier := if decide (BARRIER_TABLE ∈ tables)
                  then load_barrier_row key d else Ok None in
  let? _ := validate_scope_barrier barrier in
  if decide (state = None ∧ is_Some barrier) then Err CorruptState
  else Ok (state, barrier).

Definition inspect_transaction (key : SyncStateKey) (d : db)
  : result (option StoredSyncState * option ScopeBarrier) SyncStateError :=
  let? _ := validate_key key in
  let? info := database (db_info d) in
  match info with
  | None => Ok (None, None)
  | Some tables => inspect_known_tables tables key d
  end.

(** ** Whole-store ownership *)

Definition JOURNAL_TABLES : list string :=
  [STATE_TABLE; META_TABLE; CONFIRMED_TABLE; OUTBOX_TABLE; OUTCOME_TABLE; ID_MAP_TABLE;
   SUBSCRIPTION_RECORD_TABLE; BARRIER_TABLE].

Definition journal_owner (key : SyncStateKey) (table : string) (r : rid) (x : row) : bool :=
  if decide (table = BARRIER_TABLE)
  then record_key_is r [k_partition_id key; k_client_id key]
  else
    owned_by (k_partition_id key) (k_client_id key) x
    && (if decide (table = STATE_TABLE ∨ table = META_TABLE)
        then record_key_is r [k_partition_id key; k_client_id key]
        else match row_component_key x with
             | Some k =>
                 record_key_is r [k_partition_id key; k_client_id key; k]
                 && negb (str_is_empty k) && (str_len k <=? 1024)%N
             | None => false
             end).

(** [SELECT VALUE true FROM table WHERE NOT (owner) LIMIT 1; SELECT VALUE true FROM table
    LIMIT 1]: refuse a foreign row, report whether there is any. *)
Definition table_occupied (owner : rid → row → bool) (table : string) (d : db)
  : result bool SyncStateError :=
  let? foreign := database (db_select_where d table (λ r x, negb (owner r x)) 1) in
  let? present := database (db_select_where d table (λ _ _, true) 1) in
  if decide (foreign ≠ []) then Err CorruptState
  else Ok (bool_decide (present ≠ [])).

Definition journal_inspect_all_owners (tables : gset string) (key : SyncStateKey) (d : db)
  : result bool SyncStateError :=
  try_fold (λ occupied table,
    if decide (table ∈ tables) then
      let? present := table_occupied (journal_owner key table) table d in
      Ok (occupied || present)
    else Ok occupied) false JOURNAL_TABLES.
End load.
