(* ===== verification/Stage.v ===== *)
(** * The staged bootstrap of a journal: inspection, budgets and fences.

    Models the part of [crates/surrealdb-rn-core/src/sync_bootstrap_store.rs] below its
    public operations: the stage read from storage and its integrity checks, the
    conservative budgets, the rotating fence in the journal's metadata row and the guards
    ordinary journal writes run against a stage. *)

From Stdlib Require Import Strings.Byte.
From S2P Require Import Prelude Protocol Subscription ClientState Validate Canonical HttpCodec BootstrapCodec NativeErrors Json Wire NativeCodec Engine StateRows StateLoad.

Definition HEADER : string := "_sync_bootstrap_header".
Definition PAGE : string := "_sync_bootstrap_page".
Definition FINAL_OVERHEAD : N := 3 * MAX_SYNC_STATE_BYTES.

Record Stage := mkStage {
  sg_header : Header;
  sg_manifest : BootstrapManifest;
  sg_pages : gmap N (list byte);
}.

(** Iteration over [BTreeMap<u64, Vec<u8>>]. *)
Definition page_le {A} (p q : N * A) : Prop := (p.1 ≤ q.1)%N.
#[export] Instance page_le_dec {A} : RelDecision (@page_le A).
Proof. intros p q. unfold page_le. apply _. Defined.
Definition page_entries {A} (m : gmap N A) : list (N * A) :=
  merge_sort page_le (map_to_list m).

(** ** Contexts *)

Definition same_owner (a b : BootstrapContext) : bool :=
  bool_decide (bc_authority_id a = bc_authority_id b
    ∧ bc_principal_id a = bc_principal_id b
    ∧ bc_partition_id a = bc_partition_id b
    ∧ bc_client_id a = bc_client_id b
    ∧ bc_journal_generation a = bc_journal_generation b
    ∧ scope_identity (bc_scope a) = scope_identity (bc_scope b)
    ∧ scope_subscription_revision (bc_scope a) = scope_subscription_revision (bc_scope b)).

Definition admit_context (previous incoming : BootstrapContext) (terminal : bool)
  : result unit SyncStateError :=
  if decide (same_owner previous incoming = false
             ∨ (authorization_revision (bc_scope incoming)
                < authorization_revision (bc_scope previous))%N
             ∨ (terminal = false ∧ previous ≠ incoming))
  then Err RevisionConflict else Ok tt.

Definition context_key (c : BootstrapContext) : SyncStateKey :=
  mkKey (bc_partition_id c) (bc_client_id c).

(** ** Fences *)

Definition parse_fence (raw : string) : result N SyncStateError :=
  match parse_u64 raw with
  | None => Err CorruptState
  | Some number =>
      if decide (u64_to_string number ≠ raw) then Err CorruptState else Ok number
  end.

(** [raw.split_once(':')] *)
Fixpoint split_colon (raw : string) : option (string * string) :=
  match raw with
  | "" => None
  | String a raw =>
      if decide (a = Ascii.ascii_of_N 58) then Some ("", raw)
      else prod_map (String a) id <$> split_colon raw
  end.

Definition parse_metadata_fence (raw : string) : result (N * bool) SyncStateError :=
  let? (counter, active) := ok_or (split_colon raw) CorruptState in
  let? active := if decide (active = "a") then Ok true
                 else if decide (active = "i") then Ok false else Err CorruptState in
  let? counter := parse_fence counter in
  Ok (counter, active).

Definition format_fence (counter : N) (active : bool) : string :=
  u64_to_string counter +:+ ":" +:+ (if active then "a" else "i").

Definition next_fence (raw : option string) : result string SyncStateError :=
  let? (counter, active) :=
    match raw with None => Ok (0%N, true) | Some v => parse_metadata_fence v end in
  let? next := ok_or (checked_add u64_max counter 1) StateTooLarge in
  Ok (format_fence next active).

Definition check_inactive_budget (budget : N * N) : result unit SyncStateError :=
  let? bytes := usize_add budget.1 (MAX_SYNC_STATE_BYTES + 65536) in
  let? count := usize_add budget.2 4 in
  if decide ((MAX_AGGREGATE_STATE_BYTES < bytes)%N ∨ (MAX_COMPONENT_ITEMS < count)%N)
  then Err StateTooLarge else Ok tt.

Section stage.
Context `{!SurrealTypes, !Engine, !JsonFloatText, !JsonText, !StateSerde, !Ciborium, !Sha256}.

Definition header_id (key : SyncStateKey) : rid :=
  array_rid HEADER [k_partition_id key; k_client_id key].
Definition page_id (key : SyncStateKey) (index : N) : rid :=
  array_rid PAGE [k_partition_id key; k_client_id key; u64_to_string index].

(** [.map_err(|_| SyncStateError::CorruptState)] *)
Definition corrupt {A} (r : result A CodecError) : result A SyncStateError :=
  map_err (λ _, CorruptState) r.

Definition validate_header (start : list byte) (manifest : BootstrapManifest)
    (expected : BootstrapContext) : result unit SyncStateError :=
  let? start := corrupt (decode_bootstrap_start start) in
  corrupt (validate_bootstrap_manifest_context manifest start expected).

Definition validate_page (manifest : BootstrapManifest) (page : BootstrapPage)
  : result unit SyncStateError :=
  if decide (bp_session_id page ≠ bm_session_id manifest) then Err CorruptState else
  let? digest := corrupt (bootstrap_manifest_digest manifest) in
  if decide (bp_manifest_digest page ≠ digest ∨ (bm_page_count manifest ≤ bp_index page)%N)
  then Err CorruptState else Ok tt.

(** ** Budgets *)

(** The record as it will be stored, or the reason it cannot be. *)
Definition native_snapshot_state (state : RecordState CanonicalValue)
  : result (RecordState JsonValue) SyncStateError :=
  match state with
  | Present value version reference =>
      match value with
      | VObject _ =>
          let? json := map_err (λ _, CorruptState) (canonical_to_json value) in
          let? wire := map_err ValueCodec (from_wire_value json) in
          match wire with
          | SvObject _ => Ok (Present json version reference)
          | _ => Err RecordValueMustBeObject
          end
      | _ => Err RecordValueMustBeObject
      end
  | Tombstone version => Ok (Tombstone version)
  | Absent => Err CorruptState
  end.

Definition reserve_record (sum : N) (record : SnapshotRecord CanonicalValue)
  : result N SyncStateError :=
  let? native_id := native_record_id (snap_record_id record) in
  if String.prefix "_sync_" (r_table native_id) then Err UnsupportedRecordId else
  let? state := native_snapshot_state (snap_state record) in
  let? payload := encode_tagged state in
  let? key := encode_tagged (snap_record_id record) in
  let? bytes := usize_add (vec_len payload) (vec_len key) in
  usize_add sum bytes.

Definition page_reservation (page : BootstrapPage) : result N SyncStateError :=
  try_fold reserve_record 0%N (bp_records page).

(** The loop state of [check_budget]: bytes, components, records, the record ids seen and
    the last of them. *)
Record budget_acc := mkBudget {
  ba_bytes : N;
  ba_count : N;
  ba_records : N;
  ba_ids : gset string;
  ba_last_id : option RecordId;
}.

Definition budget_record (acc : gset string * option RecordId)
    (record : SnapshotRecord CanonicalValue)
  : result (gset string * option RecordId) SyncStateError :=
  let id := snap_record_id record in
  if decide (id ∈ acc.1 ∨ is_some_and (λ last, is_ge (str_cmp last id) = true) acc.2)
  then Err CorruptState else Ok ({[id]} ∪ acc.1, Some id).

(** [encode_tagged(&(partition, client, text))] *)
Definition key_triple (key : SyncStateKey) (text : string) : result (list byte) SyncStateError :=
  encode_tagged (k_partition_id key, k_client_id key, text).

Definition budget_page (key : SyncStateKey) (manifest : BootstrapManifest)
    (acc : budget_acc) (entry : N * list byte) : result budget_acc SyncStateError :=
  let '(index, raw) := entry in
  let? page := corrupt (decode_bootstrap_page raw) in
  let? _ := validate_page manifest page in
  if decide (bp_index page ≠ index) then Err CorruptState else
  let? (ids, last_id) :=
    try_fold budget_record (ba_ids acc, ba_last_id acc) (bp_records page) in
  let? records := ok_or (checked_add u64_max (ba_records acc) (vec_len (bp_records page)))
                    StateTooLarge in
  let? triple := key_triple key (u64_to_string index) in
  let? key_bytes := usize_mul2 (vec_len triple) in
  let? key_bytes := usize_add key_bytes 128 in
  let? reservation := page_reservation page in
  let? bytes := usize_add (ba_bytes acc) (vec_len raw) in
  let? bytes := usize_add bytes reservation in
  let? bytes := usize_add bytes key_bytes in
  let? count := usize_add (ba_count acc) (vec_len (bp_records page) + 1) in
  Ok (mkBudget bytes count records ids last_id).

Definition check_budget (key : SyncStateKey) (current : N * N) (stage : Stage)
  : result unit SyncStateError :=
  let header := sg_header stage in
  if hd_cancelled header then
    if decide (sg_pages stage ≠ ∅) then Err CorruptState else check_inactive_budget current
  else
    let? bytes := usize_mul2 current.1 in
    let? bytes := usize_add bytes FINAL_OVERHEAD in
    let? bytes := usize_add bytes (vec_len (hd_start header) + vec_len (hd_manifest header)) in
    let? count := usize_mul2 current.2 in
    let? count := usize_add count 4 in
    let? acc := try_fold (budget_page key (sg_manifest stage))
                  (mkBudget bytes count 0 ∅ None) (page_entries (sg_pages stage)) in
    let? triple := key_triple key (u64_to_string u64_max) in
    let? bytes := usize_add (ba_bytes acc) (vec_len triple) in
    if decide ((MAX_AGGREGATE_STATE_BYTES < bytes)%N
               ∨ (MAX_COMPONENT_ITEMS < ba_count acc)%N
               ∨ (bm_record_count (sg_manifest stage) < ba_records acc)%N)
    then Err StateTooLarge else Ok tt.

Definition final_budget_page (key : SyncStateKey) (acc : N * N) (entry : N * list byte)
  : result (N * N) SyncStateError :=
  let '(index, raw) := entry in
  let? bytes := usize_add acc.1 (vec_len raw) in
  let? triple := map_err (λ _, StateTooLarge) (key_triple key (u64_to_string index)) in
  let? bytes := usize_add bytes (vec_len triple * 2 + 128) in
  let? count := usize_add acc.2 1 in
  Ok (bytes, count).

Definition final_budget (key : SyncStateKey) (current next : StoredSyncState)
    (stage : Stage) (receipt : list byte) : result unit SyncStateError :=
  let? current := state_budget current in
  let? next := state_budget next in
  let header := (vec_len (hd_start (sg_header stage)) + vec_len (hd_manifest (sg_header stage))
                 + vec_len receipt)%N in
  if (MAX_SYNC_STATE_BYTES <? header)%N then Err StateTooLarge else
  let? bytes := usize_add current.1 next.1 in
  let? bytes := usize_add bytes FINAL_OVERHEAD in
  let? bytes := usize_add bytes header in
  let? count := usize_add current.2 next.2 in
  let? count := usize_add count 4 in
  let? acc := try_fold (final_budget_page key) (bytes, count)
                (page_entries (sg_pages stage)) in
  if decide ((MAX_AGGREGATE_STATE_BYTES < acc.1)%N ∨ (MAX_COMPONENT_ITEMS < acc.2)%N)
  then Err StateTooLarge else Ok tt.

(** ** The fence in storage *)

(** [string::slice(bootstrap_fence, 0, 24)] bounds what is read of it. *)
Definition read_fence (key : SyncStateKey) (d : db) : result (option string) SyncStateError :=
  let? row := select_as row_to_meta (meta_record_id key) d in
  let fence := String.substring 0 24 <$> mjoin (snd <$> row) in
  match fence with
  | Some value => let? _ := parse_metadata_fence value in Ok (Some value)
  | None => Ok None
  end.

Definition write_fence (key : SyncStateKey) (fence : string) : tx unit :=
  λ d, let? d := database (db_set_fence d (meta_record_id key) fence) in Ok (tt, d).

Definition check_barrier (key : SyncStateKey) (d : db) : result unit SyncStateError :=
  let? barrier := database (db_select d (scope_barrier_record_id key)) in
  if decide (is_Some barrier) then Err RevisionConflict else Ok tt.

(** ** Inspection *)

Record Lengths := mkStageLengths { ln_bytes : N; ln_key_bytes : N; ln_canonical : bool }.

Definition option_len (bytes : option (list byte)) : N :=
  match bytes with Some b => vec_len b | None => 0%N end.
Definition option_str_len (s : option string) : N :=
  match s with Some s => str_len s | None => 0%N end.

Definition header_lengths (h : Header) : Lengths :=
  mkStageLengths
    (vec_len (hd_start h) + vec_len (hd_manifest h) + option_len (hd_consumed_receipt h))
    (str_len (hd_incarnation h) + option_str_len (hd_consumed_revision h))
    (bool_decide (hd_format_version h = 1%Z)
     && match hd_consumed_receipt h, hd_consumed_revision h with
        | None, None => true
        | Some _, Some _ => hd_cancelled h
        | _, _ => false
        end).

Definition page_lengths (r : rid) (p : PageRow) : Lengths :=
  mkStageLengths (vec_len (pr_payload p))
    (sql_json_array_len [pr_partition_id p; pr_client_id p; pr_index p])
    (bool_decide (pr_format_version p = 1%Z)
     && record_key_is r [pr_partition_id p; pr_client_id p; pr_index p]).

Definition add_lengths (aggregate : N) (row : Lengths) : result N SyncStateError :=
  if negb (ln_canonical row) then Err CorruptState else
  if decide ((MAX_SYNC_STATE_BYTES < ln_bytes row)%N ∨ (12 * 512 + 128 < ln_key_bytes row)%N)
  then Err StateTooLarge else
  let? aggregate := usize_add aggregate (ln_bytes row) in
  usize_add aggregate (ln_key_bytes row).

(** The rows of [SELECT * FROM _sync_bootstrap_page WHERE .. LIMIT 16385], with their ids. *)
Definition select_pages (key : SyncStateKey) (d : db)
  : result (list (rid * PageRow)) SyncStateError :=
  let? rows := database (db_select_where d PAGE
    (λ _ x, owned_by (k_partition_id key) (k_client_id key) x) SELECT_LIMIT) in
  try_map (λ rx, let? p := ok_or (row_to_page rx.2) DatabaseError in Ok (rx.1, p)) rows.

Definition stage_page_row (key : SyncStateKey) (pages : gmap N (list byte)) (row : PageRow)
  : result (gmap N (list byte)) SyncStateError :=
  let? index := parse_fence (pr_index row) in
  if decide (pr_partition_id row ≠ k_partition_id key
             ∨ pr_client_id row ≠ k_client_id key
             ∨ is_Some (pages !! index))
  then Err CorruptState else Ok (<[index := pr_payload row]> pages).

(** The header checks between the scalar admission and the page payloads. *)
Definition inspect_header (key : SyncStateKey) (header : Header) (no_pages : bool) (d : db)
  : result BootstrapManifest SyncStateError :=
  if decide (bool_decide (is_Some (hd_consumed_receipt header))
             ≠ bool_decide (is_Some (hd_consumed_revision header)))
  then Err CorruptState else
  let? _ :=
    match hd_consumed_revision header with
    | Some revision =>
        let? revision := parse_fence revision in
        if decide (revision = 0%N) then Err CorruptState else
        if negb (hd_cancelled header) then Err CorruptState else Ok tt
    | None => Ok tt
    end in
  let? incarnation := parse_fence (hd_incarnation header) in
  let? fence := read_fence key d in
  let? fence := ok_or fence CorruptState in
  let? (counter, active) := parse_metadata_fence fence in
  if decide (hd_cancelled header = active ∨ (counter < incarnation)%N)
  then Err CorruptState else
  let? manifest := corrupt (decode_bootstrap_manifest (hd_manifest header)) in
  let? _ := validate_header (hd_start header) manifest (bm_context manifest) in
  let? _ :=
    match hd_consumed_receipt header with
    | Some bytes =>
        let? receipt := corrupt (decode_bootstrap_receipt bytes) in
        corrupt (validate_bootstrap_receipt manifest receipt)
    | None => Ok tt
    end in
  if decide (bc_partition_id (bm_context manifest) ≠ k_partition_id key
             ∨ bc_client_id (bm_context manifest) ≠ k_client_id key
             ∨ (hd_cancelled header = true ∧ no_pages = false))
  then Err CorruptState else Ok manifest.

(** [InspectedStage]: the budget of the current state and the stage. *)
Definition inspect_stage_with_tables (tables : gset string) (key : SyncStateKey) (d : db)
  : result ((N * N) * option Stage) SyncStateError :=
  if decide (HEADER ∉ tables ∨ PAGE ∉ tables) then Err CorruptState else
  let? header := select_as row_to_header (header_id key) d in
  let? pages := select_pages key d in
  let headers := header_lengths <$> option_list header in
  let? current := preflight_inspection tables key d in
  let? aggregate :=
    try_fold add_lengths 0%N (headers ++ ((λ rp, page_lengths rp.1 rp.2) <$> pages)) in
  let? aggregate := usize_add aggregate current.1 in
  if decide ((MAX_AGGREGATE_STATE_BYTES < aggregate)%N
             ∨ (MAX_COMPONENT_ITEMS < vec_len pages + vec_len headers + current.2)%N)
  then Err StateTooLarge else
  match header with
  | None => if decide (pages = []) then Ok (current, None) else Err CorruptState
  | Some header =>
      let? manifest := inspect_header key header (bool_decide (pages = [])) d in
      let? pages := try_fold (stage_page_row key) ∅ pages.*2 in
      Ok (current, Some (mkStage header manifest pages))
  end.

Definition inspect_stage (key : SyncStateKey) (d : db)
  : result ((N * N) * option Stage) SyncStateError :=
  let? info := database (db_info d) in
  let? tables := ok_or info DatabaseError in
  inspect_stage_with_tables tables key d.

Definition load_stage (key : SyncStateKey) (d : db) : result (option Stage) SyncStateError :=
  let? (_, stage) := inspect_stage key d in Ok stage.

(** [InspectedStage::current] *)
Definition inspected_current (key : SyncStateKey) (d : db)
  : result StoredSyncState SyncStateError := transaction_state_after_preflight key d.

(** ** The guards of ordinary writes *)

(** [budget] is the normalized size of the state about to be written; the result is the
    fence to write with it. *)
Definition guard_state_write (key : SyncStateKey) (budget : N * N) (d : db)
  : result (option string) SyncStateError :=
  let? fence := read_fence key d in
  match fence with
  | None => Ok None
  | Some fence =>
      let? (_, active) := parse_metadata_fence fence in
      let? stage := load_stage key d in
      let? stage := ok_or stage CorruptState in
      let? _ :=
        if active then
          if hd_cancelled (sg_header stage) then Err CorruptState
          else check_budget key budget stage
        else
          if negb (hd_cancelled (sg_header stage)) then Err CorruptState
          else check_inactive_budget budget in
      let? next := next_fence (Some fence) in
      Ok (Some next)
  end.

Definition guard_barrier_write (key : SyncStateKey) : tx unit :=
  let@ fence := tx_read (read_fence key) in
  match fence with
  | None => tx_ret tt
  | Some fence =>
      let@ inspection := tx_read (inspect_stage key) in
      let@ stage := tx_lift (ok_or inspection.2 CorruptState) in
      let@ state := tx_read (inspected_current key) in
      let@ (_, active) := tx_lift (parse_metadata_fence fence) in
      let@ budget := tx_lift (state_budget state) in
      let@ _ := tx_lift
        (if active then check_budget key budget stage
         else if negb (hd_cancelled (sg_header stage)) then Err CorruptState
         else check_inactive_budget budget) in
      let@ next := tx_lift (next_fence (Some fence)) in
      write_fence key next
  end.

(** ** Whole-store ownership *)

Definition stage_owner (key : SyncStateKey) (table : string) (r : rid) (x : row) : bool :=
  if decide (table = HEADER)
  then record_key_is r [k_partition_id key; k_client_id key]
  else
    owned_by (k_partition_id key) (k_client_id key) x
    && match row_index x with
       | Some index =>
           (str_len index <=? 20)%N
           && record_key_is r [k_partition_id key; k_client_id key; index]
       | None => false
       end.

Definition stage_inspect_all_owners (tables : gset string) (key : SyncStateKey) (d : db)
  : result bool SyncStateError :=
  if decide (bool_decide (HEADER ∈ tables) ≠ bool_decide (PAGE ∈ tables))
  then Err CorruptState else
  let? occupied :=
    try_fold (λ occupied table,
      if decide (table ∈ tables) then
        let? present := table_occupied (stage_owner key table) table d in
        Ok (occupied || present)
      else Ok occupied) false [HEADER; PAGE] in
  let? _ :=
    if decide (occupied = false ∧ META_TABLE ∈ tables) then
      let? fence := read_fence key d in
      if decide (is_Some fence) then Err CorruptState else Ok tt
    else Ok tt in
  if occupied then
    if decide (HEADER ∉ tables ∨ PAGE ∉ tables) then Err CorruptState else
    let? (_, stage) := inspect_stage_with_tables tables key d in
    let? stage := ok_or stage CorruptState in
    let? _ := try_for_each (λ entry,
      let? page := corrupt (decode_bootstrap_page entry.2) in
      if decide (bp_index page ≠ entry.1) then Err CorruptState
      else validate_page (sg_manifest stage) page) (page_entries (sg_pages stage)) in
    Ok true
  else Ok false.
End stage.
