(* ===== verification/StateStore.v ===== *)
(** * The durable state store.

    Models [SyncStateStore] of [crates/surrealdb-rn-core/src/sync_state.rs]: sessions,
    transactions and their completion, the row diff of a state, the projection of
    application records and the operations [define_schema], [load], [inspect],
    [save_atomic], [apply_transition_atomic], [save_scope_barrier].

    Another thread may close the handle or change its session at any moment: every look at
    the handle is one observation of [Host], and the results hold for all of them. *)

From Stdlib Require Import Strings.Byte.
From S2P Require Import Prelude Protocol Subscription ClientState Validate Client Canonical HttpCodec BootstrapCodec NativeErrors Json Wire NativeCodec Engine StateRows StateLoad Stage.

(** ** The handle *)

(** What one look at the shared [SurrealDatabase] shows: whether it is closed, whether its
    client is present, its session generation, whether another journal's operation has
    poisoned it; and whether this client's own handle is closed. *)
Record Observation := mkObs {
  ob_closed : bool;
  ob_client : bool;
  ob_generation : N;
  ob_poisoned : bool;
  ob_local_closed : bool;
}.
Class Host := observe : nat → Observation.

Section io.
Context `{!SurrealTypes, !Engine, !Host}.

(** The committed database and the number of looks at the handle so far. *)
Record world := mkWorld { w_db : db; w_time : nat }.

Definition io (E A : Type) : Type := world → result A E * world.

Definition io_ret {E A} (a : A) : io E A := λ w, (Ok a, w).
Definition io_err {E A} (e : E) : io E A := λ w, (Err e, w).
Definition io_bind {E A B} (m : io E A) (k : A → io E B) : io E B :=
  λ w, match m w with (Ok a, w) => k a w | (Err e, w) => (Err e, w) end.
Definition io_lift {E A} (r : result A E) : io E A := λ w, (r, w).
Definition io_map_err {E F A} (f : E → F) (m : io E A) : io F A :=
  λ w, (map_err f (m w).1, (m w).2).
(** [match m.await { r => k(r) }], on both outcomes. *)
Definition io_then {E F A B} (m : io E A) (k : result A E → io F B) : io F B :=
  λ w, k (m w).1 (m w).2.
Definition io_read {E A} (f : db → result A E) : io E A := λ w, (f (w_db w), w).
Definition io_look {E A} (f : Observation → A) : io E A :=
  λ w, (Ok (f (observe (w_time w))), mkWorld (w_db w) (S (w_time w))).
End io.

Notation "'let~' x ':=' c 'in' k" := (io_bind c (λ x, k))
  (at level 10, x pattern, c at level 100, k at level 200,
   format "'[v' 'let~'  x  ':='  c  'in' '/' k ']'") : rust_scope.

Abbreviation Projection := (gmap string (OptimisticRecord JsonValue)).

Section store.
Context `{!SurrealTypes, !Engine, !Host, !JsonFloatText, !JsonText, !StateSerde, !Ciborium, !Sha256}.

(** [SurrealDatabase::client] *)
Definition database_client : io SurrealRnError unit :=
  let~ closed := io_look ob_closed in
  if closed : bool then io_err RnClosed else
  let~ client := io_look ob_client in
  if client : bool then io_ret tt else io_err RnClosed.

(** [self.session_generation.is_some_and(..)] *)
Definition session_changed {E} (session_generation : option N) : io E bool :=
  match session_generation with
  | None => io_ret false
  | Some generation =>
      let~ closed := io_look ob_closed in
      if closed : bool then io_ret true else
      let~ current := io_look ob_generation in
      io_ret (negb (current =? generation)%N)
  end.

Definition check_session (session_generation : option N) : io SyncStateError unit :=
  let~ changed := session_changed session_generation in
  if changed : bool then io_err RevisionConflict else io_ret tt.

(** [finish_transaction]: [t] is the transaction with the writes of the operation. *)
Definition finish_transaction {A} (t : db) (operation : result A SyncStateError)
  : io SyncStateError A :=
  λ w,
  match operation with
  | Ok disposition =>
      let '(r, d) := db_commit (w_db w) t in
      (match r with Ok _ => Ok disposition | Err _ => Err CommitUnknown end,
       mkWorld d (w_time w))
  | Err operation =>
      let '(r, d) := db_cancel (w_db w) t in
      (match r with Ok _ => Err operation | Err _ => Err (RollbackFailed operation) end,
       mkWorld d (w_time w))
  end.

(** [SyncStateStore::finish] and [BootstrapStore::finish] *)
Definition finish {A} (session_generation : option N) (t : db)
    (operation : result A SyncStateError) : io SyncStateError A :=
  match operation with
  | Ok value =>
      io_then (check_session session_generation) (λ r,
        finish_transaction t (let? _ := r in Ok value))
  | Err e => finish_transaction t (Err e)
  end.

(** [client().await?.begin().await?], the operation, [finish].  The writes of a failing
    operation end with its transaction. *)
Definition begin_transaction : io SyncStateError db :=
  let~ _ := io_map_err CoreError database_client in
  io_read (λ d, database (db_begin d)).
Definition in_transaction {A} (session_generation : option N) (operation : tx A)
  : io SyncStateError A :=
  let~ t := begin_transaction in
  match operation t with
  | Ok (a, t') => finish session_generation t' (Ok a)
  | Err e => finish session_generation t (Err e)
  end.

(** A read transaction: begun, used and cancelled; a failing cancellation is the error. *)
Definition in_read_transaction {A} (f : db → result A SyncStateError) : io SyncStateError A :=
  let~ t := begin_transaction in
  λ w, let '(r, d) := db_cancel (w_db w) t in
       (match r with Ok _ => f t | Err _ => Err DatabaseError end, mkWorld d (w_time w)).

(** ** Writing a state *)

Definition component_row (key : SyncStateKey) (version : Z) (item : ComponentAddress)
    (payload : list byte) : row :=
  RowComponent (mkComponentRow version (k_partition_id key) (k_client_id key) item.2 payload).

Definition delete_vanished (key : SyncStateKey) (next : NormalizedRows)
    (entry : ComponentAddress * list byte) : tx unit :=
  if decide (is_Some (nr_components next !! entry.1)) then tx_ret tt
  else let@ _ := tx_delete (component_record_id key entry.1) in tx_ret tt.

Definition upsert_changed (key : SyncStateKey) (current : option NormalizedRows)
    (version : Z) (entry : ComponentAddress * list byte) : tx unit :=
  if decide (current ≫= (λ rows, nr_components rows !! entry.1) = Some entry.2)
  then tx_ret tt
  else let@ _ := tx_upsert (component_record_id key entry.1)
                   (component_row key version entry.1 entry.2) in tx_ret tt.

Definition write_row_diff (key : SyncStateKey) (current : option NormalizedRows)
    (next : NormalizedRows) : tx unit :=
  let@ budget := tx_lift (normalized_budget next) in
  let@ bootstrap_fence := tx_read (guard_state_write key budget) in
  let@ _ :=
    match current with
    | Some current =>
        tx_for_each (delete_vanished key next) (addr_entries (nr_components current))
    | None => tx_ret tt
    end in
  let@ _ := tx_for_each (upsert_changed key current (nr_format_version next))
              (addr_entries (nr_components next)) in
  let@ _ := tx_upsert (meta_record_id key)
              (RowMeta (mkMetaRow (nr_format_version next) (k_partition_id key)
                          (k_client_id key) (nr_meta next)) None) in
  match bootstrap_fence with
  | Some fence => write_fence key fence
  | None => tx_ret tt
  end.

(** The decision of [replace_v2_in_transaction]: nothing to write, or write. *)
Definition replace_check (current : option StoredSyncState) (expected_revision : option N)
    (expected_state : option StoredSyncState) (state : StoredSyncState)
  : result SyncStateWrite SyncStateError :=
  if decide (is_some_and (λ expected, current ≠ Some expected) expected_state)
  then Err RevisionConflict else
  match current with
  | Some current =>
      if decide (st_revision current = st_revision state) then
        if decide (current = state) then Ok AlreadyCurrent else Err RevisionConflict
      else if decide (Some (st_revision current) ≠ expected_revision)
      then Err RevisionConflict
      else if decide (is_Some (st_subscriptions current) ∧ st_subscriptions state = None)
      then Err CorruptState else Ok Applied
  | None => if decide (is_Some expected_revision) then Err RevisionConflict else Ok Applied
  end.

Definition replace_v2_in_transaction (key : SyncStateKey) (expected_revision : option N)
    (expected_state : option StoredSyncState) (state : StoredSyncState)
    (rows : NormalizedRows) : tx SyncStateWrite :=
  let@ current := tx_read (load_v2 Direct key) in
  let@ decision := tx_lift (replace_check current expected_revision expected_state state) in
  match decision with
  | AlreadyCurrent => tx_ret AlreadyCurrent
  | Applied =>
      let@ current_rows := tx_lift
        (match current with
         | Some current => let? rows := normalize_state current in Ok (Some rows)
         | None => Ok None
         end) in
      let@ _ := write_row_diff key current_rows rows in
      tx_ret Applied
  end.

(** ** The application's records *)

(** The object an application record is stored as. *)
Definition record_content (value : JsonValue)
  : result (list (string * SValue)) SyncStateError :=
  let? v := map_err ValueCodec (from_wire_value value) in
  match v with SvObject content => Ok content | _ => Err RecordValueMustBeObject end.

Definition project_record (current next : Projection) (record_id : RecordId) : tx unit :=
  if decide (current !! record_id = next !! record_id) then tx_ret tt else
  let@ native_id := tx_lift (native_record_id record_id) in
  match next !! record_id with
  | Some (OptPresent value _ _) =>
      let@ content := tx_lift (record_content value) in
      let@ _ := tx_upsert native_id (RowObject content) in tx_ret tt
  | Some (OptDeleted _) | None =>
      let@ _ := tx_delete native_id in tx_ret tt
  end.

(** [current.keys().chain(next.keys()).cloned().collect::<BTreeSet<_>>()], in order. *)
Definition union_keys {A B} (m1 : gmap string A) (m2 : gmap string B) : list string :=
  merge_sort String.le (elements (dom m1 ∪ dom m2)).

Definition apply_projection_diff (current next : Projection) : tx unit :=
  tx_for_each (project_record current next) (union_keys current next).

(** ** The operations of the store *)

Definition apply_transition_in_transaction (current next : StoredSyncState)
  : tx SyncStateWrite :=
  let@ (key, rows) := tx_lift (prepare_state_write (Some (st_revision current)) next) in
  let@ disposition :=
    replace_v2_in_transaction key (Some (st_revision current)) (Some current) next rows in
  match disposition with
  | Applied =>
      let@ _ := apply_projection_diff (optimistic_projection current)
                  (optimistic_projection next) in
      tx_ret disposition
  | AlreadyCurrent => tx_ret disposition
  end.

Definition STATE_SCHEMA_TABLES : list string :=
  [BARRIER_TABLE; STATE_TABLE; META_TABLE; CONFIRMED_TABLE; OUTBOX_TABLE; OUTCOME_TABLE;
   ID_MAP_TABLE; SUBSCRIPTION_RECORD_TABLE].

Definition define_schema (session_generation : option N) : io SyncStateError unit :=
  let~ _ := check_session session_generation in
  let~ _ := io_map_err CoreError database_client in
  λ w, match db_define (w_db w) STATE_SCHEMA_TABLES with
       | Ok d => (Ok tt, mkWorld d (w_time w))
       | Err _ => (Err DatabaseError, w)
       end.

Definition load_scope_barrier (key : SyncStateKey)
  : io SyncStateError (option ScopeBarrier) :=
  let~ _ := io_lift (validate_key key) in
  let~ _ := io_map_err CoreError database_client in
  let~ barrier := io_read (load_barrier_row key) in
  let~ _ := io_lift (validate_scope_barrier barrier) in
  io_ret barrier.

(** The [UPSERT .. SET reason = IF reason = .. THEN .. ELSE .. END] of
    [save_scope_barrier]. *)
Definition stored_reason (stored : option row) : option string :=
  match stored with
  | Some (RowBarrier b) => Some (sb_reason b)
  | Some (RowObject c) => object_string "reason" c
  | _ => None
  end.
Definition sticky_reason (stored : option row) (reason : string) : string :=
  if decide (stored_reason stored = Some "pending_quarantine_required"
             ∨ reason = "pending_quarantine_required")
  then "pending_quarantine_required" else "needs_new_scope_journal".

Definition upsert_barrier (key : SyncStateKey) (barrier : ScopeBarrier) : tx unit :=
  let@ stored := tx_select (scope_barrier_record_id key) in
  let@ _ := tx_upsert (scope_barrier_record_id key)
    (RowBarrier (mkBarrier (sticky_reason stored (sb_reason barrier))
       (sb_required_scope barrier) (sb_required_subscription_revision barrier)
       (sb_required_authorization_revision barrier))) in
  tx_ret tt.

Definition save_scope_barrier (session_generation : option N) (key : SyncStateKey)
    (barrier : ScopeBarrier) : io SyncStateError unit :=
  let~ _ := io_lift (validate_key key) in
  let~ _ := io_lift (validate_scope_barrier (Some barrier)) in
  in_transaction session_generation
    (let@ _ := guard_barrier_write key in upsert_barrier key barrier).

Definition inspect (key : SyncStateKey)
  : io SyncStateError (option StoredSyncState * option ScopeBarrier) :=
  let~ _ := io_lift (validate_key key) in
  in_read_transaction (inspect_transaction key).

Definition migrated_sentinel (key : SyncStateKey) (state : StoredSyncState) : row :=
  RowState (mkStoredRecord FORMAT_VERSION (k_partition_id key) (k_client_id key)
    (u64_to_string (st_revision state)) MIGRATED_SENTINEL).

Definition migrate_in_transaction (key : SyncStateKey) (state : StoredSyncState)
    (rows : NormalizedRows) : tx SyncStateWrite :=
  let@ existing := tx_read (load_v2 Direct key) in
  match existing with
  | Some existing =>
      if decide (existing = state) then tx_ret AlreadyCurrent else tx_err RevisionConflict
  | None =>
      let@ legacy := tx_read (select_as row_to_state (record_id key)) in
      let@ legacy := tx_lift (ok_or legacy RevisionConflict) in
      let@ stored := tx_lift (decode_record key legacy) in
      if decide (stored ≠ state) then tx_err RevisionConflict else
      let@ _ := write_row_diff key None rows in
      let@ _ := apply_projection_diff ∅ (optimistic_projection state) in
      let@ _ := tx_upsert (record_id key) (migrated_sentinel key state) in
      tx_ret Applied
  end.

Definition migrate_v1 (session_generation : option N) (key : SyncStateKey)
    (state : StoredSyncState) : io SyncStateError unit :=
  let~ rows := io_lift (normalize_state state) in
  let~ _ := in_transaction session_generation (migrate_in_transaction key state rows) in
  io_ret tt.

Definition load (session_generation : option N) (key : SyncStateKey)
  : io SyncStateError (option StoredSyncState) :=
  let~ _ := io_lift (validate_key key) in
  let~ _ := io_map_err CoreError database_client in
  let~ state := io_read (load_v2 Direct key) in
  match state with
  | Some state => io_ret (Some state)
  | None =>
      let~ stored := io_read (select_as row_to_state (record_id key)) in
      match stored with
      | None => io_ret None
      | Some stored =>
          if decide (sr_format_version stored = FORMAT_VERSION) then io_err CorruptState else
          let~ state := io_lift (decode_record key stored) in
          let~ _ := migrate_v1 session_generation key state in
          io_ret (Some state)
      end
  end.

Definition save_atomic (session_generation expected_revision : option N)
    (state : StoredSyncState) : io SyncStateError SyncStateWrite :=
  let~ (key, rows) := io_lift (prepare_state_write expected_revision state) in
  let~ _ := load session_generation key in
  in_transaction session_generation
    (replace_v2_in_transaction key expected_revision None state rows).

(** The encoding precedes the transaction; its writes are those of
    [apply_transition_in_transaction]. *)
Definition apply_transition_atomic (session_generation : option N)
    (current next : StoredSyncState) : io SyncStateError SyncStateWrite :=
  if decide (st_partition_id current ≠ st_partition_id next
             ∨ st_client_id current ≠ st_client_id next) then io_err CorruptState else
  let~ _ := io_lift (map_err InvalidState (validate current)) in
  if decide (current = next) then
    let~ stored := load session_generation (state_key current) in
    if decide (stored = Some current) then io_ret AlreadyCurrent
    else io_err RevisionConflict
  else
    let~ _ := io_lift (prepare_state_write (Some (st_revision current)) next) in
    in_transaction session_generation (apply_transition_in_transaction current next).
End store.
