(* ===== verification/StageStore.v ===== *)
(** * The staged bootstrap: operations.

    Models [BootstrapStore] of [crates/surrealdb-rn-core/src/sync_bootstrap_store.rs]:
    [resume], [begin], [stage_page], [complete], [progress] and [cancel], each one
    transaction over the rows of [Stage], and the completion clock. *)

From Stdlib Require Import Strings.Byte.
From S2P Require Import Prelude Protocol Subscription ClientState Validate Client Canonical HttpCodec BootstrapCodec NativeErrors Json Wire NativeCodec Engine StateRows StateLoad Stage StateStore.

(** [CompletionClock], with the readings of [Instant::now] (nanoseconds) and of the
    trusted UTC source (seconds) by the number of the check that takes them. *)
Record CompletionClock := mkClock {
  cc_now : nat → N;
  cc_utc_seconds : nat → result N SyncStateError;
  cc_deadline : N;
}.

Definition clock_check (clock : CompletionClock) (k : nat) (expires_at : N)
  : result unit SyncStateError :=
  let now := cc_now clock k in
  if decide (cc_deadline clock ≤ now)%N then Err RevisionConflict else
  if decide (30 * 1000000000 < cc_deadline clock - now)%N then Err RevisionConflict else
  let? utc := cc_utc_seconds clock k in
  if decide (expires_at ≤ utc)%N then Err RevisionConflict else Ok tt.

Inductive Completion :=
| CompletionApplied (state : StoredSyncState)
| HistoricalSuccess.

Inductive StageState := Staging | Cancelled | Consumed (revision : N).
#[export] Instance StageState_eq_dec : EqDecision StageState.
Proof. solve_decision. Defined.

Record StageInventory := mkInventory {
  si_incarnation : N;
  si_state : StageState;
  si_indices : list N;
  si_expected_pages : N;
}.

Section stage_store.
Context `{!SurrealTypes, !Engine, !Host, !JsonFloatText, !JsonText, !StateSerde, !Ciborium, !Sha256}.

(** ** Resume *)

Definition header_state (header : Header) : result StageState SyncStateError :=
  match hd_consumed_revision header with
  | Some revision => let? revision := parse_fence revision in Ok (Consumed revision)
  | None => Ok (if hd_cancelled header then Cancelled else Staging)
  end.

Definition resume_in_transaction (manifest : option (list byte)) (expected : BootstrapContext)
    (incarnation : option N) (d : db) : result (option StageInventory) SyncStateError :=
  let key := context_key expected in
  let? info := database (db_info d) in
  match info with
  | None => Ok None
  | Some tables =>
      if decide ((HEADER ∉ tables) ∧ (PAGE ∉ tables)) then
        let? fence := if decide (META_TABLE ∈ tables) then read_fence key d else Ok None in
        if decide (is_Some fence) then Err CorruptState else Ok None
      else
        let? (_, stage) := inspect_stage key d in
        match stage with
        | None =>
            let? fence := read_fence key d in
            if decide (is_Some fence) then Err CorruptState else Ok None
        | Some stage =>
            let persisted := bm_context (sg_manifest stage) in
            let? _ := admit_context persisted expected
                        (bool_decide (manifest = None) && hd_cancelled (sg_header stage)) in
            let? _ := validate_header (hd_start (sg_header stage)) (sg_manifest stage) persisted in
            let? current_incarnation := parse_fence (hd_incarnation (sg_header stage)) in
            if decide (is_some_and (λ m, hd_manifest (sg_header stage) ≠ m) manifest
                       ∨ is_some_and (λ n, n ≠ current_incarnation) incarnation)
            then Err RevisionConflict else
            let? current := inspected_current key d in
            let? budget := state_budget current in
            let? _ := check_budget key budget stage in
            let? state := header_state (sg_header stage) in
            Ok (Some (mkInventory current_incarnation state (page_entries (sg_pages stage)).*1
                        (bm_page_count (sg_manifest stage))))
        end
  end.

Definition resume (manifest : option (list byte)) (expected : BootstrapContext)
    (incarnation : option N) : io SyncStateError (option StageInventory) :=
  let~ _ := io_lift (validate_key (context_key expected)) in
  let~ _ := io_lift
    (match manifest with
     | Some manifest =>
         if (MAX_SYNC_STATE_BYTES <? vec_len manifest)%N then Err StateTooLarge else
         let? incoming := corrupt (decode_bootstrap_manifest manifest) in
         if decide (bm_context incoming ≠ expected) then Err CorruptState else Ok tt
     | None => Ok tt
     end) in
  in_read_transaction (resume_in_transaction manifest expected incarnation).

(** ** Begin *)

Definition temporary_barrier (context : BootstrapContext) : ScopeBarrier :=
  mkBarrier "needs_new_scope_journal" (scope_identity (bc_scope context))
    (u64_to_string (scope_subscription_revision (bc_scope context)))
    (u64_to_string (authorization_revision (bc_scope context))).

Definition fence_first_barrier (key : SyncStateKey) (context : BootstrapContext) : tx unit :=
  let@ _ := tx_read (check_barrier key) in
  let id := scope_barrier_record_id key in
  let temporary := temporary_barrier context in
  let convert (x : option row) : result (option ScopeBarrier) SyncStateError :=
    match x with
    | None => Ok None
    | Some x => let? b := ok_or (row_to_barrier x) DatabaseError in Ok (Some b)
    end in
  let@ created := tx_create id (RowBarrier temporary) in
  let@ created := tx_lift (convert created) in
  let@ deleted := tx_delete id in
  let@ deleted := tx_lift (convert deleted) in
  let@ absent := tx_read (load_barrier_row key) in
  if decide (created ≠ Some temporary ∨ deleted ≠ Some temporary ∨ is_Some absent)
  then tx_err CorruptState else tx_ret tt.

(** The admission of the first stage of a journal, before any payload is read. *)
Definition first_stage_budget (current : N * N) (incoming : N) : result unit SyncStateError :=
  let? bytes := usize_mul2 current.1 in
  let? bytes := usize_add bytes FINAL_OVERHEAD in
  let? bytes := usize_add bytes incoming in
  if (MAX_AGGREGATE_STATE_BYTES <? bytes)%N then Err StateTooLarge else
  let? count := usize_mul2 current.2 in
  let? count := usize_add count 4 in
  if (MAX_COMPONENT_ITEMS <? count)%N then Err StateTooLarge else Ok tt.

(** What an existing stage means for a [begin]: the incarnation of an exact retry, or the
    way free for a successor. *)
Definition begin_existing (key : SyncStateKey) (start manifest : list byte)
    (expected : BootstrapContext) (state : StoredSyncState) (existing : Stage)
  : result (option N) SyncStateError :=
  let header := sg_header existing in
  let? _ := admit_context (bm_context (sg_manifest existing)) expected (hd_cancelled header) in
  let? _ := validate_header (hd_start header) (sg_manifest existing)
              (bm_context (sg_manifest existing)) in
  let? budget := state_budget state in
  let? _ := check_budget key budget existing in
  if hd_cancelled header then
    if decide (hd_manifest header = manifest) then Err RevisionConflict else Ok None
  else
    let? _ := validate_header (hd_start header) (sg_manifest existing) expected in
    if decide (hd_start header = start ∧ hd_manifest header = manifest) then
      let? incarnation := parse_fence (hd_incarnation header) in Ok (Some incarnation)
    else Err RevisionConflict.

(** The scope the journal was opened for. *)
Definition begin_scope_check (state : StoredSyncState) (expected : BootstrapContext)
  : result unit SyncStateError :=
  if decide (st_requested_scope state ≠ scope_identity (bc_scope expected)
             ∨ st_subscription_revision state ≠ scope_subscription_revision (bc_scope expected))
  then Err CorruptState else
  if decide (is_some_and (λ c, (authorization_revision (bc_scope expected)
                                < authorization_revision (scope c))%N) (st_checkpoint state))
  then Err RevisionConflict else Ok tt.

Definition STAGE_SCHEMA_TABLES : list string := [HEADER; PAGE].

Definition tx_define (tables : list string) : tx unit :=
  λ d, let? d := database (db_define d tables) in Ok (tt, d).

Definition begin_in_transaction (start manifest : list byte) (decoded : BootstrapManifest)
    (expected : BootstrapContext) : tx N :=
  let key := context_key expected in
  let@ _ := tx_define STAGE_SCHEMA_TABLES in
  let@ (current_budget, existing) := tx_read (inspect_stage key) in
  let@ _ := tx_lift
    (match existing with
     | None => first_stage_budget current_budget (vec_len start + vec_len manifest)
     | Some _ => Ok tt
     end) in
  let@ state := tx_read (inspected_current key) in
  let@ _ := tx_read (check_barrier key) in
  let@ fence := tx_read (read_fence key) in
  let@ _ := match fence with
            | None => fence_first_barrier key (bm_context decoded)
            | Some _ => tx_ret tt
            end in
  let@ _ := tx_lift (begin_scope_check state expected) in
  let@ retry := tx_lift
    (match existing with
     | Some existing => begin_existing key start manifest expected state existing
     | None => Ok None
     end) in
  match retry with
  | Some incarnation => tx_ret incarnation
  | None =>
      let@ fence := tx_read (read_fence key) in
      let@ next := tx_lift (next_fence fence) in
      let@ (incarnation, _) := tx_lift (parse_metadata_fence next) in
      let stage := mkStage (mkHeader 1 false (u64_to_string incarnation) start manifest
                              None None) decoded ∅ in
      let@ budget := tx_lift (state_budget state) in
      let@ _ := tx_lift (check_budget key budget stage) in
      let@ _ := tx_upsert (header_id key) (RowHeader (sg_header stage)) in
      let@ _ := write_fence key (format_fence incarnation true) in
      tx_ret incarnation
  end.

Definition begin (session_generation : option N) (start manifest : list byte)
    (expected : BootstrapContext) : io SyncStateError N :=
  let~ _ := io_lift (validate_key (context_key expected)) in
  let~ decoded := io_lift (corrupt (decode_bootstrap_manifest manifest)) in
  let~ _ := io_lift (validate_header start decoded expected) in
  let~ _ := io_lift
    (let? n := usize_add (vec_len start) (vec_len manifest) in
     if (MAX_SYNC_STATE_BYTES <? n)%N then Err StateTooLarge else Ok tt) in
  in_transaction session_generation (begin_in_transaction start manifest decoded expected).

(** ** Pages *)

(** The checks every operation on a stage starts with. *)
Definition stage_bound (expected : BootstrapContext) (incarnation : N) (stage : Stage)
  : result unit SyncStateError :=
  let? _ := validate_header (hd_start (sg_header stage)) (sg_manifest stage) expected in
  let? current := parse_fence (hd_incarnation (sg_header stage)) in
  if decide (current ≠ incarnation) then Err RevisionConflict else Ok tt.

Definition stage_page_in_transaction (raw : list byte) (page : BootstrapPage)
    (expected : BootstrapContext) (incarnation : N) : tx unit :=
  let key := context_key expected in
  let@ fence := tx_read (read_fence key) in
  let@ fence := tx_lift (ok_or fence CorruptState) in
  let@ (_, stage) := tx_read (inspect_stage key) in
  let@ stage := tx_lift (ok_or stage CorruptState) in
  let@ _ := tx_lift (stage_bound expected incarnation stage) in
  if hd_cancelled (sg_header stage) then tx_err RevisionConflict else
  let@ _ := tx_read (check_barrier key) in
  let@ _ := tx_lift (validate_page (sg_manifest stage) page) in
  match sg_pages stage !! bp_index page with
  | Some old => if decide (old = raw) then tx_ret tt else tx_err RevisionConflict
  | None =>
      let stage := mkStage (sg_header stage) (sg_manifest stage)
                     (<[bp_index page := raw]> (sg_pages stage)) in
      let@ state := tx_read (inspected_current key) in
      let@ budget := tx_lift (state_budget state) in
      let@ _ := tx_lift (check_budget key budget stage) in
      let@ _ := tx_upsert (page_id key (bp_index page))
                  (RowPage (mkPageRow 1 (k_partition_id key) (k_client_id key)
                              (u64_to_string (bp_index page)) raw)) in
      let@ next := tx_lift (next_fence (Some fence)) in
      write_fence key next
  end.

Definition stage_page (session_generation : option N) (raw : list byte)
    (expected : BootstrapContext) (incarnation : N) : io SyncStateError unit :=
  let~ _ := io_lift (validate_key (context_key expected)) in
  let~ page := io_lift (corrupt (decode_bootstrap_page raw)) in
  let~ _ := io_lift (page_reservation page) in
  in_transaction session_generation (stage_page_in_transaction raw page expected incarnation).

(** ** Completion *)

(** The record as the client state keeps it. *)
Definition complete_record (record : SnapshotRecord CanonicalValue)
  : result (SnapshotRecord JsonValue) SyncStateError :=
  match snap_state record with
  | Present value version reference =>
      let? json := map_err (λ _, CorruptState) (canonical_to_json value) in
      Ok (mkSnapshotRecord (snap_record_id record) (Present json version reference))
  | Tombstone version => Ok (mkSnapshotRecord (snap_record_id record) (Tombstone version))
  | Absent => Err CorruptState
  end.

(** One turn of the loop over the stored pages: the verifier, the records so far and the
    number of the next clock check. *)
Definition complete_page (clock : CompletionClock) (expires_at : N)
    (acc : BootstrapVerifier * list (SnapshotRecord JsonValue) * nat) (raw : list byte)
  : result (BootstrapVerifier * list (SnapshotRecord JsonValue) * nat) SyncStateError :=
  let '(verifier, records, k) := acc in
  let? _ := clock_check clock k expires_at in
  let? page := corrupt (decode_bootstrap_page raw) in
  let? verifier := corrupt (verifier_push verifier page) in
  let? _ := page_reservation page in
  let? converted := try_map complete_record (bp_records page) in
  Ok (verifier, records ++ converted, S k).

(** Every stored page verified against the manifest, in index order; the records. *)
Definition verify_pages (clock : CompletionClock) (stage : Stage)
  : result (list (SnapshotRecord JsonValue) * nat) SyncStateError :=
  let expires_at := bm_expires_at (sg_manifest stage) in
  let? verifier := corrupt (verifier_new (sg_manifest stage)) in
  let? (verifier, records, k) :=
    try_fold (complete_page clock expires_at) (verifier, [], 1)
      (page_entries (sg_pages stage)).*2 in
  let? _ := corrupt (verifier_finish verifier) in
  let? _ := clock_check clock k expires_at in
  Ok (records, S k).

(** The exact retry of a completion that has been recorded. *)
Definition historical_success (key : SyncStateKey) (stage : Stage)
    (receipt_bytes consumed : list byte) (d : db) : result Completion SyncStateError :=
  if decide (consumed ≠ receipt_bytes) then Err RevisionConflict else
  let? current := inspected_current key d in
  let? revision := ok_or (hd_consumed_revision (sg_header stage)) CorruptState in
  let? revision := parse_fence revision in
  if (st_revision current <? revision)%N then Err CorruptState else Ok HistoricalSuccess.

(** The terminal marker: [Header { cancelled: true, consumed_receipt, consumed_revision,
    ..stage.header }]. *)
Definition consumed_header (header : Header) (receipt_bytes : list byte) (revision : N)
  : Header :=
  mkHeader (hd_format_version header) true (hd_incarnation header) (hd_start header)
    (hd_manifest header) (Some receipt_bytes) (Some (u64_to_string revision)).
Definition cancelled_header (header : Header) : Header :=
  mkHeader (hd_format_version header) true (hd_incarnation header) (hd_start header)
    (hd_manifest header) (hd_consumed_receipt header) (hd_consumed_revision header).

Definition delete_pages (key : SyncStateKey) (stage : Stage) : tx unit :=
  tx_for_each (λ entry, let@ _ := tx_delete (page_id key entry.1) in tx_ret tt)
    (page_entries (sg_pages stage)).

(** [write_fence(.., format!("{}:i", parse_metadata_fence(&next)?.0))] *)
Definition write_inactive_fence (key : SyncStateKey) (fence : option string) : tx unit :=
  let@ next := tx_lift (next_fence fence) in
  let@ (counter, _) := tx_lift (parse_metadata_fence next) in
  write_fence key (format_fence counter false).

(** The writes of a completion, after everything has been verified. *)
Definition publish_completion (key : SyncStateKey) (stage : Stage)
    (receipt_bytes : list byte) (current next : StoredSyncState) : tx unit :=
  let@ _ := tx_define [HEADER] in
  let@ _ := apply_transition_in_transaction current next in
  let@ _ := delete_pages key stage in
  let header := consumed_header (sg_header stage) receipt_bytes (st_revision next) in
  let@ marker := tx_upsert (header_id key) (RowHeader header) in
  let@ marker := tx_lift
    (match marker with
     | Some x => ok_or (row_to_header x) DatabaseError
     | None => Err CorruptState
     end) in
  if decide (hd_consumed_receipt marker ≠ Some receipt_bytes
             ∨ hd_consumed_revision marker ≠ Some (u64_to_string (st_revision next))
             ∨ hd_cancelled marker = false)
  then tx_err CorruptState else
  let@ fence := tx_read (read_fence key) in
  write_inactive_fence key fence.

Definition complete_in_transaction (receipt_bytes : list byte) (receipt : BootstrapReceipt)
    (expected : BootstrapContext) (incarnation : N) (clock : CompletionClock)
  : tx Completion :=
  let key := context_key expected in
  let@ (_, stage) := tx_read (inspect_stage key) in
  let@ stage := tx_lift (ok_or stage CorruptState) in
  let@ _ := tx_lift (stage_bound expected incarnation stage) in
  let@ _ := tx_lift (corrupt (validate_bootstrap_receipt (sg_manifest stage) receipt)) in
  match hd_consumed_receipt (sg_header stage) with
  | Some consumed => tx_read (historical_success key stage receipt_bytes consumed)
  | None =>
      if hd_cancelled (sg_header stage) then tx_err RevisionConflict else
      let@ _ := tx_read (check_barrier key) in
      let@ _ := tx_lift (clock_check clock 0 (bm_expires_at (sg_manifest stage))) in
      let@ current := tx_read (inspected_current key) in
      let@ budget := tx_lift (state_budget current) in
      let@ _ := tx_lift (check_budget key budget stage) in
      let@ (records, k) := tx_lift (verify_pages clock stage) in
      let@ runtime := tx_lift (map_err InvalidState (open current)) in
      let@ prepared := tx_lift (map_err InvalidState
        (prepare_bootstrap_snapshot runtime (br_checkpoint receipt) records)) in
      let next := prepared_state prepared in
      let@ _ := tx_lift (map_err (λ _, CorruptState) (validate_state_codec next)) in
      let@ _ := tx_lift (final_budget key current next stage receipt_bytes) in
      let@ _ := publish_completion key stage receipt_bytes current next in
      let@ _ := tx_lift (clock_check clock k (bm_expires_at (sg_manifest stage))) in
      tx_ret (CompletionApplied next)
  end.

Definition complete (session_generation : option N) (receipt_bytes : list byte)
    (expected : BootstrapContext) (incarnation : N) (clock : CompletionClock)
  : io SyncStateError Completion :=
  let~ _ := io_lift (validate_key (context_key expected)) in
  let~ _ := io_lift (if (MAX_SYNC_STATE_BYTES <? vec_len receipt_bytes)%N
                     then Err StateTooLarge else Ok tt) in
  let~ receipt := io_lift (corrupt (decode_bootstrap_receipt receipt_bytes)) in
  in_transaction session_generation
    (complete_in_transaction receipt_bytes receipt expected incarnation clock).

(** ** Progress and cancellation *)

Definition progress_in_transaction (expected : BootstrapContext) (incarnation : N) (d : db)
  : result (option (list N)) SyncStateError :=
  let key := context_key expected in
  let? fence := read_fence key d in
  match fence with
  | None => Ok None
  | Some _ =>
      let? (_, stage) := inspect_stage key d in
      match stage with
      | None => Ok None
      | Some stage =>
          let? _ := stage_bound expected incarnation stage in
          if hd_cancelled (sg_header stage) then Ok None else
          let? state := inspected_current key d in
          let? budget := state_budget state in
          let? _ := check_budget key budget stage in
          Ok (Some (page_entries (sg_pages stage)).*1)
      end
  end.

Definition progress (expected : BootstrapContext) (incarnation : N)
  : io SyncStateError (option (list N)) :=
  let~ _ := io_lift (validate_key (context_key expected)) in
  in_read_transaction (progress_in_transaction expected incarnation).

Definition cancel_in_transaction (manifest : list byte) (expected : BootstrapContext)
    (incarnation : N) : tx unit :=
  let key := context_key expected in
  let@ fence := tx_read (read_fence key) in
  match fence with
  | None => tx_ret tt
  | Some fence =>
      let@ stage := tx_read (load_stage key) in
      match stage with
      | None => tx_ret tt
      | Some stage =>
          let@ _ := tx_lift (stage_bound expected incarnation stage) in
          if decide (hd_manifest (sg_header stage) ≠ manifest) then tx_err RevisionConflict else
          if decide (is_Some (hd_consumed_receipt (sg_header stage))) then tx_ret tt else
          let@ _ := delete_pages key stage in
          let@ _ := tx_upsert (header_id key)
                      (RowHeader (cancelled_header (sg_header stage))) in
          write_inactive_fence key (Some fence)
      end
  end.

Definition cancel (session_generation : option N) (manifest : list byte)
    (expected : BootstrapContext) (incarnation : N) : io SyncStateError unit :=
  let~ _ := io_lift (validate_key (context_key expected)) in
  in_transaction session_generation (cancel_in_transaction manifest expected incarnation).
End stage_store.
