(* ===== verification/Queue.v ===== *)
(** * The bounded mutation queue.

    Models [crates/surrealdb-rn-core/src/sync_queue.rs]: the byte-budgeted JSON writer, the
    FIFO window of pending commits and the admission check of [enqueue_bounded].  The
    serializer of [serde_json] is given by the chunks it writes. *)

From Stdlib Require Import Strings.Byte.
From S2P Require Import Prelude Bytes NativeErrors.

Definition MAX_COMMITS : N := 64.
Definition MAX_BYTES : N := 4194304.

Record NativePendingWindow := mkPendingWindow {
  pw_revision : N;
  pw_commits : list string;
  pw_bytes : N;
  pw_remaining_count : N;
  pw_first_commit_too_large : bool;
}.

Ltac destruct_leb :=
  repeat match goal with
  | |- context [(?a <=? ?b)%N] => destruct (N.leb_spec a b)
  end.

Definition limits (count bytes : N) : result unit NativeSyncError :=
  if decide (count = 0%N ∨ (MAX_COMMITS < count)%N ∨ ¬ (2 ≤ bytes ≤ MAX_BYTES)%N)
  then Err InvalidInput else Ok tt.

(** ** UTF-8 *)

(** [core::str::from_utf8]: well-formed sequences only, no surrogates, no overlong forms. *)
Definition continuation (b : byte) : bool := (N.land (Byte.to_N b) 192 =? 128)%N.
Definition in_range (b : byte) (lo hi : N) : bool :=
  (lo <=? Byte.to_N b)%N && (Byte.to_N b <=? hi)%N.
Fixpoint utf8_valid (l : list byte) : bool :=
  match l with
  | [] => true
  | a :: l1 =>
      if in_range a 0 127 then utf8_valid l1 else
      match l1 with
      | [] => false
      | b :: l2 =>
          if in_range a 194 223 then continuation b && utf8_valid l2 else
          match l2 with
          | [] => false
          | c :: l3 =>
              if in_range a 224 239 then
                in_range b (if (Byte.to_N a =? 224)%N then 160 else 128)
                  (if (Byte.to_N a =? 237)%N then 159 else 191)
                && continuation c && utf8_valid l3
              else
                match l3 with
                | [] => false
                | d :: l4 =>
                    in_range a 240 244
                    && in_range b (if (Byte.to_N a =? 240)%N then 144 else 128)
                         (if (Byte.to_N a =? 244)%N then 143 else 191)
                    && continuation c && continuation d && utf8_valid l4
                end
          end
      end
  end.

(** [String::from_utf8] *)
Definition from_utf8 (bytes : list byte) : option string :=
  if utf8_valid bytes then Some (String.string_of_list_byte bytes) else None.

(** ** The writer *)

(** [serde_json::to_writer]: the chunks it writes, and whether serialization succeeds
    after them. *)
Class JsonChunks (T : Type) := json_chunks : T → list (list byte) * bool.

Record BudgetWriter := mkWriter { bw_bytes : list byte; bw_limit : N }.

(** [write_all] over [BudgetWriter::write], which takes a whole chunk or fails; an empty
    chunk is not written. *)
Definition budget_write (writer : BudgetWriter) (input : list byte)
  : result BudgetWriter unit :=
  if decide (input = []) then Ok writer else
  if (saturating_sub (bw_limit writer) (vec_len (bw_bytes writer)) <? vec_len input)%N
  then Err tt
  else Ok (mkWriter (bw_bytes writer ++ input) (bw_limit writer)).

Definition bounded_json {T} `{!JsonChunks T} (value : T) (limit : N) : option (list byte) :=
  let '(chunks, complete) := json_chunks value in
  match try_fold budget_write (mkWriter [] limit) chunks with
  | Ok writer => if complete : bool then Some (bw_bytes writer) else None
  | Err _ => None
  end.

Section queue.
Context {T : Type} `{!JsonChunks T, !JsonChunks string}.

(** ** The window *)

(** One commit of the loop of [window]: what it adds, [None] for [break]. *)
Definition window_item (value : T) (first : bool) (available : N)
  : result (option (string * N)) NativeSyncError :=
  match bounded_json value available with
  | None => Ok None
  | Some raw =>
      let? raw := ok_or (from_utf8 raw) Internal in
      let comma := (if first then 0 else 1)%N in
      match bounded_json raw (saturating_sub available comma) with
      | None => Ok None
      | Some quoted => Ok (Some (raw, vec_len quoted + comma)%N)
      end
  end.

(** [for value in items.take(count)]: the commits and bytes so far, and whether the first
    commit did not fit. *)
Fixpoint window_loop (max_bytes : N) (items : list T) (commits : list string) (bytes : N)
  : result (list string * N * bool) NativeSyncError :=
  match items with
  | [] => Ok (commits, bytes, false)
  | value :: items =>
      let first := bool_decide (commits = []) in
      let? item := window_item value first (max_bytes - bytes) in
      match item with
      | None => Ok (commits, bytes, first)
      | Some (raw, n) => window_loop max_bytes items (commits ++ [raw]) (bytes + n)
      end
  end.

Definition window (revision : N) (items : list T) (count max_bytes : N)
  : result NativePendingWindow NativeSyncError :=
  let? _ := limits count max_bytes in
  let? (commits, bytes, too_large) :=
    window_loop max_bytes (take (N.to_nat count) items) [] 2 in
  let remaining := (vec_len items - vec_len commits)%N in
  if (u32_max <? remaining)%N then Err Internal
  else Ok (mkPendingWindow revision commits bytes remaining too_large).

(** ** Admission *)

Fixpoint admits_loop (bytes : N) (items : list T) (charged : N) (seen : bool)
  : result unit NativeSyncError :=
  match items with
  | [] => Ok tt
  | value :: items =>
      let available := (bytes - charged)%N in
      let? raw := ok_or (bounded_json value available) QueueCapacity in
      let? raw := ok_or (from_utf8 raw) Internal in
      let comma := (if seen then 1 else 0)%N in
      let? quoted := ok_or (bounded_json raw (saturating_sub available comma)) QueueCapacity in
      admits_loop bytes items (charged + (vec_len quoted + comma)) true
  end.

Definition admits (items : list T) (candidate : T) (count bytes : N)
  : result unit NativeSyncError :=
  let? _ := limits count bytes in
  if (count <=? vec_len items)%N then Err QueueCapacity else
  admits_loop bytes (items ++ [candidate]) 2 false.

(** ** The reference: the texts and the JSON array of their texts *)

(** [serde_json::to_vec]: all the chunks. *)
Definition json_bytes {A} `{!JsonChunks A} (value : A) : option (list byte) :=
  let '(chunks, complete) := json_chunks value in
  if complete : bool then Some (concat chunks) else None.

(** The length of the JSON array of strings with these lengths. *)
Definition array_bytes (lengths : list N) : N :=
  (2 + foldr N.add 0 lengths + (vec_len lengths - 1))%N.

Lemma budget_write_fold chunks writer :
  (vec_len (bw_bytes writer) ≤ bw_limit writer)%N →
  try_fold budget_write writer chunks =
  if (vec_len (bw_bytes writer ++ concat chunks) <=? bw_limit writer)%N
  then Ok (mkWriter (bw_bytes writer ++ concat chunks) (bw_limit writer)) else Err tt.
Proof.
  revert writer. induction chunks as [|c chunks IH]; intros [b l] Hb; simpl in *.
  { rewrite app_nil_r. by destruct (N.leb_spec (vec_len b) l); [|lia]. }
  unfold budget_write at 1. simpl. case_decide as Hc.
  { subst c. simpl. by rewrite IH. }
  unfold saturating_sub. destruct (N.ltb_spec (l - vec_len b) (vec_len c)) as [Hl|Hl].
  - simpl. destruct (N.leb_spec (vec_len (b ++ c ++ concat chunks)) l) as [Hm|Hm]; [|done].
    unfold vec_len in *. rewrite !length_app in Hm. lia.
  - simpl. rewrite IH; simpl; [by rewrite <-app_assoc|].
    unfold vec_len in *. rewrite length_app. lia.
Qed.

(** Writing within a budget is writing, when the whole fits. *)
Lemma bounded_json_spec {A} `{!JsonChunks A} (value : A) limit :
  bounded_json value limit =
  b ← json_bytes value; if (vec_len b <=? limit)%N then Some b else None.
Proof.
  unfold bounded_json, json_bytes. destruct (json_chunks value) as [chunks complete].
  rewrite budget_write_fold by (unfold vec_len; simpl; lia). simpl.
  destruct complete; simpl; by destruct (vec_len (concat chunks) <=? limit)%N.
Qed.

(** A commit the serializer writes as UTF-8 text; its text as a JSON string has the quotes
    besides. *)
Definition entry_of (value : T) (e : string * N) : Prop :=
  ∃ raw, json_bytes value = Some raw ∧ from_utf8 raw = Some e.1 ∧
    (vec_len raw + 2 ≤ e.2)%N ∧ (vec_len <$> json_bytes e.1) = Some e.2.

(** What adding a string of quoted length [q] costs. *)
Definition cost (first : bool) (q : N) : N := (q + if first then 0 else 1)%N.

Lemma array_bytes_snoc l q :
  array_bytes (l ++ [q]) = (array_bytes l + cost (bool_decide (l = [])) q)%N.
Proof.
  unfold array_bytes, cost, vec_len. rewrite foldr_app, length_app. simpl.
  assert (∀ a, foldr N.add a l = foldr N.add 0 l + a)%N as Hf.
  { intros a. induction l as [|x l IH]; simpl; [lia|]. rewrite IH. lia. }
  rewrite Hf. destruct l as [|x l]; simpl; lia.
Qed.

Lemma array_bytes_mono l l' : (array_bytes l ≤ array_bytes (l ++ l'))%N.
Proof.
  induction l' as [|q l' IH] using rev_ind; [by rewrite app_nil_r|].
  rewrite app_assoc, array_bytes_snoc. lia.
Qed.

Lemma entry_of_item value e first available :
  entry_of value e →
  window_item value first available =
  Ok (if (cost first e.2 <=? available)%N then Some (e.1, cost first e.2) else None).
Proof.
  intros (raw & Hraw & Hu & Hle & Hq). unfold window_item, cost.
  rewrite bounded_json_spec, Hraw. simpl.
  destruct (json_bytes e.1) as [quoted|] eqn:Hquoted; [|done]. injection Hq as Hq.
  destruct (N.leb_spec (vec_len raw) available) as [Hf|Hf].
  - rewrite Hu. simpl. rewrite bounded_json_spec, Hquoted. simpl. unfold saturating_sub.
    rewrite <-Hq in *. destruct first; simpl; destruct_leb; simpl; try done; lia.
  - destruct (N.leb_spec (e.2 + if first then 0 else 1) available); [|done].
    destruct first; lia.
Qed.

(** The loop keeps a prefix that fits and stops at the first commit that does not. *)
Lemma window_loop_exact max_bytes items es done_ :
  Forall2 entry_of items es → (array_bytes done_.*2 ≤ max_bytes)%N →
  ∃ k, k ≤ length es ∧
    window_loop max_bytes items done_.*1 (array_bytes done_.*2) =
    Ok ((done_ ++ take k es).*1, array_bytes (done_ ++ take k es).*2,
        bool_decide (done_ ++ take k es = [] ∧ k < length es)) ∧
    (array_bytes (done_ ++ take k es).*2 ≤ max_bytes)%N ∧
    (k < length es → (max_bytes < array_bytes (done_ ++ take (S k) es).*2)%N).
Proof.
  intros Hes. revert done_. induction Hes as [|value e items es He Hes IH]; intros done_ Hd.
  { exists 0. rewrite take_0, app_nil_r. split; [done|]. split; [|by split; [|simpl; lia]].
    simpl. by rewrite bool_decide_eq_false_2 by (simpl; lia). }
  simpl. rewrite (entry_of_item _ _ _ _ He). simpl.
  assert (bool_decide (done_.*1 = []) = bool_decide (done_.*2 = [])) as Hb.
  { apply bool_decide_ext. by destruct done_. }
  rewrite Hb.
  assert (array_bytes (done_ ++ [e]).*2 =
    (array_bytes done_.*2 + cost (bool_decide (done_.*2 = [])) e.2)%N) as Hsnoc.
  { rewrite fmap_app. apply array_bytes_snoc. }
  destruct (N.leb_spec (cost (bool_decide (done_.*2 = [])) e.2)
              (max_bytes - array_bytes done_.*2)) as [Hfit|Hfit].
  - destruct (IH (done_ ++ [e])) as (k & Hk & Hl & Hmax & Hstop).
    { rewrite Hsnoc. lia. }
    exists (S k). split; [lia|]. rewrite <-Hsnoc.
    replace (done_.*1 ++ [e.1]) with (done_ ++ [e]).*1 by (by rewrite fmap_app).
    rewrite Hl. simpl. rewrite <-!app_assoc in *. simpl in *. repeat split; [|done|].
    + f_equal. f_equal. apply bool_decide_ext. split; intros [Hn ?]; by destruct done_.
    + intros ?. apply Hstop. lia.
  - exists 0. split; [lia|]. rewrite take_0, app_nil_r. simpl. repeat split; [|done|].
    + f_equal. f_equal. apply bool_decide_ext. destruct done_; simpl;
        [split; [split; [done|lia]|done]|split; [done|by intros [? _]]].
    + intros _. rewrite take_0, Hsnoc. lia.
Qed.

Lemma admits_loop_spec bytes items es done_ :
  Forall2 entry_of items es → (array_bytes done_ ≤ bytes)%N →
  admits_loop bytes items (array_bytes done_) (negb (bool_decide (done_ = []))) =
  if (array_bytes (done_ ++ es.*2) <=? bytes)%N then Ok tt else Err QueueCapacity.
Proof.
  intros Hes. revert done_. induction Hes as [|value e items es He Hes IH]; intros done_ Hd.
  { simpl. rewrite app_nil_r. by rewrite (proj2 (N.leb_le _ _) Hd). }
  pose proof (entry_of_item value e (bool_decide (done_ = [])) (bytes - array_bytes done_) He)
    as Hitem. unfold window_item in Hitem. csimpl.
  assert ((if negb (bool_decide (done_ = [])) then 1 else 0) =
          (if bool_decide (done_ = []) then 0 else 1))%N as Hcomma by (by case_bool_decide).
  rewrite Hcomma.
  replace (done_ ++ e.2 :: es.*2) with ((done_ ++ [e.2]) ++ es.*2) by (by rewrite <-app_assoc).
  pose proof (array_bytes_snoc done_ e.2) as Hsnoc.
  pose proof (array_bytes_mono (done_ ++ [e.2]) es.*2) as Hmono.
  destruct (bounded_json value _) as [raw|]; simpl in *.
  - destruct (from_utf8 raw) as [text|]; simpl in *; [|done].
    destruct (bounded_json text _) as [quoted|]; simpl in *.
    + destruct (N.leb_spec (cost (bool_decide (done_ = [])) e.2)
                  (bytes - array_bytes done_)); [|done].
      injection Hitem as _ Hn. rewrite Hn, <-Hsnoc, <-(IH (done_ ++ [e.2])) by lia.
      f_equal. symmetry. by apply negb_true_iff, bool_decide_eq_false_2; destruct done_.
    + destruct (N.leb_spec (cost (bool_decide (done_ = [])) e.2)
                  (bytes - array_bytes done_)); [done|].
      destruct (N.leb_spec (array_bytes ((done_ ++ [e.2]) ++ es.*2)) bytes); [lia|done].
  - destruct (N.leb_spec (cost (bool_decide (done_ = [])) e.2)
                (bytes - array_bytes done_)); [done|].
    destruct (N.leb_spec (array_bytes ((done_ ++ [e.2]) ++ es.*2)) bytes); [lia|done].
Qed.
End queue.
