(* ===== verification/ReadJournal.v ===== *)
(** * The native read journal.

    Models [crates/surrealdb-rn-core/src/sync_read.rs]: the wire form of read snapshots and
    batches (counters as decimal strings, payloads untouched), the bounded replay journal
    with its epochs, and the cursors of local views.  The JSON of the read types is what
    their [serde] attributes in [crates/surrealdb-sync-client/src/read.rs] derive. *)

From S2P Require Import Prelude Protocol Subscription ClientState Client Read NativeErrors Json NativeCodec.

Definition READ_MAX_BATCHES : N := 128.
Definition MAX_JOURNAL_BYTES : N := 4194304.
Definition MAX_OUTPUT_BYTES : N := 16777216.

(** ** Indexing JSON *)

(** Indexing for mutation panics on anything that is not an object or null. *)
Inductive fault := Native (e : NativeSyncError) | Panic.
#[export] Instance fault_eq_dec : EqDecision fault.
Proof. solve_decision. Defined.

(** [value["key"]] *)
Definition json_index (k : string) (v : JsonValue) : JsonValue :=
  match v with JObject entries => default JNull (json_get k entries) | _ => JNull end.

(** [map.insert(key, value)] on entries in key order. *)
Fixpoint json_insert (k : string) (v : JsonValue) (entries : list (string * JsonValue))
  : list (string * JsonValue) :=
  match entries with
  | [] => [(k, v)]
  | (k', v') :: rest =>
      match str_cmp k k' with
      | Lt => (k, v) :: entries
      | Eq => (k, v) :: rest
      | Gt => (k', v') :: json_insert k v rest
      end
  end.

(** [f(&mut value["key"])] *)
Definition json_index_mut (k : string) (f : JsonValue → result JsonValue fault)
    (v : JsonValue) : result JsonValue fault :=
  match v with
  | JNull => let? x := f JNull in Ok (JObject [(k, x)])
  | JObject entries =>
      let? x := f (default JNull (json_get k entries)) in Ok (JObject (json_insert k x entries))
  | _ => Err Panic
  end.

Definition json_is (v : JsonValue) (s : string) : bool := bool_decide (v = JString s).
Definition json_is_object (v : JsonValue) : bool :=
  match v with JObject _ => true | _ => false end.

(** [for x in value.as_array_mut().ok_or(e)? { f(x)?; }] *)
Definition json_each (e : NativeSyncError) (f : JsonValue → result JsonValue fault)
    (v : JsonValue) : result JsonValue fault :=
  match v with
  | JArray l => let? l := try_map f l in Ok (JArray l)
  | _ => Err (Native e)
  end.
(** [for x in value.as_object_mut().ok_or(e)?.values_mut() { f(x)?; }] *)
Definition json_each_value (e : NativeSyncError) (f : JsonValue → result JsonValue fault)
    (v : JsonValue) : result JsonValue fault :=
  match v with
  | JObject l => let? l := try_map (λ kv, let? x := f kv.2 in Ok (kv.1, x)) l in Ok (JObject l)
  | _ => Err (Native e)
  end.

(** ** The derived JSON of the read types *)

Definition json_u64 (n : N) : JsonValue := JNumber (PosInt n).
Definition json_option {A} (f : A → JsonValue) (o : option A) : JsonValue :=
  match o with Some a => f a | None => JNull end.

Section derived.
(** How a counter is written: [json_u64] by the derived serializers. *)
Variable counter : N → JsonValue.

Definition cursor_json (c : Cursor) : JsonValue :=
  JObject [("epoch", counter (epoch c)); ("sequence", counter (sequence c))].
Definition read_scope_json (s : ReadScopeV1) : JsonValue :=
  JObject [("authorizationRevision", json_option counter (rs_authorization_revision s));
           ("partitionId", JString (rs_partition_id s));
           ("scopeIdentity", JString (rs_scope_identity s));
           ("subscriptionRevision", counter (rs_subscription_revision s))].
Definition readiness_json (r : ReadReadinessV1) : JsonValue :=
  JString match r with
          | LocalAvailableAwaitingCoverage => "local_available_awaiting_coverage"
          | AuthorizedScopeAsOf => "authorized_scope_as_of"
          end.
Definition coverage_json (c : ReadCoverageV1) : JsonValue :=
  match c with
  | CoverageUnknown => JObject [("kind", JString "unknown")]
  | AuthorizedReset c =>
      JObject [("cursor", cursor_json c); ("kind", JString "authorized_reset")]
  end.
Definition metadata_json (m : ReadMetadataV1) : JsonValue :=
  JObject [("asOf", json_option cursor_json (rm_as_of m));
           ("coverage", coverage_json (rm_coverage m));
           ("readiness", readiness_json (rm_readiness m));
           ("revision", counter (rm_revision m));
           ("scope", read_scope_json (rm_scope m))].

Definition identity_json (i : CommitIdentity) : JsonValue :=
  JObject [("clientCommitId", JString (client_commit_id i));
           ("fingerprint", JString (fingerprint i))].
Definition resolution_json (r : ConflictResolution) : JsonValue :=
  match r with
  | KeepServer => JObject [("strategy", JString "keep_server")]
  | PreferServerPolicyV1 => JObject [("strategy", JString "prefer_server_policy_v1")]
  | KeepLocal i => JObject [("replacement", identity_json i); ("strategy", JString "keep_local")]
  | Merge i => JObject [("replacement", identity_json i); ("strategy", JString "merge")]
  end.
Definition conflict_json (c : ReadConflictV1) : JsonValue :=
  JObject [("identity", identity_json (rc_identity c));
           ("resolution", json_option resolution_json (rc_resolution c))].
Definition accepted_json (a : ReadAcceptedV1) : JsonValue :=
  JObject [("identity", identity_json (ra_identity a));
           ("sequence", counter (ra_sequence a));
           ("status", JString match ra_status a with
                              | CoveredByAuthorizedReset => "covered_by_authorized_reset"
                              | AwaitingPullEpochUnknown => "awaiting_pull_epoch_unknown"
                              end)].
Definition record_state_json (s : RecordState JsonValue) : JsonValue :=
  match s with
  | Absent => JObject [("state", JString "absent")]
  | Present value version reference =>
      JObject [("reference", json_option JString reference); ("state", JString "present");
               ("value", value); ("version", counter version)]
  | Tombstone version => JObject [("state", JString "tombstone"); ("version", counter version)]
  end.
Definition base_version_json (b : BaseVersion) : JsonValue :=
  match b with
  | BaseAbsent => JString "absent"
  | Exact n => JObject [("exact", counter n)]
  end.
Definition optimistic_json (o : OptimisticRecord JsonValue) : JsonValue :=
  match o with
  | OptPresent value base reference =>
      JObject [("baseVersion", base_version_json base);
               ("reference", json_option JString reference);
               ("state", JString "present"); ("value", value)]
  | OptDeleted base => JObject [("baseVersion", counter base); ("state", JString "deleted")]
  end.
Definition absence_json (a : ReadConfirmedAbsenceV1) : JsonValue :=
  JString match a with
          | NotAbsent => "not_absent"
          | AbsenceUnknown => "unknown"
          | AbsentWithinAuthorizedScope => "absent_within_authorized_scope"
          end.
Definition row_json (r : ReadRowV1 JsonValue) : JsonValue :=
  JObject [("accepted", JArray (accepted_json <$> rr_accepted r));
           ("confirmed", record_state_json (rr_confirmed r));
           ("confirmedAbsence", absence_json (rr_confirmed_absence r));
           ("conflicts", JArray (conflict_json <$> rr_conflicts r));
           ("optimistic", json_option optimistic_json (rr_optimistic r));
           ("pending", JArray (identity_json <$> rr_pending r));
           ("recordId", JString (rr_record_id r))].
Definition snapshot_json (s : ReadSnapshotV1 JsonValue) : JsonValue :=
  JObject [("metadata", metadata_json (rsnap_metadata s));
           ("protocolVersion", json_u64 (rsnap_protocol_version s));
           ("rows", JObject ((λ kv, (kv.1, row_json kv.2)) <$> btree_entries (rsnap_rows s)))].
Definition change_json (c : ReadRowChangeV1 JsonValue) : JsonValue :=
  match c with
  | RowUpsert row => JObject [("kind", JString "upsert"); ("row", row_json row)]
  | RowRemove id => JObject [("kind", JString "remove"); ("recordId", JString id)]
  end.
Definition batch_json (b : CommittedReadBatchV1 JsonValue) : JsonValue :=
  JObject [("beforeRevision", counter (rb_before_revision b));
           ("changes", JArray (change_json <$> rb_changes b));
           ("metadata", metadata_json (rb_metadata b));
           ("protocolVersion", json_u64 (rb_protocol_version b));
           ("revision", counter (rb_revision b))].
End derived.

(** ** The wire form *)

Definition json_decimal (n : N) : JsonValue := JString (u64_to_string n).

Definition decimal (value : JsonValue) : result JsonValue fault :=
  match value with
  | JNumber n => let? n := ok_or (number_as_u64 n) (Native Internal) in Ok (json_decimal n)
  | _ => Err (Native Internal)
  end.

Definition frontier (value : JsonValue) : result JsonValue fault :=
  let? value := json_index_mut "epoch" decimal value in
  json_index_mut "sequence" decimal value.

Definition metadata_wire (value : JsonValue) : result JsonValue fault :=
  let? value := json_index_mut "revision" decimal value in
  let? value := json_index_mut "scope" (json_index_mut "subscriptionRevision" decimal) value in
  let? value :=
    if decide (json_index "authorizationRevision" (json_index "scope" value) = JNull)
    then Ok value
    else json_index_mut "scope" (json_index_mut "authorizationRevision" decimal) value in
  let? value :=
    if decide (json_index "asOf" value = JNull) then Ok value
    else json_index_mut "asOf" frontier value in
  if json_is (json_index "kind" (json_index "coverage" value)) "authorized_reset"
  then json_index_mut "coverage" (json_index_mut "cursor" frontier) value
  else Ok value.

Definition row_wire (value : JsonValue) : result JsonValue fault :=
  let? value :=
    if decide (json_index "version" (json_index "confirmed" value) = JNull) then Ok value
    else json_index_mut "confirmed" (json_index_mut "version" decimal) value in
  let optimistic := json_index "optimistic" value in
  let? value :=
    if json_is (json_index "state" optimistic) "present" then
      if json_is_object (json_index "baseVersion" optimistic)
      then json_index_mut "optimistic"
             (json_index_mut "baseVersion" (json_index_mut "exact" decimal)) value
      else Ok value
    else if json_is (json_index "state" optimistic) "deleted"
    then json_index_mut "optimistic" (json_index_mut "baseVersion" decimal) value
    else Ok value in
  json_index_mut "accepted" (json_each Internal (json_index_mut "sequence" decimal)) value.

Definition snapshot_wire (value : JsonValue) : result JsonValue fault :=
  let? value := json_index_mut "metadata" metadata_wire value in
  json_index_mut "rows" (json_each_value Internal row_wire) value.

(** The closure of [record] before the text. *)
Definition change_wire (change : JsonValue) : result JsonValue fault :=
  if json_is (json_index "kind" change) "upsert"
  then json_index_mut "row" row_wire change else Ok change.
Definition batch_wire (value : JsonValue) : result JsonValue fault :=
  let? value := json_index_mut "beforeRevision" decimal value in
  let? value := json_index_mut "revision" decimal value in
  let? value := json_index_mut "metadata" metadata_wire value in
  json_index_mut "changes" (json_each Internal change_wire) value.

(** ** The journal *)

(** [Cursor] *)
Record ReadCursor := mkReadCursor { rcur_process_epoch : string; rcur_revision : string }.

Record JournalBatch := mkJournalBatch { ba_before : N; ba_revision : N; ba_json : string }.

Record JournalEpoch := mkEpoch { je_prefix : string; je_generation : N }.

Record ReadJournal := mkJournal {
  rj_epoch : JournalEpoch;
  rj_batches : list JournalBatch;
  rj_bytes : N;
  rj_view_cursors : list string;
}.

(** [Default], with the random prefix. *)
Definition journal_default (prefix : string) : ReadJournal :=
  mkJournal (mkEpoch prefix 0) [] 0 [].

Definition epoch_value (e : JournalEpoch) : string :=
  je_prefix e +:+ ":" +:+ u64_to_string (je_generation e).

(** [JournalEpoch::advance] *)
Definition epoch_advance (e : JournalEpoch) : result JournalEpoch NativeSyncError :=
  let? generation := ok_or (checked_add u64_max (je_generation e) 1) RecoveryRequired in
  Ok (mkEpoch (je_prefix e) generation).

Definition journal_rotate (self : ReadJournal) : result ReadJournal NativeSyncError :=
  let? epoch := epoch_advance (rj_epoch self) in Ok (mkJournal epoch [] 0 []).

Definition journal_cursor (self : ReadJournal) (revision : N) : JsonValue :=
  JObject [("processEpoch", JString (epoch_value (rj_epoch self)));
           ("revision", json_decimal revision)].

Definition issued_view_cursor (self : ReadJournal) (cursor : string) : bool :=
  existsb (λ issued, bool_decide (issued = cursor)) (rj_view_cursors self).

Definition cursors_bytes (cursors : list string) : N :=
  foldr (λ c n, str_len c + n)%N 0%N cursors.

(** The loop of [remember_view_cursor]. *)
Fixpoint remember_loop (cursors : list string) (cursor : string) : list string :=
  if decide ((64 ≤ vec_len cursors)%N
             ∨ (262144 < cursors_bytes cursors + str_len cursor)%N) then
    match cursors with [] => [] | _ :: cursors => remember_loop cursors cursor end
  else cursors ++ [cursor].
Definition remember_view_cursor (self : ReadJournal) (cursor : string) : ReadJournal :=
  mkJournal (rj_epoch self) (rj_batches self) (rj_bytes self)
    (remember_loop (rj_view_cursors self) cursor).

(** The eviction loops of both journals: [while len >= max_len || bytes + new > max].
    On an empty queue the source's loop would spin while its condition holds;
    [evict_fits] shows that it never does. *)
Fixpoint evict (max_len max_bytes new : N) (batches : list JournalBatch) (bytes : N)
  : list JournalBatch * N :=
  match batches with
  | [] => ([], bytes)
  | old :: rest =>
      if decide ((max_len ≤ vec_len batches)%N ∨ (max_bytes < bytes + new)%N)
      then evict max_len max_bytes new rest (wrapping_sub_u64 bytes (str_len (ba_json old)))
      else (batches, bytes)
  end.

Section journal.
Context `{!SerdeJson JsonValue, !SerdeJson ReadCursor}.
Implicit Types runtime : DurableClientState JsonValue.

Definition journal_bootstrap (self : ReadJournal) runtime : result JsonValue fault :=
  let? snapshot := snapshot_wire (snapshot_json json_u64 (snapshot runtime)) in
  Ok (JObject [("cursor", journal_cursor self (st_revision runtime)); ("snapshot", snapshot)]).

(** [encoded.filter(|s| s.len() <= MAX_JOURNAL_BYTES)] *)
Definition encode_batch (batch : CommittedReadBatchV1 JsonValue) : option string :=
  match batch_wire (batch_json json_u64 batch) with
  | Err _ => None
  | Ok value =>
      match to_text value with
      | Ok s => if (str_len s <=? MAX_JOURNAL_BYTES)%N then Some s else None
      | Err _ => None
      end
  end.

(** [ReadJournal::record] *)
Definition journal_record (self : ReadJournal)
    (batch : option (CommittedReadBatchV1 JsonValue)) : ReadJournal :=
  match batch with
  | None => self
  | Some batch =>
      match encode_batch batch with
      | None => mkJournal (rj_epoch self) [] 0 (rj_view_cursors self)
      | Some encoded =>
          let '(batches, bytes) :=
            evict READ_MAX_BATCHES MAX_JOURNAL_BYTES (str_len encoded)
              (rj_batches self) (rj_bytes self) in
          mkJournal (rj_epoch self)
            (batches ++ [mkJournalBatch (rb_before_revision batch) (rb_revision batch) encoded])
            (bytes + str_len encoded) (rj_view_cursors self)
      end
  end.

(** The replay loop: the batches from [first], each one starting where the last ended. *)
Fixpoint replay (batches : list JournalBatch) (after : N)
  : result (list JsonValue * N) NativeSyncError :=
  match batches with
  | [] => Ok ([], after)
  | batch :: batches =>
      if decide (ba_before batch ≠ after) then Err Internal else
      let? value := map_err (λ _, Internal) (from_text (ba_json batch)) in
      let? (values, after) := replay batches (ba_revision batch) in
      Ok (value :: values, after)
  end.

Definition journal_changes (self : ReadJournal) runtime (cursor : string) (limit : N)
  : result JsonValue fault :=
  if decide (¬ (1 ≤ limit ≤ READ_MAX_BATCHES)%N ∨ (4096 < str_len cursor)%N)
  then Err (Native InvalidInput) else
  let? cursor := map_err (λ _, Native InvalidInput) (from_text cursor) in
  let? revision := ok_or (canonical_u64 (rcur_revision cursor)) (Native InvalidInput) in
  let current := st_revision runtime in
  let first := position (λ batch, bool_decide (ba_before batch = revision)) (rj_batches self) in
  if decide (rcur_process_epoch cursor ≠ epoch_value (rj_epoch self)
             ∨ (current < revision)%N
             ∨ ((revision < current)%N ∧ first = None)) then
    let? reset := journal_bootstrap self runtime in
    json_index_mut "kind" (λ _, Ok (JString "reset_required")) reset
  else
    let? (batches, after) :=
      if (revision <? current)%N then
        map_err Native (replay (take (N.to_nat limit)
          (drop (default 0 (fst <$> first)) (rj_batches self))) revision)
      else Ok ([], revision) in
    Ok (JObject [("batches", JArray batches); ("cursor", journal_cursor self after);
                 ("kind", JString "batches")]).

(** [output] *)
Definition read_output (value : JsonValue) : result string NativeSyncError :=
  let? json := map_err (λ _, Internal) (to_text value) in
  if (MAX_OUTPUT_BYTES <? str_len json)%N then Err ReadOutputTooLarge else Ok json.
End journal.

(** [capabilities] *)
Definition read_capabilities : JsonValue :=
  JObject [("maxJournalBatches", json_u64 READ_MAX_BATCHES);
           ("maxJournalBytes", json_u64 MAX_JOURNAL_BYTES);
           ("maxOutputBytes", json_u64 MAX_OUTPUT_BYTES);
           ("predicateSubscriptions", JBool false);
           ("protocolVersion", json_u64 1);
           ("requiresMatchingNativeAbi", JBool true)].
