(* ===== verification/SubscriptionJournal.v ===== *)
(** * The native subscription bridge.

    Models [crates/surrealdb-rn-core/src/sync_subscription.rs]: the JSON wire of
    subscription requests and responses, in which counters travel as decimal strings, the
    frames of installed windows and the bounded replay journal per subscription. *)

From Stdlib Require Import Strings.Byte.
From S2P Require Import Prelude Protocol Subscription ClientState SubscriptionState Validate Client SubscriptionClient Canonical HttpCodec SubscriptionCodec NativeErrors Json Wire NativeCodec StateRows ReadJournal.

Definition MAX_QUERY_BYTES : N := 1048576.
Definition MAX_TOTAL_BYTES : N := 16777216.
Definition SUB_MAX_BATCHES : N := 128.
Definition MAX_OUTPUT : N := 16777216.

(** ** The wire *)

(** [json!(number)] of an [i64] *)
Definition json_i64 (z : Z) : JsonValue := JNumber (number_of_i64 z).

Definition unsigned (input : bool) (value : JsonValue) : result JsonValue fault :=
  if input then
    match value with
    | JString text =>
        let? number := ok_or (canonical_u64 text) (Native InvalidInput) in Ok (json_u64 number)
    | _ => Err (Native InvalidInput)
    end
  else decimal value.

Definition json_as_i64 (value : JsonValue) : option Z :=
  match value with JNumber n => number_as_i64 n | _ => None end.

Definition scalar (input : bool) (value : JsonValue) : result JsonValue fault :=
  if json_is (json_index "kind" value) "int" then
    if input then
      match json_index "value" value with
      | JString text =>
          match parse_i64 text with
          | None => Err (Native InvalidInput)
          | Some number =>
              if decide (i64_to_string number ≠ text) then Err (Native InvalidInput)
              else json_index_mut "value" (λ _, Ok (json_i64 number)) value
          end
      | _ => Err (Native InvalidInput)
      end
    else
      let? number := ok_or (json_as_i64 (json_index "value" value)) (Native Internal) in
      json_index_mut "value" (λ _, Ok (JString (i64_to_string number))) value
  else Ok value.

(** [scope] and [frontier] *)
Definition sub_scope (input : bool) (value : JsonValue) : result JsonValue fault :=
  let? value := json_index_mut "authorizationRevision" (unsigned input) value in
  json_index_mut "subscriptionRevision" (unsigned input) value.
Definition sub_frontier (input : bool) (value : JsonValue) : result JsonValue fault :=
  let? value := json_index_mut "epoch" (unsigned input) value in
  json_index_mut "sequence" (unsigned input) value.

Definition request_wire (input : bool) (value : JsonValue) : result JsonValue fault :=
  let? value := json_index_mut "subscriptionRevision" (unsigned input) value in
  let? value := json_index_mut "command" (json_index_mut "generation" (unsigned input)) value in
  if json_is (json_index "kind" (json_index "command" value)) "start"
  then json_index_mut "command"
         (json_index_mut "parameters" (json_each_value InvalidInput (scalar input))) value
  else Ok value.

Definition sub_row_wire (input : bool) (value : JsonValue) : result JsonValue fault :=
  let? value := json_index_mut "version" (unsigned input) value in
  json_index_mut "sortKey" (scalar input) value.

Definition membership_wire (input : bool) (change : JsonValue) : result JsonValue fault :=
  if json_is (json_index "kind" change) "upsert"
  then json_index_mut "row" (sub_row_wire input) change
  else if json_is (json_index "kind" change) "delete"
  then json_index_mut "version" (unsigned input) change
  else Ok change.

Definition response_wire (input : bool) (value : JsonValue) : result JsonValue fault :=
  let? value := json_index_mut "generation" (unsigned input) value in
  let? value := json_index_mut "viewRevision" (unsigned input) value in
  let? value := json_index_mut "scope" (sub_scope input) value in
  let? value := json_index_mut "frontier" (sub_frontier input) value in
  let? value :=
    if json_is (json_index "kind" (json_index "response" value)) "delta"
    then json_index_mut "response" (json_index_mut "beforeRevision" (unsigned input)) value
    else Ok value in
  json_index_mut "changes" (json_each InvalidInput (membership_wire input)) value.

(** ** The derived JSON of the subscription types *)

Section derived.
Variable counter : N → JsonValue.
Variable integer : Z → JsonValue.

Definition scalar_json (q : QueryScalar) : JsonValue :=
  match q with
  | SBool b => JObject [("kind", JString "bool"); ("value", JBool b)]
  | SInt z => JObject [("kind", JString "int"); ("value", integer z)]
  | SText s => JObject [("kind", JString "text"); ("value", JString s)]
  end.
Definition command_json (c : SubscriptionCommand) : JsonValue :=
  match c with
  | CmdStart id generation definition_id parameters limit =>
      JObject [("definitionId", JString definition_id); ("generation", counter generation);
               ("kind", JString "start"); ("limit", json_u64 limit);
               ("parameters",
                 JObject ((λ kv, (kv.1, scalar_json kv.2)) <$> btree_entries parameters));
               ("subscriptionId", JString id)]
  | CmdResume id generation token =>
      JObject [("generation", counter generation); ("kind", JString "resume");
               ("subscriptionId", JString id); ("token", JString token)]
  | CmdCancel id generation =>
      JObject [("generation", counter generation); ("kind", JString "cancel");
               ("subscriptionId", JString id)]
  end.
Definition request_json (r : SubscriptionRequest) : JsonValue :=
  JObject [("clientId", JString (sreq_client_id r)); ("command", command_json (sreq_command r));
           ("partitionId", JString (sreq_partition_id r));
           ("requestedScope", JString (sreq_requested_scope r));
           ("subscriptionRevision", counter (sreq_subscription_revision r))].
Definition scope_json (s : ScopeSnapshot) : JsonValue :=
  JObject [("authorizationRevision", counter (authorization_revision s));
           ("identity", JString (scope_identity s));
           ("subscriptionRevision", counter (scope_subscription_revision s))].
Definition kind_json (k : ScalarKind) : JsonValue :=
  JString match k with KBool => "bool" | KInt => "int" | KText => "text" end.
Definition window_json (w : WindowCoverage) : JsonValue :=
  JObject [("definitionId", JString (win_definition_id w));
           ("direction", JString match win_direction w with
                                 | Ascending => "ascending" | Descending => "descending" end);
           ("limit", json_u64 (win_limit w)); ("orderField", JString (win_order_field w));
           ("orderKind", kind_json (win_order_kind w))].
Definition sub_row_json (r : SubscriptionRow JsonValue) : JsonValue :=
  JObject [("recordId", JString (row_record_id r)); ("sortKey", scalar_json (row_sort_key r));
           ("value", row_value r); ("version", counter (row_version r))].
Definition membership_json (c : MembershipChange JsonValue) : JsonValue :=
  match c with
  | MUpsert row => JObject [("kind", JString "upsert"); ("row", sub_row_json row)]
  | MLeave id => JObject [("kind", JString "leave"); ("recordId", JString id)]
  | MDelete id version =>
      JObject [("kind", JString "delete"); ("recordId", JString id); ("version", counter version)]
  end.
Definition reset_reason_json (r : WindowResetReason) : JsonValue :=
  JString match r with
          | Initial => "initial" | Subscription.Expired => "expired" | Stale => "stale"
          | WEpochChanged => "epoch_changed" | PlanChanged => "plan_changed"
          end.
Definition response_kind_json (k : WindowResponseKind) : JsonValue :=
  match k with
  | WSnapshot reason =>
      JObject [("kind", JString "snapshot"); ("reason", reset_reason_json reason)]
  | WDelta before => JObject [("beforeRevision", counter before); ("kind", JString "delta")]
  | WCancelled => JObject [("kind", JString "cancelled")]
  end.
Definition response_json (r : SubscriptionResponse JsonValue) : JsonValue :=
  JObject [("changes", JArray (membership_json <$> sr_changes r));
           ("clientId", JString (Subscription.sr_client_id r));
           ("coverage", window_json (sr_coverage r));
           ("frontier", cursor_json counter (sr_frontier r));
           ("generation", counter (sr_generation r));
           ("orderedIds", JArray (JString <$> sr_ordered_ids r));
           ("partitionId", JString (Subscription.sr_partition_id r));
           ("planFingerprint", JString (sr_plan_fingerprint r));
           ("response", response_kind_json (sr_response r));
           ("scope", scope_json (sr_scope r));
           ("subscriptionId", JString (sr_subscription_id r));
           ("token", json_option JString (sr_token r));
           ("viewRevision", counter (sr_view_revision r))].
Definition view_metadata_json (m : SubscriptionViewMetadata) : JsonValue :=
  JObject [("coverage", window_json (vm_coverage m));
           ("frontier", cursor_json counter (vm_frontier m));
           ("generation", counter (vm_generation m));
           ("planFingerprint", JString (vm_plan_fingerprint m));
           ("revision", counter (vm_revision m)); ("scope", scope_json (vm_scope m));
           ("subscriptionId", JString (vm_subscription_id m));
           ("viewRevision", counter (vm_view_revision m))].
Definition installed_json (s : InstalledSubscription JsonValue) : JsonValue :=
  JObject [("metadata", view_metadata_json (is_metadata s));
           ("pendingOutsideWindow",
             json_option (λ l, JArray (JString <$> l)) (is_pending_outside_window s));
           ("rows", JArray (sub_row_json <$> is_rows s))].
End derived.

(** [map_response] with the errors of the bridge *)
Definition map_change_value {A B} (convert : A → result B NativeSyncError)
    (change : MembershipChange A) : result (MembershipChange B) NativeSyncError :=
  match change with
  | MUpsert row =>
      let? value := convert (row_value row) in
      Ok (MUpsert (mkRow (row_record_id row) value (row_version row) (row_sort_key row)))
  | MLeave record_id => Ok (MLeave record_id)
  | MDelete record_id version => Ok (MDelete record_id version)
  end.
Definition map_response_values {A B} (response : SubscriptionResponse A)
    (convert : A → result B NativeSyncError) : result (SubscriptionResponse B) NativeSyncError :=
  let? changes := try_map (map_change_value convert) (sr_changes response) in
  Ok (mkSubResponse (Subscription.sr_partition_id response) (Subscription.sr_client_id response)
        (sr_subscription_id response) (sr_generation response) (sr_plan_fingerprint response)
        (sr_scope response) (sr_frontier response) (sr_view_revision response)
        (sr_coverage response) (sr_response response) (sr_token response)
        (sr_ordered_ids response) changes).

(** ** The journal *)

(** [Cursor] *)
Record SubscriptionCursor := mkSubCursor {
  scur_process_epoch : string;
  scur_subscription_id : string;
  scur_revision : string;
}.

Record History := mkHistory { hi_batches : list JournalBatch; hi_bytes : N }.
#[export] Instance History_inhabited : Inhabited History := populate (mkHistory [] 0).

Record SubscriptionJournal := mkSubJournal {
  sj_epoch : JournalEpoch;
  sj_histories : gmap string History;
}.

Definition sub_journal_default (prefix : string) : SubscriptionJournal :=
  mkSubJournal (mkEpoch prefix 0) ∅.

Definition sub_rotate (self : SubscriptionJournal)
  : result SubscriptionJournal NativeSyncError :=
  let? epoch := epoch_advance (sj_epoch self) in Ok (mkSubJournal epoch ∅).

Definition sub_cursor (self : SubscriptionJournal) (id : string) (revision : N) : JsonValue :=
  JObject [("processEpoch", JString (epoch_value (sj_epoch self)));
           ("revision", json_decimal revision); ("subscriptionId", JString id)].

Definition histories_bytes (hs : gmap string History) : N :=
  foldr (λ kv n, hi_bytes kv.2 + n)%N 0%N (btree_entries hs).

(** [min_by_key(|(_, r)| *r)]: the first of the smallest. *)
Definition oldest_history (hs : gmap string History) : option (string * N) :=
  foldl (λ best kv,
    match head (hi_batches kv.2), best with
    | None, _ => best
    | Some b, None => Some (kv.1, ba_revision b)
    | Some b, Some (_, r) => if (ba_revision b <? r)%N then Some (kv.1, ba_revision b) else best
    end) None (btree_entries hs).

Definition pop_front (h : History) : History :=
  match hi_batches h with
  | old :: rest => mkHistory rest (wrapping_sub_u64 (hi_bytes h) (str_len (ba_json old)))
  | [] => h
  end.

(** The aggregate loop: every turn drops one batch, so that the number of batches bounds
    the turns. *)
Fixpoint evict_total (fuel : nat) (hs : gmap string History) : gmap string History :=
  match fuel with
  | O => hs
  | S fuel =>
      if (MAX_TOTAL_BYTES <? histories_bytes hs)%N then
        match oldest_history hs with
        | None => hs
        | Some (id, _) => evict_total fuel (alter pop_front id hs)
        end
      else hs
  end.
Definition total_batches (hs : gmap string History) : nat :=
  foldr (λ kv n, length (hi_batches kv.2) + n) 0 (btree_entries hs).

Section bridge.
Context `{!SurrealTypes, !Ciborium, !Serde SubscriptionRequest, !Serde (SubscriptionResponse CborValue)}.
Context `{!SerdeJson JsonValue, !SerdeJson SubscriptionRequest, !SerdeJson (SubscriptionResponse JsonValue), !SerdeJson SubscriptionCursor}.
Implicit Types runtime : DurableClientState JsonValue.

Definition sub_input (text : string) : result JsonValue NativeSyncError :=
  if (MAX_SYNC_STATE_BYTES <? str_len text)%N then Err InvalidInput
  else map_err (λ _, InvalidInput) (from_text text).

Definition sub_output (value : JsonValue) : result string NativeSyncError :=
  let? text := map_err (λ _, Internal) (to_text value) in
  if (MAX_OUTPUT <? str_len text)%N then Err ReadOutputTooLarge else Ok text.

Definition parse_request (text : string) : result SubscriptionRequest fault :=
  let? value := map_err Native (sub_input text) in
  let? value := request_wire true value in
  map_err (λ _, Native InvalidInput) (from_value value).

Definition parse_response (text : string) : result (SubscriptionResponse JsonValue) fault :=
  let? value := map_err Native (sub_input text) in
  let? value := response_wire true value in
  let? response := map_err (λ _, Native InvalidInput)
    (from_value (T := SubscriptionResponse JsonValue) value) in
  let? canonical := map_err Native (map_response_values response canonical_json) in
  let? _ := map_err (λ _, Native InvalidInput) (encode_subscription_response canonical) in
  Ok response.

Definition encode_subscription_request_json (request_json : string)
  : result (list byte) fault :=
  let? request := parse_request request_json in
  map_err (λ _, Native InvalidInput) (encode_subscription_request request).

Definition decode_subscription_response_json (bytes : list byte) : result string fault :=
  let? response := map_err (λ _, Native ProtocolError) (decode_subscription_response bytes) in
  let? response := map_err Native (map_response_values response canonical_to_json) in
  let? value := response_wire false (response_json json_u64 json_i64 response) in
  map_err Native (sub_output value).

(** [request] *)
Definition request_value runtime (id : string) : result JsonValue fault :=
  if negb (valid_subscription_text id) then Err (Native InvalidInput) else
  match subscription_request runtime id with
  | None => Ok JNull
  | Some request => request_wire false (request_json json_u64 json_i64 request)
  end.

(** The wire of an installed window. *)
Definition installed_wire (value : JsonValue) : result JsonValue fault :=
  let? value := try_fold (λ value field,
    json_index_mut "metadata" (json_index_mut field (unsigned false)) value)
    value ["revision"; "generation"; "viewRevision"] in
  let? value := json_index_mut "metadata" (json_index_mut "scope" (sub_scope false)) value in
  let? value := json_index_mut "metadata" (json_index_mut "frontier" (sub_frontier false)) value in
  json_index_mut "rows" (json_each Internal (sub_row_wire false)) value.

Definition frame runtime (id : string) : result JsonValue fault :=
  let? snapshot :=
    match subscription_snapshot runtime id with
    | Some snapshot => installed_wire (installed_json json_u64 json_i64 snapshot)
    | None => Ok JNull
    end in
  let cancelled :=
    match st_subscriptions runtime with
    | Some state => cancelled state !! id
    | None => None
    end in
  let? request := request_value runtime id in
  Ok (JObject [("cancelledThrough", json_option json_decimal cancelled);
               ("request", request); ("snapshot", snapshot)]).

Definition sub_bootstrap (self : SubscriptionJournal) runtime (id : string)
  : result JsonValue fault :=
  if negb (valid_subscription_text id) then Err (Native InvalidInput) else
  let? value := frame runtime id in
  json_index_mut "cursor" (λ _, Ok (sub_cursor self id (st_revision runtime))) value.

(** The text of one frame of [record]. *)
Definition encode_frame runtime (before : N) (id : string) : result string fault :=
  let? value := frame runtime id in
  let? value := json_index_mut "beforeRevision" (λ _, Ok (json_decimal before)) value in
  let? value := json_index_mut "revision" (λ _, Ok (json_decimal (st_revision runtime))) value in
  map_err Native (sub_output value).

Definition record_history runtime (before : N) (hs : gmap string History) (id : string)
  : gmap string History :=
  let history := default (mkHistory [] 0) (hs !! id) in
  <[id :=
    match encode_frame runtime before id with
    | Err _ => mkHistory [] 0
    | Ok encoded =>
        if (MAX_QUERY_BYTES <? str_len encoded)%N then mkHistory [] 0 else
        let '(batches, bytes) :=
          evict SUB_MAX_BATCHES MAX_QUERY_BYTES (str_len encoded)
            (hi_batches history) (hi_bytes history) in
        mkHistory (batches ++ [mkJournalBatch before (st_revision runtime) encoded])
          (bytes + str_len encoded)
    end]> hs.

(** The subscription ids of a state, as a [BTreeSet] in order. *)
Definition subscription_ids (state : DurableSubscriptions JsonValue) : list string :=
  merge_sort String.le
    (elements (dom (requests state) ∪ dom (cancelled state) ∪ dom (slots state))).

Definition sub_record (self : SubscriptionJournal) runtime (before : N)
  : SubscriptionJournal :=
  if decide (before = st_revision runtime) then self else
  match st_subscriptions runtime with
  | None => self
  | Some state =>
      let hs := foldl (record_history runtime before) (sj_histories self)
                  (subscription_ids state) in
      mkSubJournal (sj_epoch self) (evict_total (total_batches hs) hs)
  end.

(** The revision a batch reports, as [changes] reads it back from its text. *)
Definition batch_revision (value : JsonValue) : option N :=
  match json_index "revision" value with JString r => parse_u64 r | _ => None end.

Definition sub_changes (self : SubscriptionJournal) runtime (id cursor : string) (limit : N)
  : result JsonValue fault :=
  if decide (valid_subscription_text id = false ∨ ¬ (1 ≤ limit ≤ SUB_MAX_BATCHES)%N
             ∨ (4096 < str_len cursor)%N)
  then Err (Native InvalidInput) else
  let? cursor := map_err (λ _, Native InvalidInput) (from_text (T := SubscriptionCursor) cursor) in
  let? revision := ok_or (canonical_u64 (scur_revision cursor)) (Native InvalidInput) in
  if decide (scur_subscription_id cursor ≠ id) then Err (Native InvalidInput) else
  let current := st_revision runtime in
  let batches := default [] (hi_batches <$> sj_histories self !! id) in
  if decide (scur_process_epoch cursor ≠ epoch_value (sj_epoch self)
             ∨ (current < revision)%N
             ∨ ((revision < current)%N
                ∧ match head batches with
                  | None => true
                  | Some b => (revision <? ba_before b)%N
                  end = true)) then
    let? reset := sub_bootstrap self runtime id in
    json_index_mut "kind" (λ _, Ok (JString "reset_required")) reset
  else
    let? values := try_map (λ b, map_err (λ _, Native Internal) (from_text (ba_json b)))
      (take (N.to_nat limit) (filter (λ b, revision < ba_revision b)%N batches)) in
    let after := default current (last values ≫= batch_revision) in
    Ok (JObject [("batches", JArray values); ("cursor", sub_cursor self id after);
                 ("kind", JString "batches")]).
End bridge.

(** [capabilities] *)
Definition subscription_capabilities : JsonValue :=
  JObject [("maxAggregateJournalBytes", json_u64 MAX_TOTAL_BYTES);
           ("maxJournalBatches", json_u64 SUB_MAX_BATCHES);
           ("maxJournalBytes", json_u64 MAX_QUERY_BYTES);
           ("maxOutputBytes", json_u64 MAX_OUTPUT);
           ("maxSubscriptions", json_u64 32);
           ("maxWindowRows", json_u64 32);
           ("protocolVersion", json_u64 1);
           ("requiresMatchingNativeAbi", JBool true)].
