(* ===== verification/View.v ===== *)
(** * Bounded local views.

    Models [crates/surrealdb-rn-core/src/sync_view.rs]: count and page requests over the
    optimistic view of a client state, with the work every request is charged, the
    selectors, the projections, and the cursors that bind a page to its predecessor. *)

From Stdlib Require Import Ascii.
From S2P Require Import Prelude Protocol Subscription ClientState Client Read NativeErrors Json NativeCodec Queue ReadJournal.

Definition MAX_INPUT : N := 16384.
Definition VIEW_MAX_OUTPUT : N := 262144.
Definition MAX_VISITS : N := 16384.
Definition MAX_NODES : N := 65536.
Definition MAX_VALUE_BYTES : N := 4194304.

Local Unset Elimination Schemes.
Inductive Selector :=
| SelAll
| SelEq (path : list string) (value : JsonValue)
| SelAnd (terms : list Selector).
Local Set Elimination Schemes.

(** [Request] *)
Inductive ViewRequest :=
| VCount (protocol_version : N) (selector : Selector)
| VPage (protocol_version : N) (selector : Selector) (projection : list (list string))
        (limit : N) (cursor : option string).

(** [Cursor] *)
Record ViewCursor := mkViewCursor {
  vc_token : string;
  vc_process_epoch : string;
  vc_revision : string;
  vc_scope : JsonValue;
  vc_query : string;
  vc_last_record_id : string;
}.

Record Work := mkWork {
  wk_records_visited : N;
  wk_operations_visited : N;
  wk_value_nodes_visited : N;
  wk_value_bytes_visited : N;
}.
Definition work_default : Work := mkWork 0 0 0 0.

(** ** Accounting *)

(** Code that is charged for its work. *)
Definition charged (A : Type) : Type := Work → result (A * Work) NativeSyncError.

Definition ch_ret {A} (a : A) : charged A := λ w, Ok (a, w).
Definition ch_bind {A B} (m : charged A) (k : A → charged B) : charged B :=
  λ w, match m w with Ok (a, w) => k a w | Err e => Err e end.
Definition ch_err {A} (e : NativeSyncError) : charged A := λ _, Err e.

Notation "'charge!' x ':=' c 'in' k" := (ch_bind c (λ x, k))
  (at level 10, x pattern, c at level 100, k at level 200,
   format "'[v' 'charge!'  x  ':='  c  'in' '/' k ']'") : rust_scope.

Fixpoint ch_fold {A S} (f : S → A → charged S) (s : S) (l : list A) : charged S :=
  match l with
  | [] => ch_ret s
  | x :: l => ch_bind (f s x) (λ s, ch_fold f s l)
  end.
Definition ch_each {A} (f : A → charged unit) (l : list A) : charged unit :=
  ch_fold (λ _ x, f x) tt l.

(** [Work::visit] *)
Definition visit (operation : bool) : charged unit := λ w,
  let w := if operation
    then mkWork (wk_records_visited w) (wk_operations_visited w + 1)
           (wk_value_nodes_visited w) (wk_value_bytes_visited w)
    else mkWork (wk_records_visited w + 1) (wk_operations_visited w)
           (wk_value_nodes_visited w) (wk_value_bytes_visited w) in
  if (MAX_VISITS <? wk_records_visited w + wk_operations_visited w)%N
  then Err ReadOutputTooLarge else Ok (tt, w).

(** [Work::bytes] *)
Definition charge_bytes (n : N) : charged unit := λ w,
  let? bytes := ok_or (checked_add u64_max (wk_value_bytes_visited w) n) ReadOutputTooLarge in
  if (MAX_VALUE_BYTES <? bytes)%N then Err ReadOutputTooLarge
  else Ok (tt, mkWork (wk_records_visited w) (wk_operations_visited w)
                 (wk_value_nodes_visited w) bytes).

Definition charge_node : charged unit := λ w,
  let w := mkWork (wk_records_visited w) (wk_operations_visited w)
             (wk_value_nodes_visited w + 1) (wk_value_bytes_visited w) in
  if (MAX_NODES <? wk_value_nodes_visited w)%N then Err ReadOutputTooLarge else Ok (tt, w).

(** [Work::value] *)
Fixpoint charge_value (value : JsonValue) (depth : N) : charged unit :=
  charge! _ := charge_node in
  if (64 <? depth)%N then ch_err ReadOutputTooLarge else
  match value with
  | JString s => charge_bytes (str_len s)
  | JArray a => ch_each (λ v, charge_value v (depth + 1)) a
  | JObject o =>
      ch_each (λ kv, charge! _ := charge_bytes (str_len kv.1) in
                     charge_value kv.2 (depth + 1)) o
  | _ => charge_bytes 24
  end.

(** ** Selectors *)

(** [s.chars().any(char::is_control)] on UTF-8: C0 controls, DEL, and C1 controls. *)
Fixpoint has_control (s : string) : bool :=
  match s with
  | "" => false
  | String a rest =>
      (N_of_ascii a <? 32)%N || (N_of_ascii a =? 127)%N
      || ((N_of_ascii a =? 194)%N
          && match rest with
             | String b _ => (128 <=? N_of_ascii b)%N && (N_of_ascii b <=? 159)%N
             | "" => false
             end)
      || has_control rest
  end.

Definition path_valid (path : list string) : bool :=
  bool_decide (path ≠ []) && (vec_len path <=? 8)%N
  && forallb (λ s, negb (str_is_empty s) && (str_len s <=? 128)%N
       && negb (bool_decide (s ∈ ["__proto__"; "constructor"; "prototype"; "$surreal"]))
       && negb (has_control s)) path.

Definition eq_term_valid (path : list string) (value : JsonValue) : bool :=
  path_valid path
  && match value with
     | JNull | JBool _ => true
     | JString s => (str_len s <=? 1024)%N
     | _ => false
     end.

(** A conjunction has equality terms only, so that one level of recursion is enough. *)
Definition validate_selector (selector : Selector) : result unit NativeSyncError :=
  match selector with
  | SelAll => Ok tt
  | SelEq path value => if eq_term_valid path value then Ok tt else Err InvalidInput
  | SelAnd terms =>
      if decide (terms = [] ∨ (8 < vec_len terms)%N) then Err InvalidInput else
      try_for_each (λ term,
        match term with
        | SelEq path value => if eq_term_valid path value then Ok tt else Err InvalidInput
        | _ => Err InvalidInput
        end) terms
  end.

(** [field] *)
Fixpoint view_field (value : JsonValue) (path : list string) : charged (option JsonValue) :=
  match path with
  | [] => ch_ret (Some value)
  | key :: path =>
      match value with
      | JObject o =>
          if decide (is_Some (json_get "$surreal" o)) then ch_ret None else
          charge! _ := charge_node in
          match json_get key o with
          | None => ch_ret None
          | Some next => view_field next path
          end
      | _ => charge! _ := charge_node in ch_ret None
      end
  end.

Definition is_scalar (v : JsonValue) : bool :=
  match v with JNull | JBool _ | JString _ => true | _ => false end.

Fixpoint matches (selector : Selector) (value : JsonValue) : charged bool :=
  match selector with
  | SelAll => ch_ret true
  | SelEq path wanted =>
      charge! got := view_field value path in
      ch_ret (match got with Some v => is_scalar v && bool_decide (v = wanted) | None => false end)
  | SelAnd terms =>
      (fix all terms : charged bool :=
         match terms with
         | [] => ch_ret true
         | term :: terms =>
             charge! b := matches term value in
             if b : bool then all terms else ch_ret false
         end) terms
  end.

(** ** The view *)

Definition local_commits (state : DurableClientState JsonValue) : list (ClientCommit JsonValue) :=
  (local_commit <$> st_outcomes state) ++ st_outbox state.

Definition effective_confirmed (rows : gmap string JsonValue)
    (entry : string * RecordState JsonValue) : charged (gmap string JsonValue) :=
  charge! _ := visit false in
  if (4096 <? str_len entry.1)%N then ch_err ReadOutputTooLarge else
  charge! _ := charge_bytes (str_len entry.1) in
  match entry.2 with
  | Present value _ _ =>
      charge! _ := charge_value value 0 in ch_ret (<[entry.1 := value]> rows)
  | _ => ch_ret rows
  end.

Definition charge_commit (commit : ClientCommit JsonValue) : charged unit :=
  charge! _ := visit true in
  charge! _ := charge_bytes (str_len (commit_id commit)) in
  charge! _ := charge_bytes (str_len (fingerprint (commit_identity commit))) in
  ch_each (λ op,
    charge! _ := visit true in
    charge! _ := charge_bytes (str_len (op_record_id op)) in
    match op with Upsert _ _ value _ => charge_value value 0 | Delete _ _ => ch_ret tt end)
    (operations commit).

Definition effective_operation (rows : gmap string JsonValue) (op : Operation JsonValue)
  : charged (gmap string JsonValue) :=
  charge! _ := visit true in
  ch_ret match op with
         | Upsert record_id _ value _ => <[record_id := value]> rows
         | Delete record_id _ => delete record_id rows
         end.

Definition effective (state : DurableClientState JsonValue) : charged (gmap string JsonValue) :=
  charge! rows := ch_fold effective_confirmed ∅ (btree_entries (st_confirmed state)) in
  charge! _ := ch_each charge_commit (local_commits state) in
  charge! _ := ch_each (λ _, visit true) (local_commits state) in
  ch_fold effective_operation rows (optimistic_operations state).

(** ** Summaries *)

Record RowSummary := mkRowSummary {
  sum_pending : list CommitIdentity;
  sum_conflicts : list (CommitIdentity * option ConflictResolution);
  sum_accepted : list (CommitIdentity * N * bool);
}.
Definition summary_empty : RowSummary := mkRowSummary [] [] [].

Definition identity_bytes (i : CommitIdentity) : N :=
  (str_len (client_commit_id i) + str_len (fingerprint i))%N.

Definition summary_pending (ids : gset string) (commit : ClientCommit JsonValue)
    (rows : gmap string RowSummary) (op : Operation JsonValue) : charged (gmap string RowSummary) :=
  charge! _ := visit true in
  if decide (op_record_id op ∈ ids) then
    charge! _ := charge_bytes (identity_bytes (commit_identity commit)) in
    ch_ret (alter (λ s, mkRowSummary (sum_pending s ++ [commit_identity commit])
                          (sum_conflicts s) (sum_accepted s)) (op_record_id op) rows)
  else ch_ret rows.

Definition summary_outcome (ids : gset string) (resolved : ResolvedCommit JsonValue)
    (rows : gmap string RowSummary) (op : Operation JsonValue) : charged (gmap string RowSummary) :=
  charge! _ := visit true in
  if decide (op_record_id op ∈ ids) then
    let identity := commit_identity (local_commit resolved) in
    charge! _ := charge_bytes (identity_bytes identity) in
    charge! _ :=
      match resolution resolved with
      | Some (KeepLocal replacement | Merge replacement) =>
          charge_bytes (identity_bytes replacement)
      | _ => ch_ret tt
      end in
    ch_ret match outcome resolved with
           | Accepted _ seq _ =>
               alter (λ s, mkRowSummary (sum_pending s) (sum_conflicts s)
                             (sum_accepted s ++ [(identity, seq, covered_by_reset resolved)]))
                 (op_record_id op) rows
           | Conflict _ _ _ =>
               alter (λ s, mkRowSummary (sum_pending s)
                             (sum_conflicts s ++ [(identity, resolution resolved)])
                             (sum_accepted s)) (op_record_id op) rows
           | Rejected _ _ => rows
           end
  else ch_ret rows.

Definition summaries (state : DurableClientState JsonValue) (ids : gset string)
  : charged (gmap string RowSummary) :=
  let rows := gset_to_gmap summary_empty ids in
  charge! rows := ch_fold (λ rows commit,
    charge! _ := visit true in
    ch_fold (summary_pending ids commit) rows (operations commit)) rows (st_outbox state) in
  ch_fold (λ rows resolved,
    charge! _ := visit true in
    ch_fold (summary_outcome ids resolved) rows (operations (local_commit resolved)))
    rows (st_outcomes state).

(** ** Pages *)

Definition page_after (after : option string) (id : string) : bool :=
  match after with Some last => is_ge (str_cmp last id) | None => false end.

(** The selection loop: the rows taken and whether another one follows. *)
Fixpoint page_loop (selector : Selector) (after : option string) (limit : N)
    (entries : list (string * JsonValue)) (selected : list (string * JsonValue))
  : charged (list (string * JsonValue) * bool) :=
  match entries with
  | [] => ch_ret (selected, false)
  | (id, value) :: entries =>
      charge! _ := visit false in
      charge! wanted :=
        (if page_after after id then ch_ret false else matches selector value) in
      if wanted : bool then
        if (vec_len selected =? limit)%N then ch_ret (selected, true)
        else page_loop selector after limit entries (selected ++ [(id, value)])
      else page_loop selector after limit entries selected
  end.

(** One projected field: its path and value. *)
Definition page_field (value : JsonValue) (path : list string)
  : charged (list string * option JsonValue) :=
  charge! item := view_field value path in
  charge! _ := match item with Some v => charge_value v 0 | None => ch_ret tt end in
  ch_ret (path, item).

Record ViewRow := mkViewRow {
  vr_record_id : string;
  vr_fields : list (list string * option JsonValue);
  vr_summary : RowSummary;
}.

Definition page_row (projection : list (list string)) (summary : gmap string RowSummary)
    (rows : list ViewRow) (entry : string * JsonValue) : charged (list ViewRow) :=
  charge! fields := ch_fold (λ fields path,
    charge! f := page_field entry.2 path in ch_ret (fields ++ [f])) [] projection in
  ch_ret (rows ++ [mkViewRow entry.1 fields (default summary_empty (summary !! entry.1))]).

(** ** Requests *)

Inductive ViewResponse :=
| VStaleCursor
| VObserved (count : N) (work : Work)
| VRows (rows : list ViewRow) (next_cursor : option string) (work : Work).

Definition view_selector (request : ViewRequest) : Selector :=
  match request with VCount _ selector | VPage _ selector _ _ _ => selector end.
Definition view_version (request : ViewRequest) : N :=
  match request with VCount version _ | VPage version _ _ _ _ => version end.

Section read.
Context `{!SerdeJson ViewRequest, !SerdeJson ViewCursor, !SerdeJson (Selector * list (list string) * N)}.
Implicit Types runtime : DurableClientState JsonValue.

Definition projection_valid (projection : list (list string)) (limit : N) : bool :=
  bool_decide (1 ≤ limit ≤ 64)%N && bool_decide (projection ≠ [])
  && (vec_len projection <=? 16)%N && forallb path_valid projection
  && bool_decide (NoDup projection).

(** The text that binds a cursor to its query. *)
Definition view_query (request : ViewRequest) : result string NativeSyncError :=
  match request with
  | VCount _ _ => Ok ""
  | VPage _ selector projection limit _ =>
      if negb (projection_valid projection limit) then Err InvalidInput
      else map_err (λ _, Internal) (to_text (selector, projection, limit))
  end.

(** The wire metadata of a state. *)
Definition view_metadata runtime : result JsonValue fault :=
  metadata_wire (metadata_json json_u64 (metadata runtime)).

(** The cursor check of a page: stale, or where the page starts. *)
Definition view_after (journal : ReadJournal) runtime (metadata : JsonValue)
    (query : string) (request : ViewRequest)
  : result (option (option string)) NativeSyncError :=
  match request with
  | VPage _ _ _ _ (Some raw) =>
      if (8192 <? str_len raw)%N then Err InvalidInput else
      let? cursor := map_err (λ _, InvalidInput) (from_text (T := ViewCursor) raw) in
      let? text := map_err (λ _, Internal) (to_text cursor) in
      if decide (text ≠ raw) then Err InvalidInput else
      if decide (vc_process_epoch cursor ≠ epoch_value (rj_epoch journal)
                 ∨ vc_revision cursor ≠ u64_to_string (st_revision runtime)
                 ∨ vc_scope cursor ≠ json_index "scope" metadata
                 ∨ issued_view_cursor journal raw = false)
      then Ok None else
      if decide (vc_query cursor ≠ query) then Err InvalidInput
      else Ok (Some (Some (vc_last_record_id cursor)))
  | _ => Ok (Some None)
  end.

Definition view_count runtime (selector : Selector) : charged N :=
  charge! rows := effective runtime in
  ch_fold (λ count entry,
    charge! _ := visit false in
    charge! b := matches selector entry.2 in
    ch_ret (if b : bool then count + 1 else count)%N) 0%N (btree_entries rows).

Definition view_page runtime (selector : Selector) (projection : list (list string))
    (limit : N) (after : option string) : charged (list ViewRow * option string) :=
  charge! rows := effective runtime in
  charge! (selected, has_more) := page_loop selector after limit (btree_entries rows) [] in
  charge! summary := summaries runtime (list_to_set selected.*1) in
  charge! rows := ch_fold (page_row projection summary) [] selected in
  ch_ret (rows, if has_more : bool then fst <$> last selected else None).

(** [read]; [token] is the fresh UUID of the next cursor. *)
Definition view_read runtime (journal : ReadJournal) (token input : string)
  : result (ViewResponse * JsonValue) fault :=
  if (MAX_INPUT <? str_len input)%N then Err (Native InvalidInput) else
  let? request := map_err (λ _, Native InvalidInput) (from_text (T := ViewRequest) input) in
  if decide (view_version request ≠ 1%N) then Err (Native InvalidInput) else
  let? _ := map_err Native (validate_selector (view_selector request)) in
  if decide ((4096 < str_len (st_partition_id runtime))%N
             ∨ (4096 < str_len (st_requested_scope runtime))%N)
  then Err (Native ReadOutputTooLarge) else
  let? metadata := view_metadata runtime in
  let? query := map_err Native (view_query request) in
  if (4096 <? str_len query)%N then Err (Native InvalidInput) else
  let? after := map_err Native (view_after journal runtime metadata query request) in
  match after with
  | None => Ok (VStaleCursor, metadata)
  | Some after =>
      match request with
      | VCount _ selector =>
          let? (count, work) := map_err Native (view_count runtime selector work_default) in
          Ok (VObserved count work, metadata)
      | VPage _ selector projection limit _ =>
          let? ((rows, last), work) :=
            map_err Native (view_page runtime selector projection limit after work_default) in
          let? cursor := map_err Native
            (match last with
             | None => Ok None
             | Some last =>
                 let? text := map_err (λ _, Internal)
                   (to_text (mkViewCursor token (epoch_value (rj_epoch journal))
                      (u64_to_string (st_revision runtime)) (json_index "scope" metadata)
                      query last)) in
                 if (8192 <? str_len text)%N then Err ReadOutputTooLarge else Ok (Some text)
             end) in
          Ok (VRows rows cursor work, metadata)
      end
  end.
End read.

(** ** The JSON of a response *)

Definition work_json (w : Work) : JsonValue :=
  JObject [("operationsVisited", json_u64 (wk_operations_visited w));
           ("recordsVisited", json_u64 (wk_records_visited w));
           ("valueBytesVisited", json_u64 (wk_value_bytes_visited w));
           ("valueNodesVisited", json_u64 (wk_value_nodes_visited w))].
Definition field_json (f : list string * option JsonValue) : JsonValue :=
  JObject [("path", JArray (JString <$> f.1)); ("present", JBool (bool_decide (is_Some f.2)));
           ("value", default JNull f.2)].
Definition summary_accepted_json (a : CommitIdentity * N * bool) : JsonValue :=
  JObject [("identity", identity_json a.1.1); ("sequence", json_decimal a.1.2);
           ("status", JString (if a.2 then "covered_by_authorized_reset"
                               else "awaiting_pull_epoch_unknown"))].
Definition summary_conflict_json (c : CommitIdentity * option ConflictResolution) : JsonValue :=
  JObject [("identity", identity_json c.1); ("resolution", json_option resolution_json c.2)].
Definition page_row_json (r : ViewRow) : JsonValue :=
  JObject [("accepted", JArray (summary_accepted_json <$> sum_accepted (vr_summary r)));
           ("conflicts", JArray (summary_conflict_json <$> sum_conflicts (vr_summary r)));
           ("fields", JArray (field_json <$> vr_fields r));
           ("pending", JArray (identity_json <$> sum_pending (vr_summary r)));
           ("recordId", JString (vr_record_id r))].
Definition view_response_json (response : ViewResponse * JsonValue) : JsonValue :=
  match response.1 with
  | VStaleCursor =>
      JObject [("kind", JString "stale_cursor"); ("metadata", response.2);
               ("protocolVersion", json_u64 1)]
  | VObserved count work =>
      JObject [("kind", JString "count"); ("metadata", response.2);
               ("observedCount", json_decimal count); ("protocolVersion", json_u64 1);
               ("work", work_json work)]
  | VRows rows cursor work =>
      JObject [("kind", JString "page"); ("metadata", response.2);
               ("nextCursor", json_option JString cursor); ("protocolVersion", json_u64 1);
               ("rows", JArray (page_row_json <$> rows)); ("work", work_json work)]
  end.

(** [output] with [BoundedWriter], which takes a whole chunk or fails like [BudgetWriter]. *)
Definition view_output `{!JsonChunks JsonValue} (value : JsonValue)
  : result string NativeSyncError :=
  match bounded_json value VIEW_MAX_OUTPUT with
  | None => Err ReadOutputTooLarge
  | Some bytes => ok_or (from_utf8 bytes) Internal
  end.
