(* ===== verification/NativeClient.v ===== *)
(** * The native sync client.

    Models [crates/surrealdb-rn-core/src/sync_client.rs]: the shared runtime cell with its
    journals, the mutation phases of its guard, recovery and poisoning; [NativeOps] has the
    operations.  Each operation runs under the cell's lock, so that it is a
    function of the cell; what other threads may change in the meantime (the handle, its
    session) is observed through [Host]. *)

From Stdlib Require Import Strings.Byte.
From S2P Require Import Prelude Protocol Subscription ClientState SubscriptionState Validate Client SubscriptionClient Read Canonical HttpCodec BootstrapCodec SubscriptionCodec NativeErrors Json Wire NativeCodec Engine StateRows StateLoad Stage StateStore StageStore Queue ReadJournal SubscriptionJournal View.

Inductive ScopeBlock := PendingQuarantine | NewJournal.
#[export] Instance ScopeBlock_eq_dec : EqDecision ScopeBlock.
Proof. solve_decision. Defined.

(** [ScopeBlock::reason] and [ScopeBlock::from_reason] *)
Definition block_reason (b : ScopeBlock) : string :=
  match b with
  | PendingQuarantine => "pending_quarantine_required"
  | NewJournal => "needs_new_scope_journal"
  end.
Definition from_reason (reason : string) : ScopeBlock :=
  if decide (reason = "pending_quarantine_required") then PendingQuarantine else NewJournal.

(** [RuntimeState]; the runtime is its installed state. *)
Record RuntimeState := mkRuntimeState {
  rt_runtime : option StoredSyncState;
  rt_journal : ReadJournal;
  rt_subscription_journal : SubscriptionJournal;
  rt_recovery_required : bool;
  rt_scope_blocked : option ScopeBlock;
  rt_bootstrap_binding : option BootstrapContext;
  rt_bootstrap_binding_ticket : N;
}.

Definition set_runtime (r : option StoredSyncState) (recovery : bool) (s : RuntimeState)
  : RuntimeState :=
  mkRuntimeState r (rt_journal s) (rt_subscription_journal s) recovery (rt_scope_blocked s)
    (rt_bootstrap_binding s) (rt_bootstrap_binding_ticket s).
Definition set_scope_blocked (b : option ScopeBlock) (s : RuntimeState) : RuntimeState :=
  mkRuntimeState (rt_runtime s) (rt_journal s) (rt_subscription_journal s)
    (rt_recovery_required s) b (rt_bootstrap_binding s) (rt_bootstrap_binding_ticket s).
Definition set_journals (j : ReadJournal) (sj : SubscriptionJournal) (s : RuntimeState)
  : RuntimeState :=
  mkRuntimeState (rt_runtime s) j sj (rt_recovery_required s) (rt_scope_blocked s)
    (rt_bootstrap_binding s) (rt_bootstrap_binding_ticket s).
Definition set_binding (b : option BootstrapContext) (ticket : N) (s : RuntimeState)
  : RuntimeState :=
  mkRuntimeState (rt_runtime s) (rt_journal s) (rt_subscription_journal s)
    (rt_recovery_required s) (rt_scope_blocked s) b ticket.

(** The cell [RuntimeRegistry::acquire] creates, with its journals' random prefixes. *)
Definition fresh_cell (read_prefix subscription_prefix : string) : RuntimeState :=
  mkRuntimeState None (journal_default read_prefix) (sub_journal_default subscription_prefix)
    false None None 0.

(** [rotate().ok()] *)
Definition rotate_read (j : ReadJournal) : ReadJournal :=
  match journal_rotate j with Ok j => j | Err _ => j end.
Definition rotate_sub (j : SubscriptionJournal) : SubscriptionJournal :=
  match sub_rotate j with Ok j => j | Err _ => j end.

Definition invalidate_runtime (slot : RuntimeState) : RuntimeState :=
  set_journals (rotate_read (rt_journal slot)) (rotate_sub (rt_subscription_journal slot))
    (set_runtime None true slot).

(** [RuntimeState::client] and [RuntimeState::read_client] *)
Definition state_client (slot : RuntimeState) : result StoredSyncState NativeSyncError :=
  ok_or (rt_runtime slot) (if rt_recovery_required slot then RecoveryRequired else Closed).
Definition state_read_client (slot : RuntimeState) : result StoredSyncState NativeSyncError :=
  let? client := state_client slot in
  match rt_scope_blocked slot with
  | Some PendingQuarantine => Err NPendingQuarantineRequired
  | Some NewJournal => Err NNeedsNewScopeJournal
  | None => Ok client
  end.

Inductive MutationPhase := Clean | InFlight | Settled.
#[export] Instance MutationPhase_eq_dec : EqDecision MutationPhase.
Proof. solve_decision. Defined.

Inductive OpenMode := CreateIfMissing | ExistingOnly.
#[export] Instance OpenMode_eq_dec : EqDecision OpenMode.
Proof. solve_decision. Defined.

Inductive NativeConflictPolicy := PolicyManual | PolicyPreferServerV1.
Definition automatic_policy (p : NativeConflictPolicy) : AutomaticConflictPolicy :=
  match p with PolicyManual => Manual | PolicyPreferServerV1 => PreferServerV1 end.

Record NativeSyncOpenOptions := mkOpenOptions {
  oo_partition_id : string;
  oo_client_id : string;
  oo_requested_scope : string;
  oo_subscription_revision : N;
}.

Record NativeSyncStatus := mkStatus {
  ns_revision : N;
  ns_pending_count : N;
  ns_outcome_count : N;
  ns_conflict_count : N;
  ns_cursor_epoch : option N;
  ns_cursor_sequence : option N;
}.

(** A conflict the application has not settled. *)
Definition is_open_conflict (r : ResolvedCommit JsonValue) : bool :=
  bool_decide (resolution r = None) && is_conflict (outcome r).

Definition to_u32 (n : N) : result N NativeSyncError :=
  if (n <=? u32_max)%N then Ok n else Err Internal.

Definition status (state : StoredSyncState) : result NativeSyncStatus NativeSyncError :=
  let? pending := to_u32 (vec_len (st_outbox state)) in
  let? outcomes := to_u32 (vec_len (st_outcomes state)) in
  let? conflicts := to_u32 (vec_len (List.filter is_open_conflict (st_outcomes state))) in
  Ok (mkStatus (st_revision state) pending outcomes conflicts
        ((λ c, epoch (cursor c)) <$> st_checkpoint state)
        ((λ c, sequence (cursor c)) <$> st_checkpoint state)).

(** ** Conflicts *)

(** The first outcome of the commit that is a conflict: [find_map]. *)
Definition conflict_context (runtime : StoredSyncState) (conflicted_commit_id : ClientCommitId)
  : result (ClientCommit JsonValue * RecordId * RecordState JsonValue) NativeSyncError :=
  ok_or (head (omap (λ resolved,
    if decide (commit_id (local_commit resolved) = conflicted_commit_id) then
      match outcome resolved with
      | Conflict _ record_id authoritative =>
          Some (local_commit resolved, record_id, authoritative)
      | _ => None
      end
    else None) (st_outcomes runtime))) ProtocolError.

Definition rebase_operation (op : Operation JsonValue) (authoritative : RecordState JsonValue)
  : result (Operation JsonValue) NativeSyncError :=
  match op, authoritative with
  | Upsert id _ value reference, Absent => Ok (Upsert id BaseAbsent value reference)
  | Upsert id _ value reference, (Present _ version _ | Tombstone version) =>
      Ok (Upsert id (Exact version) value reference)
  | Delete id _, Present _ version _ => Ok (Delete id version)
  | Delete _ _, (Absent | Tombstone _) => Err ProtocolError
  end.

Definition rebase_conflict_operation (ops : list (Operation JsonValue))
    (conflict_record_id : RecordId) (authoritative : RecordState JsonValue)
  : result (list (Operation JsonValue)) NativeSyncError :=
  let? (i, op) := ok_or (position (λ op, bool_decide (op_record_id op = conflict_record_id)) ops)
                    ProtocolError in
  let? op := rebase_operation op authoritative in
  Ok (<[i := op]> ops).

Definition set_fingerprint (c : ClientCommit JsonValue) (f : Fingerprint)
  : ClientCommit JsonValue :=
  mkCommit (mkIdentity (commit_id c) f) (operations c).

(** The scope a pull response requires. *)
Definition pull_required_scope (response : PullResponse JsonValue) : option ScopeSnapshot :=
  match response with
  | Reset snapshot => Some (scope (reset_checkpoint snapshot))
  | Batch batch =>
      head (omap (λ frame, match frame with FrameEnd c => Some (scope c) | _ => None end)
        (frames batch))
  end.

Definition scope_barrier (block : ScopeBlock) (s : ScopeSnapshot) : ScopeBarrier :=
  mkBarrier (block_reason block) (scope_identity s)
    (u64_to_string (scope_subscription_revision s)) (u64_to_string (authorization_revision s)).

Definition block_of_error (e : ClientError) : option ScopeBlock :=
  match e with
  | PendingQuarantineRequired => Some PendingQuarantine
  | NeedsNewScopeJournal => Some NewJournal
  | _ => None
  end.
