(* ===== verification/NativeOps.v ===== *)
(** * The operations of the native sync client.

    Models the methods of [NativeSyncClient] in
    [crates/surrealdb-rn-core/src/sync_client.rs] as transformations of its cell: opening,
    local commits, push and pull responses, conflicts, subscriptions, reads, and the
    completion of a bootstrap. *)

From Stdlib Require Import Strings.Byte.
From S2P Require Import Prelude Protocol Subscription ClientState SubscriptionState Validate Client SubscriptionClient Read Canonical HttpCodec BootstrapCodec SubscriptionCodec NativeErrors Json Wire NativeCodec Engine StateRows StateLoad Stage StateStore StageStore Queue ReadJournal SubscriptionJournal View NativeClient.

(** The message types of the bridge. *)
Class BridgeSerde := {
  #[global] serde_json :: SerdeJson JsonValue;
  #[global] serde_push_response :: SerdeJson (PushResponse JsonValue);
  #[global] serde_pull_response :: SerdeJson (PullResponse JsonValue);
  #[global] serde_read_cursor :: SerdeJson ReadCursor;
  #[global] serde_sub_request :: SerdeJson SubscriptionRequest;
  #[global] serde_sub_response :: SerdeJson (SubscriptionResponse JsonValue);
  #[global] serde_sub_cursor :: SerdeJson SubscriptionCursor;
  #[global] serde_view_request :: SerdeJson ViewRequest;
  #[global] serde_view_cursor :: SerdeJson ViewCursor;
  #[global] serde_view_query :: SerdeJson (Selector * list (list string) * N);
  #[global] serde_sub_request_cbor :: Serde SubscriptionRequest;
  #[global] serde_sub_response_cbor :: Serde (SubscriptionResponse CborValue);
  #[global] chunks_commit :: JsonChunks (ClientCommit JsonValue);
  #[global] chunks_string :: JsonChunks string;
  #[global] chunks_json :: JsonChunks JsonValue;
}.

Section cell.
Context `{!SurrealTypes, !Engine, !Host}.

(** The locked runtime state, the registry's poison flag, the phase of the guard that
    holds the lock, and the storage behind it. *)
Record cell := mkCell {
  c_state : RuntimeState;
  c_poisoned : bool;
  c_phase : MutationPhase;
  c_world : world;
}.

Definition act (E A : Type) : Type := cell → result A E * cell.

Definition a_ret {E A} (a : A) : act E A := λ c, (Ok a, c).
Definition a_err {E A} (e : E) : act E A := λ c, (Err e, c).
Definition a_bind {E A B} (m : act E A) (k : A → act E B) : act E B :=
  λ c, match m c with (Ok a, c) => k a c | (Err e, c) => (Err e, c) end.
Definition a_lift {E A} (r : result A E) : act E A := λ c, (r, c).
Definition a_map_err {E F A} (f : E → F) (m : act E A) : act F A :=
  λ c, (map_err f (m c).1, (m c).2).
(** The result of [m] as a value: [let r = m.await;]. *)
Definition a_try {E F A} (m : act E A) : act F (result A E) := λ c, (Ok (m c).1, (m c).2).

Definition a_state {E A} (f : RuntimeState → A) : act E A := λ c, (Ok (f (c_state c)), c).
Definition a_update {E} (f : RuntimeState → RuntimeState) : act E unit :=
  λ c, (Ok tt, mkCell (f (c_state c)) (c_poisoned c) (c_phase c) (c_world c)).
Definition a_poison {E} : act E unit :=
  λ c, (Ok tt, mkCell (c_state c) true (c_phase c) (c_world c)).
Definition a_phase {E} (p : MutationPhase) : act E unit :=
  λ c, (Ok tt, mkCell (c_state c) (c_poisoned c) p (c_world c)).
(** The result of a storage operation, as a value. *)
Definition a_io {E F A} (m : io F A) : act E (result A F) :=
  λ c, let '(r, w) := m (c_world c) in (Ok r, mkCell (c_state c) (c_poisoned c) (c_phase c) w).
Definition a_look {E A} (f : Observation → A) : act E A :=
  λ c, let w := c_world c in
       (Ok (f (observe (w_time w))),
        mkCell (c_state c) (c_poisoned c) (c_phase c) (mkWorld (w_db w) (S (w_time w)))).

(** [RuntimeRegistry::is_poisoned] *)
Definition a_is_poisoned {E} : act E bool :=
  λ c, let '(r, c') := a_look ob_poisoned c in
       (let? b := r in Ok (b || c_poisoned c), c').
End cell.

Notation "'let^' x ':=' c 'in' k" := (a_bind c (λ x, k))
  (at level 10, x pattern, c at level 100, k at level 200,
   format "'[v' 'let^'  x  ':='  c  'in' '/' k ']'") : rust_scope.

Section guard.
Context `{!SurrealTypes, !Engine, !Host}.
(** [NativeSyncClient::session_generation] *)
Variable session_generation : N.

(** ** The guard *)

(** [ensure_session] *)
Definition ensure_session : act NativeSyncError unit :=
  let^ poisoned := a_is_poisoned in
  if poisoned : bool then a_err RecoveryRequired else
  let^ local := a_look ob_local_closed in
  if local : bool then a_err Closed else
  let^ closed := a_look ob_closed in
  if closed : bool then a_err RecoveryRequired else
  let^ generation := a_look ob_generation in
  if decide (generation ≠ session_generation) then a_err RecoveryRequired else a_ret tt.

(** [RuntimeGuard::client] and [read_client] *)
Definition guard_client : act NativeSyncError StoredSyncState :=
  let^ _ := ensure_session in
  let^ r := a_state state_client in a_lift r.
Definition guard_read_client : act NativeSyncError StoredSyncState :=
  let^ _ := ensure_session in
  let^ r := a_state state_read_client in a_lift r.

Definition arm_mutation {E} : act E unit := a_phase InFlight.
Definition disarm_mutation {E} : act E unit := a_phase Clean.
Definition settled_mutation {E A} (result : result A SyncStateError) : act E unit :=
  let^ _ := (if outcome_unknown result then a_poison else a_ret tt) in a_phase Settled.
Definition arm_with_state : act NativeSyncError StoredSyncState :=
  let^ _ := guard_client in
  let^ _ := arm_mutation in
  let^ r := a_state state_client in a_lift r.

(** [Drop for RuntimeGuard] *)
Definition drop_guard (c : cell) : cell :=
  match c_phase c with
  | Clean => c
  | p => mkCell (invalidate_runtime (c_state c))
           (bool_decide (p = InFlight) || c_poisoned c) Clean (c_world c)
  end.

(** [lock_runtime().await], the operation, and the end of the guard. *)
Definition locked {E A} (operation : act E A) : act E A :=
  λ c, let '(r, c) := operation (mkCell (c_state c) (c_poisoned c) Clean (c_world c)) in
       (r, drop_guard c).

(** [slot.journal.rotate().is_ok() && slot.subscription_journal.rotate().is_ok()] *)
Definition rotate_both {E} : act E bool :=
  let^ j := a_state (λ s, journal_rotate (rt_journal s)) in
  match j with
  | Err _ => a_ret false
  | Ok j =>
      let^ _ := a_update (λ s, set_journals j (rt_subscription_journal s) s) in
      let^ sj := a_state (λ s, sub_rotate (rt_subscription_journal s)) in
      match sj with
      | Err _ => a_ret false
      | Ok sj =>
          let^ _ := a_update (λ s, set_journals (rt_journal s) sj s) in a_ret true
      end
  end.

Definition recovery {A} : act NativeSyncError A :=
  let^ _ := a_update invalidate_runtime in a_err RecoveryRequired.

(** [slot.runtime.take(); slot.recovery_required = true] *)
Definition take_runtime {E} : act E unit := a_update (set_runtime None true).

(** [run_mutation]: the work, which takes the lock itself, runs to its end once admitted. *)
Definition run_mutation {E A} (from : NativeSyncError → E) (work : act E A) : act E A :=
  let^ _ := a_map_err from ensure_session in work.
End guard.

Section ops.
Context `{!SurrealTypes, !Engine, !Host, !JsonFloatText, !JsonText, !StateSerde, !Ciborium, !Sha256, !BridgeSerde}.
Variable session_generation : N.
Abbreviation gen := (Some session_generation).
Abbreviation ensure := (ensure_session session_generation).
Abbreviation slot_client := (guard_client session_generation).
Abbreviation slot_read_client := (guard_read_client session_generation).

Definition decode_input {T} `{!SerdeJson T} (input : string) : result T NativeSyncError :=
  if (MAX_SYNC_STATE_BYTES <? str_len input)%N then Err InvalidInput
  else map_err (λ _, InvalidInput) (from_text input).

Definition encode_output {T} `{!SerdeJson T} (value : T) : result string NativeSyncError :=
  map_err (λ _, Internal) (to_text value).

Definition refresh_scope_barrier : act NativeSyncError unit :=
  let^ _ := ensure in
  let^ r := a_state state_client in
  let^ state := a_lift r in
  let^ barrier := a_io (load_scope_barrier (state_key state)) in
  match barrier with
  | Ok (Some barrier) => a_update (set_scope_blocked (Some (from_reason (sb_reason barrier))))
  | Ok None => a_ret tt
  | Err _ => let^ _ := take_runtime in a_err RecoveryRequired
  end.

(** ** Persisting a transition *)

(** The end of [persist_and_install]: the stored state is installed and published. *)
Definition publish (before_revision : N) (prepared : PreparedTransition JsonValue)
  : act NativeSyncError NativeSyncStatus :=
  let^ runtime := a_state rt_runtime in
  match runtime with
  | None => recovery
  | Some runtime =>
      match install_with_read_batch runtime prepared with
      | Err _ => recovery
      | Ok (next, batch) =>
          let^ _ := a_update (λ s, set_runtime (Some next) (rt_recovery_required s) s) in
          match status next with
          | Err _ => recovery
          | Ok status =>
              let^ _ := a_update (λ s,
                set_journals (journal_record (rt_journal s) batch)
                  (sub_record (rt_subscription_journal s) next before_revision) s) in
              let^ _ := disarm_mutation in
              a_ret status
          end
      end
  end.

Definition persist_and_install (prepared : PreparedTransition JsonValue)
  : act NativeSyncError NativeSyncStatus :=
  let^ _ := ensure in
  let^ before := slot_client in
  let next := prepared_state prepared in
  let^ _ := a_lift (validate_state_codec next) in
  let^ current := arm_with_state session_generation in
  let^ persisted := a_io (apply_transition_atomic gen current next) in
  let^ _ := settled_mutation persisted in
  if outcome_unknown persisted then recovery else
  let^ session := a_try ensure in
  match session with
  | Err _ => recovery
  | Ok _ =>
      match persisted with
      | Err error => let^ _ := disarm_mutation in a_err (map_persistence_error error)
      | Ok _ => publish (st_revision before) prepared
      end
  end.

(** A transition prepared from the installed state and persisted. *)
Definition transition
    (prepare : StoredSyncState → result (PreparedTransition JsonValue) ClientError)
  : act NativeSyncError NativeSyncStatus :=
  let^ runtime := slot_client in
  let^ prepared := a_lift (map_err map_protocol_error (prepare runtime)) in
  persist_and_install prepared.

(** ** Local commits *)

Definition with_fingerprint (commit : ClientCommit JsonValue)
  : act NativeSyncError (ClientCommit JsonValue) :=
  let^ runtime := slot_client in
  let^ f := a_lift (canonical_fingerprint runtime commit) in
  a_ret (set_fingerprint commit f).

Definition enqueue_owned (commit_json : string) : act NativeSyncError NativeSyncStatus :=
  let^ commit := a_lift (decode_input commit_json) in
  let^ commit := with_fingerprint commit in
  transition (λ s, prepare_enqueue s commit).

(** The commit that already carries the identity, pending or settled. *)
Definition prior_commit (state : StoredSyncState) (id : ClientCommitId)
  : option (ClientCommit JsonValue) :=
  find_first (λ c, bool_decide (commit_id c = id))
    (st_outbox state ++ (local_commit <$> st_outcomes state)).

Definition enqueue_bounded_owned (commit_json : string) (count bytes : N)
  : act NativeSyncError NativeSyncStatus :=
  let^ _ := a_lift (limits count bytes) in
  let^ commit := a_lift (decode_input commit_json) in
  let^ runtime := slot_client in
  let^ f := a_lift (canonical_fingerprint runtime commit) in
  let commit := set_fingerprint commit f in
  match prior_commit runtime (commit_id commit) with
  | Some prior =>
      if decide (prior ≠ commit) then a_err ProtocolError else a_lift (status runtime)
  | None =>
      let^ _ := a_lift (admits (st_outbox runtime) commit count bytes) in
      transition (λ s, prepare_enqueue s commit)
  end.

(** ** Server responses *)

Definition record_push_response_with_policy_owned (response_json : string)
    (policy : NativeConflictPolicy) : act NativeSyncError NativeSyncStatus :=
  let^ response := a_lift (decode_input (T := PushResponse JsonValue) response_json) in
  let^ _ := a_lift (validate_push_response_values (presp_outcome response)) in
  transition (λ s, prepare_push_response_with_policy s response (automatic_policy policy)).

(** Recording durably that the scope is blocked. *)
Definition persist_barrier (block : ScopeBlock) (scope : ScopeSnapshot)
  : act NativeSyncError unit :=
  let^ state := slot_client in
  let^ _ := arm_mutation in
  let^ result := a_io (save_scope_barrier gen (state_key state) (scope_barrier block scope)) in
  let^ _ := settled_mutation result in
  match result with
  | Err _ => let^ _ := take_runtime in a_err RecoveryRequired
  | Ok _ => a_ret tt
  end.

Definition apply_pull_response_owned (response_json : string)
  : act NativeSyncError NativeSyncStatus :=
  let^ response := a_lift (decode_input (T := PullResponse JsonValue) response_json) in
  let^ _ := a_lift (validate_pull_response_values response) in
  let required_scope := pull_required_scope response in
  let^ runtime := slot_client in
  match prepare_pull_response runtime response with
  | Ok prepared => persist_and_install prepared
  | Err error =>
      let^ _ := match block_of_error error with
                | Some block => a_update (set_scope_blocked (Some block))
                | None => a_ret tt
                end in
      let^ blocked := a_state rt_scope_blocked in
      let^ _ := match blocked, required_scope with
                | Some block, Some scope =>
                    let^ _ := persist_barrier block scope in disarm_mutation
                | _, _ => a_ret tt
                end in
      a_err (map_protocol_error error)
  end.

(** ** Conflicts *)

Definition resolve_conflict_keep_server_owned (conflicted_commit_id : string)
  : act NativeSyncError NativeSyncStatus :=
  transition (λ s, prepare_resolve_conflict s conflicted_commit_id ReqKeepServer).

Definition resolve_conflict_keep_local_owned
    (conflicted_commit_id replacement_commit_id : string)
  : act NativeSyncError NativeSyncStatus :=
  let^ runtime := slot_client in
  let^ (local, record_id, authoritative) :=
    a_lift (conflict_context runtime conflicted_commit_id) in
  let^ ops := a_lift (rebase_conflict_operation (operations local) record_id authoritative) in
  let replacement := mkCommit (mkIdentity replacement_commit_id "") ops in
  let^ f := a_lift (canonical_fingerprint runtime replacement) in
  let^ prepared := a_lift (map_err map_protocol_error
    (prepare_resolve_conflict runtime conflicted_commit_id
       (ReqKeepLocal (set_fingerprint replacement f)))) in
  persist_and_install prepared.

Definition resolve_conflict_merge_owned (conflicted_commit_id replacement_commit_json : string)
  : act NativeSyncError NativeSyncStatus :=
  let^ replacement := a_lift (decode_input replacement_commit_json) in
  let^ runtime := slot_client in
  let^ f := a_lift (canonical_fingerprint runtime replacement) in
  let^ prepared := a_lift (map_err map_protocol_error
    (prepare_resolve_conflict runtime conflicted_commit_id
       (ReqMerge (set_fingerprint replacement f)))) in
  persist_and_install prepared.

(** ** Subscriptions *)

Definition start_subscription_json_owned (request_json : string)
  : act fault NativeSyncStatus :=
  let^ request := a_lift (parse_request request_json) in
  a_map_err Native
    (let^ _ := refresh_scope_barrier in
     let^ runtime := slot_read_client in
     let^ prepared := a_lift (map_err map_protocol_error
       (prepare_start_subscription runtime request)) in
     persist_and_install prepared).

Definition cancel_subscription_owned (subscription_id : string) (generation : N)
  : act NativeSyncError NativeSyncStatus :=
  let^ _ := refresh_scope_barrier in
  transition (λ s, prepare_cancel_subscription s subscription_id generation).

Definition apply_subscription_response_owned (response : SubscriptionResponse JsonValue)
  : act NativeSyncError NativeSyncStatus :=
  let^ _ := refresh_scope_barrier in
  let^ runtime := slot_read_client in
  match prepare_subscription_response runtime response with
  | Ok prepared => persist_and_install prepared
  | Err error =>
      match block_of_error error with
      | None => a_err (map_protocol_error error)
      | Some block =>
          let^ _ := a_update (set_scope_blocked (Some block)) in
          let^ _ := persist_barrier block (sr_scope response) in
          let^ _ := transition (λ s,
            prepare_cancel_subscription s (sr_subscription_id response) (sr_generation response)) in
          a_err (map_protocol_error error)
      end
  end.

Definition apply_subscription_response_json_owned (response_json : string)
  : act fault NativeSyncStatus :=
  let^ response := a_lift (parse_response response_json) in
  a_map_err Native (apply_subscription_response_owned response).

(** ** Reads *)

Definition pending_window (max_commits max_bytes : N)
  : act NativeSyncError NativePendingWindow :=
  let^ _ := a_lift (limits max_commits max_bytes) in
  let^ state := slot_client in
  a_lift (window (st_revision state) (st_outbox state) max_commits max_bytes).

Definition pending_json : act NativeSyncError (list string) :=
  let^ runtime := slot_client in a_lift (try_map encode_output (st_outbox runtime)).

Definition conflicts_json : act NativeSyncError (list string) :=
  let^ runtime := slot_client in
  a_lift (try_map encode_output (List.filter is_open_conflict (st_outcomes runtime))).

Definition checkpoint_token : act NativeSyncError (option string) :=
  let^ runtime := slot_client in a_ret (token <$> st_checkpoint runtime).

Definition client_status : act NativeSyncError NativeSyncStatus :=
  let^ runtime := slot_client in a_lift (status runtime).

(** A read refreshes the scope barrier and is refused while one stands. *)
Definition refreshed_read {A} (f : StoredSyncState → RuntimeState → result A fault)
  : act fault A :=
  let^ _ := a_map_err Native refresh_scope_barrier in
  let^ runtime := a_map_err Native slot_read_client in
  let^ r := a_state (f runtime) in a_lift r.

Definition subscription_request_json (subscription_id : string) : act fault string :=
  refreshed_read (λ runtime _,
    let? value := request_value runtime subscription_id in map_err Native (sub_output value)).
Definition subscription_snapshot_json (subscription_id : string) : act fault string :=
  refreshed_read (λ runtime slot,
    let? value := sub_bootstrap (rt_subscription_journal slot) runtime subscription_id in
    map_err Native (sub_output value)).
Definition subscription_changes_json (subscription_id cursor_json : string) (max_batches : N)
  : act fault string :=
  refreshed_read (λ runtime slot,
    let? value := sub_changes (rt_subscription_journal slot) runtime subscription_id
                    cursor_json max_batches in
    map_err Native (sub_output value)).
Definition read_snapshot_json : act fault string :=
  refreshed_read (λ runtime slot,
    let? value := journal_bootstrap (rt_journal slot) runtime in
    map_err Native (read_output value)).
Definition read_changes_json (cursor_json : string) (max_batches : N) : act fault string :=
  refreshed_read (λ runtime slot,
    let? value := journal_changes (rt_journal slot) runtime cursor_json max_batches in
    map_err Native (read_output value)).
Definition requires_authorized_reset : act fault bool :=
  refreshed_read (λ runtime _, Ok (bool_decide (st_reset_coverage runtime = None))).

(** [read_view_json]; [token] is the fresh UUID of a next cursor. *)
Definition read_view_json (token request_json : string) : act fault string :=
  let^ response := refreshed_read (λ runtime slot,
    view_read runtime (rt_journal slot) token request_json) in
  let^ encoded := a_lift (map_err Native (view_output (view_response_json response))) in
  let^ _ := match response.1 with
            | VRows _ (Some cursor) _ =>
                a_update (λ s, set_journals (remember_view_cursor (rt_journal s) cursor)
                                 (rt_subscription_journal s) s)
            | _ => a_ret tt
            end in
  a_ret encoded.

Definition client_scope_transition_decision (scope : string) (subscription_revision : N)
  : act NativeSyncError string :=
  let^ runtime := slot_client in
  a_ret match scope_transition_decision runtime scope subscription_revision with
        | Unchanged => "unchanged"
        | DecideNewScopeJournal => "needs_new_scope_journal"
        | DecidePendingQuarantine => "pending_quarantine_required"
        end.

(** ** Opening *)

Definition options_match (options : NativeSyncOpenOptions) (state : StoredSyncState) : bool :=
  bool_decide (st_partition_id state = oo_partition_id options
    ∧ st_client_id state = oo_client_id options
    ∧ st_requested_scope state = oo_requested_scope options
    ∧ st_subscription_revision state = oo_subscription_revision options).

Definition options_key (options : NativeSyncOpenOptions) : SyncStateKey :=
  mkKey (oo_partition_id options) (oo_client_id options).

(** The durable state an existing journal must have. *)
Definition open_existing (options : NativeSyncOpenOptions)
  : act NativeSyncError (StoredSyncState * option ScopeBlock) :=
  let^ inspected := a_io (inspect (options_key options)) in
  let^ (state, barrier) := a_lift (map_err map_persistence_error inspected) in
  let^ state := a_lift (ok_or state RecoveryRequired) in
  if negb (options_match options state) then a_err ProtocolError else
  let^ _ := a_lift (validate_state_codec state) in
  let blocked := (λ b, from_reason (sb_reason b)) <$> barrier in
  let^ slot := a_state id in
  if decide (is_some_and (λ runtime, runtime ≠ state ∨ rt_scope_blocked slot ≠ blocked)
               (rt_runtime slot))
  then a_err RecoveryRequired else a_ret (state, blocked).

(** The state of a journal opened for the first time. *)
Definition initial_state (options : NativeSyncOpenOptions) : StoredSyncState :=
  empty_state (oo_partition_id options) (oo_client_id options) (oo_requested_scope options)
    (oo_subscription_revision options).

(** [store.save_atomic(None, &initial)], and the journal another opener saved first. *)
Definition save_initial (options : NativeSyncOpenOptions)
  : act NativeSyncError StoredSyncState :=
  let initial := initial_state options in
  let^ _ := arm_mutation in
  let^ saved := a_io (save_atomic gen None initial) in
  let^ _ := settled_mutation saved in
  let^ poisoned := a_is_poisoned in
  if poisoned : bool then a_err RecoveryRequired else
  match saved with
  | Ok _ => a_ret initial
  | Err RevisionConflict =>
      let^ loaded := a_io (load gen (options_key options)) in
      let^ loaded := a_lift (map_err map_persistence_error loaded) in
      a_lift (ok_or loaded Persistence)
  | Err error => a_err (map_persistence_error error)
  end.

(** [matches!(defined, Err(SyncStateError::Database(_)))] *)
Definition schema_uncertain {A} (r : result A SyncStateError) : bool :=
  match r with Err DatabaseError => true | _ => false end.

Definition create_if_missing (options : NativeSyncOpenOptions)
  : act NativeSyncError (StoredSyncState * option ScopeBlock) :=
  let key := options_key options in
  let^ _ := arm_mutation in
  let^ defined := a_io (define_schema gen) in
  let^ _ := (if schema_uncertain defined then a_poison else a_ret tt) in
  let^ _ := settled_mutation defined in
  if schema_uncertain defined then a_err RecoveryRequired else
  let^ _ := a_lift (map_err map_persistence_error defined) in
  let^ loaded := a_io (load gen key) in
  let^ loaded := a_lift (map_err map_persistence_error loaded) in
  let^ state := match loaded with
                | Some state => a_ret state
                | None => save_initial options
                end in
  if negb (options_match options state) then a_err ProtocolError else
  let^ _ := a_lift (validate_state_codec state) in
  let^ barrier := a_io (load_scope_barrier key) in
  let^ barrier := a_lift (map_err (λ _, RecoveryRequired) barrier) in
  a_ret (state, (λ b, from_reason (sb_reason b)) <$> barrier).

(** [shared_slot.runtime = Some(runtime)] of a cell that has none. *)
Definition install_opened (opened : StoredSyncState * option ScopeBlock)
  : act NativeSyncError unit :=
  let^ runtime := a_lift (map_err map_protocol_error (open opened.1)) in
  let^ slot := a_state id in
  let^ rotated := (if rt_recovery_required slot then rotate_both else a_ret true) in
  if rotated : bool then
    a_update (λ s, set_scope_blocked opened.2 (set_runtime (Some runtime) false s))
  else recovery.

Definition initialize_runtime (options : NativeSyncOpenOptions) (mode : OpenMode)
  : act NativeSyncError unit :=
  let^ _ := ensure in
  let^ existing := (if decide (mode = ExistingOnly)
                    then let^ e := open_existing options in a_ret (Some e)
                    else a_ret None) in
  let^ runtime := a_state rt_runtime in
  let^ _ := match runtime with
            | Some _ => a_ret tt
            | None =>
                let^ opened := match existing with
                               | Some existing => a_ret existing
                               | None => create_if_missing options
                               end in
                install_opened opened
            end in
  let^ state := slot_client in
  if decide (st_requested_scope state ≠ oo_requested_scope options
             ∨ st_subscription_revision state ≠ oo_subscription_revision options)
  then a_err ProtocolError else
  let^ generation := a_look ob_generation in
  let^ closed := a_look ob_closed in
  if decide (generation ≠ session_generation ∨ closed = true)
  then let^ _ := take_runtime in a_err RecoveryRequired
  else disarm_mutation.

(** ** Completing a bootstrap *)

(** The ticket of a bootstrap session is the current one. *)
Definition ticket_stale (slot : RuntimeState) (expected : BootstrapContext)
    (ticket : option N) : bool :=
  match ticket with
  | None => false
  | Some ticket =>
      bool_decide (ticket ≠ rt_bootstrap_binding_ticket slot
                   ∨ rt_bootstrap_binding slot ≠ Some expected)
  end.

Definition context_matches (state : StoredSyncState) (expected : BootstrapContext) : bool :=
  bool_decide (st_partition_id state = bc_partition_id expected
    ∧ st_client_id state = bc_client_id expected
    ∧ st_requested_scope state = scope_identity (bc_scope expected)
    ∧ st_subscription_revision state = scope_subscription_revision (bc_scope expected)).

(** [checked_clock]: the session is checked around every reading of the clock; [during]
    is what those checks observe. *)
Definition session_ok_at (poisoned : bool) (during : nat → Observation) (k : nat) : bool :=
  negb (poisoned || ob_poisoned (during k))
  && negb (ob_local_closed (during (k + 1)%nat))
  && negb (ob_closed (during (k + 2)%nat))
  && (ob_generation (during (k + 3)%nat) =? session_generation)%N.
Definition checked_clock (poisoned : bool) (during : nat → Observation)
    (clock : CompletionClock) : CompletionClock :=
  mkClock (cc_now clock) (λ k,
    if negb (session_ok_at poisoned during (8 * k)%nat) then Err RevisionConflict else
    let? now := cc_utc_seconds clock k in
    if negb (session_ok_at poisoned during (8 * k + 4)%nat) then Err RevisionConflict else Ok now)
    (cc_deadline clock).

(** The error of a completion that has left storage as it was. *)
Definition completion_refused (error : SyncStateError) : act NativeSyncError bool :=
  let^ _ := disarm_mutation in
  let^ _ := refresh_scope_barrier in
  let^ blocked := a_state rt_scope_blocked in
  match blocked with
  | Some NewJournal => a_err NNeedsNewScopeJournal
  | Some PendingQuarantine => a_err NPendingQuarantineRequired
  | None => a_err match error with
                  | InvalidState error => map_protocol_error error
                  | error => map_persistence_error error
                  end
  end.

(** The readback after a completion and its publication. *)
Definition completion_publish (result : Completion) (latest : StoredSyncState)
    (barrier : option ScopeBarrier) : act NativeSyncError bool :=
  match result with
  | HistoricalSuccess =>
      let^ runtime := a_state rt_runtime in
      if decide (runtime ≠ Some latest) then recovery else
      let^ _ := match barrier with
                | Some b => a_update (set_scope_blocked (Some (from_reason (sb_reason b))))
                | None => a_ret tt
                end in
      let^ _ := disarm_mutation in a_ret false
  | CompletionApplied applied =>
      if decide (latest ≠ applied ∨ is_Some barrier) then recovery else
      match open latest with
      | Err _ => recovery
      | Ok runtime =>
          let^ rotated := rotate_both in
          if rotated : bool then
            let^ _ := a_update (set_runtime (Some runtime) false) in
            let^ _ := disarm_mutation in a_ret true
          else recovery
      end
  end.

Definition complete_bootstrap_bound (receipt : list byte) (expected : BootstrapContext)
    (incarnation : N) (clock : CompletionClock) (during : nat → Observation)
    (ticket : option N) : act NativeSyncError bool :=
  let^ slot := a_state id in
  if ticket_stale slot expected ticket then a_err ProtocolError else
  let^ state := slot_client in
  if negb (context_matches state expected) then a_err ProtocolError else
  let^ _ := arm_mutation in
  λ c, (let^ result := a_io (complete gen receipt expected incarnation
                               (checked_clock (c_poisoned c) during clock)) in
        let^ _ := settled_mutation result in
        let^ session := a_try ensure in
        if outcome_unknown result || negb (is_ok session) then recovery else
        match result with
        | Err error => completion_refused error
        | Ok result =>
            let^ inspected := a_io (inspect (context_key expected)) in
            match inspected with
            | Ok (Some latest, barrier) =>
                let^ session := a_try ensure in
                if is_ok session then completion_publish result latest barrier else recovery
            | _ => recovery
            end
        end) c.
End ops.

(** ** The public calls *)

Section public_calls.
Context `{!SurrealTypes, !Engine, !Host, !JsonFloatText, !JsonText, !StateSerde, !Ciborium, !Sha256, !BridgeSerde}.
Variable session_generation : N.
Abbreviation run := (run_mutation session_generation).

Definition enqueue (commit_json : string) : act NativeSyncError NativeSyncStatus :=
  run id (locked (enqueue_owned session_generation commit_json)).
Definition enqueue_bounded (commit_json : string) (max_pending_commits max_pending_bytes : N)
  : act NativeSyncError NativeSyncStatus :=
  run id (locked (enqueue_bounded_owned session_generation commit_json
                    max_pending_commits max_pending_bytes)).
Definition record_push_response_with_policy (response_json : string)
    (policy : NativeConflictPolicy) : act NativeSyncError NativeSyncStatus :=
  run id (locked (record_push_response_with_policy_owned session_generation response_json policy)).
Definition record_push_response (response_json : string)
  : act NativeSyncError NativeSyncStatus :=
  record_push_response_with_policy response_json PolicyManual.
Definition apply_pull_response (response_json : string) : act NativeSyncError NativeSyncStatus :=
  run id (locked (apply_pull_response_owned session_generation response_json)).
Definition resolve_conflict_keep_server (conflicted_commit_id : string)
  : act NativeSyncError NativeSyncStatus :=
  run id (locked (resolve_conflict_keep_server_owned session_generation conflicted_commit_id)).
Definition resolve_conflict_keep_local (conflicted_commit_id replacement_commit_id : string)
  : act NativeSyncError NativeSyncStatus :=
  run id (locked (resolve_conflict_keep_local_owned session_generation conflicted_commit_id
                    replacement_commit_id)).
Definition resolve_conflict_merge (conflicted_commit_id replacement_commit_json : string)
  : act NativeSyncError NativeSyncStatus :=
  run id (locked (resolve_conflict_merge_owned session_generation conflicted_commit_id
                    replacement_commit_json)).
Definition start_subscription_json (request_json : string) : act fault NativeSyncStatus :=
  run Native (locked (start_subscription_json_owned session_generation request_json)).
Definition cancel_subscription (subscription_id : string) (generation : N)
  : act NativeSyncError NativeSyncStatus :=
  run id (locked (cancel_subscription_owned session_generation subscription_id generation)).
Definition apply_subscription_response_json (response_json : string)
  : act fault NativeSyncStatus :=
  run Native (locked (apply_subscription_response_json_owned session_generation response_json)).
End public_calls.
