(* ===== verification/NativeBootstrap.v ===== *)
(** * The native bootstrap session.

    Models [crates/surrealdb-rn-core/src/sync_bootstrap.rs] and [BootstrapAccess] of
    [sync_client.rs]: binding a session to a journal and an authenticated context, the
    requests it encodes, and beginning, staging, resuming, cancelling and completing a
    staged bootstrap under the runtime lock. *)

From Stdlib Require Import Strings.Byte.
From S2P Require Import Prelude Protocol Subscription ClientState SubscriptionState Validate Client SubscriptionClient Read Canonical HttpCodec BootstrapCodec SubscriptionCodec NativeErrors Json Wire NativeCodec Engine StateRows StateLoad Stage StateStore StageStore Queue ReadJournal SubscriptionJournal View NativeClient NativeOps.

Record NativeBootstrapContext := mkNativeContext {
  nc_authority_id : string;
  nc_principal_id : string;
  nc_partition_id : string;
  nc_client_id : string;
  nc_journal_generation : string;
  nc_requested_scope : string;
  nc_subscription_revision : N;
  nc_authorization_revision : N;
}.

Definition bounded_key (max : N) (key : string) : bool :=
  negb (str_is_empty key) && (str_len key <=? max)%N.

(** [NativeBootstrapContext::validated] *)
Definition validated (self : NativeBootstrapContext)
  : result BootstrapContext NativeBootstrapError :=
  if negb (forallb (bounded_key NATIVE_MAX_IDENTITY_BYTES)
             [nc_partition_id self; nc_client_id self; nc_requested_scope self])
  then Err BInvalidInput else
  if negb (forallb (bounded_key MAX_IDENTITY_BYTES)
             [nc_authority_id self; nc_principal_id self; nc_journal_generation self])
  then Err BInvalidInput else
  Ok (mkContext (nc_authority_id self) (nc_principal_id self) (nc_partition_id self)
        (nc_client_id self) (nc_journal_generation self)
        (mkScope (nc_requested_scope self) (nc_authorization_revision self)
           (nc_subscription_revision self))).

Inductive NativeBootstrapStageState := BMissing | BStaging | BCancelled | BConsumed.
Inductive NativeBootstrapCompletion := BApplied | BHistoricalSuccess.
#[export] Instance NativeBootstrapCompletion_eq_dec : EqDecision NativeBootstrapCompletion.
Proof. solve_decision. Defined.

(** A session and the stages it hands out; [binding] is the identity of the session's
    allocation, compared with [Arc::ptr_eq]. *)
Record NativeBootstrapSession := mkSession {
  bse_expected : BootstrapContext;
  bse_binding : nat;
  bse_ticket : N;
}.
Record NativeBootstrapStage := mkNativeStage {
  bst_binding : nat;
  bst_manifest : list byte;
  bst_incarnation : N;
}.

Record NativeBootstrapProgress := mkProgress {
  bpg_state : NativeBootstrapStageState;
  bpg_stage : option NativeBootstrapStage;
  bpg_received_indices : option (list N);
  bpg_expected_pages : option N;
  bpg_successful_revision : option N;
}.

Definition bounded (raw : list byte) : result unit NativeBootstrapError :=
  if (MAX_SYNC_STATE_BYTES <? vec_len raw)%N then Err BInvalidInput else Ok tt.

Section session.
Context `{!SurrealTypes, !Engine, !Host, !JsonFloatText, !JsonText, !StateSerde, !Ciborium, !Sha256, !BridgeSerde}.
Variable session_generation : N.
Abbreviation gen := (Some session_generation).
Abbreviation ensure := (ensure_session session_generation).

(** [.map_err(|_| NativeBootstrapError::InvalidFrame)] *)
Definition framed {A} (r : result A CodecError) : result A NativeBootstrapError :=
  map_err (λ _, InvalidFrame) r.

(** ** Access *)

(** [bootstrap_access]: the checks under the lock; the rest of an operation follows. *)
Definition bootstrap_access (expected : BootstrapContext) (ticket : option N)
  : act NativeBootstrapError unit :=
  let^ state := a_map_err from_native (guard_client session_generation) in
  if negb (context_matches state expected) then a_err ContextMismatch else
  let^ slot := a_state id in
  if decide (is_some_and (λ c, (authorization_revision (bc_scope expected)
                                < authorization_revision (scope c))%N) (st_checkpoint state)
             ∨ is_some_and (λ bound, same_owner bound expected = false
                 ∨ (authorization_revision (bc_scope expected)
                    < authorization_revision (bc_scope bound))%N) (rt_bootstrap_binding slot)
             ∨ ticket_stale slot expected ticket = true)
  then a_err ContextMismatch else a_ret tt.

(** [BootstrapAccess::bind] *)
Definition bind_binding (expected : BootstrapContext) : act NativeBootstrapError N :=
  let^ slot := a_state id in
  let^ _ :=
    (if decide (rt_bootstrap_binding slot = Some expected) then a_ret tt else
     let^ next := a_lift (ok_or (checked_add u64_max (rt_bootstrap_binding_ticket slot) 1)
                            BRecoveryRequired) in
     a_update (set_binding (Some expected) next)) in
  a_state rt_bootstrap_binding_ticket.

(** [BootstrapAccess::check_writable] *)
Definition check_writable : act NativeBootstrapError unit :=
  let^ _ := a_map_err from_native (refresh_scope_barrier session_generation) in
  let^ _ := a_map_err from_native (guard_read_client session_generation) in
  a_ret tt.

(** [BootstrapAccess::finish] *)
Definition access_finish {A} (result : result A SyncStateError) (mutating : bool)
  : act NativeBootstrapError A :=
  let^ _ := (if mutating then settled_mutation result else a_ret tt) in
  let^ session := a_try ensure in
  if outcome_unknown result || negb (is_ok session) then
    let^ _ := a_update invalidate_runtime in a_err BRecoveryRequired
  else
    let^ _ := disarm_mutation in
    a_lift (map_err from_store result).

(** ** The session *)

(** [bind_bootstrap_session]; [binding] is the identity of the new session. *)
Definition bind_bootstrap_session (expected : NativeBootstrapContext) (binding : nat)
  : act NativeBootstrapError NativeBootstrapSession :=
  let^ expected := a_lift (validated expected) in
  locked
    (let^ _ := bootstrap_access expected None in
     let^ result := a_io (resume None expected None) in
     let^ _ := a_map_err (λ e, if decide (e = StageMismatch) then ContextMismatch else e)
                 (access_finish result false) in
     let^ ticket := bind_binding expected in
     a_ret (mkSession expected binding ticket)).

Section bound.
Variable self : NativeBootstrapSession.

Definition session_stage (manifest : list byte) (incarnation : N) : NativeBootstrapStage :=
  mkNativeStage (bse_binding self) manifest incarnation.

Definition validate_stage (stage : NativeBootstrapStage) : result unit NativeBootstrapError :=
  if decide (bse_binding self ≠ bst_binding stage) then Err StageMismatch else Ok tt.

Definition session_manifest (raw : list byte) : result BootstrapManifest NativeBootstrapError :=
  let? _ := bounded raw in
  let? manifest := framed (decode_bootstrap_manifest raw) in
  if decide (bm_context manifest ≠ bse_expected self) then Err ContextMismatch else Ok manifest.

Definition access {A} (operation : act NativeBootstrapError A) : act NativeBootstrapError A :=
  locked (let^ _ := bootstrap_access (bse_expected self) (Some (bse_ticket self)) in operation).

(** [request_start] *)
Definition request_start (request_id : string) : act NativeBootstrapError (list byte) :=
  if negb (bounded_key NATIVE_MAX_IDENTITY_BYTES request_id) then a_err BInvalidInput else
  let^ _ := access (access_finish (Ok tt) false) in
  let expected := bse_expected self in
  a_lift (map_err (λ _, BInvalidInput) (encode_bootstrap_start
    (mkStart (bc_partition_id expected) (bc_client_id expected) request_id
       (scope_identity (bc_scope expected)) (scope_subscription_revision (bc_scope expected))
       (bc_journal_generation expected)))).

Definition request_manifest (stage : NativeBootstrapStage)
  : act NativeBootstrapError BootstrapManifest :=
  let^ _ := a_lift (validate_stage stage) in
  let^ manifest := a_lift (session_manifest (bst_manifest stage)) in
  access
    (let^ result := a_io (resume (Some (bst_manifest stage)) (bse_expected self)
                            (Some (bst_incarnation stage))) in
     let^ inventory := access_finish result false in
     let^ inventory := a_lift (ok_or inventory StageMismatch) in
     if decide (si_state inventory = Cancelled) then a_err StageMismatch else a_ret manifest).

Definition request_page (stage : NativeBootstrapStage) (index : N)
  : act NativeBootstrapError (list byte) :=
  let^ manifest := request_manifest stage in
  if (bm_page_count manifest <=? index)%N then a_err BInvalidInput else
  a_lift (framed (encode_bootstrap_page_request
    (mkPageRequest (bc_partition_id (bse_expected self)) (bc_client_id (bse_expected self))
       (bm_session_id manifest) index))).

Definition request_complete (stage : NativeBootstrapStage)
  : act NativeBootstrapError (list byte) :=
  let^ manifest := request_manifest stage in
  let^ digest := a_lift (framed (bootstrap_manifest_digest manifest)) in
  a_lift (framed (encode_bootstrap_complete
    (mkComplete (bc_partition_id (bse_expected self)) (bc_client_id (bse_expected self))
       (bm_session_id manifest) digest))).

Definition begin_owned (start manifest : list byte)
  : act NativeBootstrapError NativeBootstrapStage :=
  let^ _ := a_lift (bounded start) in
  let^ decoded := a_lift (session_manifest manifest) in
  let^ request := a_lift (framed (decode_bootstrap_start start)) in
  let^ _ := a_lift (framed (validate_bootstrap_manifest_context decoded request
                              (bse_expected self))) in
  access
    (let^ _ := check_writable in
     let^ _ := arm_mutation in
     let^ result := a_io (begin gen start manifest (bse_expected self)) in
     let^ incarnation := access_finish result true in
     a_ret (session_stage manifest incarnation)).

Definition page_owned (stage : NativeBootstrapStage) (bytes : list byte)
  : act NativeBootstrapError unit :=
  let^ _ := a_lift (validate_stage stage) in
  let^ _ := a_lift (bounded bytes) in
  let^ page := a_lift (framed (decode_bootstrap_page bytes)) in
  let^ manifest := a_lift (session_manifest (bst_manifest stage)) in
  if decide (bp_session_id page ≠ bm_session_id manifest) then a_err StageMismatch else
  let^ digest := a_lift (framed (bootstrap_manifest_digest manifest)) in
  if decide (bp_manifest_digest page ≠ digest) then a_err StageMismatch else
  access
    (let^ _ := check_writable in
     let^ _ := arm_mutation in
     let^ result := a_io (stage_page gen bytes (bse_expected self) (bst_incarnation stage)) in
     access_finish result true).

Definition session_progress (manifest : list byte)
  : act NativeBootstrapError NativeBootstrapProgress :=
  let^ _ := a_lift (session_manifest manifest) in
  access
    (let^ result := a_io (resume (Some manifest) (bse_expected self) None) in
     let^ inventory := access_finish result false in
     match inventory with
     | None => a_ret (mkProgress BMissing None None None None)
     | Some inventory =>
         let '(state, revision) :=
           match si_state inventory with
           | Staging => (BStaging, None)
           | Cancelled => (BCancelled, None)
           | Consumed revision => (BConsumed, Some revision)
           end in
         a_ret (mkProgress state (Some (session_stage manifest (si_incarnation inventory)))
                  (Some (si_indices inventory)) (Some (si_expected_pages inventory)) revision)
     end).

Definition cancel_owned (stage : NativeBootstrapStage) : act NativeBootstrapError unit :=
  let^ _ := a_lift (validate_stage stage) in
  access
    (let^ _ := arm_mutation in
     let^ result := a_io (cancel gen (bst_manifest stage) (bse_expected self)
                            (bst_incarnation stage)) in
     access_finish result true).

(** The readings of the native clock: seconds since the epoch, [None] when the clock is
    before it; [now] counts nanoseconds from the start of the completion. *)
Record NativeClock := mkNativeClock { nk_utc : nat → option N; nk_now : nat → N }.

Definition completion_clock (clock : NativeClock) : CompletionClock :=
  mkClock (nk_now clock) (λ k, ok_or (nk_utc clock k) CorruptState) (30 * 1000000000).

(** What the two flags of [complete_owned] hold after the readings the completion took:
    [unavailable] is set by any failed reading, [expired] holds the last verdict. *)
Definition clock_unavailable (clock : NativeClock) (readings : nat) : bool :=
  existsb (λ k, bool_decide (nk_utc clock k = None)) (seq 0 readings).
Definition clock_expired (clock : NativeClock) (expires_at : N) (readings : nat) : bool :=
  match last (omap (nk_utc clock) (seq 0 readings)) with
  | Some now => (expires_at <=? now)%N
  | None => false
  end.

(** [complete_owned]; [readings] is how many times the clock was read. *)
Definition complete_owned (stage : NativeBootstrapStage) (receipt : list byte)
    (clock : NativeClock) (during : nat → Observation) (readings : nat)
  : act NativeBootstrapError NativeBootstrapCompletion :=
  let^ _ := a_lift (validate_stage stage) in
  let^ _ := a_lift (bounded receipt) in
  let^ decoded := a_lift (framed (decode_bootstrap_receipt receipt)) in
  let^ manifest := a_lift (session_manifest (bst_manifest stage)) in
  let^ _ := a_lift (map_err (λ _, StageMismatch) (validate_bootstrap_receipt manifest decoded)) in
  let^ completed := a_try (locked (complete_bootstrap_bound session_generation receipt
    (bse_expected self) (bst_incarnation stage) (completion_clock clock) during
    (Some (bse_ticket self)))) in
  match completed with
  | Ok true => a_ret BApplied
  | Ok false => a_ret BHistoricalSuccess
  | Err RecoveryRequired => a_err BRecoveryRequired
  | Err error =>
      if clock_unavailable clock readings then a_err ClockUnavailable else
      if clock_expired clock (br_expires_at decoded) readings then a_err Expired
      else a_err (from_native error)
  end.
End bound.
End session.

(** ** The public calls of a session *)

Section public_calls.
Context `{!SurrealTypes, !Engine, !Host, !JsonFloatText, !JsonText, !StateSerde, !Ciborium, !Sha256, !BridgeSerde}.
Variable session_generation : N.
Variable self : NativeBootstrapSession.
Abbreviation run := (run_mutation session_generation from_native).

Definition session_begin (start manifest : list byte)
  : act NativeBootstrapError NativeBootstrapStage :=
  run (begin_owned session_generation self start manifest).
Definition session_page (stage : NativeBootstrapStage) (bytes : list byte)
  : act NativeBootstrapError unit :=
  run (page_owned session_generation self stage bytes).
Definition session_cancel (stage : NativeBootstrapStage) : act NativeBootstrapError unit :=
  run (cancel_owned session_generation self stage).
Definition session_complete (stage : NativeBootstrapStage) (receipt : list byte)
    (clock : NativeClock) (during : nat → Observation) (readings : nat)
  : act NativeBootstrapError NativeBootstrapCompletion :=
  run (complete_owned session_generation self stage receipt clock during readings).
End public_calls.
