(* ===== verification/StateProps.v ===== *)
(** * What a stored client state reads back as.

    A client state is normalized into one metadata row and one row per component.
    [represents] says that a database holds exactly these rows for a journal; the main
    result is that the reader returns exactly the state they were made from. *)

From Stdlib Require Import Strings.Byte.
From S2P Require Import Prelude Protocol Subscription ClientState SubscriptionState Validate Client Canonical HttpCodec BootstrapCodec NativeErrors Json Wire NativeCodec Engine StateRows StateLoad Stage StateStore.

Set Default Proof Using "Type*".

(** [serde] round trips of a type, as its derived implementations promise. *)
Class SerdeLaws (T : Type) `{!SerdeJson T} :=
  from_to_value : ∀ (x : T) v, to_value x = Ok v → from_value v = Ok x.

(** The reader of [serde_json] returns what its writer wrote, up to its recursion limit. *)
Class JsonTextLaws `{!JsonText} :=
  tagged_reader : ∀ t b, tagged_to_vec t = Ok b → tagged_levels t ≤ 127 →
    tagged_from_slice b = Ok t.

Class StateSerdeLaws `{!StateSerde} := {
  #[global] laws_meta :: SerdeLaws StateMeta;
  #[global] laws_record_state :: SerdeLaws (RecordState JsonValue);
  #[global] laws_commit :: SerdeLaws (ClientCommit JsonValue);
  #[global] laws_resolved :: SerdeLaws (ResolvedCommit JsonValue);
  #[global] laws_record_id :: SerdeLaws string;
  #[global] laws_row :: SerdeLaws (SubscriptionRow JsonValue);
}.

(** ** Sums and sizes *)

Lemma usize_add_Ok a b c : usize_add a b = Ok c ↔ c = (a + b)%N ∧ (a + b ≤ usize_max)%N.
Proof. unfold usize_add. rewrite ok_or_Ok. apply checked_add_Some. Qed.

Lemma strictly_sorted_btree_keys {A} (m : gmap string A) : strictly_sorted (btree_keys m) = true.
Proof.
  apply strictly_sorted_spec. pose proof (btree_keys_sorted m) as Hs.
  pose proof (btree_keys_NoDup m) as Hn. revert Hs Hn. generalize (btree_keys m).
  intros l. induction l as [|x l IH]; intros Hs Hn; [constructor|].
  apply StronglySorted_inv in Hs as [Hs Hx]. apply NoDup_cons in Hn as [Hnx Hn].
  constructor; [by apply IH|]. destruct l as [|y l]; constructor.
  apply Forall_cons in Hx as [Hxy _]. apply str_le_lteq in Hxy as [?| ->]; [done|set_solver].
Qed.

Lemma vec_len_btree_keys {A} (m : gmap string A) : vec_len (btree_keys m) = map_len m.
Proof.
  unfold vec_len, map_len, btree_keys. by rewrite length_fmap, length_btree_entries.
Qed.

Section tagged.
Context `{!JsonFloatText, !JsonText, !JsonTextLaws}.

(** Values whose text the reader accepts: numbers with exact texts, bounded nesting. *)
Definition storable {T} `{!SerdeJson T} (x : T) : Prop :=
  ∀ v, to_value x = Ok v → json_wf v ∧ tagged_levels (tag_json v) ≤ 127.

Lemma encode_tagged_len {T} `{!SerdeJson T} (x : T) b :
  encode_tagged x = Ok b → (vec_len b ≤ MAX_SYNC_STATE_BYTES)%N.
Proof. unfold encode_tagged. intros He. inv_ok. by apply N.ltb_ge. Qed.

Lemma decode_encode {T} `{!SerdeJson T, !SerdeLaws T} (x : T) b :
  storable x → encode_tagged x = Ok b → decode_tagged b = Ok x.
Proof.
  intros Hs He. pose proof (encode_tagged_len _ _ He) as Hlen.
  unfold encode_tagged in He. inv_ok.
  rename select (map_err _ (to_value x) = Ok _) into Hval.
  rename select (map_err _ (tagged_to_vec _) = Ok _) into Hvec.
  apply map_err_Ok in Hval, Hvec.
  destruct (Hs _ Hval) as [Hwf Hlev]. pose proof (from_to_value x _ Hval) as Hback.
  unfold decode_tagged. rewrite (proj2 (N.ltb_ge _ _) Hlen).
  rewrite (tagged_reader _ _ Hvec Hlev). simpl. rewrite Hvec. simpl.
  destruct (decide _) as [?|_]; [done|]. rewrite (untag_tag _ Hwf). simpl. by rewrite Hback.
Qed.
End tagged.

(** ** Normalized components *)

Section normalize.
Context `{!SurrealTypes, !JsonFloatText, !JsonText, !StateSerde}.

(** Inserting the components of one table. *)
Lemma insert_components_Ok {T} `{!SerdeJson T} table (l : list (string * T)) m m' :
  try_fold (insert_component table) m l = Ok m' → NoDup l.*1 →
  size m' ≤ size m + length l ∧ (∀ k v, (k, v) ∈ l → is_ok (encode_tagged v) = true) ∧
  ∀ item p, m' !! item = Some p ↔
    (item.1 = table ∧ ∃ v, (item.2, v) ∈ l ∧ encode_tagged v = Ok p) ∨
    ((item.1 ≠ table ∨ item.2 ∉ l.*1) ∧ m !! item = Some p).
Proof.
  revert m. induction l as [|[k v] l IH]; intros m; csimpl.
  { intros [= <-] _. split; [lia|]. split; [set_solver|]. set_solver. }
  intros (m1 & Hins & Hl)%result_bind_Ok Hnd. apply NoDup_cons in Hnd as [Hk Hnd].
  unfold insert_component in Hins. inv_ok.
  rename select (encode_tagged v = Ok _) into Hv. rename x into b.
  destruct (IH _ Hl Hnd) as (Hsz & Henc & Hlook). split; [|split].
  - etrans; [exact Hsz|]. rewrite map_size_insert. destruct (m !! _); simpl; lia.
  - intros k' v' [[= -> ->]|Hk']%elem_of_cons; [by rewrite Hv|by eapply Henc].
  - intros [t k'] p. rewrite Hlook. simpl. unfold address.
    destruct (decide ((t, k') = (table, k))) as [[= -> ->]|Hne].
    + rewrite lookup_insert_eq. split.
      * intros [(_ & v' & Hv' & _)|[_ [= ->]]].
        { exfalso. apply Hk, list_elem_of_fmap. by exists (k, v'). }
        left. split; [done|]. exists v. split; [by left|done].
      * intros [(_ & v' & [[= ->]|Hv']%elem_of_cons & Hp)|[[?|Hin] _]]; [| |done|].
        { right. split; [by right|]. congruence. }
        { exfalso. apply Hk, list_elem_of_fmap. by exists (k, v'). }
        exfalso. apply Hin. by left.
    + rewrite lookup_insert_ne by congruence. rewrite not_elem_of_cons.
      split; intros [(-> & v' & Hin & Hp)|[Hor Hm]].
      * left. split; [done|]. exists v'. split; [by right|done].
      * right. split; [|done]. destruct (decide (t = table)) as [->|]; [|by left].
        right. split; [congruence|]. by destruct Hor.
      * left. split; [done|]. exists v'. apply elem_of_cons in Hin as [[= -> ->]|]; [done|].
        done.
      * right. split; [|done]. destruct Hor as [|[]]; auto.
Qed.

(** The groups of components of a state. *)
Inductive component_of (s : StoredSyncState) : ComponentAddress → list byte → Prop :=
| comp_row k r p subs : st_subscriptions s = Some subs → records subs !! k = Some r →
    encode_tagged r = Ok p → component_of s (address SUBSCRIPTION_RECORD_TABLE k) p
| comp_confirmed k r p : st_confirmed s !! k = Some r →
    encode_tagged r = Ok p → component_of s (address CONFIRMED_TABLE k) p
| comp_outbox c p : c ∈ st_outbox s →
    encode_tagged c = Ok p → component_of s (address OUTBOX_TABLE (commit_id c)) p
| comp_outcome o p : o ∈ st_outcomes s →
    encode_tagged o = Ok p → component_of s (address OUTCOME_TABLE (commit_id (local_commit o))) p
| comp_id_map k r p : st_id_map s !! k = Some r →
    encode_tagged r = Ok p → component_of s (address ID_MAP_TABLE k) p.

Lemma component_of_table s item p : component_of s item p → item.1 ∈ COMPONENT_TABLES.
Proof. destruct 1; simpl; set_solver. Qed.

Definition subscription_records (s : StoredSyncState) : gmap string (SubscriptionRow JsonValue) :=
  default ∅ (records <$> st_subscriptions s).

Lemma outbox_entries_keys (s : StoredSyncState) :
  ((λ c, (commit_id c, c)) <$> st_outbox s).*1 = commit_id <$> st_outbox s.
Proof. by rewrite <-list_fmap_compose. Qed.
Lemma outcome_entries_keys (s : StoredSyncState) :
  ((λ o, (commit_id (local_commit o), o)) <$> st_outcomes s).*1 =
  (λ o, commit_id (local_commit o)) <$> st_outcomes s.
Proof. by rewrite <-list_fmap_compose. Qed.

Lemma valid_distinct (s : StoredSyncState) :
  ValidState s → NoDup (commit_id <$> st_outbox s) ∧
    NoDup ((λ o, commit_id (local_commit o)) <$> st_outcomes s).
Proof.
  intros Hv. pose proof (vs_distinct _ Hv) as Hd.
  unfold durable_ids, durable_commits in Hd. rewrite fmap_app, <-list_fmap_compose in Hd.
  apply NoDup_app in Hd as (? & _ & ?). done.
Qed.

(** Every component of the state encodes. *)
Record all_encode (s : StoredSyncState) : Prop := {
  ae_row : ∀ k r, subscription_records s !! k = Some r → is_ok (encode_tagged r) = true;
  ae_confirmed : ∀ k r, st_confirmed s !! k = Some r → is_ok (encode_tagged r) = true;
  ae_outbox : ∀ c, c ∈ st_outbox s → is_ok (encode_tagged c) = true;
  ae_outcome : ∀ o, o ∈ st_outcomes s → is_ok (encode_tagged o) = true;
  ae_id_map : ∀ k r, st_id_map s !! k = Some r → is_ok (encode_tagged r) = true;
}.

(** What a successful normalization produces. *)
Record normalized (s : StoredSyncState) (rows : NormalizedRows) : Prop := {
  nm_meta : encode_tagged (state_meta s) = Ok (nr_meta rows);
  nm_component : ∀ item p, nr_components rows !! item = Some p ↔ component_of s item p;
  nm_encodes : all_encode s;
  nm_keys : ∀ item p, nr_components rows !! item = Some p →
    validate_component_key item.2 = Ok tt;
  nm_count : state_count s = Ok (N.of_nat (size (st_confirmed s))
    + N.of_nat (size (subscription_records s)) + vec_len (st_outbox s)
    + vec_len (st_outcomes s) + N.of_nat (size (st_id_map s)))%N;
  nm_size : (N.of_nat (size (nr_components rows)) ≤ MAX_COMPONENT_ITEMS)%N;
  nm_total : ∃ total, total_bytes (nr_meta rows) (nr_components rows) = Ok total ∧
    (total ≤ MAX_AGGREGATE_STATE_BYTES)%N;
  nm_version : nr_format_version rows =
    match st_subscriptions s with Some _ => SUBSCRIPTION_FORMAT_VERSION | None => FORMAT_VERSION end;
  nm_items : (N.of_nat (size (st_confirmed s)) + N.of_nat (size (subscription_records s))
    + vec_len (st_outbox s) + vec_len (st_outcomes s) + N.of_nat (size (st_id_map s))
    ≤ MAX_COMPONENT_ITEMS)%N;
}.

Lemma state_count_Ok s n :
  state_count s = Ok n → n = (N.of_nat (size (st_confirmed s))
    + N.of_nat (size (subscription_records s)) + vec_len (st_outbox s)
    + vec_len (st_outcomes s) + N.of_nat (size (st_id_map s)))%N.
Proof.
  unfold state_count, subscription_records. intros Hc. inv_ok.
  rewrite ?usize_add_Ok in *. destruct_and?. subst. unfold map_len.
  destruct (st_subscriptions s); simpl; [done|]. by rewrite map_size_empty.
Qed.

(** The component tables are five different strings. *)
Ltac tables_ne := intros ?; discriminate.

Lemma elem_of_keyed {A} (f : A → string) (l : list A) k v :
  (k, v) ∈ (λ x, (f x, x)) <$> l ↔ k = f v ∧ v ∈ l.
Proof.
  rewrite list_elem_of_fmap. split; [by intros (x & [= -> ->] & ?)|].
  intros [-> ?]. by exists v.
Qed.

Lemma elem_of_subscription_records s k r :
  subscription_records s !! k = Some r ↔
  ∃ subs, st_subscriptions s = Some subs ∧ records subs !! k = Some r.
Proof. unfold subscription_records. destruct (st_subscriptions s); simpl; naive_solver. Qed.

(** The five insertions, one after the other. *)
Lemma groups_lookup (s : StoredSyncState) (m m1 m2 m3 m4 : gmap ComponentAddress (list byte)) :
  try_fold (insert_component SUBSCRIPTION_RECORD_TABLE) ∅
    (btree_entries (subscription_records s)) = Ok m1 →
  try_fold (insert_component CONFIRMED_TABLE) m1 (btree_entries (st_confirmed s)) = Ok m2 →
  try_fold (insert_component OUTBOX_TABLE) m2
    ((λ c, (commit_id c, c)) <$> st_outbox s) = Ok m3 →
  try_fold (insert_component OUTCOME_TABLE) m3
    ((λ o, (commit_id (local_commit o), o)) <$> st_outcomes s) = Ok m4 →
  try_fold (insert_component ID_MAP_TABLE) m4 (btree_entries (st_id_map s)) = Ok m →
  ValidState s →
  (∀ item p, m !! item = Some p ↔ component_of s item p) ∧ all_encode s ∧
  size m ≤ size (subscription_records s) + size (st_confirmed s) + length (st_outbox s)
    + length (st_outcomes s) + size (st_id_map s).
Proof.
  intros H1' H2' H3' H4' H5' Hv. destruct (valid_distinct s Hv) as [Hob Hoc].
  apply insert_components_Ok in H1' as (S1 & E1 & L1); [|apply btree_keys_NoDup].
  apply insert_components_Ok in H2' as (S2 & E2 & L2); [|apply btree_keys_NoDup].
  apply insert_components_Ok in H3' as (S3 & E3 & L3); [|by rewrite outbox_entries_keys].
  apply insert_components_Ok in H4' as (S4 & E4 & L4); [|by rewrite outcome_entries_keys].
  apply insert_components_Ok in H5' as (S5 & E5 & L5); [|apply btree_keys_NoDup].
  rewrite ?length_fmap, ?length_btree_entries, ?map_size_empty in *.
  split; [|split; [|lia]]; cycle 1.
  { split.
    - intros k r Hk. eapply E1. by apply elem_of_btree_entries.
    - intros k r Hk. eapply E2. by apply elem_of_btree_entries.
    - intros c Hc. eapply E3. by apply elem_of_keyed.
    - intros o Ho. eapply E4. by apply (elem_of_keyed (λ o, commit_id (local_commit o))).
    - intros k r Hk. eapply E5. by apply elem_of_btree_entries. }
  intros [t k] p. rewrite L5, L4, L3, L2, L1, lookup_empty. simpl. split.
  - setoid_rewrite elem_of_btree_entries. setoid_rewrite elem_of_keyed.
    intros Hd. repeat (destruct Hd as [(-> & v & Hk & Hp)|[_ Hd]];
      [match type of Hk with _ ∧ _ => destruct Hk as [-> Hk] | _ => idtac end; first
         [apply elem_of_subscription_records in Hk as (subs & ? & ?); by econstructor
         |by econstructor]|]). done.
  - setoid_rewrite elem_of_btree_entries. setoid_rewrite elem_of_keyed.
    intros Hc. inversion Hc; subst.
    + do 4 (right; split; [left; tables_ne|]). left. split; [done|].
      eexists. split; [by apply elem_of_subscription_records; eauto|done].
    + do 3 (right; split; [left; tables_ne|]). left. eauto.
    + do 2 (right; split; [left; tables_ne|]). left. split; [done|]. by exists c.
    + right. split; [left; tables_ne|]. left. split; [done|]. by exists o.
    + left. eauto.
Qed.

Lemma normalize_Ok s rows : normalize_state s = Ok rows → ValidState s → normalized s rows.
Proof.
  intros Hn Hv. unfold normalize_state in Hn. fold (subscription_records s) in Hn. inv_ok.
  rename select (state_count s = Ok _) into Hcount.
  pose proof (state_count_Ok _ _ Hcount) as ->.
  rename select ((MAX_COMPONENT_ITEMS <? _)%N = false) into Hmax. apply N.ltb_ge in Hmax.
  rename select (try_fold (insert_component ID_MAP_TABLE) _ _ = Ok _) into Hids.
  destruct (groups_lookup s _ _ _ _ _ ltac:(eassumption) ltac:(eassumption)
    ltac:(eassumption) ltac:(eassumption) Hids Hv) as (Hlook & Henc & Hsize).
  repeat match goal with H : try_for_each _ _ = Ok _ |- _ =>
    apply try_for_each_ok_unit in H; rewrite Forall_forall in H end.
  split; simpl; try done.
  - intros item p [k r ? subs Hs Hk|k r ? Hk|c ? Hc|o ? Ho|k r ? Hk]%Hlook; simpl; try by eauto.
    + match goal with H : ∀ x, x ∈ btree_keys (subscription_records s) → _ |- _ => apply H end.
      apply elem_of_btree_keys. exists r. apply elem_of_subscription_records. eauto.
    + match goal with H : ∀ x, x ∈ btree_keys (st_confirmed s) → _ |- _ => apply H end.
      apply elem_of_btree_keys. by exists r.
    + match goal with H : ∀ x, x ∈ btree_entries (st_id_map s) → _ |- _ =>
        specialize (H (k, r) (proj2 (elem_of_btree_entries _ _ _) Hk)) end.
      inv_ok. by destruct (validate_component_key k) as [[]|].
  - unfold vec_len in *. lia.
  - eexists. split; [eassumption|]. by apply N.ltb_ge.
Qed.
End normalize.

(** ** Reading the components back *)

Lemma try_map_total {A B E} (f : A → result B E) l :
  (∀ x, x ∈ l → ∃ y, f x = Ok y) → ∃ l', try_map f l = Ok l'.
Proof.
  induction l as [|x l IH]; intros Hf; simpl; [by eexists|].
  destruct (Hf x ltac:(by left)) as [y ->]. simpl.
  destruct IH as [l' ->]; [intros z Hz; apply Hf; by right|]. simpl. by eexists.
Qed.

Section take.
Context `{!JsonFloatText, !JsonText}.

Lemma take_values_Ok {T} `{!SerdeJson T} table check wanted (l : list (string * T)) inv :
  NoDup l.*1 → wanted = true ∨ l = [] →
  (∀ k v, (k, v) ∈ l → ∃ p, inv !! address table k = Some p ∧ decode_tagged p = Ok v
     ∧ check k v = true) →
  ∃ inv', take_values table wanted check inv l.*1 = Ok (l, inv') ∧
    ∀ item, inv' !! item = if decide (item.1 = table ∧ item.2 ∈ l.*1) then None else inv !! item.
Proof.
  intros Hnd Hw. unfold take_values.
  set (step := λ (acc : list (string * T) * _) (key : string), _).
  assert (∀ acc, (∀ k v, (k, v) ∈ l → ∃ p, inv !! address table k = Some p ∧
      decode_tagged p = Ok v ∧ check k v = true) →
    ∃ inv', try_fold step (acc, inv) l.*1 = Ok (acc ++ l, inv') ∧
    ∀ item, inv' !! item = if decide (item.1 = table ∧ item.2 ∈ l.*1) then None
                           else inv !! item) as Hacc; [|by apply (Hacc [])].
  clear -Hnd Hw. revert inv. induction l as [|[k v] l IH]; intros inv acc Hinv; csimpl.
  { exists inv. rewrite app_nil_r. split; [done|]. intros item.
    by rewrite decide_False by set_solver. }
  destruct Hw as [->|?]; [|done]. apply NoDup_cons in Hnd as [Hk Hnd].
  destruct (Hinv k v) as (p & Hp & Hdec & Hchk); [by left|].
  unfold step at 1. unfold take_component. simpl. rewrite Hp. simpl. rewrite Hdec. simpl.
  rewrite Hchk. simpl.
  destruct (IH Hnd ltac:(by left) (delete (address table k) inv) (acc ++ [(k, v)]))
    as (inv' & Hf & Hlook).
  { intros k' v' Hin. destruct (Hinv k' v') as (p' & Hp' & ?); [by right|].
    exists p'. split; [|done]. rewrite lookup_delete_ne; [done|].
    intros [= ->]. apply Hk, list_elem_of_fmap. by exists (k', v'). }
  exists inv'. split; [by rewrite Hf, <-app_assoc|].
  intros [t k']. rewrite Hlook. simpl. destruct (decide (t = table)) as [->|Ht].
  - destruct (decide (k' = k)) as [->|Hkk].
    + rewrite (decide_True (P := table = table ∧ k ∈ k :: l.*1)) by (split; [done|by left]).
      case_decide; [done|apply lookup_delete_eq].
    + rewrite lookup_delete_ne by (unfold address; congruence).
      apply decide_ext. rewrite elem_of_cons. naive_solver.
  - rewrite !decide_False by (by intros [? _]).
    apply lookup_delete_ne. unfold address. congruence.
Qed.
End take.

Section represents.
Context `{!SurrealTypes, !Engine, !EngineLaws, !JsonFloatText, !JsonText, !StateSerde}.

Definition owned (key : SyncStateKey) (x : row) : bool :=
  owned_by (k_partition_id key) (k_client_id key) x.

Definition row_version_ok (v : Z) : Prop := v = FORMAT_VERSION ∨ v = SUBSCRIPTION_FORMAT_VERSION.

Definition meta_row (key : SyncStateKey) (rows : NormalizedRows) (fence : option string) : row :=
  RowMeta (mkMetaRow (nr_format_version rows) (k_partition_id key) (k_client_id key)
             (nr_meta rows)) fence.

(** The component rows of the journal are exactly those of [components]. *)
Record component_rows (d : db) (key : SyncStateKey)
    (components : gmap ComponentAddress (list byte)) : Prop := {
  cr_present : ∀ item p, components !! item = Some p → ∃ v, row_version_ok v ∧
    contents d (component_record_id key item) = Some (component_row key v item p);
  cr_only : ∀ r x, r_table r ∈ COMPONENT_TABLES → contents d r = Some x → owned key x = true →
    ∃ item, is_Some (components !! item) ∧ r = component_record_id key item;
}.

Record represents (d : db) (key : SyncStateKey) (rows : NormalizedRows) : Prop := {
  rep_components : component_rows d key (nr_components rows);
  rep_meta : ∃ fence, contents d (meta_record_id key) = Some (meta_row key rows fence);
}.

(** No row of the journal is stored. *)
Record vacant (d : db) (key : SyncStateKey) : Prop := {
  vac_components : component_rows d key ∅;
  vac_meta : contents d (meta_record_id key) = None;
}.

Lemma component_record_id_inj key item item' :
  component_record_id key item = component_record_id key item' → item = item'.
Proof.
  unfold component_record_id. intros [Ht Hk]%array_rid_inj. destruct item, item'.
  simpl in *. naive_solver.
Qed.

Lemma component_record_id_table key item : r_table (component_record_id key item) = item.1.
Proof. done. Qed.

Lemma owned_component_row key v item p : owned key (component_row key v item p) = true.
Proof. unfold owned, owned_by, component_row. simpl. by apply bool_decide_eq_true. Qed.

(** One row of the query on a component table. *)
Definition row_of (key : SyncStateKey) (table : string)
    (components : gmap ComponentAddress (list byte)) (row : StoredComponentRow) : Prop :=
  row_version_ok (cr_format_version row) ∧ cr_partition_id row = k_partition_id key ∧
  cr_client_id row = k_client_id key ∧
  components !! address table (cr_component_key row) = Some (cr_payload row).

Lemma component_rows_full d key components table full :
  component_rows d key components → table ∈ COMPONENT_TABLES →
  NoDup full.*1 →
  (∀ r x, (r, x) ∈ full ↔ r_table r = table ∧ contents d r = Some x ∧ owned key x = true) →
  length full ≤ size components ∧
  ∃ l, try_map (λ x : rid * row, ok_or (row_to_component x.2) DatabaseError) full = Ok l ∧
    NoDup (cr_component_key <$> l) ∧ Forall (row_of key table components) l ∧
    ∀ k, is_Some (components !! address table k) → k ∈ cr_component_key <$> l.
Proof.
  intros [Hpres Honly] Ht Hnd Hfull.
  assert (∀ r x, (r, x) ∈ full → ∃ k p v, row_version_ok v ∧
    components !! address table k = Some p ∧ r = component_record_id key (address table k) ∧
    x = component_row key v (address table k) p) as Hrow.
  { intros r x (Hrt & Hx & Ho)%Hfull.
    destruct (Honly r x) as ([t k] & [p Hp] & ->); [by rewrite Hrt|done|done|].
    simpl in Hrt. subst t. destruct (Hpres _ _ Hp) as (v & Hv & Hc).
    exists k, p, v. rewrite Hc in Hx. by injection Hx as <-. }
  split.
  { rewrite <-(length_fmap fst full), <-(size_dom (D := gset ComponentAddress)).
    change (size (dom components)) with (length (elements (dom components))).
    rewrite <-(length_fmap (component_record_id key) (elements _)).
    apply submseteq_length, NoDup_submseteq; [done|].
    intros r ([r' x] & -> & Hin)%list_elem_of_fmap. destruct (Hrow _ _ Hin) as (k & p & v & _ & Hp & -> & _).
    apply list_elem_of_fmap. exists (address table k). split; [done|].
    apply elem_of_elements, elem_of_dom. by exists p. }
  destruct (try_map_total (E := SyncStateError)
    (λ x : rid * row, ok_or (row_to_component x.2) DatabaseError) full) as [l Hl].
  { intros [r x] Hin. destruct (Hrow _ _ Hin) as (k & p & v & _ & _ & _ & ->). by eexists. }
  exists l. split; [done|]. apply try_map_Ok in Hl.
  assert (Forall2 (λ (rx : rid * row) row, row_of key table components row ∧
    rx.1 = component_record_id key (address table (cr_component_key row))) full l) as Hrel.
  { apply Forall2_same_length_lookup. split; [by eapply Forall2_length|].
    intros i [r x] row Hi Hrow'. eapply Forall2_lookup_lr in Hl; [|done..]. simpl in Hl.
    destruct (Hrow r x) as (k & p & v & Hv & Hp & -> & ->); [by eapply list_elem_of_lookup_2|].
    simpl in Hl. injection Hl as <-. simpl. by repeat split. }
  repeat split.
  - apply (NoDup_fmap_1 (λ k, component_record_id key (address table k))).
    rewrite <-list_fmap_compose. replace (_ <$> l) with full.*1; [done|].
    symmetry. clear -Hrel. induction Hrel as [|? ? ? ? [_ Hx] ? IH]; csimpl; [done|]. by rewrite IH, Hx.
  - clear -Hrel. induction Hrel as [|? ? ? ? [? _]]; constructor; done.
  - intros k [p Hp]. destruct (Hpres _ _ Hp) as (v & Hv & Hc).
    assert ((component_record_id key (address table k), component_row key v (address table k) p) ∈ full) as Hin.
    { apply Hfull. split; [done|]. split; [done|]. apply owned_component_row. }
    apply list_elem_of_lookup in Hin as [i Hi].
    destruct (Forall2_lookup_l _ _ _ _ _ Hrel Hi) as (row & Hr & _ & Heq).
    apply component_record_id_inj in Heq. injection Heq as ->.
    apply list_elem_of_fmap. exists row. split; [done|by eapply list_elem_of_lookup_2].
Qed.

(** The tables a connection skips are empty. *)
Definition sees (conn : Connection) (d : db) : Prop :=
  ∀ r, skips conn (r_table r) = true → contents d r = None.

Lemma sees_direct d : sees Direct d.
Proof. by intros r. Qed.
Lemma sees_inspection d tables : db_info d = Ok (Some tables) → sees (Inspection tables) d.
Proof.
  intros Hi r Hs. simpl in Hs. apply bool_decide_eq_true in Hs.
  destruct (contents d r) as [x|] eqn:Hx; [|done].
  destruct (db_info_Ok _ _ _ _ Hi Hx) as (? & [= <-] & ?). done.
Qed.

(** Some read of the database fails. *)
Definition reads_fail (d : db) : Prop :=
  (∃ r, db_select d r = Err tt) ∨ (∃ t p n, db_select_where d t p n = Err tt).

Lemma components_read conn d key components table :
  sees conn d → component_rows d key components → table ∈ COMPONENT_TABLES →
  (N.of_nat (size components) ≤ MAX_COMPONENT_ITEMS)%N →
  (connection_components conn table key d = Err DatabaseError ∧ reads_fail d) ∨
  ∃ l, connection_components conn table key d = Ok l ∧
    NoDup (cr_component_key <$> l) ∧ Forall (row_of key table components) l ∧
    (∀ k, is_Some (components !! address table k) → k ∈ cr_component_key <$> l) ∧
    (vec_len l ≤ MAX_COMPONENT_ITEMS)%N.
Proof.
  intros Hsees Hrows Ht Hsize. unfold connection_components.
  destruct (skips conn table) eqn:Hskip.
  { right. exists []. split; [done|]. split; [constructor|]. split; [constructor|].
    split; [|done]. intros k [p Hp]. destruct (cr_present _ _ _ Hrows _ _ Hp) as (v & _ & Hc).
    by rewrite Hsees in Hc. }
  rewrite decide_True by done.
  unfold select_where_as. destruct (db_select_where d table _ SELECT_LIMIT) as [full|[]] eqn:Hq;
    simpl; [|by left; split; [|right; eauto]]. right.
  apply db_select_where_Ok in Hq as (all & Hnd & Hall & ->).
  destruct (component_rows_full d key components table all) as (Hlen & l & Hl & ? & ? & ?);
    [done|done|done|done|].
  rewrite take_ge by (unfold SELECT_LIMIT, MAX_COMPONENT_ITEMS in *; lia).
  exists l. repeat split; try done. apply try_map_Ok, Forall2_length in Hl.
  unfold vec_len. rewrite <-Hl. lia.
Qed.

(** The payloads fit their limit and the keys are valid. *)
Definition components_ok (components : gmap ComponentAddress (list byte)) : Prop :=
  (N.of_nat (size components) ≤ MAX_COMPONENT_ITEMS)%N ∧
  ∀ item p, components !! item = Some p →
    validate_component_key item.2 = Ok tt ∧ (vec_len p ≤ MAX_SYNC_STATE_BYTES)%N.

Lemma inventory_row_Ok key table components inv row :
  components_ok components → row_of key table components row → inv ⊆ components →
  inv !! address table (cr_component_key row) = None →
  inventory_row key table inv row =
    Ok (<[address table (cr_component_key row) := cr_payload row]> inv) ∧
  <[address table (cr_component_key row) := cr_payload row]> inv ⊆ components.
Proof.
  intros [Hsize Hok] (Hv & Hp & Hc & Hlook) Hsub Hfresh. destruct (Hok _ _ Hlook) as [Hk Hlen].
  assert (<[address table (cr_component_key row) := cr_payload row]> inv ⊆ components) as Hsub'.
  { by apply insert_subseteq_l. }
  split; [|done]. unfold inventory_row. rewrite decide_False; cycle 1.
  { intros [[]|[?|[?|?]]]; try done; [|lia]. destruct Hv; done. }
  simpl in Hk. rewrite Hk. simpl. rewrite decide_False by (rewrite Hfresh; by intros []).
  apply map_subseteq_size in Hsub'. by rewrite (proj2 (N.ltb_ge _ _)) by lia.
Qed.

Lemma inventory_rows_Ok key table components l inv :
  components_ok components → NoDup (cr_component_key <$> l) →
  Forall (row_of key table components) l → inv ⊆ components →
  (∀ k, k ∈ cr_component_key <$> l → inv !! address table k = None) →
  ∃ inv', try_fold (inventory_row key table) inv l = Ok inv' ∧ inv' ⊆ components ∧
    ∀ item, inv' !! item = if decide (item.1 = table ∧ item.2 ∈ cr_component_key <$> l)
                           then components !! item else inv !! item.
Proof.
  intros Hok. revert inv. induction l as [|row l IH]; intros inv Hnd Hl Hsub Hfresh; csimpl in *.
  { exists inv. split; [done|]. split; [done|]. intros item. by rewrite decide_False by set_solver. }
  apply NoDup_cons in Hnd as [Hk Hnd]. apply Forall_cons in Hl as [Hrow Hl].
  destruct (inventory_row_Ok key table components inv row) as [-> Hsub']; try done.
  { apply Hfresh. by left. }
  simpl. destruct (IH _ Hnd Hl Hsub') as (inv' & Hf & Hs & Hlook).
  { intros k Hin. rewrite lookup_insert_ne by (unfold address; congruence).
    apply Hfresh. by right. }
  exists inv'. split; [done|]. split; [done|]. intros [t k]. rewrite Hlook. simpl.
  destruct (decide (t = table)) as [->|Ht].
  - destruct (decide (k = cr_component_key row)) as [->|Hne].
    + rewrite decide_False by (by intros [_ ?]). rewrite decide_True by (split; [done|by left]).
      change (table, cr_component_key row) with (address table (cr_component_key row)).
      rewrite lookup_insert_eq. by destruct Hrow as (_ & _ & _ & ->).
    + rewrite lookup_insert_ne by (unfold address; congruence).
      apply decide_ext. rewrite elem_of_cons. naive_solver.
  - rewrite !decide_False by (by intros [? _]).
    apply lookup_insert_ne. unfold address. congruence.
Qed.

Lemma load_inventory_Ok conn d key components :
  sees conn d → component_rows d key components → components_ok components →
  (∀ item, is_Some (components !! item) → item.1 ∈ COMPONENT_TABLES) →
  load_inventory conn key d = Ok components ∨
  (load_inventory conn key d = Err DatabaseError ∧ reads_fail d).
Proof.
  intros Hsees Hrows Hok Htab. unfold load_inventory.
  assert (∀ ts inv, NoDup ts → ts ⊆ COMPONENT_TABLES → inv ⊆ components →
    (∀ item, item.1 ∈ ts → inv !! item = None) →
    (∀ item, item.1 ∈ COMPONENT_TABLES → item.1 ∉ ts → inv !! item = components !! item) →
    let r := try_fold (λ inventory table,
      let? rows := connection_components conn table key d in
      if (MAX_COMPONENT_ITEMS <? vec_len rows)%N then Err StateTooLarge else
      try_fold (inventory_row key table) inventory rows) inv ts in
    r = Ok components ∨ (r = Err DatabaseError ∧ reads_fail d)) as Hgen.
  { induction ts as [|t ts IH]; intros inv Hnd Hts Hsub Hnone Hall; simpl.
    { left. f_equal. apply map_eq. intros item.
      destruct (decide (item.1 ∈ COMPONENT_TABLES)) as [Hi|Hi]; [by apply Hall; [|set_solver]|].
      destruct (components !! item) eqn:Hc.
      - exfalso. apply Hi, Htab. by eexists.
      - by eapply lookup_weaken_None. }
    apply NoDup_cons in Hnd as [Ht Hnd].
    destruct (components_read conn d key components t) as [[-> ?]|(l & -> & Hndl & Hl & Hdom & Hlen)];
      [done|done|set_solver|apply Hok|by right|]. simpl. rewrite (proj2 (N.ltb_ge _ _) Hlen).
    destruct (inventory_rows_Ok key t components l inv) as (inv' & -> & Hsub' & Hlook);
      try done.
    { intros k _. apply Hnone. by left. }
    simpl. apply IH; try done; [set_solver| |].
    - intros item Hi. rewrite Hlook, decide_False by (intros [Heq _]; by rewrite Heq in Hi).
      apply Hnone. by right.
    - intros [t' k] Hi Hn. simpl in *. rewrite Hlook. simpl. case_decide as Hd; [done|].
      destruct (decide (t' = t)) as [->|Hne]; [|apply Hall; [done|set_solver]].
      destruct (components !! (t, k)) eqn:Hc.
      + exfalso. apply Hd. split; [done|]. apply Hdom. by eexists.
      + by eapply lookup_weaken_None. }
  apply Hgen; [by apply (bool_decide_unpack _)|done|apply map_empty_subseteq| |set_solver].
  intros. apply lookup_empty.
Qed.
End represents.

Section load.
Context `{!SurrealTypes, !Engine, !EngineLaws, !JsonFloatText, !JsonText, !JsonTextLaws, !StateSerde, !StateSerdeLaws}.

(** A state all of whose components read back; the revisions are [u64]. *)
Record storable_state (s : StoredSyncState) : Prop := {
  sto_meta : storable (state_meta s);
  sto_record : ∀ subs k r, st_subscriptions s = Some subs → records subs !! k = Some r → storable r;
  sto_confirmed : ∀ k r, st_confirmed s !! k = Some r → storable r;
  sto_outbox : ∀ c, c ∈ st_outbox s → storable c;
  sto_outcome : ∀ o, o ∈ st_outcomes s → storable o;
  sto_id_map : ∀ k r, st_id_map s !! k = Some r → storable r;
  sto_revision : is_u64 (st_revision s);
  sto_subscription_revision : is_u64 (st_subscription_revision s);
}.

Lemma normalized_components_ok s rows : normalized s rows → components_ok (nr_components rows).
Proof.
  intros Hn. split; [apply (nm_size _ _ Hn)|]. intros item p Hp. split.
  - by apply (nm_keys _ _ Hn item p).
  - apply (nm_component _ _ Hn) in Hp. destruct Hp;
      match goal with Hp : encode_tagged _ = Ok _ |- _ => exact (encode_tagged_len _ _ Hp) end.
Qed.

Lemma normalized_tables s rows item :
  normalized s rows → is_Some (nr_components rows !! item) → item.1 ∈ COMPONENT_TABLES.
Proof. intros Hn [p Hp]. apply (nm_component _ _ Hn) in Hp. by eapply component_of_table. Qed.

(** The checks of the reader on the metadata of a state. *)
Lemma meta_counts s rows :
  normalized s rows →
  (let? count := usize_add (vec_len (sm_confirmed_keys (state_meta s)))
                   (vec_len (sm_subscription_record_keys (state_meta s))) in
   let? count := usize_add count (vec_len (sm_outbox_keys (state_meta s))) in
   let? count := usize_add count (vec_len (sm_outcome_keys (state_meta s))) in
   usize_add count (vec_len (sm_id_map_keys (state_meta s)))) =
  Ok (N.of_nat (size (st_confirmed s)) + N.of_nat (size (subscription_records s))
      + vec_len (st_outbox s) + vec_len (st_outcomes s) + N.of_nat (size (st_id_map s)))%N.
Proof.
  intros Hn. rewrite <-(nm_count _ _ Hn). unfold state_count, state_meta. simpl.
  rewrite !vec_len_btree_keys. unfold vec_len. rewrite !length_fmap.
  unfold subscription_records, map_len. by destruct (st_subscriptions s); simpl; rewrite ?map_size_empty.
Qed.

(** One group of components: every value of the group is found and decoded. *)
Lemma take_group {T} `{!SerdeJson T, !SerdeLaws T} (s : StoredSyncState) (rows : NormalizedRows)
    (table : string) (check : string → T → bool) (wanted : bool) (inv : gmap ComponentAddress (list byte))
    (l : list (string * T)) :
  normalized s rows → NoDup l.*1 → wanted = true ∨ l = [] →
  (∀ k, inv !! address table k = nr_components rows !! address table k) →
  (∀ k v, (k, v) ∈ l → storable v ∧ is_ok (encode_tagged v) = true ∧ check k v = true ∧
     ∀ p, encode_tagged v = Ok p → component_of s (address table k) p) →
  ∃ inv', take_values table wanted check inv l.*1 = Ok (l, inv') ∧
    ∀ item, inv' !! item = if decide (item.1 = table ∧ item.2 ∈ l.*1) then None else inv !! item.
Proof.
  intros Hn Hnd Hw Hinv Hl. apply take_values_Ok; [done|done|]. intros k v Hin.
  destruct (Hl _ _ Hin) as (Hsto & Henc & Hchk & Hcomp).
  destruct (encode_tagged v) as [p|] eqn:Hp; [|done]. exists p. split; [|split; [|done]].
  - rewrite Hinv. apply (nm_component _ _ Hn). by apply Hcomp.
  - by eapply decode_encode.
Qed.

Lemma select_meta d key rows fence :
  contents d (meta_record_id key) = Some (meta_row key rows fence) →
  select_as row_to_meta (meta_record_id key) d =
    Ok (Some (mkMetaRow (nr_format_version rows) (k_partition_id key) (k_client_id key)
                (nr_meta rows), fence)) ∨
  (select_as row_to_meta (meta_record_id key) d = Err DatabaseError ∧ reads_fail d).
Proof.
  intros Hc. unfold select_as. destruct (db_select d (meta_record_id key)) as [x|[]] eqn:Hs;
    simpl; [left|by right; split; [|left; eauto]].
  apply db_select_Ok in Hs as ->. by rewrite Hc.
Qed.

(** The decoded groups of a state, as the reader collects them. *)
Lemma load_groups s rows :
  normalized s rows → ValidState s → storable_state s →
  ∃ i1 i2 i3 i4,
    take_values CONFIRMED_TABLE true (λ _ (_ : RecordState JsonValue), true)
      (nr_components rows) (btree_keys (st_confirmed s)) = Ok (btree_entries (st_confirmed s), i1) ∧
    take_values OUTBOX_TABLE true (λ k c, bool_decide (commit_id c = k)) i1
      (commit_id <$> st_outbox s) = Ok ((λ c, (commit_id c, c)) <$> st_outbox s, i2) ∧
    take_values OUTCOME_TABLE true (λ k o, bool_decide (commit_id (local_commit o) = k)) i2
      ((λ o, commit_id (local_commit o)) <$> st_outcomes s) =
      Ok ((λ o, (commit_id (local_commit o), o)) <$> st_outcomes s, i3) ∧
    take_values ID_MAP_TABLE true (λ _ (_ : string), true) i3 (btree_keys (st_id_map s)) =
      Ok (btree_entries (st_id_map s), i4) ∧
    take_values SUBSCRIPTION_RECORD_TABLE (bool_decide (is_Some (st_subscriptions s)))
      (λ _ (_ : SubscriptionRow JsonValue), true) i4 (btree_keys (subscription_records s)) =
      Ok (btree_entries (subscription_records s), ∅).
Proof.
  intros Hn Hv Hsto. destruct (valid_distinct s Hv) as [Hob Hoc].
  pose proof (nm_encodes _ _ Hn) as Henc.
  destruct (take_group s rows CONFIRMED_TABLE (λ _ _, true) true (nr_components rows)
    (btree_entries (st_confirmed s)) Hn) as (i1 & H1' & L1);
    [apply btree_keys_NoDup|by left|done| |].
  { intros k v Hk%elem_of_btree_entries. split; [by eapply sto_confirmed|].
    split; [by eapply ae_confirmed|]. split; [done|]. by econstructor. }
  destruct (take_group s rows OUTBOX_TABLE (λ k c, bool_decide (commit_id c = k)) true i1
    ((λ c, (commit_id c, c)) <$> st_outbox s) Hn) as (i2 & H2' & L2);
    [by rewrite outbox_entries_keys|by left|intros k; by rewrite L1| |].
  { intros k v [-> Hk]%elem_of_keyed. split; [by eapply sto_outbox|].
    split; [by eapply ae_outbox|]. split; [by apply bool_decide_eq_true|]. by econstructor. }
  destruct (take_group s rows OUTCOME_TABLE
    (λ k o, bool_decide (commit_id (local_commit o) = k)) true i2
    ((λ o, (commit_id (local_commit o), o)) <$> st_outcomes s) Hn) as (i3 & H3' & L3);
    [by rewrite outcome_entries_keys|by left|intros k; by rewrite L2, L1| |].
  { intros k v [-> Hk]%(elem_of_keyed (λ o, commit_id (local_commit o))).
    split; [by eapply sto_outcome|].
    split; [by eapply ae_outcome|]. split; [by apply bool_decide_eq_true|]. by econstructor. }
  destruct (take_group s rows ID_MAP_TABLE (λ _ _, true) true i3
    (btree_entries (st_id_map s)) Hn) as (i4 & H4' & L4);
    [apply btree_keys_NoDup|by left|intros k; by rewrite L3, L2, L1| |].
  { intros k v Hk%elem_of_btree_entries. split; [by eapply sto_id_map|].
    split; [by eapply ae_id_map|]. split; [done|]. by econstructor. }
  destruct (take_group s rows SUBSCRIPTION_RECORD_TABLE (λ _ _, true)
    (bool_decide (is_Some (st_subscriptions s))) i4
    (btree_entries (subscription_records s)) Hn) as (i5 & H5' & L5);
    [apply btree_keys_NoDup| |intros k; by rewrite L4, L3, L2, L1| |].
  { unfold subscription_records. destruct (st_subscriptions s); [by left|right].
    simpl. unfold btree_entries. by rewrite map_to_list_empty. }
  { intros k v Hk%elem_of_btree_entries. split.
    - apply elem_of_subscription_records in Hk as (? & ? & ?). by eapply sto_record.
    - split; [by eapply ae_row|]. split; [done|].
      apply elem_of_subscription_records in Hk as (? & ? & ?). by econstructor. }
  rewrite outbox_entries_keys in *. rewrite outcome_entries_keys in *.
  exists i1, i2, i3, i4. repeat split; try done.
  replace (∅ : gmap ComponentAddress (list byte)) with i5; [done|].
  apply map_empty. intros item. rewrite L5. case_decide; [done|]. rewrite L4.
  case_decide; [done|]. rewrite L3. case_decide; [done|]. rewrite L2. case_decide; [done|].
  rewrite L1. case_decide; [done|].
  destruct (nr_components rows !! item) as [p|] eqn:Hp; [|done]. exfalso.
  apply (nm_component _ _ Hn) in Hp.
  destruct Hp as [k r ? subs Hs Hk ?|k r ? Hk ?|c ? Hc ?|o ? Ho ?|k r ? Hk ?]; simpl in *;
    match goal with Hd : ¬ (?t = ?t ∧ _) |- _ => apply Hd end; (split; [done|]).
  - apply elem_of_btree_keys. exists r. apply elem_of_subscription_records. eauto.
  - apply elem_of_btree_keys. by exists r.
  - apply list_elem_of_fmap. by exists c.
  - apply list_elem_of_fmap. by exists o.
  - apply elem_of_btree_keys. by exists r.
Qed.

Lemma keyed_values {A} (f : A → string) (l : list A) : ((λ x, (f x, x)) <$> l).*2 = l.
Proof. rewrite <-list_fmap_compose. apply list_fmap_id. Qed.

(** A journal reads back as the state it was written from. *)
Lemma load_represents conn d key s rows :
  sees conn d → represents d key rows → key = state_key s → normalized s rows → ValidState s →
  storable_state s →
  load_v2 conn key d = Ok (Some s) ∨ (load_v2 conn key d = Err DatabaseError ∧ reads_fail d).
Proof.
  intros Hsees [Hrows [fence Hmeta]] -> Hn Hv Hsto. unfold load_v2.
  destruct (load_inventory_Ok conn d (state_key s) (nr_components rows)) as [-> | [-> ?]];
    [done|done|exact (normalized_components_ok s rows Hn)|intros item; exact (normalized_tables s rows item Hn)| |by right].
  simpl. unfold connection_meta.
  destruct (skips conn META_TABLE) eqn:Hskip; [by rewrite Hsees in Hmeta|].
  destruct (select_meta d _ rows fence Hmeta) as [-> | [-> ?]]; simpl; [|by right]. left.
  pose proof (encode_tagged_len _ _ (nm_meta _ _ Hn)) as Hlen.
  unfold validate_meta_row, validate_meta_row_version. simpl.
  rewrite (proj2 (N.ltb_ge _ _) Hlen). rewrite (nm_version _ _ Hn).
  rewrite decide_False; cycle 1.
  { intros [Hf|[?|?]]; [|done|done]. apply Hf.
    destruct (st_subscriptions s); unfold FORMAT_VERSION, SUBSCRIPTION_FORMAT_VERSION; lia. }
  simpl. rewrite (decode_encode _ _ (sto_meta _ Hsto) (nm_meta _ _ Hn)). simpl.
  rewrite decide_False; cycle 1.
  { intros Hb. apply Hb. by destruct (st_subscriptions s). }
  rewrite decide_False; cycle 1.
  { rewrite !strictly_sorted_btree_keys. naive_solver. }
  pose proof (meta_counts s rows Hn) as Hcounts. simpl in Hcounts.
  apply result_bind_Ok in Hcounts as (n1 & E1 & (n2 & E2 & (n3 & E3 & Hc)%result_bind_Ok)%result_bind_Ok).
  rewrite E1. simpl. rewrite E2. simpl. rewrite E3. simpl. rewrite Hc. simpl. rewrite (proj2 (N.ltb_ge _ _) (nm_items _ _ Hn)).
  destruct (nm_total _ _ Hn) as (total & -> & Htotal). simpl.
  rewrite (proj2 (N.ltb_ge _ _) Htotal).
  destruct (load_groups s rows Hn Hv Hsto) as (i1 & i2 & i3 & i4 & -> & Hg2 & Hg3 & Hg4 & Hg5).
  simpl. rewrite Hg2. simpl. rewrite Hg3. simpl. rewrite Hg4. simpl.
  rewrite decide_False by (destruct (st_subscriptions s); simpl; [by intros Hr; apply Hr|by intros []]).
  assert (bool_decide (is_Some (take_records <$> st_subscriptions s)) =
          bool_decide (is_Some (st_subscriptions s))) as -> by (by destruct (st_subscriptions s)).
  fold (subscription_records s). rewrite Hg5. simpl. rewrite decide_False by (by intros Hne).
  rewrite (proj2 (parse_revision_Ok _ _) (conj eq_refl (sto_subscription_revision _ Hsto))). simpl.
  rewrite (proj2 (parse_revision_Ok _ _) (conj eq_refl (sto_revision _ Hsto))). simpl.
  rewrite !list_to_map_btree_entries, !keyed_values.
  assert (∀ o : option (DurableSubscriptions JsonValue), st_subscriptions s = o →
    (λ subs, mkSubs (requests subs) (slots subs) (subscription_records s) (cancelled subs)
       (authorization_scope subs)) <$> (take_records <$> o) = o) as Hsubs.
  { intros [[]|] Ho; simpl; [|done]. unfold subscription_records. rewrite Ho. done. }
  rewrite (Hsubs _ eq_refl). destruct s. simpl in *.
  by rewrite (proj2 (validate_ValidState _ tt) Hv).
Qed.
End load.
