(* ===== verification/StoreProps.v ===== *)
(** * What the writes of the durable store do.

    Every write of the store is a loop of single-record writes inside one transaction.
    [writes] describes a step by the record it sets; the loops, the row diff of a state and
    the projection of the application's records follow from it.  The main results say what
    each operation leaves in the database for every outcome, errors included. *)

From Stdlib Require Import Strings.Byte.
From S2P Require Import Prelude Protocol Subscription ClientState SubscriptionState Validate Client Canonical HttpCodec BootstrapCodec NativeErrors Json Wire NativeCodec Engine StateRows StateLoad Stage StateStore StateProps.

Set Default Proof Using "Type*".

(** ** Databases with the same contents *)

Section same.
Context `{!SurrealTypes, !Engine, !EngineLaws}.

Definition same (d d' : db) : Prop := ∀ r, contents d r = contents d' r.

#[export] Instance same_equivalence : Equivalence same.
Proof.
  split; [done|by intros ?? E r|]. intros x y z E1 E2 r. by rewrite (E1 r).
Qed.

#[export] Instance component_rows_proper :
  Proper (same ==> eq ==> eq ==> iff) component_rows.
Proof.
  assert (∀ d d' key comps, same d d' → component_rows d key comps → component_rows d' key comps)
    as Himp.
  { intros d d' key comps E [Hp Ho]. split.
    - intros item p Hi. destruct (Hp _ _ Hi) as (v & ? & Hv). exists v. by rewrite <-(E _).
    - intros r x Ht Hx. rewrite <-(E r) in Hx. by apply Ho. }
  intros d d' E ? key -> ? comps ->. split; apply Himp; [done|by symmetry].
Qed.

#[export] Instance represents_proper : Proper (same ==> eq ==> eq ==> iff) represents.
Proof.
  intros d d' E ? key -> ? rows ->. split; intros [Hc [f Hm]]; split.
  - by rewrite <-E.
  - exists f. by rewrite <-(E _).
  - by rewrite E.
  - exists f. by rewrite (E _).
Qed.

#[export] Instance vacant_proper : Proper (same ==> eq ==> iff) vacant.
Proof.
  intros d d' E ? key ->. split; intros [Hc Hm]; split.
  - by rewrite <-E.
  - by rewrite <-(E _).
  - by rewrite E.
  - by rewrite (E _).
Qed.

(** ** Single-record writes *)

(** A step that sets at most one record: [target] is the record and what it becomes. *)
Definition writes (target : option (rid * option row)) (d d' : db) : Prop :=
  match target with
  | Some (r, v) => contents d' r = v ∧ ∀ r', r' ≠ r → contents d' r' = contents d r'
  | None => same d' d
  end.

Lemma tx_upsert_writes r x d o d' :
  tx_upsert r x d = Ok (o, d') → writes (Some (r, Some x)) d d'.
Proof. unfold tx_upsert. intros Hu. inv_tx. by apply db_upsert_Ok in Hu as (? & ? & ?). Qed.

Lemma tx_delete_writes r d o d' : tx_delete r d = Ok (o, d') → writes (Some (r, None)) d d'.
Proof. unfold tx_delete. intros Hu. inv_tx. by apply db_delete_Ok in Hu as (? & ? & ?). Qed.

(** A loop of such steps: the last step that sets a record decides, every record no step
    sets is untouched. *)
Lemma tx_for_each_writes {A} (target : A → option (rid * option row)) (f : A → tx unit) l d u d' :
  (∀ x d u d', x ∈ l → f x d = Ok (u, d') → writes (target x) d d') →
  tx_for_each f l d = Ok (u, d') →
  ∀ r, (∃ x v, x ∈ l ∧ target x = Some (r, v) ∧ contents d' r = v) ∨
       ((∀ x v, x ∈ l → target x ≠ Some (r, v)) ∧ contents d' r = contents d r).
Proof.
  revert d. induction l as [|x l IH]; intros d Hf Hl r; simpl in Hl.
  { apply tx_ret_Ok in Hl as [= _ ->]. right. split; [set_solver|done]. }
  apply tx_bind_Ok in Hl as (v & d1 & Hx & Hl).
  assert (writes (target x) d d1) as Hw by (eapply Hf; [by left|done]).
  destruct (IH d1 ltac:(intros; eapply Hf; [by right|done]) Hl r)
    as [(y & w & Hy & Ht & Hc)|[Hnone Hc]].
  { left. exists y, w. split; [by right|done]. }
  unfold writes in Hw. destruct (target x) as [[r0 v0]|] eqn:Htx.
  - destruct Hw as [Hr0 Hframe]. destruct (decide (r = r0)) as [->|Hne].
    + left. exists x, v0. split; [by left|]. by rewrite Hc.
    + right. rewrite Hc, Hframe by done. split; [|done].
      intros y w [->|Hy]%elem_of_cons; [congruence|by apply Hnone].
  - right. rewrite Hc. split; [|apply Hw].
    intros y w [->|Hy]%elem_of_cons; [congruence|by apply Hnone].
Qed.
End same.

(** ** The row diff of a state *)

Section diff.
Context `{!SurrealTypes, !Engine, !EngineLaws, !JsonFloatText, !JsonText, !StateSerde, !Ciborium, !Sha256}.

Lemma elem_of_addr_entries {A} (m : gmap ComponentAddress A) item a :
  (item, a) ∈ addr_entries m ↔ m !! item = Some a.
Proof.
  unfold addr_entries. rewrite (merge_sort_Permutation addr_le (map_to_list m)).
  apply elem_of_map_to_list.
Qed.

Definition tabled (components : gmap ComponentAddress (list byte)) : Prop :=
  ∀ item, is_Some (components !! item) → item.1 ∈ COMPONENT_TABLES.

Lemma tabled_empty : tabled ∅.
Proof. intros item [x Hx]. by rewrite lookup_empty in Hx. Qed.

(** The rows [write_row_diff] may touch. *)
Definition journal_row (key : SyncStateKey) (r : rid) : Prop :=
  r = meta_record_id key ∨
  ∃ item : ComponentAddress, item.1 ∈ COMPONENT_TABLES ∧ r = component_record_id key item.

Definition stored_rows (d : db) (key : SyncStateKey) (current : option NormalizedRows) : Prop :=
  match current with Some rows => represents d key rows | None => vacant d key end.

Definition current_components (current : option NormalizedRows)
  : gmap ComponentAddress (list byte) := default ∅ (nr_components <$> current).

Lemma stored_rows_components d key current :
  stored_rows d key current → component_rows d key (current_components current).
Proof. destruct current; [apply rep_components|apply vac_components]. Qed.

Definition delete_target (key : SyncStateKey) (next : NormalizedRows)
    (entry : ComponentAddress * list byte) : option (rid * option row) :=
  if decide (is_Some (nr_components next !! entry.1)) then None
  else Some (component_record_id key entry.1, None).

Definition upsert_target (key : SyncStateKey) (current : option NormalizedRows) (version : Z)
    (entry : ComponentAddress * list byte) : option (rid * option row) :=
  if decide (current ≫= (λ rows, nr_components rows !! entry.1) = Some entry.2) then None
  else Some (component_record_id key entry.1, Some (component_row key version entry.1 entry.2)).

Lemma delete_vanished_writes key next entry d u d' :
  delete_vanished key next entry d = Ok (u, d') → writes (delete_target key next entry) d d'.
Proof.
  unfold delete_vanished, delete_target. case_decide; intros Hd; inv_tx; [done|].
  by eapply tx_delete_writes.
Qed.

Lemma upsert_changed_writes key current version entry d u d' :
  upsert_changed key current version entry d = Ok (u, d') →
  writes (upsert_target key current version entry) d d'.
Proof.
  unfold upsert_changed, upsert_target. case_decide; intros Hd; inv_tx; [done|].
  by eapply tx_upsert_writes.
Qed.

(** Both loops of the diff: the component rows become those of [next]. *)
Lemma diff_components d d1 d2 key current next u1 u2 :
  component_rows d key (current_components current) →
  tabled (current_components current) → tabled (nr_components next) →
  row_version_ok (nr_format_version next) →
  tx_for_each (delete_vanished key next) (addr_entries (current_components current)) d
    = Ok (u1, d1) →
  tx_for_each (upsert_changed key current (nr_format_version next))
    (addr_entries (nr_components next)) d1 = Ok (u2, d2) →
  component_rows d2 key (nr_components next) ∧
  ∀ r, (∀ item, item.1 ∈ COMPONENT_TABLES → r ≠ component_record_id key item) →
    contents d2 r = contents d r.
Proof.
  intros [Hpres Honly] Htc Htn Hv Hdel Hups.
  pose proof (tx_for_each_writes (delete_target key next) _ _ _ _ _
    ltac:(intros; by eapply delete_vanished_writes) Hdel) as Hd.
  pose proof (tx_for_each_writes (upsert_target key current _) _ _ _ _ _
    ltac:(intros; by eapply upsert_changed_writes) Hups) as Hu.
  split; [split|].
  - intros item p Hp.
    destruct (Hu (component_record_id key item)) as [([item' p'] & w & Hin & Ht & Hc)|[Hnone Hc]].
    + unfold upsert_target in Ht. simpl in Ht. case_decide; [done|]. apply (inj Some), pair_equal_spec in Ht as [Hid <-].
      apply component_record_id_inj in Hid as ->. apply elem_of_addr_entries in Hin.
      assert (p' = p) as -> by congruence. by exists (nr_format_version next).
    + specialize (Hnone (item, p)). unfold upsert_target in Hnone. simpl in Hnone.
      case_decide as Hsame; cycle 1.
      { exfalso. eapply Hnone; [by apply elem_of_addr_entries|done]. }
      assert (current_components current !! item = Some p) as Hcur.
      { unfold current_components. destruct current; simpl in *; done. }
      destruct (Hpres _ _ Hcur) as (v & ? & Hrow). exists v. split; [done|].
      rewrite Hc. destruct (Hd (component_record_id key item)) as [([i q] & w & Hin & Ht & _)|[_ ->]];
        [|done].
      unfold delete_target in Ht. simpl in Ht. case_decide as Hn; [done|]. apply (inj Some), pair_equal_spec in Ht as [Hid _].
      apply component_record_id_inj in Hid as ->. destruct Hn. by exists p.
  - intros r x Ht Hx Ho.
    destruct (Hu r) as [([item' p'] & w & Hin & Htg & Hc)|[_ Hc]].
    { unfold upsert_target in Htg. simpl in Htg. case_decide; [done|]. apply (inj Some), pair_equal_spec in Htg as [<- _].
      exists item'. split; [|done]. exists p'. by apply elem_of_addr_entries. }
    rewrite Hc in Hx. destruct (Hd r) as [([i q] & w & Hin & Htg & Hc')|[Hnone Hc']].
    { unfold delete_target in Htg. simpl in Htg. case_decide; [done|].
      apply (inj Some), pair_equal_spec in Htg as [_ <-]. congruence. }
    rewrite Hc' in Hx. destruct (Honly r x Ht Hx Ho) as (item & [p Hp] & ->).
    exists item. split; [|done]. specialize (Hnone (item, p)). unfold delete_target in Hnone.
    simpl in Hnone. case_decide; [done|]. exfalso. eapply Hnone; [by apply elem_of_addr_entries|done].
  - intros r Hr. destruct (Hu r) as [([i q] & w & Hin & Htg & _)|[_ ->]].
    { unfold upsert_target in Htg. simpl in Htg. case_decide; [done|]. apply (inj Some), pair_equal_spec in Htg as [<- _].
      exfalso. eapply Hr; [|done]. apply Htn. exists q. by apply elem_of_addr_entries. }
    destruct (Hd r) as [([i q] & w & Hin & Htg & _)|[_ ->]]; [|done].
    unfold delete_target in Htg. simpl in Htg. case_decide; [done|]. apply (inj Some), pair_equal_spec in Htg as [<- _].
    exfalso. eapply Hr; [|done]. apply Htc. exists q. by apply elem_of_addr_entries.
Qed.

Lemma meta_not_component key item :
  item.1 ∈ COMPONENT_TABLES → meta_record_id key ≠ component_record_id key item.
Proof.
  intros Ht [Hm _]%array_rid_inj. rewrite <-Hm in Ht. revert Ht.
  by apply (bool_decide_unpack (META_TABLE ∉ COMPONENT_TABLES)).
Qed.

(** The metadata row and its fence: the fence of a staged journal moves on with the write. *)
Lemma write_fence_Ok key rows f d u d' old :
  contents d (meta_record_id key) = Some (meta_row key rows old) →
  write_fence key f d = Ok (u, d') →
  contents d' (meta_record_id key) = Some (meta_row key rows (Some f)) ∧
  ∀ r, r ≠ meta_record_id key → contents d' r = contents d r.
Proof.
  unfold write_fence. intros Hm Hw. inv_ok.
  match goal with H : database _ = Ok _ |- _ => apply map_err_Ok, db_set_fence_Ok in H as [Hf ?] end.
  by rewrite Hm in Hf.
Qed.

Lemma write_row_diff_Ok d key current next u d' :
  stored_rows d key current →
  tabled (current_components current) → tabled (nr_components next) →
  row_version_ok (nr_format_version next) →
  write_row_diff key current next d = Ok (u, d') →
  ∃ budget fence, normalized_budget next = Ok budget ∧ guard_state_write key budget d = Ok fence ∧
    contents d' (meta_record_id key) = Some (meta_row key next fence) ∧
    component_rows d' key (nr_components next) ∧
    ∀ r, ¬ journal_row key r → contents d' r = contents d r.
Proof.
  intros Hst Htc Htn Hv Hw. unfold write_row_diff in Hw.
  apply tx_bind_Ok in Hw as (budget & d0 & Hb & Hw). apply tx_lift_Ok in Hb as (? & Hb & [= <- ->]).
  apply tx_bind_Ok in Hw as (fence & d0 & Hg & Hw). apply tx_read_Ok in Hg as (? & Hg & [= <- ->]).
  apply tx_bind_Ok in Hw as ([] & d1 & Hdel & Hw).
  apply tx_bind_Ok in Hw as ([] & d2 & Hups & Hw).
  apply tx_bind_Ok in Hw as (o & d3 & Hm & Hw).
  assert (tx_for_each (delete_vanished key next) (addr_entries (current_components current)) d
    = Ok (tt, d1)) as Hdel'.
  { destruct current; [done|]. unfold current_components, addr_entries. simpl.
    by rewrite map_to_list_empty. }
  destruct (diff_components d d1 d2 key current next tt tt) as [Hcomp Hframe];
    [by apply stored_rows_components|done..|].
  apply tx_upsert_writes in Hm as [Hmeta Hmf].
  exists budget, fence. split; [done|]. split; [done|].
  assert (∀ d', contents d' (meta_record_id key) = Some (meta_row key next fence) →
    (∀ r, r ≠ meta_record_id key → contents d' r = contents d3 r) →
    contents d' (meta_record_id key) = Some (meta_row key next fence) ∧
    component_rows d' key (nr_components next) ∧
    ∀ r, ¬ journal_row key r → contents d' r = contents d r) as Hfin.
  { clear d' Hw. intros d' Hm' Hf'. split; [done|]. split.
    - destruct Hcomp as [Hp Ho]. split.
      + intros item p Hi. destruct (Hp _ _ Hi) as (v & ? & Hrow). exists v. split; [done|].
        assert (component_record_id key item ≠ meta_record_id key).
        { intros E. symmetry in E. revert E. apply meta_not_component, Htn. by exists p. }
        by rewrite Hf', Hmf.
      + intros r x Ht Hx. assert (r ≠ meta_record_id key).
        { intros ->. revert Ht. by apply (bool_decide_unpack (META_TABLE ∉ COMPONENT_TABLES)). }
        rewrite Hf', Hmf in Hx by done. by apply Ho.
    - intros r Hr. rewrite Hf', Hmf, Hframe; [done| |by intros ->; apply Hr; left..].
      intros item Hi ->. apply Hr. right. eauto. }
  destruct fence as [f|].
  - destruct (write_fence_Ok key next f d3 u d' None Hmeta Hw) as [? ?]. by apply Hfin.
  - apply tx_ret_Ok in Hw as [= _ ->]. by apply Hfin.
Qed.

Lemma write_row_diff_represents d key current next u d' :
  stored_rows d key current →
  tabled (current_components current) → tabled (nr_components next) →
  row_version_ok (nr_format_version next) →
  write_row_diff key current next d = Ok (u, d') →
  represents d' key next ∧ ∀ r, ¬ journal_row key r → contents d' r = contents d r.
Proof.
  intros ???? Hw. apply write_row_diff_Ok in Hw as (b & f & _ & _ & Hm & Hc & Hf); try done.
  split; [|done]. split; [done|]. by exists f.
Qed.

Lemma normalized_row_version s rows : normalized s rows → row_version_ok (nr_format_version rows).
Proof.
  intros Hn. rewrite (nm_version _ _ Hn). unfold row_version_ok. destruct (st_subscriptions s); auto.
Qed.
End diff.

(** ** Transactions *)

Section transactions.
Context `{!SurrealTypes, !Engine, !EngineLaws, !Host}.

Lemma io_bind_inv {E A B} (m : io E A) (k : A → io E B) w out :
  io_bind m k w = out →
  (∃ e w1, m w = (Err e, w1) ∧ out = (Err e, w1)) ∨ ∃ a w1, m w = (Ok a, w1) ∧ k a w1 = out.
Proof. unfold io_bind. destruct (m w) as [[a|e] w1]; naive_solver. Qed.

(** The looks at the handle and the reads leave the database alone. *)
Definition keeps_db {E A} (m : io E A) : Prop := ∀ w, w_db (m w).2 = w_db w.

Lemma keeps_ret {E A} (a : A) : keeps_db (E := E) (io_ret a).
Proof. done. Qed.
Lemma keeps_err {E A} (e : E) : keeps_db (A := A) (io_err e).
Proof. done. Qed.
Lemma keeps_lift {E A} (r : result A E) : keeps_db (io_lift r).
Proof. done. Qed.
Lemma keeps_look {E A} (f : Observation → A) : keeps_db (E := E) (io_look f).
Proof. done. Qed.
Lemma keeps_read {E A} (f : db → result A E) : keeps_db (io_read f).
Proof. done. Qed.
Lemma keeps_bind {E A B} (m : io E A) (k : A → io E B) :
  keeps_db m → (∀ a, keeps_db (k a)) → keeps_db (io_bind m k).
Proof.
  intros Hm Hk w. specialize (Hm w). unfold io_bind. destruct (m w) as [[a|e] w1]; simpl in *; [|done].
  by rewrite (Hk a w1).
Qed.
Lemma keeps_map_err {E F A} (f : E → F) (m : io E A) : keeps_db m → keeps_db (io_map_err f m).
Proof. intros Hm w. apply Hm. Qed.
Lemma keeps_if {E A} (b : bool) (m k : io E A) :
  keeps_db m → keeps_db k → keeps_db (if b then m else k).
Proof. by destruct b. Qed.

Lemma keeps_database_client : keeps_db database_client.
Proof. unfold database_client. repeat (apply keeps_bind || apply keeps_if || intros ? || done). Qed.
Lemma keeps_session_changed {E} sg : keeps_db (session_changed (E := E) sg).
Proof.
  unfold session_changed. destruct sg; [|done].
  repeat (apply keeps_bind || apply keeps_if || intros ? || done).
Qed.
Lemma keeps_check_session sg : keeps_db (check_session sg).
Proof.
  unfold check_session. apply keeps_bind; [apply keeps_session_changed|]. by intros [].
Qed.
Lemma keeps_begin : keeps_db begin_transaction.
Proof.
  unfold begin_transaction. apply keeps_bind; [apply keeps_map_err, keeps_database_client|done].
Qed.

(** How an operation can leave a transaction: committed, not committed, or, when the
    commit itself failed, either. *)
Inductive outcome_of {A} (op : tx A) (d d' : db) : result A SyncStateError → Prop :=
| out_committed t a t' : same t d → op t = Ok (a, t') → same d' t' → outcome_of op d d' (Ok a)
| out_unchanged e : same d' d → outcome_of op d d' (Err e)
| out_unknown t a t' : same t d → op t = Ok (a, t') → same d' t' →
    outcome_of op d d' (Err CommitUnknown).

Lemma finish_Ok_inv {A} sg t (a : A) w r w' :
  finish sg t (Ok a) w = (r, w') →
  (r = Ok a ∧ same (w_db w') t) ∨
  (r = Err CommitUnknown ∧ (same (w_db w') (w_db w) ∨ same (w_db w') t)) ∨
  (∃ e, r = Err e ∧ same (w_db w') (w_db w)).
Proof.
  unfold finish, io_then. pose proof (keeps_check_session sg w) as Hk.
  destruct (check_session sg w) as [[[]|e] w1]; simpl in *.
  - destruct (db_commit (w_db w1) t) as [[[]|[]] d] eqn:Hc; intros [= <- <-]; simpl.
    + left. split; [done|]. intros x. by eapply db_commit_Ok.
    + right. left. split; [done|]. rewrite <-Hk. apply db_commit_Err in Hc. unfold same. done.
  - destruct (db_cancel (w_db w1) t) as [[[]|[]] d] eqn:Hc; intros [= <- <-]; simpl;
      right; right; eexists; (split; [done|]); rewrite <-Hk; intros x; by eapply db_cancel_any.
Qed.

Lemma finish_Err_inv {A} sg t e w (r : result A SyncStateError) w' :
  finish sg t (Err e) w = (r, w') → ∃ e', r = Err e' ∧ same (w_db w') (w_db w).
Proof.
  unfold finish, finish_transaction.
  destruct (db_cancel (w_db w) t) as [[[]|[]] d] eqn:Hc; intros [= <- <-]; simpl;
    eexists; (split; [done|]); intros x; by eapply db_cancel_any.
Qed.

Lemma in_transaction_outcome {A} sg (op : tx A) w r w' :
  in_transaction sg op w = (r, w') → outcome_of op (w_db w) (w_db w') r.
Proof.
  unfold in_transaction. pose proof (keeps_begin w) as Hk.
  assert (∀ t w1, begin_transaction w = (Ok t, w1) → same t (w_db w)) as Hbegin.
  { unfold begin_transaction. intros t w1 [(? & ? & _ & [=])|(a & w2 & Hm & Hr)]%io_bind_inv.
    unfold io_read in Hr. injection Hr as Hr <-.
    pose proof (keeps_map_err CoreError _ keeps_database_client w) as Hk'. rewrite Hm in Hk'.
    simpl in Hk'. rewrite <-Hk'. apply map_err_Ok in Hr. intros x. by eapply db_begin_Ok. }
  intros [(e & w1 & Hm & [= -> ->])|(t & w1 & Hm & Hr)]%io_bind_inv; rewrite Hm in Hk; simpl in Hk.
  { apply out_unchanged. by rewrite Hk. }
  specialize (Hbegin _ _ Hm). destruct (op t) as [[a t']|e] eqn:Hop.
  - rewrite <-Hk in *. apply finish_Ok_inv in Hr as [[-> ?]|[[-> [?|?]]|(e & -> & ?)]].
    + by eapply out_committed.
    + by apply out_unchanged.
    + by eapply out_unknown.
    + by apply out_unchanged.
  - rewrite <-Hk in *. apply finish_Err_inv in Hr as (e' & -> & ?). by apply out_unchanged.
Qed.
End transactions.

(** ** Stored states and the projected records *)

Section stored.
Context `{!SurrealTypes, !Engine, !EngineLaws, !JsonFloatText, !JsonText, !JsonTextLaws, !StateSerde, !StateSerdeLaws, !Ciborium, !Sha256}.

(** The journal of [key] holds the state [o], or nothing. *)
Record stores_state (d : db) (s : StoredSyncState) : Prop := {
  ss_rows : ∃ rows, normalize_state s = Ok rows ∧ represents d (state_key s) rows;
  ss_valid : ValidState s;
  ss_storable : storable_state s;
}.
Definition stored (d : db) (key : SyncStateKey) (o : option StoredSyncState) : Prop :=
  match o with
  | Some s => key = state_key s ∧ stores_state d s
  | None => vacant d key
  end.

#[export] Instance stores_state_proper : Proper (same ==> eq ==> iff) stores_state.
Proof.
  intros d d' E ? s ->. split; intros [(rows & Hn & Hr) ? ?]; split; try done;
    exists rows; (split; [done|]); [by rewrite <-E|by rewrite E].
Qed.
#[export] Instance stored_proper : Proper (same ==> eq ==> eq ==> iff) stored.
Proof. intros d d' E ? key -> ? [s|] ->; simpl; by rewrite E. Qed.

Lemma components_ok_empty : components_ok ∅.
Proof. split; [done|]. intros item p. by rewrite lookup_empty. Qed.

(** The reader returns exactly what is stored, unless the engine fails. *)
Lemma load_stored conn d key o :
  sees conn d → stored d key o →
  load_v2 conn key d = Ok o ∨ (load_v2 conn key d = Err DatabaseError ∧ reads_fail d).
Proof.
  intros Hsees. destruct o as [s|]; simpl.
  - intros (-> & [(rows & Hn & Hr) Hv Hs]). eapply load_represents; try done. by apply normalize_Ok.
  - intros [Hc Hm]. unfold load_v2.
    destruct (load_inventory_Ok conn d key ∅) as [-> | [-> ?]];
      [done|done|apply components_ok_empty| | |by right].
    { apply tabled_empty. }
    simpl. unfold connection_meta, select_as.
    destruct (skips conn META_TABLE); [left; simpl; by rewrite decide_True|].
    destruct (db_select d (meta_record_id key)) as [x|[]] eqn:Hx; simpl; [|by right; split; [|left; eauto]].
    apply db_select_Ok in Hx. rewrite Hm in Hx. subst x. simpl. left. by rewrite decide_True.
Qed.

Lemma stores_tabled s rows :
  normalize_state s = Ok rows → ValidState s → tabled (nr_components rows).
Proof. intros Hn Hv item. apply (normalized_tables s). by apply normalize_Ok. Qed.

(** Writing [next] over what is stored. *)
Lemma replace_stored d key expected expected_state next rows o w d' :
  stored d key o → key = state_key next → normalize_state next = Ok rows →
  ValidState next → storable_state next →
  replace_v2_in_transaction key expected expected_state next rows d = Ok (w, d') →
  replace_check o expected expected_state next = Ok w ∧
  match w with
  | Applied => stores_state d' next ∧ ∀ r, ¬ journal_row key r → contents d' r = contents d r
  | AlreadyCurrent => d' = d
  end.
Proof.
  intros Hst -> Hn Hv Hs Hr. unfold replace_v2_in_transaction in Hr.
  apply tx_bind_Ok in Hr as (cur & d0 & Hcur & Hr). apply tx_read_Ok in Hcur as (? & Hcur & [= <- ->]).
  destruct (load_stored Direct _ _ _ (sees_direct _) Hst) as [He|[He _]]; rewrite He in Hcur; [|done]. injection Hcur as <-.
  apply tx_bind_Ok in Hr as (dec & d0 & Hdec & Hr). apply tx_lift_Ok in Hdec as (? & Hdec & [= <- ->]).
  destruct dec; cycle 1.
  { apply tx_ret_Ok in Hr as [= -> ->]. by rewrite Hdec. }
  apply tx_bind_Ok in Hr as (cr & d0 & Hcr & Hr). apply tx_lift_Ok in Hcr as (? & Hcr & [= <- ->]).
  apply tx_bind_Ok in Hr as (u & d1 & Hw & Hr). apply tx_ret_Ok in Hr as [= -> ->].
  rewrite Hdec. split; [done|].
  eapply write_row_diff_represents in Hw as [Hrep Hframe].
  - split; [|done]. split; [by exists rows|done|done].
  - destruct o as [s|]; simpl in *; inv_ok; [|done].
    destruct Hst as (-> & [(rows' & Hn' & Hrep) _ _]).
    match goal with H : normalize_state s = Ok _ |- _ => rewrite Hn' in H; injection H as <- end.
    done.
  - destruct o as [s|]; simpl in *; inv_ok; cycle 1.
    { apply tabled_empty. }
    destruct Hst as (Hk & [(rows' & Hn' & Hrep) ? _]). by eapply stores_tabled.
  - by eapply stores_tabled.
  - eapply normalized_row_version. by apply normalize_Ok.
Qed.

(** *** Application records *)

(** The row of an optimistic record: the object its value encodes, and no row when the
    record is deleted or not in the projection (or its value is not storable). *)
Definition projected_row (o : option (OptimisticRecord JsonValue)) : option row :=
  match o with
  | Some (OptPresent value _ _) =>
      match from_wire_value value with
      | Ok (SvObject content) => Some (RowObject content)
      | _ => None
      end
  | Some (OptDeleted _) | None => None
  end.

Lemma projected_content value content bv ref :
  record_content value = Ok content →
  projected_row (Some (OptPresent value bv ref)) = Some (RowObject content).
Proof.
  unfold record_content. simpl. intros Hc. apply result_bind_Ok in Hc as (v & Hv%map_err_Ok & Hc).
  rewrite Hv. destruct v; try done. by injection Hc as ->.
Qed.

Definition project_target (current next : Projection) (id : RecordId)
  : option (rid * option row) :=
  if decide (current !! id = next !! id) then None else
  match native_record_id id with
  | Ok native_id => Some (native_id, projected_row (next !! id))
  | Err _ => None
  end.

Lemma project_record_writes current next id d u d' :
  project_record current next id d = Ok (u, d') → writes (project_target current next id) d d'.
Proof.
  unfold project_record, project_target. case_decide; intros Hp.
  { by apply tx_ret_Ok in Hp as [= _ ->]. }
  apply tx_bind_Ok in Hp as (nid & d0 & Hnid & Hp). apply tx_lift_Ok in Hnid as (? & -> & [= <- ->]).
  destruct (next !! id) as [[value bv ref|bv]|].
  - apply tx_bind_Ok in Hp as (c & d0 & Hc & Hp). apply tx_lift_Ok in Hc as (? & Hc & [= <- ->]).
    rewrite (projected_content _ _ _ _ Hc).
    apply tx_bind_Ok in Hp as (? & d1 & Hu & [= _ ->]%tx_ret_Ok). by eapply tx_upsert_writes.
  - apply tx_bind_Ok in Hp as (? & d1 & Hu & [= _ ->]%tx_ret_Ok). by eapply tx_delete_writes.
  - apply tx_bind_Ok in Hp as (? & d1 & Hu & [= _ ->]%tx_ret_Ok). by eapply tx_delete_writes.
Qed.

Lemma elem_of_union_keys {A B} (m1 : gmap string A) (m2 : gmap string B) k :
  k ∈ union_keys m1 m2 ↔ is_Some (m1 !! k) ∨ is_Some (m2 !! k).
Proof.
  unfold union_keys. rewrite (merge_sort_Permutation String.le), elem_of_elements, elem_of_union.
  by rewrite !elem_of_dom.
Qed.

(** The application's table holds every record of the projection. *)
Definition projection_stored (d : db) (p : Projection) : Prop :=
  ∀ id o nid, p !! id = Some o → native_record_id id = Ok nid →
    contents d nid = projected_row (Some o).

(** The record is in one of the two projections. *)
Definition in_either (p q : Projection) (id : RecordId) : Prop :=
  is_Some (p !! id) ∨ is_Some (q !! id).

(** Distinct record ids of the two projections name distinct records. *)
Definition distinct_records (p q : Projection) : Prop :=
  ∀ id id' nid, in_either p q id → in_either p q id' →
    native_record_id id = Ok nid → native_record_id id' = Ok nid → id = id'.

(** No record of the projections lies in the journal's own tables. *)
Definition outside_journal (p q : Projection) : Prop :=
  ∀ id nid, in_either p q id → native_record_id id = Ok nid →
    r_table nid ≠ SUBSCRIPTION_RECORD_TABLE.

Lemma native_record_id_table id nid :
  native_record_id id = Ok nid → r_table nid ≠ SUBSCRIPTION_RECORD_TABLE →
  r_table nid ≠ META_TABLE ∧ (r_table nid ∉ COMPONENT_TABLES).
Proof.
  unfold native_record_id. case_match; [done|]. destruct (parse_simple id) as [[t k]|]; [|done].
  case_decide as Ht; [done|]. intros [= <-] Hs. simpl in *.
  rewrite !not_elem_of_cons in Ht. unfold COMPONENT_TABLES. rewrite !not_elem_of_cons.
  destruct_and!. by repeat split.
Qed.

(** From the rows [d] of [p] to the rows [d'] of [q]: every record of either projection
    whose optimistic state differs gets the row of its new state (none when it was
    deleted or left the projection), the others keep the row they have. *)
Definition projection_replaced (p q : Projection) (d d' : db) : Prop :=
  ∀ id nid, in_either p q id → native_record_id id = Ok nid →
    contents d' nid =
      if decide (p !! id = q !! id) then contents d nid else projected_row (q !! id).

Lemma projection_diff_Ok current next d u d' :
  apply_projection_diff current next d = Ok (u, d') →
  (distinct_records current next → projection_replaced current next d d') ∧
  (∀ r, (∀ id, in_either current next id → native_record_id id ≠ Ok r) →
     contents d' r = contents d r).
Proof.
  intros Hp. pose proof (tx_for_each_writes (project_target current next) _ _ _ _ _
    ltac:(intros; by eapply project_record_writes) Hp) as Hw.
  setoid_rewrite elem_of_union_keys in Hw. split.
  - intros Hdist id nid Hin Hnid.
    destruct (Hw nid) as [(id' & v & Hin' & Ht & ->)|[Hnone ->]].
    + unfold project_target in Ht. case_decide as Hne; [done|].
      destruct (native_record_id id') as [nid'|] eqn:Hn'; [|done].
      apply (inj Some), pair_equal_spec in Ht as [-> <-].
      rewrite (Hdist id id' nid Hin Hin' Hnid Hn'). by rewrite decide_False.
    + specialize (Hnone id). unfold project_target in Hnone. rewrite Hnid in Hnone.
      case_decide as Heq; [done|]. exfalso. by eapply Hnone.
  - intros r Hr. destruct (Hw r) as [(id' & v & Hin' & Ht & _)|[_ ->]]; [|done].
    unfold project_target in Ht. case_decide; [done|].
    destruct (native_record_id id') as [nid'|] eqn:Hn'; [|done].
    apply (inj Some), pair_equal_spec in Ht as [-> _]. by destruct (Hr id').
Qed.

(** When the rows held the old projection, they hold the new one, and no record that
    left it keeps a row. *)
Lemma projection_replaced_stored p q d d' :
  projection_replaced p q d d' → projection_stored d p →
  ∀ id nid, in_either p q id → native_record_id id = Ok nid →
    contents d' nid = projected_row (q !! id).
Proof.
  intros Hr Hst id nid Hin Hnid. rewrite (Hr _ _ Hin Hnid). case_decide as Heq; [|done].
  destruct Hin as [[o Ho]|[o Ho]]; [|rewrite <-Heq in Ho]; rewrite <-Heq, Ho; by eapply Hst.
Qed.
End stored.

(** ** The operations *)

Section operations.
Context `{!SurrealTypes, !Engine, !EngineLaws, !Host, !JsonFloatText, !JsonText, !JsonTextLaws, !StateSerde, !StateSerdeLaws, !Ciborium, !Sha256}.

(** The database after a failed write: as before, or, when the commit itself reported the
    failure, as after a successful one. *)
Definition untouched_or (e : SyncStateError) (P : Prop) (d d' : db) : Prop :=
  same d' d ∨ (e = CommitUnknown ∧ P).

Lemma prepare_write_Ok expected s key rows :
  prepare_state_write expected s = Ok (key, rows) →
  key = state_key s ∧ normalize_state s = Ok rows ∧ ValidState s ∧
  validate_next_revision expected (st_revision s) = Ok tt ∧ validate_key (state_key s) = Ok tt.
Proof.
  unfold prepare_state_write. intros Hp. inv_ok. repeat match goal with u : () |- _ => destruct u end.
  repeat match goal with H : map_err _ _ = Ok _ |- _ => apply map_err_Ok in H end.
  split; [done|]. split; [done|]. split; [by eapply validate_ValidState|]. done.
Qed.

(** What a transition leaves behind. *)
Record transition_stored (current next : StoredSyncState) (d d' : db) : Prop := {
  ts_key : state_key next = state_key current;
  ts_state : stores_state d' next;
  ts_replaced : distinct_records (optimistic_projection current) (optimistic_projection next) →
    projection_replaced (optimistic_projection current) (optimistic_projection next) d d';
  ts_projection : distinct_records (optimistic_projection current) (optimistic_projection next) →
    projection_stored d (optimistic_projection current) →
    ∀ id nid, in_either (optimistic_projection current) (optimistic_projection next) id →
      native_record_id id = Ok nid →
      contents d' nid = projected_row (optimistic_projection next !! id);
  ts_frame : ∀ r, ¬ journal_row (state_key next) r →
    (∀ id, in_either (optimistic_projection current) (optimistic_projection next) id →
       native_record_id id ≠ Ok r) → contents d' r = contents d r;
}.

Lemma projection_keeps_state s p q d u d' :
  stores_state d s → outside_journal p q → apply_projection_diff p q d = Ok (u, d') →
  stores_state d' s.
Proof.
  intros [(rows & Hn & Hr) Hv Hs] Hout [_ Hframe]%projection_diff_Ok.
  assert (∀ r, r_table r = META_TABLE ∨ r_table r ∈ COMPONENT_TABLES →
    contents d' r = contents d r) as Hj.
  { intros r Ht. apply Hframe. intros id Hid Hnid.
    destruct (native_record_id_table _ _ Hnid (Hout _ _ Hid Hnid)) as [? ?]. by destruct Ht. }
  split; [|done|done]. exists rows. split; [done|]. destruct Hr as [[Hp Ho] [f Hm]]. split; [split|].
  - intros item b Hb. destruct (Hp _ _ Hb) as (v & ? & Hrow). exists v. split; [done|].
    rewrite Hj; [done|]. right. eapply (stores_tabled s rows); [done|done|]. by exists b.
  - intros r x Ht Hx. rewrite Hj in Hx by auto. by apply Ho.
  - exists f. rewrite Hj; [done|]. by left.
Qed.

Lemma transition_in_transaction current next o d w d' :
  stored d (state_key current) o → state_key next = state_key current → storable_state next →
  outside_journal (optimistic_projection current) (optimistic_projection next) →
  apply_transition_in_transaction current next d = Ok (w, d') →
  o = Some current ∧
  match w with
  | Applied => transition_stored current next d d' ∧
      checked_add u64_max (st_revision current) 1 = Some (st_revision next)
  | AlreadyCurrent => d' = d ∧ current = next
  end.
Proof.
  intros Hst Hkey Hsto Hout Ht. unfold apply_transition_in_transaction in Ht.
  apply tx_bind_Ok in Ht as ([key rows] & d0 & Hp & Ht).
  apply tx_lift_Ok in Hp as ([key' rows'] & Hp & [= -> -> ->]).
  apply prepare_write_Ok in Hp as (-> & Hn & Hv & Hrev & _).
  apply tx_bind_Ok in Ht as (disp & d1 & Hr & Ht).
  eapply replace_stored in Hr as [Hchk Hw]; [|by rewrite Hkey|done..].
  assert (o = Some current) as ->.
  { unfold replace_check in Hchk. case_decide as Hne; [done|]. simpl in Hne.
    destruct (decide (o = Some current)); [done|]. by destruct Hne. }
  split; [done|]. destruct disp.
  - apply tx_bind_Ok in Ht as (? & d2 & Hproj & Ht). apply tx_ret_Ok in Ht as [= -> ->].
    destruct Hw as [Hss Hframe]. pose proof (projection_diff_Ok _ _ _ _ _ Hproj) as [Hps Hpf].
    split; cycle 1.
    { unfold validate_next_revision in Hrev. apply result_bind_Ok in Hrev as (n & Hadd & Hrev).
      apply ok_or_Ok in Hadd. case_decide as Hne; [done|]. by rewrite Hne. }
    assert (∀ p q : Projection, p = optimistic_projection current →
      q = optimistic_projection next → projection_replaced p q d1 d2 →
      projection_replaced p q d d2) as Hrep.
    { intros p q -> -> Hrep id nid Hin Hnid. rewrite (Hrep _ _ Hin Hnid).
      case_decide; [|done]. apply Hframe.
      destruct (native_record_id_table _ _ Hnid (Hout _ _ Hin Hnid)) as [Hm Hc].
      intros [-> | (item & Hitem & ->)]; [by apply Hm|by apply Hc]. }
    split; [done|..].
    + by eapply projection_keeps_state.
    + intros Hdist. by apply Hrep, Hps.
    + intros Hdist. by apply projection_replaced_stored, Hrep, Hps.
    + intros r Hr Hids. rewrite Hpf by done. by apply Hframe.
  - apply tx_ret_Ok in Ht as [= -> ->]. split; [done|].
    unfold replace_check in Hchk. case_decide; [done|]. repeat (case_decide; try done).
Qed.

Lemma keeps_load sg key w :
  (∃ o, stored (w_db w) key (Some o)) → w_db (load sg key w).2 = w_db w.
Proof.
  intros [s Hs]. unfold load. destruct (validate_key key); [|done]. unfold io_bind at 1. simpl.
  unfold io_bind at 1.
  pose proof (keeps_map_err CoreError _ keeps_database_client w) as Hk.
  destruct (io_map_err CoreError database_client w) as [[[]|e] w1]; simpl in *; [|done].
  unfold io_bind, io_read. rewrite <-Hk in Hs |- *.
  destruct (load_stored Direct (w_db w1) key (Some s) (sees_direct _) Hs) as [-> | [-> _]]; done.
Qed.

Lemma load_Ok sg key s w r w' :
  stored (w_db w) key (Some s) → load sg key w = (Ok r, w') → r = Some s.
Proof.
  intros Hs. unfold load. intros [(? & ? & _ & [=])|(? & ? & Hv & Hr)]%io_bind_inv.
  injection Hv as _ <-. apply io_bind_inv in Hr as [(? & ? & _ & [=])|(u & w1 & Hc & Hr)].
  pose proof (keeps_map_err CoreError _ keeps_database_client w) as Hk. rewrite Hc in Hk.
  simpl in Hk. rewrite <-Hk in Hs. unfold io_bind, io_read in Hr.
  destruct (load_stored Direct (w_db w1) key (Some s) (sees_direct _) Hs) as [He|[He _]]; rewrite He in Hr;
    [by injection Hr|done].
Qed.

#[export] Instance projection_stored_proper : Proper (same ==> eq ==> iff) projection_stored.
Proof.
  intros d d' E ? p ->. split; intros Hp id o nid ??; [rewrite <-(E nid)|rewrite (E nid)]; by eapply Hp.
Qed.

#[export] Instance transition_stored_proper :
  Proper (eq ==> eq ==> same ==> same ==> iff) transition_stored.
Proof.
  assert (∀ s t d1 d2 e1 e2, same d1 d2 → same e1 e2 → transition_stored s t d1 e1 →
    transition_stored s t d2 e2) as Himp.
  { intros s t d1 d2 e1 e2 Hd He [Hk Hs Hr Hp Hf]. split; [done|..].
    - by rewrite <-He.
    - intros Hdist id nid Hin Hnid. rewrite <-(He nid), <-(Hd nid). by apply Hr.
    - intros Hdist Hst. setoid_rewrite <-(He _). apply Hp; [done|]. by rewrite Hd.
    - intros r ??. rewrite <-(He r), <-(Hd r). by apply Hf. }
  intros ? s -> ? t -> d1 d2 Hd e1 e2 He. split; apply Himp; done || by symmetry.
Qed.

(** A transition against a journal that holds [s]: what it returns and what it leaves. *)
Definition transition_outcome (current next s : StoredSyncState) (d d' : db)
    (r : result SyncStateWrite SyncStateError) : Prop :=
  match r with
  | Ok Applied => s = current ∧ checked_add u64_max (st_revision current) 1 = Some (st_revision next)
      ∧ transition_stored current next d d'
  | Ok AlreadyCurrent => s = current ∧ current = next ∧ same d' d
  | Err e => same d' d ∨
      (e = CommitUnknown ∧ s = current ∧ transition_stored current next d d')
  end.

Lemma transition_in_outcome current next s sg w r w' :
  stored (w_db w) (state_key current) (Some s) → state_key next = state_key current →
  storable_state next →
  outside_journal (optimistic_projection current) (optimistic_projection next) →
  in_transaction sg (apply_transition_in_transaction current next) w = (r, w') →
  transition_outcome current next s (w_db w) (w_db w') r.
Proof.
  intros Hst Hkey Hsto Hout Hr. apply in_transaction_outcome in Hr.
  assert (∀ t a t', same t (w_db w) →
    apply_transition_in_transaction current next t = Ok (a, t') → same (w_db w') t' →
    transition_outcome current next s (w_db w) (w_db w') (Ok a)) as Hrun.
  { intros t a t' Ht Ha Hw'. rewrite <-Ht in Hst.
    destruct (transition_in_transaction _ _ _ _ _ _ Hst Hkey Hsto Hout Ha) as [[= ->] Hw].
    destruct a; simpl.
    - destruct Hw as [Hts Hadd]. split; [done|]. split; [done|]. by rewrite Hw', <-Ht.
    - destruct Hw as [-> ->]. split; [done|]. split; [done|]. by rewrite Hw'. }
  inversion Hr as [t a t' Ht Ha Hw|e Hsame|t a t' Ht Ha Hw]; subst; simpl.
  - by eapply Hrun.
  - by left.
  - specialize (Hrun _ _ _ Ht Ha Hw). destruct a; simpl in Hrun; destruct Hrun as (? & ? & ?).
    + right. done.
    + by left.
Qed.

Lemma transition_outcome_holds sg current next s w r w' :
  stored (w_db w) (state_key current) (Some s) → storable_state next →
  outside_journal (optimistic_projection current) (optimistic_projection next) →
  apply_transition_atomic sg current next w = (r, w') →
  transition_outcome current next s (w_db w) (w_db w') r.
Proof.
  intros Hst Hsto Hout. unfold apply_transition_atomic. case_decide as Hid.
  { intros [= <- <-]. by left. }
  intros [(e & w1 & [= Hv <-] & [= -> ->])|(u & w1 & [= Hv <-] & Hr)]%io_bind_inv; [by left|].
  case_decide as Heq.
  - pose proof (keeps_load sg (state_key current) w (ex_intro _ s Hst)) as Hk.
    apply io_bind_inv in Hr as [(e & w1 & Hl & [= -> ->])|(o & w1 & Hl & Hr)]; rewrite Hl in Hk;
      simpl in Hk; [left; by rewrite Hk|].
    apply (load_Ok _ _ s) in Hl as ->; [|done]. case_decide as Ho; injection Hr as <- <-; simpl.
    + injection Ho as ->. split; [done|]. split; [done|]. by rewrite Hk.
    + left. by rewrite Hk.
  - apply io_bind_inv in Hr as [(e & w1 & [= Hp <-] & [= -> ->])|(p & w1 & [= Hp <-] & Hr)];
      [by left|].
    eapply transition_in_outcome; try done.
    unfold state_key. f_equal; symmetry; apply dec_stable; tauto.
Qed.
End operations.
