(* ===== verification/ClientCoherence.v ===== *)
(** * The installed state is the durable state.

    The native client keeps its state twice: installed in the runtime cell and stored in
    the database.  [agrees] says that the journal is readable and that an installed state
    is exactly the stored one; it is an invariant of every operation of the client, for
    every behaviour of the engine and of the handle, failed and unknown commits included. *)

From Stdlib Require Import Strings.Byte.
From S2P Require Import Prelude Protocol Subscription ClientState SubscriptionState Validate Client SubscriptionClient Read Canonical HttpCodec BootstrapCodec SubscriptionCodec NativeErrors Json Wire NativeCodec Engine StateRows StateLoad Stage StateStore StageStore Queue ReadJournal SubscriptionJournal View NativeClient NativeOps StateProps StoreProps.

Set Default Proof Using "Type*".

(** ** Programs that keep an invariant of the cell *)

Section keeps.
Context `{!SurrealTypes, !Engine, !Host}.

Lemma a_bind_inv {E A B} (m : act E A) (k : A → act E B) c out :
  a_bind m k c = out →
  (∃ e c1, m c = (Err e, c1) ∧ out = (Err e, c1)) ∨ ∃ a c1, m c = (Ok a, c1) ∧ k a c1 = out.
Proof. unfold a_bind. destruct (m c) as [[a|e] c1]; naive_solver. Qed.
Variable I : cell → Prop.

Definition keeps {E A} (m : act E A) : Prop := ∀ c, I c → I (m c).2.

Lemma keeps_a_ret {E A} (a : A) : keeps (E := E) (a_ret a).
Proof. by intros c. Qed.
Lemma keeps_a_err {E A} (e : E) : keeps (A := A) (a_err e).
Proof. by intros c. Qed.
Lemma keeps_a_lift {E A} (r : result A E) : keeps (a_lift r).
Proof. by intros c. Qed.
Lemma keeps_a_state {E A} (f : RuntimeState → A) : keeps (E := E) (a_state f).
Proof. by intros c. Qed.
Lemma keeps_a_bind {E A B} (m : act E A) (k : A → act E B) :
  keeps m → (∀ a, keeps (k a)) → keeps (a_bind m k).
Proof.
  intros Hm Hk c Hc. specialize (Hm c Hc). unfold a_bind.
  destruct (m c) as [[a|e] c1]; simpl in *; [|done]. by apply Hk.
Qed.
Lemma keeps_a_map_err {E F A} (f : E → F) (m : act E A) : keeps m → keeps (a_map_err f m).
Proof. intros Hm c Hc. by apply Hm. Qed.
Lemma keeps_a_try {E F A} (m : act E A) : keeps m → keeps (a_try (F := F) m).
Proof. intros Hm c Hc. by apply Hm. Qed.

End keeps.

(** Structural steps of a [keeps] goal; what is left are the storage operations. *)
Create HintDb keeps.
#[export] Hint Resolve keeps_a_ret keeps_a_err keeps_a_lift keeps_a_state keeps_a_map_err keeps_a_try : keeps.
Ltac keeps_step :=
  first
    [ progress eauto with keeps
    | match goal with
      | |- keeps _ (a_bind _ _) => apply keeps_a_bind; [|intros ?]
      | |- keeps _ (a_map_err _ _) => apply keeps_a_map_err
      | |- keeps _ (a_try _) => apply keeps_a_try
      | |- keeps _ (if decide ?P then _ else _) => destruct (decide P)
      | |- keeps _ (if ?b then _ else _) => destruct b
      | |- keeps _ (match ?x with _ => _ end) => destruct x
      end ].
Ltac keeps_auto := repeat keeps_step.

Section agreement.
Context `{!SurrealTypes, !Engine, !EngineLaws, !Host, !JsonFloatText, !JsonText, !JsonTextLaws, !StateSerde, !StateSerdeLaws, !Ciborium, !Sha256}.

(** The journal holds [o] and no row of the first format. *)
Definition holds (d : db) (key : SyncStateKey) (o : option StoredSyncState) : Prop :=
  stored d key o ∧ contents d (record_id key) = None.

#[export] Instance holds_proper : Proper (same ==> eq ==> eq ==> iff) holds.
Proof. intros d d' E ? key -> ? o ->. unfold holds.
  rewrite (E (record_id key)). apply and_iff_compat_r. by apply stored_proper.
Qed.

Definition agrees (key : SyncStateKey) (c : cell) : Prop :=
  ∃ o, holds (w_db (c_world c)) key o ∧ ∀ s, rt_runtime (c_state c) = Some s → o = Some s.

Variable key : SyncStateKey.

Lemma agrees_intro o c :
  holds (w_db (c_world c)) key o → (∀ s, rt_runtime (c_state c) = Some s → o = Some s) → agrees key c.
Proof. by exists o. Qed.

(** Changes of a cell that leave the agreement alone. *)
Lemma agrees_change c c' :
  agrees key c → w_db (c_world c') = w_db (c_world c) →
  (rt_runtime (c_state c') = rt_runtime (c_state c) ∨ rt_runtime (c_state c') = None) →
  agrees key c'.
Proof.
  intros (o & Ho & Hr) Hw Hs. exists o. rewrite Hw. split; [done|]. intros s Hs'.
  apply Hr. destruct Hs as [<-|Hn]; congruence.
Qed.

Lemma keeps_update {E} f :
  (∀ s, rt_runtime (f s) = rt_runtime s ∨ rt_runtime (f s) = None) →
  keeps (agrees key) (a_update (E := E) f).
Proof. intros Hf c Hc. eapply agrees_change; [done|done|apply Hf]. Qed.
Lemma keeps_poison {E} : keeps (agrees key) (a_poison (E := E)).
Proof. intros c Hc. eapply agrees_change; [done|done|by left]. Qed.
Lemma keeps_phase {E} p : keeps (agrees key) (a_phase (E := E) p).
Proof. intros c Hc. eapply agrees_change; [done|done|by left]. Qed.
Lemma keeps_a_look {E A} (f : Observation → A) : keeps (agrees key) (a_look (E := E) f).
Proof. intros c Hc. eapply agrees_change; [done|done|by left]. Qed.
Lemma keeps_is_poisoned {E} : keeps (agrees key) (a_is_poisoned (E := E)).
Proof. intros c Hc. eapply agrees_change; [done|done|by left]. Qed.

(** A storage operation that preserves what the journal holds. *)
Lemma keeps_io {E F A} (m : io F A) :
  (∀ w o, holds (w_db w) key o → holds (w_db (m w).2) key o) →
  keeps (agrees key) (a_io (E := E) m).
Proof.
  intros Hm c (o & Ho & Hr). specialize (Hm (c_world c) o Ho). unfold a_io.
  destruct (m (c_world c)) as [r w]. by exists o.
Qed.
Lemma keeps_io_db {E F A} (m : io F A) : keeps_db m → keeps (agrees key) (a_io (E := E) m).
Proof. intros Hm. apply keeps_io. intros w o Ho. by rewrite Hm. Qed.
End agreement.

#[export] Hint Resolve keeps_poison keeps_phase keeps_a_look keeps_is_poisoned : keeps.

Section guard_keeps.
Context `{!SurrealTypes, !Engine, !EngineLaws, !Host, !JsonFloatText, !JsonText, !JsonTextLaws, !StateSerde, !StateSerdeLaws, !Ciborium, !Sha256}.
Variable key : SyncStateKey.
Variable sg : N.

Lemma keeps_ensure : keeps (agrees key) (ensure_session sg).
Proof. unfold ensure_session. keeps_auto. Qed.
Hint Resolve keeps_ensure : keeps.
Lemma keeps_guard_client : keeps (agrees key) (guard_client sg).
Proof. unfold guard_client. keeps_auto. Qed.
Lemma keeps_guard_read_client : keeps (agrees key) (guard_read_client sg).
Proof. unfold guard_read_client. keeps_auto. Qed.
Hint Resolve keeps_guard_client keeps_guard_read_client : keeps.
Lemma keeps_arm {E} : keeps (agrees key) (arm_mutation (E := E)).
Proof. unfold arm_mutation. keeps_auto. Qed.
Lemma keeps_disarm {E} : keeps (agrees key) (disarm_mutation (E := E)).
Proof. unfold disarm_mutation. keeps_auto. Qed.
Lemma keeps_settled {E A} (r : result A SyncStateError) :
  keeps (agrees key) (settled_mutation (E := E) r).
Proof. unfold settled_mutation. keeps_auto. Qed.
Lemma keeps_invalidate {E} : keeps (agrees key) (a_update (E := E) invalidate_runtime).
Proof. apply keeps_update. by right. Qed.
Hint Resolve keeps_arm keeps_disarm keeps_settled keeps_invalidate : keeps.
Lemma keeps_recovery {A} : keeps (agrees key) (recovery (A := A)).
Proof. unfold recovery. keeps_auto. Qed.
Lemma keeps_take_runtime {E} : keeps (agrees key) (take_runtime (E := E)).
Proof. apply keeps_update. by right. Qed.
Lemma keeps_rotate_both {E} : keeps (agrees key) (rotate_both (E := E)).
Proof. unfold rotate_both. keeps_auto; apply keeps_update; by left. Qed.
Lemma keeps_blocked {E} b : keeps (agrees key) (a_update (E := E) (set_scope_blocked b)).
Proof. apply keeps_update. by left. Qed.

(** The end of the guard: a phase that is not clean drops the installed state. *)
Lemma agrees_drop c : agrees key c → agrees key (drop_guard c).
Proof.
  intros Hc. unfold drop_guard. destruct (c_phase c); [done|..];
    (eapply agrees_change; [done|done|by right]).
Qed.
Lemma keeps_locked {E A} (m : act E A) : keeps (agrees key) m → keeps (agrees key) (locked m).
Proof.
  intros Hm c Hc. unfold locked.
  specialize (Hm (mkCell (c_state c) (c_poisoned c) Clean (c_world c))).
  destruct (m _) as [r c1]. apply agrees_drop, Hm. eapply agrees_change; [done|done|by left].
Qed.
Lemma keeps_run_mutation {E A} (from : NativeSyncError → E) (m : act E A) :
  keeps (agrees key) m → keeps (agrees key) (run_mutation sg from m).
Proof. intros Hm. unfold run_mutation. keeps_auto. Qed.
End guard_keeps.

#[export] Hint Resolve keeps_ensure keeps_guard_client keeps_guard_read_client keeps_arm keeps_disarm keeps_settled keeps_invalidate keeps_recovery keeps_take_runtime keeps_rotate_both keeps_blocked : keeps.

(** ** Persisting a transition *)

Section persist.
Context `{!SurrealTypes, !Engine, !EngineLaws, !Host, !JsonFloatText, !JsonText, !JsonTextLaws, !StateSerde, !StateSerdeLaws, !Ciborium, !Sha256, !BridgeSerde}.
Variable key : SyncStateKey.
Variable sg : N.

(** The next state reads back, and none of the records it projects lies in a table of the
    journal. *)
Definition writable (current next : StoredSyncState) : Prop :=
  storable_state next ∧ outside_journal (optimistic_projection current) (optimistic_projection next).

(** Programs that only look at the handle. *)
Definition looks {E A} (m : act E A) : Prop := ∀ c,
  c_state (m c).2 = c_state c ∧ c_poisoned (m c).2 = c_poisoned c ∧
  c_phase (m c).2 = c_phase c ∧ w_db (c_world (m c).2) = w_db (c_world c).

Lemma looks_bind {E A B} (m : act E A) (k : A → act E B) :
  looks m → (∀ a, looks (k a)) → looks (a_bind m k).
Proof.
  intros Hm Hk c. specialize (Hm c). unfold a_bind. destruct (m c) as [[a|e] c1]; simpl in *; [|done].
  destruct Hm as (H1' & H2' & H3' & H4'). rewrite <-H1', <-H2', <-H3', <-H4'. apply Hk.
Qed.
Lemma looks_if {E A} (b : bool) (m k : act E A) : looks m → looks k → looks (if b then m else k).
Proof. by destruct b. Qed.
Lemma looks_ensure : looks (ensure_session sg).
Proof.
  unfold ensure_session. repeat (apply looks_bind || apply looks_if || intros ? || done).
  case_decide; done.
Qed.
Lemma looks_guard_client : looks (guard_client sg).
Proof.
  unfold guard_client. apply looks_bind; [apply looks_ensure|intros _]. by apply looks_bind.
Qed.

Lemma guard_client_Ok c s c1 :
  guard_client sg c = (Ok s, c1) →
  rt_runtime (c_state c) = Some s ∧ c_state c1 = c_state c ∧
  w_db (c_world c1) = w_db (c_world c).
Proof.
  intros Hg. pose proof (looks_guard_client c) as Hl. rewrite Hg in Hl. simpl in Hl.
  destruct Hl as (Hs & _ & _ & Hd). split; [|done]. unfold guard_client in Hg.
  apply a_bind_inv in Hg as [(? & ? & _ & [=])|(u & c2 & He & Hg)].
  pose proof (looks_ensure c) as (Hs' & _). rewrite He in Hs'. simpl in Hs'.
  unfold a_bind, a_state, a_lift in Hg. injection Hg as Hg <-. rewrite Hs' in Hg.
  unfold state_client in Hg. by apply ok_or_Ok in Hg.
Qed.

Lemma record_id_not_journal : ¬ journal_row key (record_id key).
Proof.
  intros [[Ht _]%array_rid_inj|(item & Hi & [Ht _]%array_rid_inj)]; [done|].
  rewrite <-Ht in Hi. revert Hi. by apply (bool_decide_unpack (STATE_TABLE ∉ COMPONENT_TABLES)).
Qed.

Lemma native_not_state id : native_record_id id ≠ Ok (record_id key).
Proof.
  unfold native_record_id. case_match; [done|]. destruct (parse_simple id) as [[t k]|]; [|done].
  case_decide as Ht; [done|]. intros [= -> _]. apply Ht. by left.
Qed.

Lemma transition_holds current next d d' :
  key = state_key current → contents d (record_id key) = None →
  transition_stored current next d d' → holds d' key (Some next).
Proof.
  intros Hk Hrec [Hkn Hs _ _ Hf]. split; [split; [congruence|done]|].
  rewrite Hf; [done| |].
  - rewrite Hkn, <-Hk. apply record_id_not_journal.
  - intros id _. apply native_not_state.
Qed.

(** Every outcome of the storage operation, with the cell it leaves. *)
Lemma persisted_agrees c current next r w' :
  agrees key c → rt_runtime (c_state c) = Some current → writable current next →
  apply_transition_atomic (Some sg) current next (c_world c) = (r, w') →
  match r with
  | Ok _ => holds (w_db w') key (Some next)
  | Err e => outcome_unknown r = false → holds (w_db w') key (Some current)
  end ∧ ∃ o, holds (w_db w') key o.
Proof.
  intros (o & [Hst Hrec] & Hr) Hc [Hsto Hout] Ha. specialize (Hr _ Hc) as ->.
  pose proof Hst as [Hk _].
  apply (transition_outcome_holds _ _ _ current) in Ha; [|by rewrite <-Hk|done|done].
  assert (∀ d', same d' (w_db (c_world c)) → holds d' key (Some current)) as Hsame.
  { intros d' E. rewrite E. done. }
  destruct r as [[]|e]; simpl in Ha.
  - destruct Ha as (_ & _ & Ht). apply transition_holds in Ht; [|done|done]. eauto.
  - destruct Ha as (_ & <- & E). eauto.
  - destruct Ha as [E|(-> & _ & Ht)]; [eauto|].
    apply transition_holds in Ht; [|done|done]. split; [done|eauto].
Qed.

Lemma keeps_journals {E} f g :
  keeps (agrees key) (a_update (E := E) (λ s, set_journals (f s) (g s) s)).
Proof. apply keeps_update. by left. Qed.

(** Publication installs the stored state or drops the runtime. *)
Lemma publish_agrees before prepared c :
  holds (w_db (c_world c)) key (Some (prepared_state prepared)) →
  agrees key (publish before prepared c).2.
Proof.
  intros Hh.
  assert (∀ c', w_db (c_world c') = w_db (c_world c) → rt_runtime (c_state c') = None →
    agrees key c') as Hnone.
  { intros c' Hw Hn. exists (Some (prepared_state prepared)). rewrite Hw, Hn. by split. }
  assert (∀ c', w_db (c_world c') = w_db (c_world c) →
    agrees key (recovery (A := NativeSyncStatus) c').2) as Hrec by (intros; by apply Hnone).
  unfold publish, a_bind, a_state. simpl.
  destruct (rt_runtime (c_state c)) as [runtime|]; [|by apply Hrec].
  unfold install_with_read_batch. case_decide; [by apply Hrec|].
  cbn -[journal_record sub_record recovery]. case_match; [|by apply Hrec].
  exists (Some (prepared_state prepared)). split; [done|]. by intros s [= <-].
Qed.

(** A step that only looks, then the rest with the same state and database. *)
Lemma looks_seq {E A B} (m : act E A) (k : A → act E B) c :
  looks m → agrees key c →
  (∀ a c1, m c = (Ok a, c1) → agrees key c1 → c_state c1 = c_state c →
     w_db (c_world c1) = w_db (c_world c) → agrees key (k a c1).2) →
  agrees key (a_bind m k c).2.
Proof.
  intros Hm Hc Hk. destruct (Hm c) as (Hs & _ & _ & Hd). unfold a_bind.
  destruct (m c) as [[a|e] c1]; simpl in *.
  - apply Hk; try done. eapply agrees_change; [exact Hc|done|left; by rewrite Hs].
  - eapply agrees_change; [exact Hc|done|left; by rewrite Hs].
Qed.

Lemma arm_with_state_Ok c current c1 :
  arm_with_state sg c = (Ok current, c1) →
  rt_runtime (c_state c1) = Some current ∧ c_state c1 = c_state c ∧
  w_db (c_world c1) = w_db (c_world c).
Proof.
  unfold arm_with_state. intros [(? & ? & _ & [=])|(s & c4 & Hg & He)]%a_bind_inv.
  destruct (guard_client_Ok _ _ _ Hg) as (Hrt & Hs & Hd).
  unfold arm_mutation, a_phase, a_bind, a_state, a_lift in He. injection He as He <-. simpl in *.
  rewrite Hs in *. unfold state_client in He. by apply ok_or_Ok in He.
Qed.

(** The storage operation of a transition and its settlement, then the rest. *)
Lemma storage_seq {A} (k : result SyncStateWrite SyncStateError → act NativeSyncError A)
    current next c :
  agrees key c → rt_runtime (c_state c) = Some current → writable current next →
  (∀ r c', c_state c' = c_state c →
     match r with
     | Ok _ => holds (w_db (c_world c')) key (Some next)
     | Err e => outcome_unknown r = false → holds (w_db (c_world c')) key (Some current)
     end → (∃ o, holds (w_db (c_world c')) key o) → agrees key (k r c').2) →
  agrees key ((let^ persisted := a_io (apply_transition_atomic (Some sg) current next) in
               let^ _ := settled_mutation persisted in k persisted) c).2.
Proof.
  intros Hc Hcur Hw Hk. unfold a_bind at 1, a_io.
  destruct (apply_transition_atomic _ _ _ _) as [r w'] eqn:Hat.
  destruct (persisted_agrees _ _ _ _ _ Hc Hcur Hw Hat) as [Hout Hany].
  unfold settled_mutation, a_bind.
  destruct r as [wr|err]; [by apply Hk|]. specialize (Hk (Err err)).
  destruct (outcome_unknown (Err err)); by apply Hk.
Qed.

Lemma recovery_agrees {A} c :
  (∃ o, holds (w_db (c_world c)) key o) → agrees key (recovery (A := A) c).2.
Proof. intros [o Ho]. by exists o. Qed.

Lemma persist_agrees prepared c :
  agrees key c →
  (∀ s, rt_runtime (c_state c) = Some s → writable s (prepared_state prepared)) →
  agrees key (persist_and_install sg prepared c).2.
Proof.
  intros Hc Hw. unfold persist_and_install.
  apply looks_seq; [apply looks_ensure|done|intros _ c1 _ Hc1 Hs1 _]. rewrite <-Hs1 in Hw.
  apply looks_seq; [apply looks_guard_client|done|intros before c2 _ Hc2 Hs2 _]. rewrite <-Hs2 in Hw.
  apply looks_seq; [done|done|intros _ c3 [= _ <-] _ _ _].
  unfold a_bind at 1.
  destruct (arm_with_state sg c2) as [[current|e] c4] eqn:Harm; cycle 1.
  { assert (keeps (agrees key) (arm_with_state sg)) as Hk by (unfold arm_with_state; keeps_auto).
    specialize (Hk _ Hc2). by rewrite Harm in Hk. }
  destruct (arm_with_state_Ok _ _ _ Harm) as (Hcur & Hs4 & Hd4).
  apply storage_seq; [|done|apply Hw; congruence|].
  { eapply agrees_change; [exact Hc2|done|left; by rewrite Hs4]. }
  intros r c5 Hs5 Hout Hany. destruct (outcome_unknown r) eqn:Hunk; [by apply recovery_agrees|].
  destruct (looks_ensure c5) as (Hs6 & _ & _ & Hd6).
  unfold a_bind at 1, a_try. revert Hs6 Hd6. generalize (ensure_session sg c5). intros [session c6] Hs6 Hd6.
  simpl in *. rewrite <-Hd6 in *. destruct session as [[]|]; [|by apply recovery_agrees].
  destruct r as [wr|err]; [by apply publish_agrees|]. exists (Some current). simpl. rewrite Hs6, Hs5.
  split; [by apply Hout|]. congruence.
Qed.
End persist.

(** ** Storage operations beside the state *)

Section beside.
Context `{!SurrealTypes, !Engine, !EngineLaws, !Host, !JsonFloatText, !JsonText, !JsonTextLaws, !StateSerde, !StateSerdeLaws, !Ciborium, !Sha256}.
Variable key : SyncStateKey.

(** The tables of the state: its metadata, its components and the first format. *)
Definition STATE_TABLES : list string := STATE_TABLE :: META_TABLE :: COMPONENT_TABLES.

Definition beside (r : rid) : Prop := r_table r ∉ STATE_TABLES.

Lemma component_rows_ext d d' comps :
  (∀ r, r_table r ∈ COMPONENT_TABLES → contents d' r = contents d r) → tabled comps →
  component_rows d key comps → component_rows d' key comps.
Proof.
  intros E Ht [Hp Ho]. split.
  - intros item p Hi. destruct (Hp _ _ Hi) as (v & ? & Hrow). exists v. split; [done|].
    rewrite E; [done|]. apply Ht. by exists p.
  - intros r x Hr Hx. rewrite E in Hx by done. by apply Ho.
Qed.

(** What the journal holds depends on the rows of the state tables, and on the metadata
    row only up to its fence. *)
Lemma holds_ext d d' o :
  (∀ r, r_table r ∈ STATE_TABLES → r ≠ meta_record_id key → contents d' r = contents d r) →
  (contents d' (meta_record_id key) = contents d (meta_record_id key) ∨
   ∃ m f f', contents d (meta_record_id key) = Some (RowMeta m f) ∧
     contents d' (meta_record_id key) = Some (RowMeta m f')) →
  holds d key o → holds d' key o.
Proof.
  intros E Hm [Hst Hrec].
  assert (∀ r, r_table r ∈ COMPONENT_TABLES → contents d' r = contents d r) as Ec.
  { intros r Hr. apply E; [by do 2 right|]. intros ->. revert Hr.
    by apply (bool_decide_unpack (META_TABLE ∉ COMPONENT_TABLES)). }
  split; cycle 1.
  { rewrite E; [done|by left|]. intros [Ht _]%array_rid_inj. done. }
  destruct o as [s|]; simpl in *.
  - destruct Hst as [Hk [(rows & Hn & Hr) Hv Hs]]. rewrite <-Hk in Hr. destruct Hr as [Hc [f Hf]].
    split; [done|]. split; [|done|done]. exists rows. rewrite <-Hk. split; [done|]. split.
    + eapply component_rows_ext; [done| |done]. by eapply stores_tabled.
    + destruct Hm as [->|(m & f1 & f2 & Hd & ->)]; [eauto|].
      rewrite Hf in Hd. injection Hd as <- <-. by exists f2.
  - destruct Hst as [Hc Hn]. split.
    + eapply component_rows_ext; [done|apply tabled_empty|done].
    + destruct Hm as [->|(m & f1 & f2 & Hd & _)]; [done|]. by rewrite Hn in Hd.
Qed.

Lemma holds_writes d d' o r v :
  beside r → writes (Some (r, v)) d d' → holds d key o → holds d' key o.
Proof.
  intros Hb [_ Hf]. apply holds_ext.
  - intros r' Ht _. apply Hf. by intros ->.
  - left. apply Hf. intros <-. apply Hb. by right; left.
Qed.

Lemma holds_fence d f u d' o :
  write_fence key f d = Ok (u, d') → holds d key o → holds d' key o.
Proof.
  unfold write_fence. intros Hw Hh. inv_ok.
  match goal with H : database _ = Ok _ |- _ => apply map_err_Ok, db_set_fence_Ok in H as [Hf Ho] end.
  revert Hh. apply holds_ext; [intros; by apply Ho|]. rewrite Hf.
  destruct (contents d (meta_record_id key)) as [[]|]; try (by left). right. by do 3 eexists.
Qed.

(** A transaction body that keeps what the journal holds. *)
Definition tx_holds {A} (m : tx A) : Prop :=
  ∀ d a d' o, m d = Ok (a, d') → holds d key o → holds d' key o.

Lemma tx_holds_ret {A} (a : A) : tx_holds (tx_ret a).
Proof. intros d a' d' o [= _ ->]%tx_ret_Ok. done. Qed.
Lemma tx_holds_err {A} e : tx_holds (A := A) (tx_err e).
Proof. by intros d a' d' o. Qed.
Lemma tx_holds_lift {A} (r : result A SyncStateError) : tx_holds (tx_lift r).
Proof. intros d a d' o (? & _ & [= _ ->])%tx_lift_Ok. done. Qed.
Lemma tx_holds_read {A} (f : db → result A SyncStateError) : tx_holds (tx_read f).
Proof. intros d a d' o (? & _ & [= _ ->])%tx_read_Ok. done. Qed.
Lemma tx_holds_bind {A B} (m : tx A) (k : A → tx B) :
  tx_holds m → (∀ a, tx_holds (k a)) → tx_holds (tx_bind m k).
Proof. intros Hm Hk d a d' o (? & ? & ? & ?)%tx_bind_Ok Hh. eapply Hk; [done|]. by eapply Hm. Qed.
Lemma tx_holds_upsert r x : beside r → tx_holds (tx_upsert r x).
Proof. intros Hb d a d' o Hu%tx_upsert_writes. by eapply holds_writes. Qed.
Lemma tx_holds_delete r : beside r → tx_holds (tx_delete r).
Proof. intros Hb d a d' o Hu%tx_delete_writes. by eapply holds_writes. Qed.
Lemma tx_holds_create r x : beside r → tx_holds (tx_create r x).
Proof.
  unfold tx_create. intros Hb d a d' o Hc%map_err_Ok. apply db_create_Ok in Hc as (_ & _ & ? & ?).
  by eapply holds_writes.
Qed.
Lemma tx_holds_fence f : tx_holds (write_fence key f).
Proof. intros d a d' o Hw. by eapply holds_fence. Qed.
Lemma tx_holds_define ts : tx_holds (tx_define ts).
Proof.
  unfold tx_define. intros d a d' o Hd. inv_ok.
  match goal with H : database _ = Ok _ |- _ => apply map_err_Ok in H; rename H into Hdef end.
  intros Hh. assert (same d' d) as -> by (intros r; by eapply db_define_Ok). done.
Qed.
Lemma tx_holds_for_each {A} (f : A → tx unit) l :
  (∀ x, tx_holds (f x)) → tx_holds (tx_for_each f l).
Proof.
  intros Hf. induction l; simpl; [apply tx_holds_ret|]. apply tx_holds_bind; [apply Hf|done].
Qed.

Lemma in_transaction_holds {A} sg (op : tx A) w o :
  tx_holds op → holds (w_db w) key o → holds (w_db (in_transaction sg op w).2) key o.
Proof.
  intros Hop Hh. destruct (in_transaction sg op w) as [r w'] eqn:Hr.
  apply in_transaction_outcome in Hr. simpl.
  destruct Hr as [t a t' Ht Ha Hw|e Hw|t a t' Ht Ha Hw]; rewrite Hw; try done;
    (eapply Hop; [done|]; by rewrite Ht).
Qed.

Lemma keeps_in_read_transaction {A} (f : db → result A SyncStateError) w o :
  holds (w_db w) key o → holds (w_db (in_read_transaction f w).2) key o.
Proof.
  intros Hh. unfold in_read_transaction, io_bind. pose proof (keeps_begin w) as Hk.
  destruct (begin_transaction w) as [[t|e] w1]; simpl in *; [|by rewrite Hk].
  destruct (db_cancel (w_db w1) t) as [r d] eqn:Hc. simpl.
  assert (same d (w_db w1)) as -> by (intros x; by eapply db_cancel_any). by rewrite Hk.
Qed.
End beside.

Create HintDb tx_holds.
#[export] Hint Resolve tx_holds_ret tx_holds_err tx_holds_lift tx_holds_read tx_holds_fence tx_holds_define : tx_holds.
Ltac tx_holds_step :=
  first
    [ progress eauto with tx_holds
    | match goal with
      | |- tx_holds _ (tx_bind _ _) => apply tx_holds_bind; [|intros ?]
      | |- tx_holds _ (tx_for_each _ _) => apply tx_holds_for_each; intros ?
      | |- tx_holds _ (tx_upsert _ _) =>
          apply tx_holds_upsert; by apply (bool_decide_unpack _)
      | |- tx_holds _ (tx_delete _) => apply tx_holds_delete; by apply (bool_decide_unpack _)
      | |- tx_holds _ (tx_create _ _) => apply tx_holds_create; by apply (bool_decide_unpack _)
      | |- tx_holds _ (if decide ?P then _ else _) => destruct (decide P)
      | |- tx_holds _ (if ?b then _ else _) => destruct b
      | |- tx_holds _ (match ?x with _ => _ end) => destruct x
      end ].
Ltac tx_holds_auto := repeat tx_holds_step.

Section beside_ops.
Context `{!SurrealTypes, !Engine, !EngineLaws, !Host, !JsonFloatText, !JsonText, !JsonTextLaws, !StateSerde, !StateSerdeLaws, !Ciborium, !Sha256}.

Lemma tx_holds_barrier key barrier :
  tx_holds key (let@ _ := guard_barrier_write key in upsert_barrier key barrier).
Proof. unfold guard_barrier_write, upsert_barrier, tx_select. tx_holds_auto. Qed.

Lemma save_scope_barrier_holds sg key barrier w o :
  holds (w_db w) key o → holds (w_db (save_scope_barrier sg key barrier w).2) key o.
Proof.
  intros Hh. unfold save_scope_barrier, io_bind, io_lift.
  destruct (validate_key key); [|done]. destruct (validate_scope_barrier (Some barrier)); [|done].
  apply in_transaction_holds; [apply tx_holds_barrier|done].
Qed.

Lemma tx_holds_begin start manifest decoded expected :
  tx_holds (context_key expected) (begin_in_transaction start manifest decoded expected).
Proof. unfold begin_in_transaction, fence_first_barrier. tx_holds_auto. Qed.

Lemma tx_holds_stage_page raw page expected incarnation :
  tx_holds (context_key expected) (stage_page_in_transaction raw page expected incarnation).
Proof. unfold stage_page_in_transaction. tx_holds_auto. Qed.

Lemma tx_holds_cancel manifest expected incarnation :
  tx_holds (context_key expected) (cancel_in_transaction manifest expected incarnation).
Proof.
  unfold cancel_in_transaction, delete_pages, write_inactive_fence. tx_holds_auto.
Qed.
End beside_ops.
