(* ===== verification/ClientSteps.v ===== *)
(** * Every operation of the native client keeps its two states in agreement.

    [native_op] lists the operations of an open client ([sync_client.rs],
    [sync_bootstrap.rs]), [step] runs one of them, [prepared_by] names the transitions it
    may prepare.  The file proves [agrees] for each of them and for every sequence. *)

From Stdlib Require Import Strings.Byte.
From S2P Require Import Prelude Protocol Subscription ClientState SubscriptionState Validate Client SubscriptionClient Read Canonical HttpCodec BootstrapCodec SubscriptionCodec NativeErrors Json Wire NativeCodec Engine StateRows StateLoad Stage StateStore StageStore Queue ReadJournal SubscriptionJournal View NativeClient NativeOps NativeBootstrap StateProps StoreProps ClientCoherence.

Set Default Proof Using "Type*".

Section steps.
Context `{!SurrealTypes, !Engine, !EngineLaws, !Host, !JsonFloatText, !JsonText, !JsonTextLaws, !StateSerde, !StateSerdeLaws, !Ciborium, !Sha256, !BridgeSerde}.
Variable key : SyncStateKey.
Variable sg : N.

Abbreviation ok c := (agrees key c).

(** ** Transitions *)

(** A client that is consulted, then the rest of the operation on its state. *)
Lemma client_seq {A} (k : StoredSyncState → act NativeSyncError A) c :
  ok c →
  (∀ s c1, ok c1 → rt_runtime (c_state c1) = Some s → rt_runtime (c_state c) = Some s →
     ok (k s c1).2) →
  ok (a_bind (guard_client sg) k c).2.
Proof.
  intros Hc Hk. apply looks_seq; [apply looks_guard_client|done|].
  intros s c1 Hg Hc1 Hs _. destruct (guard_client_Ok _ _ _ _ Hg) as (Hrt & _). apply Hk; congruence.
Qed.

Lemma lift_seq {E A B} (r : result A E) (k : A → act E B) c :
  ok c → (∀ a, r = Ok a → ok (k a c).2) → ok (a_bind (a_lift r) k c).2.
Proof. intros Hc Hk. unfold a_bind, a_lift. destruct r; [by apply Hk|done]. Qed.

Lemma map_err_ok {E F A} (f : E → F) (m : act E A) c : ok (m c).2 → ok (a_map_err f m c).2.
Proof. done. Qed.

(** The barrier is refreshed: the runtime stays or is dropped. *)
Lemma load_scope_barrier_db k : keeps_db (load_scope_barrier k).
Proof.
  unfold load_scope_barrier. apply keeps_bind; [apply keeps_lift|intros _].
  apply keeps_bind; [apply keeps_map_err, keeps_database_client|intros _].
  apply keeps_bind; [apply keeps_read|intros b]. by apply keeps_bind.
Qed.
Lemma keeps_refresh : keeps (agrees key) (refresh_scope_barrier sg).
Proof.
  unfold refresh_scope_barrier. keeps_auto. apply keeps_io_db, load_scope_barrier_db.
Qed.
Hint Resolve keeps_refresh : keeps.

Lemma refresh_Ok c c1 :
  refresh_scope_barrier sg c = (Ok tt, c1) → rt_runtime (c_state c1) = rt_runtime (c_state c).
Proof.
  unfold refresh_scope_barrier. intros [(? & ? & _ & [=])|([] & c2 & He & Hr)]%a_bind_inv.
  pose proof (looks_ensure sg c) as (Hs & _). rewrite He in Hs. simpl in Hs. rewrite <-Hs.
  apply a_bind_inv in Hr as [(? & ? & [=] & _)|(r & c3 & [= <- <-] & Hr)].
  apply a_bind_inv in Hr as [(? & ? & [=] & [=])|(s & c3 & [= _ <-] & Hr)].
  unfold a_bind at 1, a_io in Hr.
  destruct (load_scope_barrier _ _) as [[[b|]|e] w]; try done; by injection Hr as <-.
Qed.

Lemma refresh_seq {A} (k : unit → act NativeSyncError A) c :
  ok c →
  (∀ c1, ok c1 → rt_runtime (c_state c1) = rt_runtime (c_state c) → ok (k tt c1).2) →
  ok (a_bind (refresh_scope_barrier sg) k c).2.
Proof.
  intros Hc Hk. pose proof (keeps_refresh c Hc) as Hr. unfold a_bind.
  destruct (refresh_scope_barrier sg c) as [[[]|e] c1] eqn:He; simpl in *; [|done].
  apply Hk; [done|]. by apply refresh_Ok.
Qed.

Lemma read_client_seq {A} (k : StoredSyncState → act NativeSyncError A) c :
  ok c →
  (∀ s c1, ok c1 → rt_runtime (c_state c1) = Some s → rt_runtime (c_state c) = Some s →
     ok (k s c1).2) →
  ok (a_bind (guard_read_client sg) k c).2.
Proof.
  intros Hc Hk.
  assert (looks (guard_read_client sg)) as Hl.
  { unfold guard_read_client. apply looks_bind; [apply looks_ensure|intros _]. by apply looks_bind. }
  apply looks_seq; [done|done|]. intros s c1 Hg Hc1 Hs _.
  assert (rt_runtime (c_state c1) = Some s) as Hrt; [|apply Hk; congruence].
  unfold guard_read_client in Hg.
  apply a_bind_inv in Hg as [(? & ? & _ & [=])|([] & c2 & He & Hg)].
  unfold a_bind, a_state, a_lift in Hg. injection Hg as Hg <-.
  unfold state_read_client in Hg. apply result_bind_Ok in Hg as (s' & Hst & Hg).
  unfold state_client in Hst. apply ok_or_Ok in Hst. rewrite Hst.
  destruct (rt_scope_blocked _) as [[]|]; congruence.
Qed.

(** [transition] with a preparation whose results are writable. *)
Lemma transition_ok prepare c :
  ok c →
  (∀ s p, rt_runtime (c_state c) = Some s → prepare s = Ok p → writable s (prepared_state p)) →
  ok (transition sg prepare c).2.
Proof.
  intros Hc Hw. unfold transition. apply client_seq; [done|]. intros s c1 Hc1 Hs1 Hs.
  apply lift_seq; [done|]. intros p Hp%map_err_Ok. apply persist_agrees; [done|].
  intros s' Hs'. assert (s' = s) as -> by congruence. by eapply Hw.
Qed.

Lemma prepared_ok prepared s c :
  ok c → rt_runtime (c_state c) = Some s → writable s (prepared_state prepared) →
  ok (persist_and_install sg prepared c).2.
Proof. intros Hc Hs Hw. apply persist_agrees; [done|]. intros s' Hs'. by simplify_eq. Qed.

(** ** The operations *)

Inductive native_op :=
| OpOpen (options : NativeSyncOpenOptions) (mode : OpenMode)
| OpEnqueue (commit_json : string)
| OpEnqueueBounded (commit_json : string) (count bytes : N)
| OpPushResponse (response_json : string) (policy : NativeConflictPolicy)
| OpPullResponse (response_json : string)
| OpKeepServer (conflicted : string)
| OpKeepLocal (conflicted replacement : string)
| OpMerge (conflicted replacement_json : string)
| OpStartSubscription (request_json : string)
| OpCancelSubscription (subscription_id : string) (generation : N)
| OpSubscriptionResponse (response_json : string)
| OpReadView (token request_json : string)
| OpRefreshedRead (f : StoredSyncState → RuntimeState → result string fault)
| OpBindBootstrap (expected : NativeBootstrapContext) (binding : nat)
| OpBootstrapBegin (session : NativeBootstrapSession) (start manifest : list byte)
| OpBootstrapPage (session : NativeBootstrapSession) (stage : NativeBootstrapStage)
    (page : list byte)
| OpBootstrapCancel (session : NativeBootstrapSession) (stage : NativeBootstrapStage)
| OpBootstrapComplete (session : NativeBootstrapSession) (stage : NativeBootstrapStage)
    (receipt : list byte) (clock : NativeClock) (during : nat → Observation) (readings : nat).

(** The cell after an operation. *)
Definition step (op : native_op) (c : cell) : cell :=
  match op with
  | OpOpen options mode =>
      (run_mutation sg id (locked (initialize_runtime sg options mode)) c).2
  | OpEnqueue json => (enqueue sg json c).2
  | OpEnqueueBounded json count bytes => (enqueue_bounded sg json count bytes c).2
  | OpPushResponse json policy => (record_push_response_with_policy sg json policy c).2
  | OpPullResponse json => (apply_pull_response sg json c).2
  | OpKeepServer id' => (resolve_conflict_keep_server sg id' c).2
  | OpKeepLocal id' r => (resolve_conflict_keep_local sg id' r c).2
  | OpMerge id' json => (resolve_conflict_merge sg id' json c).2
  | OpStartSubscription json => (start_subscription_json sg json c).2
  | OpCancelSubscription id' g => (cancel_subscription sg id' g c).2
  | OpSubscriptionResponse json => (apply_subscription_response_json sg json c).2
  | OpReadView token json => (locked (read_view_json sg token json) c).2
  | OpRefreshedRead f => (locked (refreshed_read sg f) c).2
  | OpBindBootstrap expected binding => (bind_bootstrap_session sg expected binding c).2
  | OpBootstrapBegin session start manifest => (session_begin sg session start manifest c).2
  | OpBootstrapPage session stage page => (session_page sg session stage page c).2
  | OpBootstrapCancel session stage => (session_cancel sg session stage c).2
  | OpBootstrapComplete session stage receipt clock during readings =>
      (session_complete sg session stage receipt clock during readings c).2
  end.

(** The transitions an operation may prepare from the installed state [s], over the
    database [d]. *)
Inductive prepared_by (d : db) : native_op → StoredSyncState → PreparedTransition JsonValue → Prop :=
| pb_enqueue json commit f s p :
    decode_input json = Ok commit → prepare_enqueue s (set_fingerprint commit f) = Ok p →
    prepared_by d (OpEnqueue json) s p
| pb_enqueue_bounded json count bytes commit f s p :
    decode_input json = Ok commit → prepare_enqueue s (set_fingerprint commit f) = Ok p →
    prepared_by d (OpEnqueueBounded json count bytes) s p
| pb_push json policy response s p :
    decode_input (T := PushResponse JsonValue) json = Ok response →
    prepare_push_response_with_policy s response (automatic_policy policy) = Ok p →
    prepared_by d (OpPushResponse json policy) s p
| pb_pull json response s p :
    decode_input (T := PullResponse JsonValue) json = Ok response →
    prepare_pull_response s response = Ok p → prepared_by d (OpPullResponse json) s p
| pb_keep_server id s p :
    prepare_resolve_conflict s id ReqKeepServer = Ok p → prepared_by d (OpKeepServer id) s p
| pb_keep_local id replacement ops f s p :
    prepare_resolve_conflict s id
      (ReqKeepLocal (set_fingerprint (mkCommit (mkIdentity replacement "") ops) f)) = Ok p →
    prepared_by d (OpKeepLocal id replacement) s p
| pb_merge id json replacement f s p :
    decode_input json = Ok replacement →
    prepare_resolve_conflict s id (ReqMerge (set_fingerprint replacement f)) = Ok p →
    prepared_by d (OpMerge id json) s p
| pb_start json request s p :
    parse_request json = Ok request → prepare_start_subscription s request = Ok p →
    prepared_by d (OpStartSubscription json) s p
| pb_cancel id generation s p :
    prepare_cancel_subscription s id generation = Ok p →
    prepared_by d (OpCancelSubscription id generation) s p
| pb_response json response s p :
    parse_response json = Ok response → prepare_subscription_response s response = Ok p →
    prepared_by d (OpSubscriptionResponse json) s p
| pb_response_cancel json response s p :
    parse_response json = Ok response →
    prepare_cancel_subscription s (sr_subscription_id response) (sr_generation response) = Ok p →
    prepared_by d (OpSubscriptionResponse json) s p
| pb_complete session stage bytes clock during readings t budget staged clk receipt records k s p :
    same t d →
    inspect_stage (context_key (bse_expected session)) t = Ok (budget, Some staged) →
    decode_bootstrap_receipt bytes = Ok receipt → verify_pages clk staged = Ok (records, k) →
    prepare_bootstrap_snapshot s (br_checkpoint receipt) records = Ok p →
    prepared_by d (OpBootstrapComplete session stage bytes clock during readings) s p.

(** Everything the operation would store reads back and stays outside the journal's
    tables; a client is opened for its own journal. *)
Definition op_writable (op : native_op) (c : cell) : Prop :=
  (∀ s p, rt_runtime (c_state c) = Some s → prepared_by (w_db (c_world c)) op s p →
     writable s (prepared_state p)) ∧
  match op with
  | OpOpen options _ => options_key options = key ∧ storable_state (initial_state options)
  | _ => True
  end.

(** Admission and the lock pass the condition on to the operation itself. *)
Lemma run_ok {E A} from (m : act E A) c :
  ok c →
  (∀ c', ok c' → rt_runtime (c_state c') = rt_runtime (c_state c) →
     w_db (c_world c') = w_db (c_world c) → ok (m c').2) →
  ok (run_mutation sg from m c).2.
Proof.
  intros Hc Hm. unfold run_mutation. destruct (looks_ensure sg c) as (Hs & _ & _ & Hd).
  pose proof (keeps_ensure key sg c Hc) as Hk.
  unfold a_bind, a_map_err. revert Hs Hd Hk. generalize (ensure_session sg c).
  intros [[u|e] c1] Hs Hd Hk; simpl in *; [|done]. apply Hm; congruence.
Qed.

Lemma locked_ok {E A} (m : act E A) c :
  ok c →
  (∀ c', ok c' → rt_runtime (c_state c') = rt_runtime (c_state c) →
     w_db (c_world c') = w_db (c_world c) → ok (m c').2) →
  ok (locked m c).2.
Proof.
  intros Hc Hm. unfold locked.
  specialize (Hm (mkCell (c_state c) (c_poisoned c) Clean (c_world c))).
  destruct (m _) as [r c1]. by apply agrees_drop, Hm.
Qed.

Lemma run_locked_ok {E A} from (m : act E A) c :
  ok c →
  (∀ c', ok c' → rt_runtime (c_state c') = rt_runtime (c_state c) →
     w_db (c_world c') = w_db (c_world c) → ok (m c').2) →
  ok (run_mutation sg from (locked m) c).2.
Proof.
  intros Hc Hm. apply run_ok; [done|]. intros c1 ? Hs1 Hd1. apply locked_ok; [done|].
  intros c2 ? Hs2 Hd2. apply Hm; congruence.
Qed.

(** *** Local commits, responses and conflicts *)

Lemma a_bind_assoc {E A B C} (m : act E A) (k : A → act E B) (l : B → act E C) c :
  a_bind (a_bind m k) l c = a_bind m (λ a, a_bind (k a) l) c.
Proof. unfold a_bind. by destruct (m c) as [[a|e] c1]. Qed.

Lemma enqueue_ok json c :
  ok c → op_writable (OpEnqueue json) c → ok (enqueue_owned sg json c).2.
Proof.
  intros Hc [Hw _]. unfold enqueue_owned, with_fingerprint.
  apply lift_seq; [done|]. intros commit Hcommit. rewrite a_bind_assoc.
  apply client_seq; [done|]. intros s c1 Hc1 Hs1 Hs. rewrite a_bind_assoc.
  apply lift_seq; [done|]. intros f Hf. apply transition_ok; [done|].
  intros s' p Hs' Hp. simplify_eq. eapply Hw; [done|]. by econstructor.
Qed.

Lemma enqueue_bounded_ok json count bytes c :
  ok c → op_writable (OpEnqueueBounded json count bytes) c →
  ok (enqueue_bounded_owned sg json count bytes c).2.
Proof.
  intros Hc [Hw _]. unfold enqueue_bounded_owned.
  apply lift_seq; [done|intros _ _]. apply lift_seq; [done|intros commit Hcommit].
  apply client_seq; [done|]. intros s c1 Hc1 Hs1 Hs. apply lift_seq; [done|intros f Hf].
  destruct (prior_commit s _); [by case_decide|].
  apply lift_seq; [done|intros _ _]. apply transition_ok; [done|].
  intros s' p Hs' Hp. simplify_eq. eapply Hw; [done|]. by econstructor.
Qed.

Lemma push_ok json policy c :
  ok c → op_writable (OpPushResponse json policy) c →
  ok (record_push_response_with_policy_owned sg json policy c).2.
Proof.
  intros Hc [Hw _]. unfold record_push_response_with_policy_owned.
  apply lift_seq; [done|intros response Hr]. apply lift_seq; [done|intros _ _].
  apply transition_ok; [done|]. intros s p Hs Hp. eapply Hw; [done|]. by econstructor.
Qed.

(** Persisting a barrier keeps the agreement and, when it succeeds, the runtime. *)
Lemma persist_barrier_seq {A} block scope (k : unit → act NativeSyncError A) c :
  ok c →
  (∀ c1, ok c1 → rt_runtime (c_state c1) = rt_runtime (c_state c) → ok (k tt c1).2) →
  ok (a_bind (persist_barrier sg block scope) k c).2.
Proof.
  intros Hc Hk. unfold persist_barrier. rewrite a_bind_assoc.
  apply client_seq; [done|]. intros s c1 Hc1 Hs1 Hs.
  pose proof Hc1 as (o & Ho & Hr). specialize (Hr _ Hs1) as ->. pose proof Ho as [[Hkey _] _].
  pose proof (save_scope_barrier_holds (Some sg) key (scope_barrier block scope)
    (c_world c1) _ Ho) as Hh.
  unfold a_bind, a_io, arm_mutation, a_phase, settled_mutation. simpl. rewrite <-Hkey.
  destruct (save_scope_barrier _ _ _ _) as [r w]. simpl in Hh.
  assert (∀ c2, w_db (c_world c2) = w_db w →
    rt_runtime (c_state c2) = Some s ∨ rt_runtime (c_state c2) = None → ok c2) as Hfin.
  { intros c2 Hw Hs2. exists (Some s). rewrite Hw. split; [done|]. intros s2 Hs2'.
    destruct Hs2 as [E|E]; rewrite E in Hs2'; congruence. }
  destruct (outcome_unknown r); destruct r as [[]|e]; simpl;
    try (apply Hfin; [done|by right]); (apply Hk; [apply Hfin; [done|by left]|simpl; congruence]).
Qed.

Lemma blocked_seq {A} b (k : unit → act NativeSyncError A) c :
  ok c →
  (∀ c1, ok c1 → rt_runtime (c_state c1) = rt_runtime (c_state c) → ok (k tt c1).2) →
  ok (a_bind (a_update (set_scope_blocked b)) k c).2.
Proof. intros Hc Hk. apply Hk; [|done]. by apply (keeps_blocked key (E := NativeSyncError) b c). Qed.

Lemma pull_ok json c :
  ok c → op_writable (OpPullResponse json) c → ok (apply_pull_response_owned sg json c).2.
Proof.
  intros Hc [Hw _]. unfold apply_pull_response_owned.
  apply lift_seq; [done|intros response Hr]. apply lift_seq; [done|intros _ _].
  apply client_seq; [done|]. intros s c1 Hc1 Hs1 Hs.
  destruct (prepare_pull_response s response) as [p|e] eqn:Hp.
  { eapply prepared_ok; [done|done|]. eapply Hw; [done|]. by econstructor. }
  apply keeps_a_bind; [|intros _|done].
  { destruct (block_of_error e); keeps_auto. }
  apply keeps_a_bind; [keeps_auto|intros blocked]. apply keeps_a_bind; [|intros _; keeps_auto].
  destruct blocked as [b|]; [|keeps_auto]. destruct (pull_required_scope response); [|keeps_auto].
  intros c2 Hc2. apply persist_barrier_seq; [done|]. intros c3 Hc3 _. by apply keeps_disarm.
Qed.

Lemma keep_server_ok id c :
  ok c → op_writable (OpKeepServer id) c → ok (resolve_conflict_keep_server_owned sg id c).2.
Proof.
  intros Hc [Hw _]. apply transition_ok; [done|]. intros s p Hs Hp.
  eapply Hw; [done|]. by econstructor.
Qed.

Lemma keep_local_ok id replacement c :
  ok c → op_writable (OpKeepLocal id replacement) c →
  ok (resolve_conflict_keep_local_owned sg id replacement c).2.
Proof.
  intros Hc [Hw _]. unfold resolve_conflict_keep_local_owned.
  apply client_seq; [done|]. intros s c1 Hc1 Hs1 Hs.
  apply lift_seq; [done|]. intros [[local record] auth] _.
  apply lift_seq; [done|intros ops _]. apply lift_seq; [done|intros f _].
  apply lift_seq; [done|intros p Hp%map_err_Ok].
  eapply prepared_ok; [done|done|]. eapply Hw; [done|]. by econstructor.
Qed.

Lemma merge_ok id json c :
  ok c → op_writable (OpMerge id json) c → ok (resolve_conflict_merge_owned sg id json c).2.
Proof.
  intros Hc [Hw _]. unfold resolve_conflict_merge_owned.
  apply lift_seq; [done|intros replacement Hr].
  apply client_seq; [done|]. intros s c1 Hc1 Hs1 Hs. apply lift_seq; [done|intros f _].
  apply lift_seq; [done|intros p Hp%map_err_Ok].
  eapply prepared_ok; [done|done|]. eapply Hw; [done|]. by econstructor.
Qed.

(** *** Subscriptions and reads *)

Lemma start_ok json c :
  ok c → op_writable (OpStartSubscription json) c → ok (start_subscription_json_owned sg json c).2.
Proof.
  intros Hc [Hw _]. unfold start_subscription_json_owned.
  apply lift_seq; [done|intros request Hr]. apply map_err_ok.
  apply refresh_seq; [done|intros c1 Hc1 Hs1].
  apply read_client_seq; [done|]. intros s c2 Hc2 Hs2 Hs. rewrite Hs1 in Hs.
  apply lift_seq; [done|intros p Hp%map_err_Ok].
  eapply prepared_ok; [done|done|]. eapply Hw; [done|]. by econstructor.
Qed.

Lemma cancel_subscription_ok id generation c :
  ok c → op_writable (OpCancelSubscription id generation) c →
  ok (cancel_subscription_owned sg id generation c).2.
Proof.
  intros Hc [Hw _]. unfold cancel_subscription_owned.
  apply refresh_seq; [done|intros c1 Hc1 Hs1]. apply transition_ok; [done|].
  intros s p Hs Hp. eapply Hw; [by rewrite <-Hs1|]. by econstructor.
Qed.

Lemma response_ok json c :
  ok c → op_writable (OpSubscriptionResponse json) c →
  ok (apply_subscription_response_json_owned sg json c).2.
Proof.
  intros Hc [Hw _]. unfold apply_subscription_response_json_owned.
  apply lift_seq; [done|intros response Hr]. apply map_err_ok.
  unfold apply_subscription_response_owned.
  apply refresh_seq; [done|intros c1 Hc1 Hs1].
  apply read_client_seq; [done|]. intros s c2 Hc2 Hs2 Hs. rewrite Hs1 in Hs.
  destruct (prepare_subscription_response s response) as [p|e] eqn:Hp.
  { eapply prepared_ok; [done|done|]. eapply Hw; [done|]. by eapply pb_response. }
  destruct (block_of_error e) as [b|]; [|done].
  apply blocked_seq; [done|intros c3 Hc3 Hs3].
  apply persist_barrier_seq; [done|intros c4 Hc4 Hs4].
  assert (ok (transition sg (λ s, prepare_cancel_subscription s (sr_subscription_id response)
    (sr_generation response)) c4).2) as Ht.
  { apply transition_ok; [done|]. intros s' p Hs' Hp'. assert (s' = s) as -> by congruence.
    eapply Hw; [done|]. by eapply pb_response_cancel. }
  unfold a_bind. by destruct (transition _ _ c4) as [[]].
Qed.

Lemma keeps_refreshed_read {A} (f : StoredSyncState → RuntimeState → result A fault) :
  keeps (agrees key) (refreshed_read sg f).
Proof. unfold refreshed_read. keeps_auto. Qed.
Hint Resolve keeps_refreshed_read : keeps.

Lemma keeps_read_view token json : keeps (agrees key) (read_view_json sg token json).
Proof.
  unfold read_view_json. keeps_auto; apply keeps_update; by left.
Qed.
End steps.
