(* ===== verification/ClientOpen.v ===== *)
(** * Opening a client and completing a bootstrap.

    The two operations that install a state they did not prepare: [initialize_runtime]
    installs what it has read or saved, [complete_bootstrap_bound] what it has read back
    after the completion.  Both keep the agreement of the installed and the stored state. *)

From Stdlib Require Import Strings.Byte.
From S2P Require Import Prelude Protocol Subscription ClientState SubscriptionState Validate Client SubscriptionClient Read Canonical HttpCodec BootstrapCodec SubscriptionCodec NativeErrors Json Wire NativeCodec Engine StateRows StateLoad Stage StateStore StageStore Queue ReadJournal SubscriptionJournal View NativeClient NativeOps NativeBootstrap StateProps StoreProps ClientCoherence ClientSteps.

Set Default Proof Using "Type*".

(** ** Triples over the cell *)

Section triple.
Context `{!SurrealTypes, !Engine, !Host}.

(** From [P], a success ends in [Q] of its value, a failure in [R]. *)
Definition triple {E A} (P : cell → Prop) (m : act E A) (Q : A → cell → Prop)
    (R : cell → Prop) : Prop :=
  ∀ c, P c → match m c with (Ok a, c') => Q a c' | (Err _, c') => R c' end.

Lemma triple_bind {E A B} (P R : cell → Prop) (m : act E A) (k : A → act E B) Q Q' :
  triple P m Q R → (∀ a, triple (Q a) (k a) Q' R) → triple P (a_bind m k) Q' R.
Proof.
  intros Hm Hk c Hc. specialize (Hm c Hc). unfold a_bind. destruct (m c) as [[a|e] c1]; [|done].
  by apply Hk.
Qed.
Lemma triple_lift {E A} (P R : cell → Prop) (r : result A E) :
  (∀ c, P c → R c) → triple P (a_lift r) (λ a c, r = Ok a ∧ P c) R.
Proof. intros HR c Hc. unfold a_lift. destruct r; [done|by apply HR]. Qed.
Lemma triple_ret {E A} (P R : cell → Prop) (a : A) :
  triple (E := E) P (a_ret a) (λ a' c, a' = a ∧ P c) R.
Proof. by intros c Hc. Qed.
Lemma triple_err {E A} (P R : cell → Prop) (e : E) Q :
  (∀ c, P c → R c) → triple (A := A) P (a_err e) Q R.
Proof. intros HR c Hc. by apply HR. Qed.
Lemma triple_weaken {E A} (P P' R R' : cell → Prop) (m : act E A) Q Q' :
  triple P' m Q' R' → (∀ c, P c → P' c) → (∀ a c, Q' a c → Q a c) → (∀ c, R' c → R c) →
  triple P m Q R.
Proof.
  intros Hm HP HQ HR c Hc. specialize (Hm c (HP _ Hc)). destruct (m c) as [[]]; auto.
Qed.
(** A program that keeps an invariant. *)
Lemma triple_keeps {E A} (P R : cell → Prop) (m : act E A) :
  keeps P m → (∀ c, P c → R c) → triple P m (λ _, P) R.
Proof. intros Hm HR c Hc. specialize (Hm c Hc). destruct (m c) as [[]]; simpl in *; auto. Qed.
Lemma triple_pre {E A} (P P' R : cell → Prop) (m : act E A) Q :
  triple P' m Q R → (∀ c, P c → P' c) → triple P m Q R.
Proof. intros Hm HP. by eapply triple_weaken. Qed.
Lemma triple_post {E A} (P I : cell → Prop) (m : act E A) c :
  triple P m (λ _, I) I → P c → I (m c).2.
Proof. intros Hm Hc. specialize (Hm c Hc). by destruct (m c) as [[]]. Qed.
End triple.

Section open.
Context `{!SurrealTypes, !Engine, !EngineLaws, !Host, !JsonFloatText, !JsonText, !JsonTextLaws, !StateSerde, !StateSerdeLaws, !Ciborium, !Sha256, !BridgeSerde}.
Variable key : SyncStateKey.
Variable sg : N.

(** ** Reading the journal *)

Lemma load_holds o w r w' :
  holds (w_db w) key o → load (Some sg) key w = (r, w') →
  w_db w' = w_db w ∧ ∀ x, r = Ok x → x = o.
Proof.
  intros [Hst Hrec]. unfold load. intros [(? & ? & [= _ <-] & [= -> ->])|(? & ? & [= _ <-] & Hr)]%io_bind_inv;
    [done|].
  pose proof (keeps_map_err CoreError _ keeps_database_client w) as Hk.
  apply io_bind_inv in Hr as [(e & w1 & Hc & [= -> ->])|(u & w1 & Hc & Hr)];
    rewrite Hc in Hk; simpl in Hk; [done|]. rewrite <-Hk in Hst, Hrec |- *.
  unfold io_bind at 1, io_read in Hr.
  destruct (load_stored Direct (w_db w1) key o (sees_direct _) Hst) as [He|[He _]]; rewrite He in Hr;
    [|injection Hr as <- <-; naive_solver].
  destruct o as [s|]; [injection Hr as <- <-; naive_solver|].
  unfold io_bind, select_as in Hr. destruct (db_select (w_db w1) (record_id key)) as [row|] eqn:Hx;
    simpl in Hr; [|injection Hr as <- <-; naive_solver].
  apply db_select_Ok in Hx. rewrite Hrec in Hx. subst row. injection Hr as <- <-; naive_solver.
Qed.

Lemma inspect_known_holds tables o d x :
  sees (Inspection tables) d → holds d key o → inspect_known_tables tables key d = Ok x → x.1 = o.
Proof.
  intros Hsees [Hst Hrec] Hi. unfold inspect_known_tables in Hi.
  apply result_bind_Ok in Hi as (? & _ & Hi). apply result_bind_Ok in Hi as (? & _ & Hi).
  apply result_bind_Ok in Hi as (st & Hload & Hi).
  apply result_bind_Ok in Hi as (legacy & Hleg & Hi).
  assert (legacy = None) as ->.
  { destruct (decide (STATE_TABLE ∈ tables)); [|by injection Hleg as <-].
    unfold select_as in Hleg. apply result_bind_Ok in Hleg as (y & Hy & Hleg).
    apply map_err_Ok, db_select_Ok in Hy. rewrite Hrec in Hy. subst y. by injection Hleg as <-. }
  destruct (load_stored (Inspection tables) d key o Hsees Hst) as [He|[He _]];
    rewrite He in Hload; [|done]. injection Hload as <-.
  apply result_bind_Ok in Hi as (st' & Hst' & Hi).
  assert (st' = o) as -> by (destruct o; by injection Hst').
  apply result_bind_Ok in Hi as (? & _ & Hi). apply result_bind_Ok in Hi as (? & _ & Hi).
  clear Hleg. case_decide; [done|]. by injection Hi as <-.
Qed.

Lemma inspect_transaction_holds o d x :
  holds d key o → inspect_transaction key d = Ok x → x.1 = o.
Proof.
  intros Hh Hi. unfold inspect_transaction in Hi.
  apply result_bind_Ok in Hi as (? & _ & Hi). apply result_bind_Ok in Hi as (info & Hinfo & Hi).
  apply map_err_Ok in Hinfo. destruct info as [tables|]; cycle 1.
  { injection Hi as <-. simpl. destruct Hh as [Hst _]. destruct o as [s|]; [|done].
    destruct Hst as [-> [(rows & _ & [_ [f Hm]]) _ _]].
    by destruct (db_info_Ok _ _ _ _ Hinfo Hm) as (? & [=] & _). }
  by eapply inspect_known_holds; [apply sees_inspection| |].
Qed.

Lemma inspect_holds o w r w' :
  holds (w_db w) key o → inspect key w = (r, w') →
  holds (w_db w') key o ∧ ∀ x, r = Ok x → x.1 = o.
Proof.
  intros Hh. unfold inspect.
  intros [(? & ? & [= _ <-] & [= -> ->])|(? & ? & [= _ <-] & Hr)]%io_bind_inv; [done|].
  split; [|clear x].
  { pose proof (keeps_in_read_transaction key (inspect_transaction key) w o Hh) as Hk.
    by rewrite Hr in Hk. }
  intros x ->. unfold in_read_transaction in Hr.
  apply io_bind_inv in Hr as [(? & ? & _ & [=])|(t & w1 & Hb & Hr)].
  assert (same t (w_db w)) as Ht.
  { unfold begin_transaction in Hb.
    apply io_bind_inv in Hb as [(? & ? & _ & [=])|(u & w2 & Hc & Hb)].
    pose proof (keeps_map_err CoreError _ keeps_database_client w) as Hk. rewrite Hc in Hk.
    simpl in Hk. injection Hb as Hb _. apply map_err_Ok in Hb. rewrite <-Hk.
    intros y. by eapply db_begin_Ok. }
  destruct (db_cancel (w_db w1) t) as [[[]|] d]; [|done]. injection Hr as Hr _.
  eapply inspect_transaction_holds; [|done]. by rewrite Ht.
Qed.

Lemma open_define_same w : same (w_db (define_schema (Some sg) w).2) (w_db w).
Proof.
  unfold define_schema. pose proof (keeps_check_session (Some sg) w) as Hk1.
  unfold io_bind. destruct (check_session (Some sg) w) as [[[]|e] w1]; cbn [snd] in Hk1 |- *; [|by rewrite Hk1].
  pose proof (keeps_map_err CoreError _ keeps_database_client w1) as Hk2. rewrite Hk1 in Hk2.
  destruct (io_map_err CoreError database_client w1) as [[[]|e] w2]; cbn [snd] in Hk2 |- *;
    [|by rewrite Hk2].
  destruct (db_define (w_db w2) STATE_SCHEMA_TABLES) as [d|] eqn:Hd; simpl; [|by rewrite Hk2].
  assert (same d (w_db w2)) as -> by (intros r; by eapply db_define_Ok). by rewrite Hk2.
Qed.

Lemma define_schema_holds o w : holds (w_db w) key o → holds (w_db (define_schema (Some sg) w).2) key o.
Proof. by rewrite (open_define_same w). Qed.

(** Saving the first state of a journal. *)
Lemma save_atomic_holds o initial w r w' :
  holds (w_db w) key o → state_key initial = key → storable_state initial →
  save_atomic (Some sg) None initial w = (r, w') →
  match r with
  | Ok _ => holds (w_db w') key (Some initial)
  | Err e => outcome_unknown r = false → holds (w_db w') key o
  end ∧ ∃ o', holds (w_db w') key o'.
Proof.
  intros Hh Hk Hs. unfold save_atomic.
  intros [(e & w1 & [= Hp <-] & [= -> ->])|([key' rows] & w1 & [= Hp <-] & Hr)]%io_bind_inv; [eauto|].
  apply prepare_write_Ok in Hp as (-> & Hn & Hv & _ & _). rewrite Hk in Hr.
  apply io_bind_inv in Hr as [(e & w1 & Hl & [= -> ->])|(x & w1 & Hl & Hr)];
    destruct (load_holds _ _ _ _ Hh Hl) as [Hd _]; rewrite <-Hd in Hh; [eauto|].
  apply in_transaction_outcome in Hr.
  assert (∀ t a t', same t (w_db w1) →
    replace_v2_in_transaction key None None initial rows t = Ok (a, t') →
    holds t' key (Some initial)) as Hrun.
  { intros t a t' Ht Hrep. rewrite <-Ht in Hh. destruct Hh as [Hst Hrec].
    eapply replace_stored in Hrep as [Hchk Hw]; [|done|done|done|done|done].
    destruct a.
    - destruct Hw as [Hss Hf]. split; [by split|]. rewrite Hf; [done|]. apply record_id_not_journal.
    - subst t'. split; [|done]. destruct o as [s|]; [|done]. unfold replace_check in Hchk.
      simpl in Hchk. repeat (case_decide; simplify_eq; try done). }
  destruct Hr as [t a t' Ht Ha Hw|e Hw|t a t' Ht Ha Hw].
  - assert (holds (w_db w') key (Some initial)) by (rewrite Hw; by eapply Hrun). eauto.
  - rewrite <-Hw in Hh. eauto.
  - assert (holds (w_db w') key (Some initial)) by (rewrite Hw; by eapply Hrun). simpl. split; [done|eauto].
Qed.

(** ** Opening *)

(** The journal holds [o] and nothing is installed. *)
Definition closed (o : option StoredSyncState) (c : cell) : Prop :=
  holds (w_db (c_world c)) key o ∧ rt_runtime (c_state c) = None.

Lemma closed_ok o c : closed o c → agrees key c.
Proof. intros [Hh Hn]. exists o. split; [done|]. by rewrite Hn. Qed.

(** Programs that touch neither the database nor the installed state, and conditions on
    nothing else. *)
Definition inert {E A} (m : act E A) : Prop := ∀ c,
  w_db (c_world (m c).2) = w_db (c_world c) ∧ rt_runtime (c_state (m c).2) = rt_runtime (c_state c).
Definition stable (P : cell → Prop) : Prop := ∀ c c',
  w_db (c_world c') = w_db (c_world c) → rt_runtime (c_state c') = rt_runtime (c_state c) →
  P c → P c'.

Lemma triple_inert {E A} (P R : cell → Prop) (m : act E A) :
  inert m → stable P → (∀ c, P c → R c) → triple P m (λ _, P) R.
Proof.
  intros Hm HP HR. apply triple_keeps; [|done]. intros c Hc. destruct (Hm c). by eapply HP.
Qed.
Lemma inert_phase {E} p : inert (a_phase (E := E) p).
Proof. by intros c. Qed.
Lemma inert_poison {E} : inert (a_poison (E := E)).
Proof. by intros c. Qed.
Lemma inert_is_poisoned {E} : inert (a_is_poisoned (E := E)).
Proof. by intros c. Qed.
Lemma inert_state {E A} (f : RuntimeState → A) : inert (a_state (E := E) f).
Proof. by intros c. Qed.
Lemma inert_look {E A} (f : Observation → A) : inert (a_look (E := E) f).
Proof. by intros c. Qed.
Lemma inert_ret {E A} (a : A) : inert (a_ret (E := E) a).
Proof. by intros c. Qed.
Lemma inert_if {E A} (b : bool) (m k : act E A) : inert m → inert k → inert (if b then m else k).
Proof. by destruct b. Qed.
Lemma inert_settled {E A} (r : result A SyncStateError) : inert (settled_mutation (E := E) r).
Proof. intros c. unfold settled_mutation. by destruct (outcome_unknown r). Qed.
Lemma inert_ensure : inert (ensure_session sg).
Proof. intros c. destruct (looks_ensure sg c) as (Hs & _ & _ & Hd). by rewrite Hs. Qed.
Lemma inert_client : inert (guard_client sg).
Proof. intros c. destruct (looks_guard_client sg c) as (Hs & _ & _ & Hd). by rewrite Hs. Qed.
Lemma inert_try {E F A} (m : act E A) : inert m → inert (a_try (F := F) m).
Proof. intros Hm c. apply Hm. Qed.
Lemma inert_map_err {E F A} (f : E → F) (m : act E A) : inert m → inert (a_map_err f m).
Proof. intros Hm c. apply Hm. Qed.
Lemma stable_closed o : stable (closed o).
Proof. intros c c' Hd Hr [Hh Hn]. split; [by rewrite Hd|by rewrite Hr]. Qed.
Lemma stable_agrees : stable (agrees key).
Proof. intros c c' Hd Hr Hc. eapply agrees_change; [done|done|by left]. Qed.
Lemma stable_and P Q : stable P → stable Q → stable (λ c, P c ∧ Q c).
Proof. intros HP HQ c c' Hd Hr [??]. split; [by eapply HP|by eapply HQ]. Qed.

(** One storage operation on a closed journal. *)
Lemma closed_io {E F A} (m : io F A) o (Q : result A F → cell → Prop) R :
  (∀ w r w', holds (w_db w) key o → m w = (r, w') →
     ∀ c, w_db (c_world c) = w_db w' → rt_runtime (c_state c) = None → Q r c) →
  triple (E := E) (closed o) (a_io m) Q R.
Proof.
  intros Hm c [Hh Hn]. unfold a_io. destruct (m (c_world c)) as [r w'] eqn:Hr. by eapply Hm.
Qed.

Lemma closed_load {E} o :
  triple (E := E) (closed o) (a_io (load (Some sg) key))
    (λ r c, closed o c ∧ ∀ x, r = Ok x → x = o) (agrees key).
Proof.
  apply closed_io. intros w r w' Hh Hl c Hw Hn. destruct (load_holds _ _ _ _ Hh Hl) as [Hd Hx].
  split; [|done]. split; [|done]. by rewrite Hw, Hd.
Qed.

(** After a save: the new state, or the old one, or, when unknown, one of them. *)
Definition saved (o : option StoredSyncState) (initial : StoredSyncState)
    (r : result SyncStateWrite SyncStateError) (c : cell) : Prop :=
  (∃ o', closed o' c) ∧
  match r with
  | Ok _ => closed (Some initial) c
  | Err e => outcome_unknown r = false → closed o c
  end.
Lemma stable_saved o initial r : stable (saved o initial r).
Proof.
  intros c c' Hd Hr [[o' Ho'] Hm]. split.
  - exists o'. by eapply stable_closed.
  - destruct r; [by eapply stable_closed|]. intros Hu. eapply stable_closed; [done|done|by apply Hm].
Qed.
Lemma saved_ok o initial r c : saved o initial r c → agrees key c.
Proof. intros [[o' Ho'] _]. by eapply closed_ok. Qed.

Lemma save_initial_triple options o :
  options_key options = key → storable_state (initial_state options) →
  triple (closed o) (save_initial sg options) (λ s, closed (Some s)) (agrees key).
Proof.
  intros Hk Hs. unfold save_initial. rewrite Hk.
  eapply triple_bind;
    [apply (triple_inert (closed o)); [apply inert_phase|apply stable_closed|apply closed_ok]|intros ?].
  eapply triple_bind.
  { apply (closed_io _ _ (saved o (initial_state options))).
    intros w r w' Hh Hsave c Hw Hn.
    destruct (save_atomic_holds _ (initial_state options) _ _ _ Hh Hk Hs Hsave) as [Hr [o' Ho']].
    unfold saved, closed. rewrite Hw. split; [eauto|]. destruct r; eauto. }
  intros r. eapply triple_bind;
    [apply (triple_inert (saved o (initial_state options) r));
       [apply inert_settled|apply stable_saved|apply saved_ok]|intros ?].
  eapply triple_bind;
    [apply (triple_inert (saved o (initial_state options) r));
       [apply inert_is_poisoned|apply stable_saved|apply saved_ok]|intros b].
  destruct b; [by apply triple_err, saved_ok|].
  destruct r as [wr|e]; [by intros c [_ Hc]|].
  assert (∀ e' : NativeSyncError, triple (saved o (initial_state options) (Err e)) (a_err e')
    (λ s, closed (Some s)) (agrees key)) as Herr by (intros; by apply triple_err, saved_ok).
  destruct e; try apply Herr.
  eapply (triple_pre _ (closed o)); [|by intros c [_ Hc]; apply Hc].
  eapply triple_bind; [apply closed_load|]. intros loaded c [Hc Hl].
  unfold a_bind, a_lift. destruct loaded as [x|]; simpl; [|by eapply closed_ok].
  specialize (Hl _ eq_refl) as ->. destruct o; simpl; [done|by eapply closed_ok].
Qed.

Lemma open_Ok (s s' : StoredSyncState) : open s = Ok s' → s' = s.
Proof. unfold open. intros Ho. by inv_ok. Qed.

Lemma create_triple options o :
  options_key options = key → storable_state (initial_state options) →
  triple (closed o) (create_if_missing sg options) (λ x, closed (Some x.1)) (agrees key).
Proof.
  intros Hk Hs. unfold create_if_missing. rewrite Hk.
  eapply triple_bind;
    [apply (triple_inert (closed o)); [apply inert_phase|apply stable_closed|apply closed_ok]|intros ?].
  eapply triple_bind.
  { apply (closed_io _ _ (λ _, closed o)). intros w r w' Hh Hd c Hw Hn.
    pose proof (define_schema_holds _ _ Hh) as Hh'. rewrite Hd in Hh'. split; [by rewrite Hw|done]. }
  intros defined. eapply triple_bind;
    [apply (triple_inert (closed o));
      [apply inert_if; [apply inert_poison|apply inert_ret]|apply stable_closed|apply closed_ok]|intros ?].
  eapply triple_bind;
    [apply (triple_inert (closed o)); [apply inert_settled|apply stable_closed|apply closed_ok]|intros ?].
  destruct (schema_uncertain defined); [by apply triple_err, closed_ok|].
  eapply triple_bind; [apply triple_lift, closed_ok|intros ?].
  eapply triple_bind; [eapply triple_pre; [apply closed_load|by intros c [_ Hc]]|].
  intros loaded. eapply triple_bind.
  { apply triple_lift. intros c [Hc _]. by eapply closed_ok. }
  intros x. simpl. eapply (triple_bind _ _ _ _ (λ s, closed (Some s))).
  { intros c [Hx%map_err_Ok [Hc Hl]]. specialize (Hl _ Hx) as ->. destruct o as [s|]; [done|].
    exact (save_initial_triple options None Hk Hs c Hc). }
  intros st. destruct (negb _); [by apply triple_err, closed_ok|].
  eapply triple_bind; [apply triple_lift, closed_ok|intros ?].
  eapply triple_bind.
  { eapply (triple_pre _ (closed (Some st))); [|by intros c [_ Hc]].
    apply (closed_io _ _ (λ _, closed (Some st))). intros w r w' Hh Hb c Hw Hn.
    pose proof (load_scope_barrier_db key w) as Hk'. rewrite Hb in Hk'. simpl in Hk'.
    split; [by rewrite Hw, Hk'|done]. }
  intros b. eapply triple_bind; [apply triple_lift, closed_ok|]. intros b' c [_ Hc]. done.
Qed.

Lemma install_opened_triple x :
  triple (closed (Some x.1)) (install_opened x) (λ _, agrees key) (agrees key).
Proof.
  unfold install_opened. eapply triple_bind; [apply triple_lift, closed_ok|]. intros runtime.
  intros c [Hr Hc]. apply map_err_Ok, open_Ok in Hr as ->.
  unfold a_bind at 1, a_state.
  assert (∀ c', w_db (c_world c') = w_db (c_world c) → agrees key
    (a_update (E := NativeSyncError)
       (λ s, set_scope_blocked x.2 (set_runtime (Some x.1) false s)) c').2) as Hinst.
  { intros c' Hd. exists (Some x.1). destruct Hc as [Hh _]. rewrite <-Hd in Hh. split; [done|].
    by intros s [= <-]. }
  destruct (rt_recovery_required (id (c_state c))); [|by apply Hinst].
  pose proof (keeps_rotate_both key (E := NativeSyncError) c (closed_ok _ _ Hc)) as Hrot.
  assert (w_db (c_world (rotate_both (E := NativeSyncError) c).2) = w_db (c_world c)) as Hd.
  { unfold rotate_both, a_bind, a_state, a_update. simpl.
    destruct (journal_rotate (rt_journal (c_state c))); simpl; [|done].
    by destruct (sub_rotate (rt_subscription_journal (c_state c))). }
  unfold a_bind. destruct (rotate_both c) as [[[]|e] c1]; simpl in Hrot, Hd; [by apply Hinst| |done].
  exact (keeps_recovery (A := unit) key c1 Hrot).
Qed.

(** What the check of an existing journal returns. *)
Lemma open_existing_triple options :
  options_key options = key →
  triple (agrees key) (open_existing options)
    (λ x c, agrees key c ∧ (rt_runtime (c_state c) = None → closed (Some x.1) c)) (agrees key).
Proof.
  intros Hk c (o & Ho & Hr). unfold open_existing. rewrite Hk.
  unfold a_bind at 1, a_io. destruct (inspect key (c_world c)) as [r w'] eqn:Hi.
  destruct (inspect_holds _ _ _ _ Ho Hi) as [Hh Hx]. set (c' := mkCell _ _ _ w').
  assert (agrees key c') as Hc' by (by exists o).
  unfold a_bind, a_lift. destruct r as [[st b]|e]; simpl; [|done].
  specialize (Hx _ eq_refl). simpl in Hx. subst st.
  destruct o as [st|]; simpl; [|done]. destruct (negb _); [done|].
  destruct (validate_state_codec st) as [[]|]; simpl; [|done].
  case_decide; simpl; [done|]. split; [done|]. by split.
Qed.

Lemma initialize_ok options mode c :
  agrees key c → op_writable key (OpOpen options mode) c →
  agrees key (initialize_runtime sg options mode c).2.
Proof.
  intros Hc [_ [Hk Hs]]. apply (triple_post (agrees key)); [|done]. unfold initialize_runtime.
  eapply triple_bind;
    [apply triple_inert; [apply inert_ensure|apply stable_agrees|done]|intros ?].
  eapply (triple_bind _ _ _ _ (λ e c, agrees key c ∧ ∀ x, e = Some x →
    rt_runtime (c_state c) = None → closed (Some x.1) c)).
  { case_decide; [|by intros c' Hc']. eapply triple_bind; [by apply open_existing_triple|].
    intros x c' [Hc' Hx]. split; [done|]. by intros ? [= <-]. }
  intros existing. eapply (triple_bind _ _ _ _ (λ r c, agrees key c ∧ rt_runtime (c_state c) = r ∧
    ∀ x, existing = Some x → rt_runtime (c_state c) = None → closed (Some x.1) c)).
  { by intros c' [Hc' Hx]. }
  intros runtime. eapply (triple_bind _ _ _ _ (λ _, agrees key)).
  { destruct runtime as [s|]; [by intros c' [Hc' _]|].
    eapply (triple_bind _ _ _ _ (λ x, closed (Some x.1))); [|apply install_opened_triple].
    destruct existing as [x|].
    - intros c' (Hc' & Hn & Hx). by apply Hx.
    - intros c' ((o & Ho & _) & Hn & _). by apply (create_triple options o Hk Hs c'). }
  intros ?. apply (triple_keeps (agrees key)); [|done]. keeps_auto.
Qed.
End open.
