(* ===== verification/ClientInvariant.v ===== *)
(** * The bootstrap operations, and the invariant of every run of a client. *)

From Stdlib Require Import Strings.Byte.
From S2P Require Import Prelude Protocol Subscription ClientState SubscriptionState Validate Client PullProps SubscriptionClient Read Canonical HttpCodec BootstrapCodec SubscriptionCodec NativeErrors Json Wire NativeCodec Engine StateRows StateLoad Stage StateStore StageStore Queue ReadJournal SubscriptionJournal View NativeClient NativeOps NativeBootstrap StateProps StoreProps ClientCoherence ClientSteps ClientOpen.

Set Default Proof Using "Type*".

(** The next pure step or read of a transaction body. *)
Tactic Notation "tx_next" hyp(H) "as" simple_intropattern(x) "with" ident(Hx) :=
  let d := fresh "d" in
  apply tx_bind_Ok in H as (x & d & Hx & H);
  first [apply tx_lift_Ok in Hx as (? & Hx & [= <- ->])
        |apply tx_lift_Ok in Hx as (? & Hx & [= <- <- ->])
        |apply tx_read_Ok in Hx as (? & Hx & [= <- ->])
        |apply tx_read_Ok in Hx as (? & Hx & [= <- <- ->])].

#[local] Arguments recovery : simpl never.

Section invariant.
Context `{!SurrealTypes, !Engine, !EngineLaws, !Host, !JsonFloatText, !JsonText, !JsonTextLaws, !StateSerde, !StateSerdeLaws, !Ciborium, !Sha256, !BridgeSerde}.
Variable key : SyncStateKey.
Variable sg : N.

(** ** Staging *)

Lemma begin_holds start manifest expected w o :
  context_key expected = key → holds (w_db w) key o →
  holds (w_db (begin (Some sg) start manifest expected w).2) key o.
Proof.
  intros <- Hh. unfold begin, io_bind, io_lift. repeat (case_match; simplify_eq; try done).
  apply in_transaction_holds; [apply tx_holds_begin|done].
Qed.
Lemma stage_page_holds raw expected incarnation w o :
  context_key expected = key → holds (w_db w) key o →
  holds (w_db (stage_page (Some sg) raw expected incarnation w).2) key o.
Proof.
  intros <- Hh. unfold stage_page, io_bind, io_lift. repeat (case_match; simplify_eq; try done).
  apply in_transaction_holds; [apply tx_holds_stage_page|done].
Qed.
Lemma cancel_holds manifest expected incarnation w o :
  context_key expected = key → holds (w_db w) key o →
  holds (w_db (cancel (Some sg) manifest expected incarnation w).2) key o.
Proof.
  intros <- Hh. unfold cancel, io_bind, io_lift. repeat (case_match; simplify_eq; try done).
  apply in_transaction_holds; [apply tx_holds_cancel|done].
Qed.
Lemma resume_holds manifest expected incarnation w o :
  holds (w_db w) key o → holds (w_db (resume manifest expected incarnation w).2) key o.
Proof.
  intros Hh. unfold resume, io_bind, io_lift. repeat (case_match; simplify_eq; try done);
    by apply keeps_in_read_transaction.
Qed.

Lemma keeps_access_finish {A} (r : result A SyncStateError) mutating :
  keeps (agrees key) (access_finish sg r mutating).
Proof. unfold access_finish. keeps_auto. Qed.
Lemma keeps_check_writable : keeps (agrees key) (check_writable sg).
Proof. unfold check_writable. keeps_auto. apply keeps_refresh. Qed.

(** The context of an admitted operation names the client's own journal. *)
Lemma context_matches_key s expected :
  context_matches s expected = true → context_key expected = state_key s.
Proof. intros (? & ? & _)%bool_decide_eq_true. unfold context_key, state_key. congruence. Qed.

Lemma access_seq {A} expected ticket (k : unit → act NativeBootstrapError A) c :
  agrees key c →
  (∀ c1, agrees key c1 → context_key expected = key → agrees key (k tt c1).2) →
  agrees key (a_bind (bootstrap_access sg expected ticket) k c).2.
Proof.
  intros Hc Hk. unfold bootstrap_access. rewrite a_bind_assoc.
  assert (agrees key (a_map_err from_native (guard_client sg) c).2) as Hg by (by apply keeps_guard_client).
  pose proof (guard_client_Ok sg c) as Hok. unfold a_bind at 1.
  destruct (guard_client sg c) as [[s|e] c1] eqn:He; unfold a_map_err in *; rewrite He in *;
    simpl in *; [|done].
  destruct (Hok s c1 eq_refl) as (Hs & Hs1 & _). destruct Hg as (o & Ho & Hr).
  assert (o = Some s) as -> by (apply Hr; congruence). pose proof Ho as [[Hkey _] _].
  assert (agrees key c1) as Hc1 by (by exists (Some s)).
  destruct (context_matches s expected) eqn:Hm; simpl; [|done].
  unfold a_bind, a_state. simpl. case_decide; simpl; [done|].
  apply Hk; [done|]. rewrite Hkey. by apply context_matches_key.
Qed.

Lemma access_ok {A} session (m : act NativeBootstrapError A) c :
  agrees key c →
  (context_key (bse_expected session) = key → keeps (agrees key) m) →
  agrees key (access sg session m c).2.
Proof.
  intros Hc Hm. unfold access. apply (locked_ok key); [done|]. intros c1 Hc1 _ _.
  apply access_seq; [done|]. intros c2 Hc2 Hk. by apply Hm.
Qed.

Lemma keeps_begin_owned session start manifest :
  keeps (agrees key) (begin_owned sg session start manifest).
Proof.
  unfold begin_owned. keeps_auto. intros c Hc. apply access_ok; [done|]. intros Hk. keeps_auto.
  - apply keeps_check_writable.
  - apply keeps_io. intros w o. by apply begin_holds.
  - apply keeps_access_finish.
Qed.
Lemma keeps_page session stage bytes : keeps (agrees key) (page_owned sg session stage bytes).
Proof.
  unfold page_owned. keeps_auto. intros c Hc. apply access_ok; [done|]. intros Hk. keeps_auto.
  - apply keeps_check_writable.
  - apply keeps_io. intros w o. by apply stage_page_holds.
  - apply keeps_access_finish.
Qed.
Lemma keeps_cancel session stage : keeps (agrees key) (cancel_owned sg session stage).
Proof.
  unfold cancel_owned. keeps_auto. intros c Hc. apply access_ok; [done|]. intros Hk. keeps_auto.
  - apply keeps_io. intros w o. by apply cancel_holds.
  - apply keeps_access_finish.
Qed.
Lemma keeps_bind_session expected binding :
  keeps (agrees key) (bind_bootstrap_session sg expected binding).
Proof.
  unfold bind_bootstrap_session. keeps_auto. intros c Hc. apply (locked_ok key); [done|].
  intros c1 Hc1 _ _. apply access_seq; [done|]. intros c2 Hc2 _. revert c2 Hc2.
  change (keeps (agrees key) (let^ result := a_io (resume None a None) in
    let^ _ := a_map_err (λ e, if decide (e = StageMismatch) then ContextMismatch else e)
                (access_finish sg result false) in
    let^ ticket := bind_binding a in
    a_ret (mkSession a binding ticket))).
  keeps_auto.
  - apply keeps_io. intros w o. apply resume_holds.
  - apply keeps_access_finish.
  - unfold bind_binding. keeps_auto. apply keeps_update. by left.
Qed.

(** ** Completion *)

Lemma tx_holds_tail (s : StoredSyncState) stage bytes revision :
  tx_holds key
    (let@ _ := delete_pages key stage in
     let header := consumed_header (sg_header stage) bytes revision in
     let@ marker := tx_upsert (header_id key) (RowHeader header) in
     let@ marker := tx_lift
       (match marker with
        | Some x => ok_or (row_to_header x) DatabaseError
        | None => Err CorruptState
        end) in
     if decide (hd_consumed_receipt marker ≠ Some bytes
                ∨ hd_consumed_revision marker ≠ Some (u64_to_string (st_revision s))
                ∨ hd_cancelled marker = false)
     then tx_err CorruptState else
     let@ fence := tx_read (read_fence key) in
     write_inactive_fence key fence).
Proof. unfold delete_pages, write_inactive_fence. tx_holds_auto. Qed.

Lemma publish_completion_holds stage bytes current next d u d' :
  holds d key (Some current) → state_key next = state_key current → writable current next →
  publish_completion key stage bytes current next d = Ok (u, d') → holds d' key (Some next).
Proof.
  intros Hh Hkn [Hsto Hout] Hp. unfold publish_completion in Hp.
  apply tx_bind_Ok in Hp as (? & d1 & Hdef & Hp).
  apply (tx_holds_define key _ _ _ _ (Some current)) in Hdef; [|done]. clear Hh.
  pose proof Hdef as [[Hk Hst] Hrec].
  apply tx_bind_Ok in Hp as (disp & d2 & Ht & Hp).
  assert (holds d2 key (Some next)) as Hh2.
  { apply (transition_in_transaction _ _ (Some current)) in Ht as [_ Hw]; [|done|done|done|done].
    destruct disp.
    - destruct Hw as [Hts _]. by eapply transition_holds.
    - by destruct Hw as [-> <-]. }
  eapply (tx_holds_tail next); [exact Hp|done].
Qed.

Lemma bootstrap_key (s : StoredSyncState) cp rs p :
  prepare_bootstrap_snapshot s cp rs = Ok p → state_key (prepared_state p) = state_key s.
Proof.
  unfold prepare_bootstrap_snapshot. intros [_ Hp]%guard_bool_Ok.
  apply result_bind_Ok in Hp as ([] & _ & Hp).
  apply prepare_snapshot_Ok in Hp as (conf & ids & _ & _ & _ & _ & Hp).
  by apply prepare_Ok in Hp as [Heq _|_ _ _].
Qed.

Lemma complete_tx_holds bytes receipt expected incarnation clock s d r d' :
  holds d key (Some s) → context_key expected = key →
  (∀ budget staged records k p, inspect_stage key d = Ok (budget, Some staged) →
     verify_pages clock staged = Ok (records, k) →
     prepare_bootstrap_snapshot s (br_checkpoint receipt) records = Ok p →
     writable s (prepared_state p)) →
  complete_in_transaction bytes receipt expected incarnation clock d = Ok (r, d') →
  match r with
  | CompletionApplied next => holds d' key (Some next)
  | HistoricalSuccess => d' = d
  end.
Proof.
  intros Hh Hkey Hw Hc. unfold complete_in_transaction in Hc. rewrite Hkey in Hc.
  tx_next Hc as [budget stage] with Hi. tx_next Hc as st with Hst. apply ok_or_Ok in Hst as ->.
  tx_next Hc as u with Hb. tx_next Hc as u1 with Hb1.
  destruct (hd_consumed_receipt (sg_header st)) as [consumed|].
  { apply tx_read_Ok in Hc as (x & Hc & [= -> ->]). unfold historical_success in Hc.
    case_decide; [done|]. by inv_ok. }
  destruct (hd_cancelled (sg_header st)); [done|].
  tx_next Hc as u2 with Hb2. tx_next Hc as u3 with Hb3. tx_next Hc as current with Hcur.
  assert (current = s) as ->.
  { unfold inspected_current, transaction_state_after_preflight in Hcur. destruct Hh as [Hst _].
    destruct (load_stored Direct d key (Some s) (sees_direct _) Hst) as [He|[He _]]; rewrite He in Hcur;
      [by injection Hcur|done]. }
  tx_next Hc as u4 with Hb4. tx_next Hc as u5 with Hb5. tx_next Hc as [records k] with Hv.
  tx_next Hc as runtime with Ho. apply map_err_Ok, open_Ok in Ho as ->.
  tx_next Hc as p with Hp. apply map_err_Ok in Hp. tx_next Hc as u6 with Hb6. tx_next Hc as u7 with Hb7.
  apply tx_bind_Ok in Hc as (? & d1 & Hpub & Hc). tx_next Hc as u8 with Hb8.
  apply tx_ret_Ok in Hc as [= -> ->].
  eapply publish_completion_holds; [done|by eapply bootstrap_key|by eapply Hw|exact Hpub].
Qed.

Lemma complete_holds bytes expected incarnation clock s w r w' :
  holds (w_db w) key (Some s) → context_key expected = key →
  (∀ t budget staged receipt records k p, same t (w_db w) →
     inspect_stage key t = Ok (budget, Some staged) → decode_bootstrap_receipt bytes = Ok receipt →
     verify_pages clock staged = Ok (records, k) →
     prepare_bootstrap_snapshot s (br_checkpoint receipt) records = Ok p →
     writable s (prepared_state p)) →
  complete (Some sg) bytes expected incarnation clock w = (r, w') →
  match r with
  | Ok (CompletionApplied next) => holds (w_db w') key (Some next)
  | Ok HistoricalSuccess => holds (w_db w') key (Some s)
  | Err e => outcome_unknown r = false → holds (w_db w') key (Some s)
  end ∧ ∃ o, holds (w_db w') key o.
Proof.
  intros Hh Hkey Hw. unfold complete.
  intros [(? & ? & [= _ <-] & [= -> ->])|(? & ? & [= _ <-] & Hc)]%io_bind_inv; [eauto|].
  apply io_bind_inv in Hc as [(? & ? & [= _ <-] & [= -> ->])|(? & ? & [= _ <-] & Hc)]; [eauto|].
  apply io_bind_inv in Hc as [(? & ? & [= _ <-] & [= -> ->])|(receipt & ? & [= Hrec <-] & Hc)]; [eauto|].
  apply map_err_Ok in Hrec. apply in_transaction_outcome in Hc.
  assert (∀ t a t', same t (w_db w) →
    complete_in_transaction bytes receipt expected incarnation clock t = Ok (a, t') →
    match a with
    | CompletionApplied next => holds t' key (Some next)
    | HistoricalSuccess => holds t' key (Some s)
    end) as Hrun.
  { intros t a t' Ht Ha. rewrite <-Ht in Hh. eapply complete_tx_holds in Ha; [|done|done|eauto].
    destruct a; [done|by rewrite Ha]. }
  destruct Hc as [t a t' Ht Ha Hd|e Hd|t a t' Ht Ha Hd].
  - specialize (Hrun _ _ _ Ht Ha). destruct a; rewrite <-Hd in Hrun; eauto.
  - rewrite <-Hd in Hh. eauto.
  - specialize (Hrun _ _ _ Ht Ha). split; [done|]. destruct a; rewrite <-Hd in Hrun; eauto.
Qed.

(** The rest of a completion, from the readback on. *)
Lemma completion_publish_ok result latest barrier c s :
  match result with
  | CompletionApplied next => holds (w_db (c_world c)) key (Some next)
  | HistoricalSuccess => holds (w_db (c_world c)) key (Some s)
  end → rt_runtime (c_state c) = Some s ∨ rt_runtime (c_state c) = None →
  agrees key (completion_publish result latest barrier c).2.
Proof.
  intros Hh Hs. destruct result as [applied|].
  - unfold completion_publish. case_decide as Hne; [apply recovery_agrees; eauto|].
    assert (latest = applied) as -> by (apply dec_stable; tauto).
    destruct (open applied) as [runtime|] eqn:Ho; [|apply recovery_agrees; eauto].
    apply open_Ok in Ho as ->.
    assert (∀ c', w_db (c_world c') = w_db (c_world c) →
      ∃ o, holds (w_db (c_world c')) key o) as Hany by (intros c' ->; eauto).
    unfold rotate_both, a_bind, a_state, a_update. simpl.
    destruct (journal_rotate (rt_journal (c_state c))); simpl; [|apply (recovery_agrees key (A := bool)); by apply Hany].
    destruct (sub_rotate (rt_subscription_journal (c_state c))); simpl;
      [|apply (recovery_agrees key (A := bool)); by apply Hany].
    exists (Some applied). split; [done|]. by intros ? [= <-].
  - assert (agrees key c) as Hc.
    { exists (Some s). split; [done|]. intros s' Hs'. destruct Hs as [E|E]; rewrite E in Hs'; congruence. }
    apply (keeps_a_bind (agrees key)); [keeps_auto|intros runtime|done].
    case_decide; keeps_auto.
Qed.

Lemma complete_bound_ok bytes expected incarnation clock during ticket c :
  agrees key c →
  (∀ s t budget staged clk receipt records k p, rt_runtime (c_state c) = Some s →
     same t (w_db (c_world c)) → inspect_stage (context_key expected) t = Ok (budget, Some staged) →
     decode_bootstrap_receipt bytes = Ok receipt → verify_pages clk staged = Ok (records, k) →
     prepare_bootstrap_snapshot s (br_checkpoint receipt) records = Ok p →
     writable s (prepared_state p)) →
  agrees key (complete_bootstrap_bound sg bytes expected incarnation clock during ticket c).2.
Proof.
  intros Hc Hw. unfold complete_bootstrap_bound. unfold a_bind at 1, a_state. simpl.
  destruct (ticket_stale _ _ _); [done|].
  apply looks_seq; [apply looks_guard_client|done|]. intros s c1 Hg Hc1 Hs1 Hd1.
  destruct (guard_client_Ok _ _ _ _ Hg) as (Hs & _).
  destruct (context_matches s expected) eqn:Hm; simpl; [|done].
  apply context_matches_key in Hm.
  assert (holds (w_db (c_world c1)) key (Some s)) as Hh.
  { destruct Hc1 as (o & Ho & Hr). assert (o = Some s) as -> by (apply Hr; congruence). done. }
  pose proof Hh as [[Hkey _] _]. rewrite <-Hkey in Hm.
  unfold a_bind at 1, arm_mutation, a_phase. simpl.
  unfold a_bind at 1, a_io. simpl.
  destruct (complete _ _ _ _ _ _) as [r w'] eqn:Hcomp.
  assert (match r with
    | Ok (CompletionApplied next) => holds (w_db w') key (Some next)
    | Ok HistoricalSuccess => holds (w_db w') key (Some s)
    | Err e => outcome_unknown r = false → holds (w_db w') key (Some s)
    end ∧ ∃ o, holds (w_db w') key o) as [Hr Hany].
  { eapply complete_holds; [exact Hh|done| |exact Hcomp].
    intros. eapply Hw; [done|by rewrite <-Hd1|by rewrite Hm|done..]. }
  set (c2 := mkCell _ _ _ w').
  assert (∃ c3, settled_mutation (E := NativeSyncError) r c2 = (Ok tt, c3) ∧
    c_state c3 = c_state c1 ∧ w_db (c_world c3) = w_db w') as (c3 & Hset & Hs3 & Hd3).
  { unfold settled_mutation. destruct (outcome_unknown r); by eexists. }
  unfold a_bind at 1. rewrite Hset. unfold a_bind at 1, a_try.
  destruct (looks_ensure sg c3) as (Hs4 & _ & _ & Hd4).
  revert Hs4 Hd4. generalize (ensure_session sg c3). intros [session c4] Hs4 Hd4. simpl in *.
  rewrite <-Hd3, <-Hd4 in Hr, Hany. rewrite Hs3, Hs1 in Hs4. clear Hset Hd3 Hd4 Hs3 Hcomp.
  destruct (outcome_unknown r) eqn:Hu; simpl; [by apply (recovery_agrees key (A := bool))|].
  destruct session as [[]|]; simpl; [|by apply (recovery_agrees key (A := bool))].
  destruct r as [result|error].
  - unfold a_bind at 1, a_io. destruct (inspect (context_key expected) (c_world c4)) as [ri w5] eqn:Hi.
    rewrite Hm in Hi. set (c5 := mkCell _ _ _ w5).
    assert (match result with
      | CompletionApplied next => holds (w_db w5) key (Some next)
      | HistoricalSuccess => holds (w_db w5) key (Some s) end) as Hr5.
    { destruct result; by eapply inspect_holds in Hi as [? _]. }
    assert (∃ o, holds (w_db w5) key o) as Hany5 by (destruct result; eauto).
    destruct ri as [[[latest|] barrier]|]; try (by apply (recovery_agrees key (A := bool))).
    unfold a_bind at 1, a_try. destruct (looks_ensure sg c5) as (Hs6 & _ & _ & Hd6).
    revert Hs6 Hd6. generalize (ensure_session sg c5). intros [session c6] Hs6 Hd6. simpl in *.
    rewrite <-Hd6 in Hr5, Hany5. destruct (is_ok session); [|by apply (recovery_agrees key (A := bool))].
    eapply completion_publish_ok; [done|]. left. congruence.
  - assert (agrees key c4) as Hc4.
    { exists (Some s). split; [by apply Hr|]. rewrite Hs4. congruence. }
    revert Hc4. generalize c4. change (keeps (agrees key) (completion_refused sg error)).
    unfold completion_refused. keeps_auto. apply keeps_refresh.
Qed.

Lemma complete_ok session stage bytes clock during readings c :
  agrees key c → op_writable key (OpBootstrapComplete session stage bytes clock during readings) c →
  agrees key (complete_owned sg session stage bytes clock during readings c).2.
Proof.
  intros Hc [Hw _]. unfold complete_owned.
  do 5 (apply (lift_seq key); [done|intros ? _]).
  assert (agrees key (locked (complete_bootstrap_bound sg bytes (bse_expected session)
    (bst_incarnation stage) (completion_clock clock) during (Some (bse_ticket session))) c).2) as Hl.
  { apply (locked_ok key); [done|]. intros c1 Hc1 Hs1 Hd1. apply complete_bound_ok; [done|].
    intros s t budget staged clk receipt records k p Hs Ht Hi Hrec Hv Hp.
    eapply Hw; [by rewrite <-Hs1|]. rewrite Hd1 in Ht. by econstructor. }
  unfold a_bind at 1, a_try. destruct (locked _ c) as [completed c1]. simpl in Hl.
  destruct completed as [[]|[]]; simpl; try done; repeat case_match; done.
Qed.

(** ** Every operation, every run *)

Lemma step_agrees op c :
  agrees key c → op_writable key op c → agrees key (step sg op c).
Proof.
  intros Hc Hw.
  assert (∀ c', rt_runtime (c_state c') = rt_runtime (c_state c) →
    w_db (c_world c') = w_db (c_world c) → op_writable key op c') as Hw'.
  { intros c' Hs Hd. unfold op_writable. by rewrite Hs, Hd. }
  destruct op; simpl;
    try (apply (run_locked_ok key); [done|]; intros c1 Hc1 Hs1 Hd1; specialize (Hw' _ Hs1 Hd1));
    try (apply keeps_run_mutation;
      [first [apply keeps_begin_owned|apply keeps_page|apply keeps_cancel]|done]).
  - by apply initialize_ok.
  - by apply enqueue_ok.
  - by apply enqueue_bounded_ok.
  - by apply push_ok.
  - by apply pull_ok.
  - by apply keep_server_ok.
  - by apply keep_local_ok.
  - by apply merge_ok.
  - by apply start_ok.
  - by apply cancel_subscription_ok.
  - by apply response_ok.
  - apply keeps_locked; [apply keeps_read_view|done].
  - apply keeps_locked; [apply keeps_refreshed_read|done].
  - by apply keeps_bind_session.
  - apply (run_ok key); [done|]. intros c1 Hc1 Hs1 Hd1. apply complete_ok; [done|by apply Hw'].
Qed.

(** A run: operations one after the other, each of them writable where it starts. *)
Inductive runs : list native_op → cell → cell → Prop :=
| runs_nil c : runs [] c c
| runs_cons op ops c c' : op_writable key op c → runs ops (step sg op c) c' → runs (op :: ops) c c'.

Lemma runs_agree ops c c' : runs ops c c' → agrees key c → agrees key c'.
Proof. induction 1; [done|]. intros Hc. by apply IHruns, step_agrees. Qed.
End invariant.
