(* ===== verification/ClientResult.v ===== *)
(** * What an operation of the native client reports, and what it did.

    A transition that succeeds has stored and installed exactly the prepared state.  A
    transition that fails has changed nothing, or the client has no installed state any
    more.  A poisoned client refuses everything and touches nothing, and a commit that
    reported an error leaves no trace in the database of a client that is not poisoned
    ([known], kept by every operation in [step_known]). *)

From Stdlib Require Import Strings.Byte.
From S2P Require Import Prelude Protocol Subscription ClientState SubscriptionState Validate Client SubscriptionClient Read Canonical HttpCodec BootstrapCodec SubscriptionCodec NativeErrors Json Wire NativeCodec Engine StateRows StateLoad Stage StateStore StageStore Queue ReadJournal SubscriptionJournal View NativeClient NativeOps NativeBootstrap StateProps StoreProps ClientCoherence ClientSteps ClientOpen.

Set Default Proof Using "Type*".
#[local] Arguments recovery : simpl never.

Section result.
Context `{!SurrealTypes, !Engine, !EngineLaws, !Host, !JsonFloatText, !JsonText, !JsonTextLaws, !StateSerde, !StateSerdeLaws, !Ciborium, !Sha256, !BridgeSerde}.
Variable key : SyncStateKey.
Variable sg : N.

(** The state [s] is installed over the database [d]. *)
Definition installed (s : StoredSyncState) (d : db) (c : cell) : Prop :=
  rt_runtime (c_state c) = Some s ∧ w_db (c_world c) = d.
(** After a failure: no installed state, or everything as before. *)
Definition failed (s : StoredSyncState) (d : db) (c : cell) : Prop :=
  rt_runtime (c_state c) = None ∨ (rt_runtime (c_state c) = Some s ∧ same (w_db (c_world c)) d).

Lemma stable_installed s d : stable (installed s d).
Proof. intros c c' Hd Hr [??]. split; congruence. Qed.
Lemma installed_failed s d c : installed s d c → failed s d c.
Proof. intros [? <-]. by right. Qed.

Lemma recovery_triple {A} P s d Q : triple P (recovery (A := A)) Q (failed s d).
Proof. intros c _. by left. Qed.

Lemma publish_triple before prepared d :
  triple (λ c, w_db (c_world c) = d) (publish before prepared)
    (λ _ c, installed (prepared_state prepared) d c ∧ c_phase c = Clean)
    (λ c, rt_runtime (c_state c) = None).
Proof.
  intros c Hd. unfold publish, a_bind, a_state. simpl.
  destruct (rt_runtime (c_state c)) as [runtime|]; [|done].
  unfold install_with_read_batch. case_decide; [done|].
  cbn -[journal_record sub_record recovery status].
  by destruct (status (prepared_state prepared)).
Qed.

Lemma arm_triple s d :
  triple (installed s d) (arm_with_state sg) (λ s' c, s' = s ∧ installed s d c) (failed s d).
Proof.
  intros c Hc. destruct (arm_with_state sg c) as [[s'|e] c'] eqn:Ha.
  - destruct (arm_with_state_Ok _ _ _ _ Ha) as (Hs & Hs' & Hd). destruct Hc as [??].
    split; [congruence|]. split; congruence.
  - apply installed_failed. unfold arm_with_state in Ha.
    apply a_bind_inv in Ha as [(? & c1 & Hg & [= -> ->])|(s' & c1 & Hg & Ha)].
    + destruct (inert_client sg c) as [??]. rewrite Hg in *. by eapply stable_installed.
    + destruct (guard_client_Ok _ _ _ _ Hg) as (Hs & Hs' & Hd).
      unfold arm_mutation, a_phase, a_bind, a_state, a_lift in Ha. injection Ha as Ha _.
      simpl in Ha. unfold state_client in Ha. by rewrite Hs', Hs in Ha.
Qed.

(** The storage operation and its settlement. *)
Lemma storage_triple s next d :
  holds d key (Some s) → writable s next →
  triple (E := NativeSyncError) (installed s d)
    (let^ persisted := a_io (apply_transition_atomic (Some sg) s next) in
     let^ _ := settled_mutation persisted in a_ret persisted)
    (λ r c, rt_runtime (c_state c) = Some s ∧ (outcome_unknown r = true → c_poisoned c = true) ∧
       match r with
       | Ok _ => holds (w_db (c_world c)) key (Some next)
       | Err _ => outcome_unknown r = false → same (w_db (c_world c)) d
       end) (failed s d).
Proof.
  intros [Hst Hrec] [Hsto Hout] c [Hs Hd]. unfold a_bind, a_io.
  destruct (apply_transition_atomic _ _ _ _) as [r w'] eqn:Hat. pose proof Hst as [Hk _].
  apply (transition_outcome_holds _ _ _ s) in Hat;
    [|by rewrite <-Hk, Hd|done|done]. rewrite Hd in Hat.
  assert (match r with
    | Ok _ => holds (w_db w') key (Some next)
    | Err _ => outcome_unknown r = false → same (w_db w') d end) as Hr.
  { destruct r as [[]|e]; simpl in Hat.
    - destruct Hat as (_ & _ & Ht). by eapply transition_holds.
    - destruct Hat as (_ & <- & E). by rewrite E.
    - destruct Hat as [E|(-> & _)]; [done|]. done. }
  unfold settled_mutation, a_bind. revert Hr. destruct r as [wr|e]; [done|].
  destruct (outcome_unknown (Err e)) eqn:Hu; intros Hr; cbn -[outcome_unknown]; by rewrite Hu.
Qed.

(** Persisting a prepared transition. *)
Lemma persist_triple prepared s d :
  holds d key (Some s) → writable s (prepared_state prepared) →
  triple (installed s d) (persist_and_install sg prepared)
    (λ _ c, rt_runtime (c_state c) = Some (prepared_state prepared) ∧
       holds (w_db (c_world c)) key (Some (prepared_state prepared)) ∧ c_phase c = Clean)
    (failed s d).
Proof.
  intros Hh Hw. unfold persist_and_install.
  eapply triple_bind; [apply triple_inert; [apply inert_ensure|apply stable_installed|apply installed_failed]|intros ?].
  eapply triple_bind; [apply triple_inert; [apply inert_client|apply stable_installed|apply installed_failed]|intros before].
  eapply triple_bind; [apply triple_lift, installed_failed|intros u].
  eapply triple_bind; [eapply triple_pre; [apply arm_triple|by intros c [_ Hc]]|].
  intros current c [-> Hc]. pose proof (storage_triple s _ d Hh Hw c Hc) as Hst.
  revert Hst. unfold a_io, a_bind at 1 3.
  destruct (apply_transition_atomic _ _ _ _) as [r w'].
  unfold a_bind at 1 2. destruct (settled_mutation r _) as [[[]|e] c1] eqn:Hset; cycle 1.
  { unfold settled_mutation in Hset. by destruct (outcome_unknown r). }
  intros (Hs1 & _ & Hr).
  destruct (outcome_unknown r) eqn:Hu; [by apply (recovery_triple (λ _, True) s d)|].
  destruct (inert_ensure sg c1) as [Hd2 Hs2]. unfold a_bind at 1, a_try.
  revert Hd2 Hs2. generalize (ensure_session sg c1). intros [session c2] Hd2 Hs2. simpl in *.
  destruct session as [[]|]; [|by apply (recovery_triple (λ _, True) s d)].
  destruct r as [wr|e].
  - pose proof (publish_triple (st_revision before) prepared _ c2 eq_refl) as Hp.
    destruct (publish _ _ c2) as [[st|e] c3]; [|by left].
    destruct Hp as [[Hi Hd] Hph]. by rewrite Hd, Hd2.
  - right. simpl. rewrite Hs2, Hd2. by split; [|apply Hr].
Qed.

(** A whole transition, from the installed state to its report. *)
Definition transition_report (s : StoredSyncState) (d : db)
    (prepare : StoredSyncState → result (PreparedTransition JsonValue) ClientError)
    (r : result NativeSyncStatus NativeSyncError) (c : cell) : Prop :=
  match r with
  | Ok _ => ∃ p, prepare s = Ok p ∧ rt_runtime (c_state c) = Some (prepared_state p) ∧
      holds (w_db (c_world c)) key (Some (prepared_state p))
  | Err _ => failed s d c
  end.

Lemma drop_failed s d c : failed s d c → failed s d (drop_guard c).
Proof. unfold drop_guard. destruct (c_phase c); [done|by left..]. Qed.

Lemma transition_reported prepare s c r c' :
  holds (w_db (c_world c)) key (Some s) → rt_runtime (c_state c) = Some s →
  (∀ p, prepare s = Ok p → writable s (prepared_state p)) →
  locked (transition sg prepare) c = (r, c') →
  transition_report s (w_db (c_world c)) prepare r c'.
Proof.
  intros Hh Hs Hw. unfold locked. set (c0 := mkCell _ _ _ _). set (d := w_db (c_world c)) in *.
  assert (triple (installed s d) (transition sg prepare)
    (λ _ c, (∃ p, prepare s = Ok p ∧ rt_runtime (c_state c) = Some (prepared_state p) ∧
       holds (w_db (c_world c)) key (Some (prepared_state p))) ∧ c_phase c = Clean)
    (failed s d)) as Ht.
  { unfold transition. intros c1 Hc1. unfold a_bind at 1.
    destruct (inert_client sg c1) as [Hd2 Hs2].
    destruct (guard_client sg c1) as [[s'|e] c2] eqn:Hg; simpl in Hd2, Hs2;
      pose proof (stable_installed s d _ _ Hd2 Hs2 Hc1) as Hc2; [|by apply installed_failed].
    destruct (guard_client_Ok _ _ _ _ Hg) as (Hs' & _). destruct Hc1 as [Hs1 _].
    assert (s' = s) as -> by congruence. unfold a_bind, a_lift.
    destruct (prepare s) as [p|e] eqn:Hp; simpl; [|by apply installed_failed].
    pose proof (persist_triple p s d Hh (Hw _ eq_refl) c2 Hc2) as Hpt.
    destruct (persist_and_install sg p c2) as [[st|e] c3]; [|done].
    destruct Hpt as (? & ? & ?). eauto. }
  specialize (Ht c0 (conj Hs eq_refl)). destruct (transition sg prepare c0) as [r0 c1].
  intros [= -> <-]. destruct r as [st|e]; simpl.
  - destruct Ht as [Hp Hph]. unfold drop_guard. by rewrite Hph.
  - by apply drop_failed.
Qed.

(** ** Poison *)

Lemma poisoned_session c :
  c_poisoned c = true →
  ∃ c', ensure_session sg c = (Err RecoveryRequired, c') ∧ c_state c' = c_state c ∧
    c_poisoned c' = true ∧ c_phase c' = c_phase c ∧ w_db (c_world c') = w_db (c_world c).
Proof.
  intros Hp. unfold ensure_session, a_bind at 1, a_is_poisoned, a_look. simpl.
  rewrite Hp, orb_true_r. by eexists.
Qed.

(** A poisoned cell and one in which only the looks at the handle have moved on. *)
Definition refused (c c' : cell) : Prop :=
  c_state c' = c_state c ∧ c_poisoned c' = true ∧ w_db (c_world c') = w_db (c_world c).

Lemma poisoned_run {E A} from (m : act E A) c :
  c_poisoned c = true →
  ∃ c', run_mutation sg from m c = (Err (from RecoveryRequired), c') ∧ refused c c'.
Proof.
  intros (c' & He & ? & ? & ? & ?)%poisoned_session. exists c'.
  unfold run_mutation, a_bind, a_map_err. by rewrite He.
Qed.

(** An operation that starts with the session check. *)
Lemma poisoned_first {E A B} from (m : act NativeSyncError A) (k : A → act E B) c :
  c_poisoned c = true → c_phase c = Clean →
  (∀ c, c_poisoned c = true → ∃ c', m c = (Err RecoveryRequired, c') ∧ refused c c' ∧ c_phase c' = c_phase c) →
  ∃ c', a_bind (a_map_err from m) k c = (Err (from RecoveryRequired), c') ∧ refused c c' ∧ c_phase c' = Clean.
Proof.
  intros Hp Hc Hm. destruct (Hm c Hp) as (c' & He & Hr & Hph). exists c'.
  unfold a_bind, a_map_err. rewrite He. by rewrite Hph.
Qed.
Lemma poisoned_guard_client c :
  c_poisoned c = true →
  ∃ c', guard_client sg c = (Err RecoveryRequired, c') ∧ refused c c' ∧ c_phase c' = c_phase c.
Proof.
  intros (c' & He & ? & ? & ? & ?)%poisoned_session. exists c'. unfold guard_client, a_bind.
  by rewrite He.
Qed.
Lemma poisoned_refresh c :
  c_poisoned c = true →
  ∃ c', refresh_scope_barrier sg c = (Err RecoveryRequired, c') ∧ refused c c' ∧ c_phase c' = c_phase c.
Proof.
  intros (c' & He & ? & ? & ? & ?)%poisoned_session. exists c'. unfold refresh_scope_barrier, a_bind.
  by rewrite He.
Qed.
Lemma locked_refused {E A} (m : act E A) c :
  (∀ c0, c_poisoned c0 = true → c_phase c0 = Clean → ∃ e c', m c0 = (Err e, c') ∧ refused c0 c' ∧ c_phase c' = Clean) →
  c_poisoned c = true → refused c (locked m c).2.
Proof.
  intros Hm Hp. unfold locked.
  destruct (Hm (mkCell (c_state c) (c_poisoned c) Clean (c_world c)) Hp eq_refl)
    as (e & c' & -> & Hr & Hph). simpl. unfold drop_guard. by rewrite Hph.
Qed.

Lemma step_refused op c : c_poisoned c = true → refused c (step sg op c).
Proof.
  intros Hp.
  assert (∀ E A (from : NativeSyncError → E) (m : act E A), refused c (run_mutation sg from m c).2) as Hrun.
  { intros. by destruct (poisoned_run from m c Hp) as (c' & -> & ?). }
  assert (∀ A (f : StoredSyncState → RuntimeState → result A fault) c0,
    c_poisoned c0 = true → c_phase c0 = Clean →
    ∃ e c', refreshed_read sg f c0 = (Err e, c') ∧ refused c0 c' ∧ c_phase c' = Clean) as Hread.
  { intros A f c0 Hp0 Hc0. unfold refreshed_read.
    destruct (poisoned_first Native (refresh_scope_barrier sg)
      (λ _, let^ runtime := a_map_err Native (guard_read_client sg) in
            let^ r := a_state (f runtime) in a_lift r) c0 Hp0 Hc0 poisoned_refresh) as (c' & -> & ?).
    by eexists _, _. }
  destruct op; simpl; try apply Hrun.
  - apply locked_refused; [|done]. intros c0 Hp0 Hc0. unfold read_view_json, a_bind at 1.
    destruct (Hread _ (λ runtime slot, view_read runtime (rt_journal slot) token request_json) c0 Hp0 Hc0)
      as (e & c' & -> & ?). by eexists _, _.
  - apply locked_refused; [|done]. intros c0 Hp0 Hc0. by apply Hread.
  - unfold bind_bootstrap_session, a_bind at 1, a_lift. destruct (validated expected) as [ex|]; [|done].
    apply locked_refused; [|done]. intros c0 Hp0 Hc0. unfold bootstrap_access. rewrite a_bind_assoc.
    destruct (poisoned_guard_client c0 Hp0) as (c' & He & Hr & Hph).
    unfold a_bind at 1, a_map_err. rewrite He. rewrite Hc0 in Hph. by eexists _, _.
Qed.
End result.

(** ** Unknown outcomes *)

(** A trace in the committed database that nothing but a commit reporting an error can
    leave: a commit or a schema definition that succeeds does not, nor does a
    cancellation. *)
Class CommitTrace `{!SurrealTypes, !Engine} (uncertain : db → Prop) : Prop := {
  trace_commit d t u d' : db_commit d t = (Ok u, d') → uncertain d' → uncertain d;
  trace_cancel d t o d' : db_cancel d t = (o, d') → uncertain d' → uncertain d;
  trace_define d tables d' : db_define d tables = Ok d' → uncertain d' → uncertain d;
}.

Section uncertain.
Context `{!SurrealTypes, !Engine, !EngineLaws, !Host, !JsonFloatText, !JsonText, !JsonTextLaws, !StateSerde, !StateSerdeLaws, !Ciborium, !Sha256, !BridgeSerde}.
Variable uncertain : db → Prop.
Context `{!CommitTrace uncertain}.
Variable sg : N.

(** *** Storage operations *)

(** A storage operation whose result says so when it left the trace. *)
Definition accounts {A} (m : io SyncStateError A) : Prop :=
  ∀ w, uncertain (w_db (m w).2) → uncertain (w_db w) ∨ outcome_unknown (m w).1 = true.
(** One that never leaves it. *)
Definition traceless {E A} (m : io E A) : Prop :=
  ∀ w, uncertain (w_db (m w).2) → uncertain (w_db w).

Lemma accounts_traceless {A} (m : io SyncStateError A) : traceless m → accounts m.
Proof. intros Hm w Hu. left. by apply Hm. Qed.
Lemma traceless_keeps {E A} (m : io E A) : keeps_db m → traceless m.
Proof. intros Hm w. by rewrite Hm. Qed.
Lemma accounts_keeps {A} (m : io SyncStateError A) : keeps_db m → accounts m.
Proof. intros Hm. by apply accounts_traceless, traceless_keeps. Qed.
Lemma accounts_bind {A B} (m : io SyncStateError A) (k : A → io SyncStateError B) :
  accounts m → (∀ a, accounts (k a)) → accounts (io_bind m k).
Proof.
  intros Hm Hk w. unfold io_bind. specialize (Hm w). destruct (m w) as [[a|e] w1]; simpl in *.
  - intros [Hu|?]%Hk; [|by right]. apply Hm in Hu as [?|?]; [by left|done].
  - intros [?|?]%Hm; [by left|by right].
Qed.
Lemma traceless_bind {E A B} (m : io E A) (k : A → io E B) :
  traceless m → (∀ a, traceless (k a)) → traceless (io_bind m k).
Proof.
  intros Hm Hk w. unfold io_bind. specialize (Hm w). destruct (m w) as [[a|e] w1]; simpl in *; [|done].
  intros Hu%Hk. by apply Hm.
Qed.

Lemma accounts_finish_transaction {A} t (operation : result A SyncStateError) :
  accounts (finish_transaction t operation).
Proof.
  intros w. unfold finish_transaction. destruct operation as [a|e].
  - destruct (db_commit (w_db w) t) as [[u|e] d] eqn:Hc; simpl; [|by right].
    intros Hu. left. by eapply trace_commit.
  - destruct (db_cancel (w_db w) t) as [[u|e'] d] eqn:Hc; simpl; intros Hu; left;
      by eapply trace_cancel.
Qed.
Lemma accounts_in_transaction {A} g (operation : tx A) : accounts (in_transaction g operation).
Proof.
  unfold in_transaction. apply accounts_bind; [apply accounts_keeps, keeps_begin|intros t].
  destruct (operation t) as [[a t']|e]; simpl; [|apply accounts_finish_transaction].
  intros w. unfold io_then. pose proof (keeps_check_session g w) as Hk.
  destruct (check_session g w) as [r w1]. simpl in *. rewrite <-Hk.
  apply accounts_finish_transaction.
Qed.
Lemma traceless_read_transaction {A} (f : db → result A SyncStateError) :
  traceless (in_read_transaction f).
Proof.
  unfold in_read_transaction. apply traceless_bind; [apply traceless_keeps, keeps_begin|].
  intros t w. destruct (db_cancel (w_db w) t) as [r d] eqn:Hc. simpl. intros Hu.
  by eapply trace_cancel.
Qed.

Ltac accounts_auto :=
  repeat first
    [ by apply accounts_keeps
    | apply accounts_in_transaction
    | apply accounts_keeps, keeps_map_err, keeps_database_client
    | apply accounts_keeps, keeps_check_session
    | match goal with
      | |- accounts (io_bind _ _) => apply accounts_bind; [|intros ?]
      | |- accounts (if decide ?P then _ else _) => destruct (decide P)
      | |- accounts (if ?b then _ else _) => destruct b
      | |- accounts (match ?x with _ => _ end) => destruct x
      end ].

Lemma accounts_load key : accounts (load (Some sg) key).
Proof. unfold load, migrate_v1. accounts_auto. Qed.
Lemma accounts_save_atomic o s : accounts (save_atomic (Some sg) o s).
Proof. unfold save_atomic. accounts_auto. apply accounts_load. Qed.
Lemma accounts_apply_transition current next : accounts (apply_transition_atomic (Some sg) current next).
Proof. unfold apply_transition_atomic. accounts_auto. apply accounts_load. Qed.
Lemma accounts_save_barrier key barrier : accounts (save_scope_barrier (Some sg) key barrier).
Proof. unfold save_scope_barrier. accounts_auto. Qed.
Lemma accounts_begin start manifest expected : accounts (begin (Some sg) start manifest expected).
Proof. unfold begin. accounts_auto. Qed.
Lemma accounts_stage_page raw expected incarnation :
  accounts (stage_page (Some sg) raw expected incarnation).
Proof. unfold stage_page. accounts_auto. Qed.
Lemma accounts_cancel manifest expected incarnation :
  accounts (cancel (Some sg) manifest expected incarnation).
Proof. unfold cancel. accounts_auto. Qed.
Lemma accounts_complete receipt expected incarnation clock :
  accounts (complete (Some sg) receipt expected incarnation clock).
Proof. unfold complete. accounts_auto. Qed.

Lemma traceless_inspect key : traceless (inspect key).
Proof.
  unfold inspect. apply traceless_bind; [by apply traceless_keeps|intros _]. apply traceless_read_transaction.
Qed.
Lemma traceless_resume manifest expected incarnation : traceless (resume manifest expected incarnation).
Proof.
  unfold resume. do 2 (apply traceless_bind; [by apply traceless_keeps|intros _]). apply traceless_read_transaction.
Qed.
Lemma traceless_load_barrier key : traceless (load_scope_barrier key).
Proof. apply traceless_keeps. intros w. apply load_scope_barrier_db. Qed.
Lemma traceless_define : traceless (define_schema (Some sg)).
Proof.
  unfold define_schema. apply traceless_bind; [apply traceless_keeps, keeps_check_session|intros _].
  apply traceless_bind; [apply traceless_keeps, keeps_map_err, keeps_database_client|].
  intros _ w. destruct (db_define (w_db w) _) eqn:Hd; simpl; [|done]. by eapply trace_define.
Qed.

(** *** The client *)

(** The trace is in the database only when the client is poisoned. *)
Definition known (c : cell) : Prop := uncertain (w_db (c_world c)) → c_poisoned c = true.

Lemma keeps_known_io {E F A} (m : io F A) : traceless m → keeps known (a_io (E := E) m).
Proof.
  intros Hm c Hc. unfold a_io. specialize (Hm (c_world c)). destruct (m (c_world c)) as [r w].
  intros Hu. by apply Hc, Hm.
Qed.

(** A mutation and its settlement. *)
Lemma keeps_known_settled {E A B} (m : io SyncStateError A)
    (k : result A SyncStateError → act E B) :
  accounts m → (∀ r, keeps known (k r)) →
  keeps known (let^ r := a_io m in let^ _ := settled_mutation r in k r).
Proof.
  intros Hm Hk c Hc. unfold a_bind at 1, a_io. specialize (Hm (c_world c)).
  destruct (m (c_world c)) as [r w]. simpl in *.
  assert (∃ c1, settled_mutation (E := E) r (mkCell (c_state c) (c_poisoned c) (c_phase c) w)
    = (Ok tt, c1) ∧ known c1) as (c1 & Hs & Hc1).
  { unfold settled_mutation, a_bind, known.
    destruct (outcome_unknown r) eqn:Hr; eexists; (split; [reflexivity|]); simpl; [done|].
    intros [?|?]%Hm; [by apply Hc|done]. }
  unfold a_bind. rewrite Hs. by apply Hk.
Qed.

Lemma keeps_known_update {E} f : keeps known (a_update (E := E) f).
Proof. by intros c Hc. Qed.
Lemma keeps_known_poison {E} : keeps known (a_poison (E := E)).
Proof. by intros c Hc. Qed.
Lemma keeps_known_phase {E} p : keeps known (a_phase (E := E) p).
Proof. by intros c Hc. Qed.
Lemma keeps_known_look {E A} (f : Observation → A) : keeps known (a_look (E := E) f).
Proof. by intros c Hc. Qed.
Lemma keeps_known_is_poisoned {E} : keeps known (a_is_poisoned (E := E)).
Proof. by intros c Hc. Qed.
Hint Resolve keeps_known_update keeps_known_poison keeps_known_phase keeps_known_look
  keeps_known_is_poisoned traceless_inspect traceless_resume traceless_load_barrier
  accounts_load accounts_save_atomic accounts_apply_transition accounts_save_barrier
  accounts_begin accounts_stage_page accounts_cancel accounts_complete : keeps.

Ltac known_auto :=
  repeat first
    [ progress eauto with keeps
    | apply keeps_known_settled; [by eauto with keeps|intros ?]
    | apply keeps_known_io; by eauto with keeps
    | keeps_step ].

Lemma known_drop c : known c → known (drop_guard c).
Proof.
  unfold known, drop_guard. intros Hc. destruct (c_phase c); [done|..]; simpl; intros Hu.
  - done.
  - by apply Hc.
Qed.
Lemma keeps_known_locked {E A} (m : act E A) : keeps known m → keeps known (locked m).
Proof.
  intros Hm c Hc. unfold locked.
  specialize (Hm (mkCell (c_state c) (c_poisoned c) Clean (c_world c)) Hc).
  destruct (m _) as [r c1]. by apply known_drop.
Qed.
Lemma keeps_known_ensure : keeps known (ensure_session sg).
Proof. unfold ensure_session. known_auto. Qed.
Hint Resolve keeps_known_ensure : keeps.
Lemma keeps_known_run {E A} from (m : act E A) :
  keeps known m → keeps known (run_mutation sg from m).
Proof. intros Hm. unfold run_mutation. known_auto. Qed.
Lemma keeps_known_client : keeps known (guard_client sg).
Proof. unfold guard_client. known_auto. Qed.
Lemma keeps_known_read_client : keeps known (guard_read_client sg).
Proof. unfold guard_read_client. known_auto. Qed.
Hint Resolve keeps_known_client keeps_known_read_client : keeps.
Lemma keeps_known_refresh : keeps known (refresh_scope_barrier sg).
Proof. unfold refresh_scope_barrier, take_runtime. known_auto. Qed.
Hint Resolve keeps_known_refresh : keeps.
Lemma keeps_known_recovery {A} : keeps known (recovery (A := A)).
Proof. unfold recovery. known_auto. Qed.
Hint Resolve keeps_known_recovery : keeps.
Lemma keeps_known_rotate {E} : keeps known (rotate_both (E := E)).
Proof. unfold rotate_both. known_auto. Qed.
Hint Resolve keeps_known_rotate : keeps.

Lemma keeps_known_persist prepared : keeps known (persist_and_install sg prepared).
Proof.
  unfold persist_and_install, arm_with_state, arm_mutation, publish, disarm_mutation. known_auto.
Qed.
Hint Resolve keeps_known_persist : keeps.
Lemma keeps_known_transition prepare : keeps known (transition sg prepare).
Proof. unfold transition. known_auto. Qed.
Lemma keeps_known_barrier block scope : keeps known (persist_barrier sg block scope).
Proof. unfold persist_barrier, arm_mutation, take_runtime. known_auto. Qed.
Hint Resolve keeps_known_transition keeps_known_barrier : keeps.

(** **** Local commits, responses, conflicts, subscriptions and reads *)

Lemma keeps_known_enqueue json : keeps known (enqueue_owned sg json).
Proof. unfold enqueue_owned, with_fingerprint. known_auto. Qed.
Lemma keeps_known_enqueue_bounded json count bytes :
  keeps known (enqueue_bounded_owned sg json count bytes).
Proof. unfold enqueue_bounded_owned. known_auto. Qed.
Lemma keeps_known_push json policy :
  keeps known (record_push_response_with_policy_owned sg json policy).
Proof. unfold record_push_response_with_policy_owned. known_auto. Qed.
Lemma keeps_known_pull json : keeps known (apply_pull_response_owned sg json).
Proof. unfold apply_pull_response_owned, disarm_mutation. known_auto. Qed.
Lemma keeps_known_keep_local id replacement :
  keeps known (resolve_conflict_keep_local_owned sg id replacement).
Proof. unfold resolve_conflict_keep_local_owned. known_auto. Qed.
Lemma keeps_known_merge id json : keeps known (resolve_conflict_merge_owned sg id json).
Proof. unfold resolve_conflict_merge_owned. known_auto. Qed.
Lemma keeps_known_start json : keeps known (start_subscription_json_owned sg json).
Proof. unfold start_subscription_json_owned. known_auto. Qed.
Lemma keeps_known_cancel_subscription id g : keeps known (cancel_subscription_owned sg id g).
Proof. unfold cancel_subscription_owned. known_auto. Qed.
Lemma keeps_known_response json : keeps known (apply_subscription_response_json_owned sg json).
Proof.
  unfold apply_subscription_response_json_owned, apply_subscription_response_owned. known_auto.
Qed.
Lemma keeps_known_read {A} (f : StoredSyncState → RuntimeState → result A fault) :
  keeps known (refreshed_read sg f).
Proof. unfold refreshed_read. known_auto. Qed.
Hint Resolve keeps_known_read : keeps.
Lemma keeps_known_view token json : keeps known (read_view_json sg token json).
Proof. unfold read_view_json. known_auto. Qed.

(** **** Bootstraps *)

Lemma keeps_ext {E A} (I : cell → Prop) (m m' : act E A) :
  (∀ c, m c = m' c) → keeps I m' → keeps I m.
Proof. intros Heq Hm c Hc. rewrite Heq. by apply Hm. Qed.

Lemma a_io_bind {E F A B} (m : io F A) (k : result A F → act E B) c :
  a_bind (a_io m) k c =
  k (m (c_world c)).1 (mkCell (c_state c) (c_poisoned c) (c_phase c) (m (c_world c)).2).
Proof. unfold a_bind, a_io. by destruct (m (c_world c)). Qed.

Lemma keeps_known_access {A} session (m : act NativeBootstrapError A) :
  keeps known m → keeps known (access sg session m).
Proof.
  intros Hm. apply keeps_known_locked. unfold bootstrap_access. known_auto.
Qed.
Lemma keeps_known_finish {A B} (m : io SyncStateError A) (k : A → act NativeBootstrapError B) :
  accounts m → (∀ a, keeps known (k a)) →
  keeps known (let^ r := a_io m in let^ a := access_finish sg r true in k a).
Proof.
  intros Hm Hk. eapply keeps_ext; [|apply (keeps_known_settled m (λ r,
    let^ a := (let^ session := a_try (ensure_session sg) in
               if outcome_unknown r || negb (is_ok session) then
                 let^ _ := a_update invalidate_runtime in a_err BRecoveryRequired
               else let^ _ := disarm_mutation in a_lift (map_err from_store r)) in k a)); [done|]].
  - intros c. rewrite !a_io_bind. unfold access_finish. by rewrite a_bind_assoc.
  - intros r. unfold disarm_mutation. known_auto.
Qed.
Lemma keeps_known_finish_last {A} (m : io SyncStateError A) :
  accounts m → keeps known (let^ r := a_io m in access_finish sg r true).
Proof.
  intros Hm. eapply keeps_ext; [|apply (keeps_known_finish m a_ret Hm)]; [|known_auto].
  intros c. rewrite !a_io_bind. unfold a_bind. by destruct (access_finish _ _ _ _) as [[]].
Qed.
Lemma keeps_known_finish_read {A} (r : result A SyncStateError) :
  keeps known (access_finish sg r false).
Proof. unfold access_finish, disarm_mutation. known_auto. Qed.
Lemma keeps_known_writable : keeps known (check_writable sg).
Proof. unfold check_writable. known_auto. Qed.
Hint Resolve keeps_known_finish_read keeps_known_writable : keeps.

Lemma keeps_known_begin session start manifest :
  keeps known (begin_owned sg session start manifest).
Proof.
  unfold begin_owned. known_auto. apply keeps_known_access. unfold arm_mutation.
  apply keeps_a_bind; [known_auto|intros _]. apply keeps_a_bind; [known_auto|intros _].
  apply keeps_known_finish; known_auto.
Qed.
Lemma keeps_known_page session stage bytes : keeps known (page_owned sg session stage bytes).
Proof.
  unfold page_owned. known_auto. apply keeps_known_access. unfold arm_mutation.
  apply keeps_a_bind; [known_auto|intros _]. apply keeps_a_bind; [known_auto|intros _].
  apply keeps_known_finish_last. known_auto.
Qed.
Lemma keeps_known_cancel session stage : keeps known (cancel_owned sg session stage).
Proof.
  unfold cancel_owned. known_auto. apply keeps_known_access. unfold arm_mutation.
  apply keeps_a_bind; [known_auto|intros _].
  apply keeps_known_finish_last. known_auto.
Qed.
Lemma keeps_known_bind expected binding : keeps known (bind_bootstrap_session sg expected binding).
Proof.
  unfold bind_bootstrap_session. known_auto. apply keeps_known_locked.
  unfold bootstrap_access, bind_binding. known_auto.
Qed.

Lemma keeps_known_complete session stage receipt clock during readings :
  keeps known (complete_owned sg session stage receipt clock during readings).
Proof.
  assert (∀ clk ticket, keeps known (complete_bootstrap_bound sg receipt (bse_expected session)
    (bst_incarnation stage) clk during ticket)) as Hbound.
  { intros clk ticket. unfold complete_bootstrap_bound, arm_mutation.
    do 3 (apply keeps_a_bind; [known_auto|intros ?]; try (destruct (_ : bool); [known_auto|])).
    intros c Hc. generalize (c_poisoned c). intros b. revert c Hc.
    match goal with |- ∀ c, known c → known (?m c).2 => change (keeps known m) end.
    unfold completion_refused, completion_publish, disarm_mutation. known_auto. }
  unfold complete_owned. do 5 (apply keeps_a_bind; [known_auto|intros ?]).
  apply keeps_a_bind; [apply keeps_a_try, keeps_known_locked, Hbound|]. intros r. known_auto.
Qed.

(** **** Opening *)

(** The journal of [key] is not stored in the first format. *)
Definition unmigrated (key : SyncStateKey) (c : cell) : Prop :=
  contents (w_db (c_world c)) (record_id key) = None.
Definition ready (key : SyncStateKey) (c : cell) : Prop := known c ∧ unmigrated key c.

Lemma ready_known key c : ready key c → known c.
Proof. by intros [? _]. Qed.

(** Without a row of the first format there is nothing to migrate. *)
Lemma load_unmigrated key w :
  contents (w_db w) (record_id key) = None → w_db (load (Some sg) key w).2 = w_db w.
Proof.
  intros Hn. unfold load, io_bind at 1, io_lift at 1. destruct (validate_key key); [|done].
  unfold io_bind at 1. pose proof (keeps_map_err CoreError _ keeps_database_client w) as Hk.
  destruct (io_map_err CoreError database_client w) as [[[]|e] w1]; simpl in *; [|done].
  unfold io_bind at 1, io_read. destruct (load_v2 Direct key (w_db w1)) as [[state|]|e]; [done| |done].
  unfold io_bind at 1, select_as. rewrite Hk.
  destruct (db_select (w_db w) (record_id key)) as [x|e] eqn:Hx; [|done].
  apply db_select_Ok in Hx. rewrite Hn in Hx. by subst x.
Qed.

(** A save that fails with a known outcome has changed nothing. *)
Lemma save_unchanged state e w w' :
  contents (w_db w) (record_id (state_key state)) = None →
  save_atomic (Some sg) None state w = (Err e, w') → outcome_unknown (Err (A := ()) e) = false →
  contents (w_db w') (record_id (state_key state)) = None.
Proof.
  intros Hn Hs Hu. unfold save_atomic in Hs.
  apply io_bind_inv in Hs as [(e1 & w1 & [= _ <-] & [= -> ->])|([key rows] & w1 & [= Hp <-] & Hs)];
    [done|].
  apply prepare_write_Ok in Hp as (-> & _).
  pose proof (load_unmigrated (state_key state) w Hn) as Hl.
  apply io_bind_inv in Hs as [(e1 & w1 & Hlo & [= -> ->])|(x & w1 & Hlo & Hs)]; rewrite Hlo in Hl;
    simpl in Hl; [by rewrite Hl|].
  apply in_transaction_outcome in Hs. rewrite Hl in Hs.
  inversion Hs as [|? Hsame|]; subst; [by rewrite (Hsame _)|done].
Qed.

Lemma keeps_ready {E A} key (m : act E A) :
  keeps known m → (∀ c, same (w_db (c_world (m c).2)) (w_db (c_world c))) → keeps (ready key) m.
Proof.
  intros Hm Hs c [Hk Hn]. split; [by apply Hm|]. unfold unmigrated. by rewrite (Hs c _).
Qed.
Lemma ready_load {E} key : keeps (ready key) (a_io (E := E) (load (Some sg) key)).
Proof.
  intros c [Hk Hn]. pose proof (load_unmigrated key (c_world c) Hn) as Hl. unfold a_io.
  destruct (load _ _ _) as [r w]. simpl in *. unfold ready, known, unmigrated. simpl.
  by rewrite Hl.
Qed.

Lemma ready_define {E} key : keeps (ready key) (a_io (E := E) (define_schema (Some sg))).
Proof.
  apply keeps_ready; [apply keeps_known_io, traceless_define|]. intros c. unfold a_io.
  pose proof (open_define_same sg (c_world c)) as Hs. by destruct (define_schema _ _).
Qed.

Lemma settled_world {E A} (r : result A SyncStateError) c :
  ∃ c1, settled_mutation (E := E) r c = (Ok tt, c1) ∧ c_world c1 = c_world c.
Proof. unfold settled_mutation. destruct (outcome_unknown r); by eexists. Qed.

Lemma save_initial_known options :
  triple (ready (options_key options)) (save_initial sg options) (λ _, known) known.
Proof.
  unfold save_initial. eapply triple_bind; [apply (triple_keeps (ready (options_key options)));
    [apply keeps_ready; [apply keeps_known_phase|done]|apply ready_known]|intros ?].
  intros c [Hk Hn]. rewrite a_io_bind.
  destruct (save_atomic (Some sg) None (initial_state options) (c_world c)) as [r w] eqn:Hs.
  pose proof (accounts_save_atomic None (initial_state options) (c_world c)) as Ha.
  rewrite Hs in Ha. simpl in *. set (c0 := mkCell _ _ _ w).
  assert (∃ c1, settled_mutation (E := NativeSyncError) r c0 = (Ok tt, c1) ∧ known c1 ∧
    c_world c1 = w) as (c1 & Hset & Hk1 & Hw1).
  { unfold settled_mutation, a_bind, known.
    destruct (outcome_unknown r) eqn:Hr; eexists; (split; [reflexivity|]); simpl; (split; [|done]);
      [done|]. intros [?|?]%Ha; [by apply Hk|done]. }
  unfold a_bind at 1. rewrite Hset.
  pose proof (keeps_known_is_poisoned (E := NativeSyncError) c1 Hk1) as Hk2.
  assert (c_world (a_is_poisoned (E := NativeSyncError) c1).2 = mkWorld (w_db w) (S (w_time w))) as Hw2
    by by rewrite <-Hw1.
  unfold a_bind at 1. destruct (a_is_poisoned c1) as [[b|e] c2]; simpl in Hk2, Hw2; [|done].
  destruct b; [done|]. destruct r as [wr|e]; [done|]. destruct e; try done.
  rewrite a_io_bind.
  assert (ready (options_key options) c2) as Hr2.
  { split; [done|]. unfold unmigrated. rewrite Hw2. simpl. by eapply save_unchanged in Hs. }
  pose proof (ready_load (E := NativeSyncError) _ c2 Hr2) as [Hk3 _]. unfold a_io in Hk3.
  destruct (load _ _ (c_world c2)) as [loaded w3]. simpl in Hk3 |- *.
  unfold a_bind, a_lift. destruct loaded as [[s|]|]; simpl; done.
Qed.

Lemma create_known options :
  triple (ready (options_key options)) (create_if_missing sg options) (λ _, known) known.
Proof.
  set (key := options_key options). unfold create_if_missing. fold key.
  assert (∀ E A (m : act E A), keeps known m →
    (∀ c, same (w_db (c_world (m c).2)) (w_db (c_world c))) →
    triple (ready key) m (λ _, ready key) known) as Hready.
  { intros E A m Hm Hs. apply triple_keeps; [by apply keeps_ready|apply ready_known]. }
  eapply triple_bind; [apply Hready; [apply keeps_known_phase|done]|intros ?].
  eapply triple_bind; [apply triple_keeps; [apply ready_define|apply ready_known]|intros defined].
  eapply triple_bind; [apply Hready; [known_auto|by destruct (schema_uncertain defined)]|intros ?].
  eapply triple_bind; [apply Hready; [unfold settled_mutation; known_auto|]|intros ?].
  { intros c. destruct (settled_world (E := NativeSyncError) defined c) as (c1 & -> & Hw).
    simpl. by rewrite Hw. }
  destruct (schema_uncertain defined); [by apply triple_err, ready_known|].
  eapply triple_bind; [apply Hready; [apply keeps_a_lift|done]|intros ?].
  eapply triple_bind; [apply triple_keeps; [apply ready_load|apply ready_known]|intros loaded].
  eapply triple_bind; [apply Hready; [apply keeps_a_lift|done]|intros found].
  eapply (triple_bind _ _ _ _ (λ _, known)).
  { destruct found; [by intros c [? _]|]. apply save_initial_known. }
  intros state. apply triple_keeps; [known_auto|done].
Qed.

Lemma initialize_known options mode c :
  known c → (mode = CreateIfMissing → unmigrated (options_key options) c) →
  known (initialize_runtime sg options mode c).2.
Proof.
  intros Hk Hm. apply (triple_post (λ c, known c ∧
    (mode = CreateIfMissing → unmigrated (options_key options) c))); [|done].
  clear c Hk Hm. unfold initialize_runtime.
  eapply triple_bind; [apply triple_keeps; [|by intros c [? _]]|intros ?].
  { intros c [Hk Hm]. split; [by apply keeps_known_ensure|]. intros Hc.
    unfold unmigrated. destruct (inert_ensure sg c) as [-> _]. by apply Hm. }
  eapply (triple_bind _ _ _ _ (λ e c, known c ∧
    (e = None → unmigrated (options_key options) c))).
  { case_decide as Hmode.
    - intros c [Hk _]. assert (keeps known (let^ e := open_existing options in a_ret (Some e))) as Ho.
      { unfold open_existing. known_auto. }
      specialize (Ho c Hk). unfold a_bind in *. destruct (open_existing options c) as [[x|e] c1]; [|done].
      by split.
    - intros c [Hk Hm]. split; [done|]. intros _. apply Hm. by destruct mode. }
  intros existing. eapply (triple_bind _ _ _ _ (λ _ c, known c ∧
    (existing = None → unmigrated (options_key options) c))); [by intros c Hc|].
  intros runtime. eapply (triple_bind _ _ _ _ (λ _, known)).
  { destruct runtime; [by intros c [? _]|].
    eapply (triple_bind _ _ _ _ (λ _, known)).
    - destruct existing as [x|]; [by intros c [? _]|]. intros c [Hk Hn].
      apply (create_known options). split; [done|]. by apply Hn.
    - intros opened. apply triple_keeps; [unfold install_opened; known_auto|done]. }
  intros ?. apply triple_keeps; [unfold take_runtime, disarm_mutation; known_auto|done].
Qed.

(** *** Every operation *)

(** Opening a journal that may be missing does not have to migrate one of the first
    format. *)
Definition no_migration (op : native_op) (c : cell) : Prop :=
  match op with
  | OpOpen options CreateIfMissing => unmigrated (options_key options) c
  | _ => True
  end.

Lemma step_known op c : known c → no_migration op c → known (step sg op c).
Proof.
  intros Hk Hn. destruct op; simpl;
    try (revert c Hk Hn; match goal with
      | |- ∀ c, known c → no_migration (OpOpen _ _) c → _ => idtac
      | |- ∀ c, known c → _ → known (?m c).2 => intros c Hk _; revert c Hk; change (keeps known m)
      end).
  1: { intros c Hk Hn. unfold run_mutation, a_bind at 1, a_map_err.
    pose proof (keeps_known_ensure c Hk) as Hk1. destruct (inert_ensure sg c) as [Hd _].
    destruct (ensure_session sg c) as [[[]|e] c1]; simpl in *; [|done].
    unfold locked. set (c2 := mkCell _ _ _ _).
    assert (known (initialize_runtime sg options mode c2).2) as Hi.
    { apply initialize_known; [done|]. intros ->. unfold unmigrated. simpl. by rewrite Hd. }
    destruct (initialize_runtime _ _ _ c2) as [r c3]. by apply known_drop. }
  all: try (apply keeps_known_run, keeps_known_locked).
  all: try (apply keeps_known_run).
  all: try (apply keeps_known_locked).
  all: first [apply keeps_known_enqueue|apply keeps_known_enqueue_bounded|apply keeps_known_push
    |apply keeps_known_pull|apply keeps_known_transition|apply keeps_known_keep_local
    |apply keeps_known_merge|apply keeps_known_start|apply keeps_known_cancel_subscription
    |apply keeps_known_response|apply keeps_known_view|apply keeps_known_read
    |apply keeps_known_bind|apply keeps_known_begin|apply keeps_known_page
    |apply keeps_known_cancel|apply keeps_known_complete].
Qed.

(** Operations one after the other, none of them a migration. *)
Fixpoint migrates_nothing (ops : list native_op) (c : cell) : Prop :=
  match ops with
  | [] => True
  | op :: ops => no_migration op c ∧ migrates_nothing ops (step sg op c)
  end.

Lemma run_known ops c :
  known c → migrates_nothing ops c → known (foldl (λ c op, step sg op c) c ops).
Proof.
  revert c. induction ops as [|op ops IH]; intros c Hk; simpl; [done|].
  intros [Hn Hr]. apply IH; [by apply step_known|done].
Qed.
End uncertain.

Section refused_runs.
Context `{!SurrealTypes, !Engine, !EngineLaws, !Host, !JsonFloatText, !JsonText, !JsonTextLaws, !StateSerde, !StateSerdeLaws, !Ciborium, !Sha256, !BridgeSerde}.
Variable sg : N.

(** A poisoned client touches nothing: every later operation leaves the installed state
    and the database as they are, and the client stays poisoned. *)
Lemma run_refused ops c :
  c_poisoned c = true → refused c (foldl (λ c op, step sg op c) c ops).
Proof.
  revert c. induction ops as [|op ops IH]; intros c Hp; [done|]. simpl.
  destruct (step_refused sg op c Hp) as (Hs & Hp' & Hd).
  destruct (IH _ Hp') as (Hs' & ? & Hd'). unfold refused. by rewrite Hs', Hd', Hs, Hd.
Qed.
End refused_runs.
