(* ===== verification/QueueProps.v ===== *)
(** * The pending window and the admission of commits.

    The queue writes each commit as the JSON string of its JSON text and charges the bytes
    of the array of these strings.  The results compare the incremental writers with that
    array: the window is the longest prefix that fits, admission is its length. *)

From Stdlib Require Import Strings.Byte.
From S2P Require Import Prelude Protocol NativeErrors Json Queue.

Section queue_props.
Context {T : Type} `{!JsonChunks T, !JsonChunks string}.

Lemma take_S_full {A} (l : list A) n m : n < m → take (S n) (take m l) = take (S n) l.
Proof. intros Hn. rewrite take_take. f_equal. lia. Qed.

Lemma limits_Ok count bytes : limits count bytes = Ok tt → (2 ≤ bytes ∧ 0 < count)%N.
Proof. unfold limits. intros Hl. case_decide as Hd; [done|]. lia. Qed.

(** The pending window is the longest prefix of the outbox that fits.  It holds the
    JSON texts of the first [k] commits, [k] within the count limit; its byte count is the
    length of the JSON array of these texts and within the byte limit; [k] is maximal; the
    remaining count is exact; and the window reports "first commit too large" exactly when
    a pending commit does not fit on its own. *)
Theorem window_longest_prefix revision (items : list T) es count max_bytes :
  Forall2 entry_of items es → limits count max_bytes = Ok tt →
  (vec_len items ≤ u32_max)%N →
  ∃ k, window revision items count max_bytes =
    Ok (mkPendingWindow revision (take k es).*1 (array_bytes (take k es).*2)
          (vec_len items - N.of_nat k)
          (bool_decide (k = 0 ∧ items ≠ []))) ∧
    (N.of_nat k ≤ count)%N ∧ k ≤ length items ∧
    (array_bytes (take k es).*2 ≤ max_bytes)%N ∧
    ((N.of_nat k < count)%N → k < length items →
       (max_bytes < array_bytes (take (S k) es).*2)%N).
Proof.
  intros Hes Hl Hlen. pose proof (Forall2_length _ _ _ Hes) as Hle.
  destruct (limits_Ok _ _ Hl) as [Hb Hc].
  destruct (window_loop_exact max_bytes (take (N.to_nat count) items) (take (N.to_nat count) es) [])
    as (k & Hk & Hloop & Hfit & Hstop).
  { by apply Forall2_take. }
  { change (array_bytes [].*2) with 2%N. lia. }
  rewrite length_take in Hk, Hstop, Hloop. simpl in Hloop, Hfit, Hstop.
  rewrite take_take, Nat.min_l in Hloop, Hfit by lia.
  exists k. split; [|split; [lia|split; [lia|split; [done|]]]]; cycle 1.
  { intros Hkc Hki. rewrite <-(take_S_full es k (N.to_nat count)) by lia. apply Hstop. lia. }
  unfold window. rewrite Hl. simpl.
  change (window_loop max_bytes _ [] 2) with
    (window_loop max_bytes (take (N.to_nat count) items) [] (array_bytes [])).
  rewrite Hloop. simpl.
  assert (vec_len (take k es).*1 = N.of_nat k) as ->.
  { unfold vec_len. rewrite length_fmap, length_take. lia. }
  rewrite (proj2 (N.ltb_ge _ _)) by lia. do 2 f_equal. apply bool_decide_ext.
  assert (take k es = [] ↔ k = 0 ∨ es = []) as ->.
  { destruct k, es; simpl; naive_solver. }
  destruct items as [|x items], es as [|y es]; simpl in *; try lia; [naive_solver lia|].
  destruct k; [|naive_solver lia]. split; [done|]. intros _. split; [by left|]. lia.
Qed.

(** C31: a commit is admitted to the bounded queue exactly when the queue has a free place
    and the JSON array of all the texts, the new one included, fits the byte limit;
    otherwise the answer is the capacity error. *)
Theorem admits_iff_fits (items : list T) (candidate : T) es count bytes :
  Forall2 entry_of (items ++ [candidate]) es → limits count bytes = Ok tt →
  admits items candidate count bytes =
  if decide ((vec_len items < count)%N ∧ (array_bytes es.*2 ≤ bytes)%N)
  then Ok tt else Err QueueCapacity.
Proof.
  intros Hes Hl. destruct (limits_Ok _ _ Hl) as [Hb Hc]. unfold admits. rewrite Hl. simpl.
  destruct (N.leb_spec count (vec_len items)); [by rewrite decide_False by lia|].
  pose proof (admits_loop_spec bytes (items ++ [candidate]) es [] Hes) as Hloop. simpl in Hloop.
  change (array_bytes []) with 2%N in Hloop. rewrite Hloop by done.
  destruct (N.leb_spec (array_bytes es.*2) bytes); [by rewrite decide_True|].
  by rewrite decide_False by lia.
Qed.
End queue_props.

(** ** Witnesses: texts as commits *)

(** A serializer of plain ASCII texts: the quotes and the characters, in three chunks. *)
Definition quoted_chunks (s : string) : list (list byte) * bool :=
  ([[Byte.x22]; String.list_byte_of_string s; [Byte.x22]], true).
#[local] Instance quoted_json : JsonChunks string := quoted_chunks.

Definition text_entry (s : string) : string * N :=
  let quote := String (Ascii.ascii_of_N 34) EmptyString in
  let raw := quote +:+ s +:+ quote in (raw, (str_len raw + 2)%N).

Definition fx_queue : list string := ["ab"; "c"; "defg"].

Lemma fx_queue_entries : Forall2 entry_of fx_queue (text_entry <$> fx_queue).
Proof.
  repeat constructor; (eexists; split; [reflexivity|]; split; [reflexivity|]; split; [|reflexivity]);
    vm_compute; done.
Qed.

Lemma window_longest_prefix_witness :
  ∃ k, window 7 fx_queue 8 16 =
    Ok (mkPendingWindow 7 (take k (text_entry <$> fx_queue)).*1
          (array_bytes (take k (text_entry <$> fx_queue)).*2) (3 - N.of_nat k)
          (bool_decide (k = 0 ∧ fx_queue ≠ []))) ∧ (N.of_nat k ≤ 8)%N.
Proof.
  destruct (window_longest_prefix 7 fx_queue (text_entry <$> fx_queue) 8 16 fx_queue_entries)
    as (k & Hw & Hk & _); [reflexivity|vm_compute; done|]. exists k. split; [exact Hw|exact Hk].
Defined.

Lemma admits_iff_fits_witness :
  admits ["ab"; "c"] "defg" 8 22 =
  if decide ((2 < 8)%N ∧ (array_bytes (text_entry <$> fx_queue).*2 ≤ 22)%N)
  then Ok tt else Err QueueCapacity.
Proof.
  exact (admits_iff_fits ["ab"; "c"] "defg" (text_entry <$> fx_queue) 8 22
           fx_queue_entries eq_refl).
Defined.
