(* ===== verification/Memory.v ===== *)
(** * An engine in memory, and small serializers.

    Instances of the parameters of the native model: an engine that keeps its rows in
    memory and never fails, a journal codec for values listed in a table, and a handle
    that never changes.  They show that the laws the proofs rely on hold together, and the
    witnesses compute with them. *)

From Stdlib Require Import Strings.Byte.
From S2P Require Import Prelude Protocol Subscription ClientState Validate Client Canonical NativeErrors Json Wire NativeCodec Engine StateRows StateLoad Stage StateStore StateProps.

(** ** Equality of values *)

Definition value_dec_of {leaf} `{!EqDecision leaf}
  : ∀ x y : SurrealValue leaf, Decision (x = y).
Proof.
  refine (fix go (a b : SurrealValue leaf) {struct a} : Decision (a = b) :=
    let _ : EqDecision (SurrealValue leaf) := @go in
    match a, b return Decision (a = b) with
    | SvNone, SvNone => left eq_refl
    | SvNull, SvNull => left eq_refl
    | SvBool x, SvBool y => cast_if (decide (x = y))
    | SvInt x, SvInt y => cast_if (decide (x = y))
    | SvFloat x, SvFloat y => cast_if (decide (x = y))
    | SvDecimal x, SvDecimal y => cast_if (decide (x = y))
    | SvString x, SvString y => cast_if (decide (x = y))
    | SvBytes x, SvBytes y => cast_if (decide (x = y))
    | SvDuration x, SvDuration y => cast_if (decide (x = y))
    | SvDatetime x, SvDatetime y => cast_if (decide (x = y))
    | SvUuid x, SvUuid y => cast_if (decide (x = y))
    | SvGeometry x, SvGeometry y => cast_if (decide (x = y))
    | SvTable x, SvTable y => cast_if (decide (x = y))
    | SvRecordId t k, SvRecordId t' k' => cast_if_and (decide (t = t')) (gok k k')
    | SvFile x, SvFile y => cast_if (decide (x = y))
    | SvRange x, SvRange y => cast_if (decide (x = y))
    | SvRegex x, SvRegex y => cast_if (decide (x = y))
    | SvArray x, SvArray y => cast_if (decide (x = y))
    | SvObject x, SvObject y => cast_if (decide (x = y))
    | SvSet x, SvSet y => cast_if (decide (x = y))
    | _, _ => right _
    end
  with gok (a b : RecordIdKey leaf) {struct a} : Decision (a = b) :=
    let _ : EqDecision (SurrealValue leaf) := @go in
    match a, b return Decision (a = b) with
    | KeyNumber x, KeyNumber y => cast_if (decide (x = y))
    | KeyString x, KeyString y => cast_if (decide (x = y))
    | KeyUuid x, KeyUuid y => cast_if (decide (x = y))
    | KeyArray x, KeyArray y => cast_if (decide (x = y))
    | KeyObject x, KeyObject y => cast_if (decide (x = y))
    | KeyRange x, KeyRange y => cast_if (decide (x = y))
    | _, _ => right _
    end for go); congruence.
Defined.
#[export] Instance SurrealValue_eq_dec {leaf} `{!EqDecision leaf} : EqDecision (SurrealValue leaf) :=
  value_dec_of.
#[export] Instance RecordIdKey_eq_dec {leaf} `{!EqDecision leaf} : EqDecision (RecordIdKey leaf).
Proof.
  refine (λ a b, match a, b return Decision (a = b) with
    | KeyNumber x, KeyNumber y => cast_if (decide (x = y))
    | KeyString x, KeyString y => cast_if (decide (x = y))
    | KeyUuid x, KeyUuid y => cast_if (decide (x = y))
    | KeyArray x, KeyArray y => cast_if (decide (x = y))
    | KeyObject x, KeyObject y => cast_if (decide (x = y))
    | KeyRange x, KeyRange y => cast_if (decide (x = y))
    | _, _ => right _
    end); congruence.
Defined.

(** Types without special leaves; a record id is a table, a colon and a text key, and a
    table with a leading underscore is refused. *)
Definition plain_record (s : string) : option (string * RecordIdKey Empty_set) :=
  match split_colon s with
  | Some (table, key) =>
      if String.prefix "_" table then None else Some (table, KeyString key)
  | None => None
  end.
#[export] Instance plain_types : SurrealTypes := {|
  leaf := Empty_set;
  decimal_to_string := Empty_set_rect _;
  decimal_from_str _ := None;
  uuid_to_string := Empty_set_rect _;
  uuid_from_str _ := None;
  leaf_to_sql := Empty_set_rect _;
  record_to_sql t k := match k with KeyString s => t +:+ ":" +:+ s | _ => t end;
  parse_simple := plain_record;
  set_from := id;
  base64_encode := String.string_of_list_byte;
  base64_decode s := Some (String.list_byte_of_string s);
  f64_from_decimal _ := None;
|}.
#[export] Instance leaf_eq_dec : EqDecision leaf.
Proof. intros []. Defined.
#[export] Instance plain_rid_eq_dec : EqDecision rid.
Proof.
  refine (λ a b, match a, b return Decision (a = b) with
    | mkRid t k, mkRid t' k' => cast_if_and (decide (t = t')) (decide (k = k'))
    end); congruence.
Defined.

(** ** The engine *)

(** The writes so far, the latest first, and the tables. *)
Record memory := mkMemory { mem_writes : list (rid * option row); mem_tables : gset string }.

Definition mem_contents (d : memory) (r : rid) : option row :=
  mjoin (snd <$> find_first (λ w, bool_decide (w.1 = r)) (mem_writes d)).
Definition mem_put (d : memory) (r : rid) (x : option row) : memory :=
  mkMemory ((r, x) :: mem_writes d) ({[r_table r]} ∪ mem_tables d).
(** Every record of a table, once. *)
Definition mem_rows (d : memory) : list (rid * row) :=
  omap (λ r, (r,.) <$> mem_contents d r) (remove_dups (mem_writes d).*1).

#[export] Instance memory_engine : Engine := {|
  db := memory;
  db_select d r := Ok (mem_contents d r);
  db_select_where d t p n :=
    Ok (take n (filter (λ rx, r_table rx.1 = t ∧ p rx.1 rx.2 = true) (mem_rows d)));
  db_upsert d r x := Ok (Some x, mem_put d r (Some x));
  db_create d r x :=
    match mem_contents d r with None => Ok (Some x, mem_put d r (Some x)) | Some _ => Err tt end;
  db_delete d r := Ok (mem_contents d r, mem_put d r None);
  db_set_fence d r f :=
    Ok (mem_put d r match mem_contents d r with
                    | Some (RowMeta m _) => Some (RowMeta m (Some f))
                    | x => x
                    end);
  db_info d := Ok (Some (mem_tables d ∪ list_to_set (r_table <$> (mem_writes d).*1)));
  db_define d ts := Ok (mkMemory (mem_writes d) (list_to_set ts ∪ mem_tables d));
  sql_json_len s := (str_len s + 2)%N;
  sql_json_array_len l := foldr (λ s n, str_len s + n)%N 0%N l;
  db_begin d := Ok d;
  db_commit _ t := (Ok tt, t);
  db_cancel d _ := (Ok tt, d);
|}.

Lemma mem_put_eq d r x : mem_contents (mem_put d r x) r = x.
Proof. unfold mem_contents, find_first. simpl. rewrite bool_decide_eq_true_2 by done. by destruct x. Qed.
Lemma mem_put_ne d r x r' : r' ≠ r → mem_contents (mem_put d r x) r' = mem_contents d r'.
Proof.
  intros Hne. unfold mem_contents, find_first. simpl. rewrite bool_decide_eq_false_2 by congruence.
  destruct (position _ (mem_writes d)) as [[i y]|]; done.
Qed.
Lemma mem_contents_written d r x : mem_contents d r = Some x → r ∈ (mem_writes d).*1.
Proof.
  unfold mem_contents. destruct (find_first _ _) as [[r' y]|] eqn:Hf; [|done]. intros _.
  apply find_first_Some in Hf as [Hin Hr]. apply bool_decide_eq_true in Hr. simpl in Hr. subst r'.
  apply list_elem_of_fmap. by exists (r, y).
Qed.

Lemma elem_of_mem_rows d r x : (r, x) ∈ mem_rows d ↔ mem_contents d r = Some x.
Proof.
  unfold mem_rows. rewrite list_elem_of_omap. split.
  - intros (r' & _ & Hr). destruct (mem_contents d r') eqn:Hc; [|done]. by injection Hr as -> ->.
  - intros Hx. exists r. split; [by eapply elem_of_remove_dups, mem_contents_written|]. by rewrite Hx.
Qed.
Lemma NoDup_mem_rows d : NoDup (mem_rows d).*1.
Proof.
  unfold mem_rows. pose proof (NoDup_remove_dups (mem_writes d).*1) as Hn. revert Hn.
  generalize (remove_dups (mem_writes d).*1). intros l. induction l as [|r l IH]; csimpl; [constructor|].
  intros [Hr Hl]%NoDup_cons. destruct (mem_contents d r); csimpl; [|by apply IH].
  constructor; [|by apply IH]. intros ([r' x] & -> & (r'' & Hr'' & Hx)%list_elem_of_omap)%list_elem_of_fmap.
  destruct (mem_contents d r''); [|done]. by injection Hx as -> _.
Qed.

#[export] Instance memory_laws : EngineLaws.
Proof.
  refine {| rid_eq_dec := plain_rid_eq_dec; contents := mem_contents : db → rid → option row |}; simpl.
  - by intros d r x [= <-].
  - intros d t p n l [= <-]. eexists. split; [|split; [|done]].
    + eapply sublist_NoDup; [apply NoDup_mem_rows|]. apply fmap_sublist, sublist_filter.
    + intros r x. rewrite list_elem_of_filter, elem_of_mem_rows. simpl. naive_solver.
  - intros d r x o d' [= <- <-]. rewrite mem_put_eq. split; [done|]. split; [done|].
    intros. by apply mem_put_ne.
  - intros d r x o d' Hc. destruct (mem_contents d r) eqn:Hd; [done|]. injection Hc as <- <-.
    rewrite mem_put_eq. repeat split; try done. intros. by apply mem_put_ne.
  - intros d r o d' [= <- <-]. rewrite mem_put_eq. repeat split. intros. by apply mem_put_ne.
  - intros d r f d' [= <-]. rewrite mem_put_eq. split; [done|]. intros. by apply mem_put_ne.
  - by intros d ts d' [= <-] r.
  - intros d o r x [= <-] Hx. eexists. split; [done|]. apply elem_of_union. right.
    apply elem_of_list_to_set, list_elem_of_fmap. exists r. split; [done|].
    exact (mem_contents_written d r x Hx).
  - intros s. lia.
  - by intros d t [= <-].
  - by intros d t u d' [= _ <-].
  - by intros d t e d'.
  - by intros d t o d' [= _ <-].
Defined.

Definition mem_empty : memory := mkMemory [] ∅.

(** The handle of a client nobody else touches. *)
#[export] Instance quiet_host : Host := λ _, mkObs false true 0 false false.

(** ** Serializers *)

Definition index_in {T} `{!EqDecision T} (l : list T) (x : T) : option nat :=
  fst <$> position (λ y, bool_decide (y = x)) l.

Lemma index_in_lookup {T} `{!EqDecision T} (l : list T) x i : index_in l x = Some i → l !! i = Some x.
Proof.
  unfold index_in. intros ([j y] & Hp & ->)%fmap_Some.
  apply position_Some in Hp as (Hl & Hy & _). apply bool_decide_eq_true in Hy. by subst y.
Qed.

Definition json_nat (i : nat) : JsonValue := JNumber (PosInt (N.of_nat i)).

(** The values of a list, each written as its place in it. *)
Definition table_serde {T} `{!EqDecision T} (l : list T) : SerdeJson T := {|
  to_value x := match index_in l x with Some i => Ok (json_nat i) | None => Err tt end;
  from_value v :=
    match v with
    | JNumber (PosInt n) => ok_or (l !! N.to_nat n) tt
    | _ => Err tt
    end;
  to_text x :=
    match index_in l x with Some i => Ok (u64_to_string (N.of_nat i)) | None => Err tt end;
  from_text s := match canonical_u64 s with Some n => ok_or (l !! N.to_nat n) tt | None => Err tt end;
  from_slice _ := Err tt;
|}.

Lemma table_laws {T} `{!EqDecision T} (l : list T) : @SerdeLaws T (table_serde l).
Proof.
  intros x v. simpl. destruct (index_in l x) as [i|] eqn:Hi; [|done]. intros [= <-]. simpl.
  rewrite Nat2N.id. by rewrite (index_in_lookup _ _ _ Hi).
Qed.

(** Floats have no text; integers are the only journal payloads. *)
#[export] Instance no_floats : JsonFloatText :=
  {| float_text _ := ""; number_from_str _ := None |}.
#[export] Instance integer_text : JsonText := {|
  tagged_to_vec t :=
    match t with
    | TI64 s => Ok (Byte.x69 :: String.list_byte_of_string s)
    | TU64 s => Ok (Byte.x75 :: String.list_byte_of_string s)
    | _ => Err tt
    end;
  tagged_from_slice b :=
    match b with
    | Byte.x69 :: b => Ok (TI64 (String.string_of_list_byte b))
    | Byte.x75 :: b => Ok (TU64 (String.string_of_list_byte b))
    | _ => Err tt
    end;
|}.
#[export] Instance integer_text_laws : JsonTextLaws.
Proof.
  intros t b Ht _. destruct t; simpl in Ht; try done; injection Ht as <-; simpl;
    by rewrite String.string_of_list_byte_of_string.
Qed.

Lemma table_storable {T} `{!EqDecision T} (l : list T) (x : T) :
  (vec_len l ≤ u64_max)%N → @storable _ T (table_serde l) x.
Proof.
  intros Hl v. simpl. destruct (index_in l x) as [i|] eqn:Hi; [|done]. intros [= <-].
  apply index_in_lookup, lookup_lt_Some in Hi. unfold vec_len in Hl.
  split; [simpl; unfold is_u64; lia|]. simpl. repeat case_match; simpl; lia.
Qed.
