(* ===== verification/NativeFixtures.v ===== *)
(** * A small native client.

    States with object payloads, the journal codec of their components and a message
    bridge that knows two commits, over the engine of [Memory].  The witnesses of the
    native results run on them. *)

From Stdlib Require Import Strings.Byte.
From S2P Require Import Prelude Protocol Subscription ClientState SubscriptionState Validate Client Steps Fixtures Read SubscriptionCodec Canonical CborReference NativeErrors Json Wire NativeCodec Engine StateRows StateLoad Stage StateStore Queue ReadJournal SubscriptionJournal View NativeClient NativeOps StateProps StoreProps ClientCoherence Memory.

(** ** States *)

Definition nx_key : SyncStateKey := mkKey "home" "phone".
Definition nx_options : NativeSyncOpenOptions := mkOpenOptions "home" "phone" "items" 1.
Definition nx_empty : StoredSyncState := empty_state "home" "phone" "items" 1.

Definition nx_value (name : string) : JsonValue := JObject [("name", JString name)].
Definition nx_raw1 : ClientCommit JsonValue :=
  mkCommit (mkIdentity "c1" "") [Upsert "item:1" BaseAbsent (nx_value "milk") None].
Definition nx_raw2 : ClientCommit JsonValue :=
  mkCommit (mkIdentity "c2" "") [Upsert "item:2" BaseAbsent (nx_value "bread") None].
Definition nx_commit (c : ClientCommit JsonValue) : ClientCommit JsonValue :=
  match canonical_fingerprint nx_empty c with Ok f => set_fingerprint c f | Err _ => c end.
Definition nx_commit1 : ClientCommit JsonValue := Eval vm_compute in nx_commit nx_raw1.
Definition nx_commit2 : ClientCommit JsonValue := Eval vm_compute in nx_commit nx_raw2.

Definition nx_first : StoredSyncState := Eval vm_compute in after nx_empty (EEnqueue nx_commit1).
Definition nx_second : StoredSyncState := Eval vm_compute in after nx_first (EEnqueue nx_commit2).

Example nx_states : (st_revision nx_empty, st_revision nx_first, st_revision nx_second) = (0, 1, 2)%N.
Proof. reflexivity. Qed.

(** ** Codecs *)

#[export] Instance StateMeta_eq_dec : EqDecision StateMeta.
Proof. solve_decision. Defined.

(** A type the fixtures never write. *)
Definition no_serde {T : Type} : SerdeJson T := {|
  to_value _ := Err tt; from_value _ := Err tt; to_text _ := Err tt;
  from_text _ := Err tt; from_slice _ := Err tt;
|}.

#[export] Instance fixture_serde : StateSerde := {|
  serde_meta := table_serde [state_meta nx_empty; state_meta nx_first; state_meta nx_second];
  serde_state := no_serde;
  serde_record_state := no_serde;
  serde_commit := table_serde [nx_raw1; nx_raw2; nx_commit1; nx_commit2];
  serde_resolved := no_serde;
  serde_record_id := no_serde;
  serde_row := no_serde;
  serde_key_triple := no_serde;
|}.

Lemma no_serde_laws {T} : @SerdeLaws T no_serde.
Proof. by intros x v. Qed.
Lemma no_serde_storable {T} (x : T) : @storable _ T no_serde x.
Proof. by intros v. Qed.

#[export] Instance fixture_laws : StateSerdeLaws.
Proof.
  split; simpl; try apply no_serde_laws; apply table_laws.
Qed.

(** Every state the fixtures can write reads back. *)
Lemma fixture_storable (s : StoredSyncState) :
  is_u64 (st_revision s) → is_u64 (st_subscription_revision s) → storable_state s.
Proof.
  intros Hr Hs. split; try done; intros; simpl;
    first [apply no_serde_storable|apply table_storable; vm_compute; discriminate].
Qed.

Lemma fixture_outside p q : outside_journal p q.
Proof.
  intros id nid _. unfold native_record_id. case_match; [done|]. simpl. unfold plain_record.
  destruct (split_colon id) as [[table k]|]; [|done].
  destruct (String.prefix "_" table) eqn:Hp; [done|]. case_decide; [done|]. intros [= <-]. simpl.
  intros ->. by vm_compute in Hp.
Qed.

Lemma fixture_writable (s next : StoredSyncState) :
  is_u64 (st_revision next) → is_u64 (st_subscription_revision next) → writable s next.
Proof. intros. split; [by apply fixture_storable|apply fixture_outside]. Qed.

#[export] Instance fixture_bridge : BridgeSerde := {|
  serde_json := no_serde;
  serde_push_response := no_serde;
  serde_pull_response := no_serde;
  serde_read_cursor := no_serde;
  serde_sub_request := no_serde;
  serde_sub_response := no_serde;
  serde_sub_cursor := no_serde;
  serde_view_request := no_serde;
  serde_view_cursor := no_serde;
  serde_view_query := no_serde;
  serde_sub_request_cbor := {| serialized _ := None; deserialized _ := None |};
  serde_sub_response_cbor := {| serialized _ := None; deserialized _ := None |};
  chunks_commit := λ _, ([], false);
  chunks_string := λ _, ([], false);
  chunks_json := λ _, ([], false);
|}.

(** ** A stored journal *)

(** The database after a state has been saved to an empty one. *)
Definition nx_save (s : StoredSyncState) : result SyncStateWrite SyncStateError * world :=
  save_atomic (Some 0%N) None s (mkWorld (mem_empty : db) 0).
Definition nx_saved (s : StoredSyncState) : memory := w_db (nx_save s).2.

(** The cell of a client that has opened the journal and installed [s]. *)
Definition nx_cell (s : StoredSyncState) (d : memory) : cell :=
  mkCell (set_runtime (Some s) false (fresh_cell "read" "sub")) false Clean (mkWorld (d : db) 0).
Definition nx_fresh : cell :=
  mkCell (fresh_cell "read" "sub") false Clean (mkWorld (mem_empty : db) 0).
