(* ===== verification/JournalProps.v ===== *)
(** * The read journal: wire form, bounds and replay.

    The wire form of a read value is its derived JSON with the counters as decimal strings
    and everything else, payloads included, untouched.  The journal keeps a contiguous,
    bounded run of batches that ends at the client's revision, so a reader that follows its
    cursor gets exactly the batches it has not seen. *)

From S2P Require Import Prelude Protocol Subscription ClientState Validate Client Read ReadProps NativeErrors Json NativeCodec ReadJournal Memory NativeFixtures.

(** ** The wire form *)

Lemma decimal_u64 n : decimal (json_u64 n) = Ok (json_decimal n).
Proof. done. Qed.

Lemma frontier_cursor c : frontier (cursor_json json_u64 c) = Ok (cursor_json json_decimal c).
Proof. done. Qed.

(** [json_index] and the two mutations of an object, on its key. *)
Lemma metadata_wire_spec m :
  metadata_wire (metadata_json json_u64 m) = Ok (metadata_json json_decimal m).
Proof.
  destruct m as [rev [pid scope srev arev] asof ready cov].
  destruct arev, asof as [[]|], cov as [|[]]; reflexivity.
Qed.

Lemma try_map_all {A B C E} (f : A → B) (g : A → C) (w : B → result C E) l :
  (∀ x, w (f x) = Ok (g x)) → try_map w (f <$> l) = Ok (g <$> l).
Proof. intros Hw. induction l as [|x l IH]; csimpl; [done|]. rewrite Hw. simpl. by rewrite IH. Qed.

Lemma accepted_each_spec l :
  json_each Internal (json_index_mut "sequence" decimal) (JArray (accepted_json json_u64 <$> l)) =
  Ok (JArray (accepted_json json_decimal <$> l)).
Proof. simpl. by rewrite (try_map_all _ (accepted_json json_decimal)). Qed.

Lemma row_wire_spec r : row_wire (row_json json_u64 r) = Ok (row_json json_decimal r).
Proof.
  destruct r as [id confirmed absence optimistic pending conflicts accepted].
  pose proof (accepted_each_spec accepted) as Hw. revert Hw. unfold row_wire, row_json. simpl rr_accepted.
  generalize (JArray (accepted_json json_u64 <$> accepted)) (JArray (accepted_json json_decimal <$> accepted))
    (json_each Internal (json_index_mut "sequence" decimal)). intros a b w Hw.
  destruct confirmed, optimistic as [[? []|]|]; simpl; rewrite Hw; reflexivity.
Qed.

Lemma change_wire_spec c : change_wire (change_json json_u64 c) = Ok (change_json json_decimal c).
Proof.
  destruct c as [row|id]; [|reflexivity]. unfold change_wire, change_json.
  pose proof (row_wire_spec row) as Hw. revert Hw.
  generalize (row_json json_u64 row) (row_json json_decimal row) row_wire. intros a b w Hw.
  simpl. by rewrite Hw.
Qed.

(** The wire form of a committed read batch is its derived JSON with every counter
    as a canonical decimal string; the record values and every other field are untouched,
    and the conversion never fails or panics. *)
Theorem batch_wire_total b :
  batch_wire (batch_json json_u64 b) = Ok (batch_json json_decimal b).
Proof.
  unfold batch_wire, batch_json.
  assert (json_each Internal change_wire (JArray (change_json json_u64 <$> rb_changes b)) =
    Ok (JArray (change_json json_decimal <$> rb_changes b))) as Hc.
  { simpl. by rewrite (try_map_all _ (change_json json_decimal) _ _ change_wire_spec). }
  pose proof (metadata_wire_spec (rb_metadata b)) as Hm. revert Hc Hm.
  generalize (JArray (change_json json_u64 <$> rb_changes b))
    (JArray (change_json json_decimal <$> rb_changes b)) (json_each Internal change_wire)
    (metadata_json json_u64 (rb_metadata b)) (metadata_json json_decimal (rb_metadata b)) metadata_wire.
  intros c c' wc m m' wm Hc Hm. simpl. rewrite Hm. simpl. rewrite Hc. reflexivity.
Qed.

Lemma rows_wire_spec (l : list (string * ReadRowV1 JsonValue)) :
  json_each_value Internal row_wire (JObject ((λ kv, (kv.1, row_json json_u64 kv.2)) <$> l)) =
  Ok (JObject ((λ kv, (kv.1, row_json json_decimal kv.2)) <$> l)).
Proof.
  simpl. rewrite (try_map_all _ (λ kv, (kv.1, row_json json_decimal kv.2))); [done|].
  intros [k r]. simpl. by rewrite row_wire_spec.
Qed.

Lemma snapshot_wire_spec s : snapshot_wire (snapshot_json json_u64 s) = Ok (snapshot_json json_decimal s).
Proof.
  unfold snapshot_wire, snapshot_json. pose proof (rows_wire_spec (btree_entries (rsnap_rows s))) as Hr.
  pose proof (metadata_wire_spec (rsnap_metadata s)) as Hm. revert Hr Hm.
  generalize (JObject ((λ kv, (kv.1, row_json json_u64 kv.2)) <$> btree_entries (rsnap_rows s)))
    (JObject ((λ kv, (kv.1, row_json json_decimal kv.2)) <$> btree_entries (rsnap_rows s)))
    (json_each_value Internal row_wire)
    (metadata_json json_u64 (rsnap_metadata s)) (metadata_json json_decimal (rsnap_metadata s)) metadata_wire.
  intros r r' wr m m' wm Hr Hm. simpl. rewrite Hm. simpl. rewrite Hr. reflexivity.
Qed.

(** ** The journal's contents *)

Definition batches_bytes (l : list JournalBatch) : N :=
  foldr (λ b n, str_len (ba_json b) + n)%N 0%N l.

Lemma batches_bytes_snoc l b :
  batches_bytes (l ++ [b]) = (batches_bytes l + str_len (ba_json b))%N.
Proof. induction l as [|x l IH]; simpl in *; [lia|]. rewrite IH. lia. Qed.

Lemma wrapping_sub_exact a b : (b ≤ a)%N → is_u64 a → wrapping_sub_u64 a b = (a - b)%N.
Proof.
  unfold is_u64, wrapping_sub_u64, u64_max. intros Hb Ha. rewrite (N.mod_small b) by lia.
  replace (a + (18446744073709551615 + 1 - b))%N
    with (a - b + 1 * (18446744073709551615 + 1))%N by lia.
  rewrite N.Div0.mod_add. apply N.mod_small. lia.
Qed.

(** The eviction loop stops with room for the new batch: the condition of the source's
    loop is false at its end, on the empty queue too. *)
Lemma evict_fits max_len max_bytes new batches :
  (0 < max_len)%N → (new ≤ max_bytes)%N → is_u64 (batches_bytes batches) →
  ∃ k, evict max_len max_bytes new batches (batches_bytes batches) =
    (drop k batches, batches_bytes (drop k batches)) ∧
    (vec_len (drop k batches) < max_len)%N ∧
    (batches_bytes (drop k batches) + new ≤ max_bytes)%N.
Proof.
  intros Hl Hn. induction batches as [|b batches IH]; intros Hu; simpl in *.
  { exists 0. simpl. split; [done|]. unfold vec_len. simpl. lia. }
  case_decide as Hd.
  - destruct IH as (k & Hk & ?). { unfold is_u64 in *. lia. }
    exists (S k). rewrite wrapping_sub_exact by (done || lia).
    replace (str_len (ba_json b) + batches_bytes batches - str_len (ba_json b))%N
      with (batches_bytes batches) by lia. done.
  - exists 0. simpl. split; [done|]. lia.
Qed.

Section contents.
Context `{!SerdeJson JsonValue, !SerdeJson ReadCursor}.
Implicit Types s cur : DurableClientState JsonValue.

(** One kept batch: the change from [s] to [s'], as the text of its wire form, which the
    reader of JSON takes back. *)
Definition batch_entry (b : CommittedReadBatchV1 JsonValue) (jb : JournalBatch) : Prop :=
  ba_before jb = rb_before_revision b ∧ ba_revision jb = rb_revision b ∧
  from_text (ba_json jb) = Ok (batch_json json_decimal b).

(** The kept batches lead from [start] through [states]. *)
Fixpoint path (start : DurableClientState JsonValue) (bs : list (CommittedReadBatchV1 JsonValue))
    (states : list (DurableClientState JsonValue)) : Prop :=
  match bs, states with
  | [], [] => True
  | b :: bs, s :: states =>
      (st_revision start < st_revision s)%N ∧ committed_batch start s = Some b ∧ path s bs states
  | _, _ => False
  end.

Definition path_end (start : DurableClientState JsonValue) states := default start (last states).

Record journal_wf (j : ReadJournal) cur : Prop := {
  jw_path : ∃ start bs states, path start bs states ∧ path_end start states = cur ∧
    Forall2 batch_entry bs (rj_batches j);
  jw_bytes : rj_bytes j = batches_bytes (rj_batches j);
  jw_max_bytes : (rj_bytes j ≤ MAX_JOURNAL_BYTES)%N;
  jw_len : (vec_len (rj_batches j) ≤ READ_MAX_BATCHES)%N;
}.

Lemma path_end_cons start s states : path_end start (s :: states) = path_end s states.
Proof. unfold path_end. rewrite last_cons. by destruct (last states). Qed.

Lemma path_app start bs states b s :
  path start bs states → (st_revision (path_end start states) < st_revision s)%N →
  committed_batch (path_end start states) s = Some b →
  path start (bs ++ [b]) (states ++ [s]) ∧ path_end start (states ++ [s]) = s.
Proof.
  revert start states. induction bs as [|b' bs IH]; intros start [|s' states] Hp Hr Hb; try done.
  rewrite path_end_cons in Hr, Hb. simpl in Hp. destruct Hp as (? & ? & Hp).
  destruct (IH _ _ Hp Hr Hb) as [IH1 IH2]. split; [done|]. simpl. by rewrite path_end_cons.
Qed.

Lemma path_drop start bs states k :
  path start bs states → ∃ start' states', path start' (drop k bs) states' ∧
    path_end start' states' = path_end start states.
Proof.
  revert start states k. induction bs as [|b bs IH]; intros start [|s states] k Hp; try done.
  { exists start, []. by rewrite drop_nil. }
  destruct k as [|k]; [by exists start, (s :: states)|]. rewrite path_end_cons.
  destruct Hp as (_ & _ & Hp). by apply IH.
Qed.

Lemma path_take start bs states k :
  path start bs states → path start (take k bs) (take k states).
Proof.
  revert start states k. induction bs as [|b bs IH]; intros start [|s states] [|k] Hp; try done.
  destruct Hp as (? & ? & Hp). simpl. split; [done|]. split; [done|]. by apply IH.
Qed.

Lemma path_length start bs states : path start bs states → length states = length bs.
Proof.
  revert start states. induction bs as [|b bs IH]; intros start [|s states] Hp; try done.
  destruct Hp as (_ & _ & Hp). simpl. f_equal. by eapply IH.
Qed.

Lemma committed_revisions s s' b :
  committed_batch s s' = Some b →
  rb_before_revision b = st_revision s ∧ rb_revision b = st_revision s'.
Proof. unfold committed_batch. case_decide; [done|]. by intros [= <-]. Qed.

Lemma path_mono start bs states s :
  path start bs states → s ∈ states → (st_revision start < st_revision s)%N.
Proof.
  revert start states. induction bs as [|b bs IH]; intros start [|s' states] Hp; try done.
  { by intros ?%not_elem_of_nil. }
  destruct Hp as (? & _ & Hp). intros [->|Hs]%elem_of_cons; [done|].
  pose proof (IH _ _ Hp Hs). lia.
Qed.

Lemma path_end_mono start bs states :
  path start bs states → (st_revision start ≤ st_revision (path_end start states))%N.
Proof.
  intros Hp. unfold path_end. destruct (last states) as [s|] eqn:Hl; simpl; [|done].
  apply N.lt_le_incl. eapply path_mono; [done|]. apply last_Some in Hl as [l ->]. set_solver.
Qed.

Lemma path_take_mono start bs states k :
  path start bs states →
  (st_revision (path_end start (take k states)) ≤ st_revision (path_end start states))%N.
Proof.
  revert start states k. induction bs as [|b bs IH]; intros start [|s states] k Hp; try done;
    [by destruct k|].
  destruct k as [|k]; [by apply (path_end_mono start (b :: bs))|]. simpl.
  rewrite !path_end_cons. destruct Hp as (_ & _ & Hp). by apply IH.
Qed.

Lemma path_end_lt start bs states :
  path start bs states → bs ≠ [] → (st_revision start < st_revision (path_end start states))%N.
Proof.
  destruct bs as [|b bs], states as [|s states]; try done. intros (Hlt & _ & Hp) _.
  rewrite path_end_cons. pose proof (path_end_mono _ _ _ Hp). lia.
Qed.

Lemma journal_empty_wf epoch cursors cur : journal_wf (mkJournal epoch [] 0 cursors) cur.
Proof.
  split; [|done|unfold MAX_JOURNAL_BYTES; simpl; lia|unfold vec_len, READ_MAX_BATCHES; simpl; lia].
  by exists cur, [], [].
Qed.

(** The text of the batch from one state to the next reads back. *)
Definition batch_reads cur next : Prop :=
  ∀ b t, committed_batch cur next = Some b → to_text (batch_json json_decimal b) = Ok t →
    from_text t = Ok (batch_json json_decimal b).

Lemma record_wf j cur next :
  journal_wf j cur → batch_reads cur next →
  (st_revision cur < st_revision next)%N ∨ next = cur →
  journal_wf (journal_record j (committed_batch cur next)) next.
Proof.
  intros Hw Hreads Hrev. unfold journal_record.
  destruct (committed_batch cur next) as [b|] eqn:Hb; cycle 1.
  { unfold committed_batch in Hb. case_decide; [|done]. destruct Hrev as [?|Hrev]; [lia|by rewrite Hrev]. }
  assert (st_revision cur < st_revision next)%N as Hlt.
  { destruct Hrev as [|Hrev]; [done|]. unfold committed_batch in Hb. rewrite Hrev in Hb.
    by rewrite decide_True in Hb. }
  unfold encode_batch. rewrite batch_wire_total.
  destruct (to_text (batch_json json_decimal b)) as [t|] eqn:Ht; [|apply journal_empty_wf].
  destruct (N.leb_spec (str_len t) MAX_JOURNAL_BYTES) as [Hlen|]; [|apply journal_empty_wf].
  destruct Hw as [(start & bs & states & Hp & Hend & Hbs) Hbytes Hmax Hl].
  destruct (evict_fits READ_MAX_BATCHES MAX_JOURNAL_BYTES (str_len t) (rj_batches j))
    as (k & Hev & Hroom & Hfit); [done|done| |].
  { rewrite <-Hbytes. unfold is_u64, u64_max, MAX_JOURNAL_BYTES in *. lia. }
  rewrite Hbytes, Hev.
  destruct (path_drop _ _ _ k Hp) as (start' & states' & Hp' & Hend'). rewrite Hend in Hend'.
  destruct (committed_revisions _ _ _ Hb) as [Hbefore Hafter].
  split; simpl.
  - exists start', (drop k bs ++ [b]), (states' ++ [next]).
    destruct (path_app start' (drop k bs) states' b next Hp') as [??]; [by rewrite Hend'..|].
    split; [done|]. split; [done|]. apply Forall2_app; [by apply Forall2_drop|].
    constructor; [|constructor]. split; [done|]. split; [done|]. by apply Hreads.
  - by rewrite batches_bytes_snoc.
  - lia.
  - unfold vec_len in *. rewrite length_app. simpl. lia.
Qed.

(** *** Replay *)

Lemma replay_path start bs states jbs :
  path start bs states → Forall2 batch_entry bs jbs →
  replay jbs (st_revision start) =
  Ok (batch_json json_decimal <$> bs, st_revision (path_end start states)).
Proof.
  intros Hp Hbs. revert start states Hp. induction Hbs as [|b jb bs jbs He Hbs IH];
    intros start [|s states] Hp; try done.
  destruct Hp as (_ & Hb & Hp). destruct (committed_revisions _ _ _ Hb) as [Hbefore Hafter].
  destruct He as (H1 & H2 & H3). simpl. rewrite decide_False by (rewrite H1, Hbefore; tauto).
  rewrite H3. simpl. rewrite H2, Hafter, (IH _ _ Hp). simpl. by rewrite path_end_cons.
Qed.

Lemma journal_bootstrap_Ok j cur :
  journal_bootstrap j cur = Ok (JObject [("cursor", journal_cursor j (st_revision cur));
    ("snapshot", snapshot_json json_decimal (snapshot cur))]).
Proof. unfold journal_bootstrap. by rewrite snapshot_wire_spec. Qed.

(** The position of a revision in the journal, and the path from there. *)
Lemma position_path start bs states jbs r i jb :
  path start bs states → Forall2 batch_entry bs jbs →
  position (λ batch, bool_decide (ba_before batch = r)) jbs = Some (i, jb) →
  ∃ s states', st_revision s = r ∧ path s (drop i bs) states' ∧
    path_end s states' = path_end start states ∧ i < length bs.
Proof.
  intros Hp Hbs. revert start states i Hp. induction Hbs as [|b jb' bs jbs He Hbs IH];
    intros start [|s states] i Hp Hpos; try done.
  simpl in Hpos. case_bool_decide as Hr.
  - injection Hpos as <- ->. destruct Hp as (Hlt & Hb & Hp).
    destruct (committed_revisions _ _ _ Hb) as [Hbefore _]. destruct He as (He & _).
    exists start, (s :: states). split; [congruence|]. by split; [|split; [|simpl; lia]].
  - apply fmap_Some in Hpos as ([i' jb''] & Hpos & [= -> ->]). destruct Hp as (_ & _ & Hp).
    destruct (IH _ _ _ Hp Hpos) as (s' & states' & ? & ? & ? & ?).
    exists s', states'. rewrite path_end_cons. split; [done|]. split; [done|]. split; [done|]. simpl. lia.
Qed.

(** The rows a reader gets by applying the changes along a path. *)
Lemma path_rows start bs states :
  path start bs states →
  foldl apply_row_change (rsnap_rows (snapshot start)) (concat (rb_changes <$> bs)) =
  rsnap_rows (snapshot (path_end start states)).
Proof.
  revert start states. induction bs as [|b bs IH]; intros start [|s states] Hp; try done.
  destruct Hp as (_ & Hb & Hp). rewrite path_end_cons, fmap_cons. cbn [concat].
  rewrite foldl_app, <-(IH _ _ Hp).
  f_equal. unfold committed_batch in Hb. case_decide; [done|]. injection Hb as <-. simpl.
  apply row_changes_replay, snapshot_rows_id.
Qed.

(** The journals of a client whose installed state is [cur]: fresh ones, rotated ones, and
    those that have recorded the installation of every state since. *)
Inductive journaled : ReadJournal → DurableClientState JsonValue → Prop :=
| journaled_default prefix cur : journaled (journal_default prefix) cur
| journaled_rotate j j' cur cur' :
    journaled j cur → journal_rotate j = Ok j' → journaled j' cur'
| journaled_view j cur text : journaled j cur → journaled (remember_view_cursor j text) cur
| journaled_record j cur next :
    journaled j cur → batch_reads cur next → (st_revision cur < st_revision next)%N ∨ next = cur →
    journaled (journal_record j (committed_batch cur next)) next.

Lemma journaled_wf j cur : journaled j cur → journal_wf j cur.
Proof.
  induction 1 as [|j j' cur cur' _ _ Hr|j cur text _ [? ? ? ?]|j cur next _ IH ? ?].
  - apply journal_empty_wf.
  - apply result_bind_Ok in Hr as (epoch & _ & [= <-]). apply journal_empty_wf.
  - by split.
  - by apply record_wf.
Qed.

(** The answer that sends a reader back to a snapshot. *)
Definition reset_answer (j : ReadJournal) cur : JsonValue :=
  JObject [("cursor", journal_cursor j (st_revision cur)); ("kind", JString "reset_required");
           ("snapshot", snapshot_json json_decimal (snapshot cur))].
Definition batches_answer (j : ReadJournal) (bs : list (CommittedReadBatchV1 JsonValue)) (after : N)
  : JsonValue :=
  JObject [("batches", JArray (batch_json json_decimal <$> bs)); ("cursor", journal_cursor j after);
           ("kind", JString "batches")].

Lemma journal_changes_answers j cur text c r limit :
  journaled j cur → (str_len text ≤ 4096)%N → from_text text = Ok c →
  canonical_u64 (rcur_revision c) = Some r → (1 ≤ limit ≤ READ_MAX_BATCHES)%N →
  (journal_changes j cur text limit = Ok (reset_answer j cur) ∧
   (rcur_process_epoch c ≠ epoch_value (rj_epoch j) ∨ (st_revision cur < r)%N ∨
    (r < st_revision cur)%N ∧ Forall (λ b, ba_before b ≠ r) (rj_batches j))) ∨
  rcur_process_epoch c = epoch_value (rj_epoch j) ∧
  ∃ s bs states, st_revision s = r ∧ path s bs states ∧
    journal_changes j cur text limit =
      Ok (batches_answer j bs (st_revision (path_end s states))) ∧
    (vec_len bs ≤ limit)%N ∧ ((vec_len bs < limit)%N → path_end s states = cur) ∧
    ((r < st_revision cur)%N → bs ≠ []) ∧
    (st_revision (path_end s states) ≤ st_revision cur)%N ∧
    foldl apply_row_change (rsnap_rows (snapshot s)) (concat (rb_changes <$> bs)) =
    rsnap_rows (snapshot (path_end s states)).
Proof.
  intros Hw%journaled_wf Ht Hc Hr Hlim. unfold journal_changes. rewrite decide_False by lia.
  rewrite Hc. simpl. rewrite Hr. simpl. case_decide as Hreset.
  { left. rewrite journal_bootstrap_Ok. simpl. split; [done|].
    destruct Hreset as [?|[?|[? Hn]]]; [by left|by right; left|]. right. right. split; [done|].
    apply position_None in Hn. eapply Forall_impl; [exact Hn|]. intros b.
    by rewrite bool_decide_eq_false. }
  right. split; [apply dec_stable; tauto|].
  destruct (jw_path _ _ Hw) as (start & bs & states & Hp & Hend & Hbs).
  destruct (N.ltb_spec r (st_revision cur)) as [Hlt|Hge]; cycle 1.
  { exists cur, [], []. assert (r = st_revision cur) as -> by lia. simpl.
    split_and!; try done; [unfold vec_len; simpl; lia|]. intros ?. lia. }
  destruct (position _ (rj_batches j)) as [[i jb]|] eqn:Hpos; [|exfalso; tauto].
  destruct (position_path _ _ _ _ _ _ _ Hp Hbs Hpos) as (s & states' & Hs & Hp' & Hend' & Hi).
  exists s, (take (N.to_nat limit) (drop i bs)), (take (N.to_nat limit) states').
  pose proof (path_take _ _ _ (N.to_nat limit) Hp') as Hpt.
  split; [done|]. split; [done|]. simpl.
  rewrite <-Hs, (replay_path s _ _ _ Hpt) by (by apply Forall2_take, Forall2_drop).
  split; [done|]. unfold vec_len. rewrite length_take, length_drop. split; [lia|].
  split; [|split; [|split; [|by apply path_rows]]].
  - intros Hshort. pose proof (path_length _ _ _ Hp') as Hlen. rewrite length_drop in Hlen.
    rewrite take_ge by lia. congruence.
  - intros _ Hnil. apply (f_equal length) in Hnil. rewrite length_take, length_drop in Hnil.
    simpl in Hnil. lia.
  - rewrite <-Hend, <-Hend'. by eapply path_take_mono.
Qed.

(** C29: Reading changes from the journal never fails on a well-formed cursor.  A cursor of
    another epoch, of the future, or of a revision the journal no longer has gets the whole
    snapshot; any other cursor gets a non-empty run of at most [limit] batches that starts
    at its revision, ends at the client's state unless the limit cuts it, and turns the
    rows the reader has into the rows of the state it ends at. *)
Theorem journal_changes_exact j cur text c r limit :
  journaled j cur → (str_len text ≤ 4096)%N → from_text text = Ok c →
  canonical_u64 (rcur_revision c) = Some r → (1 ≤ limit ≤ READ_MAX_BATCHES)%N →
  (journal_changes j cur text limit = Ok (reset_answer j cur) ∧
   (rcur_process_epoch c ≠ epoch_value (rj_epoch j) ∨ (st_revision cur < r)%N ∨
    (r < st_revision cur)%N ∧ Forall (λ b, ba_before b ≠ r) (rj_batches j))) ∨
  rcur_process_epoch c = epoch_value (rj_epoch j) ∧
  ∃ s bs states, st_revision s = r ∧ path s bs states ∧
    journal_changes j cur text limit =
      Ok (batches_answer j bs (st_revision (path_end s states))) ∧
    (vec_len bs ≤ limit)%N ∧ ((vec_len bs < limit)%N → path_end s states = cur) ∧
    ((r < st_revision cur)%N → bs ≠ []) ∧
    (st_revision (path_end s states) ≤ st_revision cur)%N ∧
    foldl apply_row_change (rsnap_rows (snapshot s)) (concat (rb_changes <$> bs)) =
    rsnap_rows (snapshot (path_end s states)).
Proof. apply journal_changes_answers. Qed.

(** *** Polling *)

(** The revision of the cursor in an answer. *)
Definition answer_revision (answer : JsonValue) : option N :=
  match json_index "revision" (json_index "cursor" answer) with
  | JString s => canonical_u64 s
  | _ => None
  end.

(** A reader that asks again with the cursor of each answer, [n] times. *)
Fixpoint polls (j : ReadJournal) cur (cursor_text : N → string) (limit : N) (n : nat) (r : N)
  : option N :=
  match n with
  | O => Some r
  | S n =>
      match journal_changes j cur (cursor_text r) limit with
      | Ok answer => answer_revision answer ≫= polls j cur cursor_text limit n
      | Err _ => None
      end
  end.

(** [cursor_text] writes the journal's cursors up to [max] in a form its reader takes. *)
Definition writes_cursors (j : ReadJournal) (cursor_text : N → string) (max : N) : Prop :=
  ∀ r, (r ≤ max)%N → (str_len (cursor_text r) ≤ 4096)%N ∧
    from_text (cursor_text r) = Ok (mkReadCursor (epoch_value (rj_epoch j)) (u64_to_string r)).

Lemma answer_revision_cursor j rest r :
  is_u64 r → answer_revision (JObject (("cursor", journal_cursor j r) :: rest)) = Some r.
Proof. intros Hr. unfold answer_revision. simpl. by apply canonical_u64_Some. Qed.

Lemma answer_revision_batches j bs r : is_u64 r → answer_revision (batches_answer j bs r) = Some r.
Proof. intros Hr. unfold answer_revision. simpl. by apply canonical_u64_Some. Qed.

(** C30: A reader that polls catches up.  From any revision up to the client's, asking for
    changes again with the cursor of each answer reaches the client's own revision after at
    most as many polls as revisions are missing, whatever the limit and however much the
    journal has evicted. *)
Theorem journal_polling_catches_up j cur cursor_text limit r :
  journaled j cur → writes_cursors j cursor_text (st_revision cur) → is_u64 (st_revision cur) →
  (1 ≤ limit ≤ READ_MAX_BATCHES)%N → (r ≤ st_revision cur)%N →
  ∃ n, n ≤ N.to_nat (st_revision cur - r) ∧ polls j cur cursor_text limit n r = Some (st_revision cur).
Proof.
  intros Hj Hc Hu Hlim. remember (N.to_nat (st_revision cur - r)) as k eqn:Hk. revert r Hk.
  induction k as [k IH] using lt_wf_ind. intros r -> Hr.
  destruct (decide (r = st_revision cur)) as [->|Hne]; [exists 0; split; [lia|done]|].
  assert (is_u64 r) as Hur by (unfold is_u64 in *; lia). destruct (Hc r Hr) as [Hlen Hfrom].
  destruct (journal_changes_answers j cur (cursor_text r) _ r limit Hj Hlen Hfrom) as
    [[Hreset _]|(_ & s & bs & states & Hs & Hp & Ha & _ & _ & Hprog & Hle & _)];
    [by apply canonical_u64_Some|done|..].
  - exists 1. split; [lia|]. simpl. rewrite Hreset. unfold reset_answer.
    by rewrite answer_revision_cursor.
  - pose proof (path_end_lt _ _ _ Hp (Hprog ltac:(lia))) as Hlt. rewrite Hs in Hlt.
    destruct (IH (N.to_nat (st_revision cur - st_revision (path_end s states)))) with
      (r := st_revision (path_end s states)) as (n & Hn & Hpolls); [lia|done|done|].
    exists (S n). split; [lia|]. simpl. rewrite Ha, answer_revision_batches; [done|].
    unfold is_u64 in *. lia.
Qed.
End contents.

(** ** One recorded commit *)

Definition jx_batch : CommittedReadBatchV1 JsonValue :=
  Eval vm_compute in
    default (mkReadBatch 1 0 0 (metadata nx_empty) []) (committed_batch nx_empty nx_first).
#[local] Instance jx_values : SerdeJson JsonValue := table_serde [batch_json json_decimal jx_batch].
#[local] Instance jx_cursors : SerdeJson ReadCursor := {|
  to_value _ := Err tt; from_value _ := Err tt; to_text _ := Err tt;
  from_text _ := Ok (mkReadCursor "epoch:0" "0"); from_slice _ := Err tt;
|}.
Definition jx_journal : ReadJournal :=
  journal_record (journal_default "epoch") (committed_batch nx_empty nx_first).

Lemma jx_reads : batch_reads nx_empty nx_first.
Proof.
  intros b t Hb. assert (b = jx_batch) as -> by (vm_compute in Hb |- *; congruence).
  assert (to_text (batch_json json_decimal jx_batch) = Ok "0") as -> by (vm_compute; reflexivity).
  intros [= <-]. vm_compute. reflexivity.
Qed.

Lemma journal_changes_exact_witness :
  journal_changes jx_journal nx_first "cursor" 1 = Ok (batches_answer jx_journal [jx_batch] 1) ∧
  ∃ s bs states, st_revision s = 0%N ∧ path s bs states ∧
    journal_changes jx_journal nx_first "cursor" 1 =
      Ok (batches_answer jx_journal bs (st_revision (path_end s states))).
Proof.
  split; [vm_compute; reflexivity|].
  destruct (journal_changes_exact jx_journal nx_first "cursor" (mkReadCursor "epoch:0" "0") 0 1)
    as [[Hreset _]|(_ & s & bs & states & Hs & Hp & Ha & _)].
  - apply journaled_record; [apply journaled_default|apply jx_reads|left; reflexivity].
  - vm_compute. discriminate.
  - reflexivity.
  - reflexivity.
  - split; vm_compute; discriminate.
  - vm_compute in Hreset. discriminate.
  - exists s, bs, states. exact (conj Hs (conj Hp Ha)).
Defined.

(** A serializer of cursors. *)
#[local] Instance jx_decimal_cursors : SerdeJson ReadCursor := {|
  to_value _ := Err tt; from_value _ := Err tt; to_text c := Ok (rcur_revision c);
  from_text t := Ok (mkReadCursor "epoch:0" t); from_slice _ := Err tt;
|}.

Lemma journal_polling_catches_up_witness :
  ∃ n, n ≤ 1 ∧ polls jx_journal nx_first u64_to_string 1 n 0 = Some 1%N.
Proof.
  apply (journal_polling_catches_up jx_journal nx_first u64_to_string 1 0).
  - apply journaled_record; [apply journaled_default|apply jx_reads|left; reflexivity].
  - intros r Hr. assert (r = 0 ∨ r = 1)%N as [->| ->] by (change (r ≤ 1)%N in Hr; lia);
      (split; [vm_compute; discriminate|reflexivity]).
  - vm_compute. discriminate.
  - split; vm_compute; discriminate.
  - vm_compute. discriminate.
Defined.
