(* ===== verification/ViewProps.v ===== *)
(** * Local views against a reference.

    The view code is charged for every record, operation and value it looks at and stops
    when a limit is reached.  [yields] says that charged code that succeeds returns a given
    value; the results compare counts and pages with the plain selection from the
    optimistic projection, and page summaries with the rows of the read snapshot. *)

From S2P Require Import Prelude Protocol Subscription ClientState Client Read ReadProps NativeErrors Json NativeCodec Queue ReadJournal View OptimisticProps.

(** ** Charged code *)

Definition yields {A} (m : charged A) (a : A) : Prop := ∀ w r, m w = Ok r → r.1 = a.

Lemma yields_ret {A} (a : A) : yields (ch_ret a) a.
Proof. by intros w r [= <-]. Qed.
Lemma yields_err {A} e (a : A) : yields (ch_err e) a.
Proof. by intros w r. Qed.
Lemma yields_bind {A B} (m : charged A) (k : A → charged B) a b :
  yields m a → yields (k a) b → yields (ch_bind m k) b.
Proof.
  intros Hm Hk w r. unfold ch_bind. destruct (m w) as [[a' w1]|] eqn:Hr; [|done].
  apply Hm in Hr. simpl in Hr. subst a'. apply Hk.
Qed.
(** A charge: its result carries no information. *)
Lemma yields_charge {B} (m : charged unit) (k : unit → charged B) b :
  yields (k tt) b → yields (ch_bind m k) b.
Proof. intros Hk. apply (yields_bind _ _ tt); [|done]. by intros w [[] ?]. Qed.
Lemma yields_fold {A S} (f : S → A → charged S) (g : S → A → S) s l :
  (∀ s x, x ∈ l → yields (f s x) (g s x)) → yields (ch_fold f s l) (foldl g s l).
Proof.
  revert s. induction l as [|x l IH]; intros s Hf; simpl; [apply yields_ret|].
  eapply yields_bind; [apply Hf; by left|]. apply IH. intros. apply Hf. by right.
Qed.

Create HintDb yields.
#[export] Hint Resolve yields_ret yields_err : yields.
Ltac yields_auto :=
  repeat first
    [ progress eauto with yields
    | match goal with
      | |- yields (ch_bind _ (λ _, _)) _ => apply yields_charge
      | |- yields (if ?b then ch_err _ else _) _ => destruct b
      end ].

(** ** Selectors *)

(** The value at a path; tagged values are opaque. *)
Fixpoint field_at (value : JsonValue) (path : list string) : option JsonValue :=
  match path with
  | [] => Some value
  | key :: path =>
      match value with
      | JObject o =>
          if decide (is_Some (json_get "$surreal" o)) then None
          else json_get key o ≫= λ next, field_at next path
      | _ => None
      end
  end.

Fixpoint satisfies (selector : Selector) (value : JsonValue) : bool :=
  match selector with
  | SelAll => true
  | SelEq path wanted =>
      match field_at value path with
      | Some v => is_scalar v && bool_decide (v = wanted)
      | None => false
      end
  | SelAnd terms => forallb (λ term, satisfies term value) terms
  end.

Lemma view_field_yields value path : yields (view_field value path) (field_at value path).
Proof.
  revert value. induction path as [|key path IH]; intros value; simpl; [apply yields_ret|].
  destruct value; try (apply yields_charge, yields_ret). case_decide; [apply yields_ret|].
  apply yields_charge. destruct (json_get key _); simpl; [apply IH|apply yields_ret].
Qed.

Lemma Selector_rect_nested (P : Selector → Prop) :
  P SelAll → (∀ path v, P (SelEq path v)) → (∀ terms, Forall P terms → P (SelAnd terms)) →
  ∀ s, P s.
Proof.
  intros HA HE HN. fix IH 1. intros [|path v|terms]; [done|done|]. apply HN.
  induction terms as [|t terms IHt]; constructor; [apply IH|exact IHt].
Qed.

Lemma matches_yields selector value : yields (matches selector value) (satisfies selector value).
Proof.
  induction selector as [|path wanted|terms IH] using Selector_rect_nested; simpl.
  - apply yields_ret.
  - eapply yields_bind; [apply view_field_yields|apply yields_ret].
  - induction IH as [|t terms Ht _ IHt]; simpl; [apply yields_ret|].
    eapply yields_bind; [exact Ht|]. destruct (satisfies t value); simpl; [done|apply yields_ret].
Qed.

(** ** The effective rows *)

Definition present_value (o : OptimisticRecord JsonValue) : option JsonValue :=
  match o with OptPresent value _ _ => Some value | OptDeleted _ => None end.

(** The records a view sees: those the optimistic projection has. *)
Definition visible (state : DurableClientState JsonValue) : gmap string JsonValue :=
  omap present_value (optimistic_projection state).

Definition confirmed_step (rows : gmap string JsonValue) (entry : string * RecordState JsonValue)
  : gmap string JsonValue :=
  match entry.2 with Present value _ _ => <[entry.1 := value]> rows | _ => rows end.
Definition operation_step (rows : gmap string JsonValue) (op : Operation JsonValue)
  : gmap string JsonValue :=
  match op with
  | Upsert id _ value _ => <[id := value]> rows
  | Delete id _ => delete id rows
  end.

Lemma confirmed_yields rows entry :
  yields (effective_confirmed rows entry) (confirmed_step rows entry).
Proof.
  unfold effective_confirmed, confirmed_step. apply yields_charge.
  destruct (_ <? _)%N; [apply yields_err|]. apply yields_charge.
  destruct entry.2; [apply yields_ret|apply yields_charge, yields_ret|apply yields_ret].
Qed.

Lemma operations_fold (rows : gmap string JsonValue)
    (projection : gmap string (OptimisticRecord JsonValue)) ops id :
  (rows !! id = projection !! id ≫= present_value) →
  foldl operation_step rows ops !! id =
  foldl (λ p op, <[op_record_id op := optimistic_of_operation op]> p) projection ops !! id
    ≫= present_value.
Proof.
  revert rows projection. induction ops as [|op ops IH]; intros rows projection Hr; simpl; [done|].
  apply IH. destruct op as [id' base value ref|id' base]; simpl.
  - destruct (decide (id' = id)) as [->|?]; [by rewrite !lookup_insert_eq|].
    by rewrite !lookup_insert_ne.
  - destruct (decide (id' = id)) as [->|?]; [by rewrite lookup_delete_eq, lookup_insert_eq|].
    by rewrite lookup_delete_ne, lookup_insert_ne.
Qed.

Lemma confirmed_rows (m : gmap string (RecordState JsonValue)) id :
  foldl confirmed_step ∅ (btree_entries m) !! id =
  (m !! id ≫= optimistic_of_state) ≫= present_value.
Proof.
  assert (∀ l rows, NoDup l.*1 → (∀ k v, (k, v) ∈ l → rows !! k = None) →
    foldl confirmed_step rows l !! id =
    match (list_to_map l : gmap string (RecordState JsonValue)) !! id with
    | Some s => optimistic_of_state s ≫= present_value
    | None => rows !! id
    end) as Hfold.
  { induction l as [|[k v] l IH]; intros rows Hnd Hfresh; csimpl; [by rewrite lookup_empty|].
    apply NoDup_cons in Hnd as [Hk Hnd]. rewrite IH; [|done|].
    - destruct (decide (k = id)) as [->|Hne].
      + rewrite lookup_insert_eq. rewrite not_elem_of_list_to_map_1 by done.
        unfold confirmed_step. simpl. destruct v; simpl; rewrite ?lookup_insert_eq; try done;
          by eapply Hfresh; left.
      + rewrite lookup_insert_ne by done. destruct (_ !! id); [done|].
        unfold confirmed_step. simpl. destruct v; simpl; rewrite ?lookup_insert_ne; done.
    - intros k' v' Hin. assert (k ≠ k').
      { intros ->. apply Hk, list_elem_of_fmap. by exists (k', v'). }
      unfold confirmed_step. simpl. destruct v; rewrite ?lookup_insert_ne by done;
        (eapply Hfresh; by right). }
  rewrite Hfold; [|apply btree_keys_NoDup|done]. rewrite list_to_map_btree_entries.
  by destruct (m !! id).
Qed.

Lemma effective_yields state : yields (effective state) (visible state).
Proof.
  unfold effective. eapply yields_bind.
  { apply (yields_fold _ confirmed_step). intros. apply confirmed_yields. }
  do 2 apply yields_charge.
  assert (foldl operation_step (foldl confirmed_step ∅ (btree_entries (st_confirmed state)))
    (optimistic_operations state) = visible state) as <-.
  { apply map_eq. intros id. unfold visible. rewrite lookup_omap. unfold optimistic_projection.
    apply operations_fold. rewrite lookup_omap. apply confirmed_rows. }
  apply yields_fold. intros rows op _. apply yields_charge. destruct op; apply yields_ret.
Qed.

(** ** Counts *)

Definition selected_rows (selector : Selector) (state : DurableClientState JsonValue)
  : list (string * JsonValue) :=
  List.filter (λ e, satisfies selector e.2) (btree_entries (visible state)).

Lemma count_fold selector (l : list (string * JsonValue)) (n : N) :
  foldl (λ n e, if satisfies selector e.2 then n + 1 else n)%N n l =
  (n + vec_len (List.filter (λ e, satisfies selector e.2) l))%N.
Proof.
  revert n. induction l as [|e l IH]; intros n; simpl; [unfold vec_len; simpl; lia|].
  rewrite IH. destruct (satisfies selector e.2); [|done]. unfold vec_len. simpl. lia.
Qed.

Lemma count_yields state selector :
  yields (view_count state selector) (vec_len (selected_rows selector state)).
Proof.
  unfold view_count. eapply yields_bind; [apply effective_yields|].
  unfold selected_rows. rewrite <-(N.add_0_l (vec_len _)), <-count_fold.
  apply (yields_fold _ (λ n e, if satisfies selector e.2 then n + 1 else n)%N). intros n e _. apply yields_charge.
  eapply yields_bind; [apply matches_yields|apply yields_ret].
Qed.

(** ** Pages *)

Definition after_rows (selector : Selector) (after : option string)
    (state : DurableClientState JsonValue) : list (string * JsonValue) :=
  List.filter (λ e, negb (page_after after e.1)) (selected_rows selector state).

Lemma page_loop_yields selector after limit entries selected :
  (vec_len selected ≤ limit)%N →
  let wanted := List.filter (λ e, negb (page_after after e.1))
                  (List.filter (λ e, satisfies selector e.2) entries) in
  yields (page_loop selector after limit entries selected)
    (take (N.to_nat limit) (selected ++ wanted), (limit <? vec_len (selected ++ wanted))%N).
Proof.
  revert selected. induction entries as [|[id value] entries IH]; intros selected Hl; simpl.
  { rewrite app_nil_r, take_ge by (unfold vec_len in *; lia).
    rewrite (proj2 (N.ltb_ge _ _) Hl). apply yields_ret. }
  apply yields_charge. destruct (page_after after id) eqn:Hafter.
  { eapply yields_bind; [apply yields_ret|]. specialize (IH _ Hl). simpl in IH.
    destruct (satisfies selector value); simpl; rewrite ?Hafter; exact IH. }
  eapply yields_bind; [apply matches_yields|]. destruct (satisfies selector value); simpl;
    [|by apply IH]. rewrite Hafter. simpl.
  destruct (N.eqb_spec (vec_len selected) limit) as [Heq|Hne].
  - rewrite take_app_le, take_ge by (unfold vec_len in *; lia).
    rewrite (proj2 (N.ltb_lt _ _)); [apply yields_ret|]. unfold vec_len in *. rewrite length_app. simpl. lia.
  - specialize (IH (selected ++ [(id, value)])). simpl in IH. rewrite <-!app_assoc in IH. apply IH.
    unfold vec_len in *. rewrite length_app. simpl. lia.
Qed.

(** The fields of a row, in projection order. *)
Definition row_fields (projection : list (list string)) (value : JsonValue)
  : list (list string * option JsonValue) :=
  (λ path, (path, field_at value path)) <$> projection.

Lemma foldl_snoc_map {A B} (f : A → B) (acc : list B) (l : list A) :
  foldl (λ acc x, acc ++ [f x]) acc l = acc ++ (f <$> l).
Proof.
  revert acc. induction l as [|x l IH]; intros acc; csimpl; [by rewrite app_nil_r|].
  by rewrite IH, <-app_assoc.
Qed.

Lemma page_row_yields projection summary rows entry :
  yields (page_row projection summary rows entry)
    (rows ++ [mkViewRow entry.1 (row_fields projection entry.2)
                (default summary_empty (summary !! entry.1))]).
Proof.
  unfold page_row. eapply yields_bind; [|apply yields_ret].
  unfold row_fields. rewrite <-(app_nil_l (_ <$> projection)), <-foldl_snoc_map.
  apply (yields_fold _ (λ acc path, acc ++ [(path, field_at entry.2 path)])).
  intros fields path _. eapply yields_bind; [|apply yields_ret].
  unfold page_field. eapply yields_bind; [apply view_field_yields|]. apply yields_charge, yields_ret.
Qed.

(** ** Summaries *)

Definition summary_of (state : DurableClientState JsonValue) (id : RecordId) : RowSummary :=
  mkRowSummary (pending_of state id)
    ((λ c, (rc_identity c, rc_resolution c)) <$> conflicts_of state id)
    ((λ a, (ra_identity a, ra_sequence a,
            match ra_status a with CoveredByAuthorizedReset => true | _ => false end))
       <$> accepted_of state id).

Definition add_summary (s t : RowSummary) : RowSummary :=
  mkRowSummary (sum_pending s ++ sum_pending t) (sum_conflicts s ++ sum_conflicts t)
    (sum_accepted s ++ sum_accepted t).
Lemma add_summary_empty s : add_summary s summary_empty = s.
Proof. destruct s. unfold add_summary. simpl. by rewrite !app_nil_r. Qed.
Lemma add_summary_assoc s t u : add_summary (add_summary s t) u = add_summary s (add_summary t u).
Proof. unfold add_summary. simpl. by rewrite !app_assoc. Qed.

(** A step that adds to the summaries of the records in [ids]. *)
Definition adds (ids : gset string) (f : gmap string RowSummary → charged (gmap string RowSummary))
    (delta : string → RowSummary) : Prop :=
  ∀ rows w r, f rows w = Ok r → dom rows = ids →
    dom r.1 = ids ∧ ∀ id s, id ∈ ids → rows !! id = Some s → r.1 !! id = Some (add_summary s (delta id)).

Lemma adds_charge {A} ids (m : charged A) f delta :
  adds ids f delta → adds ids (λ rows, ch_bind m (λ _, f rows)) delta.
Proof.
  intros Hf rows w r. unfold ch_bind. destruct (m w) as [[a w1]|]; [|done]. apply Hf.
Qed.
Lemma adds_none ids : adds ids ch_ret (λ _, summary_empty).
Proof.
  intros rows w r [= <-] Hd. split; [done|]. intros id s _ Hs. by rewrite add_summary_empty.
Qed.
Lemma adds_fold {A} ids (f : gmap string RowSummary → A → charged (gmap string RowSummary))
    (delta : A → string → RowSummary) l :
  (∀ x, adds ids (λ rows, f rows x) (delta x)) →
  adds ids (λ rows, ch_fold f rows l) (λ id, foldr add_summary summary_empty ((λ x, delta x id) <$> l)).
Proof.
  intros Hf. induction l as [|x l IH]; intros rows w r Hr Hd; csimpl in *.
  { by apply (adds_none ids rows w r). }
  unfold ch_bind in Hr. destruct (f rows x w) as [[rows1 w1]|] eqn:Hx; [|done].
  destruct (Hf x _ _ _ Hx Hd) as [Hd1 Hs1]. simpl in *.
  destruct (IH _ _ _ Hr Hd1) as [Hd2 Hs2]. split; [done|]. intros id s Hid Hs.
  rewrite (Hs2 _ _ Hid (Hs1 _ _ Hid Hs)). by rewrite add_summary_assoc.
Qed.
Lemma adds_alter (ids : gset string) g delta id0 :
  (∀ s, g s = add_summary s (delta id0)) → (∀ id, id ≠ id0 → delta id = summary_empty) →
  adds ids (λ rows, ch_ret (alter g id0 rows)) delta.
Proof.
  intros Hg Hd rows w r [= <-] Hdom. simpl. split; [by rewrite dom_alter_L|].
  intros id s _ Hs. destruct (decide (id = id0)) as [->|Hne].
  - by rewrite lookup_alter_eq, Hs, <-Hg.
  - rewrite lookup_alter_ne by done. by rewrite Hd, add_summary_empty.
Qed.

(** What one operation of a pending commit or of an outcome adds. *)
Definition pending_delta (c : ClientCommit JsonValue) (op : Operation JsonValue) (id : string)
  : RowSummary :=
  if decide (op_record_id op = id) then mkRowSummary [commit_identity c] [] [] else summary_empty.
Definition outcome_summary (r : ResolvedCommit JsonValue) : RowSummary :=
  let identity := commit_identity (local_commit r) in
  match outcome r with
  | Accepted _ seq _ => mkRowSummary [] [] [(identity, seq, covered_by_reset r)]
  | Conflict _ _ _ => mkRowSummary [] [(identity, resolution r)] []
  | Rejected _ _ => summary_empty
  end.
Definition outcome_delta (r : ResolvedCommit JsonValue) (op : Operation JsonValue) (id : string)
  : RowSummary :=
  if decide (op_record_id op = id) then outcome_summary r else summary_empty.

Lemma adds_foreign (ids : gset string) delta :
  (∀ id, id ∈ ids → delta id = summary_empty) → adds ids ch_ret delta.
Proof.
  intros Hd rows w r [= <-] Hdom. split; [done|]. intros id s Hid Hs.
  by rewrite Hd, add_summary_empty.
Qed.

Lemma summary_pending_adds ids c op :
  adds ids (λ rows, summary_pending ids c rows op) (pending_delta c op).
Proof.
  unfold summary_pending, pending_delta. apply adds_charge. case_decide as Hin.
  - apply adds_charge. apply (adds_alter _ _ _ (op_record_id op)).
    + intros s. rewrite decide_True by done. unfold add_summary. simpl. by rewrite !app_nil_r.
    + intros id Hne. by rewrite decide_False.
  - apply adds_foreign. intros id Hid. rewrite decide_False; [done|]. by intros <-.
Qed.

Lemma summary_outcome_adds ids r op :
  adds ids (λ rows, summary_outcome ids r rows op) (outcome_delta r op).
Proof.
  unfold summary_outcome, outcome_delta. apply adds_charge. case_decide as Hin.
  - do 2 apply adds_charge. destruct (outcome r) eqn:Ho.
    1, 2: apply (adds_alter _ _ _ (op_record_id op));
      [intros s; rewrite decide_True by done; unfold add_summary, outcome_summary; rewrite Ho; simpl;
         by rewrite !app_nil_r
      |intros id Hne; by rewrite decide_False].
    intros rows w x [= <-] Hd. split; [done|]. intros id s _ Hs. simpl.
    unfold outcome_summary. rewrite Ho. case_decide; by rewrite add_summary_empty.
  - apply adds_foreign. intros id Hid. rewrite decide_False; [done|]. by intros <-.
Qed.

Lemma touching_sum (x : RowSummary) (c : ClientCommit JsonValue) id :
  foldr add_summary summary_empty
    ((λ op, if decide (op_record_id op = id) then x else summary_empty) <$> operations c) =
  mkRowSummary (touching id c ≫= λ _, sum_pending x) (touching id c ≫= λ _, sum_conflicts x)
    (touching id c ≫= λ _, sum_accepted x).
Proof.
  unfold touching. induction (operations c) as [|op ops IH]; csimpl; [done|]. rewrite IH.
  destruct (decide (op_record_id op = id)).
  - rewrite filter_cons_True by done. reflexivity.
  - rewrite filter_cons_False by done. reflexivity.
Qed.

Lemma foldr_add_summary {A} (f : A → RowSummary) (l : list A) :
  foldr add_summary summary_empty (f <$> l) =
  mkRowSummary (l ≫= λ x, sum_pending (f x)) (l ≫= λ x, sum_conflicts (f x))
    (l ≫= λ x, sum_accepted (f x)).
Proof. induction l as [|x l IH]; csimpl; [done|]. by rewrite IH. Qed.

Lemma bind_ext_list {A B} (f g : A → list B) l : (∀ x, x ∈ l → f x = g x) → l ≫= f = l ≫= g.
Proof.
  induction l as [|x l IH]; intros Hf; csimpl; [done|]. rewrite Hf by by left.
  f_equal. apply IH. intros. apply Hf. by right.
Qed.
Lemma bind_singleton {A B} (f : A → B) (l : list A) : l ≫= (λ x, [f x]) = f <$> l.
Proof. induction l as [|x l IH]; csimpl; [done|]. by rewrite IH. Qed.
Lemma fmap_bind {A B C} (f : B → C) (g : A → list B) (l : list A) :
  f <$> (l ≫= g) = l ≫= λ x, f <$> g x.
Proof. induction l as [|x l IH]; csimpl; [done|]. by rewrite fmap_app, IH. Qed.

Lemma summaries_lookup state ids w r id :
  summaries state ids w = Ok r → id ∈ ids → r.1 !! id = Some (summary_of state id).
Proof.
  intros Hs Hid. unfold summaries in Hs. unfold ch_bind at 1 in Hs.
  pose proof (adds_fold ids (λ rows c, charge! _ := visit true in
      ch_fold (summary_pending ids c) rows (operations c)) _ (st_outbox state)
    (λ c, adds_charge _ _ _ _ (adds_fold _ _ _ _ (summary_pending_adds ids c)))) as Hout.
  pose proof (adds_fold ids (λ rows r, charge! _ := visit true in
      ch_fold (summary_outcome ids r) rows (operations (local_commit r))) _ (st_outcomes state)
    (λ r, adds_charge _ _ _ _ (adds_fold _ _ _ _ (summary_outcome_adds ids r)))) as Hres.
  destruct (ch_fold _ (gset_to_gmap summary_empty ids) (st_outbox state) w) as [[rows w1]|] eqn:H1; [|done].
  destruct (Hout _ _ _ H1 (dom_gset_to_gmap ids summary_empty)) as [Hd1 Hp].
  specialize (Hp id summary_empty Hid).
  rewrite lookup_gset_to_gmap, option_guard_True in Hp by done. specialize (Hp eq_refl). simpl in Hd1, Hp.
  destruct (Hres _ _ _ Hs Hd1) as [_ Hr].
  rewrite (Hr _ _ Hid Hp). f_equal. unfold pending_delta, outcome_delta.
  rewrite !foldr_add_summary. unfold add_summary, summary_of. simpl. f_equal.
  - rewrite (bind_ext_list _ (λ _, []) (st_outcomes state)), bind_nil, app_nil_r.
    + apply bind_ext_list. intros c _. rewrite touching_sum. simpl. by rewrite bind_singleton.
    + intros x _. rewrite touching_sum. simpl. unfold outcome_summary.
      destruct (outcome x); simpl; apply bind_nil.
  - rewrite (bind_ext_list _ (λ _, []) (st_outbox state)), bind_nil.
    + simpl. unfold conflicts_of. rewrite fmap_bind. apply bind_ext_list. intros x _.
      rewrite touching_sum. simpl. unfold outcome_summary.
      destruct (outcome x); simpl; rewrite ?bind_nil, ?bind_singleton, <-?list_fmap_compose; done.
    + intros c _. rewrite touching_sum. simpl. apply bind_nil.
  - rewrite (bind_ext_list _ (λ _, []) (st_outbox state)), bind_nil.
    + simpl. unfold accepted_of. rewrite fmap_bind. apply bind_ext_list. intros x _.
      rewrite touching_sum. simpl. unfold outcome_summary.
      destruct (outcome x); simpl; rewrite ?bind_nil, ?bind_singleton, <-?list_fmap_compose; try done.
      apply list_fmap_ext. intros i op _. simpl. unfold read_accepted. by destruct (covered_by_reset x).
    + intros c _. rewrite touching_sum. simpl. apply bind_nil.
Qed.

(** ** The exact answers *)

Definition view_row (state : DurableClientState JsonValue) (projection : list (list string))
    (entry : string * JsonValue) : ViewRow :=
  mkViewRow entry.1 (row_fields projection entry.2) (summary_of state entry.1).

(** The rows of one page and the record its successor starts after. *)
Definition page_of (state : DurableClientState JsonValue) (selector : Selector)
    (projection : list (list string)) (limit : N) (after : option string)
  : list ViewRow * option string :=
  let all := after_rows selector after state in
  (view_row state projection <$> take (N.to_nat limit) all,
   if (limit <? vec_len all)%N then fst <$> last (take (N.to_nat limit) all) else None).

Lemma foldl_snoc_rows projection (summary : gmap string RowSummary) acc l :
  foldl (λ rows (entry : string * JsonValue), rows ++ [mkViewRow entry.1 (row_fields projection entry.2)
           (default summary_empty (summary !! entry.1))]) acc l =
  acc ++ ((λ entry : string * JsonValue, mkViewRow entry.1 (row_fields projection entry.2)
           (default summary_empty (summary !! entry.1))) <$> l).
Proof. apply (foldl_snoc_map (λ entry, mkViewRow _ _ _)). Qed.

Lemma page_yields state selector projection limit after :
  yields (view_page state selector projection limit after)
    (page_of state selector projection limit after).
Proof.
  unfold view_page. eapply yields_bind; [apply effective_yields|].
  eapply yields_bind; [apply page_loop_yields; unfold vec_len; simpl; lia|]. simpl.
  fold (selected_rows selector state). fold (after_rows selector after state).
  set (all := after_rows selector after state). unfold page_of. fold all.
  intros w r. unfold ch_bind at 1.
  destruct (summaries _ _ w) as [[summary w1]|] eqn:Hs; [|done].
  assert (∀ e, e ∈ take (N.to_nat limit) all →
    default summary_empty (summary !! e.1) = summary_of state e.1) as Hsum.
  { intros e He. erewrite (summaries_lookup state _ _ (summary, w1)); [done|done|].
    apply elem_of_list_to_set, list_elem_of_fmap. by exists e. }
  revert w1 r Hs. intros w1 r _. revert w1 r.
  change (yields (charge! rows := ch_fold (page_row projection summary) [] (take (N.to_nat limit) all) in
    ch_ret (rows, if (limit <? vec_len all)%N then fst <$> last (take (N.to_nat limit) all) else None))
    (view_row state projection <$> take (N.to_nat limit) all,
     if (limit <? vec_len all)%N then fst <$> last (take (N.to_nat limit) all) else None)).
  eapply yields_bind; [|apply yields_ret].
  assert (view_row state projection <$> take (N.to_nat limit) all =
    foldl (λ rows (entry : string * JsonValue), rows ++ [mkViewRow entry.1 (row_fields projection entry.2)
           (default summary_empty (summary !! entry.1))]) [] (take (N.to_nat limit) all)) as ->.
  { rewrite foldl_snoc_rows. simpl. apply list_fmap_ext. intros i e He.
    apply list_elem_of_lookup_2 in He. unfold view_row. by rewrite Hsum. }
  apply yields_fold. intros. apply page_row_yields.
Qed.

(** ** Following the cursors *)

#[local] Arguments page_after : simpl never.

Section ordered.
Context {A : Type}.
Implicit Types l : list (string * A).

(** Entries by strictly increasing key. *)
Definition by_key (a b : string * A) : Prop := str_lt a.1 b.1.

Lemma entries_by_key (m : gmap string A) : StronglySorted by_key (btree_entries m).
Proof.
  pose proof (btree_keys_sorted m) as Hs. pose proof (btree_keys_NoDup m) as Hn.
  unfold btree_keys in *. revert Hs Hn. generalize (btree_entries m). intros l.
  induction l as [|e l IH]; csimpl; intros Hs Hn; [constructor|].
  apply StronglySorted_inv in Hs as [Hs Hle]. apply NoDup_cons in Hn as [Hne Hn].
  constructor; [by apply IH|]. apply Forall_forall. intros e' He'. rewrite Forall_forall in Hle.
  destruct (proj1 (str_le_lteq e.1 e'.1)) as [?|Heq]; [|done|].
  - apply Hle, list_elem_of_fmap. by exists e'.
  - destruct Hne. rewrite Heq. apply list_elem_of_fmap. by exists e'.
Qed.

Lemma sorted_filter (f : string * A → bool) l :
  StronglySorted by_key l → StronglySorted by_key (List.filter f l).
Proof.
  induction 1 as [|e l Hs IH Hall]; simpl; [constructor|]. destruct (f e); [|done].
  constructor; [done|]. rewrite Forall_forall in *. intros x Hx.
  apply Hall. apply list_elem_of_In in Hx. apply list_elem_of_In.
  by apply (filter_In f x l).
Qed.

Lemma after_none (l : list (string * A)) k :
  Forall (λ e, str_lt k e.1) l → List.filter (λ e, negb (page_after (Some k) e.1)) l = l.
Proof.
  induction 1 as [|e l He _ IH]; simpl; [done|]. unfold page_after, str_lt in *. rewrite He. simpl.
  by rewrite IH.
Qed.

(** What comes after the entry at place [i] is the rest of the list. *)
Lemma after_entry l i e :
  StronglySorted by_key l → l !! i = Some e →
  List.filter (λ x, negb (page_after (Some e.1) x.1)) l = drop (S i) l.
Proof.
  intros Hs. revert i. induction Hs as [|x l Hs IH Hall]; intros i; [done|].
  assert (∀ y, (y = x ∨ by_key x y) → page_after (Some y.1) x.1 = true) as Hx.
  { intros y [->|Hlt]; unfold page_after; [by rewrite (proj2 (str_cmp_eq _ _) eq_refl)|].
    unfold by_key, str_lt in Hlt. by rewrite str_cmp_antisym, Hlt. }
  destruct i as [|i]; simpl.
  - intros [= ->]. rewrite Hx by by left. simpl. by apply after_none.
  - intros Hi. rewrite Hx; [by apply IH|]. right. rewrite Forall_forall in Hall.
    by eapply Hall, list_elem_of_lookup_2.
Qed.
End ordered.

(** The pages a client sees when it follows the cursors from [after] to the end. *)
Inductive pages (state : DurableClientState JsonValue) (selector : Selector)
    (projection : list (list string)) (limit : N) : option string → list (list ViewRow) → Prop :=
| pages_last after rows w w' :
    view_page state selector projection limit after w = Ok (rows, None, w') →
    pages state selector projection limit after [rows]
| pages_more after rows last w w' rest :
    view_page state selector projection limit after w = Ok (rows, Some last, w') →
    pages state selector projection limit (Some last) rest →
    pages state selector projection limit after (rows :: rest).

Lemma selected_sorted selector state : StronglySorted by_key (selected_rows selector state).
Proof. apply sorted_filter, entries_by_key. Qed.

(** One step along the cursors: the page is the front of what is left, the cursor its end. *)
Lemma page_advance state selector projection limit after k rows next w w' :
  (0 < limit)%N → after_rows selector after state = drop k (selected_rows selector state) →
  view_page state selector projection limit after w = Ok (rows, next, w') →
  let rest := drop k (selected_rows selector state) in
  rows = view_row state projection <$> take (N.to_nat limit) rest ∧
  match next with
  | None => length rest ≤ N.to_nat limit
  | Some last => last ∈ (selected_rows selector state).*1 ∧ N.to_nat limit < length rest ∧
      after_rows selector (Some last) state = drop (N.to_nat limit) rest
  end.
Proof.
  intros Hl Hk Hp. apply page_yields in Hp. unfold page_of in Hp. rewrite Hk in Hp.
  set (rest := drop k _) in *. injection Hp as -> ->. split; [done|].
  destruct (N.ltb_spec limit (vec_len rest)) as [Hlt|Hge]; unfold vec_len in *; [|lia].
  rewrite last_lookup. rewrite length_take_le by lia.
  destruct (rest !! pred (N.to_nat limit)) as [e|] eqn:He; [|apply lookup_ge_None in He; lia].
  rewrite lookup_take_lt, He by lia. simpl. subst rest. rewrite lookup_drop in He.
  split; [apply list_elem_of_fmap; exists e; split; [done|by eapply list_elem_of_lookup_2]|].
  split; [lia|]. unfold after_rows.
  rewrite (after_entry _ _ _ (selected_sorted selector state) He), drop_drop. f_equal. lia.
Qed.

Lemma after_rows_all selector state : after_rows selector None state = selected_rows selector state.
Proof.
  unfold after_rows. induction (selected_rows selector state) as [|e l IH]; simpl; [done|by f_equal].
Qed.

Lemma pages_from state selector projection limit after k l :
  (0 < limit)%N → pages state selector projection limit after l →
  after_rows selector after state = drop k (selected_rows selector state) →
  concat l = view_row state projection <$> drop k (selected_rows selector state) ∧
  (∀ i page, l !! i = Some page → S i < length l → length page = N.to_nat limit) ∧
  Forall (λ page, length page ≤ N.to_nat limit) l.
Proof.
  intros Hl Hp. revert k. induction Hp as [after rows w w' Hp|after rows last w w' rest Hp _ IH];
    intros k Hk; destruct (page_advance _ _ _ _ _ _ _ _ _ _ Hl Hk Hp) as [-> Hn]; simpl.
  - rewrite app_nil_r, take_ge by done. split; [done|]. split; [|repeat constructor; by rewrite length_fmap].
    intros [|i] page; simpl; [lia|done].
  - destruct Hn as (_ & Hlt & Hn). rewrite drop_drop in Hn. destruct (IH _ Hn) as (-> & Hfull & Hall).
    rewrite <-fmap_app, <-drop_drop, take_drop. split; [done|].
    assert (length (view_row state projection <$> take (N.to_nat limit) (drop k (selected_rows selector state)))
      = N.to_nat limit) as Hlen by (rewrite length_fmap, length_take; lia).
    split; [|by constructor; [lia|]].
    intros [|i] page; simpl; [by intros [= <-]|]. intros ??. eapply Hfull; [done|lia].
Qed.

(** ** Work *)

(** The limits of a request. *)
Definition within (w : Work) : Prop :=
  (wk_records_visited w + wk_operations_visited w ≤ MAX_VISITS)%N ∧
  (wk_value_nodes_visited w ≤ MAX_NODES)%N ∧ (wk_value_bytes_visited w ≤ MAX_VALUE_BYTES)%N.

(** Charged code that stays within the limits and fails only at one of them. *)
Definition limited {A} (m : charged A) : Prop := ∀ w, within w →
  match m w with Ok (_, w') => within w' | Err e => e = ReadOutputTooLarge end.

Lemma limited_ret {A} (a : A) : limited (ch_ret a).
Proof. by intros w. Qed.
Lemma limited_err {A} : limited (ch_err (A := A) ReadOutputTooLarge).
Proof. by intros w. Qed.
Lemma limited_bind {A B} (m : charged A) (k : A → charged B) :
  limited m → (∀ a, limited (k a)) → limited (ch_bind m k).
Proof.
  intros Hm Hk w Hw. specialize (Hm w Hw). unfold ch_bind. destruct (m w) as [[a w1]|]; [|done].
  by apply Hk.
Qed.
Lemma limited_fold {A S} (f : S → A → charged S) s l :
  (∀ s x, x ∈ l → limited (f s x)) → limited (ch_fold f s l).
Proof.
  revert s. induction l as [|x l IH]; intros s Hf; simpl; [apply limited_ret|].
  apply limited_bind; [apply Hf; by left|]. intros s'. apply IH. intros. apply Hf. by right.
Qed.
Lemma limited_visit b : limited (visit b).
Proof.
  intros w (Hv & Hn & Hb). unfold visit.
  destruct b; simpl; destruct (N.ltb_spec MAX_VISITS (wk_records_visited w + wk_operations_visited w + 1));
    rewrite ?(proj2 (N.ltb_lt _ _)), ?(proj2 (N.ltb_ge _ _)) by lia; try done;
    repeat split; simpl; done || lia.
Qed.
Lemma limited_bytes n : limited (charge_bytes n).
Proof.
  intros w (Hv & Hn & Hb). unfold charge_bytes. destruct (checked_add _ _ _) as [b|]; simpl; [|done].
  destruct (N.ltb_spec MAX_VALUE_BYTES b); [done|]. by repeat split.
Qed.
Lemma limited_node : limited charge_node.
Proof.
  intros w (Hv & Hn & Hb). unfold charge_node. simpl.
  destruct (N.ltb_spec MAX_NODES (wk_value_nodes_visited w + 1)); [done|]. by repeat split.
Qed.

Create HintDb limited.
#[export] Hint Resolve limited_ret limited_err limited_visit limited_bytes limited_node : limited.
Ltac limited_auto :=
  repeat first
    [ solve [eauto with limited]
    | match goal with
      | |- limited (ch_bind _ _) => apply limited_bind; [|intros ?]
      | |- limited (ch_fold _ _ _) => apply limited_fold; intros ???
      | |- limited (ch_each _ _) => apply limited_fold; intros ???
      | |- limited (if ?b then _ else _) => destruct b
      | |- limited (match ?b with _ => _ end) => destruct b
      end ].

Lemma limited_value v depth : limited (charge_value v depth).
Proof.
  revert depth. induction v as [| | | |a IH|o IH] using JsonValue_ind; intros depth; simpl;
    apply limited_bind; auto with limited; intros _; case_match; auto with limited.
  - apply limited_fold. intros _ v Hv. rewrite Forall_forall in IH. by apply IH.
  - apply limited_fold. intros _ kv Hkv. rewrite Forall_forall in IH.
    apply limited_bind; [apply limited_bytes|]. intros _. by apply IH.
Qed.
#[export] Hint Resolve limited_value : limited.

Lemma limited_field value path : limited (view_field value path).
Proof.
  revert value. induction path as [|key path IH]; intros value; simpl; [apply limited_ret|].
  limited_auto.
Qed.
#[export] Hint Resolve limited_field : limited.

Lemma limited_matches selector value : limited (matches selector value).
Proof.
  induction selector as [|path wanted|terms IH] using Selector_rect_nested; simpl; [limited_auto..|].
  induction IH as [|t terms Ht _ IHt]; simpl; limited_auto.
Qed.
#[export] Hint Resolve limited_matches : limited.

Lemma limited_effective state : limited (effective state).
Proof. unfold effective, effective_confirmed, charge_commit, effective_operation. limited_auto. Qed.
Lemma limited_summaries state ids : limited (summaries state ids).
Proof. unfold summaries, summary_pending, summary_outcome. limited_auto. Qed.
Lemma limited_page_loop selector after limit entries selected :
  limited (page_loop selector after limit entries selected).
Proof. revert selected. induction entries as [|[id v] entries IH]; intros selected; simpl; limited_auto. Qed.
#[export] Hint Resolve limited_effective limited_summaries limited_page_loop : limited.

Lemma limited_count state selector : limited (view_count state selector).
Proof. unfold view_count. limited_auto. Qed.
Lemma limited_page state selector projection limit after :
  limited (view_page state selector projection limit after).
Proof. unfold view_page, page_row, page_field. limited_auto. Qed.
