(* ===== verification/ViewResults.v ===== *)
(** * Local views: exact answers, complete pages, bounded work. *)

From S2P Require Import Prelude Protocol Subscription ClientState SubscriptionState Client Read NativeErrors Json NativeCodec Queue ReadJournal View ViewProps NativeFixtures.

(** ** A view of the fixture *)

Definition vx_name : list (list string) := [["name"]].
Definition vx_request : ViewRequest := VPage 1 SelAll vx_name 1 None.
#[local] Instance vx_requests : SerdeJson ViewRequest := {|
  to_value _ := Err tt; from_value _ := Err tt; to_text _ := Err tt;
  from_text _ := Ok vx_request; from_slice _ := Err tt;
|}.
#[local] Instance vx_cursors : SerdeJson ViewCursor := {|
  to_value _ := Err tt; from_value _ := Err tt; to_text c := Ok (vc_last_record_id c);
  from_text _ := Err tt; from_slice _ := Err tt;
|}.
#[local] Instance vx_queries : SerdeJson (Selector * list (list string) * N) := {|
  to_value _ := Err tt; from_value _ := Err tt; to_text _ := Ok "all names";
  from_text _ := Err tt; from_slice _ := Err tt;
|}.

(** ** Answers *)

Section answers.
Context `{!SerdeJson ViewRequest, !SerdeJson ViewCursor, !SerdeJson (Selector * list (list string) * N)}.
Implicit Types state : DurableClientState JsonValue.

(** Where a page starts: at the front, or after the record of a cursor that this process
    has issued at this revision. *)
Definition page_start (journal : ReadJournal) state (raw after : option string) : Prop :=
  match raw with
  | None => after = None
  | Some raw => ∃ cursor, from_text raw = Ok cursor ∧ after = Some (vc_last_record_id cursor) ∧
      issued_view_cursor journal raw = true ∧
      vc_revision cursor = u64_to_string (st_revision state)
  end.

(** The text of the cursor to the page that follows record [last]. *)
Definition next_cursor state (text last : option string) : Prop :=
  match text, last with
  | Some text, Some last => ∃ cursor : ViewCursor, to_text cursor = Ok text ∧
      vc_last_record_id cursor = last ∧ vc_revision cursor = u64_to_string (st_revision state)
  | None, None => True
  | _, _ => False
  end.

(** What a response says about the state it was read from. *)
Definition view_answer (journal : ReadJournal) state (request : ViewRequest)
    (response : ViewResponse) : Prop :=
  match response, request with
  | VStaleCursor, VPage _ _ _ _ (Some _) => True
  | VObserved count work, VCount _ selector =>
      count = vec_len (selected_rows selector state) ∧ within work
  | VRows rows text work, VPage _ selector projection limit raw =>
      (1 ≤ limit ≤ 64)%N ∧ within work ∧ ∃ after last, page_start journal state raw after ∧
        (rows, last) = page_of state selector projection limit after ∧ next_cursor state text last
  | _, _ => False
  end.

Lemma view_after_start journal state metadata query request after :
  view_after journal state metadata query request = Ok (Some after) →
  match request with
  | VCount _ _ => True
  | VPage _ _ _ _ raw => page_start journal state raw after
  end.
Proof.
  unfold view_after. destruct request as [|v selector projection limit [raw|]]; [done| |by intros [= <-]].
  destruct (_ <? _)%N; [done|]. intros (cursor & Hc & H)%result_bind_Ok.
  apply map_err_Ok in Hc. apply result_bind_Ok in H as (text & _ & H).
  case_decide; [done|]. case_decide as Hstale; [done|]. case_decide; [done|]. injection H as <-.
  exists cursor. split; [done|]. split; [done|].
  split; [destruct (issued_view_cursor journal raw); tauto|]. apply dec_stable. tauto.
Qed.

Lemma view_query_limit v selector projection limit raw query :
  view_query (VPage v selector projection limit raw) = Ok query → (1 ≤ limit ≤ 64)%N.
Proof.
  unfold view_query, projection_valid. destruct (bool_decide (1 ≤ limit ≤ 64)%N) eqn:Hl; [|done].
  intros _. by apply bool_decide_eq_true in Hl.
Qed.

Lemma work_default_within : within work_default.
Proof. by repeat split. Qed.

(** C26: A view answers exactly.  A successful count is the number of visible records that
    satisfy the selector, where the visible records are those of the optimistic projection;
    a successful page has the next [limit] of them in key order, with the projected fields
    and the pending, conflicting and accepted commits of each row, starting after the record
    of a cursor that was issued here at this revision, and its own cursor, present exactly
    when rows are left, names the last row.  The work charged is within the limits. *)
Theorem view_read_exact state journal token input response md :
  view_read state journal token input = Ok (response, md) →
  ∃ request, from_text input = Ok request ∧ view_answer journal state request response.
Proof.
  unfold view_read. destruct (_ <? _)%N; [done|]. intros (request & Hreq & H)%result_bind_Ok.
  apply map_err_Ok in Hreq. exists request. split; [done|]. case_decide; [done|].
  apply result_bind_Ok in H as (u & _ & H). case_decide; [done|].
  apply result_bind_Ok in H as (metadata & _ & H). apply result_bind_Ok in H as (query & Hq & H).
  apply map_err_Ok in Hq. destruct (_ <? _)%N; [done|].
  apply result_bind_Ok in H as ([after|] & Ha & H); apply map_err_Ok in Ha; cycle 1.
  { injection H as <- <-. unfold view_after in Ha. by destruct request as [|? ? ? ? []]. }
  apply view_after_start in Ha. destruct request as [v selector|v selector projection limit raw].
  - apply result_bind_Ok in H as ([count work] & Hc%map_err_Ok & [= <- <-]).
    pose proof (limited_count state selector _ work_default_within) as Hw. rewrite Hc in Hw.
    split; [exact (count_yields _ _ _ _ Hc)|done].
  - apply result_bind_Ok in H as ([[rows last] work] & Hp%map_err_Ok & H).
    apply result_bind_Ok in H as (text & Ht%map_err_Ok & [= <- <-]).
    pose proof (limited_page state selector projection limit after _ work_default_within) as Hw.
    rewrite Hp in Hw. split; [by eapply view_query_limit|]. split; [done|].
    exists after, last. split; [done|]. split; [exact (page_yields _ _ _ _ _ _ _ Hp)|].
    destruct last as [last|]; [|by injection Ht as <-].
    apply result_bind_Ok in Ht as (t & Hcur%map_err_Ok & Ht). destruct (_ <? _)%N; [done|].
    injection Ht as <-. simpl. by eexists.
Qed.
End answers.

Lemma view_read_exact_witness :
  ∃ response md, view_read nx_second (journal_default "epoch") "token" "page" = Ok (response, md) ∧
    view_answer (journal_default "epoch") nx_second vx_request response.
Proof.
  destruct (view_read nx_second (journal_default "epoch") "token" "page") as [[response md]|e] eqn:Hr;
    [|by vm_compute in Hr].
  exists response, md. split; [done|].
  destruct (view_read_exact nx_second (journal_default "epoch") "token" "page" response md Hr)
    as (request & [= <-] & Ha). exact Ha.
Defined.

(** ** Pages *)

Set Default Proof Using "Type*".

Section paging.
Variables (state : DurableClientState JsonValue) (selector : Selector)
  (projection : list (list string)) (limit : N).
Hypothesis limit_positive : (0 < limit)%N.

(** C27: Following the cursors visits every matching record exactly once: the pages one
    after the other are the rows of all visible records that satisfy the selector, in key
    order, every page but the last is full and none is longer than the limit. *)
Theorem view_pages_partition l :
  pages state selector projection limit None l →
  concat l = view_row state projection <$> selected_rows selector state ∧
  (∀ i page, l !! i = Some page → S i < length l → length page = N.to_nat limit) ∧
  Forall (λ page, length page ≤ N.to_nat limit) l.
Proof.
  intros Hl. by eapply (pages_from _ _ _ _ _ 0) in Hl; [|done|apply after_rows_all].
Qed.

(** The first page and those after a matching record succeed. *)
Definition pages_succeed : Prop :=
  ∀ after, (∀ id, after = Some id → id ∈ (selected_rows selector state).*1) →
  ∃ r, view_page state selector projection limit after work_default = Ok r.

Lemma cursors_terminate k n after :
  pages_succeed → (∀ id, after = Some id → id ∈ (selected_rows selector state).*1) →
  length (selected_rows selector state) - k ≤ n →
  after_rows selector after state = drop k (selected_rows selector state) →
  ∃ l, pages state selector projection limit after l ∧
    length l ≤ S ((length (selected_rows selector state) - k) / N.to_nat limit).
Proof.
  intros Hok. revert k after. induction n as [n IH] using lt_wf_ind. intros k after Hin Hn Hk.
  destruct (Hok after Hin) as [[[rows next] w] Hp].
  destruct (page_advance _ _ _ _ _ _ _ _ _ _ limit_positive Hk Hp) as [-> Hnext].
  destruct next as [last|]; cycle 1.
  { eexists. split; [by eapply pages_last|]. simpl. lia. }
  destruct Hnext as (Hlast & Hlt & Hafter). rewrite length_drop in Hlt. rewrite drop_drop in Hafter.
  destruct (IH (n - N.to_nat limit)) with (k := k + N.to_nat limit) (after := Some last)
    as (l & Hl & Hlen); [lia|by intros id [= <-]|lia|done|].
  eexists. split; [by eapply pages_more|]. simpl.
  replace (length (selected_rows selector state) - k)
    with ((length (selected_rows selector state) - (k + N.to_nat limit)) + 1 * N.to_nat limit) by lia.
  rewrite Nat.div_add by lia. lia.
Qed.

(** C28: Following the cursors comes to an end.  When the page requests of the view succeed,
    the sequence of pages ends after at most one more than the number of matching records
    divided by the limit. *)
Theorem view_cursors_terminate :
  pages_succeed →
  ∃ l, pages state selector projection limit None l ∧
    length l ≤ S (length (selected_rows selector state) / N.to_nat limit).
Proof.
  intros Hok. destruct (cursors_terminate 0 (length (selected_rows selector state)) None Hok)
    as (l & ? & Hl); [done|lia|apply after_rows_all|].
  exists l. by rewrite Nat.sub_0_r in Hl.
Qed.
End paging.

(** Two records, one to a page. *)
Definition vx_page (id name : string) (c : ClientCommit JsonValue) : list ViewRow :=
  [mkViewRow id [(["name"], Some (JString name))] (mkRowSummary [commit_identity c] [] [])].

Lemma vx_pages :
  pages nx_second SelAll vx_name 1 None
    [vx_page "item:1" "milk" nx_commit1; vx_page "item:2" "bread" nx_commit2].
Proof.
  eapply (pages_more _ _ _ _ None _ "item:1" work_default); [vm_compute; reflexivity|].
  eapply (pages_last _ _ _ _ (Some "item:1") _ work_default). vm_compute. reflexivity.
Qed.

Lemma view_pages_partition_witness :
  concat [vx_page "item:1" "milk" nx_commit1; vx_page "item:2" "bread" nx_commit2] =
  view_row nx_second vx_name <$> selected_rows SelAll nx_second.
Proof. apply (view_pages_partition nx_second SelAll vx_name 1); [lia|apply vx_pages]. Defined.

Lemma view_cursors_terminate_witness :
  ∃ l, pages nx_second SelAll vx_name 1 None l ∧ length l ≤ 3.
Proof.
  destruct (view_cursors_terminate nx_second SelAll vx_name 1 ltac:(lia)) as (l & Hl & Hlen).
  - assert ((selected_rows SelAll nx_second).*1 = ["item:1"; "item:2"]) as Hids
      by (vm_compute; reflexivity).
    intros [id|] Hid; [|eexists; vm_compute; reflexivity].
    specialize (Hid id eq_refl). rewrite Hids in Hid.
    apply elem_of_cons in Hid as [->|[->|[]%not_elem_of_nil]%elem_of_cons];
      eexists; vm_compute; reflexivity.
  - exists l. split; [exact Hl|]. exact Hlen.
Defined.
