(* ===== verification/NativeProps.v ===== *)
(** * The native client: storage and operations.

    The results about the journal and the client around it, as statements about whole
    operations, each with an instance over the engine of [Memory]. *)

From Stdlib Require Import Strings.Byte.
From S2P Require Import Prelude Protocol Subscription ClientState SubscriptionState Validate Client SubscriptionClient Read Steps Fixtures PullProps Canonical HttpCodec BootstrapCodec SubscriptionCodec CborReference NativeErrors Json Wire NativeCodec Engine StateRows StateLoad Stage StateStore StageStore Queue ReadJournal SubscriptionJournal View NativeClient NativeOps NativeBootstrap StateProps StoreProps ClientCoherence ClientSteps ClientOpen ClientInvariant ClientResult Memory NativeFixtures.

(** ** The fixture journals *)

Lemma nx_holds_empty : holds (mem_empty : db) nx_key None.
Proof. by repeat split. Qed.

Lemma nx_holds_saved : holds (nx_saved nx_empty : db) nx_key (Some nx_empty).
Proof.
  unfold nx_saved. destruct (nx_save nx_empty) as [r w] eqn:Hs.
  assert (r = Ok Applied) as ->.
  { apply (f_equal fst) in Hs. vm_compute in Hs. done. }
  eapply save_atomic_holds in Hs as [Hh _]; [exact Hh|apply nx_holds_empty|done|].
  by apply fixture_storable.
Qed.

(** A program and the outcome it computes. *)
Lemma outcome_pair {A B} (x : A * B) a : x.1 = a → x = (a, x.2).
Proof. destruct x. by intros <-. Qed.

Set Default Proof Using "Type*".

(** ** The journal *)

Section journal.
Context `{!SurrealTypes, !Engine, !EngineLaws, !Host, !JsonFloatText, !JsonText, !JsonTextLaws, !StateSerde, !StateSerdeLaws}.

(** C5: A transition is applied to the journal atomically.  Over a journal that holds [s],
    writing the transition from [current] to [next] reports [Applied] only when [s] was
    [current] and the revision advanced by one, and then the journal rows hold [next] and
    every record outside the journal and the two projections is untouched.  When distinct
    ids of the projections name distinct records, every record of either projection whose
    optimistic state changed has the row of its new state (no row when it was deleted or
    has left the projection) and the others keep theirs, so that the rows of the projection
    of [current] become exactly those of the projection of [next].  It reports
    [AlreadyCurrent] only for an empty transition and changes nothing.  On an error
    the database is unchanged, except that a commit whose outcome is unknown may have
    applied the whole transition. *)
Theorem store_transition_atomic sg current next s w r w' :
  stored (w_db w) (state_key current) (Some s) → storable_state next →
  outside_journal (optimistic_projection current) (optimistic_projection next) →
  apply_transition_atomic sg current next w = (r, w') →
  transition_outcome current next s (w_db w) (w_db w') r.
Proof. apply transition_outcome_holds. Qed.

(** What a transition wrote, the reader returns.  After an applied transition [load]
    with a working connection gives back exactly [next], field by field, from the rows of
    the seven journal tables. *)
Theorem store_load_roundtrip sg current next s w w1 r w2 :
  stored (w_db w) (state_key current) (Some s) → storable_state next →
  outside_journal (optimistic_projection current) (optimistic_projection next) →
  apply_transition_atomic sg current next w = (Ok Applied, w1) →
  load sg (state_key next) w1 = (Ok r, w2) → r = Some next ∧ w_db w2 = w_db w1.
Proof.
  intros Hst Hsto Hout Ha Hl. eapply transition_outcome_holds in Ha as (_ & _ & Ht); [|done..].
  assert (stored (w_db w1) (state_key next) (Some next)) as Hst1 by (split; [done|apply Ht]).
  split; [by eapply load_Ok|].
  pose proof (keeps_load sg (state_key next) w1 (ex_intro _ next Hst1)) as Hk. by rewrite Hl in Hk.
Qed.
End journal.

Definition nx_world : world := mkWorld (nx_saved nx_empty : db) 0.
Definition nx_applied : world := (apply_transition_atomic (Some 0%N) nx_empty nx_first nx_world).2.

Lemma store_transition_atomic_witness :
  transition_outcome nx_empty nx_first nx_empty (w_db nx_world) (w_db nx_applied) (Ok Applied).
Proof.
  apply (store_transition_atomic (Some 0%N)).
  - exact (proj1 nx_holds_saved).
  - by apply fixture_storable.
  - apply fixture_outside.
  - by apply outcome_pair.
Defined.

Lemma store_load_roundtrip_witness :
  load (Some 0%N) nx_key nx_applied = (Ok (Some nx_first), (load (Some 0%N) nx_key nx_applied).2) ∧
  w_db (load (Some 0%N) nx_key nx_applied).2 = w_db nx_applied.
Proof.
  destruct (store_load_roundtrip (Some 0%N) nx_empty nx_first nx_empty nx_world nx_applied
    (Some nx_first) (load (Some 0%N) nx_key nx_applied).2) as [_ H].
  - exact (proj1 nx_holds_saved).
  - by apply fixture_storable.
  - apply fixture_outside.
  - by apply outcome_pair.
  - by apply outcome_pair.
  - split; [by apply outcome_pair|exact H].
Defined.

(** ** The client *)

Section client.
Context `{!SurrealTypes, !Engine, !EngineLaws, !Host, !JsonFloatText, !JsonText, !JsonTextLaws, !StateSerde, !StateSerdeLaws, !Ciborium, !Sha256, !BridgeSerde}.
Variable key : SyncStateKey.
Variable sg : N.

(** C4: The installed state and the journal agree.  Whatever operations a client runs,
    opening, enqueueing, recording responses, resolving conflicts, subscribing, reading and
    bootstrapping, and whatever fails in between, if the client still has an installed
    state then the journal on disk holds exactly that state: nothing the client shows can
    be lost by a restart, and nothing stored is hidden from it. *)
Theorem native_client_agrees ops c c' :
  runs key sg ops c c' → agrees key c → agrees key c'.
Proof. apply runs_agree. Qed.

(** C11: What a transition reports is what it did.  On success the prepared state is both
    installed and stored; on any error either nothing has changed, in memory or on disk, or
    the client has dropped its state and must recover from the journal. *)
Theorem native_transition_reported prepare s c r c' :
  holds (w_db (c_world c)) key (Some s) → rt_runtime (c_state c) = Some s →
  (∀ p, prepare s = Ok p → writable s (prepared_state p)) →
  locked (transition sg prepare) c = (r, c') →
  transition_report key s (w_db (c_world c)) prepare r c'.
Proof. apply transition_reported. Qed.

(** C13: A client whose storage outcome is unknown touches nothing.  Take any trace in the
    committed database that only a commit reporting an error can leave ([CommitTrace]), and
    a client that is poisoned if the trace is there.  After any run of operations that does
    not have to migrate a journal of the first format on opening, if the trace is in the
    database then the client is poisoned, and every later operation leaves the installed
    state and the database as they are and the client poisoned. *)
Theorem native_unknown_outcome_refused (uncertain : db → Prop) `{!CommitTrace uncertain} ops c :
  known uncertain c → migrates_nothing sg ops c →
  let c' := foldl (λ c op, step sg op c) c ops in
  uncertain (w_db (c_world c')) →
  c_poisoned c' = true ∧
  ∀ later, refused c' (foldl (λ c op, step sg op c) c' later).
Proof.
  intros Hk Hm c' Hu. assert (c_poisoned c' = true) as Hp by by apply (run_known uncertain).
  split; [done|]. intros later. by apply run_refused.
Qed.
End client.

Definition nx_opened : cell := step 0 (OpOpen nx_options CreateIfMissing) nx_fresh.

Lemma nx_opened_runtime : rt_runtime (c_state nx_opened) = Some nx_empty.
Proof. vm_compute. reflexivity. Qed.

Lemma nx_open_writable : op_writable nx_key (OpOpen nx_options CreateIfMissing) nx_fresh.
Proof. split; [by intros s p|]. split; [done|]. by apply fixture_storable. Qed.

Lemma nx_prepared_writable s p next :
  is_u64 (st_revision s) → is_u64 (st_subscription_revision s) →
  st_subscription_revision next = st_subscription_revision s →
  prepare s next = Ok p → writable s (prepared_state p).
Proof.
  intros Hr Hs Hn [-> _|_ Hle _]%prepare_Ok; apply fixture_writable; simpl; try done; by rewrite Hn.
Qed.

Lemma nx_enqueue_writable json c :
  rt_runtime (c_state c) = Some nx_empty → op_writable nx_key (OpEnqueue json) c.
Proof.
  intros Hc. split; [|done]. intros s p. rewrite Hc. intros [= <-] Hp.
  inversion Hp as [? commit f ? ? _ He| | | | | | | | | | |]; subst.
  apply result_bind_Ok in He as (u & _ & He). case_match; [done|].
  eapply (nx_prepared_writable nx_empty); [..|exact He]; reflexivity || done.
Qed.

Definition nx_enqueued : cell := step 0 (OpEnqueue "0") nx_opened.

Lemma native_client_agrees_witness :
  rt_runtime (c_state nx_enqueued) = Some nx_first ∧ agrees nx_key nx_enqueued.
Proof.
  split; [vm_compute; reflexivity|].
  apply (native_client_agrees nx_key 0 [OpOpen nx_options CreateIfMissing; OpEnqueue "0"] nx_fresh).
  - apply runs_cons; [apply nx_open_writable|].
    apply runs_cons; [apply nx_enqueue_writable, nx_opened_runtime|]. apply runs_nil.
  - exists None. split; [apply nx_holds_empty|done].
Defined.

(** The transition that enqueues the first commit, over the saved empty journal. *)
Definition nx_prepare (s : StoredSyncState) : result (PreparedTransition JsonValue) ClientError :=
  prepare_enqueue s nx_commit1.
Definition nx_ready : cell := nx_cell nx_empty (nx_saved nx_empty).

Lemma native_transition_reported_witness :
  is_ok (locked (transition 0 nx_prepare) nx_ready).1 = true ∧
  transition_report nx_key nx_empty (w_db (c_world nx_ready)) nx_prepare
    (locked (transition 0 nx_prepare) nx_ready).1 (locked (transition 0 nx_prepare) nx_ready).2.
Proof.
  split; [vm_compute; reflexivity|].
  apply (native_transition_reported nx_key 0).
  - apply nx_holds_saved.
  - reflexivity.
  - intros p (u & _ & Hp)%result_bind_Ok.
    eapply (nx_prepared_writable nx_empty); [..|exact Hp]; reflexivity || done.
  - apply surjective_pairing.
Defined.

(** The engine of [Memory] when every commit is applied and then reports an error; the
    number of those commits is the trace. *)
Module Uncertain.
Definition with_count {A} (n : N) (r : result (A * memory) unit) : result (A * (memory * N)) unit :=
  match r with Ok (a, d) => Ok (a, (d, n)) | Err e => Err e end.

Definition engine : Engine := {|
  db := memory * N;
  db_select d := @db_select _ memory_engine d.1;
  db_select_where d := @db_select_where _ memory_engine d.1;
  db_upsert d r x := with_count d.2 (@db_upsert _ memory_engine d.1 r x);
  db_create d r x := with_count d.2 (@db_create _ memory_engine d.1 r x);
  db_delete d r := with_count d.2 (@db_delete _ memory_engine d.1 r);
  db_set_fence d r f :=
    match @db_set_fence _ memory_engine d.1 r f with Ok d' => Ok (d', d.2) | Err e => Err e end;
  db_info d := @db_info _ memory_engine d.1;
  db_define d ts :=
    match @db_define _ memory_engine d.1 ts with Ok d' => Ok (d', d.2) | Err e => Err e end;
  sql_json_len := @sql_json_len _ memory_engine;
  sql_json_array_len := @sql_json_array_len _ memory_engine;
  db_begin d := Ok d;
  db_commit d t := (Err tt, (t.1, (d.2 + 1)%N));
  db_cancel d _ := (Ok tt, d);
|}.

Lemma laws : @EngineLaws _ engine.
Proof.
  refine (@Build_EngineLaws _ engine plain_rid_eq_dec (λ d, mem_contents d.1) _ _ _ _ _ _ _ _ _ _ _ _ _);
    simpl.
  - intros d r x. apply (db_select_Ok (EngineLaws:=memory_laws)).
  - intros d t p n l. apply (db_select_where_Ok (EngineLaws:=memory_laws)).
  - intros d r x o d' [= <- <-]. apply (db_upsert_Ok (EngineLaws:=memory_laws) d.1 r x). done.
  - intros d r x o d' Hc. apply (db_create_Ok (EngineLaws:=memory_laws) d.1 r x). simpl.
    destruct (mem_contents d.1 r); [done|]. by injection Hc as <- <-.
  - intros d r o d' [= <- <-]. by apply (db_delete_Ok (EngineLaws:=memory_laws) d.1 r).
  - intros d r f d' [= <-]. by apply (db_set_fence_Ok (EngineLaws:=memory_laws) d.1 r f).
  - by intros d ts d' [= <-] r.
  - intros d o r x. apply (db_info_Ok (EngineLaws:=memory_laws) d.1).
  - intros s. apply (sql_json_len_bound (EngineLaws:=memory_laws)).
  - by intros d t [= <-].
  - by intros d t u d'.
  - intros d t e d' [= _ <-]. by right.
  - by intros d t o d' [= _ <-].
Defined.

Definition trace (d : @db _ engine) : Prop := (0 < d.2)%N.
Lemma trace_law : @CommitTrace _ engine trace.
Proof.
  constructor; simpl.
  - by intros d t u d'.
  - by intros d t o d' [= _ <-].
  - by intros d ts d' [= <-].
Qed.

#[local] Existing Instances engine laws trace_law.

(** A client of this engine that has installed the empty journal. *)
Definition ready : cell :=
  mkCell (set_runtime (Some nx_empty) false (fresh_cell "read" "sub")) false Clean
    (mkWorld ((nx_saved nx_empty, 0%N) : db) 0).

Lemma native_unknown_outcome_refused_witness :
  c_poisoned ready = false ∧
  let unsure := foldl (λ c op, step 0 op c) ready [OpEnqueue "0"] in
  c_poisoned unsure = true ∧
  refused unsure (foldl (λ c op, step 0 op c) unsure [OpEnqueue "0"; OpOpen nx_options ExistingOnly]).
Proof.
  split; [reflexivity|]. cbv zeta.
  pose proof (native_unknown_outcome_refused 0 trace [OpEnqueue "0"] ready) as H. cbv zeta in H.
  destruct H as [Hp Hl].
  - intros Hu. vm_compute in Hu. discriminate Hu.
  - split; exact I.
  - vm_compute. reflexivity.
  - split; [exact Hp|].
    exact (Hl [OpEnqueue "0"; OpOpen nx_options ExistingOnly]).
Defined.
End Uncertain.

(** ** Corner cases

    Behaviour that callers may not expect, evaluated on the model: a user object that reads
    like a tagged wire value, a record id inside a bookkeeping table, and a message that is
    not a JSON object. *)

Section corner_cases.
Context `{!SurrealTypes}.

(** [to_wire_value] does not escape a user key [$surreal]: this object and the value NONE
    have the same encoding. *)
Example wire_tag_not_escaped :
  to_wire_value (SvObject [(TAG, SvString "none")]) = to_wire_value SvNone.
Proof. reflexivity. Qed.

(** [native_record_id] refuses six bookkeeping tables, but not the table of the
    subscription records: a replicated record may name a row of it. *)
Lemma subscription_table_not_reserved id k :
  parse_simple id = Some (SUBSCRIPTION_RECORD_TABLE, k) →
  (str_len id <= MAX_RECORD_ID_BYTES)%N →
  native_record_id id = Ok (mkRid SUBSCRIPTION_RECORD_TABLE k).
Proof.
  intros Hp Hl. unfold native_record_id. rewrite (proj2 (N.ltb_ge _ _) Hl), Hp.
  by rewrite decide_False by (vm_compute; set_solver).
Qed.
End corner_cases.

(** Assigning through an index of a JSON array panics, so a subscription request that is an
    array is not answered with an error. *)
Example array_request_panics : request_wire true (JArray []) = Err Panic.
Proof. reflexivity. Qed.
