(* ===== verification/WireProps.v ===== *)
(** * The JSON of values.

    The streaming serializer writes what the tree serializer writes, and the values that
    leave the sync codec as tagged JSON read back as they were. *)

From S2P Require Import Prelude Protocol Subscription ClientState Client Canonical CanonicalProps NativeErrors Json Wire Memory.

#[local] Arguments f64_is_finite : simpl never.
#[local] Arguments f64_special_to_string : simpl never.

Section wire.
Context `{!SurrealTypes}.

Lemma concat_map_ext {A B} (f g : A → list B) l :
  Forall (λ x, f x = g x) l → concat (map f l) = concat (map g l).
Proof. induction 1 as [|x l Hx _ IH]; simpl; [done|]. by rewrite Hx, IH. Qed.

Lemma wire_events_tree (value : SValue) :
  wire_events value = json_events (to_wire_value value).
Proof.
  revert value. apply (SurrealValue_ind _ (λ _, True)); try (intros; exact I).
  - intros v. destruct v; lazymatch goal with |- True => exact I | _ => idtac end;
      cbn [wire_events to_wire_value];
      try lazymatch goal with |- context [f64_is_finite ?b] => destruct (f64_is_finite b) end;
      reflexivity.
  - reflexivity.
  - intros l IH. simpl. rewrite map_map. do 2 f_equal.
    apply (concat_map_ext wire_events (λ v, json_events (to_wire_value v))), IH.
  - intros l IH. simpl. rewrite map_map. do 2 f_equal.
    apply (concat_map_ext (λ kv, EvKey kv.1 :: wire_events kv.2)
      (λ kv, EvKey kv.1 :: json_events (to_wire_value kv.2))).
    apply Forall_forall. rewrite Forall_forall in IH. intros kv Hkv. by rewrite (IH _ Hkv).
  - intros l IH. simpl. rewrite map_map, app_nil_r, <-!app_assoc. simpl. do 5 f_equal.
    f_equal. apply (concat_map_ext wire_events (λ v, json_events (to_wire_value v))), IH.
  - intros k. destruct k; exact I.
Qed.

(** The streaming serializer makes, for every value, exactly the calls that serializing
    the tree of [to_wire_value] makes, in the same order: [encode_value] without the
    intermediate tree writes the same text or fails alike, whatever the writer. *)
Theorem wire_streaming_is_tree (render : list json_event → result string unit) (value : SValue) :
  encode_value render value = encode_value_tree render value.
Proof.
  unfold encode_value, encode_value_tree. by rewrite wire_events_tree.
Qed.

(** ** Values of the sync codec *)

(** [base64] decodes what it encodes. *)
Class Base64Laws : Prop := base64_roundtrip b : base64_decode (base64_encode b) = Some b.
Context `{!Base64Laws}.
Set Default Proof Using "Type*".

Lemma json_get_fresh {A} (l : list (string * A)) (g : list (string * JsonValue)) :
  existsb (λ kv, bool_decide (kv.1 = TAG)) l = false → g.*1 = l.*1 → json_get TAG g = None.
Proof.
  intros Hl Hk. unfold json_get. destruct (find_first _ g) as [[k v]|] eqn:Hf; [|done].
  apply find_first_Some in Hf as [Hin Hb]. apply bool_decide_eq_true in Hb. simpl in Hb. subst k.
  exfalso. assert (TAG ∈ l.*1) as ([k x] & Hk' & Hx)%list_elem_of_fmap.
  { rewrite <-Hk. apply list_elem_of_fmap. by exists (TAG, v). }
  simpl in Hk'. subst k.
  assert (existsb (λ kv, bool_decide (kv.1 = TAG)) l = true) as Ht; [|by rewrite Hl in Ht].
  apply existsb_exists. exists (TAG, x). split; [by apply list_elem_of_In|by apply bool_decide_eq_true].
Qed.

(** A value and the two representations it passes through. *)
Definition reads_back (v : CanonicalValue) : Prop := ∀ j fuel,
  value_wf v → value_depth v < fuel → canonical_to_json v = Ok j →
  ∃ sv, from_wire_value_at_depth fuel j = Ok sv ∧ from_surreal sv = Ok v.

Lemma array_reads_back l js fuel :
  Forall reads_back l → Forall value_wf l → Forall (λ v, value_depth v < fuel) l →
  Forall2 (λ v j, canonical_to_json v = Ok j) l js →
  ∃ svs, try_map (from_wire_value_at_depth fuel) js = Ok svs ∧ try_map from_surreal svs = Ok l.
Proof.
  intros Hr Hw Hd Hj. induction Hj as [|v j l js Hvj _ IH]; [by exists []|].
  apply Forall_cons in Hr as [Hr Hrs], Hw as [Hw Hws], Hd as [Hd Hds].
  destruct (Hr _ _ Hw Hd Hvj) as (sv & H1 & H2). destruct (IH Hrs Hws Hds) as (svs & H3 & H4).
  exists (sv :: svs). simpl. by rewrite H1, H3, H2, H4.
Qed.

Lemma object_reads_back (l : list (string * CanonicalValue)) js fuel :
  Forall (λ kv, reads_back kv.2) l → Forall (λ kv, value_wf kv.2) l →
  Forall (λ kv, value_depth kv.2 < fuel) l →
  Forall2 (λ kv j, (let? v := canonical_to_json kv.2 in Ok (kv.1, v)) = Ok j) l js →
  js.*1 = l.*1 ∧
  ∃ svs, try_map (λ kv, let? v := from_wire_value_at_depth fuel kv.2 in Ok (kv.1, v)) js = Ok svs ∧
    try_map (λ kv, let? v := from_surreal kv.2 in Ok (kv.1, v)) svs = Ok l.
Proof.
  intros Hr Hw Hd Hj. induction Hj as [|[k v] j l js Hvj _ IH]; [split; [done|by exists []]|].
  apply Forall_cons in Hr as [Hr Hrs], Hw as [Hw Hws], Hd as [Hd Hds]. simpl in *.
  apply result_bind_Ok in Hvj as (j' & Hvj & [= <-]).
  destruct (Hr _ _ Hw Hd Hvj) as (sv & H1 & H2).
  destruct (IH Hrs Hws Hds) as (Hk & svs & H3 & H4).
  csimpl. rewrite Hk. split; [done|]. exists ((k, sv) :: svs). simpl. by rewrite H1, H3; simpl; rewrite H2, H4.
Qed.

(** Below the depth limit every element is one level deeper. *)
Lemma elements_depth {A} (d : A → nat) l fuel :
  foldr (λ x n, S (d x) `max` n) 0 l < S fuel → Forall (λ x, d x < fuel) l.
Proof. induction l as [|x l IH]; simpl; intros Hl; constructor; [lia|]. apply IH. lia. Qed.

Lemma canonical_reads_back v : reads_back v.
Proof.
  induction v as [| | |z|f|s|b|l IH|l IH|t k _] using CanonicalValue_ind;
    intros j fuel Hw Hd Hj; (destruct fuel as [|fuel]; [destruct (Nat.nlt_0_r _ Hd)|]);
    cbn [canonical_to_json] in Hj.
  - injection Hj as <-. by exists SvNone.
  - injection Hj as <-. by exists SvNull.
  - injection Hj as <-. by exists (SvBool b).
  - injection Hj as <-. exists (SvInt z). split; [|done]. simpl. rewrite parse_i64_numeral; [done|].
    simpl in Hw. unfold Canonical.is_i64 in Hw. unfold is_i64, i64_min, i64_max. lia.
  - destruct (f64_is_finite _); [|done]. injection Hj as <-. exists (SvFloat (float_bits f)).
    split; [reflexivity|]. destruct Hw as [Hf _]. cbn [from_surreal]. by rewrite Hf.
  - injection Hj as <-. by exists (SvString s).
  - injection Hj as <-. exists (SvBytes b). split; [|done]. simpl. by rewrite base64_roundtrip.
  - apply result_bind_Ok in Hj as (js & Hj%try_map_Ok & [= <-]).
    apply foldr_and_Forall in Hw. apply elements_depth in Hd.
    destruct (array_reads_back l js fuel IH Hw Hd Hj) as (svs & H1 & H2).
    exists (SvArray svs). simpl. by rewrite H1, H2.
  - destruct (existsb _ l) eqn:Htag; [done|]. apply result_bind_Ok in Hj as (js & Hj%try_map_Ok & [= <-]).
    destruct Hw as [_ Hw%foldr_and_Forall]. apply elements_depth in Hd.
    destruct (object_reads_back l js fuel IH Hw Hd Hj) as (Hk & svs & H1 & H2).
    exists (SvObject svs). simpl. by rewrite (json_get_fresh l js Htag Hk), H1, H2.
  - apply result_bind_Ok in Hj as (key & _ & Hj). apply result_bind_Ok in Hj as (back & Hb & Hj).
    case_decide as Heq; [|done]. injection Hj as <-. subst back. apply map_err_Ok in Hb.
    unfold canonical_json in Hb. apply result_bind_Ok in Hb as (sv & Hsv%map_err_Ok & Hs%map_err_Ok).
    by exists sv.
Qed.

(** A value that the HTTP codec hands to the application as tagged JSON is read back as
    the same value.  Whatever [canonical_to_json] produces for a valid value, record ids,
    bytes, integers and floats included, [canonical_json] decodes to that value, so that a
    record received from the server keeps its canonical form and its fingerprint when the
    application sends it back unchanged. *)
Theorem http_value_roundtrip v j :
  value_wf v → validate_value v = Ok tt → canonical_to_json v = Ok j → canonical_json j = Ok v.
Proof.
  intros Hw (_ & Hd & _)%validate_value_spec Hj.
  destruct (canonical_reads_back v j (S MAX_WIRE_DEPTH) Hw) as (sv & H1 & H2); [|done|].
  { unfold MAX_WIRE_DEPTH, MAX_DEPTH in *. lia. }
  unfold canonical_json, from_wire_value. rewrite H1. simpl. by rewrite H2.
Qed.
End wire.

#[export] Instance plain_base64 : Base64Laws.
Proof. intros b. simpl. by rewrite String.list_byte_of_string_of_list_byte. Qed.

Definition wx_value : CanonicalValue :=
  VObject [("at", VRecordId "item" (VString "7")); ("n", VInt (-3)); ("raw", VBytes [Byte.x00; Byte.xff])].

Lemma http_value_roundtrip_witness :
  match canonical_to_json wx_value with Ok j => canonical_json j = Ok wx_value | Err _ => False end.
Proof.
  destruct (canonical_to_json wx_value) as [j|] eqn:Hj; [|vm_compute in Hj; discriminate].
  apply http_value_roundtrip; [|vm_compute; reflexivity|exact Hj].
  split; [|repeat split; done]. repeat constructor.
Defined.
