(* ===== verification/StageProps.v ===== *)
(** * The staged bootstrap: what a completion installs.

    A completion reads the stored pages back, verifies them against the manifest and
    installs their records in the transaction that consumes the stage and stores the new
    state. *)

From Stdlib Require Import Strings.Byte.
From S2P Require Import Prelude Protocol Subscription ClientState Validate Client PullProps Canonical HttpCodec BootstrapCodec VerifierProps NativeErrors Json Wire NativeCodec Engine StateRows StateLoad Stage StateStore StageStore StateProps StoreProps ClientCoherence ClientOpen ClientInvariant.

Set Default Proof Using "Type*".

Section stage.
Context `{!SurrealTypes, !Engine, !EngineLaws, !Host, !JsonFloatText, !JsonText, !StateSerde, !Ciborium, !Sha256}.

(** ** Verification *)

Lemma corrupt_Ok {A} (r : result A CodecError) a : corrupt r = Ok a ↔ r = Ok a.
Proof. apply map_err_Ok. Qed.

Lemma complete_pages_Ok clock expires raws v records k v' records' k' :
  try_fold (complete_page clock expires) (v, records, k) raws = Ok (v', records', k') →
  ∃ pages new, Forall2 (λ raw p, decode_bootstrap_page raw = Ok p) raws pages ∧
    try_fold verifier_push v pages = Ok v' ∧ records' = records ++ new ∧
    Forall2 (λ r j, complete_record r = Ok j) (concat (bp_records <$> pages)) new.
Proof.
  revert v records k. induction raws as [|raw raws IH]; intros v records k; simpl.
  { intros [= <- <- <-]. exists [], []. split; [constructor|]. split; [done|].
    split; [by rewrite app_nil_r|constructor]. }
  intros ([[v1 records1] k1] & Hp & Hr)%result_bind_Ok.
  apply result_bind_Ok in Hp as (u & _ & Hp). apply result_bind_Ok in Hp as (page & Hpage & Hp).
  apply result_bind_Ok in Hp as (v2 & Hv & Hp). apply result_bind_Ok in Hp as (n & _ & Hp).
  apply result_bind_Ok in Hp as (converted & Hc & Hp). injection Hp as -> <- <-.
  apply corrupt_Ok in Hpage, Hv. apply try_map_Ok in Hc.
  destruct (IH _ _ _ Hr) as (pages & new & Hps & Hvs & -> & Hnew).
  exists (page :: pages), (converted ++ new). split; [by constructor|]. split; [by simpl; rewrite Hv|].
  split; [by rewrite app_assoc|]. rewrite fmap_cons. cbn [concat]. by apply Forall2_app.
Qed.

Lemma verify_pages_Ok clock stage records k :
  verify_pages clock stage = Ok (records, k) →
  ∃ pages s, Forall2 (λ raw p, decode_bootstrap_page raw = Ok p) (page_entries (sg_pages stage)).*2 pages ∧
    verify (sg_manifest stage) pages = Ok s ∧
    Forall2 (λ r j, complete_record r = Ok j) (concat (bp_records <$> pages)) records.
Proof.
  unfold verify_pages. intros (v & Hv%corrupt_Ok & Hr)%result_bind_Ok.
  apply result_bind_Ok in Hr as ([[v' records'] k'] & Hp & Hr).
  apply result_bind_Ok in Hr as (s & Hs%corrupt_Ok & Hr).
  apply result_bind_Ok in Hr as (u & _ & [= <- <-]).
  destruct (complete_pages_Ok _ _ _ _ _ _ _ _ _ Hp) as (pages & new & Hps & Hvs & -> & Hnew).
  exists pages, s. split; [done|]. split; [|done]. unfold verify. rewrite Hv. simpl. by rewrite Hvs.
Qed.

Lemma complete_record_Ok r j :
  complete_record r = Ok j → snap_record_id j = snap_record_id r ∧ snap_state j ≠ Absent.
Proof.
  unfold complete_record. destruct (snap_state r); [done| |]; [intros (x & _ & [= <-])%result_bind_Ok|intros [= <-]];
    done.
Qed.

(** ** Publication *)

Lemma write_fence_frame key fence d u d' r :
  write_fence key fence d = Ok (u, d') → r ≠ meta_record_id key → contents d' r = contents d r.
Proof.
  unfold write_fence. intros (d1 & Hf & [= _ <-])%result_bind_Ok Hr. apply map_err_Ok in Hf.
  apply db_set_fence_Ok in Hf as [_ Hframe]. by apply Hframe.
Qed.

Lemma write_inactive_frame key fence d u d' r :
  write_inactive_fence key fence d = Ok (u, d') → r ≠ meta_record_id key →
  contents d' r = contents d r.
Proof.
  unfold write_inactive_fence. intros Hw. tx_next Hw as next with Hn. tx_next Hw as [counter b] with Hp.
  by eapply write_fence_frame.
Qed.

Lemma delete_pages_gone key stage d u d' index :
  delete_pages key stage d = Ok (u, d') → is_Some (sg_pages stage !! index) →
  contents d' (page_id key index) = None.
Proof.
  intros Hd [raw Hraw].
  assert ((index, raw) ∈ page_entries (sg_pages stage)) as Hin.
  { unfold page_entries. rewrite merge_sort_Permutation. by apply elem_of_map_to_list. }
  eapply (tx_for_each_writes (λ entry, Some (page_id key entry.1, None))) with (r := page_id key index) in Hd.
  - destruct Hd as [(entry & v & _ & [= _ <-] & ?)|[Hnone _]]; [done|]. by destruct (Hnone _ None Hin).
  - intros entry d0 u0 d1 _ (o & d2 & Ht & [= _ ->]%tx_ret_Ok)%tx_bind_Ok. by eapply tx_delete_writes.
Qed.

(** The rows a completion leaves: the consumed header, and none of the pages. *)
Definition stage_consumed (key : SyncStateKey) (stage : Stage) (receipt_bytes : list byte)
    (revision : N) (d : db) : Prop :=
  contents d (header_id key) =
    Some (RowHeader (consumed_header (sg_header stage) receipt_bytes revision)) ∧
  ∀ index, is_Some (sg_pages stage !! index) → contents d (page_id key index) = None.

Lemma publish_consumed key stage receipt_bytes current next d u d' :
  publish_completion key stage receipt_bytes current next d = Ok (u, d') →
  stage_consumed key stage receipt_bytes (st_revision next) d'.
Proof.
  unfold publish_completion. intros (u1 & d1 & _ & Hp)%tx_bind_Ok.
  apply tx_bind_Ok in Hp as (w & d2 & _ & Hp). apply tx_bind_Ok in Hp as (u2 & d3 & Hdel & Hp).
  apply tx_bind_Ok in Hp as (marker & d4 & [Hhead Hframe]%tx_upsert_writes & Hp).
  tx_next Hp as m with Hm. case_decide; [done|]. tx_next Hp as fence with Hf.
  assert (∀ r, r_table r ≠ META_TABLE → contents d' r = contents d4 r) as Hw.
  { intros r Hr. eapply write_inactive_frame; [done|]. by intros ->. }
  split; [by rewrite Hw|]. intros index Hi. rewrite Hw, Hframe by done.
  by eapply delete_pages_gone.
Qed.

(** ** Completion *)

(** A completion that installed [next]: the stage was open and its own, its pages decode,
    pass the verifier and are exactly the confirmed records of [next]; the local intent is
    kept, the checkpoint is the receipt's, and the stage is consumed. *)
Record completed (key : SyncStateKey) (stage : Stage) (current next : StoredSyncState)
    (receipt_bytes : list byte) (receipt : BootstrapReceipt) (d' : db) : Prop := {
  cm_open : hd_cancelled (sg_header stage) = false;
  cm_verified : ∃ pages s,
    Forall2 (λ raw p, decode_bootstrap_page raw = Ok p) (page_entries (sg_pages stage)).*2 pages ∧
    verify (sg_manifest stage) pages = Ok s ∧
    ∀ id st, st_confirmed next !! id = Some st ↔
      ∃ r, r ∈ concat (bp_records <$> pages) ∧ complete_record r = Ok (mkSnapshotRecord id st);
  cm_intent : st_outbox next = st_outbox current ∧ st_id_map next = st_id_map current ∧
    st_subscriptions next = st_subscriptions current;
  cm_checkpoint : st_checkpoint next = Some (br_checkpoint receipt);
  cm_consumed : stage_consumed key stage receipt_bytes (st_revision next) d';
}.

(** What a completion over the database [d] returned, and what it left. *)
Definition completion_outcome (receipt_bytes : list byte) (receipt : BootstrapReceipt)
    (expected : BootstrapContext) (incarnation : N) (d d' : db) (r : Completion) : Prop :=
  let key := context_key expected in
  ∃ budget stage current, inspect_stage key d = Ok (budget, Some stage) ∧
    inspected_current key d = Ok current ∧
    parse_fence (hd_incarnation (sg_header stage)) = Ok incarnation ∧
    validate_bootstrap_receipt (sg_manifest stage) receipt = Ok tt ∧
    match r with
    | CompletionApplied next =>
        hd_consumed_receipt (sg_header stage) = None ∧
        completed key stage current next receipt_bytes receipt d'
    | HistoricalSuccess =>
        hd_consumed_receipt (sg_header stage) = Some receipt_bytes ∧ d' = d
    end.

Lemma snapshot_completed key stage clock current receipt_bytes receipt records k p d d' u :
  hd_cancelled (sg_header stage) = false → verify_pages clock stage = Ok (records, k) →
  prepare_bootstrap_snapshot current (br_checkpoint receipt) records = Ok p →
  publish_completion key stage receipt_bytes current (prepared_state p) d = Ok (u, d') →
  completed key stage current (prepared_state p) receipt_bytes receipt d'.
Proof.
  intros Hopen Hv Hp Hpub. destruct (verify_pages_Ok _ _ _ _ Hv) as (pages & s & Hps & Hver & Hrec).
  unfold prepare_bootstrap_snapshot in Hp. apply guard_bool_Ok in Hp as [_ Hp].
  apply result_bind_Ok in Hp as ([] & _ & Hp).
  apply snapshot_contents in Hp as [_ Hconf Hout Hmap Hsub _ Hcp _ _].
  split; [done| |done|done|by eapply publish_consumed].
  exists pages, s. split; [done|]. split; [done|]. intros id st. rewrite Hconf. split.
  - intros [[i Hi]%list_elem_of_lookup _].
    destruct (Forall2_lookup_r _ _ _ _ _ Hrec Hi) as (r & Hr & Hj). exists r.
    split; [by eapply list_elem_of_lookup_2|done].
  - intros (r & Hin & Hr). destruct (complete_record_Ok _ _ Hr) as [_ Hne]. split; [|done].
    apply list_elem_of_lookup in Hin as [i Hi].
    destruct (Forall2_lookup_l _ _ _ _ _ Hrec Hi) as (j & Hj & Hrj).
    apply list_elem_of_lookup. exists i. congruence.
Qed.

Lemma complete_outcome receipt_bytes receipt expected incarnation clock d r d' :
  complete_in_transaction receipt_bytes receipt expected incarnation clock d = Ok (r, d') →
  completion_outcome receipt_bytes receipt expected incarnation d d' r.
Proof.
  unfold complete_in_transaction, completion_outcome. set (key := context_key expected). intros Hc.
  tx_next Hc as [budget stage] with Hi. tx_next Hc as st with Hst. apply ok_or_Ok in Hst as ->.
  tx_next Hc as u with Hb. tx_next Hc as u1 with Hb1. apply corrupt_Ok in Hb1. destruct u1.
  assert (parse_fence (hd_incarnation (sg_header st)) = Ok incarnation) as Hinc.
  { unfold stage_bound in Hb. apply result_bind_Ok in Hb as (u2 & _ & Hb).
    apply result_bind_Ok in Hb as (n & -> & Hb). case_decide as Hne; [done|]. by rewrite Hne. }
  destruct (hd_consumed_receipt (sg_header st)) as [consumed|] eqn:Hcons.
  { apply tx_read_Ok in Hc as (x & Hc & [= -> ->]). unfold historical_success in Hc.
    case_decide as Hne; [done|]. subst consumed.
    apply result_bind_Ok in Hc as (current & Hcur & Hc). exists budget, st, current.
    inv_ok. by rewrite Hcons. }
  destruct (hd_cancelled (sg_header st)) eqn:Hcan; [done|].
  tx_next Hc as u2 with Hb2. tx_next Hc as u3 with Hb3. tx_next Hc as current with Hcur.
  tx_next Hc as u4 with Hb4. tx_next Hc as u5 with Hb5. tx_next Hc as [records k] with Hv.
  tx_next Hc as runtime with Ho. apply map_err_Ok, open_Ok in Ho as ->.
  tx_next Hc as p with Hp. apply map_err_Ok in Hp. tx_next Hc as u6 with Hb6. tx_next Hc as u7 with Hb7.
  apply tx_bind_Ok in Hc as (? & d1 & Hpub & Hc). tx_next Hc as u8 with Hb8.
  apply tx_ret_Ok in Hc as [= -> ->]. exists budget, st, current.
  repeat (split; [done|]). by eapply snapshot_completed.
Qed.

End stage.

(** ** What a completion stores *)

Section stored.
Context `{!SurrealTypes, !Engine, !EngineLaws, !Host, !JsonFloatText, !JsonText, !JsonTextLaws, !StateSerde, !StateSerdeLaws, !Ciborium, !Sha256}.

(** The tables of the stage itself. *)
Definition stage_table (r : rid) : Prop := r_table r = HEADER ∨ r_table r = PAGE.

(** From a journal that holds [current] to one that holds [next]: the journal rows are
    those of [next]; every application record whose optimistic state changed has the row of
    its new state, and none when it was deleted or left the projection; so rows that held
    the projection of [current] hold that of [next]; nothing else has changed but the
    stage's own rows. *)
Record next_stored (key : SyncStateKey) (current next : StoredSyncState) (d d' : db) : Prop := {
  nst_journal : holds d' key (Some next);
  nst_replaced :
    distinct_records (optimistic_projection current) (optimistic_projection next) →
    ∀ id nid, in_either (optimistic_projection current) (optimistic_projection next) id →
      native_record_id id = Ok nid → ¬ stage_table nid →
      contents d' nid =
        if decide (optimistic_projection current !! id = optimistic_projection next !! id)
        then contents d nid else projected_row (optimistic_projection next !! id);
  nst_projection :
    distinct_records (optimistic_projection current) (optimistic_projection next) →
    projection_stored d (optimistic_projection current) →
    ∀ id nid, in_either (optimistic_projection current) (optimistic_projection next) id →
      native_record_id id = Ok nid → ¬ stage_table nid →
      contents d' nid = projected_row (optimistic_projection next !! id);
  nst_frame : ∀ r, ¬ journal_row key r → ¬ stage_table r →
    (∀ id, in_either (optimistic_projection current) (optimistic_projection next) id →
       native_record_id id ≠ Ok r) → contents d' r = contents d r;
}.

#[export] Instance next_stored_proper :
  Proper (eq ==> eq ==> eq ==> same ==> same ==> iff) next_stored.
Proof.
  assert (∀ key s t d1 d2 e1 e2, same d1 d2 → same e1 e2 → next_stored key s t d1 e1 →
    next_stored key s t d2 e2) as Himp.
  { intros key s t d1 d2 e1 e2 Hd He [Hj Hr Hp Hf]. split.
    - by rewrite <-He.
    - intros. rewrite <-(He _), <-(Hd _). by apply Hr.
    - intros Hdist Hst. setoid_rewrite <-(He _). apply Hp; [done|]. by rewrite Hd.
    - intros r ???. rewrite <-(He r), <-(Hd r). by apply Hf. }
  intros ? key -> ? s -> ? t -> d1 d2 Hd e1 e2 He. split; apply Himp; done || by symmetry.
Qed.

(** The transition inside the publication, as a change of rows. *)
Lemma transition_next_stored key current next d disp d' :
  holds d key (Some current) → state_key next = state_key current → storable_state next →
  outside_journal (optimistic_projection current) (optimistic_projection next) →
  apply_transition_in_transaction current next d = Ok (disp, d') →
  next_stored key current next d d'.
Proof.
  intros [[Hk Hst] Hrec] Hkn Hsto Hout Ht.
  apply (transition_in_transaction _ _ (Some current)) in Ht as [_ Hw]; [|by rewrite <-Hk|done..].
  destruct disp.
  - destruct Hw as [Hts _]. pose proof (transition_holds key _ _ _ _ Hk Hrec Hts) as Hh.
    destruct Hts as [_ _ Hr Hp Hf]. split; [done|intros Hd id nid ?? _; by apply Hr|intros ?? id nid ?? _; by apply Hp|].
    intros r Hj _ Hids. apply Hf; [|done]. by rewrite Hkn, <-Hk.
  - destruct Hw as [-> <-]. split; [done| | |done].
    + intros. by rewrite decide_True.
    + intros _ Hold id nid Hin Hnid _. destruct Hin as [[o Ho]|[o Ho]]; rewrite Ho; by eapply Hold.
Qed.

(** The rest of the publication: pages, header and fence. *)
Lemma publish_tail_frame key stage bytes (next : StoredSyncState) d u d' r :
  (let@ _ := delete_pages key stage in
   let header := consumed_header (sg_header stage) bytes (st_revision next) in
   let@ marker := tx_upsert (header_id key) (RowHeader header) in
   let@ marker := tx_lift
     (match marker with
      | Some x => ok_or (row_to_header x) DatabaseError
      | None => Err CorruptState
      end) in
   if decide (hd_consumed_receipt marker ≠ Some bytes
              ∨ hd_consumed_revision marker ≠ Some (u64_to_string (st_revision next))
              ∨ hd_cancelled marker = false)
   then tx_err CorruptState else
   let@ fence := tx_read (read_fence key) in
   write_inactive_fence key fence) d = Ok (u, d') →
  ¬ stage_table r → r ≠ meta_record_id key → contents d' r = contents d r.
Proof.
  intros (u2 & d3 & Hdel & Hp)%tx_bind_Ok Hr Hm.
  apply tx_bind_Ok in Hp as (marker & d4 & [_ Hframe]%tx_upsert_writes & Hp).
  tx_next Hp as m with Hmk. case_decide; [done|]. tx_next Hp as fence with Hf.
  rewrite (write_inactive_frame _ _ _ _ _ _ Hp Hm), Hframe.
  - eapply (tx_for_each_writes (λ entry, Some (page_id key entry.1, None))) with (r := r) in Hdel.
    + destruct Hdel as [(entry & v & _ & [= <- _] & _)|[_ ?]]; [|done].
      destruct Hr. by right.
    + intros entry d0 u0 d1 _ (o & d2 & Ht & [= _ ->]%tx_ret_Ok)%tx_bind_Ok.
      by eapply tx_delete_writes.
  - intros ->. apply Hr. by left.
Qed.

Lemma publish_next_stored key stage bytes current next d u d' :
  holds d key (Some current) → state_key next = state_key current → storable_state next →
  outside_journal (optimistic_projection current) (optimistic_projection next) →
  publish_completion key stage bytes current next d = Ok (u, d') →
  next_stored key current next d d'.
Proof.
  intros Hh Hkn Hsto Hout Hp. unfold publish_completion in Hp.
  apply tx_bind_Ok in Hp as (? & d1 & Hdef & Hp).
  assert (same d1 d) as Hd1.
  { unfold tx_define in Hdef. inv_ok. intros r.
    match goal with H : database _ = Ok _ |- _ => apply map_err_Ok in H; by eapply db_define_Ok in H end. }
  rewrite <-Hd1 in Hh |- *. apply tx_bind_Ok in Hp as (disp & d2 & Ht & Hp).
  destruct (transition_next_stored _ _ _ _ _ _ Hh Hkn Hsto Hout Ht) as [Hj Hr Hps Hf].
  pose proof (λ r, publish_tail_frame _ _ _ _ _ _ _ r Hp) as Htail.
  assert (∀ id nid, in_either (optimistic_projection current) (optimistic_projection next) id →
    native_record_id id = Ok nid → ¬ stage_table nid → contents d' nid = contents d2 nid) as Hnid.
  { intros id nid Hin Hnid Hs. apply Htail; [done|]. intros ->.
    by destruct (native_record_id_table _ _ Hnid (Hout _ _ Hin Hnid)). }
  split.
  - eapply (tx_holds_tail key next); [exact Hp|done].
  - intros Hdist id nid Hin Hn Hs. rewrite (Hnid _ _ Hin Hn Hs). by apply Hr.
  - intros Hdist Hold id nid Hin Hn Hs. rewrite (Hnid _ _ Hin Hn Hs). by apply Hps.
  - intros r Hjr Hs Hids. rewrite Htail; [by apply Hf|done|]. intros ->. apply Hjr. by left.
Qed.

(** What a completion stored, when the journal held [current]: the state it reports. *)
Definition completion_stored (expected : BootstrapContext) (d d' : db) (r : Completion) : Prop :=
  match r with
  | CompletionApplied next => ∀ current,
      holds d (context_key expected) (Some current) → storable_state next →
      outside_journal (optimistic_projection current) (optimistic_projection next) →
      next_stored (context_key expected) current next d d'
  | HistoricalSuccess => same d' d
  end.

Lemma complete_stored receipt_bytes receipt expected incarnation clock d r d' :
  complete_in_transaction receipt_bytes receipt expected incarnation clock d = Ok (r, d') →
  completion_stored expected d d' r.
Proof.
  unfold complete_in_transaction, completion_stored. set (key := context_key expected). intros Hc.
  tx_next Hc as [budget stage] with Hi. tx_next Hc as st with Hst. apply ok_or_Ok in Hst as ->.
  tx_next Hc as u with Hb. tx_next Hc as u1 with Hb1.
  destruct (hd_consumed_receipt (sg_header st)) as [consumed|].
  { apply tx_read_Ok in Hc as (x & Hc & [= -> ->]). unfold historical_success in Hc.
    case_decide; [done|]. by inv_ok. }
  destruct (hd_cancelled (sg_header st)); [done|].
  tx_next Hc as u2 with Hb2. tx_next Hc as u3 with Hb3. tx_next Hc as current with Hcur.
  tx_next Hc as u4 with Hb4. tx_next Hc as u5 with Hb5. tx_next Hc as [records k] with Hv.
  tx_next Hc as runtime with Ho. apply map_err_Ok, open_Ok in Ho as ->.
  tx_next Hc as p with Hp. apply map_err_Ok in Hp. tx_next Hc as u6 with Hb6. tx_next Hc as u7 with Hb7.
  apply tx_bind_Ok in Hc as (? & d1 & Hpub & Hc). tx_next Hc as u8 with Hb8.
  apply tx_ret_Ok in Hc as [= -> ->]. intros s Hh Hsto Hout.
  assert (current = s) as ->.
  { unfold inspected_current, transaction_state_after_preflight in Hcur. destruct Hh as [Hst _].
    destruct (load_stored Direct d key (Some s) (sees_direct _) Hst) as [He|[He _]]; rewrite He in Hcur;
      [by injection Hcur|done]. }
  eapply publish_next_stored; [done|by eapply bootstrap_key|done|done|exact Hpub].
Qed.

(** What a completion reports over the database [d] and what it leaves in [d']; the
    transaction works on a copy of the committed rows. *)
Definition completion_report (receipt_bytes : list byte) (expected : BootstrapContext)
    (incarnation : N) (d d' : db) (r : result Completion SyncStateError) : Prop :=
  let ran c := completion_stored expected d d' c ∧
    ∃ receipt t t', decode_bootstrap_receipt receipt_bytes = Ok receipt ∧
      same t d ∧ same d' t' ∧ completion_outcome receipt_bytes receipt expected incarnation t t' c in
  match r with
  | Ok c => ran c
  | Err e => same d' d ∨ (e = CommitUnknown ∧ ∃ c, ran c)
  end.

End stored.
