(* ===== verification/StageVectors.v ===== *)
(** * A staged bootstrap, run.

    One page is staged and completed over the engine of [Memory] with the reference CBOR
    and SHA-256 of [CborReference]: the operations of [StageStore] do reach the outcomes
    [StageProps] describes. *)

From Stdlib Require Import Strings.Byte.
From S2P Require Import Prelude Protocol Subscription ClientState SubscriptionState Validate Client Steps Fixtures Canonical HttpCodec BootstrapCodec CborReference Vectors NativeErrors Json Wire NativeCodec Engine StateRows StateLoad Stage StateStore StageStore StateProps StoreProps ClientCoherence ClientOpen ClientInvariant Memory NativeFixtures NativeProps StageProps.

(** ** One record in one page *)

Definition sx_start : BootstrapStartRequest := mkStart "home" "phone" "r" "items" 1 "g".
Definition sx_record : SnapshotRecord CanonicalValue :=
  mkSnapshotRecord "item:1" (Present (VObject [("name", VString "milk")]) 1 None).
Definition sx_page_for (hash : list byte) : BootstrapPage := mkPage "z" hash 0 [sx_record].
Definition sx_content : BootstrapContentSummary :=
  hasher_summary (ok_value (mkHasher "" 0 0 0 None [])
    (let? h := hasher_new "z" in hasher_push h (sx_page_for (replicate 32 x00)))).
Definition sx_context : BootstrapContext := mkContext "A" "P" "home" "phone" "g" (mkScope "items" 1 1).

Definition sx_manifest : BootstrapManifest :=
  mkManifest "z" "r" (ok_value [] (bootstrap_start_fingerprint sx_start))
    sx_context (mkCursor 1 2) default_limits
    (sum_page_count sx_content) (sum_record_count sx_content) (sum_content_bytes sx_content)
    (sum_root sx_content) 99.
Definition sx_hash : list byte := ok_value [] (bootstrap_manifest_digest sx_manifest).
Definition sx_checkpoint : Checkpoint := mkCheckpoint "k" (mkCursor 1 2) (mkScope "items" 1 1).
Definition sx_receipt : BootstrapReceipt := mkReceipt "z" sx_hash sx_checkpoint 99.

(** ** The messages on the wire *)

Definition sx_start_bytes : list byte := 
  Eval vm_compute in ok_value [] (encode_bootstrap_start sx_start).
Definition sx_manifest_bytes : list byte := 
  Eval vm_compute in ok_value [] (encode_bootstrap_manifest sx_manifest).
Definition sx_page_bytes : list byte := 
  Eval vm_compute in ok_value [] (encode_bootstrap_page (sx_page_for sx_hash)).
Definition sx_receipt_bytes : list byte := 
  Eval vm_compute in ok_value [] (encode_bootstrap_receipt sx_receipt).

(** ** The journal codec of the states involved *)

Definition sx_state : RecordState JsonValue := Present (nx_value "milk") 1 None.
Definition sx_next : StoredSyncState := Eval vm_compute in
  match prepare_bootstrap_snapshot nx_empty sx_checkpoint [mkSnapshotRecord "item:1" sx_state]
  with Ok p => prepared_state p | Err _ => nx_empty end.
#[local] Instance sx_serde : StateSerde := {|
  serde_meta := table_serde [state_meta nx_empty; state_meta sx_next];
  serde_state := no_serde;
  serde_record_state := table_serde [sx_state];
  serde_commit := no_serde;
  serde_resolved := no_serde;
  serde_record_id := table_serde ["item:1"];
  serde_row := no_serde;
  serde_key_triple := table_serde [("home", "phone", "0"); ("home", "phone", u64_to_string u64_max)];
|}.

#[local] Instance sx_laws : StateSerdeLaws.
Proof. split; simpl; first [apply no_serde_laws|apply table_laws]. Qed.

Lemma sx_storable (s : StoredSyncState) :
  is_u64 (st_revision s) → is_u64 (st_subscription_revision s) → storable_state s.
Proof.
  intros Hr Hs. split; try done; intros; simpl;
    first [apply no_serde_storable|apply table_storable; vm_compute; discriminate].
Qed.

(** A clock inside the deadline and before the manifest expires. *)
Definition sx_clock : CompletionClock := mkClock (λ _, 1%N) (λ _, Ok 50%N) 2.

(** ** The run *)

Definition sx_staged : result N SyncStateError * world :=
  (let~ _ := save_atomic (Some 0%N) None nx_empty in
   let~ incarnation := begin (Some 0%N) sx_start_bytes sx_manifest_bytes sx_context in
   let~ _ := stage_page (Some 0%N) sx_page_bytes sx_context incarnation in
   io_ret incarnation) (mkWorld (mem_empty : db) 0).
Definition sx_complete (w : world) : result Completion SyncStateError * world :=
  complete (Some 0%N) sx_receipt_bytes sx_context 1 sx_clock w.

(** The stage is begun, its page stored and verified, and its state installed. *)
Example stage_completes :
  (sx_staged.1, (sx_complete sx_staged.2).1) = (Ok 1%N, Ok (CompletionApplied sx_next)).
Proof. reflexivity. Qed.

(** Completing again changes nothing. *)
Example stage_completes_once :
  (sx_complete (sx_complete sx_staged.2).2).1 = Ok HistoricalSuccess.
Proof. reflexivity. Qed.

(** The journal under the stage holds the empty state. *)
Lemma sx_staged_holds : holds (w_db sx_staged.2) nx_key (Some nx_empty).
Proof.
  unfold sx_staged, io_bind at 1.
  destruct (save_atomic (Some 0%N) None nx_empty _) as [r w] eqn:Hs.
  assert (r = Ok Applied) as -> by (apply (f_equal fst) in Hs; vm_compute in Hs; done).
  eapply (save_atomic_holds nx_key 0%N None) in Hs as [Hh _]; [|by repeat split|done|by apply sx_storable].
  pose proof (begin_holds nx_key 0 sx_start_bytes sx_manifest_bytes sx_context w _ eq_refl Hh) as Hb.
  unfold io_bind at 1. destruct (begin _ _ _ _ w) as [[n|e] w1]; [|exact Hb].
  pose proof (stage_page_holds nx_key 0 sx_page_bytes sx_context n w1 _ eq_refl Hb) as Hp.
  unfold io_bind. by destruct (stage_page _ _ _ _ w1) as [[u|e] w2].
Qed.

