(* ===== verification/Reliable.v ===== *)
(** * Success over an engine that does not fail.

    The results of [StoreProps] and [ClientResult] describe every outcome of an operation.
    Here the engine's calls succeed and nobody else touches the handle: then a valid
    transition that fits its budgets is applied, installed and read back.  What is left of
    the preconditions is what the code itself checks. *)

From Stdlib Require Import Strings.Byte.
From S2P Require Import Prelude Protocol Subscription ClientState SubscriptionState Validate Client SubscriptionClient Read Canonical HttpCodec BootstrapCodec SubscriptionCodec NativeErrors Json Wire NativeCodec Engine StateRows StateLoad Stage StateStore StageStore Queue ReadJournal SubscriptionJournal View NativeClient NativeOps NativeBootstrap StateProps StoreProps ClientCoherence ClientSteps ClientOpen ClientResult.

Set Default Proof Using "Type*".

(** Every call of the engine that the journal makes succeeds. *)
Class Reliable `{!SurrealTypes, !Engine} : Prop := {
  rel_select d r : ∃ x, db_select d r = Ok x;
  rel_select_where d t p n : ∃ l, db_select_where d t p n = Ok l;
  rel_upsert d r x : ∃ o, db_upsert d r x = Ok o;
  rel_delete d r : ∃ o, db_delete d r = Ok o;
  rel_begin d : ∃ t, db_begin d = Ok t;
  rel_commit d t : (db_commit d t).1 = Ok tt;
}.

(** The handle stays open in the session [sg] and nothing is poisoned. *)
Definition steady `{!Host} (sg : N) : Prop := ∀ n, observe n = mkObs false true sg false false.

Section transactions.
Context `{!SurrealTypes, !Engine, !EngineLaws, !Reliable, !Host}.
Variable sg : N.
Hypothesis host_steady : steady sg.

Lemma reads_succeed d : ¬ reads_fail d.
Proof.
  intros [[r Hr]|(t & p & n & Hr)].
  - destruct (rel_select d r) as [x Hx]. congruence.
  - destruct (rel_select_where d t p n) as [l Hl]. congruence.
Qed.

Lemma database_client_steady w : ∃ w', database_client w = (Ok tt, w') ∧ w_db w' = w_db w.
Proof.
  unfold database_client, io_bind, io_look. rewrite host_steady. simpl. rewrite host_steady.
  simpl. by eexists.
Qed.
Lemma check_session_steady w :
  ∃ w', check_session (Some sg) w = (Ok tt, w') ∧ w_db w' = w_db w.
Proof.
  unfold check_session, session_changed, io_bind, io_look. rewrite host_steady. simpl.
  rewrite host_steady. simpl. rewrite N.eqb_refl. simpl. by eexists.
Qed.

(** A transaction whose operation succeeds commits. *)
Lemma in_transaction_steady {A} (op : tx A) w :
  (∀ t, same t (w_db w) → is_ok (op t) = true) →
  ∃ a w', in_transaction (Some sg) op w = (Ok a, w').
Proof.
  intros Hop. destruct (database_client_steady w) as (w1 & Hc & Hd1).
  destruct (rel_begin (w_db w1)) as [t Ht].
  assert (same t (w_db w)) as Hsame by (rewrite <-Hd1; intros r; by apply db_begin_Ok).
  specialize (Hop t Hsame). destruct (op t) as [[a t']|] eqn:He; [|done]. exists a.
  unfold in_transaction, begin_transaction, io_bind, io_map_err. rewrite Hc. simpl.
  unfold io_read, database. rewrite Ht. simpl. rewrite He.
  unfold finish, io_then. destruct (check_session_steady w1) as (w2 & -> & _). simpl.
  pose proof (rel_commit (w_db w2) t') as Hcm. destruct (db_commit (w_db w2) t') as [r d].
  simpl in Hcm. subst r. by eexists.
Qed.

Lemma tx_for_each_total {A} (f : A → tx unit) l d :
  (∀ x d, x ∈ l → is_ok (f x d) = true) → is_ok (tx_for_each f l d) = true.
Proof.
  revert d. induction l as [|x l IH]; intros d Hf; [done|]. simpl. unfold tx_bind.
  specialize (Hf x d ltac:(by left)) as Hx. destruct (f x d) as [[u d']|]; [|done].
  apply IH. intros y d1 Hy. apply Hf. by right.
Qed.
Lemma tx_bind_total {A B} (m : tx A) (k : A → tx B) d :
  is_ok (m d) = true → (∀ a d', m d = Ok (a, d') → is_ok (k a d') = true) →
  is_ok (tx_bind m k d) = true.
Proof. unfold tx_bind. destruct (m d) as [[a d']|]; [|done]. intros _ Hk. by apply Hk. Qed.
Lemma tx_upsert_total r x d : is_ok (tx_upsert r x d) = true.
Proof. unfold tx_upsert. by destruct (rel_upsert d r x) as [o ->]. Qed.
Lemma tx_delete_total r d : is_ok (tx_delete r d) = true.
Proof. unfold tx_delete. by destruct (rel_delete d r) as [o ->]. Qed.
End transactions.

Create HintDb total.
#[export] Hint Resolve tx_upsert_total tx_delete_total : total.

(** ** Writing a state *)

Section store.
Context `{!SurrealTypes, !Engine, !EngineLaws, !Reliable, !Host, !JsonFloatText, !JsonText, !JsonTextLaws, !StateSerde, !StateSerdeLaws, !Ciborium, !Sha256}.
Variable sg : N.
Hypothesis host_steady : steady sg.

(** No bootstrap has been staged: the metadata row, if there is one, has no fence. *)
Definition unfenced (d : db) (key : SyncStateKey) : Prop :=
  ∀ x, contents d (meta_record_id key) = Some x → ∃ m, x = RowMeta m None.

#[export] Instance unfenced_proper : Proper (same ==> eq ==> iff) unfenced.
Proof.
  intros d d' E ? key ->. unfold unfenced. by setoid_rewrite (E (meta_record_id key)).
Qed.

Lemma load_stored_total conn d key o :
  sees conn d → stored d key o → load_v2 conn key d = Ok o.
Proof.
  intros Hsees Hst. destruct (load_stored conn d key o Hsees Hst) as [->|[_ Hf]]; [done|].
  by apply reads_succeed in Hf.
Qed.

Lemma guard_unfenced d key budget : unfenced d key → guard_state_write key budget d = Ok None.
Proof.
  intros Hu. unfold guard_state_write, read_fence, select_as.
  destruct (rel_select d (meta_record_id key)) as [x Hx]. rewrite Hx. simpl.
  apply db_select_Ok in Hx. destruct x as [x|]; [|done].
  destruct (Hu x) as [m ->]; [done|]. done.
Qed.

Lemma write_row_diff_total d key current next :
  unfenced d key → is_ok (normalized_budget next) = true →
  is_ok (write_row_diff key current next d) = true.
Proof.
  intros Hu Hb. unfold write_row_diff. unfold tx_bind at 1, tx_lift.
  destruct (normalized_budget next) as [budget|]; [|done]. simpl. unfold tx_bind at 1, tx_read.
  rewrite (guard_unfenced _ _ _ Hu). simpl. apply tx_bind_total.
  { destruct current as [rows|]; [|done]. apply tx_for_each_total. intros x d' _.
    unfold delete_vanished. case_decide; [done|]. apply tx_bind_total; auto with total. }
  intros _ d1 _. apply tx_bind_total.
  { apply tx_for_each_total. intros x d' _. unfold upsert_changed. case_decide; [done|].
    apply tx_bind_total; auto with total. }
  intros _ d2 _. apply tx_bind_total; auto with total.
Qed.

(** The changed records of a projection have ids and values the database takes. *)
Definition projectable (p q : Projection) : Prop :=
  ∀ id, id ∈ union_keys p q → p !! id ≠ q !! id →
  is_ok (native_record_id id) = true ∧
  match q !! id with
  | Some (OptPresent value _ _) => is_ok (record_content value) = true
  | _ => True
  end.

Lemma projection_diff_total p q d : projectable p q → is_ok (apply_projection_diff p q d) = true.
Proof.
  intros Hp. apply tx_for_each_total. intros id d' Hid. unfold project_record.
  case_decide as Hne; [done|]. destruct (Hp id Hid Hne) as [Hn Hv].
  unfold tx_bind at 1, tx_lift. destruct (native_record_id id) as [nid|]; [|done]. simpl.
  destruct (q !! id) as [[value v r|v]|]; [|apply tx_bind_total; auto with total..].
  unfold tx_bind at 1. destruct (record_content value); [|done]. simpl.
  apply tx_bind_total; auto with total.
Qed.

(** The transition can be written: its checks pass and its rows fit. *)
Record fits (current next : StoredSyncState) : Prop := {
  fit_owner : state_key next = state_key current;
  fit_write : is_ok (prepare_state_write (Some (st_revision current)) next) = true;
  fit_subscriptions : is_Some (st_subscriptions current) → is_Some (st_subscriptions next);
  fit_projection : projectable (optimistic_projection current) (optimistic_projection next);
}.

Lemma fits_revision current next :
  fits current next → checked_add u64_max (st_revision current) 1 = Some (st_revision next).
Proof.
  intros [_ Hw _ _]. destruct (prepare_state_write _ next) as [[key rows]|] eqn:Hp; [|done].
  apply prepare_write_Ok in Hp as (_ & _ & _ & Hrev & _).
  unfold validate_next_revision in Hrev. apply result_bind_Ok in Hrev as (n & Hadd & Hrev).
  apply ok_or_Ok in Hadd. case_decide as Hne; [done|]. by rewrite Hne.
Qed.

Lemma normalized_budget_total s rows :
  normalize_state s = Ok rows → ValidState s → is_ok (normalized_budget rows) = true.
Proof.
  intros Hn Hv. destruct (nm_total _ _ (normalize_Ok _ _ Hn Hv)) as (total & Ht & _).
  unfold normalized_budget. by rewrite Ht.
Qed.

Lemma transition_total current next d :
  stored d (state_key current) (Some current) → unfenced d (state_key current) →
  fits current next → is_ok (apply_transition_in_transaction current next d) = true.
Proof.
  intros Hst Hu Hfit. pose proof (fits_revision _ _ Hfit) as Hrev. destruct Hfit as [Hkey Hw Hsubs Hproj].
  destruct (prepare_state_write _ next) as [[key rows]|] eqn:Hp; [|done].
  pose proof (prepare_write_Ok _ _ _ _ Hp) as (-> & Hn & Hv & _).
  unfold apply_transition_in_transaction. unfold tx_bind at 1, tx_lift. rewrite Hp. simpl.
  apply tx_bind_total; cycle 1.
  { intros [] d' _; [|done]. apply tx_bind_total; [by apply projection_diff_total|done]. }
  unfold replace_v2_in_transaction. unfold tx_bind at 1, tx_read. rewrite Hkey.
  rewrite (load_stored_total Direct _ _ _ (sees_direct _) Hst). simpl.
  unfold tx_bind at 1, tx_lift.
  assert (replace_check (Some current) (Some (st_revision current)) (Some current) next = Ok Applied) as ->.
  { unfold replace_check. rewrite decide_False by (intros Hx; by apply Hx). apply checked_add_Some in Hrev.
    rewrite decide_False by lia. rewrite decide_False by (intros Hx; by apply Hx).
    rewrite decide_False; [done|]. intros [Hs Hs']. apply Hsubs in Hs. rewrite Hs' in Hs. by destruct Hs. }
  simpl. destruct Hst as (_ & [(rows' & Hn' & _) _ _]). unfold tx_bind at 1. rewrite Hn'. simpl.
  apply tx_bind_total; [|done]. apply write_row_diff_total; [done|]. by eapply normalized_budget_total.
Qed.

(** The journal stays without a fence. *)
Lemma transition_unfenced current next d r d' :
  stored d (state_key current) (Some current) → unfenced d (state_key current) →
  fits current next → storable_state next →
  outside_journal (optimistic_projection current) (optimistic_projection next) →
  apply_transition_in_transaction current next d = Ok (r, d') → unfenced d' (state_key current).
Proof.
  intros Hst Hu Hfit Hsto Hout Ht. unfold apply_transition_in_transaction in Ht.
  apply tx_bind_Ok in Ht as ([key rows] & d0 & Hp & Ht).
  apply tx_lift_Ok in Hp as ([key' rows'] & Hp & [= -> -> ->]).
  apply prepare_write_Ok in Hp as (-> & Hn & Hv & _).
  apply tx_bind_Ok in Ht as (disp & d1 & Hr & Ht). rewrite (fit_owner _ _ Hfit) in Hr.
  assert (unfenced d1 (state_key current)) as Hu1.
  { unfold replace_v2_in_transaction in Hr.
    apply tx_bind_Ok in Hr as (cur & d0 & Hcur & Hr). apply tx_read_Ok in Hcur as (? & Hcur & [= <- ->]).
    rewrite (load_stored_total Direct _ _ _ (sees_direct _) Hst) in Hcur. injection Hcur as <-.
    apply tx_bind_Ok in Hr as ([] & d0 & Hdec & Hr); apply tx_lift_Ok in Hdec as (? & Hdec & [= <- ->]);
      cycle 1.
    { by apply tx_ret_Ok in Hr as [= -> ->]. }
    apply tx_bind_Ok in Hr as (cr & d0 & Hcr & Hr). apply tx_lift_Ok in Hcr as (? & Hcr & [= <- ->]).
    apply tx_bind_Ok in Hr as (u & d2 & Hw & Hr). apply tx_ret_Ok in Hr as [= -> ->].
    destruct Hst as (_ & [(rowsc & Hnc & Hrep) Hvc _]). rewrite Hnc in Hcr. injection Hcr as <-.
    apply write_row_diff_Ok in Hw as (b & f & _ & Hg & Hm & _); [|done| | |].
    - rewrite (guard_unfenced _ _ _ Hu) in Hg. injection Hg as <-.
      intros x Hx. rewrite Hm in Hx. injection Hx as <-. by eexists.
    - by eapply stores_tabled.
    - by eapply stores_tabled.
    - eapply normalized_row_version. by apply normalize_Ok. }
  destruct disp; [|by apply tx_ret_Ok in Ht as [= -> ->]].
  apply tx_bind_Ok in Ht as (? & d2 & Hproj & Ht). apply tx_ret_Ok in Ht as [= -> ->].
  apply projection_diff_Ok in Hproj as [_ Hf]. intros y. rewrite Hf; [apply Hu1|].
  intros id Hid Hnid. destruct (native_record_id_table _ _ Hnid (Hout _ _ Hid Hnid)) as [Hm _].
  by apply Hm.
Qed.

Lemma load_total key s w :
  stored (w_db w) key (Some s) → validate_key key = Ok tt →
  ∃ w', load (Some sg) key w = (Ok (Some s), w') ∧ w_db w' = w_db w.
Proof.
  intros Hst Hk. destruct (database_client_steady sg host_steady w) as (w1 & Hc & Hd).
  unfold load, io_bind, io_lift, io_map_err, io_read. rewrite Hk, Hc. simpl. rewrite Hd.
  rewrite (load_stored_total Direct _ _ _ (sees_direct _) Hst). by exists w1.
Qed.

Lemma apply_transition_total current next w :
  stored (w_db w) (state_key current) (Some current) → unfenced (w_db w) (state_key current) →
  fits current next → storable_state next →
  outside_journal (optimistic_projection current) (optimistic_projection next) →
  ∃ w', apply_transition_atomic (Some sg) current next w = (Ok Applied, w') ∧
    unfenced (w_db w') (state_key current).
Proof.
  intros Hst Hu Hfit Hsto Hout. pose proof (fits_revision _ _ Hfit) as Hrev. apply checked_add_Some in Hrev.
  destruct (in_transaction_steady sg host_steady (apply_transition_in_transaction current next) w)
    as (a & w' & Hin).
  { intros t Ht. apply transition_total; [by rewrite Ht|by rewrite Ht|done]. }
  assert (apply_transition_atomic (Some sg) current next w = (Ok a, w')) as Hat.
  { unfold apply_transition_atomic. pose proof (fit_owner _ _ Hfit) as [= Hp Hc].
    rewrite decide_False by (rewrite Hp, Hc; naive_solver). unfold io_bind at 1, io_lift.
    destruct Hst as (_ & [_ Hv _]). rewrite (proj2 (validate_ValidState _ tt) Hv). simpl.
    rewrite decide_False by (intros ->; lia). unfold io_bind.
    pose proof (fit_write _ _ Hfit) as Hw. by destruct (prepare_state_write _ next). }
  exists w'. split.
  - rewrite Hat. apply (transition_outcome_holds _ _ _ current) in Hat; [|done..].
    destruct a; [done|]. destruct Hat as (_ & -> & _). lia.
  - apply in_transaction_outcome in Hin. inversion Hin as [t a' t' Ht Ha Hd| |]; subst.
    rewrite Hd. eapply transition_unfenced; [..|exact Ha]; by rewrite ?Ht.
Qed.
End store.

(** ** A client that works *)

Section client.
Context `{!SurrealTypes, !Engine, !EngineLaws, !Reliable, !Host, !JsonFloatText, !JsonText, !JsonTextLaws, !StateSerde, !StateSerdeLaws, !Ciborium, !Sha256, !BridgeSerde}.
Variable key : SyncStateKey.
Variable sg : N.
Hypothesis host_steady : steady sg.
Abbreviation preparation :=
  (StoredSyncState → result (PreparedTransition JsonValue) ClientError).

(** An open client with the state [s], installed and stored, and no staged bootstrap. *)
Record ready (s : StoredSyncState) (c : cell) : Prop := {
  rd_runtime : rt_runtime (c_state c) = Some s;
  rd_poisoned : c_poisoned c = false;
  rd_holds : holds (w_db (c_world c)) key (Some s);
  rd_unfenced : unfenced (w_db (c_world c)) key;
}.

(** A prepared transition the client can store and report. *)
Record acceptable (s : StoredSyncState) (p : PreparedTransition JsonValue) : Prop := {
  acc_base : base_revision p = st_revision s;
  acc_fits : fits s (prepared_state p);
  acc_writable : writable s (prepared_state p);
  acc_codec : validate_state_codec (prepared_state p) = Ok tt;
  acc_status : is_ok (status (prepared_state p)) = true;
}.

Lemma ensure_steady c :
  c_poisoned c = false →
  ∃ w, ensure_session sg c = (Ok tt, mkCell (c_state c) (c_poisoned c) (c_phase c) w) ∧
    w_db w = w_db (c_world c).
Proof.
  intros Hp. unfold ensure_session, a_is_poisoned, a_bind, a_look. rewrite host_steady, Hp.
  do 3 (cbn -[decide]; rewrite !host_steady). cbn -[decide].
  rewrite decide_False by (intros Hx; by apply Hx). by eexists.
Qed.

Lemma guard_client_steady s c :
  c_poisoned c = false → rt_runtime (c_state c) = Some s →
  ∃ w, guard_client sg c = (Ok s, mkCell (c_state c) (c_poisoned c) (c_phase c) w) ∧
    w_db w = w_db (c_world c).
Proof.
  intros Hp Hs. destruct (ensure_steady c Hp) as (w & He & Hd). exists w. split; [|done].
  unfold guard_client, a_bind, a_state, a_lift. rewrite He. simpl. unfold state_client. by rewrite Hs.
Qed.

Lemma publish_steady before prepared s c :
  rt_runtime (c_state c) = Some s → base_revision prepared = st_revision s →
  is_ok (status (prepared_state prepared)) = true →
  ∃ st c', publish before prepared c = (Ok st, c') ∧ rt_runtime (c_state c') = Some (prepared_state prepared) ∧
    c_poisoned c' = c_poisoned c ∧ c_phase c' = Clean ∧ c_world c' = c_world c.
Proof.
  intros Hs Hb Hst. unfold publish, a_bind, a_state. rewrite Hs.
  unfold install_with_read_batch. rewrite decide_False by (by rewrite Hb; intros Hx; apply Hx).
  cbn -[journal_record sub_record status].
  destruct (status (prepared_state prepared)) as [st|]; [|done]. by do 2 eexists.
Qed.

(** One transition, under the lock. *)
Lemma transition_succeeds (prepare : preparation) s p c :
  ready s c → prepare s = Ok p → acceptable s p →
  ∃ st c', locked (transition sg prepare) c = (Ok st, c') ∧ ready (prepared_state p) c'.
Proof.
  intros [Hs Hp Hh Hu] Hprep [Hbase Hfit Hw Hcodec Hstat].
  assert (key = state_key s) as Hkey by (by destruct Hh as [[? _] _]).
  unfold locked. set (c0 := mkCell (c_state c) (c_poisoned c) Clean (c_world c)).
  destruct (guard_client_steady s c0) as (w1 & H1' & Hd1); [done|done|].
  destruct (ensure_steady (mkCell (c_state c) (c_poisoned c) Clean w1)) as (w2 & H2' & Hd2); [done|].
  destruct (guard_client_steady s (mkCell (c_state c) (c_poisoned c) Clean w2)) as (w3 & H3' & Hd3); [done|done|].
  destruct (guard_client_steady s (mkCell (c_state c) (c_poisoned c) Clean w3)) as (w4 & H4' & Hd4); [done|done|].
  simpl in *. assert (w_db w4 = w_db (c_world c)) as Hd by congruence.
  destruct Hh as [Hst Hrec]. pose proof Hw as [Hsto Hout].
  destruct (apply_transition_total sg host_steady s (prepared_state p) w4) as (w5 & Hat & Hu5);
    [by rewrite Hd, <-Hkey|by rewrite Hd, <-Hkey|done..|].
  pose proof Hat as Hout'. apply (transition_outcome_holds _ _ _ s) in Hout';
    [|by rewrite Hd, <-Hkey|done..]. destruct Hout' as (_ & _ & Hts). rewrite Hd in Hts.
  assert (holds (w_db w5) key (Some (prepared_state p))) as Hh5.
  { eapply transition_holds; done. }
  destruct (ensure_steady (mkCell (c_state c) (c_poisoned c) Settled w5)) as (w6 & H6' & Hd6); [done|].
  simpl in *.
  destruct (publish_steady (st_revision s) p s (mkCell (c_state c) (c_poisoned c) Settled w6))
    as (st & c' & Hpub & Hr' & Hp' & Hph & Hw'); [done|done|done|].
  exists st, c'. split.
  - unfold transition, persist_and_install, arm_with_state, arm_mutation, a_bind, a_lift.
    rewrite H1'. rewrite Hprep. simpl. unfold a_lift. rewrite H2', H3', Hcodec, H4'.
    unfold a_phase, a_state, state_client. simpl. rewrite Hs. simpl. unfold a_io. simpl. rewrite Hat.
    unfold settled_mutation, a_bind, a_phase, a_ret. simpl. unfold a_try. rewrite H6'. simpl.
    rewrite Hpub. unfold drop_guard. by rewrite Hph.
  - simpl in *. split; [done|by rewrite Hp'|by rewrite Hw', Hd6|by rewrite Hw', Hd6, Hkey].
Qed.
End client.
