(* ===== verification/NativeProgress.v ===== *)
(** * The native client makes progress.

    Over an engine whose calls succeed and a handle nobody else touches, what the state
    machine accepts is stored, installed and read back; [Reliable] has the lemmas. *)

From Stdlib Require Import Strings.Byte.
From S2P Require Import Prelude Protocol Subscription ClientState SubscriptionState Validate Client SubscriptionClient Read Steps Fixtures PullProps Canonical HttpCodec BootstrapCodec SubscriptionCodec CborReference NativeErrors Json Wire NativeCodec Engine StateRows StateLoad Stage StateStore StageStore Queue ReadJournal SubscriptionJournal View NativeClient NativeOps NativeBootstrap StateProps StoreProps ClientCoherence ClientSteps ClientOpen ClientInvariant ClientResult Memory NativeFixtures NativeProps Reliable.

Set Default Proof Using "Type*".

Section progress.
Context `{!SurrealTypes, !Engine, !EngineLaws, !Reliable, !Host, !JsonFloatText, !JsonText, !JsonTextLaws, !StateSerde, !StateSerdeLaws, !Ciborium, !Sha256, !BridgeSerde}.
Variable sg : N.


(** A sequence of transitions, each prepared from the state the one before it left. *)
Inductive workload :
  list (StoredSyncState → result (PreparedTransition JsonValue) ClientError) →
  StoredSyncState → StoredSyncState → Prop :=
| work_nil s : workload [] s s
| work_cons prepare l s p s' : prepare s = Ok p → acceptable s p →
    workload l (prepared_state p) s' → workload (prepare :: l) s s'.

(** The client runs them one after the other: whether all succeeded, and its last cell. *)
Definition serve (l : list (StoredSyncState → result (PreparedTransition JsonValue) ClientError))
    (c : cell) : bool * cell :=
  foldl (λ acc prepare,
    let '(r, c) := locked (transition sg prepare) acc.2 in (acc.1 && is_ok r, c)) (true, c) l.

End progress.

(** ** Over the engine in memory *)

#[export] Instance memory_reliable : Reliable.
Proof. split; intros; by try eexists. Qed.
Lemma quiet_steady : steady 0.
Proof. done. Qed.

Lemma nx_unfenced : unfenced (nx_saved nx_empty : db) nx_key.
Proof. intros x Hx. vm_compute in Hx. injection Hx as <-. by eexists. Qed.

Definition nx_prepared (s : StoredSyncState) (c : ClientCommit JsonValue) : PreparedTransition JsonValue :=
  mkPrepared (st_revision s) (after s (EEnqueue c)).

Lemma nx_projectable_first : projectable (optimistic_projection nx_empty) (optimistic_projection nx_first).
Proof.
  intros id Hid _. assert (id = "item:1") as -> by (vm_compute in Hid; set_solver). done.
Qed.
Lemma nx_projectable_second :
  projectable (optimistic_projection nx_first) (optimistic_projection nx_second).
Proof.
  intros id Hid _.
  assert (id = "item:1" ∨ id = "item:2") as [-> | ->] by (vm_compute in Hid; set_solver); done.
Qed.
Lemma nx_fits_first : fits nx_empty nx_first.
Proof. split; [done|vm_compute; reflexivity|by intros []|apply nx_projectable_first]. Qed.
Lemma nx_fits_second : fits nx_first nx_second.
Proof. split; [done|vm_compute; reflexivity|by intros []|apply nx_projectable_second]. Qed.


(** Two commits are enqueued. *)
Definition nx_workload : list (StoredSyncState → result (PreparedTransition JsonValue) ClientError) :=
  [λ s, prepare_enqueue s nx_commit1; λ s, prepare_enqueue s nx_commit2].

