(* ===== verification/StorageInspection.v ===== *)
(** * Inspecting a journal and its storage.

    Models [inspect_sync_state] of [crates/surrealdb-rn-core/src/sync_client.rs] and
    [sync_storage_inspection.rs]: two observations of existing storage that never write.
    The first reports the journal of one client, the second also refuses a storage whose
    layout is not exactly that client's journal and the application's tables.

    The catalog queries ([INFO FOR ROOT], [NS], [DB]) are the parameter [Catalog]. *)

From Stdlib Require Import Strings.Byte Strings.Ascii.
From S2P Require Import Prelude Protocol Subscription ClientState Validate Client Canonical HttpCodec BootstrapCodec NativeErrors Json Wire NativeCodec Engine StateRows StateLoad Stage StateStore NativeClient NativeOps.

Inductive NativeSyncInspectionBarrier := IbNone | IbNeedsNewScopeJournal | IbPendingQuarantineRequired.

Inductive NativeSyncInspection :=
| InsMissing
| InsPresent (revision pending_count outcome_count conflict_count : N)
    (barrier : NativeSyncInspectionBarrier).

(** The [match] on the reason of a stored barrier. *)
Definition inspection_barrier {E} (e : E) (barrier : option ScopeBarrier)
  : result NativeSyncInspectionBarrier E :=
  match barrier with
  | None => Ok IbNone
  | Some b =>
      if decide (sb_reason b = "needs_new_scope_journal") then Ok IbNeedsNewScopeJournal
      else if decide (sb_reason b = "pending_quarantine_required") then Ok IbPendingQuarantineRequired
      else Err e
  end.

(** ** One journal *)

Section journal.
Context `{!SurrealTypes, !Engine, !Host, !JsonFloatText, !JsonText, !StateSerde, !Ciborium, !Sha256}.

(** [is_poisoned() || is_closed() || session_generation != generation] *)
Definition inspection_stale (generation : N) : io NativeSyncError bool :=
  let~ poisoned := io_look ob_poisoned in
  if poisoned : bool then io_ret true else
  let~ closed := io_look ob_closed in
  if closed : bool then io_ret true else
  let~ current := io_look ob_generation in
  io_ret (negb (current =? generation)%N).

(** The report on a state that was found. *)
Definition inspection_report (options : NativeSyncOpenOptions) (state : StoredSyncState)
    (barrier : option ScopeBarrier) : result NativeSyncInspection NativeSyncError :=
  if decide (st_requested_scope state ≠ oo_requested_scope options
             ∨ st_subscription_revision state ≠ oo_subscription_revision options)
  then Err ProtocolError else
  let? _ := validate_state_codec state in
  let? runtime := map_err map_protocol_error (open state) in
  let? counts := status runtime in
  let? barrier := inspection_barrier RecoveryRequired barrier in
  Ok (InsPresent (ns_revision counts) (ns_pending_count counts) (ns_outcome_count counts)
        (ns_conflict_count counts) barrier).

Definition inspect_sync_state (embedded : bool) (options : NativeSyncOpenOptions)
  : io NativeSyncError NativeSyncInspection :=
  if negb embedded then io_err RequiresEmbeddedDatabase else
  let~ closed := io_look ob_closed in
  if closed : bool then io_err Closed else
  let~ poisoned := io_look ob_poisoned in
  if poisoned : bool then io_err RecoveryRequired else
  let~ session_generation := io_look ob_generation in
  if (NATIVE_MAX_IDENTITY_BYTES <? str_len (oo_requested_scope options))%N
  then io_err InvalidInput else
  io_then (inspect (options_key options)) (λ inspected,
    let~ stale := inspection_stale session_generation in
    if stale : bool then io_err RecoveryRequired else
    io_lift
      (let? (state, barrier) := map_err map_persistence_error inspected in
       match state with
       | None => Ok InsMissing
       | Some state => inspection_report options state barrier
       end)).
End journal.

(** ** The whole storage *)

Inductive NativeStorageInspectionError :=
| IeInvalidOptions
| IeUnsettled
| IeUnsupportedLayout
| IeMetadataLimit
| IeCorruptState
| IePersistence.
#[export] Instance NativeStorageInspectionError_eq_dec : EqDecision NativeStorageInspectionError.
Proof. solve_decision. Defined.

Record NativeTableOccupancy := mkOccupancy {
  to_table : string;
  to_schema_present : bool;
  to_rows_present : bool;
}.

Inductive NativeStorageInspection :=
| PristineUnselected
| Selected (native : NativeSyncInspection) (application_tables : list NativeTableOccupancy).

Record NativeStorageInspectionOptions := mkInspectionOptions {
  io_namespace : string;
  io_database : string;
  io_expected_journal : NativeSyncOpenOptions;
  io_application_tables : list string;
}.

Definition is_ascii_alphabetic (b : byte) : bool :=
  let n := Byte.to_N b in
  ((65 <=? n) && (n <=? 90))%N || ((97 <=? n) && (n <=? 122))%N.
Definition is_ascii_digit (b : byte) : bool :=
  let n := Byte.to_N b in ((48 <=? n) && (n <=? 57))%N.
Definition is_byte (c b : byte) : bool := (Byte.to_N b =? Byte.to_N c)%N.

Definition storage_name (s : string) : bool :=
  negb (str_is_empty s) && (str_len s <=? 64)%N
  && forallb (λ b, is_ascii_alphabetic b || is_ascii_digit b || is_byte "_" b || is_byte "-" b)
       (String.list_byte_of_string s).

(** The bytes after the first may be digits. *)
Definition identifier (s : string) : bool :=
  let start b := is_ascii_alphabetic b || is_byte "_" b in
  (str_len s <=? 64)%N
  && match String.list_byte_of_string s with
     | [] => false
     | b :: bs => start b && forallb (λ b, start b || is_ascii_digit b) bs
     end.

Definition state_error (error : SyncStateError) : NativeStorageInspectionError :=
  match error with
  | CorruptState => IeCorruptState
  | StateTooLarge => IeMetadataLimit
  | _ => IePersistence
  end.

(** [struct Metadata] *)
Record Metadata := mkMetadata { md_count : N; md_valid : bool }.

(** The catalog queries; the first outcome is that of the statement, the second of [take]
    where the code looks at the session in between. *)
Class Catalog `{!SurrealTypes, !Engine} := {
  (** [INFO FOR ROOT], within two seconds *)
  info_root : db → result (result SValue unit) unit;
  (** the number of databases of the namespace and whether it has nothing else *)
  info_ns : db → result (option Metadata) unit;
  (** whether the databases are exactly the expected one *)
  info_ns_is : db → string → result (option bool) unit;
  (** the number of tables of the database and whether it has nothing else *)
  info_db : db → result (option Metadata) unit;
  (** whether no table name is longer than 64 bytes *)
  info_names_bounded : db → result (option bool) unit;
  info_tables : db → result (list string) unit;
}.

Section storage.
Context `{!SurrealTypes, !Engine, !Host, !Catalog, !JsonFloatText, !JsonText, !StateSerde, !Ciborium, !Sha256}.
Abbreviation sio := (io NativeStorageInspectionError).

Definition settled (generation : N) : sio unit :=
  let~ closed := io_look ob_closed in
  if closed : bool then io_err IeUnsettled else
  let~ poisoned := io_look ob_poisoned in
  if poisoned : bool then io_err IeUnsettled else
  let~ current := io_look ob_generation in
  if decide (current ≠ generation) then io_err IeUnsettled else io_ret tt.

Definition persistence {A E} (r : result A E) : result A NativeStorageInspectionError :=
  map_err (λ _, IePersistence) r.
Definition unless (refused : bool) (e : NativeStorageInspectionError) : sio unit :=
  if refused then io_err e else io_ret tt.

(** [metadata(tx, sql)] *)
Definition metadata_of (query : db → result (option Metadata) unit) : sio Metadata :=
  io_read (λ d, let? m := persistence (query d) in ok_or m IeUnsupportedLayout).

Definition ROOT_KEYS : list string :=
  ["accesses"; "defaults"; "namespaces"; "nodes"; "system"; "users"; "config"].

Definition is_empty_object (v : option SValue) : bool :=
  match v with Some (SvObject []) => true | _ => false end.
(** [{ QUERY_TIMEOUT: NONE }] *)
Definition is_default_config (v : option SValue) : bool :=
  match v with
  | Some (SvObject config) =>
      bool_decide (length config = 1)
      && match object_value "QUERY_TIMEOUT" config with Some SvNone => true | _ => false end
  | _ => false
  end.

(** The namespaces of a root that holds nothing else. *)
Definition root_namespaces (root : SValue)
  : result (list (string * SValue)) NativeStorageInspectionError :=
  match root with
  | SvObject root =>
      if decide (length root ≠ length ROOT_KEYS) then Err IeUnsupportedLayout else
      if negb (forallb (λ kv, bool_decide (kv.1 ∈ ROOT_KEYS)) root) then Err IeUnsupportedLayout else
      if negb (forallb (λ field, is_empty_object (object_value field root))
                 ["accesses"; "defaults"; "users"]) then Err IeUnsupportedLayout else
      if negb (is_default_config (object_value "config" root)) then Err IeUnsupportedLayout else
      match object_value "namespaces" root with
      | Some (SvObject namespaces) => Ok namespaces
      | _ => Err IeUnsupportedLayout
      end
  | _ => Err IeUnsupportedLayout
  end.

(** The checks of the namespace and of the database: the tables of the storage. *)
Definition selected_tables (generation : N) (options : NativeStorageInspectionOptions)
    (app : gset string) : sio (gset string) :=
  let~ ns := metadata_of info_ns in
  let~ _ := settled generation in
  let~ _ := unless (negb (md_valid ns) || negb (md_count ns =? 1)%N) IeUnsupportedLayout in
  let~ matches := io_read (λ d, persistence (info_ns_is d (io_database options))) in
  let~ _ := settled generation in
  let~ _ := unless (bool_decide (matches ≠ Some true)) IeUnsupportedLayout in
  let~ schema := metadata_of info_db in
  let~ _ := settled generation in
  let~ _ := unless (negb (md_valid schema)) IeUnsupportedLayout in
  let~ _ := unless (10 + N.of_nat (size app) <? md_count schema)%N IeMetadataLimit in
  let~ names_valid := io_read (λ d, persistence (info_names_bounded d)) in
  let~ _ := settled generation in
  let~ _ := unless (bool_decide (names_valid ≠ Some true)) IeMetadataLimit in
  let~ names := io_read (λ d, persistence (info_tables d)) in
  let~ _ := settled generation in
  let tables : gset string := list_to_set names in
  let~ _ := unless (bool_decide (tables ⊈ list_to_set (JOURNAL_TABLES ++ [HEADER; PAGE]) ∪ app))
              IeUnsupportedLayout in
  io_ret tables.

(** The report on the journal; [occupied] tells whether any of its rows exists. *)
Definition native_report (options : NativeSyncOpenOptions) (occupied : bool)
    (state : option StoredSyncState) (barrier : option ScopeBarrier)
  : result NativeSyncInspection NativeStorageInspectionError :=
  match state with
  | None => if occupied then Err IeCorruptState else Ok InsMissing
  | Some state =>
      if decide (st_requested_scope state ≠ oo_requested_scope options
                 ∨ st_subscription_revision state ≠ oo_subscription_revision options)
      then Err IeCorruptState else
      let? _ := map_err (λ _, IeCorruptState) (validate_state_codec state) in
      let? state := map_err (λ _, IeCorruptState) (open state) in
      let? pending := persistence (to_u32 (vec_len (st_outbox state))) in
      let? outcomes := persistence (to_u32 (vec_len (st_outcomes state))) in
      let? conflicts :=
        persistence (to_u32 (vec_len (List.filter is_open_conflict (st_outcomes state)))) in
      let? barrier := inspection_barrier IeCorruptState barrier in
      Ok (InsPresent (st_revision state) pending outcomes conflicts barrier)
  end.

(** The loop over the application's tables, in order; [t] is the read transaction. *)
Fixpoint occupancies (generation : N) (tables : gset string) (t : db) (app : list string)
    (found : list NativeTableOccupancy) : sio (list NativeTableOccupancy) :=
  match app with
  | [] => io_ret found
  | table :: app =>
      if decide (table ∈ tables) then
        let~ rows := io_lift (persistence (db_select_where t table (λ _ _, true) 1)) in
        let~ _ := settled generation in
        occupancies generation tables t app
          (found ++ [mkOccupancy table true (bool_decide (rows ≠ []))])
      else occupancies generation tables t app (found ++ [mkOccupancy table false false])
  end.

(** The body of the read transaction. *)
Definition inspect_selected (generation : N) (options : NativeStorageInspectionOptions)
    (app tables : gset string) (key : SyncStateKey) (t : db) : sio NativeStorageInspection :=
  let~ journal_rows := io_lift (map_err state_error (journal_inspect_all_owners tables key t)) in
  let~ _ := settled generation in
  let~ bootstrap_rows := io_lift (map_err state_error (stage_inspect_all_owners tables key t)) in
  let~ _ := settled generation in
  let~ (state, barrier) := io_lift (map_err state_error (inspect_known_tables tables key t)) in
  let~ _ := settled generation in
  let~ native := io_lift (native_report (io_expected_journal options)
                            (journal_rows || bootstrap_rows) state barrier) in
  let~ application_tables :=
    occupancies generation tables t (merge_sort String.le (elements app)) [] in
  io_ret (Selected native application_tables).

(** Begin, inspect, cancel; the session is looked at once more before either result. *)
Definition inspect_in_transaction (generation : N) (options : NativeStorageInspectionOptions)
    (app tables : gset string) (key : SyncStateKey) : sio NativeStorageInspection :=
  let~ t := io_read (λ d, persistence (db_begin d)) in
  io_then (inspect_selected generation options app tables key t) (λ result w,
    let '(cancelled, d) := db_cancel (w_db w) t in
    (let~ _ := settled generation in
     let~ _ := io_lift (persistence cancelled) in
     io_lift result) (mkWorld d (w_time w))).

Definition storage_inspect_transaction (generation : N) (options : NativeStorageInspectionOptions)
    (app : gset string) (key : SyncStateKey) : sio NativeStorageInspection :=
  let~ response := io_read (λ d, persistence (info_root d)) in
  let~ _ := settled generation in
  let~ root := io_lift (persistence response) in
  let~ namespaces := io_lift (root_namespaces root) in
  if decide (namespaces = []) then io_ret PristineUnselected else
  let~ _ := unless (negb (bool_decide (length namespaces = 1))
                    || negb (bool_decide (io_namespace options ∈ namespaces.*1)))
              IeUnsupportedLayout in
  let~ tables := selected_tables generation options app in
  inspect_in_transaction generation options app tables key.

(** The checks on the options: the application's tables as a set. *)
Definition inspection_options (embedded : bool) (options : NativeStorageInspectionOptions)
  : result (gset string) NativeStorageInspectionError :=
  let scope := oo_requested_scope (io_expected_journal options) in
  let tables := io_application_tables options in
  if negb embedded || negb (storage_name (io_namespace options))
     || negb (storage_name (io_database options)) || (16 <? vec_len tables)%N
     || str_is_empty scope || (NATIVE_MAX_IDENTITY_BYTES <? str_len scope)%N
  then Err IeInvalidOptions else
  let app : gset string := list_to_set tables in
  if negb (bool_decide (size app = length tables))
     || negb (forallb (λ s, identifier s && negb (String.prefix "_sync_" s)) (elements app))
  then Err IeInvalidOptions else
  let? _ := map_err (λ _, IeInvalidOptions) (validate_key (options_key (io_expected_journal options))) in
  Ok app.

Definition inspect_storage (embedded : bool) (options : NativeStorageInspectionOptions)
  : sio NativeStorageInspection :=
  let~ app := io_lift (inspection_options embedded options) in
  let~ generation := io_look ob_generation in
  let~ _ := settled generation in
  let~ _ := settled generation in
  let~ _ := io_map_err (λ _, IePersistence) database_client in
  let~ _ := settled generation in
  io_then (storage_inspect_transaction generation options app
             (options_key (io_expected_journal options))) (λ result,
    let~ _ := settled generation in io_lift result).
End storage.
