(* ===== verification/InspectionProps.v ===== *)
(** * What an inspection reports.

    An inspection never writes.  A journal it reports as present is the stored one with
    these counts and this barrier, one it reports as missing has no rows, and a storage it
    selects has no rows outside the journal, the stage and the application's tables and no
    journal or stage row of another owner. *)

From Stdlib Require Import Strings.Byte.
From S2P Require Import Prelude Protocol Subscription ClientState SubscriptionState Validate Client Canonical HttpCodec BootstrapCodec CborReference NativeErrors Json Wire NativeCodec Engine StateRows StateLoad Stage StateStore NativeClient NativeOps StateProps StoreProps ClientCoherence ClientOpen StorageInspection Memory NativeFixtures NativeProps.

Set Default Proof Using "Type*".

(** The catalog lists every namespace and every table that has a row. *)
Class CatalogLaws `{!SurrealTypes, !Engine, !EngineLaws, !Catalog} : Prop := {
  info_root_Ok d root : info_root d = Ok (Ok root) → root_namespaces root = Ok [] →
    ∀ r, contents d r = None;
  info_tables_Ok d names r x : info_tables d = Ok names → contents d r = Some x → r_table r ∈ names;
}.

(** ** One journal *)

Section journal.
Context `{!SurrealTypes, !Engine, !EngineLaws, !Host, !JsonFloatText, !JsonText, !JsonTextLaws, !StateSerde, !StateSerdeLaws, !Ciborium, !Sha256}.

(** The reported barrier is that of the barrier row. *)
Definition barrier_reported (x : option row) (b : NativeSyncInspectionBarrier) : Prop :=
  match b with
  | IbNone => x = None
  | IbNeedsNewScopeJournal =>
      ∃ barrier, x = Some (RowBarrier barrier) ∧ sb_reason barrier = "needs_new_scope_journal"
  | IbPendingQuarantineRequired =>
      ∃ barrier, x = Some (RowBarrier barrier) ∧ sb_reason barrier = "pending_quarantine_required"
  end.

(** The report [i] is right about the stored state [o] and the barrier row [x]. *)
Definition reports (o : option StoredSyncState) (x : option row) (i : NativeSyncInspection)
  : Prop :=
  match i with
  | InsMissing => o = None ∧ x = None
  | InsPresent revision pending outcomes conflicts barrier => ∃ s, o = Some s ∧
      revision = st_revision s ∧ pending = vec_len (st_outbox s) ∧
      outcomes = vec_len (st_outcomes s) ∧
      conflicts = vec_len (List.filter
        (λ r, bool_decide (resolution r = None) && is_conflict (outcome r)) (st_outcomes s)) ∧
      barrier_reported x barrier
  end.

Lemma inspection_barrier_Ok {E} (e : E) barrier b :
  inspection_barrier e barrier = Ok b → barrier_reported (RowBarrier <$> barrier) b.
Proof.
  unfold inspection_barrier. destruct barrier as [barrier|]; [|by intros [= <-]].
  repeat case_decide; intros [= <-]; simpl; eauto.
Qed.

Lemma to_u32_Ok n m : to_u32 n = Ok m → m = n.
Proof. unfold to_u32. case_match; [|done]. by intros [= <-]. Qed.

Lemma inspection_report_Ok options s barrier i :
  inspection_report options s barrier = Ok i → reports (Some s) (RowBarrier <$> barrier) i.
Proof.
  unfold inspection_report. case_decide; [done|]. intros Hr. inv_ok.
  repeat match goal with H : map_err _ _ = Ok _ |- _ => apply map_err_Ok in H end.
  match goal with H : open s = Ok _ |- _ => unfold open in H; apply result_bind_Ok in H as (? & _ & [= <-]) end.
  match goal with H : status s = Ok _ |- _ => unfold status in H; inv_ok end.
  repeat match goal with H : to_u32 _ = Ok _ |- _ => apply to_u32_Ok in H; subst end.
  match goal with H : inspection_barrier _ _ = Ok _ |- _ => apply inspection_barrier_Ok in H end.
  by exists s.
Qed.

(** What a transaction reads of the barrier row. *)
Lemma inspect_known_barrier tables key d x :
  sees (Inspection tables) d → inspect_known_tables tables key d = Ok x →
  contents d (scope_barrier_record_id key) = RowBarrier <$> x.2 ∧ (x.1 = None → x.2 = None).
Proof.
  intros Hsees Hi. unfold inspect_known_tables in Hi.
  do 5 (apply result_bind_Ok in Hi as (? & _ & Hi)).
  apply result_bind_Ok in Hi as (barrier & Hb & Hi). apply result_bind_Ok in Hi as (? & _ & Hi).
  revert Hi. destruct (decide (_ ∧ _)) as [?|Hn]; [done|]. intros [= <-]. simpl. split.
  - clear Hn. revert Hb. case_decide as Ht; intros Hb.
    + unfold load_barrier_row, select_as in Hb. apply result_bind_Ok in Hb as (y & Hy & Hb).
      apply map_err_Ok, db_select_Ok in Hy. subst y.
      destruct (contents d (scope_barrier_record_id key)) as [[]|]; by inv_ok.
    + injection Hb as <-. apply Hsees. simpl. by apply bool_decide_eq_true_2.
  - intros ->. destruct barrier; [|done]. destruct Hn. eauto.
Qed.

Lemma inspect_barrier key d x :
  inspect_transaction key d = Ok x →
  contents d (scope_barrier_record_id key) = RowBarrier <$> x.2 ∧ (x.1 = None → x.2 = None).
Proof.
  intros Hi. unfold inspect_transaction in Hi.
  apply result_bind_Ok in Hi as (? & _ & Hi). apply result_bind_Ok in Hi as (info & Hinfo & Hi).
  apply map_err_Ok in Hinfo. destruct info as [tables|].
  - eapply inspect_known_barrier; [|done]. by apply sees_inspection.
  - injection Hi as <-. simpl. split; [|done].
    destruct (contents d (scope_barrier_record_id key)) as [y|] eqn:Hy; [|done].
    by destruct (db_info_Ok _ _ _ _ Hinfo Hy) as (? & [=] & _).
Qed.

Lemma keeps_stale generation : keeps_db (inspection_stale generation).
Proof. unfold inspection_stale. repeat (apply keeps_bind || apply keeps_if || intros ? || done). Qed.

Lemma inspect_same key w : same (w_db (inspect key w).2) (w_db w).
Proof.
  unfold inspect, io_bind, io_lift. destruct (validate_key key); [|done].
  unfold in_read_transaction, io_bind. pose proof (keeps_begin w) as Hk.
  destruct (begin_transaction w) as [[t|e] w1]; simpl in *; [|by rewrite Hk].
  destruct (db_cancel (w_db w1) t) as [r d] eqn:Hc. simpl. rewrite <-Hk. intros x. by eapply db_cancel_any.
Qed.

(** A successful inspection ran on a copy of the committed rows. *)
Lemma inspect_runs key w x w' :
  inspect key w = (Ok x, w') → ∃ t, same t (w_db w) ∧ inspect_transaction key t = Ok x.
Proof.
  unfold inspect. intros [(? & ? & _ & [=])|(? & ? & [= _ <-] & Hr)]%io_bind_inv.
  unfold in_read_transaction in Hr.
  apply io_bind_inv in Hr as [(? & ? & _ & [=])|(t & w1 & Hb & Hr)]. exists t. split.
  - unfold begin_transaction in Hb.
    apply io_bind_inv in Hb as [(? & ? & _ & [=])|(u & w2 & Hc & Hb)].
    pose proof (keeps_map_err CoreError _ keeps_database_client w) as Hk. rewrite Hc in Hk.
    simpl in Hk. injection Hb as Hb _. apply map_err_Ok in Hb. rewrite <-Hk.
    intros y. by eapply db_begin_Ok.
  - destruct (db_cancel (w_db w1) t) as [[[]|] d]; [|done]. by injection Hr.
Qed.

Lemma inspect_sync_state_exact embedded options o w r w' :
  holds (w_db w) (options_key options) o → inspect_sync_state embedded options w = (r, w') →
  same (w_db w') (w_db w) ∧
  ∀ i, r = Ok i →
    reports o (contents (w_db w) (scope_barrier_record_id (options_key options))) i.
Proof.
  intros Hh. unfold inspect_sync_state. destruct (negb embedded); [by intros [= <- <-]|].
  unfold io_bind at 1, io_look at 1. destruct (ob_closed _); [by intros [= <- <-]|].
  unfold io_bind at 1, io_look at 1. destruct (ob_poisoned _); [by intros [= <- <-]|].
  unfold io_bind at 1, io_look at 1. simpl. destruct (_ <? _)%N; [by intros [= <- <-]|].
  set (w0 := mkWorld _ _). unfold io_then. pose proof (inspect_same (options_key options) w0) as Hsame.
  destruct (inspect (options_key options) w0) as [inspected w1] eqn:Hi. simpl in *.
  unfold io_bind at 1. pose proof (keeps_stale (ob_generation (observe (S (S (w_time w))))) w1) as Hk.
  destruct (inspection_stale _ w1) as [[[]|e] w2]; simpl in *;
    [intros [= <- <-]; split; [by rewrite Hk|done]| |intros [= <- <-]; split; [by rewrite Hk|done]].
  intros [= <- <-]. split; [by rewrite Hk|]. intros i Hr.
  apply result_bind_Ok in Hr as ([state barrier] & Hins & Hr). apply map_err_Ok in Hins. subst inspected.
  pose proof (inspect_runs _ _ _ _ Hi) as (t & Ht & Hrun).
  apply (inspect_holds _ o) in Hi as [_ Hx]; [|done]. specialize (Hx _ eq_refl). simpl in Hx. subst state.
  apply inspect_barrier in Hrun as [Hb Hn]. rewrite (Ht _) in Hb. simpl in Hb, Hn. rewrite Hb.
  destruct o as [s|]; [by eapply inspection_report_Ok|]. injection Hr as <-. by rewrite Hn.
Qed.
End journal.

(** ** The whole storage *)

Section storage.
Context `{!SurrealTypes, !Engine, !EngineLaws, !Host, !Catalog, !CatalogLaws, !JsonFloatText, !JsonText, !JsonTextLaws, !StateSerde, !StateSerdeLaws, !Ciborium, !Sha256}.

(** Code that never changes the committed contents. *)
Definition observes {E A} (m : io E A) : Prop := ∀ w, same (w_db (m w).2) (w_db w).

Lemma observes_bind {E A B} (m : io E A) (k : A → io E B) :
  observes m → (∀ a, observes (k a)) → observes (io_bind m k).
Proof.
  intros Hm Hk w. unfold io_bind. specialize (Hm w). destruct (m w) as [[a|e] w1]; simpl in *; [|done].
  by rewrite (Hk a w1).
Qed.
Lemma observes_keeps {E A} (m : io E A) : keeps_db m → observes m.
Proof. intros Hm w. by rewrite Hm. Qed.
Lemma observes_then {E F A B} (m : io E A) (k : result A E → io F B) :
  observes m → (∀ r, observes (k r)) → observes (io_then m k).
Proof. intros Hm Hk w. unfold io_then. by rewrite (Hk _ _), (Hm w). Qed.

Lemma inspection_settled_keeps g : keeps_db (settled g).
Proof. unfold settled. repeat (apply keeps_bind || apply keeps_if || intros ? || case_decide || done). Qed.
Lemma keeps_unless b e : keeps_db (unless b e).
Proof. by destruct b. Qed.
Lemma keeps_occupancies g tables t app found : keeps_db (occupancies g tables t app found).
Proof.
  revert found. induction app as [|table app IH]; intros found; simpl; [done|].
  case_decide; [|apply IH]. apply keeps_bind; [done|intros rows].
  apply keeps_bind; [apply inspection_settled_keeps|intros _]. apply IH.
Qed.

(** The steps of a program that succeeded. *)
Lemma io_bind_Ok {E A B} (m : io E A) (k : A → io E B) w b w' :
  io_bind m k w = (Ok b, w') ↔ ∃ a w1, m w = (Ok a, w1) ∧ k a w1 = (Ok b, w').
Proof. unfold io_bind. destruct (m w) as [[a|e] w1]; naive_solver. Qed.
Lemma settled_Ok g w u w1 : settled g w = (Ok u, w1) → w_db w1 = w_db w.
Proof. intros Hs. pose proof (inspection_settled_keeps g w) as Hk. by rewrite Hs in Hk. Qed.
Lemma unless_Ok b e w u w1 : unless b e w = (Ok u, w1) → b = false ∧ w1 = w.
Proof. destruct b; [done|]. by intros [= _ <-]. Qed.
Lemma metadata_of_Ok query w m w1 : metadata_of query w = (Ok m, w1) → w1 = w.
Proof. by intros [= _ <-]. Qed.

(** Unfolds a successful run: the values read and the unchanged database. *)
Ltac io_steps H :=
  repeat match type of H with
  | io_bind _ _ _ = (Ok _, _) =>
      let a := fresh "a" in let w := fresh "w" in let Hm := fresh "Hm" in
      apply io_bind_Ok in H as (a & w & Hm & H);
      first [apply settled_Ok in Hm
            |apply unless_Ok in Hm as [Hm ->]
            |apply metadata_of_Ok in Hm as ->
            |injection Hm as Hm <-
            |idtac]
  end.

Lemma selected_tables_Ok g options app w tables w' :
  selected_tables g options app w = (Ok tables, w') →
  w_db w' = w_db w ∧ tables ⊆ list_to_set (JOURNAL_TABLES ++ [HEADER; PAGE]) ∪ app ∧
  (∀ r x, contents (w_db w) r = Some x → r_table r ∈ tables) ∧
  ∃ names, info_tables (w_db w) = Ok names ∧ tables = list_to_set names.
Proof.
  unfold selected_tables. intros Hs. io_steps Hs. injection Hs as <- <-.
  match goal with H : persistence (info_tables _) = Ok _ |- _ => apply map_err_Ok in H; rename H into Hn end.
  match goal with H : bool_decide (_ ⊈ _) = false |- _ => apply bool_decide_eq_false, dec_stable in H end.
  match type of Hn with info_tables ?d = _ => replace d with (w_db w) in Hn by congruence end.
  split; [congruence|]. split; [done|]. split; [|eauto].
  intros r x Hx. apply elem_of_list_to_set. by eapply info_tables_Ok.
Qed.

(** A row of a table is found, or there is none. *)
Lemma first_row_Ok t table rows :
  db_select_where t table (λ _ _, true) 1 = Ok rows →
  rows ≠ [] ↔ ∃ r x, r_table r = table ∧ contents t r = Some x.
Proof.
  intros (full & _ & Hfull & ->)%db_select_where_Ok. split.
  - destruct full as [|[r x] full]; [done|]. intros _. exists r, x.
    destruct (proj1 (Hfull r x)) as (? & ? & _); [by left|done].
  - intros (r & x & Ht & Hx). destruct full as [|y full]; [|done].
    by destruct (not_elem_of_nil (r, x)); apply Hfull.
Qed.

Definition occupancy_exact (d : db) (t : NativeTableOccupancy) : Prop :=
  to_rows_present t = true ↔ ∃ r x, r_table r = to_table t ∧ contents d r = Some x.

Lemma occupancies_Ok g tables t app found w res w' :
  (∀ r x, contents t r = Some x → r_table r ∈ tables) →
  occupancies g tables t app found w = (Ok res, w') →
  ∃ l, res = found ++ l ∧ to_table <$> l = app ∧ Forall (occupancy_exact t) l ∧
    Forall (λ o, to_schema_present o = true ↔ to_table o ∈ tables) l.
Proof.
  intros Ht. revert found w. induction app as [|table app IH]; intros found w; simpl.
  { intros [= <- _]. exists []. by rewrite app_nil_r. }
  case_decide as Hd.
  - intros Ho. io_steps Ho. apply map_err_Ok in Hm. apply IH in Ho as (l & -> & <- & Hl & Hs).
    eexists. rewrite <-app_assoc. split; [done|]. split; [done|].
    split; [constructor; [|done]|by constructor].
    unfold occupancy_exact. simpl. rewrite bool_decide_eq_true. by apply first_row_Ok.
  - intros Ho. apply IH in Ho as (l & -> & <- & Hl & Hs).
    eexists. rewrite <-app_assoc. split; [done|]. split; [done|].
    split; [constructor; [|done]|by constructor].
    unfold occupancy_exact. simpl. split; [done|]. intros (r & x & <- & Hx). by destruct Hd; eapply Ht.
Qed.

Lemma native_report_Ok options occupied o barrier i :
  native_report options occupied o barrier = Ok i → (o = None → barrier = None) →
  reports o (RowBarrier <$> barrier) i ∧ (occupied = true → i ≠ InsMissing).
Proof.
  unfold native_report. destruct o as [s|].
  2: { destruct occupied; [done|]. intros [= <-] Hb. by rewrite Hb. }
  case_decide; [done|]. intros Hr _. inv_ok.
  repeat match goal with
  | H : map_err _ _ = Ok _ |- _ => apply map_err_Ok in H
  | H : persistence _ = Ok _ |- _ => apply map_err_Ok in H
  end.
  match goal with H : open s = Ok _ |- _ => unfold open in H; apply result_bind_Ok in H as (? & _ & [= <-]) end.
  repeat match goal with H : to_u32 _ = Ok _ |- _ => apply to_u32_Ok in H; subst end.
  match goal with H : inspection_barrier _ _ = Ok _ |- _ => apply inspection_barrier_Ok in H end.
  split; [by exists s|done].
Qed.

(** *** Ownership *)

(** The row [x] at [r], in a table of the journal or of the stage, belongs to the journal
    [key]: its id is made of the key, and of the component or page where there are several
    rows, and the owner the row names is the journal. *)
Definition owned (key : SyncStateKey) (r : rid) (x : row) : Prop :=
  (r_table r ∈ [STATE_TABLE; META_TABLE; BARRIER_TABLE; HEADER] →
     r = array_rid (r_table r) [k_partition_id key; k_client_id key]) ∧
  (r_table r ∉ [STATE_TABLE; META_TABLE; BARRIER_TABLE; HEADER] →
     ∃ k, r = array_rid (r_table r) [k_partition_id key; k_client_id key; k]) ∧
  (r_table r ∉ [BARRIER_TABLE; HEADER] →
     row_owner x = (Some (k_partition_id key), Some (k_client_id key))).

Lemma table_occupied_Ok owner table d present :
  table_occupied owner table d = Ok present →
  ∀ r x, contents d r = Some x → r_table r = table → owner r x = true ∧ present = true.
Proof.
  unfold table_occupied. intros Ht r x Hx Hr.
  apply result_bind_Ok in Ht as (foreign & Hf%map_err_Ok & Ht).
  apply result_bind_Ok in Ht as (rows & Hp%map_err_Ok & Ht).
  revert Ht. case_decide as Hn; [done|]. intros [= <-]. subst foreign. split.
  - apply db_select_where_Ok in Hf as (full & _ & Hfull & Hnil).
    destruct (owner r x) eqn:Ho; [done|]. destruct full as [|y full]; [|done].
    destruct (not_elem_of_nil (r, x)). apply Hfull. by rewrite Ho.
  - apply bool_decide_eq_true. apply (first_row_Ok _ _ _ Hp). eauto.
Qed.

(** The loop over the owned tables: every row of theirs is owned, and counted. *)
Lemma owners_Ok (owner : string → rid → row → bool) (tables : gset string) d l acc res :
  (∀ r x, contents d r = Some x → r_table r ∈ tables) →
  try_fold (λ occupied table,
    if decide (table ∈ tables) then
      let? present := table_occupied (owner table) table d in Ok (occupied || present)
    else Ok occupied) acc l = Ok res →
  (acc = true → res = true) ∧
  ∀ r x, contents d r = Some x → r_table r ∈ l → owner (r_table r) r x = true ∧ res = true.
Proof.
  intros Htab. revert acc. induction l as [|table l IH]; intros acc; simpl.
  { intros [= <-]. split; [done|]. intros r x _ Hr. by apply not_elem_of_nil in Hr. }
  intros (acc' & Hstep & [Hmono Hrest]%IH)%result_bind_Ok. revert Hstep. case_decide as Ht.
  - intros (present & Hocc & [= <-])%result_bind_Ok. split.
    { intros ->. by apply Hmono. }
    intros r x Hx [Hr|Hr]%elem_of_cons; [|by eapply Hrest].
    destruct (table_occupied_Ok _ _ _ _ Hocc r x Hx Hr) as [Ho ->]. rewrite Hr. split; [done|].
    apply Hmono. by rewrite orb_true_r.
  - intros [= <-]. split; [done|]. intros r x Hx [Hr|Hr]%elem_of_cons; [|by eapply Hrest].
    destruct Ht. rewrite <-Hr. by eapply Htab.
Qed.

Lemma journal_owner_owned key r x :
  r_table r ∈ JOURNAL_TABLES → journal_owner key (r_table r) r x = true → owned key r x.
Proof.
  unfold journal_owner, owned. intros Hj. case_decide as Hb.
  { intros Hr%record_key_is_spec. split_and!; [done| |]; intros Hn; exfalso; apply Hn; rewrite Hb.
    - right; right; left.
    - left. }
  intros [Ho%bool_decide_eq_true Hk]%andb_true_iff. split_and!; [| |done].
  - intros Hin. rewrite decide_True in Hk.
    + by apply record_key_is_spec.
    + apply elem_of_cons in Hin as [?|Hin]; [by left|]. apply elem_of_cons in Hin as [?|Hin]; [by right|].
      apply elem_of_cons in Hin as [?|Hin]; [done|]. apply list_elem_of_singleton in Hin.
      exfalso. rewrite Hin in Hj. revert Hj.
      by apply (bool_decide_unpack (HEADER ∉ JOURNAL_TABLES)).
  - intros Hn. rewrite decide_False in Hk by (intros [E|E]; apply Hn; rewrite E; [left|right; left]).
    destruct (row_component_key x) as [k|]; [|done]. exists k.
    apply andb_true_iff in Hk as [[Hk _]%andb_true_iff _]. by apply record_key_is_spec.
Qed.

Lemma stage_owner_owned key r x :
  r_table r ∈ [HEADER; PAGE] → stage_owner key (r_table r) r x = true → owned key r x.
Proof.
  unfold stage_owner, owned. intros Hj. case_decide as Hb.
  { intros Hr%record_key_is_spec. split_and!; [done| |]; intros Hn; exfalso; apply Hn; rewrite Hb.
    - right; right; right; left.
    - right; left. }
  assert (r_table r = PAGE) as Hp.
  { apply elem_of_cons in Hj as [?|Hj%list_elem_of_singleton]; done. }
  rewrite Hp.
  intros [Ho%bool_decide_eq_true Hk]%andb_true_iff. split_and!; [| |done].
  - intros Hin. exfalso. revert Hin.
    by apply (bool_decide_unpack (PAGE ∉ [STATE_TABLE; META_TABLE; BARRIER_TABLE; HEADER])).
  - intros _. destruct (row_index x) as [k|]; [|done]. exists k.
    apply andb_true_iff in Hk as [_ Hk]. apply record_key_is_spec in Hk. by rewrite Hp in Hk.
Qed.

(** What the inspection of a storage with the contents [d] may report. *)
Definition storage_report (options : NativeStorageInspectionOptions) (o : option StoredSyncState)
    (d : db) (i : NativeStorageInspection) : Prop :=
  let key := options_key (io_expected_journal options) in
  match i with
  | PristineUnselected => ∀ r, contents d r = None
  | Selected native tables =>
      reports o (contents d (scope_barrier_record_id key)) native ∧
      (∀ r x, contents d r = Some x →
         r_table r ∈ JOURNAL_TABLES ++ [HEADER; PAGE] ++ io_application_tables options) ∧
      (∀ r x, contents d r = Some x → r_table r ∈ JOURNAL_TABLES ++ [HEADER; PAGE] →
         owned key r x ∧ native ≠ InsMissing) ∧
      to_table <$> tables =
        merge_sort String.le (elements (list_to_set (io_application_tables options) : gset string)) ∧
      Forall (occupancy_exact d) tables
  end.

(** The tables the catalog of [d] lists are the storage's own, and the report says of each
    application table whether it is one of them. *)
Definition schema_report (options : NativeStorageInspectionOptions) (d : db)
    (i : NativeStorageInspection) : Prop :=
  match i with
  | PristineUnselected => True
  | Selected _ tables => ∃ names, info_tables d = Ok names ∧
      names ⊆ JOURNAL_TABLES ++ [HEADER; PAGE] ++ io_application_tables options ∧
      Forall (λ t, to_schema_present t = true ↔ to_table t ∈ names) tables
  end.

#[export] Instance storage_report_proper options o :
  Proper (same ==> eq ==> iff) (storage_report options o).
Proof.
  assert (∀ d d' i, same d d' → storage_report options o d i → storage_report options o d' i) as Himp.
  { intros d d' [|native tables] E; simpl; [intros Hn r; by rewrite <-(E r)|].
    intros (? & Hrows & Hown & ? & Hl). split_and!; [by rewrite <-(E _)| | |done|].
    - intros r x. rewrite <-(E r). apply Hrows.
    - intros r x. rewrite <-(E r). apply Hown.
    - eapply Forall_impl; [exact Hl|]. intros t Ht. unfold occupancy_exact in *. rewrite Ht.
      split; intros (r & x & ? & Hx); exists r, x; (split; [done|]); [by rewrite <-(E r)|by rewrite (E r)]. }
  intros d d' E ? i ->. split; apply Himp; done || by symmetry.
Qed.

Lemma keeps_inspect_selected g options app tables key t :
  keeps_db (inspect_selected g options app tables key t).
Proof.
  unfold inspect_selected. repeat (apply keeps_bind; [first [done|apply inspection_settled_keeps]|intros ?]).
  repeat (case_match || apply inspection_settled_keeps || apply keeps_occupancies || apply keeps_bind || intros ? || done).
Qed.

(** What the two ownership inspections establish. *)
Lemma journal_owners_Ok tables key d occupied :
  (∀ r x, contents d r = Some x → r_table r ∈ tables) →
  journal_inspect_all_owners tables key d = Ok occupied →
  ∀ r x, contents d r = Some x → r_table r ∈ JOURNAL_TABLES → owned key r x ∧ occupied = true.
Proof.
  intros Htab Ho r x Hx Hr. apply (owners_Ok (journal_owner key)) in Ho as [_ Ho]; [|done].
  destruct (Ho r x Hx Hr) as [? ->]. split; [by apply journal_owner_owned|done].
Qed.

Lemma stage_owners_Ok tables key d occupied :
  (∀ r x, contents d r = Some x → r_table r ∈ tables) →
  stage_inspect_all_owners tables key d = Ok occupied →
  ∀ r x, contents d r = Some x → r_table r ∈ [HEADER; PAGE] → owned key r x ∧ occupied = true.
Proof.
  unfold stage_inspect_all_owners. intros Htab Ho r x Hx Hr. revert Ho.
  destruct (decide (bool_decide _ ≠ _)); [done|]. intros (present & Hp & Ho)%result_bind_Ok. apply result_bind_Ok in Ho as (? & _ & Ho).
  apply (owners_Ok (stage_owner key)) in Hp as [_ Hp]; [|done].
  destruct (Hp r x Hx Hr) as [? ->]. split; [by apply stage_owner_owned|].
  simpl in Ho. destruct (decide (HEADER ∉ tables ∨ _)); [done|]. by inv_ok.
Qed.

Lemma inspect_selected_Ok g options tables o t w i w' :
  holds t (options_key (io_expected_journal options)) o →
  (∀ r x, contents t r = Some x → r_table r ∈ tables) →
  tables ⊆ list_to_set (JOURNAL_TABLES ++ [HEADER; PAGE]) ∪ list_to_set (io_application_tables options) →
  inspect_selected g options (list_to_set (io_application_tables options)) tables
    (options_key (io_expected_journal options)) t w = (Ok i, w') →
  storage_report options o t i ∧
  ∃ native l, i = Selected native l ∧
    Forall (λ o, to_schema_present o = true ↔ to_table o ∈ tables) l.
Proof.
  intros Hh Htab Hsub Hi. unfold inspect_selected in Hi. io_steps Hi. destruct a3 as [state barrier].
  io_steps Hi. injection Hi as <- <-.
  match goal with H : map_err state_error (journal_inspect_all_owners _ _ _) = Ok _ |- _ =>
    apply map_err_Ok in H; pose proof (journal_owners_Ok _ _ _ _ Htab H) as Hjo end.
  match goal with H : map_err state_error (stage_inspect_all_owners _ _ _) = Ok _ |- _ =>
    apply map_err_Ok in H; pose proof (stage_owners_Ok _ _ _ _ Htab H) as Hso end.
  apply map_err_Ok in Hm3.
  assert (sees (Inspection tables) t) as Hsees.
  { intros r Hs. simpl in Hs. apply bool_decide_eq_true in Hs.
    destruct (contents t r) as [x|] eqn:Hx; [|done]. by destruct Hs; eapply Htab. }
  destruct (inspect_known_barrier _ _ _ _ Hsees Hm3) as [Hbar Hnone].
  apply native_report_Ok in Hm5 as [Hrep Hocc]; [|done].
  apply (inspect_known_holds _ _ o) in Hm3; [|done..]. simpl in Hm3, Hbar. subst state.
  apply occupancies_Ok in Hm6 as (l & -> & Hl & Hex & Hsch); [|done].
  split; [|by do 2 eexists]. split_and!; [by rewrite Hbar| | |done|done].
  - intros r x Hx. specialize (Hsub _ (Htab _ _ Hx)). rewrite app_assoc.
    rewrite elem_of_union, !elem_of_list_to_set in Hsub. by rewrite elem_of_app.
  - intros r x Hx [Hr|Hr]%elem_of_app.
    + destruct (Hjo r x Hx Hr) as [? ->]. split; [done|]. by apply Hocc.
    + destruct (Hso r x Hx Hr) as [? ->]. split; [done|]. apply Hocc. by rewrite orb_true_r.
Qed.

Lemma inspect_in_transaction_Ok g options app tables key w r w' :
  inspect_in_transaction g options app tables key w = (r, w') →
  same (w_db w') (w_db w) ∧
  ∀ i, r = Ok i → ∃ t w1, same t (w_db w) ∧ inspect_selected g options app tables key t w = (Ok i, w1).
Proof.
  unfold inspect_in_transaction, io_bind at 1, io_read.
  destruct (db_begin (w_db w)) as [t|e] eqn:Hb; simpl; [|by intros [= <- <-]].
  unfold io_then. pose proof (keeps_inspect_selected g options app tables key t w) as Hk.
  destruct (inspect_selected g options app tables key t w) as [res w1] eqn:Hi. simpl in *.
  destruct (db_cancel (w_db w1) t) as [c d] eqn:Hc.
  assert (same d (w_db w)) as Hd by (rewrite <-Hk; intros x; by eapply db_cancel_any).
  intros Hr. split.
  - assert (keeps_db (let~ _ := settled g in let~ _ := io_lift (persistence c) in io_lift res)) as Hkeep.
    { repeat (apply inspection_settled_keeps || apply keeps_bind || intros ? || done). }
    specialize (Hkeep (mkWorld d (w_time w1))). rewrite Hr in Hkeep. simpl in Hkeep. by rewrite Hkeep.
  - intros i ->. io_steps Hr. injection Hr as -> _. exists t, w1.
    split; [intros x; by eapply db_begin_Ok|done].
Qed.

Lemma storage_transaction_Ok g options o w r w' :
  let key := options_key (io_expected_journal options) in
  holds (w_db w) key o →
  storage_inspect_transaction g options (list_to_set (io_application_tables options)) key w = (r, w') →
  same (w_db w') (w_db w) ∧
  ∀ i, r = Ok i → storage_report options o (w_db w) i ∧ schema_report options (w_db w) i.
Proof.
  intros key Hh Hr.
  assert (observes (storage_inspect_transaction g options (list_to_set (io_application_tables options)) key))
    as Hobs.
  { unfold storage_inspect_transaction, selected_tables.
    repeat (apply observes_bind; [try (apply observes_keeps; first [done|apply inspection_settled_keeps|apply keeps_unless])|intros ?]).
    case_decide; [done|]. apply observes_bind; [apply observes_keeps, keeps_unless|intros _].
    apply observes_bind; [|intros tables w1].
    - apply observes_keeps. repeat (apply inspection_settled_keeps || apply keeps_unless || apply keeps_bind || intros ? || done).
    - destruct (inspect_in_transaction _ _ _ _ _ w1) as [r1 w2] eqn:He.
      by apply inspect_in_transaction_Ok in He as [? _]. }
  split; [specialize (Hobs w); by rewrite Hr in Hobs|]. intros i ->.
  unfold storage_inspect_transaction in Hr. io_steps Hr.
  apply map_err_Ok in Hm, Hm1. subst a. case_decide as Hns.
  { injection Hr as <- <-. subst. simpl. split; [by eapply info_root_Ok|done]. }
  io_steps Hr. destruct (selected_tables_Ok _ _ _ _ _ _ Hm3) as (Hd & Hsub & Htab & names & Hn & ->).
  apply inspect_in_transaction_Ok in Hr as [_ Hr].
  destruct (Hr _ eq_refl) as (t & w4 & Ht & Hi). clear Hr.
  rewrite Hd, Hm0 in Ht. rewrite Hm0 in Htab, Hn.
  apply (inspect_selected_Ok _ _ _ o) in Hi as [Hrep (native & l & -> & Hsch)];
    [|by rewrite Ht| |done]; cycle 1.
  { intros r x. rewrite (Ht r). apply Htab. }
  split; [by rewrite <-Ht|]. exists names. split; [done|]. split.
  - intros name Hin. rewrite app_assoc, elem_of_app.
    specialize (Hsub name). rewrite elem_of_union, !elem_of_list_to_set in Hsub. by apply Hsub.
  - eapply Forall_impl; [exact Hsch|]. intros x. simpl. by rewrite elem_of_list_to_set.
Qed.

Lemma inspection_options_Ok embedded options app :
  inspection_options embedded options = Ok app → app = list_to_set (io_application_tables options).
Proof. unfold inspection_options. intros Ho. inv_ok. done. Qed.

(** Code whose reports on a storage that holds [o] are right. *)
Definition exact (options : NativeStorageInspectionOptions) (o : option StoredSyncState)
    (m : io NativeStorageInspectionError NativeStorageInspection) : Prop :=
  ∀ w r w', holds (w_db w) (options_key (io_expected_journal options)) o → m w = (r, w') →
  same (w_db w') (w_db w) ∧
  ∀ i, r = Ok i → storage_report options o (w_db w) i ∧ schema_report options (w_db w) i.

Lemma exact_after {A} options o (m : io NativeStorageInspectionError A) k :
  keeps_db m → (∀ a, exact options o (k a)) → exact options o (io_bind m k).
Proof.
  intros Hm Hk w r w' Hh Hr. specialize (Hm w).
  apply io_bind_inv in Hr as [(e & w1 & He & [= -> ->])|(a & w1 & He & Hr)]; rewrite He in Hm; simpl in Hm;
    rewrite <-Hm in *; [done|by eapply Hk].
Qed.

Lemma exact_transaction g options o :
  exact options o (io_then (storage_inspect_transaction g options
    (list_to_set (io_application_tables options)) (options_key (io_expected_journal options)))
    (λ result, let~ _ := settled g in io_lift result)).
Proof.
  intros w r w' Hh. unfold io_then.
  destruct (storage_inspect_transaction _ _ _ _ w) as [res w1] eqn:Ht. simpl.
  apply (storage_transaction_Ok _ _ o) in Ht as [Hsame Hrep]; [|done].
  pose proof (inspection_settled_keeps g w1) as Hk.
  intros [(e & w2 & He & [= -> ->])|(u & w2 & He & [= -> <-])]%io_bind_inv; rewrite He in Hk; simpl in Hk;
    by rewrite Hk.
Qed.

(** C15: An inspection of the storage never writes and what it reports is true.  A storage
    reported as pristine has no record at all.  A storage reported as selected has tables
    and records only in the journal's, the stage's and the application's own tables, and
    every record of the journal's and the stage's tables carries the journal's own key in
    its id and its owner fields.  The journal it reports as missing is not stored, and then
    those tables have no record at all; one it reports as present is stored with exactly
    these counts, under exactly the barrier of its barrier row.  Of each application table
    it says whether it is defined and whether it has rows. *)
Theorem storage_inspection_exact embedded options o w r w' :
  holds (w_db w) (options_key (io_expected_journal options)) o →
  inspect_storage embedded options w = (r, w') →
  same (w_db w') (w_db w) ∧
  ∀ i, r = Ok i → storage_report options o (w_db w) i ∧ schema_report options (w_db w) i.
Proof.
  intros Hh. unfold inspect_storage, io_bind at 1, io_lift at 1.
  destruct (inspection_options embedded options) as [app|e] eqn:Ho; [|by intros [= <- <-]].
  apply inspection_options_Ok in Ho as ->. intros Hr. revert Hh Hr. revert w r w'.
  match goal with |- ∀ w r w', _ → ?m w = _ → _ => change (exact options o m) end.
  apply exact_after; [done|intros g]. do 2 (apply exact_after; [apply inspection_settled_keeps|intros _]).
  apply exact_after; [apply keeps_map_err, keeps_database_client|intros _].
  apply exact_after; [apply inspection_settled_keeps|intros _]. apply exact_transaction.
Qed.
End storage.

(** ** The storage in memory *)

Definition root_value (namespaces : list (string * SValue)) : SValue :=
  SvObject [("accesses", SvObject []); ("config", SvObject [("QUERY_TIMEOUT", SvNone)]);
            ("defaults", SvObject []); ("namespaces", SvObject namespaces);
            ("nodes", SvObject []); ("system", SvObject []); ("users", SvObject [])].

(** One namespace with one database, unless nothing was ever written. *)
#[export] Instance memory_catalog : Catalog := {|
  info_root d := Ok (Ok (root_value
    match mem_writes d with [] => [] | _ => [("app", SvObject [])] end));
  info_ns _ := Ok (Some (mkMetadata 1 true));
  info_ns_is _ name := Ok (Some (bool_decide (name = "main")));
  info_db d := Ok (Some (mkMetadata (N.of_nat (size (mem_tables d))) true));
  info_names_bounded _ := Ok (Some true);
  info_tables d := Ok (elements (mem_tables d ∪ list_to_set (r_table <$> (mem_writes d).*1)));
|}.
#[export] Instance memory_catalog_laws : CatalogLaws.
Proof.
  split.
  - intros d root [= <-] Hn r. unfold contents. simpl. unfold mem_contents.
    destruct (mem_writes d); [done|]. by vm_compute in Hn.
  - intros d names r x [= <-] Hx. apply elem_of_elements, elem_of_union. right.
    apply elem_of_list_to_set, list_elem_of_fmap. exists r. split; [done|].
    exact (mem_contents_written d r x Hx).
Qed.

Lemma nx_applied_holds : holds (w_db nx_applied) nx_key (Some nx_first).
Proof.
  destruct nx_holds_saved as [Hst Hrec].
  apply (transition_holds nx_key nx_empty nx_first (w_db nx_world)); [done|done|].
  destruct (apply_transition_atomic (Some 0%N) nx_empty nx_first nx_world) as [r w] eqn:Ha.
  assert (r = Ok Applied) as -> by (apply (f_equal fst) in Ha; vm_compute in Ha; done).
  pose proof Ha as Ha'. apply (f_equal snd) in Ha'. fold nx_applied in Ha'. rewrite Ha'.
  apply (transition_outcome_holds _ _ _ nx_empty) in Ha as (_ & _ & Ht);
    [done|exact Hst|by apply fixture_storable|apply fixture_outside].
Qed.

Definition nx_inspection : NativeStorageInspectionOptions :=
  mkInspectionOptions "app" "main" nx_options ["item"].
Definition nx_inspected : NativeStorageInspection :=
  Selected (InsPresent 1 1 0 0 IbNone) [mkOccupancy "item" true true].

Lemma storage_inspection_exact_witness :
  (inspect_storage true nx_inspection nx_applied).1 = Ok nx_inspected ∧
  same (w_db (inspect_storage true nx_inspection nx_applied).2) (w_db nx_applied) ∧
  storage_report nx_inspection (Some nx_first) (w_db nx_applied) nx_inspected ∧
  schema_report nx_inspection (w_db nx_applied) nx_inspected.
Proof.
  assert ((inspect_storage true nx_inspection nx_applied).1 = Ok nx_inspected) as Hr by (vm_compute; reflexivity).
  split; [exact Hr|].
  destruct (storage_inspection_exact true nx_inspection (Some nx_first) nx_applied
    (inspect_storage true nx_inspection nx_applied).1 (inspect_storage true nx_inspection nx_applied).2)
    as [Hs Hi]; [exact nx_applied_holds|apply surjective_pairing|].
  split; [exact Hs|]. exact (Hi _ Hr).
Defined.
