(* ===== verification/SubscriptionJournalProps.v ===== *)
(** * The subscription journal stays within its limits.

    Every history counts the bytes of its frames; recording drops old frames until the
    history and then the whole journal fit. *)

From S2P Require Import Prelude Protocol Subscription ClientState SubscriptionClient NativeErrors Json Wire Canonical SubscriptionCodec NativeCodec ReadJournal SubscriptionJournal JournalProps.

(** One history: its byte count is exact and it is within the limits of a query. *)
Record history_sized (h : History) : Prop := {
  hs_bytes : hi_bytes h = batches_bytes (hi_batches h);
  hs_max_bytes : (hi_bytes h ≤ MAX_QUERY_BYTES)%N;
  hs_len : (vec_len (hi_batches h) ≤ SUB_MAX_BATCHES)%N;
}.
Abbreviation histories_sized := (map_Forall (λ (_ : string) h, history_sized h)).

Lemma history_empty_sized : history_sized (mkHistory [] 0).
Proof. by split. Qed.

Lemma pop_front_sized h : history_sized h → history_sized (pop_front h).
Proof.
  intros [Hb Hm Hl]. unfold pop_front. destruct (hi_batches h) as [|b bs] eqn:He; [by split; rewrite ?He|].
  simpl in Hb. unfold vec_len in Hl. simpl in Hl.
  assert (wrapping_sub_u64 (hi_bytes h) (str_len (ba_json b)) = batches_bytes bs) as Hs.
  { rewrite wrapping_sub_exact; [lia|lia|]. unfold is_u64, u64_max, MAX_QUERY_BYTES in *. lia. }
  split; simpl; rewrite ?Hs; [done|lia|unfold vec_len; lia].
Qed.

(** ** The aggregate loop *)

Lemma total_batches_insert hs id h :
  hs !! id = None → total_batches (<[id := h]> hs) = length (hi_batches h) + total_batches hs.
Proof.
  intros Hid. unfold total_batches. set (f := λ (kv : string * History) n, length (hi_batches kv.2) + n).
  assert (∀ l l', l ≡ₚ l' → foldr f 0 l = foldr f 0 l') as Hperm.
  { induction 1; simpl; unfold f in *; lia. }
  rewrite (Hperm _ _ (btree_entries_perm _)), (Hperm _ _ (map_to_list_insert _ _ h Hid)). simpl.
  by rewrite <-(Hperm _ _ (btree_entries_perm hs)).
Qed.

Lemma total_batches_lookup hs id h :
  hs !! id = Some h → total_batches hs = length (hi_batches h) + total_batches (delete id hs).
Proof.
  intros Hh. rewrite <-(insert_delete_id hs id h) at 1 by done.
  apply total_batches_insert, lookup_delete_eq.
Qed.

Lemma total_batches_pop hs id h :
  hs !! id = Some h → hi_batches h ≠ [] → S (total_batches (alter pop_front id hs)) = total_batches hs.
Proof.
  intros Hh Hne. rewrite (total_batches_lookup hs id h Hh).
  rewrite (total_batches_lookup (alter pop_front id hs) id (pop_front h)) by (by rewrite lookup_alter_eq, Hh).
  rewrite delete_alter_eq. unfold pop_front. by destruct (hi_batches h).
Qed.

Lemma oldest_history_Some hs id r :
  oldest_history hs = Some (id, r) → ∃ h, hs !! id = Some h ∧ hi_batches h ≠ [].
Proof.
  unfold oldest_history. setoid_rewrite <-elem_of_btree_entries. generalize (btree_entries hs). intros l.
  assert (∀ best, foldl (λ best kv,
    match head (hi_batches kv.2), best with
    | None, _ => best
    | Some b, None => Some (kv.1, ba_revision b)
    | Some b, Some (_, r) => if (ba_revision b <? r)%N then Some (kv.1, ba_revision b) else best
    end) best l = Some (id, r) →
    best = Some (id, r) ∨ ∃ h, (id, h) ∈ l ∧ hi_batches h ≠ []) as Hgen.
  { induction l as [|[k h] l IH]; intros best Hf; [by left|]. simpl in Hf.
    apply IH in Hf as [Hf|(h' & Hin & Hne)]; [|right; exists h'; split; [by right|done]].
    destruct (hi_batches h) as [|b bs] eqn:Hb; [by left|]. simpl in Hf.
    assert (k = id → ∃ h0, (id, h0) ∈ (k, h) :: l ∧ hi_batches h0 ≠ []) as Hk.
    { intros ->. exists h. split; [by left|by rewrite Hb]. }
    destruct best as [[k' r']|]; [case_match|]; try (injection Hf as -> _; right; by apply Hk). by left. }
  intros Hf. by apply Hgen in Hf as [?|?].
Qed.

Lemma oldest_history_None hs : total_batches hs = 0 → oldest_history hs = None.
Proof.
  destruct (oldest_history hs) as [[id r]|] eqn:Ho; [|done].
  apply oldest_history_Some in Ho as (h & Hh & Hne). rewrite (total_batches_lookup _ _ _ Hh).
  destruct (hi_batches h); [done|]. simpl. lia.
Qed.

(** With the number of batches as fuel the loop runs to its end: the histories fit the
    aggregate limit, or nothing is left to drop. *)
Lemma evict_total_ends n hs :
  total_batches hs ≤ n →
  (histories_bytes (evict_total n hs) ≤ MAX_TOTAL_BYTES)%N ∨ oldest_history (evict_total n hs) = None.
Proof.
  revert hs. induction n as [|n IH]; intros hs Hn; simpl.
  { right. apply oldest_history_None. lia. }
  destruct (N.ltb_spec MAX_TOTAL_BYTES (histories_bytes hs)); [|by left].
  destruct (oldest_history hs) as [[id r]|] eqn:Ho; [|by right].
  apply oldest_history_Some in Ho as (h & Hh & Hne). apply IH.
  pose proof (total_batches_pop hs id h Hh Hne). lia.
Qed.

Lemma oldest_history_all hs id h :
  oldest_history hs = None → hs !! id = Some h → hi_batches h = [].
Proof.
  intros Ho Hh. destruct (decide (total_batches hs = 0)) as [Hz|Hz].
  - rewrite (total_batches_lookup _ _ _ Hh) in Hz. destruct (hi_batches h); [done|]. simpl in Hz. lia.
  - exfalso. apply Hz. clear Hh Hz. revert Ho. unfold oldest_history, total_batches.
    generalize (btree_entries hs). intros l.
    set (step := λ (best : option (string * N)) (kv : string * History), _).
    assert (∀ best, foldl step best l = None →
      best = None ∧ foldr (λ kv n, length (hi_batches kv.2) + n) 0 l = 0) as Hgen.
    { induction l as [|[k h'] l IH]; intros best Hf; [done|]. simpl in Hf. apply IH in Hf as [Hf Hz].
      simpl. rewrite Hz. unfold step in Hf. simpl in Hf. destruct (hi_batches h'); simpl in *; [done|].
      destruct best as [[? ?]|]; [case_match|]; done. }
    intros Hf. by apply Hgen in Hf as [_ ?].
Qed.

Lemma evict_total_sized n hs : histories_sized hs → histories_sized (evict_total n hs).
Proof.
  revert hs. induction n as [|n IH]; intros hs Hs; simpl; [done|]. case_match; [|done].
  destruct (oldest_history hs) as [[id r]|]; [|done]. apply IH. intros k h.
  rewrite lookup_alter. case_decide; [|apply Hs]. intros (h' & Hh & ->)%fmap_Some.
  by eapply pop_front_sized, Hs.
Qed.

Lemma evict_total_fits hs :
  histories_sized hs → (histories_bytes (evict_total (total_batches hs) hs) ≤ MAX_TOTAL_BYTES)%N.
Proof.
  intros Hs. destruct (evict_total_ends (total_batches hs) hs) as [?|Ho]; [lia|done|].
  pose proof (evict_total_sized (total_batches hs) hs Hs) as Hs'.
  set (hs' := evict_total _ hs) in *.
  assert (Forall (λ kv : string * History, hi_bytes kv.2 = 0%N) (btree_entries hs')) as Hz.
  { apply Forall_forall. intros [k h] Hh%elem_of_btree_entries. simpl.
    rewrite (hs_bytes _ (Hs' _ _ Hh)). by rewrite (oldest_history_all _ _ _ Ho Hh). }
  unfold histories_bytes. induction Hz as [|x l Hx _ IH]; simpl; [done|]. rewrite Hx. lia.
Qed.

(** ** Recording *)

Section record.
Context `{!SurrealTypes, !Ciborium, !Serde SubscriptionRequest, !Serde (SubscriptionResponse CborValue)}.
Context `{!SerdeJson JsonValue, !SerdeJson SubscriptionRequest, !SerdeJson (SubscriptionResponse JsonValue), !SerdeJson SubscriptionCursor}.
Implicit Types runtime : DurableClientState JsonValue.

Lemma record_history_sized runtime before hs id :
  histories_sized hs → histories_sized (record_history runtime before hs id).
Proof.
  intros Hs. apply map_Forall_insert_2; [|done].
  assert (history_sized (default (mkHistory [] 0) (hs !! id))) as [Hb Hm Hl].
  { destruct (hs !! id) as [h|] eqn:Hh; [by apply (Hs _ _ Hh)|apply history_empty_sized]. }
  set (h := default _ _) in *.
  destruct (encode_frame runtime before id) as [text|]; [|apply history_empty_sized].
  destruct (N.ltb_spec MAX_QUERY_BYTES (str_len text)); [apply history_empty_sized|].
  destruct (evict_fits SUB_MAX_BATCHES MAX_QUERY_BYTES (str_len text) (hi_batches h))
    as (k & He & Hroom & Hfit); [done|done| |].
  { rewrite <-Hb. unfold is_u64, u64_max, MAX_QUERY_BYTES in *. lia. }
  rewrite Hb, He. split; simpl; [by rewrite batches_bytes_snoc|lia|].
  unfold vec_len in *. rewrite length_app. simpl. lia.
Qed.

(** The journals a client can have: recording states and rotating epochs. *)
Inductive recorded : SubscriptionJournal → Prop :=
| rec_default prefix : recorded (sub_journal_default prefix)
| rec_record j runtime before : recorded j → recorded (sub_record j runtime before)
| rec_rotate j j' : recorded j → sub_rotate j = Ok j' → recorded j'.

(** The subscription journal is bounded: in every journal a client can have, each history
    counts its bytes exactly, holds at most [SUB_MAX_BATCHES] frames and
    [MAX_QUERY_BYTES] bytes, and all histories together hold at most
    [MAX_TOTAL_BYTES]. *)
Theorem sub_journal_bounded j :
  recorded j →
  histories_sized (sj_histories j) ∧ (histories_bytes (sj_histories j) ≤ MAX_TOTAL_BYTES)%N.
Proof.
  induction 1 as [prefix|j runtime before _ [Hs Hb]|j j' _ _ Hr].
  - split; [apply map_Forall_empty|done].
  - unfold sub_record. case_decide; [done|]. destruct (st_subscriptions runtime) as [state|]; [|done].
    set (hs := foldl _ _ _). assert (histories_sized hs) as Hhs.
    { unfold hs. clear hs Hb. revert Hs. generalize (sj_histories j).
      induction (subscription_ids state) as [|id ids IH]; intros m Hm; simpl; [done|].
      by apply IH, record_history_sized. }
    split; [by apply evict_total_sized|by apply evict_total_fits].
  - unfold sub_rotate in Hr. apply result_bind_Ok in Hr as (e & _ & [= <-]).
    split; [apply map_Forall_empty|done].
Qed.
End record.
