(* ===== verification/Handle.v ===== *)
(** * The database handle.

    Models the stateful part of [crates/surrealdb-rn-core/src/lib.rs]: [SurrealDatabase]
    with its session changes and [close], [SurrealTransaction] and [LiveQuery] with their
    [Drop], and the runtime guard of [sync_client.rs], which holds the lifecycle lock for
    reading while an operation of a sync client checks the session and works in it.

    The methods run concurrently.  Each is a sequence of atomic steps, cut where the source
    awaits, takes a lock or touches an atomic; a program counter [pc] says where a call is
    and what it remembers.  [advance] runs one step of one call, [None] when it has to
    wait for a lock; a [reply] is what the engine answers.  Interleaving is the choice of
    which call moves, so every order in which waiting calls get a lock is covered.  Not
    covered: a call whose future is dropped half way, and poisoned standard mutexes. *)

From S2P Require Import Prelude NativeErrors.

(** ** Objects *)

(** How a transaction was ended at the engine. *)
Inductive TxEnd := EndCommit | EndCancel.

Record SurrealTransaction := mkTransaction {
  (** [inner] holds the native transaction *)
  tn_inner : bool;
  (** the mutex of [inner] is held by a query *)
  tn_locked : bool;
  tn_closed : bool;
  (** the calls that ended it *)
  tn_ends : list TxEnd;
}.

Record LiveQuery := mkLive {
  lq_stream : bool;
  lq_locked : bool;
  lq_response : bool;
  lq_client : bool;
  lq_closed : bool;
  lq_close_signal : bool;
}.

(** [journal_lifecycle: AsyncRwLock<()>] *)
Record lifecycle := mkLifecycle { lc_readers : nat; lc_writer : bool }.

(** [sync_runtimes] is [Registry], [embedded] is fixed by [Surface.connect]. *)
Record SurrealDatabase := mkDatabase {
  (** the client in [inner], and whether its write lock is held *)
  sd_inner : bool;
  sd_inner_locked : bool;
  sd_lifecycle : lifecycle;
  sd_session_generation : N;
  sd_live_queries : list nat;
  sd_transactions : list nat;
  sd_closed : bool;
  (** the session of the SDK client: how often it was changed *)
  sd_session : nat;
}.

(** The handle and the objects it has given out; [Weak] references to the dropped ones are
    not upgraded. *)
Record system := mkSystem {
  sy_database : SurrealDatabase;
  sy_transactions : gmap nat SurrealTransaction;
  sy_live : gmap nat LiveQuery;
  sy_next : nat;
}.

Definition set_database (f : SurrealDatabase → SurrealDatabase) (s : system) : system :=
  mkSystem (f (sy_database s)) (sy_transactions s) (sy_live s) (sy_next s).
Definition set_transaction (id : nat) (f : SurrealTransaction → SurrealTransaction) (s : system) : system :=
  mkSystem (sy_database s) (alter f id (sy_transactions s)) (sy_live s) (sy_next s).
Definition set_live (id : nat) (f : LiveQuery → LiveQuery) (s : system) : system :=
  mkSystem (sy_database s) (sy_transactions s) (alter f id (sy_live s)) (sy_next s).

Definition set_inner (b locked : bool) (d : SurrealDatabase) : SurrealDatabase :=
  mkDatabase b locked (sd_lifecycle d) (sd_session_generation d) (sd_live_queries d)
    (sd_transactions d) (sd_closed d) (sd_session d).
Definition set_lifecycle (l : lifecycle) (d : SurrealDatabase) : SurrealDatabase :=
  mkDatabase (sd_inner d) (sd_inner_locked d) l (sd_session_generation d) (sd_live_queries d)
    (sd_transactions d) (sd_closed d) (sd_session d).
Definition set_generation (g : N) (d : SurrealDatabase) : SurrealDatabase :=
  mkDatabase (sd_inner d) (sd_inner_locked d) (sd_lifecycle d) g (sd_live_queries d)
    (sd_transactions d) (sd_closed d) (sd_session d).
Definition set_registries (live transactions : list nat) (d : SurrealDatabase) : SurrealDatabase :=
  mkDatabase (sd_inner d) (sd_inner_locked d) (sd_lifecycle d) (sd_session_generation d) live
    transactions (sd_closed d) (sd_session d).
Definition set_closed (d : SurrealDatabase) : SurrealDatabase :=
  mkDatabase (sd_inner d) (sd_inner_locked d) (sd_lifecycle d) (sd_session_generation d)
    (sd_live_queries d) (sd_transactions d) true (sd_session d).
Definition next_session (d : SurrealDatabase) : SurrealDatabase :=
  mkDatabase (sd_inner d) (sd_inner_locked d) (sd_lifecycle d) (sd_session_generation d)
    (sd_live_queries d) (sd_transactions d) (sd_closed d) (S (sd_session d)).

Definition close_transaction (t : SurrealTransaction) : SurrealTransaction :=
  mkTransaction (tn_inner t) (tn_locked t) true (tn_ends t).
Definition lock_transaction (locked : bool) (t : SurrealTransaction) : SurrealTransaction :=
  mkTransaction (tn_inner t) locked (tn_closed t) (tn_ends t).
(** [inner.lock().await.take()] and the call that ends the native transaction *)
Definition take_transaction (e : TxEnd) (t : SurrealTransaction) : SurrealTransaction :=
  mkTransaction false (tn_locked t) (tn_closed t)
    (if tn_inner t then tn_ends t ++ [e] else tn_ends t).

(** [LiveQuery::request_close]: [closed.swap], and the signal the first time *)
Definition request_close (l : LiveQuery) : LiveQuery :=
  mkLive (lq_stream l) (lq_locked l) (lq_response l) (lq_client l) true
    (lq_close_signal l || negb (lq_closed l)).
Definition take_stream (l : LiveQuery) : LiveQuery :=
  mkLive false (lq_locked l) (lq_response l) (lq_client l) (lq_closed l) (lq_close_signal l).
Definition take_response_client (l : LiveQuery) : LiveQuery :=
  mkLive (lq_stream l) (lq_locked l) false false (lq_closed l) (lq_close_signal l).
Definition lock_live (locked : bool) (l : LiveQuery) : LiveQuery :=
  mkLive (lq_stream l) locked (lq_response l) (lq_client l) (lq_closed l) (lq_close_signal l).

(** ** Calls *)

(** What a call returns. *)
Inductive answer :=
| AnsUnit
| AnsTransaction (id : nat)
| AnsLive (id : nat)
| AnsResults
| AnsNotification (some : bool)
(** an operation of a sync client with this generation worked in this session *)
| AnsWorked (generation : N) (session : nat)
(** [NativeSyncError::RecoveryRequired] of [ensure_session] *)
| AnsRecoveryRequired.
Abbreviation outcome := (result answer SurrealRnError).

(** What happens after [SurrealTransaction::cancel_inner]: the caller's own cancellation, a
    refused [begin_transaction], or the loop of [close] over the remaining transactions. *)
Inductive cancelling :=
| CancelOne
| CancelRefused
| CancelClosing (session_result : result unit SurrealRnError) (rest : list nat).

(** After [LiveQuery::close_inner]. *)
Inductive live_closing :=
| LiveOne
| LiveClosing (session_result : result unit SurrealRnError) (rest : list nat).

(** What needs a client: a transaction, a query, a live query. *)
Inductive client_use := UseBegin | UseQuery | UseLive.

Inductive pc :=
(** [SurrealDatabase::client] and its users *)
| PClientClosed (u : client_use)
| PClientInner (u : client_use)
| PUse (u : client_use)
| PRegisterTransaction (id : nat)
| PRegisterLive (id : nat)
(** [SurrealTransaction] *)
| PTxQuery (id : nat)
| PTxLock (id : nat)
| PTxRun (id : nat)
| PCommit (id : nat)
| PCommitTake (id : nat)
| PCancel (id : nat) (k : cancelling)
| PCancelTake (id : nat) (k : cancelling)
(** [LiveQuery] *)
| PNext (id : nat)
| PNextLock (id : nat)
| PNextSelect (id : nat)
| PLiveClose (id : nat) (k : live_closing)
| PLiveTake (id : nat) (k : live_closing)
| PLiveDrop (id : nat) (k : live_closing)
(** session changes: [begin_session_change], then the change under the write locks *)
| PSession
| PSessionLock
| PSessionReserve
| PSessionInner
| PSessionChange
(** [close] *)
| PClose
| PCloseFlag (session_result : result unit SurrealRnError)
| PCloseLock (session_result : result unit SurrealRnError)
| PCloseReserve (session_result : result unit SurrealRnError)
| PCloseInner (session_result : result unit SurrealRnError)
| PCloseLive (session_result : result unit SurrealRnError)
| PCloseTransactions (session_result : result unit SurrealRnError)
| PCloseDone (session_result : result unit SurrealRnError)
(** an operation of a sync client: [lock_runtime], the two loads of [ensure_session], work
    in the session, the end of the guard *)
| PGuardLock (generation : N)
| PGuardClosed (generation : N)
| PGuardSession (generation : N)
| PGuardWork (generation : N) (session : nat)
| PGuardDrop (r : outcome)
(** returned; [PClosed] is the return of [close] *)
| PDone (r : outcome)
| PClosed (r : result unit SurrealRnError).

(** What the engine answers to the call a step makes: success or an error (one that the
    database or the encoding of its results gives, [RnDatabase]).  [ReplyEnd] is the end of
    the stream of a live query, and for a query that its variables do not decode;
    [ReplyClose] is the other branch of [select!]. *)
Inductive reply := ReplyOk | ReplyErr | ReplyEnd | ReplyClose.

(** [reserve_session_change] *)
Definition reserve_session_change (d : SurrealDatabase)
  : result unit SurrealRnError * SurrealDatabase :=
  match checked_add u64_max (sd_session_generation d) 1 with
  | Some g => (Ok tt, set_generation g d)
  | None => (Err RnInternal, set_closed d)
  end.

Definition release_writer : system → system :=
  set_database (λ d, set_lifecycle (mkLifecycle (lc_readers (sd_lifecycle d)) false) d).
Definition take_writer : system → system :=
  set_database (λ d, set_lifecycle (mkLifecycle (lc_readers (sd_lifecycle d)) true) d).
(** The write lock is free. *)
Definition writable_lifecycle (s : system) : bool :=
  let l := sd_lifecycle (sy_database s) in
  negb (lc_writer l) && (lc_readers l =? 0)%nat.

Definition engine (r : reply) (a : answer) : outcome :=
  match r with ReplyOk => Ok a | _ => Err RnDatabase end.

(** [iter().filter_map(Weak::upgrade)] and [retain(|weak| weak.strong_count() > 0)] *)
Definition alive {A} (objects : gmap nat A) (ids : list nat) : list nat :=
  filter (λ id, is_Some (objects !! id)) ids.

(** The remaining transactions of [close], in order. *)
Definition cancel_next (session_result : result unit SurrealRnError) (ids : list nat) : pc :=
  match ids with
  | [] => PCloseDone session_result
  | id :: rest => PCancel id (CancelClosing session_result rest)
  end.
Definition live_next (session_result : result unit SurrealRnError) (ids : list nat) : pc :=
  match ids with
  | [] => PCloseTransactions session_result
  | id :: rest => PLiveClose id (LiveClosing session_result rest)
  end.

(** The end of [cancel_inner]; a failing cancellation ends [close] early, which releases
    the lifecycle lock. *)
Definition after_cancel (r : outcome) (k : cancelling) (s : system) : system * pc :=
  match k, r with
  | CancelOne, _ => (s, PDone r)
  | CancelRefused, Ok _ => (s, PDone (Err RnClosed))
  | CancelRefused, Err e => (s, PDone (Err e))
  | CancelClosing session_result rest, Ok _ => (s, cancel_next session_result rest)
  | CancelClosing _ _, Err e => (release_writer s, PClosed (Err e))
  end.

(** Ends the native transaction, if it is still there. *)
Definition end_transaction (e : TxEnd) (r : reply) (id : nat) (s : system)
  : option (system * outcome) :=
  match sy_transactions s !! id with
  | Some t =>
      if tn_locked t then None
      else Some (set_transaction id (take_transaction e) s,
                 if tn_inner t then engine r AnsUnit else Ok AnsUnit)
  | None => Some (s, Ok AnsUnit)
  end.

(** The use of a client: the engine's part of a query, and the new objects. *)
Definition use_client (r : reply) (u : client_use) (s : system) : system * pc :=
  match r, u with
  | ReplyOk, UseQuery => (s, PDone (Ok AnsResults))
  | ReplyOk, UseBegin =>
      (mkSystem (sy_database s) (<[sy_next s := mkTransaction true false false []]> (sy_transactions s))
         (sy_live s) (S (sy_next s)), PRegisterTransaction (sy_next s))
  | ReplyOk, UseLive =>
      (mkSystem (sy_database s) (sy_transactions s)
         (<[sy_next s := mkLive true false true true false false]> (sy_live s))
         (S (sy_next s)), PRegisterLive (sy_next s))
  | ReplyEnd, (UseQuery | UseLive) => (s, PDone (Err RnInvalidVariables))
  | _, _ => (s, PDone (Err RnDatabase))
  end.

(** The steps of a transaction's methods. *)
Definition advance_transaction (r : reply) (p : pc) (s : system) : option (system * pc) :=
  match p with
  | PTxQuery id =>
      match sy_transactions s !! id with
      | Some t =>
          Some (s, if tn_closed t then PDone (Err RnClosed)
                   else match r with ReplyEnd => PDone (Err RnInvalidVariables) | _ => PTxLock id end)
      | None => Some (s, PDone (Err RnClosed))
      end
  | PTxLock id =>
      match sy_transactions s !! id with
      | Some t =>
          if tn_locked t then None
          else if tn_inner t then Some (set_transaction id (lock_transaction true) s, PTxRun id)
          else Some (s, PDone (Err RnClosed))
      | None => Some (s, PDone (Err RnClosed))
      end
  | PTxRun id =>
      Some (set_transaction id (lock_transaction false) s, PDone (engine r AnsResults))
  | PCommit id => Some (set_transaction id close_transaction s, PCommitTake id)
  | PCommitTake id =>
      '(s, r) ← end_transaction EndCommit r id s; Some (s, PDone r)
  | PCancel id k => Some (set_transaction id close_transaction s, PCancelTake id k)
  | PCancelTake id k =>
      '(s, r) ← end_transaction EndCancel r id s; Some (after_cancel r k s)
  | _ => None
  end.

(** The steps of a live query's methods. *)
Definition advance_live (r : reply) (p : pc) (s : system) : option (system * pc) :=
  let none := PDone (Ok (AnsNotification false)) in
  match p with
  | PNext id =>
      match sy_live s !! id with
      | Some l => Some (s, if lq_closed l then none else PNextLock id)
      | None => Some (s, none)
      end
  | PNextLock id =>
      match sy_live s !! id with
      | Some l =>
          if lq_locked l then None
          else if lq_closed l || lq_close_signal l || negb (lq_stream l) then Some (s, none)
          else Some (set_live id (lock_live true) s, PNextSelect id)
      | None => Some (s, none)
      end
  | PNextSelect id =>
      match sy_live s !! id, r with
      | Some l, ReplyClose =>
          if lq_close_signal l then Some (set_live id (lock_live false) s, none) else None
      | _, ReplyOk => Some (set_live id (lock_live false) s, PDone (Ok (AnsNotification true)))
      | _, ReplyErr => Some (set_live id (lock_live false) s, PDone (Err RnDatabase))
      | _, _ =>
          Some (set_live id (λ l, take_stream (mkLive (lq_stream l) false (lq_response l)
                                    (lq_client l) true (lq_close_signal l))) s, none)
      end
  | PLiveClose id k => Some (set_live id request_close s, PLiveTake id k)
  | PLiveTake id k =>
      match sy_live s !! id with
      | Some l => if lq_locked l then None else Some (set_live id take_stream s, PLiveDrop id k)
      | None => Some (s, PLiveDrop id k)
      end
  | PLiveDrop id k =>
      Some (set_live id take_response_client s,
            match k with
            | LiveOne => PDone (Ok AnsUnit)
            | LiveClosing session_result rest => live_next session_result rest
            end)
  | _ => None
  end.

(** [SurrealDatabase::client] and its users: [begin_transaction], [query], [live_query]. *)
Definition advance_client (r : reply) (p : pc) (s : system) : option (system * pc) :=
  let d := sy_database s in
  match p with
  | PClientClosed u => Some (s, if sd_closed d then PDone (Err RnClosed) else PClientInner u)
  | PClientInner u =>
      if sd_inner_locked d then None
      else Some (s, if sd_inner d then PUse u else PDone (Err RnClosed))
  | PUse u => Some (use_client r u s)
  | PRegisterTransaction id =>
      if sd_closed d then Some (s, PCancel id CancelRefused)
      else Some (set_database (λ d, set_registries (sd_live_queries d)
                   (alive (sy_transactions s) (sd_transactions d) ++ [id]) d) s,
                 PDone (Ok (AnsTransaction id)))
  | PRegisterLive id =>
      Some (set_database (λ d, set_registries (alive (sy_live s) (sd_live_queries d) ++ [id])
              (sd_transactions d) d) s, PDone (Ok (AnsLive id)))
  | _ => None
  end.

(** [begin_session_change], called by the five methods that change the session. *)
Definition advance_session (r : reply) (p : pc) (s : system) : option (system * pc) :=
  let d := sy_database s in
  match p with
  | PSession =>
      let '(reserved, d) := reserve_session_change d in
      Some (set_database (λ _, d) s,
            match reserved with Ok _ => PSessionLock | Err e => PDone (Err e) end)
  | PSessionLock =>
      if writable_lifecycle s then Some (take_writer s, PSessionReserve) else None
  | PSessionReserve =>
      let '(reserved, d) := reserve_session_change d in
      let s := set_database (λ _, d) s in
      Some match reserved with
           | Ok _ => (s, PSessionInner)
           | Err e => (release_writer s, PDone (Err e))
           end
  | _ => None
  end.

(** Such a method after [begin_session_change]: the change under the write lock of [inner].
    [ReplyErr] is a change that failed without effect, the other replies one that took effect
    and failed afterwards ([signin] without [authenticate]). *)
Definition advance_change (r : reply) (p : pc) (s : system) : option (system * pc) :=
  let d := sy_database s in
  match p with
  | PSessionInner =>
      if sd_inner_locked d then None
      else if sd_inner d then Some (set_database (set_inner true true) s, PSessionChange)
      else Some (release_writer s, PDone (Err RnClosed))
  | PSessionChange =>
      let s := set_database (set_inner true false) s in
      Some match r with
           | ReplyOk => (release_writer (set_database next_session s), PDone (Ok AnsUnit))
           | ReplyErr => (release_writer s, PDone (Err RnDatabase))
           | _ => (release_writer (set_database next_session s), PDone (Err RnDatabase))
           end
  | _ => None
  end.

(** [SurrealDatabase::close]. *)
Definition advance_close (r : reply) (p : pc) (s : system) : option (system * pc) :=
  let d := sy_database s in
  match p with
  | PClose =>
      let '(reserved, d) := reserve_session_change d in
      Some (set_database (λ _, d) s, PCloseFlag reserved)
  | PCloseFlag session_result => Some (set_database set_closed s, PCloseLock session_result)
  | PCloseLock session_result =>
      if writable_lifecycle s then Some (take_writer s, PCloseReserve session_result) else None
  | PCloseReserve (Err e) => Some (s, PCloseInner (Err e))
  | PCloseReserve (Ok _) =>
      let '(reserved, d) := reserve_session_change d in
      Some (set_database (λ _, d) s, PCloseInner reserved)
  | PCloseInner session_result =>
      if sd_inner_locked d then None
      else Some (set_database (set_inner false false) s, PCloseLive session_result)
  | PCloseLive session_result =>
      Some (set_database (λ d, set_registries [] (sd_transactions d) d) s,
            live_next session_result (alive (sy_live s) (sd_live_queries d)))
  | PCloseTransactions session_result =>
      Some (set_database (λ d, set_registries (sd_live_queries d) [] d) s,
            cancel_next session_result (alive (sy_transactions s) (sd_transactions d)))
  | PCloseDone session_result => Some (release_writer s, PClosed session_result)
  | _ => None
  end.

(** [lock_runtime] and [ensure_session] of a sync client; work goes on under the guard, with
    the session checked again, until it is done. *)
Definition advance_guard (r : reply) (p : pc) (s : system) : option (system * pc) :=
  let d := sy_database s in
  match p with
  | PGuardLock g =>
      if lc_writer (sd_lifecycle d) then None
      else Some (set_database (λ d, set_lifecycle (mkLifecycle (S (lc_readers (sd_lifecycle d))) false) d) s,
                 PGuardClosed g)
  | PGuardClosed g =>
      Some (s, if sd_closed d then PGuardDrop (Ok AnsRecoveryRequired) else PGuardSession g)
  | PGuardSession g =>
      Some (s, if decide (sd_session_generation d = g) then PGuardWork g (sd_session d)
               else PGuardDrop (Ok AnsRecoveryRequired))
  | PGuardWork g session =>
      Some (s, match r with
               | ReplyOk => PGuardDrop (Ok (AnsWorked g session))
               | _ => PGuardClosed g
               end)
  | PGuardDrop result =>
      Some (set_database (λ d, set_lifecycle (mkLifecycle (pred (lc_readers (sd_lifecycle d)))
              (lc_writer (sd_lifecycle d))) d) s, PDone result)
  | _ => None
  end.

Definition advance (r : reply) (p : pc) (s : system) : option (system * pc) :=
  match p with
  | PTxQuery _ | PTxLock _ | PTxRun _ | PCommit _ | PCommitTake _ | PCancel _ _ | PCancelTake _ _ =>
      advance_transaction r p s
  | PNext _ | PNextLock _ | PNextSelect _ | PLiveClose _ _ | PLiveTake _ _ | PLiveDrop _ _ =>
      advance_live r p s
  | PSession | PSessionLock | PSessionReserve => advance_session r p s
  | PSessionInner | PSessionChange => advance_change r p s
  | PGuardLock _ | PGuardClosed _ | PGuardSession _ | PGuardWork _ _ | PGuardDrop _ =>
      advance_guard r p s
  | PClientClosed _ | PClientInner _ | PUse _ | PRegisterTransaction _ | PRegisterLive _ =>
      advance_client r p s
  | _ => advance_close r p s
  end.

(** ** Interleavings *)

Inductive call :=
| CallQuery | CallBegin | CallLive | CallSession | CallClose | CallGuard (generation : N)
| CallTxQuery (id : nat) | CallCommit (id : nat) | CallCancel (id : nat)
| CallNext (id : nat) | CallLiveClose (id : nat).

Definition start (c : call) : pc :=
  match c with
  | CallQuery => PClientClosed UseQuery
  | CallBegin => PClientClosed UseBegin
  | CallLive => PClientClosed UseLive
  | CallSession => PSession
  | CallClose => PClose
  | CallGuard g => PGuardLock g
  | CallTxQuery id => PTxQuery id
  | CallCommit id => PCommit id
  | CallCancel id => PCancel id CancelOne
  | CallNext id => PNext id
  | CallLiveClose id => PLiveClose id LiveOne
  end.

(** The handle and every call ever made, with where it is. *)
Record world := mkWorld { wo_system : system; wo_calls : gmap nat pc }.

Inductive event :=
| ECall (c : call)
| EStep (tid : nat) (r : reply)
| EDropTransaction (id : nat)
| EDropLive (id : nat).

(** The call borrows the transaction, or holds a strong reference to it. *)
Definition uses_transaction (id : nat) (p : pc) : bool :=
  match p with
  | PTxQuery i | PTxLock i | PTxRun i | PCommit i | PCommitTake i | PRegisterTransaction i =>
      bool_decide (i = id)
  | PCancel i k | PCancelTake i k =>
      bool_decide (i = id) ||
      match k with CancelClosing _ rest => bool_decide (id ∈ rest) | _ => false end
  | _ => false
  end.
Definition uses_live (id : nat) (p : pc) : bool :=
  match p with
  | PNext i | PNextLock i | PNextSelect i | PRegisterLive i => bool_decide (i = id)
  | PLiveClose i k | PLiveTake i k | PLiveDrop i k =>
      bool_decide (i = id) ||
      match k with LiveClosing _ rest => bool_decide (id ∈ rest) | LiveOne => false end
  | _ => false
  end.

(** A method is called on an object that exists. *)
Definition present (c : call) (s : system) : bool :=
  match c with
  | CallTxQuery id | CallCommit id | CallCancel id => bool_decide (is_Some (sy_transactions s !! id))
  | CallNext id | CallLiveClose id => bool_decide (is_Some (sy_live s !! id))
  | _ => true
  end.

(** Calls are numbered in the order they are made.  An object is dropped with its last
    reference: the native transaction is taken and cancelled, the stream closed. *)
Definition happen (e : event) (w : world) : option world :=
  let s := wo_system w in
  match e with
  | ECall c =>
      if present c s then Some (mkWorld s (<[size (wo_calls w) := start c]> (wo_calls w))) else None
  | EStep tid r =>
      p ← wo_calls w !! tid;
      '(s, p) ← advance r p s;
      Some (mkWorld s (<[tid := p]> (wo_calls w)))
  | EDropTransaction id =>
      if decide (map_Forall (λ _ p, uses_transaction id p = false) (wo_calls w))
      then Some (mkWorld (mkSystem (sy_database s) (delete id (sy_transactions s)) (sy_live s)
                   (sy_next s)) (wo_calls w))
      else None
  | EDropLive id =>
      if decide (map_Forall (λ _ p, uses_live id p = false) (wo_calls w))
      then Some (mkWorld (mkSystem (sy_database s) (sy_transactions s) (delete id (sy_live s))
                   (sy_next s)) (wo_calls w))
      else None
  end.

(** [connect]: an open handle. *)
Definition connected : world :=
  mkWorld (mkSystem (mkDatabase true false (mkLifecycle 0 false) 0 [] [] false 0) ∅ ∅ 0) ∅.

Inductive reachable : world → Prop :=
| reach_connected : reachable connected
| reach_step w e w' : reachable w → happen e w = Some w' → reachable w'.
