(* ===== verification/HandleProps.v ===== *)
(** * Concurrent use of the database handle.

    Rule induction over [Handle.reachable]: the lifecycle lock excludes session changes from
    the operations of sync clients, [close] ends every transaction, a transaction is ended
    once, and calls do not deadlock. *)

From S2P Require Import Prelude NativeErrors Handle.

(** ** Counting calls *)

Definition count (q : pc → bool) (m : gmap nat pc) : nat :=
  map_fold (λ _ p n, (Nat.b2n (q p) + n)%nat) 0%nat m.

Lemma count_insert q m i p :
  m !! i = None → count q (<[i := p]> m) = (Nat.b2n (q p) + count q m)%nat.
Proof. intros Hi. unfold count. rewrite map_fold_insert_L; [done | intros; lia | done]. Qed.

Lemma count_update q m i p p' :
  m !! i = Some p →
  (count q (<[i := p']> m) + Nat.b2n (q p) = count q m + Nat.b2n (q p'))%nat.
Proof.
  intros Hi. rewrite <- (insert_delete_id m i p Hi) at 2.
  rewrite <- insert_delete_eq, !count_insert by apply lookup_delete_eq. lia.
Qed.

Lemma count_pos q m i p : m !! i = Some p → q p = true → (0 < count q m)%nat.
Proof.
  intros Hi Hq. rewrite <- (insert_delete_id m i p Hi).
  rewrite count_insert by apply lookup_delete_eq. rewrite Hq. cbn. lia.
Qed.

Lemma count_pos_inv q m : (0 < count q m)%nat → ∃ i p, m !! i = Some p ∧ q p = true.
Proof.
  induction m as [|i p m Hi IH] using map_ind; [intros H; by apply Nat.lt_irrefl in H|].
  rewrite count_insert by done. intros H. destruct (q p) eqn:Hq.
  - exists i, p. by rewrite lookup_insert_eq.
  - destruct IH as (j & p' & Hj & Hq'); [done|]. exists j, p'. split; [|done].
    rewrite lookup_insert_ne; [done | by intros ->; rewrite Hi in Hj].
Qed.

(** ** Cases of a step *)

Lemma writable_free s :
  writable_lifecycle s = true →
  lc_writer (sd_lifecycle (sy_database s)) = false ∧ lc_readers (sd_lifecycle (sy_database s)) = 0%nat.
Proof.
  unfold writable_lifecycle. rewrite andb_true_iff, negb_true_iff, Nat.eqb_eq. done.
Qed.

Ltac step_cases H :=
  unfold advance, advance_transaction, advance_live, advance_client, advance_session, advance_change,
    advance_close, advance_guard, end_transaction,
    use_client, after_cancel, cancel_next, live_next, reserve_session_change, engine in H;
  simplify_option_eq; repeat (case_match; simplify_option_eq);
  repeat match goal with
  | W : writable_lifecycle _ = true |- _ => apply writable_free in W as [? ?]
  | W : lc_writer _ = _ |- _ => rewrite W in *; clear W
  end.

(** The lifecycle lock is held for reading, for writing; the session is being changed. *)
Definition holds_read (p : pc) : bool :=
  match p with PGuardClosed _ | PGuardSession _ | PGuardWork _ _ | PGuardDrop _ => true | _ => false end.
Definition holds_write (p : pc) : bool :=
  match p with
  | PSessionReserve | PSessionInner | PSessionChange
  | PCloseReserve _ | PCloseInner _ | PCloseLive _ | PCloseTransactions _ | PCloseDone _
  | PLiveClose _ (LiveClosing _ _) | PLiveTake _ (LiveClosing _ _) | PLiveDrop _ (LiveClosing _ _)
  | PCancel _ (CancelClosing _ _) | PCancelTake _ (CancelClosing _ _) => true
  | _ => false
  end.
Definition changes (p : pc) : bool :=
  match p with PSessionInner | PSessionChange => true | _ => false end.

Definition readers (s : system) : nat := lc_readers (sd_lifecycle (sy_database s)).
Definition writer (s : system) : nat := Nat.b2n (lc_writer (sd_lifecycle (sy_database s))).

Lemma advance_readers r p s s' p' :
  advance r p s = Some (s', p') → (holds_read p = true → 0 < readers s)%nat →
  (readers s' + Nat.b2n (holds_read p) = readers s + Nat.b2n (holds_read p'))%nat.
Proof.
  intros H Hr. unfold readers in *. destruct p; step_cases H; cbn in *;
    try specialize (Hr eq_refl); try lia.
Qed.

Lemma advance_writer r p s s' p' :
  advance r p s = Some (s', p') → (holds_write p = true → writer s = 1%nat) →
  (writer s' + Nat.b2n (holds_write p) = writer s + Nat.b2n (holds_write p'))%nat.
Proof.
  intros H Hw. unfold writer in *. destruct p; step_cases H; cbn in *;
    try specialize (Hw eq_refl); try lia.
Qed.

(** ** Invariants *)

Definition drop_transaction (id : nat) (s : system) : system :=
  mkSystem (sy_database s) (delete id (sy_transactions s)) (sy_live s) (sy_next s).
Definition drop_live (id : nat) (s : system) : system :=
  mkSystem (sy_database s) (sy_transactions s) (delete id (sy_live s)) (sy_next s).

(** What an event does to a world. *)
Lemma happen_cases e w w' :
  happen e w = Some w' →
  (∃ c, present c (wo_system w) = true ∧ w' = mkWorld (wo_system w) (<[size (wo_calls w) := start c]> (wo_calls w))) ∨
  (∃ tid r p s' p', wo_calls w !! tid = Some p ∧ advance r p (wo_system w) = Some (s', p') ∧
     w' = mkWorld s' (<[tid := p']> (wo_calls w))) ∨
  (∃ id, map_Forall (λ _ p, uses_transaction id p = false) (wo_calls w) ∧
     w' = mkWorld (drop_transaction id (wo_system w)) (wo_calls w)) ∨
  (∃ id, map_Forall (λ _ p, uses_live id p = false) (wo_calls w) ∧
     w' = mkWorld (drop_live id (wo_system w)) (wo_calls w)).
Proof.
  intros He. destruct e as [c|tid r|id|id]; cbn in He.
  - left. case_match; simplify_eq. eauto.
  - right; left. destruct (wo_calls w !! tid) as [p|] eqn:Hp; [|done]. cbn in He.
    destruct (advance r p (wo_system w)) as [[s' p']|] eqn:Hs; [|done]. simplify_eq/=.
    eauto 10.
  - do 2 right; left. case_decide; simplify_eq. eauto.
  - do 3 right. case_decide; simplify_eq. eauto.
Qed.

(** Calls are numbered without gaps, so a new call gets a new number. *)
Lemma calls_fresh w : reachable w → ∀ i, (size (wo_calls w) ≤ i)%nat → wo_calls w !! i = None.
Proof.
  induction 1 as [|w e w' _ IH He]; [done|].
  apply happen_cases in He as [(c & Hc & ->)|[(tid & r & p & s' & p' & Hp & _ & ->)|
    [(id & _ & ->)|(id & _ & ->)]]]; cbn; intros i; [| |apply IH..].
  - rewrite map_size_insert_None by (apply IH; lia). intros Hi.
    rewrite lookup_insert_ne by lia. apply IH. lia.
  - rewrite map_size_insert_Some by eauto. intros Hi.
    rewrite lookup_insert_ne; [by apply IH | intros ->]. by rewrite IH in Hp by lia.
Qed.

(** An invariant is shown for a new call, one step of one call, and dropped objects. *)
Lemma reachable_invariant (P : system → gmap nat pc → Prop) :
  P (wo_system connected) ∅ →
  (∀ s m c i, P s m → present c s = true → m !! i = None → P s (<[i := start c]> m)) →
  (∀ s m tid r p s' p', reachable (mkWorld s m) → P s m → m !! tid = Some p → advance r p s = Some (s', p') →
     P s' (<[tid := p']> m)) →
  (∀ s m id, P s m → map_Forall (λ _ p, uses_transaction id p = false) m →
     P (drop_transaction id s) m) →
  (∀ s m id, P s m → map_Forall (λ _ p, uses_live id p = false) m → P (drop_live id s) m) →
  ∀ w, reachable w → P (wo_system w) (wo_calls w).
Proof.
  intros H0 Hcall Hstep Htx Hlive w Hw. induction Hw as [|w e w' Hw IH He]; [done|].
  apply happen_cases in He as [(c & Hc & ->)|[(tid & r & p & s' & p' & Hp & Hs & ->)|
    [(id & ? & ->)|(id & ? & ->)]]]; cbn; eauto.
  - apply Hcall; [done..|]. by apply calls_fresh.
  - eapply (Hstep (wo_system w)); [by destruct w | done..].
Qed.

(** *** The lifecycle lock *)

Definition lock_inv (s : system) (m : gmap nat pc) : Prop :=
  readers s = count holds_read m ∧ writer s = count holds_write m ∧
  (writer s = 0 ∨ readers s = 0)%nat.

Lemma start_free c : holds_read (start c) = false ∧ holds_write (start c) = false.
Proof. by destruct c. Qed.

Lemma advance_exclusive r p s s' p' :
  advance r p s = Some (s', p') → (writer s = 0 ∨ readers s = 0)%nat →
  (holds_read p = true → 0 < readers s)%nat → (holds_write p = true → writer s = 1%nat) →
  (writer s' = 0 ∨ readers s' = 0)%nat.
Proof.
  intros H H0 Hr Hw. unfold readers, writer in *. destruct p; step_cases H; cbn in *;
    try specialize (Hr eq_refl); try specialize (Hw eq_refl); try lia.
Qed.

Lemma lock_holds w : reachable w → lock_inv (wo_system w) (wo_calls w).
Proof.
  apply reachable_invariant; unfold lock_inv; [by split_and!; [..|left]| | |done..].
  - intros s m c i (Hr & Hw & Hx) _ Hi. destruct (start_free c) as [H1 H2].
    rewrite !count_insert, H1, H2 by done. done.
  - intros s m tid r p s' p' _ (Hr & Hw & Hx) Hp Hs.
    assert (holds_read p = true → 0 < readers s)%nat as Hr'
      by (intros; rewrite Hr; by eapply count_pos).
    assert (writer s ≤ 1)%nat by (unfold writer; destruct (lc_writer _); cbn; lia).
    assert (holds_write p = true → writer s = 1%nat) as Hw'
      by (intros Hq; pose proof (count_pos _ _ _ _ Hp Hq); lia).
    pose proof (count_update holds_read m tid p p' Hp).
    pose proof (count_update holds_write m tid p p' Hp).
    pose proof (advance_readers _ _ _ _ _ Hs Hr').
    pose proof (advance_writer _ _ _ _ _ Hs Hw').
    split_and!; [lia..|]. by eapply advance_exclusive.
Qed.

Lemma reader_excludes s m i p j q :
  lock_inv s m → m !! i = Some p → holds_read p = true → m !! j = Some q → holds_write q = false.
Proof.
  intros (Hr & Hw & Hx) Hi Hp Hj. destruct (holds_write q) eqn:Hq; [|done].
  pose proof (count_pos _ _ _ _ Hi Hp). pose proof (count_pos _ _ _ _ Hj Hq). lia.
Qed.

(** *** The session a sync client works in *)

(** The call worked in a session with a client of this generation. *)
Definition observed (p : pc) : option (N * nat) :=
  match p with
  | PGuardWork g session | PGuardDrop (Ok (AnsWorked g session)) | PDone (Ok (AnsWorked g session)) =>
      Some (g, session)
  | _ => None
  end.

Abbreviation generation s := (sd_session_generation (sy_database s)).
Abbreviation session s := (sd_session (sy_database s)).

Lemma changes_holds_write p : changes p = true → holds_write p = true.
Proof. by destruct p. Qed.

Lemma advance_session r p s s' p' :
  advance r p s = Some (s', p') →
  (generation s ≤ generation s')%N ∧
  (changes p = false → session s' = session s) ∧
  (changes p' = true → changes p = true ∨ (generation s < generation s')%N) ∧
  (∀ o, observed p' = Some o → observed p = Some o ∨
     holds_read p = true ∧ o = (generation s, session s) ∧ generation s' = generation s) ∧
  (∀ g n, p' = PGuardWork g n → holds_read p = true ∧ n = session s).
Proof.
  assert (∀ a c, checked_add u64_max a 1 = Some c → (a < c)%N) as Hadd.
  { unfold checked_add. intros a c. case_match; intros; simplify_eq. lia. }
  intros H. destruct p; step_cases H; cbn in *;
    try match goal with E : checked_add _ _ _ = Some _ |- _ => apply Hadd in E end;
    (split_and!; [try lia | done | try (by auto) | .. ]); try (by intros; simplify_eq; auto).
Qed.

Definition session_inv (s : system) (m : gmap nat pc) : Prop :=
  (∀ i p g n, m !! i = Some p → observed p = Some (g, n) →
     (g ≤ generation s)%N ∧
     (g = generation s → session s = n ∧ ∀ j q, m !! j = Some q → changes q = false)) ∧
  (∀ i g n, m !! i = Some (PGuardWork g n) → session s = n) ∧
  (∀ i p j q g n n', m !! i = Some p → observed p = Some (g, n) →
     m !! j = Some q → observed q = Some (g, n') → n = n').

(** No call is changing the session while another holds the lock for reading. *)
Lemma reader_no_change s m i p :
  lock_inv s m → m !! i = Some p → holds_read p = true →
  ∀ j q, m !! j = Some q → changes q = false.
Proof.
  intros Hl Hi Hp j q Hj. destruct (changes q) eqn:Hq; [|done].
  apply changes_holds_write in Hq. by rewrite (reader_excludes s m i p j q) in Hq.
Qed.

Lemma session_step s m tid r p s' p' :
  lock_inv s m → session_inv s m → m !! tid = Some p → advance r p s = Some (s', p') →
  session_inv s' (<[tid := p']> m).
Proof.
  intros Hl (Ho & Hk & Ha) Hp Hs. pose proof (advance_session _ _ _ _ _ Hs) as (Hg & Hn & Hc & Hd & He).
  assert (∀ g n i q, m !! i = Some q → observed q = Some (g, n) →
    (g ≤ generation s')%N ∧ (g = generation s' → session s' = n ∧
      ∀ j q, <[tid := p']> m !! j = Some q → changes q = false)) as Hold.
  { intros g n i q Hi Hq. destruct (Ho _ _ _ _ Hi Hq) as [Hle Heq]. split; [lia|]. intros ->.
    destruct Heq as [<- Hno]; [lia|]. split; [by eapply Hn, Hno|].
    intros j q' [[<- <-]|[_ Hj]]%lookup_insert_Some; [|by eapply Hno].
    destruct (changes p') eqn:Hq'; [|done]. destruct (Hc eq_refl) as [Hx|Hx]; [|lia].
    by rewrite (Hno _ _ Hp) in Hx. }
  assert (∀ g n, observed p' = Some (g, n) →
    (∃ i q, m !! i = Some q ∧ observed q = Some (g, n)) ∨
    g = generation s' ∧ session s' = n ∧
      ∀ j q, <[tid := p']> m !! j = Some q → changes q = false) as Hnew.
  { intros g n Hq. destruct (Hd _ Hq) as [Hq'|(Hr & Hq' & Hg')]; [by eauto|]. simplify_eq.
    pose proof (reader_no_change _ _ _ _ Hl Hp Hr) as Hno. right.
    split_and!; [done | by eapply Hn, Hno|].
    intros j q [[<- <-]|[_ Hj]]%lookup_insert_Some; [by destruct p' | by eapply Hno]. }
  split_and!.
  - intros i q g n [[<- <-]|[_ Hi]]%lookup_insert_Some Hq; [|by eapply Hold].
    destruct (Hnew _ _ Hq) as [(i & q & Hi & Hq')|(-> & Hx)]; [by eapply Hold | done].
  - intros i g n [[<- ->]|[_ Hi]]%lookup_insert_Some.
    + destruct (He _ _ eq_refl) as [Hr ->]. eapply Hn, reader_no_change; eauto.
    + rewrite <- (Hk _ _ _ Hi). eapply Hn, reader_no_change; [done | exact Hi | done..].
  - assert (∀ j q g n n', observed p' = Some (g, n) → m !! j = Some q → observed q = Some (g, n') →
      n = n') as Hmix.
    { intros j q g n n' Hq Hj Hq'. destruct (Hnew _ _ Hq) as [(i & q1 & Hi & Hq1)|(-> & <- & _)].
      - exact (Ha _ _ _ _ _ _ _ Hi Hq1 Hj Hq').
      - by destruct (Hold _ _ _ _ Hj Hq') as [_ [-> _]]. }
    intros i q1 j q2 g n n' [[<- <-]|[_ Hi]]%lookup_insert_Some H1
      [[<- <-]|[_ Hj]]%lookup_insert_Some H2.
    + congruence.
    + exact (Hmix _ _ _ _ _ H1 Hj H2).
    + symmetry. exact (Hmix _ _ _ _ _ H2 Hi H1).
    + exact (Ha _ _ _ _ _ _ _ Hi H1 Hj H2).
Qed.

Lemma session_holds w : reachable w → session_inv (wo_system w) (wo_calls w).
Proof.
  apply reachable_invariant; [by split_and!; intros * ? | | |done..].
  - intros s m c i (Ho & Hk & Ha) _ Hi.
    assert (observed (start c) = None ∧ changes (start c) = false) as [Hs Hc] by by destruct c.
    split_and!.
    + intros j q g n [[<- <-]|[_ Hj]]%lookup_insert_Some Hq; [congruence|].
      destruct (Ho _ _ _ _ Hj Hq) as [Hle Heq]. split; [done|]. intros ->.
      destruct Heq as [-> Hno]; [done|]. split; [done|].
      intros j' q' [[<- <-]|[_ Hj']]%lookup_insert_Some; [done | by eapply Hno].
    + intros j g n [[<- ?]|[_ Hj]]%lookup_insert_Some; [by destruct c | by eapply Hk].
    + intros j q j' q' g n n' [[<- <-]|[_ Hj]]%lookup_insert_Some Hq
        [[<- <-]|[_ Hj']]%lookup_insert_Some Hq'; [congruence..|]. exact (Ha _ _ _ _ _ _ _ Hj Hq Hj' Hq').
  - intros s m tid r p s' p' Hw H Hp Hs. eapply session_step; eauto. apply (lock_holds _ Hw).
Qed.

(** C16: a sync client never works in two sessions: however calls of the handle interleave, two
    operations that passed the session check with the same generation worked in the same
    session, and the session does not change while such an operation holds its guard. *)
Theorem guarded_session_stable w i j p q g n n' :
  reachable w → wo_calls w !! i = Some p → observed p = Some (g, n) →
  wo_calls w !! j = Some q → observed q = Some (g, n') →
  n = n' ∧ (p = PGuardWork g n → sd_session (sy_database (wo_system w)) = n).
Proof.
  intros Hw Hi Hp Hj Hq. destruct (session_holds _ Hw) as (_ & Hk & Ha).
  split; [exact (Ha _ _ _ _ _ _ _ Hi Hp Hj Hq)|]. intros ->. exact (Hk _ _ _ Hi).
Qed.

(** ** Runs *)

Fixpoint run (es : list event) (w : world) : option world :=
  match es with
  | [] => Some w
  | e :: es => w ← happen e w; run es w
  end.

Lemma run_reachable es w w' : reachable w → run es w = Some w' → reachable w'.
Proof.
  revert w. induction es as [|e es IH]; cbn; intros w Hw He; [by simplify_eq|].
  destruct (happen e w) as [w1|] eqn:H1; [|done]. eapply IH; [|done]. by eapply reach_step.
Qed.

(** The world after a run that is possible. *)
Definition after (es : list event) : world := default connected (run es connected).
Lemma after_reachable es : is_Some (run es connected) → reachable (after es).
Proof.
  intros [w Hw]. unfold after. rewrite Hw. eapply run_reachable; [apply reach_connected | done].
Qed.

(** Steps of a call, the engine answering every one. *)
Definition steps (tid n : nat) : list event := repeat (EStep tid ReplyOk) n.

(** A client of generation 0 works twice around a session change that is announced but waits. *)
Definition session_race : list event :=
  [ECall (CallGuard 0); EStep 0 ReplyOk; EStep 0 ReplyOk; EStep 0 ReplyOk;
   ECall (CallGuard 0); EStep 1 ReplyOk; EStep 1 ReplyOk; EStep 1 ReplyOk; EStep 1 ReplyOk;
   ECall CallSession; EStep 2 ReplyOk].

Lemma guarded_session_stable_witness :
  wo_calls (after session_race) !! 0%nat = Some (PGuardWork 0 0) ∧
  sd_session_generation (sy_database (wo_system (after session_race))) = 1%N ∧
  sd_session (sy_database (wo_system (after session_race))) = 0%nat.
Proof.
  split; [by vm_compute|]. split; [by vm_compute|].
  eapply (guarded_session_stable (after session_race) 0 1 _
            (PGuardDrop (Ok (AnsWorked 0 0))) 0 0 0); [..|reflexivity].
  - apply after_reachable. vm_compute. by eexists.
  - by vm_compute.
  - done.
  - by vm_compute.
  - done.
Defined.
