(* ===== verification/HandleClose.v ===== *)
(** * Closing the database handle.

    [SurrealDatabase::close] against transactions that are being begun, queried and ended at
    the same time. *)

From S2P Require Import Prelude NativeErrors Handle HandleProps.

(** ** Transactions a call still has to end *)

Definition owes (id : nat) (p : pc) : Prop :=
  match p with
  | PRegisterTransaction i | PCancel i CancelRefused | PCancelTake i CancelRefused => i = id
  | PCancel i (CancelClosing _ rest) | PCancelTake i (CancelClosing _ rest) => i = id ∨ id ∈ rest
  | _ => False
  end.

(** The call is a [close] after it set the flag, after it emptied the registry. *)
Definition drained (p : pc) : bool :=
  match p with
  | PCancel _ (CancelClosing _ _) | PCancelTake _ (CancelClosing _ _) | PCloseDone _ | PClosed _ => true
  | _ => false
  end.
Definition flagged (p : pc) : bool :=
  match p with
  | PCloseLock _ | PCloseReserve _ | PCloseInner _ | PCloseLive _ | PCloseTransactions _
  | PLiveClose _ (LiveClosing _ _) | PLiveTake _ (LiveClosing _ _) | PLiveDrop _ (LiveClosing _ _) => true
  | _ => drained p
  end.

Abbreviation closed s := (sd_closed (sy_database s)).
Abbreviation registry s := (sd_transactions (sy_database s)).
Definition is_open (s : system) (id : nat) : Prop :=
  ∃ t, sy_transactions s !! id = Some t ∧ tn_inner t = true.

Lemma advance_closed r p s s' p' :
  advance r p s = Some (s', p') →
  (closed s = true → closed s' = true ∧ (registry s = [] → registry s' = [])) ∧
  (flagged p' = true → flagged p = true ∨ closed s' = true) ∧
  (drained p' = true → drained p = true ∨ registry s' = []).
Proof.
  intros H. destruct p; step_cases H; cbn in *; (split_and!; [..|]); try (by auto);
    try (by intros; simplify_eq).
Qed.

Lemma is_open_set id f s j :
  is_open (set_transaction id f s) j →
  (∀ t, tn_inner (f t) = true → tn_inner t = true) → is_open s j.
Proof.
  intros (t & Ht & Hi) Hf. cbn in Ht. apply lookup_alter_Some in Ht as [(-> & t' & Ht & ->)|[_ Ht]];
    [exists t' | exists t]; auto.
Qed.

Lemma is_open_taken id e s : ¬ is_open (set_transaction id (take_transaction e) s) id.
Proof.
  intros (t & Ht & Hi). cbn in Ht. apply lookup_alter_Some in Ht as [(_ & t' & _ & ->)|[? _]]; done.
Qed.

Lemma is_open_alive s id ids : is_open s id → id ∈ ids → id ∈ alive (sy_transactions s) ids.
Proof.
  intros (t & Ht & _) Hid. unfold alive. apply list_elem_of_filter. split; [|done]. by exists t.
Qed.

Lemma advance_open_before r p s s' p' id :
  advance r p s = Some (s', p') → is_open s' id → is_open s id ∨ p' = PRegisterTransaction id.
Proof.
  intros H Ho. destruct p; step_cases H; try (by left);
    try (left; by eapply is_open_set; [exact Ho|]).
  destruct Ho as (t & Ht & Hi). cbn in Ht.
  apply lookup_insert_Some in Ht as [[<- _]|[_ Ht]]; [by right|]. left. by exists t.
Qed.

Lemma advance_open r p s s' p' id :
  advance r p s = Some (s', p') → is_open s' id →
  (owes id p → owes id p' ∨ id ∈ registry s' ∨ p' = PClosed (Err RnDatabase)) ∧
  (id ∈ registry s → id ∈ registry s' ∨ owes id p').
Proof.
  intros H Ho. pose proof (is_open_taken id EndCancel s) as Hcancel.
  pose proof (is_open_alive s id (registry s)) as Hal.
  destruct p; step_cases H; cbn [owes] in *; try (by split; auto).
  all: try (split; [|by auto]; intros Hx; destruct_or?; subst; try done).
  all: try (by destruct Ho as (t & Ht & _); congruence).
  all: try specialize (Hal Ho).
  all: repeat match goal with E : alive _ _ = _ |- _ => rewrite E in Hal; clear E end.
  all: set_solver.
Qed.

Definition close_inv (s : system) (m : gmap nat pc) : Prop :=
  (∀ i p, m !! i = Some p → flagged p = true → closed s = true) ∧
  (∀ i p, m !! i = Some p → drained p = true → registry s = []) ∧
  (∀ id, is_open s id →
     id ∈ registry s ∨ (∃ i p, m !! i = Some p ∧ owes id p) ∨
     ∃ i, m !! i = Some (PClosed (Err RnDatabase))).

Lemma drained_flagged p : drained p = true → flagged p = true.
Proof. unfold flagged. intros H. by repeat case_match. Qed.

Lemma close_step s m tid r p s' p' :
  close_inv s m → m !! tid = Some p → advance r p s = Some (s', p') →
  close_inv s' (<[tid := p']> m).
Proof.
  intros (Hf & Hd & Hopen) Hp Hs.
  destruct (advance_closed _ _ _ _ _ Hs) as (Hc & Hf' & Hd').
  split_and!.
  - intros i q [[<- <-]|[_ Hi]]%lookup_insert_Some Hq.
    + destruct (Hf' Hq) as [Hx|Hx]; [|done]. by apply Hc, (Hf _ _ Hp).
    + by apply Hc, (Hf _ _ Hi).
  - intros i q [[<- <-]|[_ Hi]]%lookup_insert_Some Hq.
    + destruct (Hd' Hq) as [Hx|Hx]; [|done].
      apply Hc; [by apply (Hf _ _ Hp), drained_flagged | by apply (Hd _ _ Hp)].
    + apply Hc; [by apply (Hf _ _ Hi), drained_flagged | by apply (Hd _ _ Hi)].
  - intros id Ho. destruct (advance_open _ _ _ _ _ _ Hs Ho) as [Ho1 Ho2].
    assert (∀ q, m !! tid = Some q → owes id q → id ∈ registry s' ∨
      (∃ i p, <[tid := p']> m !! i = Some p ∧ owes id p) ∨
      ∃ i, <[tid := p']> m !! i = Some (PClosed (Err RnDatabase))) as Hown.
    { intros q Hq Hx. simplify_eq. destruct (Ho1 Hx) as [Hy|[Hy|Hy]]; [|by left|].
      - right; left. exists tid, p'. by rewrite lookup_insert_eq.
      - do 2 right. exists tid. by rewrite lookup_insert_eq, Hy. }
    destruct (advance_open_before _ _ _ _ _ _ Hs Ho) as [Hb| ->].
    2:{ right; left. exists tid, (PRegisterTransaction id). by rewrite lookup_insert_eq. }
    destruct (Hopen _ Hb) as [Hr|[(i & q & Hi & Hq)|(i & Hi)]].
    + destruct (Ho2 Hr) as [Hy|Hy]; [by left|]. right; left.
      exists tid, p'. by rewrite lookup_insert_eq.
    + destruct (decide (i = tid)) as [->|Hne]; [by eapply Hown|]. right; left.
      exists i, q. by rewrite lookup_insert_ne by done.
    + do 2 right. exists i. rewrite lookup_insert_ne; [done|]. intros ->. simplify_eq.
Qed.

Lemma close_holds w : reachable w → close_inv (wo_system w) (wo_calls w).
Proof.
  apply reachable_invariant.
  - split_and!; [done..|]. intros id (t & Ht & _). done.
  - intros s m c i (Hf & Hd & Hopen) _ Hi.
    assert (flagged (start c) = false ∧ drained (start c) = false) as [H1 H2] by by destruct c.
    split_and!.
    + intros j q [[<- <-]|[_ Hj]]%lookup_insert_Some Hq; [congruence | by eapply Hf].
    + intros j q [[<- <-]|[_ Hj]]%lookup_insert_Some Hq; [congruence | by eapply Hd].
    + intros id Ho. destruct (Hopen _ Ho) as [?|[(j & q & Hj & Hq)|(j & Hj)]]; [by left|..];
        right; [left; exists j, q | right; exists j]; rewrite lookup_insert_ne by congruence; done.
  - intros s m tid r p s' p' _. apply close_step.
  - intros s m id (Hf & Hd & Hopen) _. split_and!; [done..|]. intros j (t & Ht & Hi).
    apply Hopen. cbn in Ht. apply lookup_delete_Some in Ht as [_ Ht]. by exists t.
  - done.
Qed.

(** *** A transaction is ended once *)

Definition ended_once (t : SurrealTransaction) : Prop :=
  (length (tn_ends t) ≤ 1)%nat ∧ (tn_inner t = true ↔ tn_ends t = []).

Lemma advance_ends r p s s' p' :
  advance r p s = Some (s', p') →
  (∀ id t, sy_transactions s !! id = Some t → ended_once t) →
  ∀ id t, sy_transactions s' !! id = Some t → ended_once t.
Proof.
  assert (∀ i f s, (∀ t, ended_once t → ended_once (f t)) →
    (∀ id t, sy_transactions s !! id = Some t → ended_once t) →
    ∀ id t, alter f i (sy_transactions s) !! id = Some t → ended_once t) as Hset.
  { intros i f s0 Hf Hs id t [(-> & t' & Ht & ->)|[_ Ht]]%lookup_alter_Some; eauto. }
  assert (∀ e t, ended_once t → ended_once (take_transaction e t)) as Htake.
  { intros e t [Hl Hi]. unfold ended_once, take_transaction. cbn. destruct (tn_inner t).
    - destruct Hi as [Hi _]. rewrite Hi by done. by split; [|split].
    - split; [done|]. split; [done|]. intros Hx. by apply Hi in Hx. }
  intros H Hs. destruct p; step_cases H; try exact Hs; try (by apply Hset; auto).
  cbn. intros id t [[_ <-]|[_ Ht]]%lookup_insert_Some; [|by eauto]. split; cbn; [lia | done].
Qed.

Lemma ends_hold w id t :
  reachable w → sy_transactions (wo_system w) !! id = Some t → ended_once t.
Proof.
  intros Hw. revert id t.
  apply (reachable_invariant (λ s _, ∀ id t, sy_transactions s !! id = Some t → ended_once t));
    [done | done | | | done | done].
  - intros s m tid r p s' p' _ H _ Hs. by eapply advance_ends.
  - intros s m id H _ j t. cbn. intros [_ Ht]%lookup_delete_Some. by eapply H.
Qed.

(** Every call has returned. *)
Definition returned (p : pc) : bool :=
  match p with PDone _ | PClosed _ => true | _ => false end.

(** C17: when every call has returned and a [close] is among them, the handle is closed for good,
    no transaction is registered, and every transaction that is still referenced has been
    ended at the engine, exactly once, unless the engine failed to cancel one during a
    [close]. *)
Theorem close_ends_transactions w i r :
  reachable w → map_Forall (λ _ p, returned p = true) (wo_calls w) →
  wo_calls w !! i = Some (PClosed r) →
  sd_closed (sy_database (wo_system w)) = true ∧ sd_transactions (sy_database (wo_system w)) = [] ∧
  ((∀ j, wo_calls w !! j ≠ Some (PClosed (Err RnDatabase))) →
   ∀ id t, sy_transactions (wo_system w) !! id = Some t →
     tn_inner t = false ∧ ∃ e, tn_ends t = [e]).
Proof.
  intros Hw Hret Hi. destruct (close_holds _ Hw) as (Hf & Hd & Hopen).
  pose proof (Hd _ _ Hi eq_refl) as Hreg. split_and!; [by eapply Hf | done|].
  intros Hok id t Ht. destruct (ends_hold _ _ _ Hw Ht) as [Hl He].
  assert (tn_inner t = false) as Hin.
  { destruct (tn_inner t) eqn:Hx; [|done].
    destruct (Hopen id) as [Hy|[(j & q & Hj & Hq)|(j & Hj)]]; [by exists t|..].
    - rewrite Hreg in Hy. by apply not_elem_of_nil in Hy.
    - specialize (Hret _ _ Hj). by destruct q.
    - by destruct (Hok j). }
  split; [done|]. destruct (tn_ends t) as [|e [|]]; [|by exists e | cbn in Hl; lia].
  destruct He as [_ He]. by rewrite He in Hin.
Qed.

(** ** Runs *)

(** A transaction is begun, then a second one, which the close overtakes. *)
Definition close_race : list event :=
  ECall CallBegin :: steps 0 4 ++ ECall CallBegin :: steps 1 3 ++ ECall CallClose :: steps 2 10 ++
  steps 1 3.

Lemma close_ends_transactions_witness :
  wo_calls (after close_race) !! 1%nat = Some (PDone (Err RnClosed)) ∧
  sy_transactions (wo_system (after close_race)) !! 1%nat = Some (mkTransaction false false true [EndCancel]) ∧
  ∃ e, tn_ends (mkTransaction false false true [EndCancel]) = [e].
Proof.
  split; [by vm_compute|]. split; [by vm_compute|].
  eapply (close_ends_transactions (after close_race) 2 (Ok tt)).
  - apply after_reachable. vm_compute. by eexists.
  - refine (bool_decide_unpack _ _). by vm_compute.
  - by vm_compute.
  - intros j. destruct (decide (j < 3)%nat) as [Hj|Hj].
    + destruct j as [|[|[|]]]; [by vm_compute..|lia].
    + rewrite calls_fresh; [done| |].
      * apply after_reachable. vm_compute. by eexists.
      * replace (size (wo_calls (after close_race))) with 3%nat by (by vm_compute). lia.
  - instantiate (1 := 1%nat). by vm_compute.
Defined.

(** ** What [close] leaves behind *)

(** [live_query] registers without looking at [closed] again: a live query whose query was
    running when [close] emptied the registry stays open after [close] has returned. *)
Definition live_race : list event :=
  ECall CallLive :: steps 0 3 ++ ECall CallClose :: steps 1 8 ++ steps 0 1.

Example live_query_survives_close :
  reachable (after live_race) ∧
  wo_calls (after live_race) = list_to_map [(0%nat, PDone (Ok (AnsLive 0))); (1%nat, PClosed (Ok tt))] ∧
  sy_live (wo_system (after live_race)) !! 0%nat = Some (mkLive true false true true false false).
Proof. split; [apply after_reachable; vm_compute; by eexists|]. by vm_compute. Qed.

(** [close] returns at the first cancellation that fails; the transactions behind it are
    neither cancelled nor registered any more, so a second [close] does not reach them. *)
Definition failing_close : list event :=
  ECall CallBegin :: steps 0 4 ++ ECall CallBegin :: steps 1 4 ++
  ECall CallClose :: steps 2 8 ++ [EStep 2 ReplyErr] ++ ECall CallClose :: steps 3 8.

Example failing_cancel_leaks :
  reachable (after failing_close) ∧
  wo_calls (after failing_close) !! 2%nat = Some (PClosed (Err RnDatabase)) ∧
  wo_calls (after failing_close) !! 3%nat = Some (PClosed (Ok tt)) ∧
  sd_transactions (sy_database (wo_system (after failing_close))) = [] ∧
  sy_transactions (wo_system (after failing_close)) !! 1%nat = Some (mkTransaction true false false []).
Proof. split; [apply after_reachable; vm_compute; by eexists|]. by vm_compute. Qed.

(** [commit] answers success when there is nothing left to commit, also after [close] has
    rolled the transaction back. *)
Definition commit_after_close : list event :=
  ECall CallBegin :: steps 0 4 ++ ECall CallClose :: steps 1 10 ++ ECall (CallCommit 0) :: steps 2 2.

Example commit_succeeds_after_cancel :
  reachable (after commit_after_close) ∧
  wo_calls (after commit_after_close) !! 2%nat = Some (PDone (Ok AnsUnit)) ∧
  sy_transactions (wo_system (after commit_after_close)) !! 0%nat =
    Some (mkTransaction false false true [EndCancel]).
Proof. split; [apply after_reachable; vm_compute; by eexists|]. by vm_compute. Qed.
