(* ===== verification/HandleProgress.v ===== *)
(** * Calls of the database handle do not deadlock.

    Every lock of the handle is held by a call that can move, and a closed live query wakes
    the call that waits for its notifications. *)

From S2P Require Import Prelude NativeErrors Handle HandleProps HandleClose.

(** ** Who holds a lock *)

Definition running (q : pc) (m : gmap nat pc) : Prop := ∃ i, m !! i = Some q.

Definition object_inv (s : system) (m : gmap nat pc) : Prop :=
  (sd_inner_locked (sy_database s) = true → running PSessionChange m) ∧
  (∀ id t, sy_transactions s !! id = Some t → tn_locked t = true → running (PTxRun id) m) ∧
  (∀ id l, sy_live s !! id = Some l →
     (lq_locked l = true → lq_stream l = true ∧ running (PNextSelect id) m) ∧
     (lq_closed l = true → lq_close_signal l = true ∨ lq_stream l = false)).

(** What a step does to the locks: it takes one and runs with it, or leaves it as it was, and
    only the holder gives it back. *)
Lemma advance_inner r p s s' p' :
  advance r p s = Some (s', p') →
  sd_inner_locked (sy_database s') = true →
  p' = PSessionChange ∨ sd_inner_locked (sy_database s) = true ∧ p ≠ PSessionChange.
Proof. intros H. destruct p; step_cases H; cbn in *; intros; first [done | congruence | by left | by right]. Qed.

Lemma advance_tx_lock r p s s' p' id t :
  advance r p s = Some (s', p') → sy_transactions s' !! id = Some t → tn_locked t = true →
  p' = PTxRun id ∨
  ∃ t', sy_transactions s !! id = Some t' ∧ tn_locked t' = true ∧ p ≠ PTxRun id.
Proof.
  intros H. destruct p; step_cases H; try (by right; eauto); cbn.
  all: try (intros [(-> & t' & Ht & ->)|[Hne Ht]]%lookup_alter_Some Hl; cbn in Hl;
            first [done | by left | right; exists t'; by split_and! | right; exists t; split_and!; congruence]).
  intros [[-> <-]|[Hne Ht]]%lookup_insert_Some Hl; [done|]. right. by exists t.
Qed.

(** A live query that is locked has its stream; a closed one has its signal or no stream. *)
Definition live_ok (l : LiveQuery) : Prop :=
  (lq_locked l = true → lq_stream l = true) ∧
  (lq_closed l = true → lq_close_signal l = true ∨ lq_stream l = false).

Lemma advance_live_lock r p s s' p' id l :
  advance r p s = Some (s', p') → sy_live s' !! id = Some l → lq_locked l = true →
  p' = PNextSelect id ∨
  ∃ l', sy_live s !! id = Some l' ∧ lq_locked l' = true ∧ p ≠ PNextSelect id.
Proof.
  intros H. destruct p; step_cases H; try (by right; eauto); cbn.
  all: try (intros [(-> & l' & Hl' & ->)|[Hne Hl']]%lookup_alter_Some Hl; cbn in Hl;
            first [done | by left | right; exists l'; by split_and! | right; exists l; split_and!; congruence]).
  intros [[-> <-]|[Hne Hl']]%lookup_insert_Some Hl; [done|]. right. by exists l.
Qed.

Lemma map_Forall_alter {A} (P : A → Prop) f i (m : gmap nat A) :
  map_Forall (λ _, P) m → (∀ x, m !! i = Some x → P x → P (f x)) →
  map_Forall (λ _, P) (alter f i m).
Proof.
  intros Hm Hf j x [(-> & y & Hy & ->)|[_ Hx]]%lookup_alter_Some; [|by eapply Hm].
  by apply Hf, (Hm _ _ Hy).
Qed.

Lemma advance_live_ok r p s s' p' :
  advance r p s = Some (s', p') → map_Forall (λ _, live_ok) (sy_live s) →
  map_Forall (λ _, live_ok) (sy_live s').
Proof.
  intros H Hs. destruct p; step_cases H; try exact Hs; cbn;
    first [apply map_Forall_alter; [done|] | by apply map_Forall_insert_2].
  all: intros [[] [] ? ? [] []] Hx [Hl Hc]; unfold live_ok; cbn in *; simplify_eq/=;
    split; auto; try (by destruct (Hc eq_refl)); try (by destruct (Hl eq_refl)).
Qed.

(** *** Live queries exist while a call uses them *)

Definition live_closed (s : system) (id : nat) : Prop :=
  ∀ l, sy_live s !! id = Some l → lq_closed l = true.

Definition present_inv (s : system) (m : gmap nat pc) : Prop :=
  (∀ id, is_Some (sy_live s !! id) → (id < sy_next s)%nat) ∧
  (∀ i p id, m !! i = Some p → uses_live id p = true → is_Some (sy_live s !! id)) ∧
  (∀ i id k, m !! i = Some (PLiveTake id k) → live_closed s id).

Lemma advance_live_dom r p s s' p' :
  advance r p s = Some (s', p') →
  (∀ id, is_Some (sy_live s' !! id) ↔ is_Some (sy_live s !! id)) ∧ (sy_next s ≤ sy_next s')%nat ∨
  sy_next s' = S (sy_next s) ∧ p' = PRegisterLive (sy_next s) ∧
  ∃ l, sy_live s' = <[sy_next s := l]> (sy_live s).
Proof.
  intros H. destruct p; step_cases H; try (by left; split; [|cbn; lia]);
    try (left; split; [intros; apply lookup_alter_is_Some | cbn; lia]).
  right. split_and!; [done..|]. by eexists.
Qed.

Lemma advance_uses r p s s' p' :
  advance r p s = Some (s', p') →
  ∀ id, uses_live id p' = true →
    uses_live id p = true ∨ is_Some (sy_live s !! id) ∨ is_Some (sy_live s' !! id).
Proof.
  intros H id.
  assert (id ∈ alive (sy_live s) (sd_live_queries (sy_database s)) → is_Some (sy_live s !! id)) as Hal.
  { intros Hx. by apply list_elem_of_filter in Hx as [Hx _]. }
  unfold uses_live at 1. destruct p; step_cases H; cbn in *; try done; auto; intros _.
  1: rewrite lookup_insert_eq; by eauto.
  1-2: set_solver.
  all: right; left; apply Hal; set_solver.
Qed.

Lemma live_closed_set i f s id :
  (∀ l, lq_closed l = true → lq_closed (f l) = true) → live_closed s id →
  live_closed (set_live i f s) id.
Proof.
  intros Hf Hc l. cbn. intros [(-> & l' & Hl & ->)|[_ Hl]]%lookup_alter_Some; eauto.
Qed.

Lemma live_closed_requested id s : live_closed (set_live id request_close s) id.
Proof. intros l. cbn. by intros [(_ & l' & _ & ->)|[? _]]%lookup_alter_Some. Qed.

Lemma advance_live_closed r p s s' p' id :
  advance r p s = Some (s', p') → (id < sy_next s)%nat →
  (live_closed s id → live_closed s' id) ∧ (∀ k, p' = PLiveTake id k → live_closed s' id).
Proof.
  intros H Hlt.
  destruct p; step_cases H; try (by split; [auto | intros; simplify_eq]);
    try (by split; [by apply live_closed_set | intros; simplify_eq]).
  - split; [|done]. intros Hc l. cbn. rewrite lookup_insert_ne by lia. apply Hc.
  - split; [by apply live_closed_set|]. intros k' ?. simplify_eq. apply live_closed_requested.
Qed.

Lemma present_step s m tid r p s' p' :
  present_inv s m → m !! tid = Some p → advance r p s = Some (s', p') →
  present_inv s' (<[tid := p']> m).
Proof.
  intros (Hn & Hu & Ht) Hp Hs.
  assert (∀ id, is_Some (sy_live s !! id) → is_Some (sy_live s' !! id)) as Hdom.
  { intros id Hid. destruct (advance_live_dom _ _ _ _ _ Hs) as [[Hx _]|(_ & _ & l & ->)];
      [by apply Hx|]. rewrite lookup_insert_is_Some. destruct (decide (sy_next s = id)); auto. }
  split_and!.
  - intros id Hid. destruct (advance_live_dom _ _ _ _ _ Hs) as [[Hx Hle]|(-> & _ & l & Hl)].
    + apply Hx, Hn in Hid. lia.
    + rewrite Hl, lookup_insert_is_Some in Hid. destruct Hid as [<-|[_ Hid]]; [lia|].
      apply Hn in Hid. lia.
  - intros j q id [[<- <-]|[_ Hj]]%lookup_insert_Some Hq; [|by eapply Hdom, Hu].
    destruct (advance_uses _ _ _ _ _ Hs _ Hq) as [Hx|[Hx|Hx]]; [by eapply Hdom, Hu | by apply Hdom | done].
  - assert (∀ id k, uses_live id (PLiveTake id k) = true) as Hself.
    { intros. cbn. by rewrite bool_decide_eq_true_2. }
    intros j id k [[<- ->]|[_ Hj]]%lookup_insert_Some.
    + assert (is_Some (sy_live s !! id)) as Hid%Hn.
      { destruct (advance_uses _ _ _ _ _ Hs _ (Hself id k)) as [Hx|[Hx|Hx]]; [by eapply Hu | done|].
        by destruct (advance_live_dom _ _ _ _ _ Hs) as [[Hy _]|(_ & ? & _)]; [apply Hy|]. }
      by eapply (advance_live_closed _ _ _ _ _ _ Hs Hid).
    + pose proof (Hn _ (Hu _ _ _ Hj (Hself id k))) as Hid.
      destruct (advance_live_closed _ _ _ _ _ _ Hs Hid) as [Hx _]. eapply Hx, Ht, Hj.
Qed.

Lemma present_holds w : reachable w → present_inv (wo_system w) (wo_calls w).
Proof.
  apply reachable_invariant.
  - split_and!; [intros id [? ?]; done | done..].
  - intros s m c i (Hn & Hu & Ht) Hc Hi. split_and!; [done| |].
    + intros j p id [[<- <-]|[_ Hj]]%lookup_insert_Some Hp; [|by eapply Hu].
      destruct c; cbn in *; try done; try rewrite orb_false_r in *;
        by repeat (rewrite bool_decide_eq_true in *; subst).
    + intros j id k [[<- Hx]|[_ Hj]]%lookup_insert_Some; [by destruct c | by eapply Ht].
  - intros s m tid r p s' p' _. apply present_step.
  - done.
  - intros s m id (Hn & Hu & Ht) Hno. split_and!.
    + intros j. cbn. intros [_ Hj]%lookup_delete_is_Some. by apply Hn.
    + intros j p id' Hj Hp. apply lookup_delete_is_Some. split; [|by eapply Hu].
      intros ->. by rewrite (Hno _ _ Hj) in Hp.
    + intros j id' k Hj l. cbn. intros [_ Hl]%lookup_delete_Some. by eapply Ht.
Qed.

Lemma object_holds w : reachable w → object_inv (wo_system w) (wo_calls w).
Proof.
  assert (∀ q m i p, running q m → m !! i = None → running q (<[i := p]> m)) as Hnew.
  { intros q m i p [j Hj] Hi. exists j. rewrite lookup_insert_ne by congruence. done. }
  assert (∀ q m i p p', running q m → m !! i = Some p → p ≠ q → running q (<[i := p']> m)) as Hold.
  { intros q m i p p' [j Hj] Hi Hne. exists j. rewrite lookup_insert_ne by congruence. done. }
  assert (∀ q m i, running q (<[i := q]> m)) as Hself.
  { intros. exists i. apply lookup_insert_eq. }
  apply (reachable_invariant (λ s m, object_inv s m)).
  - done.
  - intros s m c i (H1 & H2 & H3) _ Hi. split_and!; [by eauto..|].
    intros id l Hl. destruct (H3 _ _ Hl) as [H4 H5]. split; [|done]. intros H6.
    destruct (H4 H6). by auto.
  - intros s m tid r p s' p' _ (H1 & H2 & H3) Hp Hs. split_and!.
    + intros Hl. destruct (advance_inner _ _ _ _ _ Hs Hl) as [ ->|[Hx Hne]]; [done|].
      eapply Hold; eauto.
    + intros id t Ht Hl.
      destruct (advance_tx_lock _ _ _ _ _ _ _ Hs Ht Hl) as [ ->|(t' & Ht' & Hl' & Hne)]; [done|].
      eapply Hold; eauto.
    + intros id l Hl. assert (live_ok l) as [Hok1 Hok2].
      { revert id l Hl. apply (advance_live_ok _ _ _ _ _ Hs). intros id l Hl.
        destruct (H3 _ _ Hl) as [H4 H5]. split; [by apply H4 | done]. }
      split; [|done]. intros Hlock. split; [by apply Hok1|].
      destruct (advance_live_lock _ _ _ _ _ _ _ Hs Hl Hlock) as [ ->|(l' & Hl' & Hk & Hne)]; [done|].
      eapply Hold; [|done..]. by apply (H3 _ _ Hl').
  - intros s m id (H1 & H2 & H3) _. split_and!; [done| |done].
    intros j t. cbn. intros [_ Ht]%lookup_delete_Some. by eapply H2.
  - intros s m id (H1 & H2 & H3) _. split_and!; [done..|].
    intros j l. cbn. intros [_ Hl]%lookup_delete_Some. by eapply H3.
Qed.

(** ** Progress *)

(** The call waits for the next notification of a live query. *)
Definition awaits_notification (p : pc) : bool :=
  match p with PNextLock _ | PNextSelect _ => true | _ => false end.
(** The call waits for the lifecycle lock. *)
Definition awaits_lifecycle (p : pc) : bool :=
  match p with PSessionLock | PCloseLock _ | PGuardLock _ => true | _ => false end.

(** The engine answers what it was asked; no notification arrives. *)
Definition unaided (p : pc) : reply :=
  match p with PNextSelect _ => ReplyClose | _ => ReplyOk end.
Definition can_move (s : system) (m : gmap nat pc) : Prop :=
  ∃ i p, m !! i = Some p ∧ is_Some (advance (unaided p) p s).

Lemma holder_moves s m q : running q m → is_Some (advance (unaided q) q s) → can_move s m.
Proof. intros [i Hi] Hq. by exists i, q. Qed.

Lemma progress_inner s m i p :
  object_inv s m → present_inv s m → m !! i = Some p → returned p = false →
  awaits_notification p = false → awaits_lifecycle p = false → can_move s m.
Proof.
  intros (H1 & H2 & H3) (_ & _ & Ht) Hi Hr Hn Hl.
  destruct (advance (unaided p) p s) as [x|] eqn:Hs; [by exists i, p; rewrite Hs|].
  destruct p; step_cases Hs; try done;
    try (by apply (holder_moves _ _ _ (H1 eq_refl)); eexists);
    try (by eapply holder_moves; [eapply H2; eassumption | eexists]).
  match goal with Hlive : sy_live s !! id = Some ?l |- _ =>
    destruct (H3 _ _ Hlive) as [Hlock Hsig]; pose proof (Ht _ _ _ Hi _ Hlive) as Hc end.
  destruct Hlock as [Hstream Hrun]; [done|].
  apply (holder_moves _ _ _ Hrun). cbn. simplify_option_eq.
  destruct (Hsig Hc) as [->|Hx]; [by eexists | congruence].
Qed.

(** C18: calls do not deadlock: as long as a call other than one waiting for a notification has
    not returned, some call can take its next step, without a notification arriving and
    whatever the order in which the calls got here; in particular [close] and session
    changes do not wait for ever, and closing a live query wakes its waiting [next]. *)
Theorem calls_progress w i p :
  reachable w → wo_calls w !! i = Some p → returned p = false → awaits_notification p = false →
  ∃ j q w', wo_calls w !! j = Some q ∧ happen (EStep j (unaided q)) w = Some w'.
Proof.
  intros Hw Hi Hr Hn. pose proof (object_holds _ Hw) as Hobj. pose proof (present_holds _ Hw) as Hpre.
  pose proof (lock_holds _ Hw) as (Hread & Hwrite & _).
  assert (can_move (wo_system w) (wo_calls w)) as (j & q & Hj & [[s' q'] Hs]).
  { destruct (awaits_lifecycle p) eqn:Hl; [|by eapply progress_inner].
    destruct (decide (0 < count holds_write (wo_calls w)))%nat as [H|H].
    { apply count_pos_inv in H as (j & q & Hj & Hq). eapply (progress_inner _ _ j q); eauto; by destruct q. }
    destruct (decide (0 < count holds_read (wo_calls w)))%nat as [H'|H'].
    { apply count_pos_inv in H' as (j & q & Hj & Hq). eapply (progress_inner _ _ j q); eauto; by destruct q. }
    exists i, p. split; [done|]. unfold readers, writer in *.
    assert (lc_readers (sd_lifecycle (sy_database (wo_system w))) = 0)%nat as Hr0 by lia.
    assert (lc_writer (sd_lifecycle (sy_database (wo_system w))) = false) as Hw0
      by (destruct (lc_writer _); [cbn in *; lia | done]).
    destruct p; try done; cbn; unfold writable_lifecycle; rewrite Hw0, ?Hr0; by eexists. }
  exists j, q. eexists. split; [done|]. cbn. rewrite Hj. cbn. by rewrite Hs.
Qed.

(** A [next] waits on a live query, another [next] behind it, and [close] behind both. *)
Definition waiting_close : list event :=
  ECall CallLive :: steps 0 4 ++ ECall (CallNext 0) :: steps 1 2 ++
  ECall (CallNext 0) :: steps 2 1 ++ ECall CallClose :: steps 3 7.

Lemma calls_progress_witness :
  wo_calls (after waiting_close) !! 3%nat = Some (PLiveTake 0 (LiveClosing (Ok tt) [])) ∧
  happen (EStep 3 ReplyOk) (after waiting_close) = None ∧
  ∃ j q w', wo_calls (after waiting_close) !! j = Some q ∧
    happen (EStep j (unaided q)) (after waiting_close) = Some w'.
Proof.
  split; [by vm_compute|]. split; [by vm_compute|].
  apply (calls_progress (after waiting_close) 3 (PLiveTake 0 (LiveClosing (Ok tt) []))).
  - apply after_reachable. vm_compute. by eexists.
  - by vm_compute.
  - done.
  - done.
Defined.
