(* ===== verification/Registry.v ===== *)
(** * Who owns a runtime.

    Models [RuntimeRegistry] of [crates/surrealdb-rn-core/src/sync_client.rs] and the part of
    opening and closing a [NativeSyncClient] that shares runtime cells: one handle of the
    database, the clients opened on it, and the cells they share.  A cell is the
    [Arc<AsyncMutex<RuntimeState>>]; the registry has a weak reference to it, and every
    client (with the operations running on it) a strong one.  What the operations do to a
    cell is [NativeOps]. *)

From S2P Require Import Prelude Protocol ClientState NativeErrors StateRows NativeClient.

(** [type RuntimeKey = (u64, String, String)] *)
Abbreviation RuntimeKey := (N * string * string)%type.

(** The key's generation is the client's [session_generation]. *)
Record NativeSyncClient := mkClient {
  nc_runtime : nat;
  nc_key : RuntimeKey;
  nc_local_closed : bool;
}.

Record registry := mkRegistry {
  (** [entries]; the weak reference to a dropped cell is still there until the next [retain] *)
  rg_entries : gmap RuntimeKey nat;
  rg_poison_all : bool;
  rg_cells : gmap nat RuntimeState;
  rg_next : nat;
  rg_clients : gmap nat NativeSyncClient;
}.

(** [strong_count() > 0] *)
Definition has_owner (cell : nat) (clients : gmap nat NativeSyncClient) : Prop :=
  map_Exists (λ _ c, nc_runtime c = cell) clients.

Definition is_poisoned (g : registry) : bool := rg_poison_all g.
Definition poison (g : registry) : registry :=
  mkRegistry (rg_entries g) true (rg_cells g) (rg_next g) (rg_clients g).

(** [RuntimeRegistry::acquire]; the journals of a new cell get random prefixes. *)
Definition acquire (read_prefix subscription_prefix : string) (key : RuntimeKey) (g : registry)
  : result nat NativeSyncError * registry :=
  if is_poisoned g then (Err RecoveryRequired, g)
  else
    let entries := filter (λ '(_, cell), has_owner cell (rg_clients g)) (rg_entries g) in
    match entries !! key with
    | Some cell =>
        (Ok cell, mkRegistry entries (rg_poison_all g) (rg_cells g) (rg_next g) (rg_clients g))
    | None =>
        (Ok (rg_next g),
         mkRegistry (<[key := rg_next g]> entries) (rg_poison_all g)
           (<[rg_next g := fresh_cell read_prefix subscription_prefix]> (rg_cells g))
           (S (rg_next g)) (rg_clients g))
    end.

(** [open_sync_client_with_mode] up to [initialize_runtime], which runs as an operation of the
    new client; [generation] is the session generation it loaded. *)
Definition open_client (embedded : bool) (read_prefix subscription_prefix : string) (generation : N)
    (options : NativeSyncOpenOptions) (id : nat) (g : registry)
  : result unit NativeSyncError * registry :=
  if negb embedded then (Err RequiresEmbeddedDatabase, g)
  else match validate_key (mkKey (oo_partition_id options) (oo_client_id options)) with
       | Err e => (Err (map_persistence_error e), g)
       | Ok _ =>
           let key := (generation, oo_partition_id options, oo_client_id options) in
           match acquire read_prefix subscription_prefix key g with
           | (Err e, g) => (Err e, g)
           | (Ok cell, g) =>
               (Ok tt, mkRegistry (rg_entries g) (rg_poison_all g) (rg_cells g) (rg_next g)
                         (<[id := mkClient cell key false]> (rg_clients g)))
           end
       end.

(** [NativeSyncClient::close] before it waits for the runtime *)
Definition close_client (id : nat) (g : registry) : registry :=
  mkRegistry (rg_entries g) (rg_poison_all g) (rg_cells g) (rg_next g)
    (alter (λ c, mkClient (nc_runtime c) (nc_key c) true) id (rg_clients g)).

(** [NativeSyncClient::is_closed]: [session_ok] is [ensure_session().is_ok()], [try_lock] the
    cell when its mutex is free. *)
Definition client_is_closed (c : NativeSyncClient) (session_ok : bool) (try_lock : option RuntimeState)
  : bool :=
  nc_local_closed c || negb session_ok ||
  match try_lock with Some slot => bool_decide (rt_runtime slot = None) | None => false end.

(** The last reference to a client goes; a cell goes with its last owner. *)
Definition drop_client (id : nat) (g : registry) : registry :=
  let clients := delete id (rg_clients g) in
  mkRegistry (rg_entries g) (rg_poison_all g)
    (filter (λ '(cell, _), has_owner cell clients) (rg_cells g)) (rg_next g) clients.

(** What happens to the registry of a handle over time; an operation of a client may replace
    the contents of its cell by anything. *)
Inductive owning : registry → Prop :=
| owning_new : owning (mkRegistry ∅ false ∅ 0 ∅)
| owning_open g embedded p q generation options id :
    owning g → rg_clients g !! id = None →
    owning (open_client embedded p q generation options id g).2
| owning_close g id : owning g → owning (close_client id g)
| owning_drop g id : owning g → owning (drop_client id g)
| owning_poison g : owning g → owning (poison g)
| owning_work g cell slot :
    owning g →
    owning (mkRegistry (rg_entries g) (rg_poison_all g) (alter (λ _, slot) cell (rg_cells g))
              (rg_next g) (rg_clients g)).

(** ** One runtime per journal and session *)

Definition registry_inv (g : registry) : Prop :=
  map_Forall (λ _ cell, (cell < rg_next g)%nat) (rg_entries g) ∧
  (∀ k k' cell, rg_entries g !! k = Some cell → rg_entries g !! k' = Some cell → k = k') ∧
  map_Forall (λ _ c, rg_entries g !! nc_key c = Some (nc_runtime c) ∧
                     is_Some (rg_cells g !! nc_runtime c)) (rg_clients g).

Lemma acquire_owned p q key g cell g' :
  registry_inv g → acquire p q key g = (Ok cell, g') →
  registry_inv g' ∧ rg_entries g' !! key = Some cell ∧ is_Some (rg_cells g' !! cell) ∧
  rg_clients g' = rg_clients g.
Proof.
  intros (Hlt & Hinj & Hc). unfold acquire. destruct (is_poisoned g); [done|].
  set (entries := filter _ (rg_entries g)).
  assert (∀ k c, entries !! k = Some c ↔ rg_entries g !! k = Some c ∧ has_owner c (rg_clients g)) as He.
  { intros k c. unfold entries. by rewrite map_lookup_filter_Some. }
  assert (∀ i c, rg_clients g !! i = Some c → entries !! nc_key c = Some (nc_runtime c)) as Hkeep.
  { intros i c Hi. apply He. split; [by apply (Hc _ _ Hi)|]. by exists i, c. }
  destruct (entries !! key) as [old|] eqn:Hkey; intros ?; simplify_eq/=.
  - split_and!; [|done| |done].
    + split_and!; cbn.
      * intros k c Hk. apply He in Hk as [Hk _]. by apply (Hlt _ _ Hk).
      * intros k k' c Hk Hk'. apply He in Hk as [Hk _], Hk' as [Hk' _]. by eapply Hinj.
      * intros i c Hi. split; [by eapply Hkeep | by apply (Hc _ _ Hi)].
    + apply He in Hkey as (_ & i & c & Hi & <-). by apply (Hc _ _ Hi).
  - assert (∀ k c, entries !! k = Some c → c < rg_next g)%nat as Hlt'.
    { intros k c Hk. apply He in Hk as [Hk _]. by apply (Hlt _ _ Hk). }
    split_and!; [|by rewrite lookup_insert_eq | by rewrite lookup_insert_eq; eauto | done].
    split_and!; cbn.
    + apply map_Forall_insert_2; [lia|]. intros k c Hk. apply Hlt' in Hk. lia.
    + intros k k' c [[<- <-]|[_ Hk]]%lookup_insert_Some [[<- Hx]|[_ Hk']]%lookup_insert_Some; subst; [done|..].
      * apply Hlt' in Hk'. lia.
      * apply Hlt' in Hk. lia.
      * apply He in Hk as [Hk _], Hk' as [Hk' _]. by eapply Hinj.
    + intros i c Hi. split.
      * rewrite lookup_insert_ne; [by eapply Hkeep|]. intros ->. by rewrite (Hkeep _ _ Hi) in Hkey.
      * apply lookup_insert_is_Some'. right. by apply (Hc _ _ Hi).
Qed.

Lemma registry_holds g : owning g → registry_inv g.
Proof.
  induction 1 as [|g embedded p q generation options id _ IH Hid|g id _ IH|g id _ IH|g _ IH|g cell slot _ IH].
  - split_and!; [done..|]. apply map_Forall_empty.
  - unfold open_client. destruct embedded; [|done]. cbn [negb].
    destruct (validate_key _) as [|e]; [|done].
    destruct (acquire p q _ g) as [[cell|e] g'] eqn:Ha.
    + destruct (acquire_owned _ _ _ _ _ _ IH Ha) as ((H1 & H2 & H3) & H4 & H5 & H6).
      split_and!; [done..|]. cbn. by apply map_Forall_insert_2.
    + unfold acquire in Ha. repeat case_match; by simplify_eq/=.
  - destruct IH as (H1 & H2 & H3). split_and!; [done..|]. cbn.
    intros i c [(-> & c' & Hc & ->)|[_ Hc]]%lookup_alter_Some; by apply (H3 _ _ Hc).
  - destruct IH as (H1 & H2 & H3). split_and!; [done..|]. cbn. intros i c Hi.
    pose proof Hi as [_ Hc]%lookup_delete_Some. destruct (H3 _ _ Hc) as [H4 [slot H5]].
    split; [done|]. exists slot. apply map_lookup_filter_Some. split; [done|]. by exists i, c.
  - done.
  - destruct IH as (H1 & H2 & H3). split_and!; [done..|]. cbn. intros i c Hc.
    rewrite lookup_alter_is_Some. by apply (H3 _ _ Hc).
Qed.

(** C19: two clients of a handle share a runtime exactly when they were opened with the same session
    generation, partition and client id: no journal has two runtimes in a session, no
    runtime serves two journals or outlives a session change into a new client, and the
    runtime of a client is never dropped under it, whatever is opened, closed and dropped. *)
Theorem one_runtime_per_journal g i j a b :
  owning g → rg_clients g !! i = Some a → rg_clients g !! j = Some b →
  (nc_runtime a = nc_runtime b ↔ nc_key a = nc_key b) ∧ is_Some (rg_cells g !! nc_runtime a).
Proof.
  intros Hg Ha Hb. destruct (registry_holds _ Hg) as (_ & Hinj & Hc).
  destruct (Hc _ _ Ha) as [Ha1 Ha2], (Hc _ _ Hb) as [Hb1 _]. split; [|done]. split; intros Heq.
  - rewrite Heq in Ha1. by eapply Hinj.
  - rewrite Heq in Ha1. congruence.
Qed.

Definition two_clients : registry :=
  let options := mkOpenOptions "p" "c" "s" 1 in
  (open_client true "r" "s" 1 options 2
    (open_client true "r" "s" 0 options 1
      (open_client true "r" "s" 0 options 0 (mkRegistry ∅ false ∅ 0 ∅)).2).2).2.

Lemma one_runtime_per_journal_witness :
  rg_clients two_clients !! 1%nat = Some (mkClient 0 (0%N, "p", "c") false) ∧
  rg_clients two_clients !! 2%nat = Some (mkClient 1 (1%N, "p", "c") false) ∧
  is_Some (rg_cells two_clients !! 1%nat).
Proof.
  split; [by vm_compute|]. split; [by vm_compute|].
  apply (one_runtime_per_journal two_clients 2 1 (mkClient 1 (1%N, "p", "c") false)
           (mkClient 0 (0%N, "p", "c") false)).
  - unfold two_clients. repeat (apply owning_open; [|by vm_compute]). apply owning_new.
  - by vm_compute.
  - by vm_compute.
Defined.
