(* ===== verification/Surface.v ===== *)
(** * Connecting and querying.

    Models the functions of [crates/surrealdb-rn-core/src/lib.rs] that work on values:
    endpoint checks, [connect] with its retries, the query methods of [SurrealDatabase] and
    [SurrealTransaction] with their batches, result encoding, timing and live notifications.
    The engine is a parameter: an abstract state, the answer of a query in it, and the
    attempts to connect.  The theorems are about the retries of [connect], and about
    batches and profiled queries against single queries. *)

From S2P Require Import Prelude NativeErrors Json Wire Memory WireProps.

(** ** Records *)

Record ConnectOptions := mkConnectOptions {
  endpoint : string; namespace : option string; database : option string;
}.
Record QueryStatementResult := mkStatement { statement_index : N; value_json : string }.
Record NativeBatchQuery := mkBatchQuery { bq_surql : string; bq_variables_json : option string }.
Record NativeBatchQueryResult := mkBatchResult {
  query_index : N; bq_results : list QueryStatementResult;
}.
Record NativeQueryTiming := mkTiming {
  input_decode_ns : N; engine_ns : N; output_encode_ns : N;
}.
Record NativeProfiledQueryResult := mkProfiled {
  pq_results : list QueryStatementResult; timing : NativeQueryTiming;
}.
Inductive NativeOutputEncoding := Tree | Streaming.

(** [surrealdb::types::Action]; [ActionOther] is a variant the match does not name. *)
Inductive Action := ActionCreate | ActionUpdate | ActionDelete | ActionError | ActionOther.
Inductive LiveAction := LiveCreate | LiveUpdate | LiveDelete | LiveError | LiveUnknown.
Record LiveNotification := mkNotification {
  ln_query_id : string; ln_action : LiveAction; ln_value_json : string;
}.

Definition live_action (action : Action) : LiveAction :=
  match action with
  | ActionCreate => LiveCreate
  | ActionUpdate => LiveUpdate
  | ActionDelete => LiveDelete
  | ActionError => LiveError
  | ActionOther => LiveUnknown
  end.

(** ** Endpoints *)

(** [str::starts_with] *)
Definition starts_with (s prefix : string) : bool := String.prefix prefix s.

Definition is_embedded_endpoint (endpoint : string) : bool :=
  String.eqb endpoint "memory" || starts_with endpoint "mem://" || starts_with endpoint "surrealkv://".

Definition validate_endpoint (endpoint : string) : result unit SurrealRnError :=
  if is_embedded_endpoint endpoint || starts_with endpoint "ws://" || starts_with endpoint "wss://"
  then Ok tt else Err RnInvalidEndpoint.

(** ** Connecting *)

Section connect.
Context {Client : Type}.
(** [connect_any] at each attempt; an error says whether its text contains "already locked". *)
Variable connect_any : nat → result Client bool.
(** [client.use_ns(..).use_db(..)] *)
Variable use_session : string → option string → Client → result Client unit.

Definition MAX_ATTEMPTS : nat := 21.

(** The attempts that are left; the result and how many were made. *)
Fixpoint connect_attempts (embedded_file : bool) (remaining attempt : nat)
  : result Client SurrealRnError * nat :=
  match remaining with
  | O => (Err RnInternal, attempt)
  | S remaining =>
      match connect_any attempt with
      | Ok client => (Ok client, S attempt)
      | Err locked =>
          if embedded_file && locked && (S attempt <? MAX_ATTEMPTS)%nat
          then connect_attempts embedded_file remaining (S attempt)
          else (Err RnDatabase, S attempt)
      end
  end.

Definition connect_with_shutdown_retry (endpoint : string) : result Client SurrealRnError * nat :=
  connect_attempts (starts_with endpoint "surrealkv://") MAX_ATTEMPTS 0.

(** The client of the new handle and its [embedded] flag; the handle starts as
    [Handle.connected]. *)
Definition connect (options : ConnectOptions) : result (Client * bool) SurrealRnError :=
  let? _ := validate_endpoint (endpoint options) in
  let? client := (connect_with_shutdown_retry (endpoint options)).1 in
  let? client :=
    match namespace options, database options with
    | Some ns, db => map_err (λ _, RnDatabase) (use_session ns db client)
    | None, Some _ => Err RnInvalidEndpoint
    | None, None => Ok client
    end in
  Ok (client, is_embedded_endpoint (endpoint options)).

End connect.

(** ** Queries *)

Section query.
Context `{!SurrealTypes} {E : Type}.
(** One query in the engine, [..query(surql).bind(variables).await?.check()?]: an error, or
    one value per statement. *)
Variable run_query : string → list (string * SValue) → E → result (list SValue) unit * E.
(** [serde_json::from_str], [serde_json::to_string] *)
Variable from_str : string → result JsonValue unit.
Variable render : list json_event → result string unit.

(** The loop of [query_results_with_encoding] from statement [index]; [index as u32]. *)
Fixpoint encode_statements (encoding : NativeOutputEncoding) (index : N) (response : list SValue)
  : result (list QueryStatementResult) SurrealRnError :=
  match response with
  | [] => Ok []
  | value :: response =>
      let? value_json := match encoding with
                         | Tree => encode_value_tree render value
                         | Streaming => encode_value render value
                         end in
      let? results := encode_statements encoding (index + 1) response in
      Ok (mkStatement (index mod (u32_max + 1)) value_json :: results)
  end.

Definition query_results_with_encoding (response : list SValue) (encoding : NativeOutputEncoding)
  : result (list QueryStatementResult) SurrealRnError :=
  encode_statements encoding 0 response.
Definition query_results (response : list SValue) : result (list QueryStatementResult) SurrealRnError :=
  query_results_with_encoding response Streaming.

(** [elapsed_ns] of an elapsed time in nanoseconds *)
Definition elapsed_ns (elapsed : N) : N := if (elapsed <=? u64_max)%N then elapsed else u64_max.

(** An error of the engine is [SurrealRnError::Database]. *)
Definition engine_query (surql : string) (variables : list (string * SValue)) (e : E)
  : result (list SValue) SurrealRnError * E :=
  let '(response, e) := run_query surql variables e in
  (map_err (λ _, RnDatabase) response, e).

(** [SurrealDatabase::query], with the client the handle gave. *)
Definition query (surql : string) (variables_json : option string) (e : E)
  : result (list QueryStatementResult) SurrealRnError * E :=
  match decode_variables from_str variables_json with
  | Err error => (Err error, e)
  | Ok variables =>
      let '(response, e) := engine_query surql variables e in
      (let? response := response in query_results response, e)
  end.

(** [query_profiled_with_encoding]; the times are what the clock measured. *)
Definition query_profiled_with_encoding (surql : string) (variables_json : option string)
    (encoding : NativeOutputEncoding) (t_input t_engine t_output : N) (e : E)
  : result NativeProfiledQueryResult SurrealRnError * E :=
  match decode_variables from_str variables_json with
  | Err error => (Err error, e)
  | Ok variables =>
      let '(response, e) := engine_query surql variables e in
      (let? response := response in
       let? results := query_results_with_encoding response encoding in
       Ok (mkProfiled results (mkTiming (elapsed_ns t_input) (elapsed_ns t_engine) (elapsed_ns t_output))), e)
  end.
Definition query_profiled (surql : string) (variables_json : option string)
    (t_input t_engine t_output : N) (e : E) : result NativeProfiledQueryResult SurrealRnError * E :=
  query_profiled_with_encoding surql variables_json Streaming t_input t_engine t_output e.

(** *** In a transaction: [closed] and whether [inner] still holds it *)

Definition tx_query (closed inner : bool) (surql : string) (variables_json : option string) (e : E)
  : result (list QueryStatementResult) SurrealRnError * E :=
  if closed then (Err RnClosed, e)
  else match decode_variables from_str variables_json with
       | Err error => (Err error, e)
       | Ok variables =>
           if inner then
             let '(response, e) := engine_query surql variables e in
             (let? response := response in query_results response, e)
           else (Err RnClosed, e)
       end.

Definition tx_query_profiled_with_encoding (closed inner : bool) (surql : string)
    (variables_json : option string) (encoding : NativeOutputEncoding)
    (t_input t_engine t_output : N) (e : E)
  : result NativeProfiledQueryResult SurrealRnError * E :=
  if closed then (Err RnClosed, e)
  else match decode_variables from_str variables_json with
       | Err error => (Err error, e)
       | Ok variables =>
           if inner then
             let '(response, e) := engine_query surql variables e in
             (let? response := response in
              let? results := query_results_with_encoding response encoding in
              Ok (mkProfiled results
                    (mkTiming (elapsed_ns t_input) (elapsed_ns t_engine) (elapsed_ns t_output))), e)
           else (Err RnClosed, e)
       end.

(** [u32::try_from] *)
Definition try_u32 (n : N) : result N SurrealRnError :=
  if (n <=? u32_max)%N then Ok n else Err RnInternal.

Fixpoint batch_loop (index : N) (queries : list NativeBatchQuery) (e : E)
  : result (list NativeBatchQueryResult) SurrealRnError * E :=
  match queries with
  | [] => (Ok [], e)
  | q :: queries =>
      match decode_variables from_str (bq_variables_json q) with
      | Err error => (Err error, e)
      | Ok variables =>
          let '(response, e) := engine_query (bq_surql q) variables e in
          match (let? response := response in
                 let? index := try_u32 index in
                 let? results := query_results response in
                 Ok (mkBatchResult index results)) with
          | Err error => (Err error, e)
          | Ok result =>
              let '(results, e) := batch_loop (index + 1) queries e in
              (let? results := results in Ok (result :: results), e)
          end
      end
  end.

Definition query_batch (closed inner : bool) (queries : list NativeBatchQuery) (e : E)
  : result (list NativeBatchQueryResult) SurrealRnError * E :=
  if closed then (Err RnClosed, e)
  else if inner then batch_loop 0 queries e
  else (Err RnClosed, e).

Fixpoint execute_loop (surql : string) (variables_json : list string) (e : E)
  : result unit SurrealRnError * E :=
  match variables_json with
  | [] => (Ok tt, e)
  | json :: variables_json =>
      match decode_variables from_str (Some json) with
      | Err error => (Err error, e)
      | Ok variables =>
          let '(response, e) := engine_query surql variables e in
          match response with
          | Err error => (Err error, e)
          | Ok _ => execute_loop surql variables_json e
          end
      end
  end.

Definition execute_batch (closed inner : bool) (surql : string) (variables_json : list string) (e : E)
  : result N SurrealRnError * E :=
  if closed then (Err RnClosed, e)
  else if inner then
    let '(done, e) := execute_loop surql variables_json e in
    (let? _ := done in try_u32 (N.of_nat (length variables_json)), e)
  else (Err RnClosed, e).

(** The notification [LiveQuery::next] returns. *)
Definition live_notification (query_id : string) (action : Action) (data : SValue)
  : result LiveNotification SurrealRnError :=
  let? value_json := encode_value render data in
  Ok (mkNotification query_id (live_action action) value_json).

End query.

(** ** What connecting does *)

Section retries.
Context {Client : Type} (connect_any : nat → result Client bool).

(** What the attempts before [n] and the one that ended the loop were. *)
Definition attempts_end (embedded_file : bool) (from : nat) (out : result Client SurrealRnError * nat)
  : Prop :=
  (from < out.2 ≤ MAX_ATTEMPTS)%nat ∧
  (∀ k, (from ≤ k)%nat → (S k < out.2)%nat → connect_any k = Err true) ∧
  ((1 < out.2 - from)%nat → embedded_file = true) ∧
  match connect_any (pred out.2) with
  | Ok client => out.1 = Ok client
  | Err locked => out.1 = Err RnDatabase ∧
      (embedded_file = true → locked = true → out.2 = MAX_ATTEMPTS)
  end.

Lemma connect_attempts_end embedded_file remaining attempt :
  (attempt + remaining = MAX_ATTEMPTS)%nat → (0 < remaining)%nat →
  attempts_end embedded_file attempt (connect_attempts connect_any embedded_file remaining attempt).
Proof.
  revert attempt. induction remaining as [|remaining IH]; intros attempt Hsum Hpos; [lia|].
  unfold attempts_end. cbn [connect_attempts]. destruct (connect_any attempt) as [client|locked] eqn:Hc.
  { cbn. rewrite Hc. split_and!; [lia..|done]. }
  destruct (embedded_file && locked && (S attempt <? MAX_ATTEMPTS)%nat) eqn:Hretry.
  - rewrite !andb_true_iff, Nat.ltb_lt in Hretry. destruct Hretry as [[-> ->] Hlt].
    destruct (IH (S attempt)) as (H1 & H2 & H3 & H4); [lia..|].
    split_and!; [lia|lia| |done|done].
    intros k Hk Hk'. destruct (decide (k = attempt)) as [->|]; [done|]. apply H2; lia.
  - cbn. rewrite Hc. split_and!; [lia..|done|]. intros -> ->. cbn [andb] in Hretry.
    apply Nat.ltb_ge in Hretry. lia.
Qed.

(** [connect_with_shutdown_retry] makes between 1 and 21 attempts and answers with the last one;
    it goes on only after an attempt that found the database file locked, so endpoints
    without a file are tried once, and gives up on a locked file only after all 21; the
    error for an unreachable state is not returned. *)
Theorem connect_retry_exact (endpoint : string) :
  let out := connect_with_shutdown_retry connect_any endpoint in
  (1 ≤ out.2 ≤ MAX_ATTEMPTS)%nat ∧
  (∀ k, (S k < out.2)%nat → connect_any k = Err true) ∧
  (starts_with endpoint "surrealkv://" = false → out.2 = 1%nat) ∧
  match connect_any (pred out.2) with
  | Ok client => out.1 = Ok client
  | Err locked => out.1 = Err RnDatabase ∧
      (starts_with endpoint "surrealkv://" = true → locked = true → out.2 = MAX_ATTEMPTS)
  end.
Proof.
  intros out. destruct (connect_attempts_end (starts_with endpoint "surrealkv://") MAX_ATTEMPTS 0)
    as (H1 & H2 & H3 & H4); [unfold MAX_ATTEMPTS; lia..|].
  fold (connect_with_shutdown_retry connect_any endpoint) in *. fold out in H1, H2, H3, H4.
  split_and!; [lia|lia| | |done].
  - intros k Hk. apply H2; [lia | done].
  - intros Hno. destruct (decide (1 < out.2)%nat) as [Hx|]; [|lia].
    rewrite H3 in Hno; [done | lia].
Qed.

End retries.

(** ** What queries do *)

Section agreement.
Context `{!SurrealTypes} {E : Type}.
Context (run_query : string → list (string * SValue) → E → result (list SValue) unit * E).
Context (from_str : string → result JsonValue unit) (render : list json_event → result string unit).

(** One query after the other, up to the first that fails. *)
Fixpoint queries_in_order (index : N) (queries : list NativeBatchQuery) (e : E)
  : result (list NativeBatchQueryResult) SurrealRnError * E :=
  match queries with
  | [] => (Ok [], e)
  | q :: queries =>
      match tx_query run_query from_str render false true (bq_surql q) (bq_variables_json q) e with
      | (Err error, e) => (Err error, e)
      | (Ok results, e) =>
          let '(rest, e) := queries_in_order (index + 1) queries e in
          (let? rest := rest in Ok (mkBatchResult index results :: rest), e)
      end
  end.

Lemma batch_loop_in_order queries index e :
  (index + N.of_nat (length queries) ≤ u32_max + 1)%N →
  batch_loop run_query from_str render index queries e = queries_in_order index queries e.
Proof.
  revert index e. induction queries as [|q queries IH]; intros index e Hlen; [done|].
  cbn [batch_loop queries_in_order length] in *. unfold tx_query.
  destruct (decode_variables from_str (bq_variables_json q)) as [variables|error]; [|done].
  destruct (engine_query run_query (bq_surql q) variables e) as [[response|error] e']; [|done]. cbn.
  unfold try_u32. rewrite (proj2 (N.leb_le index u32_max)) by lia. cbn.
  destruct (query_results render response) as [results|error]; [|done]. cbn.
  by rewrite IH by lia.
Qed.

Lemma encode_statements_any encoding index response :
  encode_statements render encoding index response = encode_statements render Streaming index response.
Proof.
  revert index. induction response as [|value response IH]; intros index; [done|]. cbn.
  rewrite IH. destruct encoding; [|done].
  unfold encode_value, encode_value_tree. by rewrite wire_events_tree.
Qed.

(** C40: batches and profiled queries do what single queries do: a batch on an open transaction runs
    its queries one after the other, numbers their results, stops at the first that fails
    and leaves the engine as those single queries do; a profiled query with either output
    encoding gives the results, or the error, and the engine state of [query]. *)
Theorem queries_agree (queries : list NativeBatchQuery) surql variables encoding t1 t2 t3 (e : E) :
  (N.of_nat (length queries) ≤ u32_max + 1)%N →
  query_batch run_query from_str render false true queries e = queries_in_order 0 queries e ∧
  (let '(profiled, e') :=
     query_profiled_with_encoding run_query from_str render surql variables encoding t1 t2 t3 e in
   (let? p := profiled in Ok (pq_results p), e')) = query run_query from_str render surql variables e.
Proof.
  intros Hlen. split; [by apply batch_loop_in_order|].
  unfold query_profiled_with_encoding, query.
  destruct (decode_variables from_str variables) as [vs|error]; [|done].
  destruct (engine_query run_query surql vs e) as [[response|error] e']; [|done]. cbn.
  unfold query_results, query_results_with_encoding. rewrite encode_statements_any.
  by destruct (encode_statements _ _ _ _).
Qed.

(** [execute_batch] counts its runs and leaves the engine as the same queries do; it fails
    where one of them does not run. *)
Lemma execute_batch_counts surql variables e n e' :
  execute_batch run_query from_str false true surql variables e = (Ok n, e') →
  n = N.of_nat (length variables) ∧
  execute_loop run_query from_str surql variables e = (Ok tt, e').
Proof.
  unfold execute_batch, try_u32. destruct (execute_loop _ _ _ _ _) as [[[]|error] e1]; cbn; [|done].
  case_match; intros; by simplify_eq.
Qed.

End agreement.

(** An engine that counts queries and answers each with the text of the query, refusing the
    empty one; variables are not used. *)
Definition counting_query (surql : string) (_ : list (string * SValue)) (e : nat)
  : result (list SValue) unit * nat :=
  (if String.eqb surql "" then Err tt else Ok [SvString surql], S e).
Definition text_of_events (events : list json_event) : result string unit :=
  match events with [EvStr s] => Ok s | _ => Err tt end.
Definition counting_batch : list NativeBatchQuery :=
  [mkBatchQuery "a" None; mkBatchQuery "" None; mkBatchQuery "b" None].

Lemma queries_agree_witness :
  queries_in_order counting_query (λ _, Err tt) text_of_events 0 counting_batch 0 = (Err RnDatabase, 2%nat) ∧
  query_batch counting_query (λ _, Err tt) text_of_events false true counting_batch 0 =
    queries_in_order counting_query (λ _, Err tt) text_of_events 0 counting_batch 0.
Proof.
  split; [by vm_compute|].
  apply (queries_agree counting_query (λ _, Err tt) text_of_events counting_batch "a" None Tree 0 0 0 0%nat).
  cbn. unfold u32_max. lia.
Defined.
