(* ===== verification/Diagnostics.v ===== *)
(** * Measurements of a sync client.

    Models [crates/surrealdb-rn-core/src/sync_diagnostics.rs] and the places of
    [sync_client.rs] and [sync_state.rs] that record: the runtime guard and the storage
    attempts of an operation.  Elapsed times are arguments, the nanoseconds a clock showed.
    The guard is exclusive, so the operations of a runtime record one after the other;
    readers of a snapshot run beside them and take no runtime lock. *)

From S2P Require Import Prelude Surface.

Record NativeSyncOperationSpan := mkSpan {
  sp_operation_ordinal : N;
  sp_runtime_lock_wait_ns : N;
  sp_runtime_lock_hold_ns : N;
  sp_storage_ns : N;
  sp_state_encoding_ns : N;
}.

Record NativeSyncDiagnostics := mkDiagnostics {
  dg_schema_version : N;
  dg_latest_completed_operation : option NativeSyncOperationSpan;
  dg_span_publish_drops : N;
  dg_runtime_lock_acquisitions : N;
  dg_runtime_lock_wait_ns : N;
  dg_runtime_lock_hold_ns : N;
  dg_storage_attempts : N;
  dg_storage_ns : N;
  dg_storage_errors : N;
  dg_state_encoding_attempts : N;
  dg_state_encoding_ns : N;
}.

Record Phase := mkPhase { ph_count : N; ph_ns : N; ph_latest_ns : N }.
Definition phase_default : Phase := mkPhase 0 0 0.

(** [u64::saturating_add] *)
Definition saturating_add (a b : N) : N := N.min (a + b) u64_max.

(** [Phase::record]; [u64::try_from(..).unwrap_or(u64::MAX)] is [elapsed_ns] *)
Definition record (elapsed : N) (p : Phase) : Phase :=
  let ns := elapsed_ns elapsed in
  mkPhase (saturating_add (ph_count p) 1) (saturating_add (ph_ns p) ns) ns.
Definition reset_latest (p : Phase) : Phase := mkPhase (ph_count p) (ph_ns p) 0.

Record SyncDiagnostics := mkSyncDiagnostics {
  sd_runtime_wait : Phase;
  sd_runtime_hold : Phase;
  sd_storage : Phase;
  sd_state_encoding : Phase;
  sd_storage_errors : N;
  sd_latest : option NativeSyncOperationSpan;
  sd_span_drops : N;
}.
Definition diagnostics_default : SyncDiagnostics :=
  mkSyncDiagnostics phase_default phase_default phase_default phase_default 0 None 0.

(** The new state and the ordinal: [runtime_wait.count] *)
Definition begin_operation (d : SyncDiagnostics) : SyncDiagnostics * N :=
  (mkSyncDiagnostics (sd_runtime_wait d) (sd_runtime_hold d) (reset_latest (sd_storage d))
     (reset_latest (sd_state_encoding d)) (sd_storage_errors d) (sd_latest d) (sd_span_drops d),
   ph_count (sd_runtime_wait d)).

(** [free]: [latest.try_lock()] succeeds; [fetch_add] wraps *)
Definition complete_operation (free : bool) (ordinal wait_ns elapsed : N) (d : SyncDiagnostics)
  : SyncDiagnostics :=
  if free then
    mkSyncDiagnostics (sd_runtime_wait d) (sd_runtime_hold d) (sd_storage d) (sd_state_encoding d)
      (sd_storage_errors d)
      (Some (mkSpan ordinal wait_ns (elapsed_ns elapsed) (ph_latest_ns (sd_storage d))
               (ph_latest_ns (sd_state_encoding d))))
      (sd_span_drops d)
  else
    mkSyncDiagnostics (sd_runtime_wait d) (sd_runtime_hold d) (sd_storage d) (sd_state_encoding d)
      (sd_storage_errors d) (sd_latest d) (wrapping_add_u64 (sd_span_drops d) 1).

Definition snapshot (free : bool) (d : SyncDiagnostics) : NativeSyncDiagnostics :=
  mkDiagnostics 1 (if free then sd_latest d else None) (sd_span_drops d)
    (ph_count (sd_runtime_wait d)) (ph_ns (sd_runtime_wait d)) (ph_ns (sd_runtime_hold d))
    (ph_count (sd_storage d)) (ph_ns (sd_storage d)) (sd_storage_errors d)
    (ph_count (sd_state_encoding d)) (ph_ns (sd_state_encoding d)).

(** ** An operation under the guard *)

(** One storage attempt of [persist_and_install]: the encoding inside
    [apply_transition_atomic], when it is reached, the attempt, and whether it failed. *)
Record attempt := mkAttempt { at_encoding : option N; at_storage : N; at_failed : bool }.

Definition record_attempt (d : SyncDiagnostics) (a : attempt) : SyncDiagnostics :=
  mkSyncDiagnostics (sd_runtime_wait d) (sd_runtime_hold d) (record (at_storage a) (sd_storage d))
    (match at_encoding a with Some t => record t (sd_state_encoding d) | None => sd_state_encoding d end)
    (if at_failed a then saturating_add (sd_storage_errors d) 1 else sd_storage_errors d)
    (sd_latest d) (sd_span_drops d).

(** The times of an operation: waiting, the two readings of its hold time, its attempts, and
    whether the span could be published. *)
Record operation := mkOperation {
  op_wait : N; op_wait_recorded : N; op_hold : N; op_hold_recorded : N;
  op_attempts : list attempt; op_free : bool;
}.

(** [lock_runtime] *)
Definition acquired (o : operation) (d : SyncDiagnostics) : SyncDiagnostics * N :=
  begin_operation
    (mkSyncDiagnostics (record (op_wait_recorded o) (sd_runtime_wait d)) (sd_runtime_hold d)
       (sd_storage d) (sd_state_encoding d) (sd_storage_errors d) (sd_latest d) (sd_span_drops d)).
(** [Drop for RuntimeGuard] *)
Definition released (o : operation) (ordinal : N) (d : SyncDiagnostics) : SyncDiagnostics :=
  let d := complete_operation (op_free o) ordinal (elapsed_ns (op_wait o)) (op_hold o) d in
  mkSyncDiagnostics (sd_runtime_wait d) (record (op_hold_recorded o) (sd_runtime_hold d))
    (sd_storage d) (sd_state_encoding d) (sd_storage_errors d) (sd_latest d) (sd_span_drops d).
Definition run_operation (d : SyncDiagnostics) (o : operation) : SyncDiagnostics :=
  let '(d, ordinal) := acquired o d in
  released o ordinal (foldl record_attempt d (op_attempts o)).

Definition run_operations (os : list operation) : SyncDiagnostics :=
  foldl run_operation diagnostics_default os.

(** ** What the measurements say *)

(** A count and a sum that stop at [u64::MAX]. *)
Definition number {A} (l : list A) : N := N.min (N.of_nat (length l)) u64_max.
Definition total (times : list N) : N := N.min (foldr N.add 0%N times) u64_max.

(** A phase that recorded these times. *)
Definition phase_of (times : list N) (p : Phase) : Prop :=
  ph_count p = number times ∧ ph_ns p = total times.

Definition encodings (o : operation) : list N := omap at_encoding (op_attempts o).

Lemma elapsed_ns_min n : elapsed_ns n = N.min n u64_max.
Proof. unfold elapsed_ns. case_match eqn:H; [rewrite N.leb_le in H | rewrite N.leb_gt in H]; lia. Qed.

Lemma sum_app l k : foldr N.add 0%N (l ++ k) = (foldr N.add 0 l + foldr N.add 0 k)%N.
Proof. induction l as [|x l IH]; cbn; [done|]. rewrite IH. lia. Qed.

Lemma phase_of_record times p t : phase_of times p → phase_of (times ++ [t]) (record t p).
Proof.
  intros [Hc Hn]. unfold phase_of, record, saturating_add, number, total in *. cbn.
  rewrite Hc, Hn, elapsed_ns_min, length_app, sum_app. cbn. lia.
Qed.

(** Everything but the publication of the last span. *)
Definition accounts (os : list operation) (d : SyncDiagnostics) : Prop :=
  phase_of (map op_wait_recorded os) (sd_runtime_wait d) ∧
  phase_of (map op_hold_recorded os) (sd_runtime_hold d) ∧
  phase_of (map at_storage (concat (map op_attempts os))) (sd_storage d) ∧
  phase_of (concat (map encodings os)) (sd_state_encoding d) ∧
  sd_storage_errors d = number (List.filter at_failed (concat (map op_attempts os))).

Lemma attempts_account storage encoding failed attempts d :
  phase_of storage (sd_storage d) → phase_of encoding (sd_state_encoding d) →
  sd_storage_errors d = N.min failed u64_max →
  let d' := foldl record_attempt d attempts in
  phase_of (storage ++ map at_storage attempts) (sd_storage d') ∧
  phase_of (encoding ++ omap at_encoding attempts) (sd_state_encoding d') ∧
  sd_storage_errors d' = N.min (failed + N.of_nat (length (List.filter at_failed attempts))) u64_max.
Proof.
  revert storage encoding failed d. induction attempts as [|a attempts IH];
    intros storage encoding failed d Hs He Hf; cbn.
  { rewrite !app_nil_r, N.add_0_r. done. }
  destruct (IH (storage ++ [at_storage a])
    (encoding ++ match at_encoding a with Some t => [t] | None => [] end)
    (failed + if at_failed a then 1 else 0)%N (record_attempt d a)) as (H1 & H2 & H3).
  - by apply phase_of_record.
  - unfold record_attempt. cbn. destruct (at_encoding a); [by apply phase_of_record|].
    by rewrite app_nil_r.
  - unfold record_attempt, saturating_add. cbn. rewrite Hf. destruct (at_failed a); lia.
  - rewrite <-app_assoc in H1, H2. split; [exact H1|]. split; [|rewrite H3].
    + by destruct (at_encoding a).
    + f_equal. destruct (at_failed a); cbn; lia.
Qed.

(** The attempts of an operation leave the rest of the diagnostics alone. *)
Lemma attempts_frame attempts d :
  let d' := foldl record_attempt d attempts in
  sd_runtime_wait d' = sd_runtime_wait d ∧ sd_runtime_hold d' = sd_runtime_hold d ∧
  sd_latest d' = sd_latest d ∧ sd_span_drops d' = sd_span_drops d.
Proof.
  revert d. induction attempts as [|a attempts IH]; intros d; [done|].
  cbn. destruct (IH (record_attempt d a)) as (-> & -> & -> & ->). done.
Qed.

Lemma operation_accounts os d o : accounts os d → accounts (os ++ [o]) (run_operation d o).
Proof.
  intros (Hw & Hh & Hs & He & Hf). unfold run_operation.
  set (d1 := (acquired o d).1). change (accounts (os ++ [o])
    (released o (acquired o d).2 (foldl record_attempt d1 (op_attempts o)))).
  destruct (attempts_account _ _ _ (op_attempts o) d1 Hs He Hf) as (H1 & H2 & H3).
  destruct (attempts_frame (op_attempts o) d1) as (H4 & H5 & _).
  assert (sd_runtime_wait d1 = record (op_wait_recorded o) (sd_runtime_wait d) ∧
          sd_runtime_hold d1 = sd_runtime_hold d) as [H6 H7] by done.
  clearbody d1. rewrite H6 in H4. rewrite H7 in H5.
  unfold accounts, released, complete_operation, number in *.
  rewrite !map_app, !concat_app. cbn [map concat].
  rewrite !app_nil_r, map_app, List.filter_app, length_app, Nat2N.inj_add.
  destruct (op_free o); cbn; rewrite H4, H5; split_and!;
    first [by apply phase_of_record | done].
Qed.

Lemma run_operations_snoc os o : run_operations (os ++ [o]) = run_operation (run_operations os) o.
Proof. unfold run_operations. by rewrite foldl_app. Qed.

Lemma operations_account os : accounts os (run_operations os).
Proof.
  induction os as [|o os IH] using rev_ind; [by split_and!|].
  rewrite run_operations_snoc. by apply operation_accounts.
Qed.

Lemma attempts_latest attempts d :
  let d' := foldl record_attempt d attempts in
  ph_latest_ns (sd_storage d') =
    from_option elapsed_ns (ph_latest_ns (sd_storage d)) (last (map at_storage attempts)) ∧
  ph_latest_ns (sd_state_encoding d') =
    from_option elapsed_ns (ph_latest_ns (sd_state_encoding d)) (last (omap at_encoding attempts)).
Proof.
  induction attempts as [|a attempts IH] using rev_ind; [done|]. cbn in *.
  destruct IH as [IH1 IH2]. rewrite foldl_app, map_app, omap_app. cbn. rewrite last_snoc.
  split; [done|]. destruct (at_encoding a); cbn; [by rewrite last_snoc|]. by rewrite app_nil_r.
Qed.

Lemma encodings_concat os :
  concat (map encodings os) = omap at_encoding (concat (map op_attempts os)).
Proof. induction os as [|o os IH]; cbn; [done|]. by rewrite omap_app, IH. Qed.

(** The span of the operation with this ordinal. *)
Definition span_of (ordinal : N) (o : operation) : NativeSyncOperationSpan :=
  mkSpan ordinal (elapsed_ns (op_wait o)) (elapsed_ns (op_hold o))
    (from_option elapsed_ns 0%N (last (map at_storage (op_attempts o))))
    (from_option elapsed_ns 0%N (last (encodings o))).

(** The diagnostics account for every operation: the counters are the numbers of lock
    acquisitions, storage and encoding attempts and failures, the times their sums, all
    saturating at [u64::MAX] and never wrapping; after an operation whose span could be
    published, a reader that finds the span free sees exactly that operation, numbered by
    its position, and one that does not sees the counters and no span. *)
Theorem diagnostics_account os o free :
  op_free o = true →
  let operations := os ++ [o] in
  let attempts := concat (map op_attempts operations) in
  snapshot free (run_operations operations) =
  mkDiagnostics 1 (if free then Some (span_of (number operations) o) else None)
    (sd_span_drops (run_operations os)) (number operations)
    (total (map op_wait_recorded operations)) (total (map op_hold_recorded operations))
    (number attempts) (total (map at_storage attempts)) (number (List.filter at_failed attempts))
    (number (omap at_encoding attempts)) (total (omap at_encoding attempts)).
Proof.
  intros Hfree operations attempts. unfold number.
  destruct (operations_account operations) as ((H1 & H2) & (_ & H3) & (H4 & H5) & (H6 & H7) & H8).
  unfold number in H1, H4, H6, H8. rewrite encodings_concat in H6, H7. rewrite length_map in H1, H4.
  unfold snapshot. rewrite H1, H2, H3, H4, H5, H6, H7, H8. fold attempts.
  assert (sd_latest (run_operations operations) = Some (span_of (N.min (N.of_nat (length operations)) u64_max) o) ∧
          sd_span_drops (run_operations operations) = sd_span_drops (run_operations os)) as [-> ->]; [|done].
  destruct (operations_account os) as ((Hc & _) & _). unfold number in Hc. rewrite length_map in Hc.
  unfold operations. rewrite run_operations_snoc. unfold run_operation.
  set (d := run_operations os) in *. set (d1 := (acquired o d).1).
  change (acquired o d) with (d1, saturating_add (ph_count (sd_runtime_wait d)) 1).
  destruct (attempts_latest (op_attempts o) d1) as [Hl1 Hl2].
  destruct (attempts_frame (op_attempts o) d1) as (_ & _ & _ & Hd).
  assert (ph_latest_ns (sd_storage d1) = 0%N ∧ ph_latest_ns (sd_state_encoding d1) = 0%N ∧
          sd_span_drops d1 = sd_span_drops d) as (H9 & H10 & H11) by done.
  clearbody d1. rewrite H9 in Hl1. rewrite H10 in Hl2. rewrite H11 in Hd.
  unfold released, complete_operation. rewrite Hfree. cbn. rewrite Hl1, Hl2, Hd. split; [|done].
  unfold span_of, saturating_add. do 2 f_equal. rewrite Hc, length_app. cbn. lia.
Qed.

Definition busy_operations : list operation :=
  [mkOperation 5 6 7 8 [mkAttempt (Some 2%N) 3 true; mkAttempt None 4 false] true;
   mkOperation 1 1 u64_max (u64_max + 9) [] false].

Lemma diagnostics_account_witness :
  snapshot true (run_operations (busy_operations ++ [mkOperation 0 0 1 2 [] true])) =
  mkDiagnostics 1 (Some (mkSpan 3 0 1 0 0)) 1 3 7 u64_max 2 7 1 1 2.
Proof.
  rewrite (diagnostics_account busy_operations (mkOperation 0 0 1 2 [] true) true eq_refl).
  by vm_compute.
Defined.
