(* ===== verification/StageFrames.v ===== *)
(** * Which rows a store operation touches, and how it moves the fence.

    Every operation of [SyncStateStore] and [BootstrapStore] works on one journal.  Its
    control rows are the bootstrap header, the scope barrier and the metadata row, which
    carries the fence.  This file shows which of them each transaction may write, and that
    fences are read back as they were written. *)

From Stdlib Require Import Strings.Byte DecimalString DecimalFacts DecimalN DecimalPos.
From S2P Require Import Prelude Protocol Subscription ClientState Validate Client Canonical HttpCodec BootstrapCodec NativeErrors Json Wire NativeCodec Engine StateRows StateLoad Stage StateStore StageStore StateProps StoreProps ClientCoherence ClientInvariant StageProps.

Set Default Proof Using "Type*".

(** ** Fences as text *)

Lemma of_uint_acc_lower l acc :
  (Npos acc * 10 ^ N.of_nat (Decimal.nb_digits l) ≤ Npos (Pos.of_uint_acc l acc))%N.
Proof.
  revert acc. induction l as [|l IH|l IH|l IH|l IH|l IH|l IH|l IH|l IH|l IH|l IH]; intros acc;
    cbn [Decimal.nb_digits Pos.of_uint_acc]; [lia|..].
  all: rewrite Nat2N.inj_succ, N.pow_succ_r'.
  all: match goal with |- (_ ≤ N.pos (Pos.of_uint_acc _ ?a))%N => specialize (IH a) end.
  all: etransitivity; [|exact IH]; nia.
Qed.

(** A numeral of [N.to_uint] has no leading zero, so its length bounds the number below. *)
Lemma to_uint_lower n :
  N.to_uint n = Decimal.zero ∨
  (10 ^ N.of_nat (pred (Decimal.nb_digits (N.to_uint n))) ≤ n)%N.
Proof.
  pose proof (DecimalN.Unsigned.of_to n) as Hof.
  pose proof (DecimalN.Unsigned.to_of (N.to_uint n)) as Hto. rewrite Hof in Hto.
  destruct (N.to_uint n) as [|l|l|l|l|l|l|l|l|l|l] eqn:Hd; [done|..].
  1: { left. rewrite Hto. unfold Decimal.unorm in *. cbn [Decimal.nzhead] in *.
       pose proof (nzhead_nonzero l) as Hnz. destruct (Decimal.nzhead l) eqn:Hl; try done.
       by edestruct Hnz. }
  all: right; rewrite <-Hof; cbn [Decimal.nb_digits pred N.of_uint Pos.of_uint];
    etransitivity; [|apply of_uint_acc_lower]; lia.
Qed.

Lemma string_of_uint_length d : String.length (NilEmpty.string_of_uint d) = Decimal.nb_digits d.
Proof. induction d; cbn; congruence. Qed.

Lemma u64_to_string_length n : is_u64 n → (String.length (u64_to_string n) ≤ 20)%nat.
Proof.
  intros Hn. unfold u64_to_string, NilZero.string_of_uint.
  destruct (to_uint_lower n) as [->|Hlow]; [cbn; lia|].
  assert (Decimal.nb_digits (N.to_uint n) ≤ 20)%nat as Hle.
  { destruct (decide (Decimal.nb_digits (N.to_uint n) ≤ 20)%nat) as [|Hgt]; [done|]. exfalso.
    assert (10 ^ 20 ≤ 10 ^ N.of_nat (pred (Decimal.nb_digits (N.to_uint n))))%N as Hp
      by (apply N.pow_le_mono_r; lia).
    unfold is_u64, u64_max in Hn. change (10 ^ 20)%N with 100000000000000000000%N in Hp. lia. }
  rewrite <-string_of_uint_length in Hle. destruct (N.to_uint n); [cbn; lia|done..].
Qed.

Lemma string_length_app s t : String.length (s +:+ t) = (String.length s + String.length t)%nat.
Proof.
  induction s as [|a s IH]; [done|].
  change (S (String.length (s +:+ t)) = S (String.length s + String.length t)). by rewrite IH.
Qed.

Lemma substring_whole s n : (String.length s ≤ n)%nat → String.substring 0 n s = s.
Proof.
  revert n. induction s as [|a s IH]; intros [|n] Hn; cbn in *; try done; [lia|].
  rewrite IH; [done|lia].
Qed.

Lemma split_colon_numeral n rest :
  split_colon (u64_to_string n +:+ String (Ascii.ascii_of_N 58) rest) = Some (u64_to_string n, rest).
Proof.
  set (colon := Ascii.ascii_of_N 58).
  assert (∀ a s t, a ≠ colon → split_colon (String a s +:+ t) =
    prod_map (String a) id <$> split_colon (s +:+ t)) as Hstep.
  { intros a s t Ha. change (split_colon (String a s +:+ t)) with
      (if decide (a = colon) then Some ("", s +:+ t)
       else prod_map (String a) id <$> split_colon (s +:+ t)). by rewrite decide_False. }
  assert (∀ d, split_colon (NilEmpty.string_of_uint d +:+ String colon rest) =
    Some (NilEmpty.string_of_uint d, rest)) as H.
  { induction d as [|d IH|d IH|d IH|d IH|d IH|d IH|d IH|d IH|d IH|d IH];
      cbn [NilEmpty.string_of_uint]; [done|..]; rewrite Hstep, IH by done; done. }
  unfold u64_to_string, NilZero.string_of_uint. destruct (N.to_uint n) eqn:Hd; [|exact (H _)..]. done.
Qed.

Lemma parse_fence_numeral n : is_u64 n → parse_fence (u64_to_string n) = Ok n.
Proof.
  intros Hn. unfold parse_fence, parse_u64. rewrite parse_unsigned_numeral by done.
  by rewrite decide_False by (intros Hx; by apply Hx).
Qed.

Lemma parse_fence_u64 raw n : parse_fence raw = Ok n → is_u64 n ∧ raw = u64_to_string n.
Proof.
  unfold parse_fence. destruct (parse_u64 raw) as [m|] eqn:Hp; [|done].
  case_decide as Hne; [done|]. intros [= <-]. split; [|done].
  unfold parse_u64, parse_unsigned in Hp. repeat case_match; simplify_eq. by apply N.leb_le.
Qed.

Lemma parse_format_fence n b : is_u64 n → parse_metadata_fence (format_fence n b) = Ok (n, b).
Proof.
  intros Hn. unfold parse_metadata_fence, format_fence.
  change (":" +:+ if b then "a" else "i") with (String (Ascii.ascii_of_N 58) (if b then "a" else "i")).
  rewrite split_colon_numeral. cbn [ok_or result_bind].
  destruct b; cbn; by rewrite parse_fence_numeral by done.
Qed.

(** What [read_fence] reads of a fence the store wrote. *)
Lemma read_back_fence n b :
  is_u64 n → parse_metadata_fence (String.substring 0 24 (format_fence n b)) = Ok (n, b).
Proof.
  intros Hn. rewrite substring_whole; [by apply parse_format_fence|].
  unfold format_fence. pose proof (u64_to_string_length n Hn).
  rewrite !string_length_app. destruct b; cbn; lia.
Qed.

(** A fence moves on by one and keeps its mark; the counter does not wrap. *)
Lemma next_fence_Some raw c b next :
  parse_metadata_fence raw = Ok (c, b) → next_fence (Some raw) = Ok next →
  next = format_fence (c + 1) b ∧ is_u64 (c + 1).
Proof.
  intros Hp Hn. unfold next_fence in Hn. rewrite Hp in Hn. cbn in Hn.
  destruct (checked_add u64_max c 1) as [n|] eqn:Ha; [|done]. cbn in Hn. simplify_eq.
  apply checked_add_Some in Ha as [-> ?]. done.
Qed.

Lemma next_fence_None next : next_fence None = Ok next → next = format_fence 1 true.
Proof. unfold next_fence. intros H. injection H as <-. reflexivity. Qed.

(** ** Control rows *)

Definition CONTROL_TABLES : list string := [HEADER; BARRIER_TABLE; META_TABLE].

Section frame.
Context `{!SurrealTypes, !Engine, !EngineLaws, !JsonFloatText, !JsonText, !StateSerde, !Ciborium, !Sha256}.

(** A row of the control tables that is not one of [own]. *)
Definition kept (own : list rid) (r : rid) : Prop := r_table r ∈ CONTROL_TABLES ∧ r ∉ own.

Definition frames (own : list rid) (d d' : db) : Prop :=
  ∀ r, kept own r → contents d' r = contents d r.

#[export] Instance frames_preorder own : PreOrder (frames own).
Proof. split; [done|]. intros d1 d2 d3 Ha Hb r Hr. by rewrite (Hb r Hr), (Ha r Hr). Qed.

Lemma frames_mono own own' d d' : own ⊆ own' → frames own d d' → frames own' d d'.
Proof. intros Hsub Hf r [Ht Hr]. apply Hf. split; [done|]. intros Hin. by apply Hr, Hsub. Qed.

Lemma frames_same own d d' : same d' d → frames own d d'.
Proof. by intros Hs r _. Qed.

Definition tx_frame {A} (own : list rid) (m : tx A) : Prop :=
  ∀ d a d', m d = Ok (a, d') → frames own d d'.

Variable own : list rid.

Lemma frame_ret {A} (a : A) : tx_frame own (tx_ret a).
Proof. intros d a' d' [= _ ->]%tx_ret_Ok. done. Qed.
Lemma frame_err {A} e : tx_frame (A := A) own (tx_err e).
Proof. by intros d a' d'. Qed.
Lemma frame_lift {A} (r : result A SyncStateError) : tx_frame own (tx_lift r).
Proof. intros d a d' (? & _ & [= _ ->])%tx_lift_Ok. done. Qed.
Lemma frame_read {A} (f : db → result A SyncStateError) : tx_frame own (tx_read f).
Proof. intros d a d' (? & _ & [= _ ->])%tx_read_Ok. done. Qed.
Lemma frame_bind {A B} (m : tx A) (k : A → tx B) :
  tx_frame own m → (∀ a, tx_frame own (k a)) → tx_frame own (tx_bind m k).
Proof.
  intros Hm Hk d a d' (b & d1 & Ha & Hb)%tx_bind_Ok.
  transitivity d1; [by eapply Hm | by eapply Hk].
Qed.
Lemma frame_writes r v d d' : ¬ kept own r → writes (Some (r, v)) d d' → frames own d d'.
Proof. intros Hr [_ Hf] r' Hk. apply Hf. by intros ->. Qed.
Lemma frame_upsert r x : ¬ kept own r → tx_frame own (tx_upsert r x).
Proof. intros Hr d a d' Hw%tx_upsert_writes. by eapply frame_writes. Qed.
Lemma frame_delete r : ¬ kept own r → tx_frame own (tx_delete r).
Proof. intros Hr d a d' Hw%tx_delete_writes. by eapply frame_writes. Qed.
Lemma frame_create r x : ¬ kept own r → tx_frame own (tx_create r x).
Proof.
  unfold tx_create. intros Hr d a d' Hc%map_err_Ok. apply db_create_Ok in Hc as (_ & _ & ? & ?).
  by eapply frame_writes.
Qed.
Lemma frame_fence key f : ¬ kept own (meta_record_id key) → tx_frame own (write_fence key f).
Proof. intros Hr d a d' Hw r Hk. eapply write_fence_frame; [done|]. by intros ->. Qed.
Lemma frame_define ts : tx_frame own (tx_define ts).
Proof.
  unfold tx_define. intros d a d' Hd. inv_ok. apply frames_same. intros r.
  match goal with H : database _ = Ok _ |- _ => apply map_err_Ok in H end. by eapply db_define_Ok.
Qed.
Lemma frame_for_each {A} (f : A → tx unit) l :
  (∀ x, x ∈ l → tx_frame own (f x)) → tx_frame own (tx_for_each f l).
Proof.
  induction l as [|x l IH]; intros Hf; cbn; [apply frame_ret|].
  apply frame_bind; [apply Hf; by left|]. intros _. apply IH. intros y Hy. apply Hf. by right.
Qed.

Lemma kept_own r : r ∈ own → ¬ kept own r.
Proof. by intros Hr [_ Hn]. Qed.
Lemma kept_table r : r_table r ∉ CONTROL_TABLES → ¬ kept own r.
Proof. by intros Hr [Ht _]. Qed.
End frame.

Create HintDb tx_frame.
#[export] Hint Resolve frame_ret frame_err frame_lift frame_read frame_define : tx_frame.
Ltac kept_solve :=
  first [apply kept_own; set_solver | apply kept_table; by apply (bool_decide_unpack _)].
Ltac tx_frame_step :=
  first
    [ progress eauto with tx_frame
    | match goal with
      | |- tx_frame _ (tx_bind _ _) => apply frame_bind; [|intros ?]
      | |- tx_frame _ (tx_for_each _ _) => apply frame_for_each; intros ? ?
      | |- tx_frame _ (tx_upsert _ _) => apply frame_upsert; kept_solve
      | |- tx_frame _ (tx_delete _) => apply frame_delete; kept_solve
      | |- tx_frame _ (tx_create _ _) => apply frame_create; kept_solve
      | |- tx_frame _ (write_fence _ _) => apply frame_fence; kept_solve
      | |- tx_frame _ (if decide ?P then _ else _) => destruct (decide P)
      | |- tx_frame _ (if ?b then _ else _) => destruct b
      | |- tx_frame _ (match ?x with _ => _ end) => destruct x
      end ].
Ltac tx_frame_auto := repeat tx_frame_step.

(** Rows of different tables. *)
Ltac other_row :=
  rewrite ?not_elem_of_cons; repeat split; try apply not_elem_of_nil;
  let E := fresh in intros E; apply (f_equal r_table) in E; discriminate E.

(** ** The control state of a journal *)

Section control.
Context `{!SurrealTypes, !Engine, !EngineLaws, !Host, !JsonFloatText, !JsonText, !StateSerde, !Ciborium, !Sha256}.

(** The fence as [read_fence] reads it, taken apart; the header; the scope barrier. *)
Definition stored_fence (key : SyncStateKey) (d : db) : option (N * bool) :=
  match contents d (meta_record_id key) with
  | Some (RowMeta _ (Some raw)) =>
      match parse_metadata_fence (String.substring 0 24 raw) with Ok f => Some f | Err _ => None end
  | _ => None
  end.
Definition stored_header (key : SyncStateKey) (d : db) : option Header :=
  contents d (header_id key) ≫= row_to_header.
Definition stored_barrier (key : SyncStateKey) (d : db) : option row :=
  contents d (scope_barrier_record_id key).

Record control := mkControl {
  ct_fence : option (N * bool);
  ct_header : option Header;
  ct_barrier : option row;
}.
Definition control_of (key : SyncStateKey) (d : db) : control :=
  mkControl (stored_fence key d) (stored_header key d) (stored_barrier key d).

#[export] Instance control_of_proper key : Proper (same ==> eq) (control_of key).
Proof. intros d d' E. unfold control_of, stored_fence, stored_header, stored_barrier. by rewrite !E. Qed.

Lemma select_as_Ok {A} (convert : row → option A) r d x :
  select_as convert r d = Ok x → x = contents d r ≫= convert ∧ (x = None → contents d r = None).
Proof.
  unfold select_as. intros (o & Hs & Hx)%result_bind_Ok. apply map_err_Ok, db_select_Ok in Hs as ->.
  destruct (contents d r) as [y|]; [|by injection Hx as <-]. apply result_bind_Ok in Hx as (a & Ha & [= <-]).
  apply ok_or_Ok in Ha. simpl. by rewrite Ha.
Qed.

Lemma read_fence_Ok key d f :
  read_fence key d = Ok f →
  (f = None ∧ stored_fence key d = None) ∨
  ∃ raw c b, f = Some raw ∧ parse_metadata_fence raw = Ok (c, b) ∧ stored_fence key d = Some (c, b).
Proof.
  unfold read_fence, stored_fence. intros (o & [-> _]%select_as_Ok & Hf)%result_bind_Ok.
  destruct (contents d (meta_record_id key)) as [[| m [raw|]| | | | |]|]; simpl in Hf;
    try (injection Hf as <-; by left).
  apply result_bind_Ok in Hf as ([c b] & Hp & [= <-]). right. exists (String.substring 0 24 raw), c, b.
  by rewrite Hp.
Qed.

(** What a stage that was read says of the control state: its header is the stored one, the
    fence carries its mark and is not behind its incarnation. *)
Record staged (key : SyncStateKey) (d : db) (stage : Stage) : Prop := {
  sd_header : stored_header key d = Some (sg_header stage);
  sd_fence : ∃ c i, stored_fence key d = Some (c, negb (hd_cancelled (sg_header stage))) ∧
    parse_fence (hd_incarnation (sg_header stage)) = Ok i ∧ (i ≤ c)%N;
  sd_terminal : is_Some (hd_consumed_receipt (sg_header stage)) → hd_cancelled (sg_header stage) = true;
}.

Lemma inspect_header_Ok key header no_pages d manifest :
  inspect_header key header no_pages d = Ok manifest → stored_header key d = Some header →
  ∀ pages, staged key d (mkStage header manifest pages).
Proof.
  unfold inspect_header. intros Hi Hh pages. case_decide as Hboth; [done|].
  apply result_bind_Ok in Hi as ([] & Hrev & Hi). apply result_bind_Ok in Hi as (i & Hinc & Hi).
  apply result_bind_Ok in Hi as (f & Hf & Hi). apply result_bind_Ok in Hi as (raw & Hraw & Hi).
  apply ok_or_Ok in Hraw as ->. apply result_bind_Ok in Hi as ([c b] & Hp & Hi).
  case_decide as Hbad; [done|]. apply refusal_or in Hbad as [Hmark Hle].
  apply read_fence_Ok in Hf as [[? ?]|(raw' & c' & b' & [= <-] & Hp' & Hs)]; [done|].
  assert (b' = b ∧ c' = c) as [-> ->] by (split; congruence).
  split; simpl; [done| |].
  - exists c, i. rewrite Hs. split; [|split; [done|lia]]. do 2 f_equal.
    by destruct b, (hd_cancelled header).
  - intros Hc. destruct (hd_consumed_revision header) as [rev|] eqn:Hr.
    + apply result_bind_Ok in Hrev as (n & _ & Hrev). case_decide; [done|].
      by destruct (hd_cancelled header).
    + rewrite (bool_decide_eq_true_2 _ Hc), bool_decide_eq_false_2 in Hboth; [done|by intros [? ?]].
Qed.

Lemma inspect_stage_Ok key d budget o :
  inspect_stage key d = Ok (budget, o) →
  match o with
  | None => stored_header key d = None
  | Some stage => staged key d stage
  end.
Proof.
  unfold inspect_stage, inspect_stage_with_tables. intros Hi.
  apply result_bind_Ok in Hi as (info & _ & Hi). apply result_bind_Ok in Hi as (tables & _ & Hi).
  case_decide; [done|]. apply result_bind_Ok in Hi as (header & [Hh _]%select_as_Ok & Hi).
  apply result_bind_Ok in Hi as (pages & _ & Hi). apply result_bind_Ok in Hi as (cur & _ & Hi).
  apply result_bind_Ok in Hi as (agg & _ & Hi). apply result_bind_Ok in Hi as (agg' & _ & Hi).
  case_decide; [done|]. destruct header as [header|]; cycle 1.
  { case_decide; [|done]. injection Hi as _ <-. by rewrite Hh. }
  apply result_bind_Ok in Hi as (manifest & Hm & Hi). apply result_bind_Ok in Hi as (ps & _ & [= _ <-]).
  eapply inspect_header_Ok; [done|]. by rewrite Hh.
Qed.

(** *** Writing the fence *)

(** The fence of a journal moves on, keeping its mark. *)
Definition fence_next (f f' : option (N * bool)) : Prop :=
  ∃ c b, f = Some (c, b) ∧ f' = Some (c + 1, b)%N ∧ is_u64 (c + 1).

Lemma write_fence_stored key n b d u d' m old :
  contents d (meta_record_id key) = Some (RowMeta m old) → is_u64 n →
  write_fence key (format_fence n b) d = Ok (u, d') → stored_fence key d' = Some (n, b).
Proof.
  intros Hm Hn (d1 & Hf & [= _ <-])%result_bind_Ok. apply map_err_Ok, db_set_fence_Ok in Hf as [Hf _].
  unfold stored_fence. rewrite Hf, Hm. by rewrite read_back_fence.
Qed.

Lemma stored_fence_meta key d f :
  stored_fence key d = Some f → ∃ m raw, contents d (meta_record_id key) = Some (RowMeta m (Some raw)).
Proof.
  unfold stored_fence. destruct (contents d (meta_record_id key)) as [[| m [raw|]| | | | |]|]; eauto; done.
Qed.

(** The next fence, written over the one just read. *)
Lemma write_next_stored key raw c b next d u d' :
  parse_metadata_fence raw = Ok (c, b) → stored_fence key d = Some (c, b) →
  next_fence (Some raw) = Ok next → write_fence key next d = Ok (u, d') →
  fence_next (stored_fence key d) (stored_fence key d').
Proof.
  intros Hp Hs [-> Hu]%(next_fence_Some _ _ _ _ Hp) Hw.
  destruct (stored_fence_meta _ _ _ Hs) as (m & old & Hm).
  exists c, b. split; [done|]. split; [|done]. by eapply write_fence_stored.
Qed.

Lemma write_inactive_stored key raw c b d u d' :
  parse_metadata_fence raw = Ok (c, b) → stored_fence key d = Some (c, b) →
  write_inactive_fence key (Some raw) d = Ok (u, d') →
  stored_fence key d' = Some (c + 1, false)%N ∧ is_u64 (c + 1).
Proof.
  intros Hp Hs Hw. unfold write_inactive_fence in Hw. tx_next Hw as next with Hn.
  apply (next_fence_Some _ _ _ _ Hp) in Hn as [-> Hu]. tx_next Hw as [n x] with Hn.
  rewrite parse_format_fence in Hn by done. injection Hn as <- <-.
  destruct (stored_fence_meta _ _ _ Hs) as (m & old & Hm). split; [|done].
  by eapply write_fence_stored.
Qed.
End control.
