(* ===== verification/StageRuns.v ===== *)
(** * Runs of the durable store.

    Any sequence of calls of [SyncStateStore] and [BootstrapStore], on any journals, with
    commits that fail or whose outcome is unknown, moves the control rows of each journal
    (fence, stage header, scope barrier) along a small state machine.  The file gives the
    machine, shows that every operation follows it, and derives what no sequence of calls
    can undo: a scope barrier stays, an ended stage stays ended, and the fence advances. *)

From Stdlib Require Import Strings.Byte.
From S2P Require Import Prelude Protocol Subscription ClientState Validate Client PullProps Canonical HttpCodec BootstrapCodec NativeErrors Json Wire NativeCodec Engine StateRows StateLoad Stage StateStore StageStore StateProps StoreProps ClientCoherence ClientOpen ClientInvariant StageProps StageFrames.
From S2P Require Import Fixtures CborReference Vectors Memory NativeFixtures StageVectors.

Set Default Proof Using "Type*".

(** ** The machine *)

Section machine.
Context `{!SurrealTypes}.

(** A journal without a stage has no fence and keeps none; a fence moves on. *)
Definition fence_moves (f f' : option (N * bool)) : Prop :=
  (f = None ∧ f' = None) ∨ fence_next f f'.

(** Once a barrier asks for quarantine, it always does. *)
Definition barrier_keeps (old : option row) (new : ScopeBarrier) : Prop :=
  stored_reason old = Some "pending_quarantine_required" →
  sb_reason new = "pending_quarantine_required".

(** The way is free for a stage of incarnation [n]. *)
Definition supersedes (n : N) (old : option Header) : Prop :=
  match old with
  | None => True
  | Some h => hd_cancelled h = true ∧ ∃ i, parse_fence (hd_incarnation h) = Ok i ∧ (i < n)%N
  end.

Inductive control_step : control → control → Prop :=
| cs_write f f' h b :
    fence_moves f f' → control_step (mkControl f h b) (mkControl f' h b)
| cs_barrier f f' h b new :
    fence_moves f f' → barrier_keeps b new →
    control_step (mkControl f h b) (mkControl f' h (Some (RowBarrier new)))
| cs_begin f h n start manifest :
    n = (from_option fst 0 f + 1)%N → is_u64 n → supersedes n h →
    control_step (mkControl f h None)
      (mkControl (Some (n, true))
         (Some (mkHeader 1 false (u64_to_string n) start manifest None None)) None)
| cs_consume c n h receipt revision :
    hd_cancelled h = false → (c < n)%N → is_u64 n →
    control_step (mkControl (Some (c, true)) (Some h) None)
      (mkControl (Some (n, false)) (Some (consumed_header h receipt revision)) None)
| cs_cancel c b h bar :
    hd_consumed_receipt h = None → is_u64 (c + 1) →
    control_step (mkControl (Some (c, b)) (Some h) bar)
      (mkControl (Some (c + 1, false))%N (Some (cancelled_header h)) bar).

(** What the machine never undoes. *)

Definition fence_below (c : N) (ct : control) : Prop :=
  ∃ c' b, ct_fence ct = Some (c', b) ∧ (c < c')%N.

Lemma control_step_fence x y c b :
  control_step x y → ct_fence x = Some (c, b) → fence_below c y.
Proof.
  destruct 1 as [f f' h bar Hm|f f' h bar new Hm _|f h n st mf -> _ _|c0 n h r rev _ Hlt _|c0 b0 h bar _ _];
    simpl; intros Hf.
  1-2: destruct Hm as [[-> _]|(c1 & b1 & -> & -> & _)]; [done|]; injection Hf as -> ->;
    exists (c + 1)%N, b; (split; [done|lia]).
  - subst f. exists (c + 1)%N, true. simpl. split; [done|lia].
  - injection Hf as -> _. by exists n, false.
  - injection Hf as -> _. exists (c + 1)%N, false. split; [done|lia].
Qed.

(** The barrier [b'] is at least as strong as [b]. *)
Definition barrier_le (b b' : option row) : Prop :=
  (is_Some b → is_Some b') ∧
  (stored_reason b = Some "pending_quarantine_required" →
   stored_reason b' = Some "pending_quarantine_required").

#[export] Instance barrier_le_preorder : PreOrder barrier_le.
Proof. split; [done|]. intros x y z [??] [??]. split; auto. Qed.

Lemma control_step_barrier x y : control_step x y → barrier_le (ct_barrier x) (ct_barrier y).
Proof.
  destruct 1 as [| f f' h b new _ Hk | | |]; simpl; try done.
  split; [done|]. simpl. intros Hs. by rewrite (Hk Hs).
Qed.

(** How far a journal's stages have come: the incarnation, and whether it has ended. *)
Definition stage_past (i : N) (ended : bool) (ct : control) : Prop :=
  ∃ h j, ct_header ct = Some h ∧ parse_fence (hd_incarnation h) = Ok j ∧
    ((i < j)%N ∨ (i = j ∧ (ended = true → hd_cancelled h = true))).

Lemma control_step_stage x y i ended :
  control_step x y → stage_past i ended x → stage_past i ended y.
Proof.
  destruct 1 as [f f' h b _|f f' h b new _ _|f h n st mf -> Hu Hs|c n h r rev Hop _ _|c b h bar _ _];
    intros (h0 & j & Hh & Hp & Hor); simpl in *; [by exists h0, j..| | |].
  - subst h. destruct Hs as (_ & j' & Hp' & Hlt). rewrite Hp in Hp'. injection Hp' as <-.
    eexists _, _. split; [done|]. simpl. split; [by apply parse_fence_numeral|]. lia.
  - injection Hh as ->. eexists _, j. split; [done|]. split; [done|]. simpl. naive_solver.
  - injection Hh as ->. eexists _, j. split; [done|]. split; [done|]. simpl. naive_solver.
Qed.
End machine.

(** ** What a transaction does to its journal *)

Section moves.
Context `{!SurrealTypes, !Engine, !EngineLaws, !Host, !JsonFloatText, !JsonText, !StateSerde, !Ciborium, !Sha256}.

Definition control_rows (key : SyncStateKey) : list rid :=
  [meta_record_id key; header_id key; scope_barrier_record_id key].

Lemma frames_fence own key d d' :
  frames own d d' → meta_record_id key ∉ own → stored_fence key d' = stored_fence key d.
Proof. intros Hf Hr. unfold stored_fence. rewrite Hf; [done|]. split; [by repeat constructor|done]. Qed.
Lemma frames_header own key d d' :
  frames own d d' → header_id key ∉ own → stored_header key d' = stored_header key d.
Proof. intros Hf Hr. unfold stored_header. rewrite Hf; [done|]. split; [by repeat constructor|done]. Qed.
Lemma frames_barrier own key d d' :
  frames own d d' → scope_barrier_record_id key ∉ own → stored_barrier key d' = stored_barrier key d.
Proof. intros Hf Hr. unfold stored_barrier. rewrite Hf; [done|]. split; [by repeat constructor|done]. Qed.

(** A journal's rows carry its key. *)
Lemma control_rows_key key key' r : r ∈ control_rows key → r ∈ control_rows key' → key = key'.
Proof.
  destruct key as [p c], key' as [p' c'].
  unfold control_rows. intros Ha Hb. rewrite !list_elem_of_In in Ha, Hb. simpl in *.
  assert (∀ t t', array_rid t [p; c] = array_rid t' [p'; c'] → mkKey p c = mkKey p' c') as Hk.
  { intros t t' [_ [= -> ->]]%array_rid_inj. done. }
  destruct Ha as [<-|[<-|[<-|[]]]], Hb as [E|[E|[E|[]]]]; symmetry in E; by eapply Hk in E.
Qed.

Lemma frames_other key key' d d' :
  frames (control_rows key) d d' → key' ≠ key → control_of key' d' = control_of key' d.
Proof.
  intros Hf Hne.
  assert (∀ r, r ∈ control_rows key' → r ∉ control_rows key) as Hr.
  { intros r Ha Hb. apply Hne. by eapply control_rows_key. }
  unfold control_of. f_equal; [eapply frames_fence|eapply frames_header|eapply frames_barrier];
    try done; apply Hr; unfold control_rows; set_solver.
Qed.

(** A transaction of the journal [key] that ran from [d] to [d']. *)
Record moves (key : SyncStateKey) (d d' : db) : Prop := {
  mv_own : same d' d ∨ control_step (control_of key d) (control_of key d');
  mv_frame : frames (control_rows key) d d';
}.

Lemma moves_same key d d' : same d' d → moves key d d'.
Proof. intros Hs. split; [by left|by apply frames_same]. Qed.

(** *** State writes *)

(** A write that reaches no control row but the journal's metadata row. *)
Record state_written (key : SyncStateKey) (d d' : db) : Prop := {
  sw_fence : fence_moves (stored_fence key d) (stored_fence key d');
  sw_frame : frames [meta_record_id key] d d';
}.

Lemma state_written_moves key d d' : state_written key d d' → moves key d d'.
Proof.
  intros [Hf Hr]. split; cycle 1.
  { eapply frames_mono; [|done]. unfold control_rows. set_solver. }
  right. unfold control_of. rewrite (frames_header _ _ _ _ Hr), (frames_barrier _ _ _ _ Hr); [by apply cs_write|..];
    other_row.
Qed.

Lemma insert_components_tabled {T} `{!SerdeJson T} table (l : list (string * T)) m m' :
  table ∈ COMPONENT_TABLES → try_fold (insert_component table) m l = Ok m' → tabled m → tabled m'.
Proof.
  intros Ht Hf Hm. eapply (try_fold_inv tabled); [|exact Hm|exact Hf].
  intros m1 [k v] m2 _ Hm1 Hi. unfold insert_component in Hi. inv_ok.
  intros item [p Hp]. destruct (decide (item = (table, k))) as [->|]; [done|].
  rewrite lookup_insert_ne in Hp by done. apply Hm1. by exists p.
Qed.

(** A normalized state has its components in the journal's own tables. *)
Lemma normalize_tabled s rows : normalize_state s = Ok rows → tabled (nr_components rows).
Proof.
  unfold normalize_state. intros Hn.
  apply result_bind_Ok in Hn as (n & _ & Hn). destruct (_ <? _)%N; [done|].
  do 6 apply result_bind_Ok in Hn as (? & _ & Hn).
  apply result_bind_Ok in Hn as (m1 & T1 & Hn). apply result_bind_Ok in Hn as (m2 & T2 & Hn).
  apply result_bind_Ok in Hn as (m3 & T3 & Hn). apply result_bind_Ok in Hn as (m4 & T4 & Hn).
  apply result_bind_Ok in Hn as (m5 & T5 & Hn). apply result_bind_Ok in Hn as (total & _ & Hn).
  destruct (_ <? _)%N; [done|]. injection Hn as <-. simpl.
  apply insert_components_tabled in T1; [|set_solver|apply tabled_empty].
  apply insert_components_tabled in T2; [|set_solver|done].
  apply insert_components_tabled in T3; [|set_solver|done].
  apply insert_components_tabled in T4; [|set_solver|done].
  by apply insert_components_tabled in T5; [|set_solver|].
Qed.

(** Component rows are no control rows. *)
Lemma component_not_kept own key item :
  item.1 ∈ COMPONENT_TABLES → ¬ kept own (component_record_id key item).
Proof.
  intros Hi [Ht _]. change (item.1 ∈ CONTROL_TABLES) in Ht.
  revert Ht. apply (proj1 (Forall_forall (λ t, t ∉ CONTROL_TABLES) COMPONENT_TABLES)); [|done].
  by apply (bool_decide_unpack _).
Qed.

Lemma write_row_diff_frame key current next :
  tabled (current_components current) → tabled (nr_components next) →
  tx_frame [meta_record_id key] (write_row_diff key current next).
Proof.
  intros Hc Hn. unfold write_row_diff.
  assert (tx_frame [meta_record_id key]
    (tx_for_each (delete_vanished key next) (addr_entries (current_components current)))) as Hdel.
  { apply frame_for_each. intros [item p] Hin. unfold delete_vanished. case_decide; [apply frame_ret|].
    apply frame_bind; [|intros ?; apply frame_ret]. apply frame_delete, component_not_kept, Hc.
    exists p. by apply elem_of_addr_entries. }
  assert (tx_frame [meta_record_id key]
    (tx_for_each (upsert_changed key current (nr_format_version next))
       (addr_entries (nr_components next)))) as Hups.
  { apply frame_for_each. intros [item p] Hin. unfold upsert_changed. case_decide; [apply frame_ret|].
    apply frame_bind; [|intros ?; apply frame_ret]. apply frame_upsert, component_not_kept, Hn.
    exists p. by apply elem_of_addr_entries. }
  apply frame_bind; [apply frame_lift|intros budget]. apply frame_bind; [apply frame_read|intros fence].
  apply frame_bind; [destruct current; [exact Hdel|apply frame_ret]|intros _].
  apply frame_bind; [exact Hups|intros _]. tx_frame_auto.
Qed.

Lemma guard_state_write_Ok key budget d o :
  guard_state_write key budget d = Ok o →
  match o with
  | None => stored_fence key d = None
  | Some next => ∃ raw c b, parse_metadata_fence raw = Ok (c, b) ∧ next_fence (Some raw) = Ok next ∧
      stored_fence key d = Some (c, b)
  end.
Proof.
  unfold guard_state_write. intros (f & Hf & Hg)%result_bind_Ok.
  apply read_fence_Ok in Hf as [[-> Hs]|(raw & c & b & -> & Hp & Hs)]; [by injection Hg as <-|].
  rewrite Hp in Hg. simpl in Hg. do 2 apply result_bind_Ok in Hg as (? & _ & Hg).
  apply result_bind_Ok in Hg as (u & _ & Hg). apply result_bind_Ok in Hg as (next & Hn & [= <-]).
  by exists raw, c, b.
Qed.

Lemma write_row_diff_written key current next d u d' :
  tabled (current_components current) → tabled (nr_components next) →
  write_row_diff key current next d = Ok (u, d') → state_written key d d'.
Proof.
  intros Hc Hn Hw. split; [|by eapply write_row_diff_frame].
  unfold write_row_diff in Hw. tx_next Hw as budget with Hb. tx_next Hw as fence with Hg.
  apply guard_state_write_Ok in Hg. apply tx_bind_Ok in Hw as (? & d1 & _ & Hw).
  apply tx_bind_Ok in Hw as (? & d2 & _ & Hw).
  apply tx_bind_Ok in Hw as (? & d3 & [Hm _]%tx_upsert_writes & Hw).
  destruct fence as [next'|].
  - destruct Hg as (raw & c & b & Hp & Hnx & Hs). apply (next_fence_Some _ _ _ _ Hp) in Hnx as [-> Hu].
    right. exists c, b. split; [done|]. split; [|done]. by eapply write_fence_stored.
  - apply tx_ret_Ok in Hw as [= _ ->]. left. split; [done|]. unfold stored_fence. by rewrite Hm.
Qed.

(** The records an application keeps beside the journal: none is in the control tables. *)
Definition public (p : Projection) : Prop :=
  ∀ id nid, is_Some (p !! id) → native_record_id id = Ok nid → r_table nid ∉ CONTROL_TABLES.

Lemma projection_frame p q : public p → public q → tx_frame [] (apply_projection_diff p q).
Proof.
  intros Hp Hq d u d' [_ Hf]%projection_diff_Ok r [Ht _]. apply Hf.
  intros id [Hid|Hid] Hnid; [by eapply Hp|by eapply Hq].
Qed.

Lemma public_empty : public ∅.
Proof. intros id nid [x Hx]. by rewrite lookup_empty in Hx. Qed.

(** A frame after a state write. *)
Lemma written_framed key d d1 d2 :
  state_written key d d1 → frames [] d1 d2 → state_written key d d2.
Proof.
  intros [Hf Hr] Hr2. split.
  - by rewrite (frames_fence _ _ _ _ Hr2) by apply not_elem_of_nil.
  - transitivity d1; [done|]. eapply frames_mono; [|done]. set_solver.
Qed.

Lemma replace_written key expected expected_state next rows d w d' :
  normalize_state next = Ok rows →
  replace_v2_in_transaction key expected expected_state next rows d = Ok (w, d') →
  (w = AlreadyCurrent ∧ d' = d) ∨ (w = Applied ∧ state_written key d d').
Proof.
  intros Hn Hr. unfold replace_v2_in_transaction in Hr. tx_next Hr as current with Hc.
  tx_next Hr as decision with Hd. destruct decision; [right|left].
  - tx_next Hr as rows' with Hrows. apply tx_bind_Ok in Hr as (u & d1 & Hw & [= -> ->]%tx_ret_Ok).
    split; [done|]. eapply write_row_diff_written; [|by eapply normalize_tabled|done].
    destruct current; simpl in Hrows.
    + apply result_bind_Ok in Hrows as (rs & Hrs & [= <-]). by eapply normalize_tabled.
    + injection Hrows as <-. apply tabled_empty.
  - by apply tx_ret_Ok in Hr as [= -> ->].
Qed.

Lemma prepare_state_write_Ok expected s key rows :
  prepare_state_write expected s = Ok (key, rows) → key = state_key s ∧ normalize_state s = Ok rows.
Proof.
  unfold prepare_state_write. intros Hp. do 3 apply result_bind_Ok in Hp as (? & _ & Hp).
  by apply result_bind_Ok in Hp as (r & Hr & [= <- <-]).
Qed.

Definition public_state (s : StoredSyncState) : Prop := public (optimistic_projection s).

Lemma transition_written current next d w d' :
  public_state current → public_state next →
  apply_transition_in_transaction current next d = Ok (w, d') →
  (w = AlreadyCurrent ∧ d' = d) ∨ (w = Applied ∧ state_written (state_key next) d d').
Proof.
  intros Hc Hn Ht. unfold apply_transition_in_transaction in Ht. tx_next Ht as [key rows] with Hp.
  apply prepare_state_write_Ok in Hp as [-> Hrows].
  apply tx_bind_Ok in Ht as (disp & d1 & Hr & Ht).
  apply (replace_written _ _ _ _ _ _ _ _ Hrows) in Hr as [[-> ->]|[-> Hw]].
  { apply tx_ret_Ok in Ht as [= -> ->]. by left. }
  apply tx_bind_Ok in Ht as (u & d2 & Hproj & [= -> ->]%tx_ret_Ok). right. split; [done|].
  eapply written_framed; [done|]. by eapply projection_frame in Hproj.
Qed.

Lemma migrate_moves key s rows d w d' :
  normalize_state s = Ok rows → public_state s →
  migrate_in_transaction key s rows d = Ok (w, d') → moves key d d'.
Proof.
  intros Hn Hs Hm. unfold migrate_in_transaction in Hm. tx_next Hm as existing with Hl.
  destruct existing as [existing|].
  { case_decide; [|done]. apply tx_ret_Ok in Hm as [= _ ->]. by apply moves_same. }
  tx_next Hm as legacy with Hlg. tx_next Hm as legacy' with Hlg'. tx_next Hm as st with Hst.
  case_decide; [done|]. apply tx_bind_Ok in Hm as (u1 & d1 & Hw & Hm).
  apply tx_bind_Ok in Hm as (u2 & d2 & Hp & Hm).
  apply tx_bind_Ok in Hm as (u3 & d3 & Hu & [= _ ->]%tx_ret_Ok).
  apply state_written_moves. eapply written_framed; [eapply written_framed|].
  - apply write_row_diff_written in Hw; [done|exact tabled_empty|by eapply normalize_tabled].
  - eapply projection_frame in Hp; [done|apply public_empty|done].
  - eapply frame_upsert in Hu; [done|]. kept_solve.
Qed.

Lemma guard_barrier_frame key : tx_frame [meta_record_id key] (guard_barrier_write key).
Proof. unfold guard_barrier_write. tx_frame_auto. Qed.

Lemma barrier_moves key barrier d u d' :
  (let@ _ := guard_barrier_write key in upsert_barrier key barrier) d = Ok (u, d') →
  moves key d d'.
Proof.
  intros (u1 & d1 & Hg & Hu)%tx_bind_Ok.
  assert (fence_moves (stored_fence key d) (stored_fence key d1) ∧ frames [meta_record_id key] d d1)
    as [Hfence Hframe].
  { split; [|by eapply guard_barrier_frame].
    unfold guard_barrier_write in Hg. tx_next Hg as f with Hf.
    apply read_fence_Ok in Hf as [[-> Hs]|(raw & c & b & -> & Hp & Hs)].
    { apply tx_ret_Ok in Hg as [= _ ->]. by left. }
    tx_next Hg as i with Hi. tx_next Hg as st with Hst. tx_next Hg as s with Hss.
    tx_next Hg as [c' b'] with Hp'. tx_next Hg as bud with Hbud. tx_next Hg as u2 with Hu2.
    tx_next Hg as next with Hn. right. by eapply (write_next_stored key raw c b). }
  unfold upsert_barrier in Hu. tx_next Hu as stored with Hst.
  apply map_err_Ok, db_select_Ok in Hst. apply tx_bind_Ok in Hu as (o & d2 & Hu & [= _ ->]%tx_ret_Ok).
  assert (frames [scope_barrier_record_id key] d1 d2) as Hf2.
  { eapply frame_upsert; [|exact Hu]. kept_solve. }
  apply tx_upsert_writes in Hu as [Hrow _].
  assert (stored_barrier key d1 = stored_barrier key d) as Hb by (eapply frames_barrier; [done|other_row]).
  split; [right|].
  - unfold control_of. rewrite (frames_fence _ _ _ _ Hf2) by other_row.
    rewrite (frames_header _ _ _ _ Hf2) by other_row. rewrite (frames_header _ _ _ _ Hframe) by other_row.
    unfold stored_barrier at 2. rewrite Hrow. apply cs_barrier; [done|].
    intros Hq. simpl. unfold sticky_reason. rewrite decide_True; [done|]. left.
    rewrite Hst. change (stored_reason (stored_barrier key d1) = Some "pending_quarantine_required").
    by rewrite Hb.
  - transitivity d1; (eapply frames_mono; [|done]); unfold control_rows; set_solver.
Qed.

Lemma load_v2_key key d s :
  load_v2 Direct key d = Ok (Some s) →
  state_key s = key ∧ ∃ m f, contents d (meta_record_id key) = Some (RowMeta m f).
Proof.
  unfold load_v2. intros (inv & _ & Hl)%result_bind_Ok. apply result_bind_Ok in Hl as (row & Hrow & Hl).
  destruct row as [row|]; [|by case_decide].
  do 2 apply result_bind_Ok in Hl as (? & _ & Hl). case_decide; [done|]. case_decide as Hk; [done|].
  apply refusal_or in Hk as [Hp Hk]. apply refusal_or in Hk as [Hc _]. apply dec_stable in Hp, Hc.
  do 4 apply result_bind_Ok in Hl as (? & _ & Hl). destruct (_ <? _)%N; [done|].
  apply result_bind_Ok in Hl as (? & _ & Hl). destruct (_ <? _)%N; [done|].
  do 4 apply result_bind_Ok in Hl as ([? ?] & _ & Hl). case_decide; [done|].
  apply result_bind_Ok in Hl as ([? ?] & _ & Hl). case_decide; [done|].
  do 3 apply result_bind_Ok in Hl as (? & _ & Hl). injection Hl as <-. split.
  - unfold state_key. simpl. rewrite Hp, Hc. by destruct key.
  - unfold connection_meta in Hrow. inv_ok.
    match goal with H : select_as _ _ _ = Ok _ |- _ => apply select_as_Ok in H as [Hr _] end.
    destruct (contents d (meta_record_id key)) as [[]|]; simplify_eq/=; eauto.
Qed.

Lemma inspected_current_Ok key d s :
  inspected_current key d = Ok s →
  state_key s = key ∧ ∃ m f, contents d (meta_record_id key) = Some (RowMeta m f).
Proof.
  unfold inspected_current, transaction_state_after_preflight. intros (o & Hl & Hs)%result_bind_Ok.
  apply ok_or_Ok in Hs as ->. by apply load_v2_key.
Qed.

Lemma check_barrier_Ok key d u : check_barrier key d = Ok u → stored_barrier key d = None.
Proof.
  unfold check_barrier, stored_barrier. intros (b & Hb & Hc)%result_bind_Ok.
  apply map_err_Ok, db_select_Ok in Hb as ->. case_decide as Hn; [done|].
  by apply eq_None_not_Some.
Qed.

(** *** Begin *)

Lemma define_same ts d u d' : tx_define ts d = Ok (u, d') → same d' d.
Proof.
  unfold tx_define. intros (d1 & Hd & [= _ <-])%result_bind_Ok. apply map_err_Ok in Hd.
  intros r. by eapply db_define_Ok.
Qed.

(** The temporary barrier is gone before the transaction ends. *)
Lemma fence_first_same key context d u d' :
  fence_first_barrier key context d = Ok (u, d') → same d' d.
Proof.
  unfold fence_first_barrier. intros Hf. tx_next Hf as u1 with Hb. apply check_barrier_Ok in Hb.
  apply tx_bind_Ok in Hf as (o & d1 & Hc & Hf). unfold tx_create in Hc.
  apply map_err_Ok, db_create_Ok in Hc as (_ & _ & _ & Hc). tx_next Hf as cr with Hcr.
  apply tx_bind_Ok in Hf as (o2 & d2 & [Hd Hd2]%tx_delete_writes & Hf). tx_next Hf as del with Hdel.
  tx_next Hf as ab with Hab. case_decide; [done|]. apply tx_ret_Ok in Hf as [= _ ->].
  intros r. destruct (decide (r = scope_barrier_record_id key)) as [->|Hne].
  - rewrite Hd. by symmetry.
  - by rewrite Hd2, Hc.
Qed.

Lemma begin_existing_free key start manifest expected state existing :
  begin_existing key start manifest expected state existing = Ok None →
  hd_cancelled (sg_header existing) = true.
Proof.
  unfold begin_existing. intros He. do 4 apply result_bind_Ok in He as (? & _ & He).
  destruct (hd_cancelled _); [done|]. apply result_bind_Ok in He as (? & _ & He).
  case_decide; [|done]. by apply result_bind_Ok in He as (? & _ & He).
Qed.

Lemma read_next_fence key d f next n b :
  read_fence key d = Ok f → next_fence f = Ok next → parse_metadata_fence next = Ok (n, b) →
  n = (from_option fst 0 (stored_fence key d) + 1)%N ∧ is_u64 n.
Proof.
  intros [[-> ->]|(raw & c & x & -> & Hp & ->)]%read_fence_Ok Hn Hnx.
  - apply next_fence_None in Hn as ->. rewrite parse_format_fence in Hnx by done. by injection Hnx as <- <-.
  - apply (next_fence_Some _ _ _ _ Hp) in Hn as [-> Hu]. rewrite parse_format_fence in Hnx by done.
    by injection Hnx as <- <-.
Qed.

(** The rows of a new stage. *)
Lemma begin_written key n header d o d1 u d' m f :
  contents d (meta_record_id key) = Some (RowMeta m f) → is_u64 n →
  tx_upsert (header_id key) (RowHeader header) d = Ok (o, d1) →
  write_fence key (format_fence n true) d1 = Ok (u, d') →
  control_of key d' = mkControl (Some (n, true)) (Some header) (stored_barrier key d) ∧
  frames (control_rows key) d d'.
Proof.
  intros Hm Hn Hu Hw. assert (frames [meta_record_id key] d1 d') as Hf2.
  { eapply frame_fence; [|exact Hw]. kept_solve. }
  assert (frames [header_id key] d d1) as Hf1 by (eapply frame_upsert; [|exact Hu]; kept_solve).
  apply tx_upsert_writes in Hu as [Hrow Hother].
  assert (contents d1 (meta_record_id key) = Some (RowMeta m f)) as Hm1.
  { rewrite Hother; [done|]. intros E. apply (f_equal r_table) in E. discriminate E. }
  split.
  - unfold control_of. rewrite (write_fence_stored key n true d1 u d' m f) by done.
    rewrite (frames_header _ _ _ _ Hf2), (frames_barrier _ _ _ _ Hf2), (frames_barrier _ _ _ _ Hf1)
      by other_row. unfold stored_header. by rewrite Hrow.
  - transitivity d1; (eapply frames_mono; [|done]); unfold control_rows; set_solver.
Qed.

(** A new stage over the rows [d]. *)
Lemma begin_fresh key existing start manifest expected state budget header d u2 f next n b o d1 u d' :
  inspect_stage key d = Ok (budget, existing) → inspected_current key d = Ok state →
  stored_barrier key d = None →
  match existing with
  | Some existing => begin_existing key start manifest expected state existing
  | None => Ok None
  end = Ok None →
  header = mkHeader 1 false (u64_to_string n) start manifest None None →
  same u2 d → read_fence key u2 = Ok f → next_fence f = Ok next →
  parse_metadata_fence next = Ok (n, b) →
  tx_upsert (header_id key) (RowHeader header) u2 = Ok (o, d1) →
  write_fence key (format_fence n true) d1 = Ok (u, d') → moves key d d'.
Proof.
  intros Hi (_ & m & fm & Hm)%inspected_current_Ok Hbar Hfree -> Hs Hf Hn Hp Hu Hw.
  apply inspect_stage_Ok in Hi. rewrite <-(Hs _) in Hm.
  destruct (read_next_fence _ _ _ _ _ _ Hf Hn Hp) as [Hnum Hu64].
  destruct (begin_written _ _ _ _ _ _ _ _ _ _ Hm Hu64 Hu Hw) as [Hctl Hframe].
  split; [right|by transitivity u2; [apply frames_same|]].
  rewrite <-Hs, Hctl. unfold control_of.
  pose proof (control_of_proper key _ _ Hs) as Heq. unfold control_of in Heq.
  injection Heq as Ef Eh Eb. rewrite Eb, Hbar. apply cs_begin; [done|done|]. rewrite Eh.
  destruct existing as [st|]; [|by rewrite Hi].
  destruct Hi as [-> (c & i & Hfence & Hinc & Hle) _]. simpl.
  split; [by eapply begin_existing_free|]. exists i. split; [done|].
  rewrite Hnum, Ef, Hfence. simpl. lia.
Qed.

Lemma begin_moves start manifest decoded expected d n d' :
  begin_in_transaction start manifest decoded expected d = Ok (n, d') →
  moves (context_key expected) d d'.
Proof.
  unfold begin_in_transaction. set (key := context_key expected). intros Hb.
  apply tx_bind_Ok in Hb as (u & d1 & Hdef%define_same & Hb).
  assert (moves key d1 d' → moves key d d') as Hshift.
  { intros [Hown Hfr]. split; [|by transitivity d1; [apply frames_same|]].
    rewrite Hdef in Hown. destruct Hown as [Hs|]; [left; by rewrite Hs|by right]. }
  apply Hshift. clear Hshift Hdef.
  tx_next Hb as [budget existing] with Hi. tx_next Hb as u1 with Hfirst. tx_next Hb as state with Hst.
  tx_next Hb as u2 with Hbar. apply check_barrier_Ok in Hbar. tx_next Hb as fence with Hfence.
  apply tx_bind_Ok in Hb as (u3 & d2 & Hfb & Hb).
  assert (same d2 d1) as Hs.
  { destruct fence; [by apply tx_ret_Ok in Hfb as [= _ ->]|by eapply fence_first_same]. }
  tx_next Hb as u4 with Hsc. tx_next Hb as retry with Hretry.
  destruct retry as [i|]; [apply tx_ret_Ok in Hb as [= _ ->]; by apply moves_same|].
  tx_next Hb as f with Hf. tx_next Hb as next with Hn. tx_next Hb as [n' b] with Hp.
  tx_next Hb as bud with Hbud. tx_next Hb as u5 with Hcb.
  apply tx_bind_Ok in Hb as (o & d3 & Hu & Hb). apply tx_bind_Ok in Hb as (u6 & d4 & Hw & [= -> ->]%tx_ret_Ok).
  by eapply begin_fresh.
Qed.

(** *** Pages, cancellation *)

Lemma stage_page_moves raw page expected incarnation d u d' :
  stage_page_in_transaction raw page expected incarnation d = Ok (u, d') →
  moves (context_key expected) d d'.
Proof.
  unfold stage_page_in_transaction. set (key := context_key expected). intros Hp.
  tx_next Hp as o with Hf. tx_next Hp as fence with Ho. apply ok_or_Ok in Ho as ->.
  apply read_fence_Ok in Hf as [[? _]|(raw' & c & b & [= <-] & Hparse & Hs)]; [done|].
  tx_next Hp as [budget os] with Hi. tx_next Hp as stage with Hst. tx_next Hp as u1 with Hb.
  destruct (hd_cancelled _); [done|]. tx_next Hp as u2 with Hbar. tx_next Hp as u3 with Hv.
  destruct (sg_pages stage !! bp_index page).
  { case_decide; [|done]. apply tx_ret_Ok in Hp as [= _ ->]. by apply moves_same. }
  tx_next Hp as s with Hss. tx_next Hp as bud with Hbud. tx_next Hp as u4 with Hcb.
  apply tx_bind_Ok in Hp as (r & d1 & Hu & Hp). tx_next Hp as next with Hn.
  assert (frames [] d d1) as Hf1 by (eapply frame_upsert; [|exact Hu]; kept_solve).
  pose proof (frames_fence _ key _ _ Hf1 ltac:(other_row)) as Hfe.
  apply state_written_moves. split.
  - rewrite <-Hfe. right. eapply (write_next_stored key fence c b); try done. by rewrite Hfe.
  - transitivity d1; [eapply frames_mono; [|done]; set_solver|].
    eapply frame_fence; [|exact Hp]. kept_solve.
Qed.

Lemma delete_pages_frame key stage : tx_frame [] (delete_pages key stage).
Proof. unfold delete_pages. tx_frame_auto. Qed.

Lemma write_inactive_frames key f : tx_frame [meta_record_id key] (write_inactive_fence key f).
Proof. unfold write_inactive_fence. tx_frame_auto. Qed.

(** The header and the fence of a stage that ends. *)
Lemma stage_ended key header raw c b d o d1 u d' :
  parse_metadata_fence raw = Ok (c, b) → stored_fence key d1 = Some (c, b) →
  tx_upsert (header_id key) (RowHeader header) d = Ok (o, d1) →
  write_inactive_fence key (Some raw) d1 = Ok (u, d') →
  is_u64 (c + 1) ∧
  control_of key d' = mkControl (Some (c + 1, false))%N (Some header) (stored_barrier key d) ∧
  frames (control_rows key) d d'.
Proof.
  intros Hp Hs Hu Hw. pose proof (write_inactive_frames key (Some raw) _ _ _ Hw) as Hf2.
  assert (frames [header_id key] d d1) as Hf1 by (eapply frame_upsert; [|exact Hu]; kept_solve).
  apply tx_upsert_writes in Hu as [Hrow _].
  destruct (write_inactive_stored _ _ _ _ _ _ _ Hp Hs Hw) as [Hfence Hu64].
  split; [done|]. split.
  - unfold control_of. rewrite Hfence, (frames_header _ _ _ _ Hf2), (frames_barrier _ _ _ _ Hf2),
      (frames_barrier _ _ _ _ Hf1) by other_row. unfold stored_header. by rewrite Hrow.
  - transitivity d1; (eapply frames_mono; [|done]); unfold control_rows; set_solver.
Qed.

Lemma cancel_moves manifest expected incarnation d u d' :
  cancel_in_transaction manifest expected incarnation d = Ok (u, d') →
  moves (context_key expected) d d'.
Proof.
  unfold cancel_in_transaction. set (key := context_key expected). intros Hc.
  tx_next Hc as f with Hf.
  apply read_fence_Ok in Hf as [[-> _]|(raw & c & b & -> & Hp & Hs)].
  { apply tx_ret_Ok in Hc as [= _ ->]. by apply moves_same. }
  tx_next Hc as os with Hl. destruct os as [stage|].
  2: { apply tx_ret_Ok in Hc as [= _ ->]. by apply moves_same. }
  unfold load_stage in Hl. apply result_bind_Ok in Hl as ([budget o] & Hi & [= ->]).
  apply inspect_stage_Ok in Hi as [Hh _ _].
  tx_next Hc as u1 with Hb. case_decide; [done|]. case_decide as Hcons.
  { apply tx_ret_Ok in Hc as [= _ ->]. by apply moves_same. }
  apply tx_bind_Ok in Hc as (u2 & d1 & Hdel & Hc). apply tx_bind_Ok in Hc as (r & d2 & Hu & Hw).
  pose proof (delete_pages_frame _ _ _ _ _ Hdel) as Hf1.
  assert (frames [header_id key] d1 d2) as Hf2 by (eapply frame_upsert; [|exact Hu]; kept_solve).
  assert (stored_fence key d2 = Some (c, b)) as Hs2.
  { by rewrite (frames_fence _ _ _ _ Hf2), (frames_fence _ _ _ _ Hf1) by other_row. }
  destruct (stage_ended _ _ _ _ _ _ _ _ _ _ Hp Hs2 Hu Hw) as (Hu64 & Hctl & Hframe).
  split; [right|transitivity d1; [eapply frames_mono; [|done]; set_solver|done]].
  rewrite Hctl, (frames_barrier _ _ _ _ Hf1) by other_row. unfold control_of. rewrite Hs, Hh.
  apply cs_cancel; [|done]. by apply eq_None_not_Some.
Qed.

(** *** Completion *)

(** Publication: the state is written, which moves the fence, and the header is consumed,
    which moves it again and clears its mark. *)
Lemma publish_moves key stage receipt_bytes current next c d u d' :
  state_key next = key → public_state current → public_state next →
  stored_header key d = Some (sg_header stage) → hd_cancelled (sg_header stage) = false →
  stored_fence key d = Some (c, true) → stored_barrier key d = None →
  publish_completion key stage receipt_bytes current next d = Ok (u, d') → moves key d d'.
Proof.
  intros Hkey Hpc Hpn Hh Hop Hfe Hbar Hp. unfold publish_completion in Hp.
  apply tx_bind_Ok in Hp as (u1 & d1 & Hdef & Hp).
  pose proof (frame_define [] _ _ _ _ Hdef) as Hf1.
  apply tx_bind_Ok in Hp as (w & d2 & Ht & Hp).
  assert (frames [meta_record_id key] d1 d2 ∧ ∃ c2, stored_fence key d2 = Some (c2, true) ∧ (c ≤ c2)%N)
    as (Hf2 & c2 & Hfe2 & Hle).
  { rewrite <-(frames_fence _ key _ _ Hf1) in Hfe by other_row.
    apply transition_written in Ht as [[_ ->]|[_ [Hm Hfr]]]; [| |done..].
    - split; [done|]. by exists c.
    - rewrite Hkey in Hm, Hfr. split; [done|]. rewrite Hfe in Hm.
      destruct Hm as [[? _]|(c0 & b0 & [= <- <-] & ? & _)]; [done|]. exists (c + 1)%N. split; [done|lia]. }
  apply tx_bind_Ok in Hp as (u3 & d3 & Hdel & Hp). pose proof (delete_pages_frame _ _ _ _ _ Hdel) as Hf3.
  apply tx_bind_Ok in Hp as (marker & d4 & Hu & Hp). tx_next Hp as mk with Hmk. case_decide; [done|].
  assert (frames [header_id key] d3 d4) as Hf4 by (eapply frame_upsert; [|exact Hu]; kept_solve).
  assert (stored_fence key d4 = Some (c2, true)) as Hfe4.
  { by rewrite (frames_fence _ _ _ _ Hf4), (frames_fence _ _ _ _ Hf3) by other_row. }
  tx_next Hp as f with Hf.
  apply read_fence_Ok in Hf as [[_ Hno]|(raw & c' & b' & -> & Hparse & Hs)]; [congruence|].
  assert (c' = c2 ∧ b' = true) as [-> ->] by (split; congruence).
  destruct (stage_ended _ _ _ _ _ _ _ _ _ _ Hparse Hs Hu Hp) as (Hu64 & Hctl & Hframe).
  split; [right|].
  - rewrite Hctl, (frames_barrier _ _ _ _ Hf3), (frames_barrier _ _ _ _ Hf2), (frames_barrier _ _ _ _ Hf1)
      by other_row. unfold control_of. rewrite Hfe, Hh, Hbar. apply cs_consume; [done|lia|done].
  - transitivity d3; [|done]. transitivity d2; [transitivity d1|];
      (eapply frames_mono; [|done]); unfold control_rows; set_solver.
Qed.

Lemma complete_moves receipt_bytes receipt expected incarnation clock d r d' :
  (∀ s, inspected_current (context_key expected) d = Ok s → public_state s) →
  (∀ next, r = CompletionApplied next → public_state next) →
  complete_in_transaction receipt_bytes receipt expected incarnation clock d = Ok (r, d') →
  moves (context_key expected) d d'.
Proof.
  unfold complete_in_transaction. set (key := context_key expected). intros Hpub Hnext Hc.
  tx_next Hc as [budget os] with Hi. tx_next Hc as st with Hst. apply ok_or_Ok in Hst as ->.
  apply inspect_stage_Ok in Hi as [Hh (c & i & Hfe & _) _].
  tx_next Hc as u with Hb. tx_next Hc as u1 with Hb1.
  destruct (hd_consumed_receipt (sg_header st)) as [consumed|].
  { apply tx_read_Ok in Hc as (x & _ & [= _ ->]). by apply moves_same. }
  destruct (hd_cancelled (sg_header st)) eqn:Hop; [done|].
  tx_next Hc as u2 with Hbar. apply check_barrier_Ok in Hbar. tx_next Hc as u3 with Hb3.
  tx_next Hc as current with Hcur. tx_next Hc as u4 with Hb4. tx_next Hc as u5 with Hb5.
  tx_next Hc as [records k] with Hv. tx_next Hc as runtime with Ho. apply map_err_Ok, open_Ok in Ho as ->.
  tx_next Hc as p with Hp. apply map_err_Ok in Hp. tx_next Hc as u6 with Hb6. tx_next Hc as u7 with Hb7.
  apply tx_bind_Ok in Hc as (u8 & d1 & Hpb & Hc). tx_next Hc as u9 with Hb9.
  apply tx_ret_Ok in Hc as [= -> ->].
  eapply publish_moves; [|by apply Hpub|by apply Hnext|done..].
  rewrite (bootstrap_key _ _ _ _ Hp). by apply inspected_current_Ok in Hcur as [-> _].
Qed.
End moves.

(** ** Operations and runs *)

Section runs.
Context `{!SurrealTypes, !Engine, !EngineLaws, !Host, !JsonFloatText, !JsonText, !StateSerde, !Ciborium, !Sha256}.

(** The calls of [SyncStateStore] and [BootstrapStore]. *)
Inductive store_op :=
| SDefine (sg : option N)
| SLoad (sg : option N) (key : SyncStateKey)
| SSave (sg expected : option N) (state : StoredSyncState)
| STransition (sg : option N) (current next : StoredSyncState)
| SLoadBarrier (key : SyncStateKey)
| SSaveBarrier (sg : option N) (key : SyncStateKey) (barrier : ScopeBarrier)
| SInspect (key : SyncStateKey)
| SResume (manifest : option (list byte)) (expected : BootstrapContext) (incarnation : option N)
| SBegin (sg : option N) (start manifest : list byte) (expected : BootstrapContext)
| SPage (sg : option N) (raw : list byte) (expected : BootstrapContext) (incarnation : N)
| SComplete (sg : option N) (receipt_bytes : list byte) (expected : BootstrapContext)
    (incarnation : N) (clock : CompletionClock)
| SProgress (expected : BootstrapContext) (incarnation : N)
| SCancel (sg : option N) (manifest : list byte) (expected : BootstrapContext) (incarnation : N).

Definition op_world (op : store_op) (w : world) : world :=
  match op with
  | SDefine sg => (define_schema sg w).2
  | SLoad sg key => (load sg key w).2
  | SSave sg expected state => (save_atomic sg expected state w).2
  | STransition sg current next => (apply_transition_atomic sg current next w).2
  | SLoadBarrier key => (load_scope_barrier key w).2
  | SSaveBarrier sg key barrier => (save_scope_barrier sg key barrier w).2
  | SInspect key => (inspect key w).2
  | SResume manifest expected incarnation => (resume manifest expected incarnation w).2
  | SBegin sg start manifest expected => (begin sg start manifest expected w).2
  | SPage sg raw expected incarnation => (stage_page sg raw expected incarnation w).2
  | SComplete sg receipt_bytes expected incarnation clock =>
      (complete sg receipt_bytes expected incarnation clock w).2
  | SProgress expected incarnation => (progress expected incarnation w).2
  | SCancel sg manifest expected incarnation => (cancel sg manifest expected incarnation w).2
  end.

(** The journal a call works on; the schema belongs to none. *)
Definition op_key (op : store_op) : option SyncStateKey :=
  match op with
  | SDefine _ => None
  | SLoad _ key | SLoadBarrier key | SSaveBarrier _ key _ | SInspect key => Some key
  | SSave _ _ state => Some (state_key state)
  | STransition _ current _ => Some (state_key current)
  | SResume _ expected _ | SBegin _ _ _ expected | SPage _ _ expected _
  | SComplete _ _ expected _ _ | SProgress expected _ | SCancel _ _ expected _ =>
      Some (context_key expected)
  end.

(** The application's records stay out of the control tables: the states a call is given,
    migrates from the old format or installs name no record there. *)
Definition legacy_public (key : SyncStateKey) (d : db) : Prop :=
  ∀ x s, contents d (record_id key) = Some (RowState x) → decode_record key x = Ok s → public_state s.
Definition op_public (op : store_op) (d : db) : Prop :=
  match op with
  | SLoad _ key => legacy_public key d
  | SSave _ _ state => legacy_public (state_key state) d
  | STransition _ current next =>
      legacy_public (state_key current) d ∧ public_state current ∧ public_state next
  | SComplete _ receipt_bytes expected incarnation clock =>
      ∀ t, same t d →
        (∀ s, inspected_current (context_key expected) t = Ok s → public_state s) ∧
        ∀ receipt next t', complete_in_transaction receipt_bytes receipt expected incarnation clock t
                             = Ok (CompletionApplied next, t') → public_state next
  | _ => True
  end.

(** A sequence of calls, each from any moment of the handle. *)
Inductive store_run : list store_op → db → db → Prop :=
| run_nil d : store_run [] d d
| run_cons op ops w d' :
    op_public op (w_db w) → store_run ops (w_db (op_world op w)) d' →
    store_run (op :: ops) (w_db w) d'.

(** *** Every call moves its journal *)

#[export] Instance moves_proper key : Proper (same ==> same ==> iff) (moves key).
Proof.
  assert (∀ d1 d2 e1 e2, same d1 d2 → same e1 e2 → moves key d1 e1 → moves key d2 e2) as Himp.
  { intros d1 d2 e1 e2 Hd He [Hown Hf]. split.
    - by rewrite <-Hd, <-He.
    - intros r Hr. rewrite <-(He r), <-(Hd r). by apply Hf. }
  intros d1 d2 Hd e1 e2 He. split; apply Himp; done || by symmetry.
Qed.

(** The calls are built from pieces that move the journal step by step. *)
Definition io_moves {E A} (key : SyncStateKey) (m : io E A) (w : world) : Prop :=
  rtc (moves key) (w_db w) (w_db (m w).2).

Lemma io_moves_keeps {E A} key (m : io E A) w : keeps_db m → io_moves key m w.
Proof. intros Hk. unfold io_moves. by rewrite Hk. Qed.

Lemma io_moves_bind {E A B} key (m : io E A) (k : A → io E B) w :
  io_moves key m w → (∀ a w', m w = (Ok a, w') → io_moves key (k a) w') →
  io_moves key (io_bind m k) w.
Proof.
  unfold io_moves, io_bind. intros Hm Hk. destruct (m w) as [[a|e] w'] eqn:E0; simpl in *; [|done].
  etransitivity; [exact Hm|]. by apply Hk.
Qed.

Lemma io_moves_lift {E A B} key (r : result A E) (k : A → io E B) w :
  (∀ a, r = Ok a → io_moves key (k a) w) → io_moves key (io_bind (io_lift r) k) w.
Proof. intros Hk. apply io_moves_bind; [by apply io_moves_keeps|]. intros a w' [= -> <-]. by apply Hk. Qed.

Lemma io_moves_transaction {A} key sg (op : tx A) w :
  (∀ t a t', same t (w_db w) → op t = Ok (a, t') → moves key t t') →
  io_moves key (in_transaction sg op) w.
Proof.
  intros Hop. unfold io_moves. destruct (in_transaction sg op w) as [r w'] eqn:Hr. simpl.
  apply rtc_once. apply in_transaction_outcome in Hr.
  destruct Hr as [t a t' Ht Ho Hw|e Hw|t a t' Ht Ho Hw]; [|by apply moves_same|];
    rewrite Hw, <-Ht; by eapply Hop.
Qed.

Lemma io_moves_read {A} key (f : db → result A SyncStateError) w :
  io_moves key (in_read_transaction f) w.
Proof.
  unfold in_read_transaction. apply io_moves_bind; [apply io_moves_keeps, keeps_begin|]. intros t w' _.
  unfold io_moves. destruct (db_cancel (w_db w') t) as [r d] eqn:Hc. simpl. apply rtc_once, moves_same.
  intros x. by eapply db_cancel_any.
Qed.

Lemma migrate_io_moves sg key s w :
  public_state s → io_moves key (migrate_v1 sg key s) w.
Proof.
  intros Hs. apply io_moves_lift. intros rows Hn.
  apply io_moves_bind; [|intros a w' _; by apply io_moves_keeps].
  apply io_moves_transaction. intros t a t' _ Hm. by eapply migrate_moves.
Qed.

Lemma load_moves sg key w : legacy_public key (w_db w) → io_moves key (load sg key) w.
Proof.
  intros Hleg. apply io_moves_lift. intros u _.
  apply io_moves_bind; [apply io_moves_keeps, keeps_map_err, keeps_database_client|]. intros u1 w1 Hc.
  pose proof (keeps_map_err CoreError _ keeps_database_client w) as Hk. rewrite Hc in Hk. simpl in Hk.
  rewrite <-Hk in Hleg. apply io_moves_bind; [by apply io_moves_keeps|]. intros o w2 [= _ <-].
  destruct o as [s|]; [by apply io_moves_keeps|].
  apply io_moves_bind; [by apply io_moves_keeps|]. intros st w2 [= Hst <-].
  destruct st as [st|]; [|by apply io_moves_keeps]. case_decide; [by apply io_moves_keeps|].
  apply io_moves_lift. intros s Hdec. apply io_moves_bind; [|intros ? ? _; by apply io_moves_keeps].
  apply migrate_io_moves. eapply Hleg; [|done]. apply select_as_Ok in Hst as [Hst _].
  destruct (contents (w_db w1) (record_id key)) as [[]|]; by simplify_eq/=.
Qed.

(** A save first loads, which may migrate an old journal, then replaces the rows. *)
Lemma save_moves sg expected state w :
  legacy_public (state_key state) (w_db w) → io_moves (state_key state) (save_atomic sg expected state) w.
Proof.
  intros Hleg. apply io_moves_lift. intros [key rows] [-> Hn]%prepare_state_write_Ok.
  apply io_moves_bind; [by apply load_moves|]. intros o w' _.
  apply io_moves_transaction. intros t a t' _ [[_ ->]|[_ Hw]]%replace_written; [by apply moves_same| |done].
  by apply state_written_moves.
Qed.

Lemma transition_moves sg current next w :
  legacy_public (state_key current) (w_db w) → public_state current → public_state next →
  io_moves (state_key current) (apply_transition_atomic sg current next) w.
Proof.
  intros Hleg Hc Hn. unfold apply_transition_atomic. case_decide as Hid; [by apply io_moves_keeps|].
  apply refusal_or in Hid as [Hp Hcl]. apply dec_stable in Hp, Hcl.
  assert (state_key next = state_key current) as Hkey by (unfold state_key; congruence).
  apply io_moves_lift. intros u _. case_decide.
  - apply io_moves_bind; [by apply load_moves|]. intros o w' _. by case_decide; apply io_moves_keeps.
  - apply io_moves_lift. intros p _. apply io_moves_transaction.
    intros t a t' _ Ht. apply transition_written in Ht as [[_ ->]|[_ Hw]]; [|rewrite Hkey in Hw|done..].
    + by apply moves_same.
    + by apply state_written_moves.
Qed.

Lemma keeps_bind_same {E A B} (m : io E A) (k : A → io E B) w :
  keeps_db m → (∀ a w', same (w_db (k a w').2) (w_db w')) → same (w_db (io_bind m k w).2) (w_db w).
Proof.
  intros Hm Hk. specialize (Hm w). unfold io_bind.
  destruct (m w) as [[a|e] w']; simpl in *; rewrite <-Hm; [apply Hk|done].
Qed.

Lemma define_schema_same sg w : same (w_db (define_schema sg w).2) (w_db w).
Proof.
  apply keeps_bind_same; [apply keeps_check_session|]. intros _ w1.
  apply keeps_bind_same; [apply keeps_map_err, keeps_database_client|]. intros _ w2.
  destruct (db_define (w_db w2) STATE_SCHEMA_TABLES) eqn:Hd; [|done]. intros r. by eapply db_define_Ok.
Qed.

Lemma op_moves op w key :
  op_key op = Some key → op_public op (w_db w) → rtc (moves key) (w_db w) (w_db (op_world op w)).
Proof.
  destruct op; simpl; try done; intros [= <-] Hpub;
    match goal with |- rtc (moves ?key) _ (w_db (snd (?m w))) => change (io_moves key m w) end.
  - by apply load_moves.
  - by apply save_moves.
  - destruct Hpub as (? & ? & ?). by apply transition_moves.
  - apply io_moves_lift. intros u _. apply io_moves_keeps.
    apply keeps_bind; [apply keeps_map_err, keeps_database_client|intros _].
    apply keeps_bind; [apply keeps_read|intros b]. by apply keeps_bind; [apply keeps_lift|intros _].
  - do 2 (apply io_moves_lift; intros ? _). apply io_moves_transaction. intros t x t' _. apply barrier_moves.
  - apply io_moves_lift. intros ? _. apply io_moves_read.
  - do 2 (apply io_moves_lift; intros ? _). apply io_moves_read.
  - do 4 (apply io_moves_lift; intros ? _). apply io_moves_transaction. intros t x t' _. apply begin_moves.
  - do 3 (apply io_moves_lift; intros ? _). apply io_moves_transaction. intros t x t' _. apply stage_page_moves.
  - do 3 (apply io_moves_lift; intros ? _). apply io_moves_transaction. intros t x t' Ht Hc.
    destruct (Hpub t Ht) as [Hcur Hnext].
    eapply complete_moves; [done| |done]. intros next ->. by eapply Hnext.
  - apply io_moves_lift. intros ? _. apply io_moves_read.
  - apply io_moves_lift. intros ? _. apply io_moves_transaction. intros t x t' _. apply cancel_moves.
Qed.

(** *** Every run follows the machine *)

Lemma moves_control key key' d d' :
  moves key d d' → rtc control_step (control_of key' d) (control_of key' d').
Proof.
  intros [Hown Hf]. destruct (decide (key' = key)) as [->|Hne].
  - destruct Hown as [Hs|Hs]; [by rewrite Hs|by apply rtc_once].
  - by rewrite (frames_other _ _ _ _ Hf Hne).
Qed.

Lemma op_control op w key :
  op_public op (w_db w) →
  rtc control_step (control_of key (w_db w)) (control_of key (w_db (op_world op w))).
Proof.
  intros Hpub. destruct (op_key op) as [key'|] eqn:Hk.
  - assert (∀ d d', rtc (moves key') d d' → rtc control_step (control_of key d) (control_of key d')) as Hm.
    { induction 1; [done|]. etransitivity; [by eapply moves_control|done]. }
    by apply Hm, op_moves.
  - destruct op; try done. simpl. by rewrite define_schema_same.
Qed.

Lemma run_control ops d d' key :
  store_run ops d d' → rtc control_step (control_of key d) (control_of key d').
Proof.
  induction 1 as [|op ops w d' Hpub _ IH]; [done|]. etransitivity; [by apply op_control|done].
Qed.

Lemma run_barrier ops d d' key :
  store_run ops d d' → barrier_le (stored_barrier key d) (stored_barrier key d').
Proof.
  intros Hr%(run_control _ _ _ key). change (barrier_le (ct_barrier (control_of key d)) (ct_barrier (control_of key d'))).
  induction Hr as [|x y z Hs _ IH]; [done|]. etransitivity; [by apply control_step_barrier|done].
Qed.

Lemma run_stage ops d d' key i ended :
  store_run ops d d' → stage_past i ended (control_of key d) → stage_past i ended (control_of key d').
Proof.
  intros Hr%(run_control _ _ _ key). induction Hr as [|x y z Hs _ IH]; [done|].
  intros Hp. apply IH. by eapply control_step_stage.
Qed.

(** *** What the calls return *)

(** The value of a call that reports success is the value of its transaction. *)
Lemma in_transaction_value {A} sg (op : tx A) w a w' :
  in_transaction sg op w = (Ok a, w') →
  ∃ t t', same t (w_db w) ∧ op t = Ok (a, t') ∧ same (w_db w') t'.
Proof. intros Hr%in_transaction_outcome. inversion Hr; subst. eauto. Qed.

Lemma io_lift_value {E A B} (r : result A E) (k : A → io E B) w b w' :
  io_bind (io_lift r) k w = (Ok b, w') → ∃ a, r = Ok a ∧ k a w = (Ok b, w').
Proof. unfold io_bind, io_lift. destruct r; [eauto|done]. Qed.

Lemma begin_value sg start manifest expected w n w' :
  begin sg start manifest expected w = (Ok n, w') →
  ∃ decoded t t', same t (w_db w) ∧
    begin_in_transaction start manifest decoded expected t = Ok (n, t') ∧ same (w_db w') t'.
Proof.
  unfold begin. intros Hb. apply io_lift_value in Hb as (? & _ & Hb).
  apply io_lift_value in Hb as (decoded & _ & Hb). do 2 apply io_lift_value in Hb as (? & _ & Hb).
  apply in_transaction_value in Hb as (t & t' & ? & ? & ?). by exists decoded, t, t'.
Qed.

Lemma page_value sg raw expected incarnation w u w' :
  stage_page sg raw expected incarnation w = (Ok u, w') →
  ∃ page t t', same t (w_db w) ∧
    stage_page_in_transaction raw page expected incarnation t = Ok (u, t') ∧ same (w_db w') t'.
Proof.
  unfold stage_page. intros Hb. apply io_lift_value in Hb as (? & _ & Hb).
  apply io_lift_value in Hb as (page & _ & Hb). apply io_lift_value in Hb as (? & _ & Hb).
  apply in_transaction_value in Hb as (t & t' & ? & ? & ?). by exists page, t, t'.
Qed.

Lemma complete_value sg receipt_bytes expected incarnation clock w c w' :
  complete sg receipt_bytes expected incarnation clock w = (Ok c, w') →
  ∃ receipt t t', same t (w_db w) ∧
    complete_in_transaction receipt_bytes receipt expected incarnation clock t = Ok (c, t') ∧
    same (w_db w') t'.
Proof.
  unfold complete. intros Hb. do 2 apply io_lift_value in Hb as (? & _ & Hb).
  apply io_lift_value in Hb as (receipt & _ & Hb).
  apply in_transaction_value in Hb as (t & t' & ? & ? & ?). by exists receipt, t, t'.
Qed.

(** A call on a stage that reports success saw that stage, by its incarnation. *)
Definition saw_stage (key : SyncStateKey) (incarnation : N) (open : Prop) (d : db) : Prop :=
  ∃ stage, staged key d stage ∧ parse_fence (hd_incarnation (sg_header stage)) = Ok incarnation ∧
    (open → hd_cancelled (sg_header stage) = false).

Lemma stage_bound_Ok expected incarnation stage u :
  stage_bound expected incarnation stage = Ok u →
  parse_fence (hd_incarnation (sg_header stage)) = Ok incarnation.
Proof.
  unfold stage_bound. intros (u1 & _ & Hb)%result_bind_Ok. apply result_bind_Ok in Hb as (n & -> & Hb).
  case_decide as Hne; [done|]. by rewrite Hne.
Qed.

Lemma page_saw raw page expected incarnation d u d' :
  stage_page_in_transaction raw page expected incarnation d = Ok (u, d') →
  saw_stage (context_key expected) incarnation True d ∧ stored_barrier (context_key expected) d = None.
Proof.
  unfold stage_page_in_transaction. intros Hp. tx_next Hp as o with Hf. tx_next Hp as fence with Ho.
  tx_next Hp as [budget os] with Hi. tx_next Hp as stage with Hst. apply ok_or_Ok in Hst as ->.
  apply inspect_stage_Ok in Hi. tx_next Hp as u1 with Hb. apply stage_bound_Ok in Hb.
  destruct (hd_cancelled (sg_header stage)) eqn:Hc; [done|]. tx_next Hp as u2 with Hbar.
  apply check_barrier_Ok in Hbar. split; [|done]. by exists stage.
Qed.

Lemma complete_saw receipt_bytes receipt expected incarnation clock d c d' :
  complete_in_transaction receipt_bytes receipt expected incarnation clock d = Ok (c, d') →
  saw_stage (context_key expected) incarnation (c ≠ HistoricalSuccess) d ∧
  (c ≠ HistoricalSuccess → stored_barrier (context_key expected) d = None).
Proof.
  unfold complete_in_transaction. intros Hc. tx_next Hc as [budget os] with Hi.
  tx_next Hc as stage with Hst. apply ok_or_Ok in Hst as ->. apply inspect_stage_Ok in Hi.
  tx_next Hc as u1 with Hb. apply stage_bound_Ok in Hb. tx_next Hc as u2 with Hr.
  destruct (hd_consumed_receipt (sg_header stage)) as [consumed|].
  { apply tx_read_Ok in Hc as (x & Hh & [= -> _]). unfold historical_success in Hh.
    assert (x = HistoricalSuccess) as -> by (by inv_ok). split; [by exists stage|done]. }
  destruct (hd_cancelled (sg_header stage)) eqn:Hcan; [done|]. tx_next Hc as u3 with Hbar.
  apply check_barrier_Ok in Hbar. split; [|done]. by exists stage.
Qed.

(** A begin that reports success went past every stage before it. *)
Lemma begin_saw start manifest decoded expected d n d' :
  begin_in_transaction start manifest decoded expected d = Ok (n, d') →
  stored_barrier (context_key expected) d = None ∧
  ∀ stage, stored_header (context_key expected) d = Some stage →
    ∃ i, parse_fence (hd_incarnation stage) = Ok i ∧
      if hd_cancelled stage then (i < n)%N else i = n.
Proof.
  unfold begin_in_transaction. set (key := context_key expected). intros Hb.
  apply tx_bind_Ok in Hb as (u & d1 & Hdef%define_same & Hb).
  pose proof (control_of_proper key _ _ Hdef) as Hctl. injection Hctl as Ef Eh Eb.
  rewrite <-Eh, <-Eb. clear Hdef Ef Eh Eb.
  tx_next Hb as [budget existing] with Hi. tx_next Hb as u1 with Hfirst. tx_next Hb as state with Hst.
  tx_next Hb as u2 with Hbar. apply check_barrier_Ok in Hbar. tx_next Hb as fence with Hfence.
  apply tx_bind_Ok in Hb as (u3 & d2 & Hfb & Hb).
  assert (same d2 d1) as Hs.
  { destruct fence; [by apply tx_ret_Ok in Hfb as [= _ ->]|by eapply fence_first_same]. }
  tx_next Hb as u4 with Hsc. tx_next Hb as retry with Hretry. split; [done|]. intros stage Hh.
  apply inspect_stage_Ok in Hi. destruct existing as [st|]; [|congruence].
  destruct Hi as [Hh' (c & i & Hfe & Hinc & Hle) _]. rewrite Hh in Hh'. injection Hh' as ->.
  exists i. split; [done|]. destruct retry as [i'|].
  - apply tx_ret_Ok in Hb as [= -> _]. unfold begin_existing in Hretry.
    do 4 apply result_bind_Ok in Hretry as (? & _ & Hretry).
    destruct (hd_cancelled (sg_header st)); [by case_decide|].
    apply result_bind_Ok in Hretry as (? & _ & Hretry). case_decide; [|done].
    apply result_bind_Ok in Hretry as (j & Hj & [= <-]). congruence.
  - rewrite (begin_existing_free _ _ _ _ _ _ Hretry).
    tx_next Hb as f with Hf. tx_next Hb as next with Hn. tx_next Hb as [n' b] with Hp.
    tx_next Hb as bud with Hbud. tx_next Hb as u5 with Hcb.
    apply tx_bind_Ok in Hb as (? & d3 & _ & Hb). apply tx_bind_Ok in Hb as (? & d4 & _ & [= -> _]%tx_ret_Ok).
    destruct (read_next_fence _ _ _ _ _ _ Hf Hn Hp) as [-> _].
    pose proof (control_of_proper key _ _ Hs) as Hctl'. injection Hctl' as -> _ _. rewrite Hfe. simpl. lia.
Qed.

(** How a stage ends: a cancellation of the stored stage or a completion reports success. *)
Inductive ends_stage (expected : BootstrapContext) (i : N) (w : world) : world → Prop :=
| ends_cancelled sg manifest :
    is_Some (stored_header (context_key expected) (w_db w)) →
    is_Some (stored_fence (context_key expected) (w_db w)) →
    (cancel sg manifest expected i w).1 = Ok tt →
    ends_stage expected i w (cancel sg manifest expected i w).2
| ends_completed sg receipt_bytes clock c :
    (complete sg receipt_bytes expected i clock w).1 = Ok c →
    ends_stage expected i w (complete sg receipt_bytes expected i clock w).2.

Lemma staged_past key d stage i :
  staged key d stage → parse_fence (hd_incarnation (sg_header stage)) = Ok i →
  hd_cancelled (sg_header stage) = true → stage_past i true (control_of key d).
Proof. intros [Hh _ _] Hi Hc. exists (sg_header stage), i. auto. Qed.

Lemma cancel_ends manifest expected i d u d' :
  is_Some (stored_header (context_key expected) d) → is_Some (stored_fence (context_key expected) d) →
  cancel_in_transaction manifest expected i d = Ok (u, d') →
  stage_past i true (control_of (context_key expected) d').
Proof.
  unfold cancel_in_transaction. set (key := context_key expected). intros [h Hh] [f0 Hf0] Hc.
  tx_next Hc as f with Hf.
  apply read_fence_Ok in Hf as [[_ Hno]|(raw & c & b & -> & Hp & Hs)]; [congruence|].
  tx_next Hc as os with Hl. unfold load_stage in Hl. apply result_bind_Ok in Hl as ([budget o] & Hi & [= ->]).
  apply inspect_stage_Ok in Hi. destruct os as [stage|]; [|congruence].
  tx_next Hc as u1 with Hb. apply stage_bound_Ok in Hb. case_decide; [done|]. case_decide as Hcons.
  { apply tx_ret_Ok in Hc as [= _ ->]. eapply staged_past; [done|done|]. by apply (sd_terminal _ _ _ Hi). }
  apply tx_bind_Ok in Hc as (u2 & d1 & _ & Hc). apply tx_bind_Ok in Hc as (r & d2 & Hu & Hw).
  apply tx_upsert_writes in Hu as [Hrow _].
  exists (cancelled_header (sg_header stage)), i. split; [|by auto].
  change (stored_header key d' = Some (cancelled_header (sg_header stage))).
  rewrite (frames_header _ _ _ _ (write_inactive_frames _ _ _ _ _ Hw)) by other_row.
  unfold stored_header. by rewrite Hrow.
Qed.

Lemma complete_ends receipt_bytes receipt expected i clock d c d' :
  complete_in_transaction receipt_bytes receipt expected i clock d = Ok (c, d') →
  stage_past i true (control_of (context_key expected) d').
Proof.
  intros (budget & stage & current & Hi & _ & Hinc & _ & Hc)%complete_outcome.
  apply inspect_stage_Ok in Hi. destruct c as [next|].
  - destruct Hc as [_ [_ _ _ _ [Hrow _]]].
    exists (consumed_header (sg_header stage) receipt_bytes (st_revision next)), i.
    split; [|by auto]. simpl. unfold stored_header. by rewrite Hrow.
  - destruct Hc as [Hc ->]. eapply staged_past; [done|done|]. apply (sd_terminal _ _ _ Hi). by rewrite Hc.
Qed.

Lemma ends_stage_past expected i w w' :
  ends_stage expected i w w' → stage_past i true (control_of (context_key expected) (w_db w')).
Proof.
  intros [sg manifest Hh Hf Hc|sg rb clock c Hc].
  - destruct (cancel sg manifest expected i w) as [r w1] eqn:E1. simpl in *. subst r.
    unfold cancel in E1. rename E1 into Hc. apply io_lift_value in Hc as (? & _ & Hc).
    apply in_transaction_value in Hc as (t & t' & Ht & Hc & Hw).
    pose proof (control_of_proper (context_key expected) _ _ Ht) as E0. injection E0 as Ef Eh _.
    rewrite Hw. rewrite <-Eh in Hh. rewrite <-Ef in Hf. by eapply cancel_ends.
  - destruct (complete sg rb expected i clock w) as [r w1] eqn:E1. simpl in *. subst r.
    apply complete_value in E1 as (receipt & t & t' & Ht & Hc%complete_ends & Hw). by rewrite Hw.
Qed.

(** A stage whose header is past [i] and, at [i], has ended. *)
Lemma saw_past key i d t open :
  same t d → stage_past i true (control_of key d) → saw_stage key i open t → ¬ open.
Proof.
  intros Hs (h & j & Hh & Hp & Hor) (stage & Hst & Hinc & Hopen) Ho.
  rewrite <-Hs in Hh. simpl in Hh. destruct Hst as [Hh' _ _]. rewrite Hh in Hh'. injection Hh' as ->.
  rewrite Hp in Hinc. injection Hinc as ->. rewrite (Hopen Ho) in Hor.
  destruct Hor as [|[_ Hend]]; [lia|]. by specialize (Hend eq_refl).
Qed.

(** ** What no sequence of calls can undo *)

(** C7: The stores follow one protocol.  Whatever calls are made, in whatever order and on
    whatever journals, with any of them failing or their commits left unknown, the fence,
    the stage header and the scope barrier of each journal move along the machine
    [control_step]: a stage begins with the next fence as its incarnation and only over an
    ended one, is consumed only when it is open and unbarred, a barrier is only strengthened,
    and no call on one journal touches another.  The counter of the fence never wraps. *)
Theorem store_run_control ops d d' key :
  store_run ops d d' → rtc control_step (control_of key d) (control_of key d').
Proof. apply run_control. Qed.

(** C8: A scope barrier stays.  Once a journal has one, no sequence of calls removes it or
    weakens a demand for quarantine, and as long as it is there no stage can be begun, no
    page stored and nothing installed: [begin] and [stage_page] fail, and [complete] can
    only repeat that an earlier completion had succeeded. *)
Theorem scope_barrier_sticky ops d w expected :
  store_run ops d (w_db w) → is_Some (stored_barrier (context_key expected) d) →
  barrier_le (stored_barrier (context_key expected) d) (stored_barrier (context_key expected) (w_db w)) ∧
  (∀ sg start manifest, is_ok (begin sg start manifest expected w).1 = false) ∧
  (∀ sg raw n, is_ok (stage_page sg raw expected n w).1 = false) ∧
  ∀ sg receipt_bytes n clock c,
    (complete sg receipt_bytes expected n clock w).1 = Ok c → c = HistoricalSuccess.
Proof.
  intros Hr%(run_barrier _ _ _ (context_key expected)) Hb. split; [done|]. destruct Hr as [Hsome _].
  assert (∀ t, same t (w_db w) → stored_barrier (context_key expected) t ≠ None) as Hbar.
  { intros t Ht. unfold stored_barrier. rewrite Ht. by apply not_eq_None_Some, Hsome. }
  split; [|split].
  - intros sg start manifest. destruct (begin _ _ _ _ w) as [[n|e] w'] eqn:E0; [|done].
    apply begin_value in E0 as (decoded & t & t' & Ht & [Hn _]%begin_saw & _). by destruct (Hbar t Ht).
  - intros sg raw n. destruct (stage_page _ _ _ _ w) as [[u|e] w'] eqn:E0; [|done].
    apply page_value in E0 as (page & t & t' & Ht & [_ Hn]%page_saw & _). by destruct (Hbar t Ht).
  - intros sg rb n clock c. destruct (complete _ _ _ _ _ w) as [r w'] eqn:E0. simpl. intros ->.
    apply complete_value in E0 as (receipt & t & t' & Ht & [_ Hn]%complete_saw & _).
    destruct c; [|done]. by destruct (Hbar t Ht (Hn ltac:(done))).
Qed.

(** C9: An ended stage stays ended.  Once a cancellation of the stored stage or a completion
    has reported success, no sequence of calls reopens that stage: storing one of its pages
    fails, completing it can only repeat that it had been completed, and every stage begun
    later has a greater incarnation, so that a caller that kept the old number cannot reach
    the new stage. *)
Theorem terminated_stage_final ops w0 w1 w expected i :
  ends_stage expected i w0 w1 → store_run ops (w_db w1) (w_db w) →
  (∀ sg raw, is_ok (stage_page sg raw expected i w).1 = false) ∧
  (∀ sg receipt_bytes clock c,
     (complete sg receipt_bytes expected i clock w).1 = Ok c → c = HistoricalSuccess) ∧
  (∀ sg start manifest n, (begin sg start manifest expected w).1 = Ok n → (i < n)%N).
Proof.
  intros Hends Hr.
  assert (stage_past i true (control_of (context_key expected) (w_db w))) as Hpast.
  { eapply run_stage; [done|]. by eapply ends_stage_past. }
  split; [|split].
  - intros sg raw. destruct (stage_page _ _ _ _ w) as [[u|e] w'] eqn:E0; [|done].
    apply page_value in E0 as (page & t & t' & Ht & [Hs _]%page_saw & _).
    by destruct (saw_past _ _ _ _ _ Ht Hpast Hs).
  - intros sg rb clock c. destruct (complete _ _ _ _ _ w) as [r w'] eqn:E0. simpl. intros ->.
    apply complete_value in E0 as (receipt & t & t' & Ht & [Hs _]%complete_saw & _).
    destruct c; [|done]. by destruct (saw_past _ _ _ _ _ Ht Hpast Hs).
  - intros sg start manifest n. destruct (begin _ _ _ _ w) as [r w'] eqn:E0. simpl. intros ->.
    apply begin_value in E0 as (decoded & t & t' & Ht & [_ Hs]%begin_saw & _).
    destruct Hpast as (h' & j & Hh' & Hj & Hor). rewrite <-Ht in Hh'.
    destruct (Hs h' Hh') as (j' & Hj' & Hn). rewrite Hj in Hj'. injection Hj' as <-.
    destruct (hd_cancelled h'); [lia|]. destruct Hor as [|[_ Hor]]; [lia|]. by specialize (Hor eq_refl).
Qed.

Lemma moves_advance key d d' c b :
  rtc (moves key) d d' → stored_fence key d = Some (c, b) →
  same d' d ∨ fence_below c (control_of key d').
Proof.
  intros Hr. revert c b. induction Hr as [|d d1 d' Hm Hr IH]; intros c b Hf; [by left|].
  destruct Hm as [[Hs|Hs] _].
  - assert (stored_fence key d1 = Some (c, b)) as Hf1.
    { pose proof (control_of_proper key _ _ Hs) as E0. injection E0 as -> _ _. done. }
    destruct (IH _ _ Hf1) as [Hsame|]; [left; by rewrite Hsame|by right].
  - right. destruct (control_step_fence _ _ _ _ Hs Hf) as (c1 & b1 & Hf1 & Hlt).
    destruct (IH _ _ Hf1) as [Hsame|(c2 & b2 & ? & ?)].
    + rewrite Hsame. by exists c1, b1.
    + exists c2, b2. split; [done|lia].
Qed.

(** C10: The fence tells every change.  From a journal with a fence, any sequence of calls on
    that journal either leaves the whole database as it was or has moved the counter of the
    fence up: a fence that reads the same again means that nothing was written between. *)
Theorem fence_advances ops d d' key c b :
  store_run ops d d' → Forall (λ op, op_key op = Some key) ops →
  stored_fence key d = Some (c, b) → same d' d ∨ fence_below c (control_of key d').
Proof.
  intros Hr Hops Hf. eapply moves_advance; [|done]. clear Hf.
  induction Hr as [d|op ops w d' Hpub _ IH]; [done|]. apply Forall_cons in Hops as [Hk Hops].
  etransitivity; [by eapply op_moves|by apply IH].
Qed.
End runs.

(** ** A run, step by step *)

#[local] Existing Instance sx_serde.

(** The record ids of the fixtures name no table of the journal. *)
Lemma plain_public s : public_state s.
Proof.
  intros id nid _. unfold native_record_id. destruct (_ <? _)%N; [done|]. simpl. unfold plain_record.
  destruct (split_colon id) as [[table key]|]; [|done].
  destruct (String.prefix "_" table) eqn:Hp; [done|]. case_decide; [done|]. intros [= <-] Ht.
  simpl in Ht. unfold CONTROL_TABLES in Ht. rewrite !elem_of_cons in Ht.
  by destruct Ht as [-> | [-> | [-> | []%not_elem_of_nil]]].
Qed.

Lemma plain_op_public op d : op_public op d.
Proof.
  assert (∀ key d, legacy_public key d) as Hleg by (intros key d0 x s _ _; apply plain_public).
  destruct op; simpl; try done.
  - split; [done|]. split; apply plain_public.
  - intros t _. split; intros; apply plain_public.
Qed.

Definition sx_after (ops : list store_op) (w : world) : world := foldl (λ w op, op_world op w) w ops.

Lemma sx_after_run ops w : store_run ops (w_db w) (w_db (sx_after ops w)).
Proof.
  revert w. induction ops as [|op ops IH]; intros w; simpl; [constructor|].
  apply run_cons; [apply plain_op_public|apply IH].
Qed.

(** Another manifest for the same journal. *)
Definition sy_manifest_bytes : list byte := Eval vm_compute in
  ok_value [] (encode_bootstrap_manifest
    (mkManifest "y" (bm_start_request_id sx_manifest) (bm_start_fingerprint sx_manifest) sx_context
       (mkCursor 1 2) default_limits (bm_page_count sx_manifest) (bm_record_count sx_manifest)
       (bm_content_bytes sx_manifest) (bm_root sx_manifest) 99)).

Definition sx_barrier (reason : string) : store_op :=
  SSaveBarrier (Some 0%N) nx_key (mkBarrier reason "items" "1" "1").
Definition sx_save : store_op := SSave (Some 0%N) None nx_empty.
Definition sx_begin : store_op := SBegin (Some 0%N) sx_start_bytes sx_manifest_bytes sx_context.
Definition sx_page : store_op := SPage (Some 0%N) sx_page_bytes sx_context 1.
Definition sx_cancel : store_op := SCancel (Some 0%N) sx_manifest_bytes sx_context 1.

(** A journal with an open stage, with its page, and with the stage cancelled. *)
Definition sx_open : world := Eval vm_compute in
  sx_after [sx_save; sx_begin] (mkWorld (mem_empty : db) 0).
Definition sx_staged_page : world := Eval vm_compute in sx_after [sx_page] sx_open.
Definition sx_cancelled : world :=
  (cancel (Some 0%N) sx_manifest_bytes sx_context 1 sx_staged_page).2.

(** A page and the end of its stage: the journal is left with an idle fence. *)
Lemma store_run_control_witness :
  stored_fence nx_key (w_db (sx_after [sx_page; sx_cancel] sx_open)) = Some (3%N, false) ∧
  rtc control_step (control_of nx_key (w_db sx_open))
    (control_of nx_key (w_db (sx_after [sx_page; sx_cancel] sx_open))).
Proof.
  split; [vm_compute; reflexivity|].
  exact (store_run_control _ _ _ nx_key (sx_after_run [sx_page; sx_cancel] sx_open)).
Defined.

(** A barrier over an open stage: a weaker one saved later keeps its demand. *)
Definition sx_barred : world := Eval vm_compute in
  sx_after [sx_barrier "pending_quarantine_required"] sx_open.
Lemma scope_barrier_sticky_witness :
  stored_reason (stored_barrier nx_key (w_db sx_barred)) = Some "pending_quarantine_required" ∧
  barrier_le (stored_barrier nx_key (w_db sx_barred))
    (stored_barrier nx_key (w_db (sx_after [sx_barrier "needs_new_scope_journal"; sx_page] sx_barred))).
Proof.
  split; [vm_compute; reflexivity|].
  refine (proj1 (scope_barrier_sticky _ (w_db sx_barred) _ sx_context
    (sx_after_run [sx_barrier "needs_new_scope_journal"; sx_page] sx_barred) _)).
  eexists. vm_compute. reflexivity.
Defined.

(** A cancelled stage and its successor. *)
Lemma terminated_stage_final_witness :
  (begin (Some 0%N) sx_start_bytes sy_manifest_bytes sx_context sx_cancelled).1 = Ok 4%N ∧
  is_ok (stage_page (Some 0%N) sx_page_bytes sx_context 1 sx_cancelled).1 = false ∧ (1 < 4)%N.
Proof.
  assert ((begin (Some 0%N) sx_start_bytes sy_manifest_bytes sx_context sx_cancelled).1 = Ok 4%N) as Hb
    by (vm_compute; reflexivity).
  assert (ends_stage sx_context 1 sx_staged_page sx_cancelled) as Hends.
  { apply (ends_cancelled sx_context 1 sx_staged_page (Some 0%N) sx_manifest_bytes).
    - exists (mkHeader 1 false "1" sx_start_bytes sx_manifest_bytes None None). vm_compute. reflexivity.
    - exists (2%N, true). vm_compute. reflexivity.
    - vm_compute. reflexivity. }
  destruct (terminated_stage_final [] _ _ sx_cancelled sx_context 1 Hends (sx_after_run [] _))
    as (Hp & _ & Hn).
  split; [exact Hb|]. split; [apply Hp|exact (Hn _ _ _ _ Hb)].
Defined.

(** A stored page moves the fence. *)
Lemma fence_advances_witness :
  stored_fence nx_key (w_db sx_open) = Some (1%N, true) ∧
  (same (w_db (sx_after [sx_page; sx_page] sx_open)) (w_db sx_open) ∨
   fence_below 1 (control_of nx_key (w_db (sx_after [sx_page; sx_page] sx_open)))).
Proof.
  assert (stored_fence nx_key (w_db sx_open) = Some (1%N, true)) as Hf by (vm_compute; reflexivity).
  split; [exact Hf|].
  exact (fence_advances [sx_page; sx_page] _ _ nx_key 1 true (sx_after_run _ _)
           ltac:(repeat constructor) Hf).
Defined.
